(* ===== verification/_CoqProject ===== *)
-Q . S2P
Prelude.v
GoStrings.v
Keys.v
KeyProps.v
Refs.v
Backend.v
Local.v
Chain.v
ChainFacts.v
ChainProps.v
ChainGrow.v
Store.v
Rely.v
Lease.v
LocalProps.v
Gc.v
GcProps.v
Claims.v
ClaimsProps.v
RefOps.v
Files.v
Wal.v
WalProps.v
GoUrl.v
S3Api.v
S3.v
FakeS3.v
FakeS3Props.v
S3Props.v
S3Multipart.v
S3Upload.v
S3List.v
S3Probe.v
Ltx.v
LtxProps.v
LtxModel.v
S3Examples.v
StreamProps.v
Session.v
SessionProps.v
SessionRun.v
Content.v
SessionExamples.v
Delta.v
DeltaProps.v
Checkpoint.v
CheckpointProps.v
CheckpointRun.v
CheckpointExamples.v
Repoint.v
RepointProps.v
NewLineage.v
ForkRun.v
RollbackRun.v
PromoteRun.v
ForkExamples.v
Flush.v
FlushProps.v
System.v
WalDb.v
WalDbProps.v
Capture.v
CaptureProps.v
CaptureDrain.v
CapturePoll.v
CaptureRun.v
CaptureShut.v
CaptureMain.v
CaptureTerm.v
WalDbModel.v
CaptureExamples.v
CaptureSession.v
CaptureSessionExamples.v
Events.v
Daemon.v
DaemonInv.v
DaemonRun.v
DaemonProps.v
DaemonOps.v
DaemonExamples.v
