(* ===== verification/Prelude.v ===== *)
(** * offshoot: a verification development

    offshoot versions SQLite databases as branches in an object store.  A branch
    is a _ref_, a small JSON record naming a _lineage_ and a head transaction; a
    lineage is a set of immutable LTX objects, snapshots and segments, under
    data/<lineage>/<epoch>/, and may name another lineage at a transaction as its
    _base_.  A head is read by resolving lineage and transaction to a chain of
    objects and applying them in order.  Writers hold a lease: its epoch is part of
    the key of what they write, so that the objects of a writer that lost its lease
    are recognised.  The only means of coordination is a conditional write of a
    single object.

    ** The parts, and where they are modelled

    - [Prelude]: errors, results, machine integers, sorting, automation.
      [GoStrings]: the Go library's string functions the source uses.
    - [Keys], [KeyProps] (internal/store/store.go and others): names, object keys,
      their parsers and targets.
    - [Refs] (internal/store/store.go, lease.go; internal/ops): the ref and its wire
      form in both schemas, and the pure predicates on it.
    - [Backend] (internal/store/backend.go): the object store, and the monad [IO] in
      which every program over it is written.  [Rely]: what a program may assume of
      the others.  [Local], [LocalProps] (internal/store/local.go): the directory
      backend as a machine of single system calls.
    - [GoUrl] (the part of net/url and strconv used), [S3Api] (the AWS SDK and the
      service, as a client with laws), [S3] (internal/store/s3.go, s3_multipart.go,
      probe.go): the S3 backend.  [S3Props], [S3Multipart], [S3Upload]: one
      request and the sizes of parts, uploads in parts.  [S3List],
      [S3Probe]: listings, bulk deletes, the probe.  [FakeS3], [FakeS3Props]
      (internal/store/storetest/fakes3.go): the server of the tests;
      [S3Examples]: the backend run on it.
    - [Store] (internal/store/store.go): manifest, refs and bases.  [Chain],
      [ChainFacts], [ChainProps], [ChainGrow]: chain resolution.
    - [Lease] (internal/store/lease.go): acquire, renew, release.
    - [Gc], [GcProps], [Claims], [ClaimsProps] (internal/ops/gc.go, reap.go):
      collection, destroy and reap.  [RefOps] (touch.go, protect.go, prune.go).
    - [Files], [Wal], [WalProps] (internal/wal): bytes, files, and the reader of
      SQLite's write-ahead log.
    - [Ltx], [LtxProps], [LtxModel], [StreamProps] (internal/ltxio): snapshots,
      segments, checksums and their application.
    - [Session], [SessionProps], [SessionRun], [SessionExamples]
      (internal/session/session.go, pages.go, flush.go; internal/replay): a live
      session's replica, its pending pages and what a flush encodes.  [Flush],
      [FlushProps] (flush.go, renew.go): the flush as a whole, renewal, release.
    - [WalDb], [WalDbProps]: a database in SQLite's WAL mode, as a parameter.
      [Capture] (internal/capture/engine.go, state.go): the capture engine;
      [CaptureProps], [CaptureDrain], [CapturePoll], [CaptureRun], [CaptureShut],
      [CaptureMain]: its operations one by one, its polls, its start and its end;
      [CaptureTerm]: its loops end.  [CaptureSession] (session.go): the session as
      the engine's sink.  [WalDbModel], [CaptureExamples],
      [CaptureSessionExamples]: an executable database and runs over it.
    - [Delta], [DeltaProps] (internal/ops/sidecar.go, chain_cache.go,
      checkpoint_delta.go): the checkout's sidecar and the page delta.
    - [Checkpoint], [CheckpointProps], [CheckpointRun], [CheckpointExamples]
      (internal/ops/checkpoint_lease.go, ops.go): checkpoints at rest.
    - [Repoint], [RepointProps], [NewLineage], [ForkRun], [RollbackRun],
      [PromoteRun], [ForkExamples] (internal/ops/ops.go, materialize.go): create,
      fork, rollback, promote, compact.
    - [System]: all operations together.
    - [Events] (internal/daemon/events.go): the daemon's event bus
      and the loops that drain a subscription.  [Daemon] (server.go): its slots, and
      the goroutines that open, close and shut down; [DaemonInv],
      [DaemonRun], [DaemonProps]: the invariant and what follows from
      it.  [DaemonOps]: the other requests and their guards.  [DaemonExamples].

    ** How the code becomes definitions

    A Go function that only computes is a Rocq function to [res]: a value, or the
    codes on the error's [Unwrap] chain.  One that calls the store is an [IO]
    program.  It runs in a [world] with a schedule, one [tick] per store call, that
    says what the other processes do to the store before the call (any function),
    how much time passes, and whether the call fails, loses its reply, or has its
    reply replaced by a conflict with itself.  A statement about every world is
    about every interleaving and every pattern of faults; [calm] worlds are the
    sequential ones.  Go's 64-bit arithmetic is [N] with [add64] and [sub64].  Code
    that is not in the repository is a parameter: the LTX codec is the class
    [LtxLib] with the codec's documented laws, instantiated in [LtxModel] so that
    the theorems can be evaluated; SHA-256 and the random lineage ids are
    arguments.

    The S3 backend is below [IO]: its operations are programs of [SIO], over any
    service of the classes [S3Client] and [S3Laws], with a schedule of its own, one
    [stick] per request: what other clients do first, and whether the request or its
    answer is lost.  A deadline is such a fault, and a request
    that was given up may still reach the service later, as a move of the others.
    The upload of parts by several
    goroutines is a pool of moves, among which the schedule picks, so that a theorem
    about it is about every order.  [s3_refines_backend] ties the two levels: each
    operation is one call of [Backend], under some [tick].  The fake server of the
    tests is an instance ([fake_server_lawful]), so the laws are consistent.

    The capture engine is the one part with a state that others change while it
    runs.  It is a program over its fields and a [sys]: the database, the sink, the
    state file.  A schedule says, for every call it makes, what other connections
    did to the database before it (any sequence of the steps of [env_step]: commits,
    folds, restarts and truncations of the log), whether the call fails, what the
    clock and the contexts read, and which flush moves came before a call of the
    sink.  SQLite itself is the class [WalDb] with the documented behaviour
    [WalDbLaws]; what the sink promises the engine is [SinkLaws], which
    [CaptureSession] proves of the session.  [calm] (CaptureProps) is what the
    engine's guarantees leave out: the moments in which it cannot tell.  Each loop
    of the engine has a deadline; [engine_terminates] shows that a fuel above the
    calls made before the clock passes it is enough.

    The daemon is a pool of goroutines over the fields of [Server]: each stands at a
    [pc], and one section under [s.mu] is one [step].  What a session's open or
    close answers, and whether a timer fires, is the [choice] of the step, so that a
    theorem about reachable states is about every interleaving and every outcome.
    Slots have addresses, since [closeSlot] compares them.  [Core_step] is the frame
    rule by which each section is checked at its own branch only; the measure behind
    [every_request_answered] counts the closes still to come.

    Retry loops that the source leaves unbounded take fuel from the length of the
    schedule: losing a compare-and-swap uses up an interfering tick, which
    [loop_terminates], [ref_loops_terminate] and [flush_commit_safe] turn into
    totality.  Walks of the base spine take fuel from [v_bound], one more than the
    objects there are; [spine_walks_terminate] shows it is never reached.

    ** What the theorems show

    - Resolution.  [Chain_exact], [Chain_is_reference] and [Chain_sound] give the
      meaning of a chain; [straggler_inert] and [fork_isolated] say that a fenced
      writer's objects and a parent's later writes change nothing;
      [CollapseBase_equiv], [spine_walks_terminate].
    - Content.  A head means a database ([Content]): [flush_durable] and
      [idle_is_durable] (by induction over the steps of a session and its capture
      engine), [checkpoint_durable], [fork_content], [rollback_content],
      [promote_content] and [compact_content] show that each operation, on a
      store nothing else writes, records, shares or restores exactly the database
      it should, replaces an earlier backup, and is refused where it would replace
      a branch that is not one.  [flush_durable] is about the runs in which a
      segment is encoded at the replica's page count; the code does not check it
      ([stale_commit_unreadable]).  They rest on
      [segment_apply_exact], [record_apply_exact], [delta_roundtrip],
      [stream_checksum_exact], [wal_roundtrip], [wal_poll_stable] and
      [wal_next_total].
    - Capture, in the terms of [calm].  [capture_prefix]: the replica is the database
      after a prefix of its transactions, none skipped; [request_complete]: a served request has
      captured what was committed before it; [restart_misses_nothing];
      [engine_terminates].  Composed with the session: [head_is_committed_prefix],
      what a branch resolves to is a committed state, and
      [flush_captures_commits], a flush saves everything committed before it, both
      for sessions whose segments were encoded at the replica's page count
      ([se_sized], a history variable).
    - Coordination, on every schedule.  [commit_exactly_once], [flush_commit_safe]
      and [repoint_settled]: a head write lands at most once, its verdict is right
      though replies get lost, and no object in use is removed; for a flush, while
      nobody moves its branch to another lineage ([flush_removes_backup_head]).
      [acquire_exclusive], [acquire_available], [renew_release_own] and, for the
      whole program, [one_holder_per_epoch].  [destroy_never_kills_live_lease],
      [reap_never_kills_live_lease], [destroy_outcome].
    - Collection.  [gc_preserves_chains], [gc_deletes_unneeded],
      [gc_respects_grace], [gc_collects].
    - The backends implement the interface.  [local_cas_atomic] is a linearization
      of the directory backend's system calls, crashes included.
      [s3_refines_backend] places an operation of the S3 backend on one object,
      single or in parts, at one of its requests, for the calls [call_ok] names;
      [multipart_settles_upload], [part_plan],
      [copy_object_exact], [list_under_concurrency] (with its bound on the pages),
      [delete_objects_exact], [copy_source_roundtrip], [probe_accepts].
    - The daemon.  [one_session_per_branch]; [shutdown_closes_everything];
      [every_request_answered], under every schedule; [close_by_id_exact];
      [subscriber_tracks_sessions], the order of its events, and
      [socket_stream_faithful], how they reach a client; [requests_guarded], what
      runs only on a branch no session has, until a shutdown begins:
      [self_close_unclaimed] shows the branch that looks free after.
    - Keys and metadata: [member_key_bounds]; [prune_keeps_newest] and [prune_exact].

    Four theorems are about faults.  [takeover_gap] (CaptureExamples): a transaction
    committed and wholly checkpointed between a takeover's RESTART and its read
    transaction is lost without notice.  [stale_clean_mark]: a resumed engine that
    stops before its first write of the state file leaves a clean mark over a
    replica that has moved on.  [stale_commit_unreadable] (SessionExamples): a
    rebase that changes the page count leaves a stale size behind, and the second
    flush after it can write a segment no reader accepts.
    [flush_removes_backup_head] (FlushProps): a flush whose landed head write was
    reported as a conflict deletes its object when the branch has been rolled back
    since, though the rollback's backup still names it.

    ** Not modelled

    What the service goes on storing of an upload after it is over (a part whose
    request was given up may turn up at any moment, as a move of the others, but
    only an upload in progress is looked at); compares against the ETag of an
    object uploaded in parts, and If-Match uploads in parts; the hooks by which
    the fake server delays requests; parsing store specs and the environment; JSON
    text below the wire records, opening and closing sessions and checkouts, the
    counters and channels by which other goroutines watch the capture engine, a
    session that resumes on a scratch directory it is given, the local files
    refreshed after a repoint, the read-only cache, status and diff reports, the
    daemon's sockets, HTTP server and janitor, the MCP server and the command line.
    Next in order: the close of a session, the branch status and the janitor. *)
From stdpp Require Export base tactics option gmap strings sorting numbers list.
From Stdlib Require Import Lia.

(** ** Errors

    A Go error is modelled by the list of codes on its [Unwrap] chain, the
    outermost first, so that [errors.Is] is membership.  The first group are
    the sentinels the source declares; the others name the untyped
    [fmt.Errorf] errors whose occurrence matters to a caller. *)
Inductive ecode :=
  | ErrNotFound | ErrCAS | ErrCopyUnsupported | ErrLeaseHeld | ErrLeaseLost
  | ErrReaping | ErrDeleting | ErrHolderMismatch | ErrNoSnapshotCoversTarget
  | ErrNoCAS | ErrDetachedCheckout
  | EIO | EBadName | EBadKey | ECorrupt | ENewer | ESelfBase | ECycle | EHole | EShort | ESeam
  | EHolderEmpty | EProtected | EExists | ENoCheckpoint | EBeingReaped
  | EBeingRemoved | EBadArgs | EFuel | EBadMagic | EBadVersion | EChecksum
  | EWALRestarted | EEmptyTxn | ENoCommit | EHeader | ERange | EUnsorted
  | EPageSize | EPreApply | EPostApply | EGrowth | ECommitTooLarge | ELockPage
  | EShadowDiverged | EPageSizeChanged | ETooLong | EClosed | EFenced
  | EHeldUp | EMayHaveCommitted | ECheckout | ECanceled | EBusy | EDrainIncomplete | EAbort.

#[global] Instance ecode_eq_dec : EqDecision ecode.
Proof. solve_decision. Defined.

Definition error : Type := list ecode.

(** [errors.Is(err, sentinel)]. *)
Definition errors_Is (e : error) (c : ecode) : bool := bool_decide (c ∈ e).

(** ** Fallible computations *)
Inductive res (A : Type) : Type :=
  | Ok (a : A)
  | Err (e : error).
Arguments Ok {A} a.
Arguments Err {A} e.

#[global] Instance res_ret : MRet res := λ A a, Ok a.
#[global] Instance res_bind : MBind res := λ A B f r,
  match r with Ok a => f a | Err e => Err e end.
#[global] Instance res_fmap : FMap res := λ A B f r,
  match r with Ok a => Ok (f a) | Err e => Err e end.

(** [is_ok r]: the call returned a nil error. *)
Definition is_ok {A} (r : res A) : bool := match r with Ok _ => true | Err _ => false end.

#[global] Instance res_eq_dec `{EqDecision A} : EqDecision (res A).
Proof. solve_decision. Defined.

Lemma res_bind_ok {A B} (f : A → res B) (r : res A) b :
  r ≫= f = Ok b ↔ ∃ a, r = Ok a ∧ f a = Ok b.
Proof. destruct r; simpl; naive_solver. Qed.

(** ** Machine integers

    Go's [uint64] and [uint32] are [N] with the wrap-around written out. *)
Definition u64_size : N := 18446744073709551616.
Definition u32_size : N := 4294967296.
Definition add64 (a b : N) : N := (a + b) mod u64_size.
Definition sub64 (a b : N) : N := (a + u64_size - b) mod u64_size.
Definition add32 (a b : N) : N := (a + b) mod u32_size.
Definition u64 (n : N) : Prop := (n < u64_size)%N.
Definition u32 (n : N) : Prop := (n < u32_size)%N.

#[global] Instance u64_dec n : Decision (u64 n).
Proof. unfold u64. apply _. Defined.
#[global] Instance u32_dec n : Decision (u32 n).
Proof. unfold u32. apply _. Defined.

Lemma add64_small a b : (a + b < u64_size)%N → add64 a b = (a + b)%N.
Proof. intros. unfold add64. by apply N.mod_small. Qed.

Lemma sub64_add64 a : u64 a → sub64 (add64 a 1) 1 = a.
Proof.
  unfold u64, sub64, add64. intros Ha. destruct (decide (a + 1 < u64_size)%N) as [Hlt|Hge].
  - rewrite (N.mod_small (a + 1)) by done. replace (a + 1 + u64_size - 1)%N with (a + 1 * u64_size)%N by lia.
    rewrite N.Div0.mod_add. by apply N.mod_small.
  - assert (a = u64_size - 1)%N as -> by lia. done.
Qed.

Lemma add64_u64 a b : u64 (add64 a b).
Proof. unfold add64, u64. apply N.mod_lt. done. Qed.

Lemma add32_small a b : (a + b < u32_size)%N → add32 a b = (a + b)%N.
Proof. intros. unfold add32. by apply N.mod_small. Qed.

(** ** Tactics shared by the development *)

(** Case on the innermost [match] or [if] of a hypothesis or of the goal. *)
Ltac break_match_hyp :=
  match goal with
  | H : context [ match ?x with _ => _ end ] |- _ =>
      lazymatch x with
      | context [ match _ with _ => _ end ] => fail
      | _ => let E := fresh "E" in destruct x eqn:E
      end
  end.
Ltac break_match_goal :=
  match goal with
  | |- context [ match ?x with _ => _ end ] =>
      lazymatch x with
      | context [ match _ with _ => _ end ] => fail
      | _ => let E := fresh "E" in destruct x eqn:E
      end
  end.
Ltac break_match := break_match_goal || break_match_hyp.

(** Turn boolean tests into propositions. *)
Ltac bool_to_prop :=
  repeat match goal with
  | H : andb _ _ = true |- _ => apply andb_true_iff in H as [??]
  | H : orb _ _ = false |- _ => apply orb_false_iff in H as [??]
  | H : negb _ = true |- _ => apply negb_true_iff in H
  | H : negb _ = false |- _ => apply negb_false_iff in H
  | H : bool_decide _ = true |- _ => apply bool_decide_eq_true_1 in H
  | H : bool_decide _ = false |- _ => apply bool_decide_eq_false_1 in H
  | H : (_ <? _)%N = true |- _ => apply N.ltb_lt in H
  | H : (_ <? _)%N = false |- _ => apply N.ltb_ge in H
  | H : (_ <=? _)%N = true |- _ => apply N.leb_le in H
  | H : (_ <=? _)%N = false |- _ => apply N.leb_gt in H
  | H : (_ =? _)%N = true |- _ => apply N.eqb_eq in H
  | H : (_ =? _)%N = false |- _ => apply N.eqb_neq in H
  | H : (_ <? _)%Z = true |- _ => apply Z.ltb_lt in H
  | H : (_ <? _)%Z = false |- _ => apply Z.ltb_ge in H
  | H : (_ <=? _)%Z = true |- _ => apply Z.leb_le in H
  | H : (_ <=? _)%Z = false |- _ => apply Z.leb_gt in H
  end.

Create HintDb offshoot discriminated.

(** ** Generic list lemmas *)

(** [sort_by] is [sort.Slice] with a total preorder: a stable merge sort
    decides ties by input order; the callers below never depend on ties. *)
Definition sort_by {A} (R : relation A) `{!RelDecision R} (l : list A) : list A :=
  merge_sort R l.

Lemma sort_by_perm {A} (R : relation A) `{!RelDecision R} (l : list A) :
  sort_by R l ≡ₚ l.
Proof. apply merge_sort_Permutation. Qed.

Lemma elem_of_sort_by {A} (R : relation A) `{!RelDecision R} (l : list A) x :
  x ∈ sort_by R l ↔ x ∈ l.
Proof. by rewrite sort_by_perm. Qed.

Lemma sort_by_sorted {A} (R : relation A) `{!RelDecision R, !Transitive R, !Total R} (l : list A) :
  StronglySorted R (sort_by R l).
Proof. apply StronglySorted_merge_sort; apply _. Qed.

(** Sorting forgets the input order when the order is antisymmetric on the
    elements present. *)
Lemma sort_by_unique {A} (R : relation A) `{!RelDecision R, !Transitive R, !Total R} (l1 l2 : list A) :
  (∀ x y, x ∈ l1 → y ∈ l1 → R x y → R y x → x = y) →
  l1 ≡ₚ l2 → sort_by R l1 = sort_by R l2.
Proof.
  intros Hanti Hp.
  apply (StronglySorted_unique_strong R).
  - intros x y Hx Hy. rewrite elem_of_sort_by in Hx. rewrite elem_of_sort_by in Hy.
    intros. apply Hanti; [done| |done..]. by rewrite Hp.
  - by apply sort_by_sorted.
  - by apply sort_by_sorted.
  - by rewrite !sort_by_perm.
Qed.

Lemma Forall_filter_any {A} (P Q : A → Prop) `{!∀ x, Decision (Q x)} (l : list A) :
  Forall P l → Forall P (filter Q l).
Proof. rewrite !Forall_forall. intros HP x [_ Hx]%list_elem_of_filter. auto. Qed.

Lemma filter_every {A} (P : A → Prop) `{!∀ x, Decision (P x)} (l : list A) : (∀ x, x ∈ l → P x) → filter P l = l.
Proof.
  induction l as [|x l IH]; intros HP; [done|]. rewrite filter_cons_True by (apply HP; constructor).
  f_equal. apply IH. intros y Hy. apply HP. by constructor.
Qed.

Lemma filter_no {A} (P : A → Prop) `{!∀ x, Decision (P x)} (l : list A) : (∀ x, x ∈ l → ¬ P x) → filter P l = [].
Proof.
  induction l as [|x l IH]; intros HP; [done|]. rewrite filter_cons_False by (apply HP; constructor).
  apply IH. intros y Hy. apply HP. by constructor.
Qed.

Lemma size_list_to_set_le (l : list string) : (size (list_to_set l : gset string) <= length l)%nat.
Proof.
  induction l as [|x l IH]; simpl; [done|]. rewrite size_union_alt, size_singleton.
  assert (size ((list_to_set l : gset string) ∖ {[x]}) <= size (list_to_set l : gset string))%nat;
    [apply subseteq_size; set_solver|lia].
Qed.

Lemma StronglySorted_remove {A} (R : relation A) (l1 l2 : list A) x :
  StronglySorted R (l1 ++ x :: l2) → StronglySorted R (l1 ++ l2).
Proof.
  induction l1 as [|y l1 IH]; simpl; intros [Hs Hf]%StronglySorted_inv; [done|].
  constructor; [by apply IH|]. apply Forall_app in Hf as [? Hf]. apply Forall_cons in Hf as [_ ?].
  by apply Forall_app.
Qed.
