(* ===== verification/GoStrings.v ===== *)
(** * The parts of Go's [strings], [strconv] and [fmt] packages the source uses

    Strings are byte strings.  [Split] is [strings.Split] with a one-byte
    separator; [ParseUint] is [strconv.ParseUint(s, base, 64)] for base 10
    and 16; [fmt_d] and [fmt_016x] are the verbs [%d] and [%016x] on a
    [uint64]. *)
From S2P Require Import Prelude.
From Stdlib Require Import Ascii String.
Local Open Scope string_scope.
#[global] Arguments String.append !s1 s2 : simpl nomatch.

(** ** Prefixes, suffixes, substrings *)

(** [strings.CutPrefix(s, p)]; [None] when [s] does not start with [p]. *)
Fixpoint CutPrefix (p s : string) : option string :=
  match p, s with
  | EmptyString, _ => Some s
  | String a p', String b s' => if decide (a = b) then CutPrefix p' s' else None
  | String _ _, EmptyString => None
  end.

(** [strings.HasPrefix(s, p)]. *)
Definition HasPrefix (s p : string) : bool :=
  match CutPrefix p s with Some _ => true | None => false end.

(** [strings.TrimPrefix(s, p)]. *)
Definition TrimPrefix (s p : string) : string := default s (CutPrefix p s).

(** [strings.HasSuffix(s, suf)]. *)
Fixpoint HasSuffix (s suf : string) : bool :=
  bool_decide (s = suf) ||
  match s with EmptyString => false | String _ s' => HasSuffix s' suf end.

(** [strings.TrimSuffix(s, suf)]. *)
Fixpoint TrimSuffix (s suf : string) : string :=
  if decide (s = suf) then ""
  else match s with EmptyString => "" | String c s' => String c (TrimSuffix s' suf) end.

(** [strings.Contains(s, sub)]. *)
Fixpoint Contains (s sub : string) : bool :=
  HasPrefix s sub ||
  match s with EmptyString => false | String _ s' => Contains s' sub end.

(** [strings.Split(s, sep)] for a one-byte separator: never empty. *)
Fixpoint Split (s : string) (sep : ascii) : list string :=
  match s with
  | EmptyString => [""]
  | String c s' =>
      if decide (c = sep) then "" :: Split s' sep
      else match Split s' sep with
           | [] => [String c ""]
           | w :: ws => String c w :: ws
           end
  end.

(** [strings.Cut(s, sep)] for a one-byte separator. *)
Fixpoint Cut (s : string) (sep : ascii) : option (string * string) :=
  match s with
  | EmptyString => None
  | String c s' =>
      if decide (c = sep) then Some ("", s')
      else match Cut s' sep with
           | Some (a, b) => Some (String c a, b)
           | None => None
           end
  end.

(** [strings.Join(l, sep)] for a one-byte separator. *)
Fixpoint Join (l : list string) (sep : ascii) : string :=
  match l with
  | [] => ""
  | [w] => w
  | w :: ws => w +:+ String sep (Join ws sep)
  end.

(** Every byte of [s] satisfies [f]. *)
Fixpoint all_chars (f : ascii → bool) (s : string) : bool :=
  match s with EmptyString => true | String c s' => f c && all_chars f s' end.

(** ** Numbers *)

(** The value of a digit byte in [strconv.ParseUint]. *)
Definition digit_val (c : ascii) : option N :=
  let n := N_of_ascii c in
  if (48 <=? n)%N && (n <=? 57)%N then Some (n - 48)%N
  else if (97 <=? n)%N && (n <=? 102)%N then Some (n - 87)%N
  else if (65 <=? n)%N && (n <=? 70)%N then Some (n - 55)%N
  else None.

Fixpoint parse_digits (base acc : N) (s : string) : option N :=
  match s with
  | EmptyString => Some acc
  | String c s' =>
      match digit_val c with
      | Some d => if (d <? base)%N then parse_digits base (acc * base + d) s' else None
      | None => None
      end
  end.

(** [strconv.ParseUint(s, base, 64)], base 10 or 16: no sign, no underscore,
    at least one digit, and a value that fits. *)
Definition ParseUint (s : string) (base : N) : option N :=
  match s with
  | EmptyString => None
  | _ => match parse_digits base 0 s with
         | Some n => if decide (u64 n) then Some n else None
         | None => None
         end
  end.

(** The lower-case digit byte of [d < 16]. *)
Definition digit_char (d : N) : ascii :=
  ascii_of_N (if (d <? 10)%N then d + 48 else d + 87)%N.

(** The [k] least significant base-[base] digits of [n], most significant
    first, in front of [acc]. *)
Fixpoint fmt_digits (base : N) (k : nat) (n : N) (acc : string) : string :=
  match k with
  | O => acc
  | S k' => fmt_digits base k' (n / base)%N (String (digit_char (n mod base)%N) acc)
  end.

(** [%016x] of a [uint64]. *)
Definition fmt_016x (n : N) : string := fmt_digits 16 16 n "".

(** The number of decimal digits of [n], at least one, at most [fuel]. *)
Fixpoint dec_width (fuel : nat) (n : N) : nat :=
  match fuel with
  | O => 1
  | S f => if (n <? 10)%N then 1 else S (dec_width f (n / 10)%N)
  end.

(** [%d] of a [uint64]: at most 20 digits. *)
Definition fmt_d (n : N) : string := fmt_digits 10 (dec_width 20 n) n "".

(** ** Lemmas *)

Lemma string_app_assoc (a b c : string) : (a +:+ b) +:+ c = a +:+ (b +:+ c).
Proof. induction a; simpl; congruence. Qed.

Lemma string_app_nil_r (a : string) : a +:+ "" = a.
Proof. induction a; simpl; congruence. Qed.

Lemma CutPrefix_app p s : CutPrefix p (p +:+ s) = Some s.
Proof. induction p as [|c p IH]; simpl; [done|]. by rewrite decide_True. Qed.

Lemma CutPrefix_Some p s t : CutPrefix p s = Some t ↔ s = p +:+ t.
Proof.
  split; [|intros ->; apply CutPrefix_app].
  revert s t. induction p as [|c p IH]; intros s t; simpl; [naive_solver|].
  destruct s as [|d s]; [done|]. case_decide; [|done]. intros Ht%IH. by subst.
Qed.

Lemma HasPrefix_app s p : HasPrefix (p +:+ s) p = true.
Proof. unfold HasPrefix. by rewrite CutPrefix_app. Qed.

Lemma HasPrefix_spec s p : HasPrefix s p = true ↔ ∃ t, s = p +:+ t.
Proof.
  unfold HasPrefix. destruct (CutPrefix p s) as [t|] eqn:E.
  - apply CutPrefix_Some in E. split; [eauto|done].
  - split; [done|]. intros [t ->]. by rewrite CutPrefix_app in E.
Qed.

Lemma HasSuffix_app s p : HasSuffix (p +:+ s) s = true.
Proof.
  induction p as [|c p IH]; simpl.
  - destruct s; cbn [HasSuffix]; by rewrite (bool_decide_eq_true_2 (_ = _)).
  - by rewrite IH, orb_true_r.
Qed.

Lemma HasSuffix_spec s suf : HasSuffix s suf = true ↔ ∃ p, s = p +:+ suf.
Proof.
  split; [|intros [p ->]; apply HasSuffix_app].
  induction s as [|c s IH]; simpl; intros H; apply orb_true_iff in H as [H|H].
  - apply bool_decide_eq_true_1 in H as <-. by exists "".
  - done.
  - apply bool_decide_eq_true_1 in H as <-. by exists "".
  - destruct (IH H) as [p ->]. by exists (String c p).
Qed.

Lemma string_app_length (a b : string) :
  String.length (a +:+ b) = String.length a + String.length b.
Proof. induction a; simpl; congruence. Qed.

Lemma TrimSuffix_app p suf : TrimSuffix (p +:+ suf) suf = p.
Proof.
  induction p as [|c p IH]; simpl.
  - destruct suf; cbn [TrimSuffix]; by rewrite decide_True.
  - rewrite decide_False; [by rewrite IH|].
    intros H%(f_equal String.length). simpl in H.
    rewrite string_app_length in H. lia.
Qed.

Lemma TrimPrefix_app p s : TrimPrefix (p +:+ s) p = s.
Proof. unfold TrimPrefix. by rewrite CutPrefix_app. Qed.

Lemma all_chars_app f a b : all_chars f (a +:+ b) = all_chars f a && all_chars f b.
Proof. induction a; simpl; [done|]. rewrite IHa. apply andb_assoc. Qed.

Lemma all_chars_impl (f g : ascii → bool) s :
  (∀ c, f c = true → g c = true) → all_chars f s = true → all_chars g s = true.
Proof.
  intros Hfg. induction s; simpl; [done|].
  rewrite !andb_true_iff. intros [??]; eauto.
Qed.

Lemma Split_cons_nonempty s sep : Split s sep ≠ [].
Proof. destruct s; simpl; [done|]. repeat case_match; done. Qed.

(** A word free of the separator is split off whole. *)
Lemma Split_word w s sep :
  all_chars (λ c, bool_decide (c ≠ sep)) w = true →
  Split (w +:+ String sep s) sep = w :: Split s sep.
Proof.
  induction w as [|c w IH]; simpl; [by rewrite decide_True|].
  rewrite andb_true_iff, bool_decide_eq_true. intros [Hc Hw].
  by rewrite decide_False, IH.
Qed.

Lemma Split_last w sep :
  all_chars (λ c, bool_decide (c ≠ sep)) w = true → Split w sep = [w].
Proof.
  induction w as [|c w IH]; simpl; [done|].
  rewrite andb_true_iff, bool_decide_eq_true. intros [Hc Hw].
  by rewrite decide_False, IH.
Qed.

Lemma Join_Split s sep : Join (Split s sep) sep = s.
Proof.
  induction s as [|c s IH]; simpl; [done|].
  pose proof (Split_cons_nonempty s sep).
  case_decide; subst.
  - simpl. destruct (Split s sep); [done|]. by rewrite IH.
  - destruct (Split s sep) as [|w ws]; [done|].
    destruct ws; simpl in *; by rewrite <- IH.
Qed.

Lemma Split_no_sep s sep : Forall (λ w, all_chars (λ c, bool_decide (c ≠ sep)) w = true) (Split s sep).
Proof.
  induction s as [|c s IH]; simpl; [by repeat constructor|].
  case_decide; [by constructor|].
  destruct (Split s sep) as [|w ws]; simpl; [|inv IH].
  - constructor; [|done]. simpl. by rewrite bool_decide_eq_true_2.
  - constructor; [|done]. simpl. rewrite bool_decide_eq_true_2 by done. done.
Qed.

Lemma Cut_word w s sep :
  all_chars (λ c, bool_decide (c ≠ sep)) w = true →
  Cut (w +:+ String sep s) sep = Some (w, s).
Proof.
  induction w as [|c w IH]; simpl; [by rewrite decide_True|].
  rewrite andb_true_iff, bool_decide_eq_true. intros [Hc Hw].
  by rewrite decide_False, IH.
Qed.

Lemma Cut_Some s sep a b : Cut s sep = Some (a, b) → s = a +:+ String sep b.
Proof.
  revert a. induction s as [|c s IH]; intros a; simpl; [done|].
  case_decide; [naive_solver|].
  destruct (Cut s sep) as [[x y]|]; [|done]. intros [= <- <-]. simpl. f_equal. eauto.
Qed.

Lemma digit_val_char d : (d < 16)%N → digit_val (digit_char d) = Some d.
Proof.
  intros Hd. destruct d as [|p]; [done|].
  do 5 (destruct p as [p|p|]; try done; try lia).
Qed.

Lemma parse_fmt_digits base k n acc s :
  (1 < base ≤ 16)%N → (n < base ^ N.of_nat k)%N →
  parse_digits base acc (fmt_digits base k n s)
  = parse_digits base (acc * base ^ N.of_nat k + n) s.
Proof.
  intros Hb. revert n acc s. induction k as [|k IH]; intros n acc s Hn.
  - simpl. change (N.of_nat 0) with 0%N in *. rewrite N.pow_0_r in *. f_equal. lia.
  - rewrite Nat2N.inj_succ, N.pow_succ_r in Hn by lia. simpl fmt_digits.
    rewrite IH.
    + simpl. pose proof (N.mod_lt n base). rewrite digit_val_char by lia.
      destruct (N.ltb_spec (n mod base) base); [|lia]. f_equal.
      rewrite Nat2N.inj_succ, N.pow_succ_r by lia.
      pose proof (N.div_mod n base). nia.
    + apply N.Div0.div_lt_upper_bound; lia.
Qed.

Lemma fmt_digits_app base k n s t :
  fmt_digits base k n (s +:+ t) = fmt_digits base k n s +:+ t.
Proof.
  revert n s. induction k as [|k IH]; intros n s; simpl; [done|].
  by rewrite <- IH.
Qed.

Lemma fmt_digits_cons base k n s : fmt_digits base k n s = fmt_digits base k n "" +:+ s.
Proof. by rewrite <- fmt_digits_app. Qed.

Lemma fmt_digits_length base k n s :
  String.length (fmt_digits base k n s) = k + String.length s.
Proof.
  revert n s. induction k as [|k IH]; intros n s; simpl; [done|].
  rewrite IH. simpl. lia.
Qed.

Lemma dec_width_bound fuel n :
  (n < 10 ^ N.of_nat (S fuel))%N → (n < 10 ^ N.of_nat (dec_width fuel n))%N.
Proof.
  revert n. induction fuel as [|f IH]; intros n Hn; simpl dec_width.
  - done.
  - destruct (N.ltb_spec n 10); [done|].
    rewrite Nat2N.inj_succ, N.pow_succ_r in Hn |- * by lia.
    assert (n / 10 < 10 ^ N.of_nat (dec_width f (n / 10)))%N.
    { apply IH. apply N.Div0.div_lt_upper_bound. exact Hn. }
    pose proof (N.div_mod n 10). pose proof (N.mod_lt n 10). nia.
Qed.

Lemma dec_width_pos fuel n : dec_width fuel n ≠ 0.
Proof. destruct fuel; simpl; [done|]. by case_match. Qed.

Lemma ParseUint_fmt base k n :
  (1 < base ≤ 16)%N → k ≠ 0 → u64 n → (n < base ^ N.of_nat k)%N →
  ParseUint (fmt_digits base k n "") base = Some n.
Proof.
  intros Hb Hk Hn Hbk.
  pose proof (fmt_digits_length base k n "") as Hl.
  pose proof (parse_fmt_digits base k n 0 "" Hb Hbk) as Hp.
  unfold ParseUint. destruct (fmt_digits base k n "") as [|c t].
  - simpl in Hl. lia.
  - rewrite Hp. simpl. rewrite N.mul_0_l, N.add_0_l. by rewrite decide_True.
Qed.

Lemma ParseUint_fmt_016x n : u64 n → ParseUint (fmt_016x n) 16 = Some n.
Proof. intros Hn. by apply ParseUint_fmt. Qed.

Lemma ParseUint_fmt_d n : u64 n → ParseUint (fmt_d n) 10 = Some n.
Proof.
  intros Hn. apply ParseUint_fmt; [lia|apply dec_width_pos|done|].
  apply dec_width_bound. eapply N.lt_trans; [exact Hn|]. vm_compute. done.
Qed.

Lemma digit_char_graphic d : (d < 16)%N →
  (48 ≤ N_of_ascii (digit_char d) ≤ 57 ∨ 97 ≤ N_of_ascii (digit_char d) ≤ 102)%N.
Proof.
  intros Hd. unfold digit_char. rewrite N_ascii_embedding.
  - destruct (N.ltb_spec d 10); lia.
  - destruct (N.ltb_spec d 10); lia.
Qed.

(** Formatted numbers contain only digits, so no separator of a key. *)
Lemma fmt_digits_all f base k n s :
  (1 < base ≤ 16)%N → (∀ d, (d < 16)%N → f (digit_char d) = true) →
  all_chars f s = true → all_chars f (fmt_digits base k n s) = true.
Proof.
  intros Hb Hf. revert n s. induction k as [|k IH]; intros n s Hs; simpl; [done|].
  apply IH. simpl. rewrite Hf; [done|]. pose proof (N.mod_lt n base). lia.
Qed.

Lemma Split_app_last s w sep :
  all_chars (λ c, bool_decide (c ≠ sep)) w = true →
  Split (s +:+ String sep w) sep = (Split s sep ++ [w])%list.
Proof.
  intros Hw. induction s as [|c s IH]; simpl.
  - rewrite decide_True by done. by rewrite Split_last.
  - rewrite IH. case_decide; [done|].
    pose proof (Split_cons_nonempty s sep). by destruct (Split s sep).
Qed.
