(* ===== verification/Keys.v ===== *)
(** * Names and object keys

    [internal/store/store.go]: [ValidateName], the key constructors and
    [ParseMemberKey]; [internal/ops]: [ParseTarget], [ParseExportTarget],
    [lineageOfDataKey], [splitCacheFilename]; [internal/store/etag.go]:
    [NormalizeETag].  The lemmas give the round trips between names, keys and
    their parsed form, which every other component rests on. *)
From Stdlib Require Import Ascii String.
From S2P Require Import Prelude GoStrings.
Local Open Scope string_scope.

(** ** Names *)

Definition maxNameLen : nat := 128.

(** The bytes [ValidateName] admits: [a-z0-9-_.]. *)
Definition name_char (c : ascii) : bool :=
  let n := N_of_ascii c in
  ((97 <=? n)%N && (n <=? 122)%N) || ((48 <=? n)%N && (n <=? 57)%N)
  || (n =? 45)%N || (n =? 95)%N || (n =? 46)%N.

Definition ValidateName (name : string) : res unit :=
  if bool_decide (name = "") || (maxNameLen <? String.length name)%nat then Err [EBadName]
  else if bool_decide (name = ".") || bool_decide (name = "..") || Contains name ".." then Err [EBadName]
  else if HasPrefix name "-" then Err [EBadName]
  else if negb (all_chars name_char name) then Err [EBadName]
  else if HasSuffix name ".lock" || Contains name ".tmp-" then Err [EBadName]
  else Ok tt.

(** ** Keys *)

Definition manifestKey : string := "offshoot.json".
Definition tombstoneKey : string := "gc/tombstones".

Definition RefKey (db branch : string) : string := "refs/" +:+ db +:+ "/" +:+ branch.

Definition SnapshotKey (lineage : string) (epoch txid : N) : string :=
  "data/" +:+ lineage +:+ "/" +:+ fmt_d epoch +:+ "/snapshot-" +:+ fmt_016x txid +:+ ".ltx".

Definition LineagePrefix (lineage : string) : string := "data/" +:+ lineage +:+ "/".

Definition BaseKey (lineage : string) : string := "data/" +:+ lineage +:+ "/base.json".

Definition SegmentKey (lineage : string) (epoch minTXID maxTXID : N) : string :=
  "data/" +:+ lineage +:+ "/" +:+ fmt_d epoch +:+ "/segment-" +:+ fmt_016x maxTXID
  +:+ "-" +:+ fmt_016x minTXID +:+ ".ltx".

(** One object of a materialization chain. *)
Record ChainMember := mkMember {
  m_key : string;
  m_snapshot : bool;
  m_min : N;
  m_max : N;
  m_epoch : N }.

#[global] Instance ChainMember_eq_dec : EqDecision ChainMember.
Proof. solve_decision. Defined.

Abbreviation slash := "/"%char.
Abbreviation dash := "-"%char.
Abbreviation at_sign := "@"%char.

Definition ParseMemberKey (key : string) : option ChainMember :=
  rest ← CutPrefix "data/" key;
  match Split rest slash with
  | [lineage; epochStr; file] =>
      if bool_decide (lineage = "") then None else
      epoch ← ParseUint epochStr 10;
      if HasPrefix file "snapshot-" && HasSuffix file ".ltx" then
        txid ← ParseUint (TrimSuffix (TrimPrefix file "snapshot-") ".ltx") 16;
        Some (mkMember key true 0 txid epoch)
      else if HasPrefix file "segment-" && HasSuffix file ".ltx" then
        match Split (TrimSuffix (TrimPrefix file "segment-") ".ltx") dash with
        | [f0; f1] =>
            maxTXID ← ParseUint f0 16;
            minTXID ← ParseUint f1 16;
            Some (mkMember key false minTXID maxTXID epoch)
        | _ => None
        end
      else None
  | _ => None
  end.

(** [ops.lineageOfDataKey]. *)
Definition lineageOfDataKey (key : string) : option string :=
  rest ← CutPrefix "data/" key;
  '(lineage, _) ← Cut rest slash;
  if bool_decide (lineage = "") then None else Some lineage.

(** ** Command-line targets *)

Definition ParseTarget (s : string) : res (string * string) :=
  let check (db branch : string) :=
    if bool_decide (db = "") || bool_decide (branch = "") then Err [EBadArgs] else
    _ ← ValidateName db; _ ← ValidateName branch; Ok (db, branch) in
  match Split s at_sign with
  | [db] => check db "main"
  | [db; branch] => check db branch
  | _ => Err [EBadArgs]
  end.

Definition ParseExportTarget (s : string) : res (string * string * string) :=
  let check (db branch checkpoint : string) :=
    _ ← ValidateName db; _ ← ValidateName branch;
    _ ← (if bool_decide (checkpoint = "") then Ok tt else ValidateName checkpoint);
    Ok (db, branch, checkpoint) in
  match Split s at_sign with
  | [db] => check db "main" ""
  | [db; branch] => check db branch ""
  | [db; branch; checkpoint] => check db branch checkpoint
  | _ => Err [EBadArgs]
  end.

(** [ops.splitCacheFilename]: the inverse of the read-only cache's
    [branch+"@"+checkpoint] file name. *)
Definition splitCacheFilename (nameNoExt : string) : option (string * string) :=
  '(branch, checkpoint) ← Cut nameNoExt at_sign;
  match Cut checkpoint at_sign with
  | Some _ => None
  | None => Some (branch, checkpoint)
  end.

(** ** Lease holders *)

Definition checkpointHolderPrefix : string := "checkpoint:".
Definition sessionHolderPrefix : string := "session:".
Definition IsCheckpointHolder (holder : string) : bool := HasPrefix holder checkpointHolderPrefix.
Definition IsSessionHolder (holder : string) : bool := HasPrefix holder sessionHolderPrefix.

(** [ops.newHolder(kind)] with the host/pid and the nonce given. *)
Definition newHolder (kind host_pid nonce : string) : string :=
  kind +:+ ":" +:+ host_pid +:+ "/" +:+ nonce.

(** ** Etags *)

(** ASCII white space as [strings.TrimSpace] trims it. *)
Definition is_space (c : ascii) : bool :=
  let n := N_of_ascii c in ((9 <=? n)%N && (n <=? 13)%N) || (n =? 32)%N.

Fixpoint TrimLeft (f : ascii → bool) (s : string) : string :=
  match s with
  | EmptyString => ""
  | String c s' => if f c then TrimLeft f s' else s
  end.

Fixpoint TrimRight (f : ascii → bool) (s : string) : string :=
  match s with
  | EmptyString => ""
  | String c s' =>
      match TrimRight f s' with
      | EmptyString => if f c then "" else String c ""
      | t => String c t
      end
  end.

Definition TrimSpace (s : string) : string := TrimRight is_space (TrimLeft is_space s).

Definition lower_char (c : ascii) : ascii :=
  let n := N_of_ascii c in
  if (65 <=? n)%N && (n <=? 90)%N then ascii_of_N (n + 32)%N else c.

Fixpoint ToLower (s : string) : string :=
  match s with EmptyString => "" | String c s' => String (lower_char c) (ToLower s') end.

Definition dquote : ascii := ascii_of_N 34.

(** [store.NormalizeETag]: trim, drop a weak prefix, drop one pair of quotes,
    lower-case. *)
Definition NormalizeETag (s : string) : string :=
  let s := TrimSpace s in
  let s := match s with
           | String c (String d t) =>
               if bool_decide (d = slash) && (bool_decide (c = "W"%char) || bool_decide (c = "w"%char))
               then t else s
           | _ => s
           end in
  let s := match s with
           | String c (String d t) =>
               if bool_decide (c = dquote) && HasSuffix (String d t) (String dquote "")
               then TrimSuffix (String d t) (String dquote "") else s
           | _ => s
           end in
  ToLower s.

(** ** Lemmas: names *)

(** [s] has no occurrence of byte [c]. *)
Definition free_of (c : ascii) (s : string) : bool := all_chars (λ d, bool_decide (d ≠ c)) s.

Lemma ValidateName_chars name : ValidateName name = Ok tt → all_chars name_char name = true.
Proof. unfold ValidateName. repeat case_match; try done. intros _. by bool_to_prop. Qed.

Lemma ValidateName_nonempty name : ValidateName name = Ok tt → name ≠ "".
Proof.
  unfold ValidateName. destruct (bool_decide (name = "")) eqn:E; simpl; [done|].
  intros _. by bool_to_prop.
Qed.

Lemma ValidateName_ok name u : ValidateName name = Ok u → ValidateName name = Ok tt.
Proof. by destruct u. Qed.

Lemma name_char_ne c d : name_char c = true → name_char d = false → c ≠ d.
Proof. intros ?? ->. congruence. Qed.

Lemma ValidateName_free name c :
  name_char c = false → ValidateName name = Ok tt → free_of c name = true.
Proof.
  intros Hc Hv%ValidateName_chars. eapply all_chars_impl; [|exact Hv].
  intros d Hd. simpl. apply bool_decide_eq_true_2. by eapply name_char_ne.
Qed.

Lemma ValidateName_no_slash name : ValidateName name = Ok tt → free_of slash name = true.
Proof. by apply ValidateName_free. Qed.

Lemma ValidateName_no_at name : ValidateName name = Ok tt → free_of at_sign name = true.
Proof. by apply ValidateName_free. Qed.

(** ** Lemmas: keys *)

Lemma fmt_digits_free base k n c :
  (1 < base ≤ 16)%N → (∀ d, (d < 16)%N → digit_char d ≠ c) →
  free_of c (fmt_digits base k n "") = true.
Proof.
  intros Hb Hc. apply fmt_digits_all; [done| |done].
  intros d Hd. apply bool_decide_eq_true_2; eauto.
Qed.

Lemma digit_char_ne d c : (d < 16)%N → (N_of_ascii c < 48)%N → digit_char d ≠ c.
Proof. intros Hd Hc Heq. pose proof (digit_char_graphic d Hd). rewrite Heq in *. lia. Qed.

Lemma fmt_d_free n c : (N_of_ascii c < 48)%N → free_of c (fmt_d n) = true.
Proof. intros. apply fmt_digits_free; [lia|]. intros. by apply digit_char_ne. Qed.

Lemma fmt_016x_free n c : (N_of_ascii c < 48)%N → free_of c (fmt_016x n) = true.
Proof. intros. apply fmt_digits_free; [lia|]. intros. by apply digit_char_ne. Qed.

Lemma free_of_app c a b : free_of c (a +:+ b) = free_of c a && free_of c b.
Proof. apply all_chars_app. Qed.

Lemma Split_slash2 a b s :
  free_of slash a = true → free_of slash b = true → free_of slash s = true →
  Split (a +:+ "/" +:+ b +:+ "/" +:+ s) slash = [a; b; s].
Proof. intros. simpl. rewrite !Split_word by done. by rewrite Split_last. Qed.

Lemma snapshot_file_trim t :
  TrimSuffix (TrimPrefix ("snapshot-" +:+ t +:+ ".ltx") "snapshot-") ".ltx" = t.
Proof. by rewrite TrimPrefix_app, TrimSuffix_app. Qed.

Lemma segment_file_trim t :
  TrimSuffix (TrimPrefix ("segment-" +:+ t +:+ ".ltx") "segment-") ".ltx" = t.
Proof. by rewrite TrimPrefix_app, TrimSuffix_app. Qed.

(** A lineage id as the keys need it: non-empty and free of ["/"]. *)
Definition lineage_ok (l : string) : bool := negb (bool_decide (l = "")) && free_of slash l.

Lemma ParseMemberKey_SnapshotKey l e t :
  lineage_ok l = true → u64 e → u64 t →
  ParseMemberKey (SnapshotKey l e t) = Some (mkMember (SnapshotKey l e t) true 0 t e).
Proof.
  unfold lineage_ok. intros Hl He Ht. apply andb_true_iff in Hl as [Hne Hfree].
  apply negb_true_iff in Hne.
  unfold ParseMemberKey.
  assert (CutPrefix "data/" (SnapshotKey l e t)
    = Some (l +:+ "/" +:+ fmt_d e +:+ "/" +:+ ("snapshot-" +:+ fmt_016x t +:+ ".ltx")))
    as -> by apply CutPrefix_app.
  cbn [mbind option_bind].
  rewrite Split_slash2; [|done|by apply fmt_d_free|].
  2:{ rewrite !free_of_app, fmt_016x_free by done. done. }
  rewrite Hne, ParseUint_fmt_d by done. cbn [mbind option_bind].
  rewrite HasPrefix_app, <- string_app_assoc, HasSuffix_app.
  rewrite string_app_assoc, snapshot_file_trim, ParseUint_fmt_016x by done. done.
Qed.

Lemma ParseMemberKey_SegmentKey l e mn mx :
  lineage_ok l = true → u64 e → u64 mn → u64 mx →
  ParseMemberKey (SegmentKey l e mn mx) = Some (mkMember (SegmentKey l e mn mx) false mn mx e).
Proof.
  unfold lineage_ok. intros Hl He Hmn Hmx. apply andb_true_iff in Hl as [Hne Hfree].
  apply negb_true_iff in Hne.
  unfold ParseMemberKey.
  set (f := fmt_016x mx +:+ "-" +:+ fmt_016x mn).
  assert (CutPrefix "data/" (SegmentKey l e mn mx)
    = Some (l +:+ "/" +:+ fmt_d e +:+ "/" +:+ ("segment-" +:+ f +:+ ".ltx")))
    as -> by (unfold f; rewrite !string_app_assoc; apply CutPrefix_app).
  cbn [mbind option_bind].
  rewrite Split_slash2; [|done|by apply fmt_d_free|].
  2:{ unfold f. rewrite !free_of_app, !fmt_016x_free by done. done. }
  rewrite Hne, ParseUint_fmt_d by done. cbn [mbind option_bind].
  replace (HasPrefix ("segment-" +:+ f +:+ ".ltx") "snapshot-") with false by done.
  rewrite HasPrefix_app, <- string_app_assoc, HasSuffix_app.
  rewrite string_app_assoc, segment_file_trim. simpl andb. cbv iota.
  unfold f. change ("-" +:+ fmt_016x mn) with (String dash (fmt_016x mn)).
  rewrite Split_word by (by apply fmt_016x_free).
  rewrite Split_last by (by apply fmt_016x_free).
  rewrite !ParseUint_fmt_016x by done. done.
Qed.

Lemma ParseMemberKey_key k m : ParseMemberKey k = Some m → m_key m = k.
Proof.
  unfold ParseMemberKey. intros H.
  repeat (simplify_option_eq || case_match); done.
Qed.

Lemma string_app_inj_l p a b : p +:+ a = p +:+ b → a = b.
Proof. induction p as [|c p IH]; simpl; [done|]. intros [= H]. by apply IH. Qed.

Lemma free_word_inj c a b s t :
  free_of c a = true → free_of c b = true → a +:+ String c s = b +:+ String c t → a = b ∧ s = t.
Proof.
  intros Ha Hb H. pose proof (Cut_word a s c Ha) as Ea. rewrite H, Cut_word in Ea by done.
  by simplify_eq.
Qed.

Lemma lineage_ok_free l : lineage_ok l = true → free_of slash l = true.
Proof. unfold lineage_ok. by intros [_ ?]%andb_true_iff. Qed.

(** A key lies under at most one lineage. *)
Lemma LineagePrefix_inj k l l' :
  lineage_ok l = true → lineage_ok l' = true →
  HasPrefix k (LineagePrefix l) = true → HasPrefix k (LineagePrefix l') = true → l = l'.
Proof.
  intros Hl%lineage_ok_free Hl'%lineage_ok_free. rewrite !HasPrefix_spec.
  intros [t ->] [t' E]. unfold LineagePrefix in E.
  rewrite !string_app_assoc in E. apply string_app_inj_l in E.
  by apply free_word_inj in E as [-> _].
Qed.

Lemma HasPrefix_SnapshotKey l e t : HasPrefix (SnapshotKey l e t) (LineagePrefix l) = true.
Proof.
  apply HasPrefix_spec. exists (fmt_d e +:+ "/snapshot-" +:+ fmt_016x t +:+ ".ltx").
  unfold SnapshotKey, LineagePrefix. by rewrite !string_app_assoc.
Qed.

Lemma HasPrefix_SegmentKey l e mn mx : HasPrefix (SegmentKey l e mn mx) (LineagePrefix l) = true.
Proof.
  apply HasPrefix_spec.
  exists (fmt_d e +:+ "/segment-" +:+ fmt_016x mx +:+ "-" +:+ fmt_016x mn +:+ ".ltx").
  unfold SegmentKey, LineagePrefix. by rewrite !string_app_assoc.
Qed.

Lemma HasPrefix_BaseKey l : HasPrefix (BaseKey l) (LineagePrefix l) = true.
Proof.
  apply HasPrefix_spec. exists "base.json". unfold BaseKey, LineagePrefix. by rewrite !string_app_assoc.
Qed.

(** A lineage's base object is never taken for a chain member. *)
Lemma ParseMemberKey_BaseKey l : lineage_ok l = true → ParseMemberKey (BaseKey l) = None.
Proof.
  intros Hl%lineage_ok_free. unfold ParseMemberKey, BaseKey. rewrite CutPrefix_app.
  cbn [mbind option_bind]. change ("/base.json") with (String slash "base.json").
  rewrite Split_word by done. done.
Qed.

(** Nor is a ref, the manifest or the tombstone list. *)
Lemma ParseMemberKey_RefKey db branch : ParseMemberKey (RefKey db branch) = None.
Proof. done. Qed.

Lemma lineageOfDataKey_prefix k l :
  lineage_ok l = true → HasPrefix k (LineagePrefix l) = true → lineageOfDataKey k = Some l.
Proof.
  intros Hl. rewrite HasPrefix_spec. intros [t ->]. unfold lineageOfDataKey, LineagePrefix.
  rewrite !string_app_assoc, CutPrefix_app. cbn [mbind option_bind].
  change ("/" +:+ t) with (String slash t). rewrite Cut_word by by apply lineage_ok_free.
  cbn [mbind option_bind]. unfold lineage_ok in Hl. apply andb_true_iff in Hl as [Hl _].
  apply negb_true_iff in Hl. by rewrite Hl.
Qed.

Lemma lineageOfDataKey_Some k l :
  lineageOfDataKey k = Some l → HasPrefix k (LineagePrefix l) = true.
Proof.
  unfold lineageOfDataKey. intros H. destruct (CutPrefix "data/" k) as [r|] eqn:E; [|done].
  cbn [mbind option_bind] in H. destruct (Cut r slash) as [[a b]|] eqn:Ec; [|done].
  cbn [mbind option_bind] in H. case_match; simplify_eq.
  apply CutPrefix_Some in E as ->. apply Cut_Some in Ec as ->.
  apply HasPrefix_spec. exists b. unfold LineagePrefix. by rewrite !string_app_assoc.
Qed.

Lemma RefKey_inj db br db' br' :
  ValidateName db = Ok tt → ValidateName db' = Ok tt → RefKey db br = RefKey db' br' →
  db = db' ∧ br = br'.
Proof.
  intros H%ValidateName_no_slash H'%ValidateName_no_slash E. unfold RefKey in E.
  apply string_app_inj_l in E. by apply free_word_inj in E.
Qed.

(** A member's lineage, as its key spells it. *)
Lemma ParseMemberKey_data k m : ParseMemberKey k = Some m → HasPrefix k "data/" = true.
Proof.
  unfold ParseMemberKey. intros H. unfold HasPrefix. by destruct (CutPrefix "data/" k).
Qed.

Lemma ParseUint_u64 s b n : ParseUint s b = Some n → u64 n.
Proof. unfold ParseUint. destruct s; [done|]. repeat case_match; intros; by simplify_eq. Qed.

Lemma ParseMemberKey_u64 k m : ParseMemberKey k = Some m → u64 (m_max m) ∧ u64 (m_min m) ∧ u64 (m_epoch m).
Proof.
  unfold ParseMemberKey. intros H.
  repeat (simplify_option_eq || case_match); simpl;
    repeat match goal with E : ParseUint _ _ = Some _ |- _ => apply ParseUint_u64 in E end; done.
Qed.
