(* ===== verification/KeyProps.v ===== *)
(** * Member keys and 64-bit numbers

    [ParseMemberKey] against the printers [SnapshotKey] and [SegmentKey]: what a
    key can denote, and that distinct members have distinct keys. *)
From Stdlib Require Import Ascii String.
From S2P Require Import Prelude GoStrings Keys.
Local Open Scope string_scope.

Lemma ParseMemberKey_numbers k x :
  ParseMemberKey k = Some x → u64 (m_epoch x) ∧ u64 (m_min x) ∧ u64 (m_max x) ∧ (m_snapshot x = true → m_min x = 0%N).
Proof.
  unfold ParseMemberKey. destruct (CutPrefix "data/" k) as [rest|]; [|done]. cbn [mbind option_bind].
  destruct (Split rest slash) as [|lineage [|epochStr [|file [|]]]]; try done.
  destruct (bool_decide (lineage = "")); [done|].
  destruct (ParseUint epochStr 10) as [epoch|] eqn:Ee; [|done]. apply ParseUint_u64 in Ee. cbn [mbind option_bind].
  destruct (HasPrefix file "snapshot-" && _).
  { destruct (ParseUint _ 16) as [t|] eqn:Et; [|done]. apply ParseUint_u64 in Et. intros [= <-]. done. }
  destruct (HasPrefix file "segment-" && _); [|done]. destruct (Split _ dash) as [|f0 [|f1 [|]]]; try done.
  destruct (ParseUint f0 16) as [mx|] eqn:E0; [|done]. cbn [mbind option_bind].
  destruct (ParseUint f1 16) as [mn|] eqn:E1; [|done]. apply ParseUint_u64 in E0, E1. intros [= <-]. done.
Qed.


(** Keys and numbers stay within 64 bits.  Whatever string is listed, a key
    that parses gives an epoch and transactions below 2^64 (longer digit strings
    are refused, not wrapped), and no ref or base key parses.  Conversely every
    64-bit epoch and transaction prints to a key that parses back to exactly
    them, so distinct members never share a key. *)
Theorem member_key_bounds :
  (∀ k x, ParseMemberKey k = Some x →
     m_key x = k ∧ u64 (m_epoch x) ∧ u64 (m_min x) ∧ u64 (m_max x) ∧ (m_snapshot x = true → m_min x = 0%N))
  ∧ (∀ db branch, ParseMemberKey (RefKey db branch) = None)
  ∧ (∀ l, lineage_ok l = true → ParseMemberKey (BaseKey l) = None)
  ∧ (∀ l e mn t, lineage_ok l = true → u64 e → u64 mn → u64 t →
       ParseMemberKey (SnapshotKey l e t) = Some (mkMember (SnapshotKey l e t) true 0 t e)
       ∧ ParseMemberKey (SegmentKey l e mn t) = Some (mkMember (SegmentKey l e mn t) false mn t e)
       ∧ ∀ l' e' mn' t', lineage_ok l' = true → u64 e' → u64 mn' → u64 t' →
           SnapshotKey l e t ≠ SegmentKey l' e' mn' t'
           ∧ (SnapshotKey l e t = SnapshotKey l' e' t' → (l, e, t) = (l', e', t'))
           ∧ (SegmentKey l e mn t = SegmentKey l' e' mn' t' → (l, e, mn, t) = (l', e', mn', t'))).
Proof.
  split_and!.
  - intros k x Hk. split; [by apply ParseMemberKey_key|by eapply ParseMemberKey_numbers].
  - apply ParseMemberKey_RefKey.
  - apply ParseMemberKey_BaseKey.
  - intros l e mn t Hl He Hmn Ht. split_and!; [by apply ParseMemberKey_SnapshotKey|by apply ParseMemberKey_SegmentKey|].
    intros l' e' mn' t' Hl' He' Hmn' Ht'.
    pose proof (ParseMemberKey_SnapshotKey l e t Hl He Ht) as P1. pose proof (ParseMemberKey_SegmentKey l e mn t Hl He Hmn Ht) as P2.
    pose proof (ParseMemberKey_SnapshotKey l' e' t' Hl' He' Ht') as P1'. pose proof (ParseMemberKey_SegmentKey l' e' mn' t' Hl' He' Hmn' Ht') as P2'.
    pose proof (HasPrefix_SnapshotKey l e t) as H1. pose proof (HasPrefix_SegmentKey l e mn t) as H2.
    split_and!; intros E.
    + rewrite E in P1. congruence.
    + rewrite E in P1, H1. assert (l = l') as <- by (eapply LineagePrefix_inj; [done|done|exact H1|apply HasPrefix_SnapshotKey]).
      rewrite P1 in P1'. congruence.
    + rewrite E in P2, H2. assert (l = l') as <- by (eapply LineagePrefix_inj; [done|done|exact H2|apply HasPrefix_SegmentKey]).
      rewrite P2 in P2'. congruence.
Qed.
