(* ===== verification/Refs.v ===== *)
(** * Refs: the branch record and the pure decisions taken on it

    [internal/store/store.go]: [Checkpoint], [Ref], [BasePointer], [refWire],
    [decodeRef] and the encoding [PutRef] writes; [internal/store/lease.go]:
    [LeaseLive]; [internal/ops/status.go]: [ReapDeadline];
    [internal/ops/gc.go]: [liveDeleteClaim], [deleteClaimFresh],
    [onlyRenewed]; [internal/ops/ops.go]: [ValidateMeta], [headCheckpoint],
    [refuseIfHeld].

    Documents are modelled as JSON values of their own shape, not as text.  A
    time field the code parses back (lease expiry, touched_at, deleting_at) is
    a [stamp]: empty, an instant (in nanoseconds), or text that does not parse;
    [time.Format(RFC3339Nano)] and [time.Parse] are mutually inverse on the
    instants.  A checkpoint's created_at is never parsed, only compared as text,
    and stays a string.  A TTL field is the
    same with [time.Duration.String] and [time.ParseDuration].  A nil map and
    an empty map are one value. *)
From Stdlib Require Import Ascii String.
From S2P Require Import Prelude GoStrings Keys.
Local Open Scope string_scope.

(** ** Data *)

Inductive stamp :=
  | NoStamp
  | At (t : Z)
  | BadStamp (s : string).

#[global] Instance stamp_eq_dec : EqDecision stamp.
Proof. solve_decision. Defined.

(** [time.Parse(time.RFC3339Nano, s)]. *)
Definition parse_stamp (s : stamp) : option Z :=
  match s with At t => Some t | _ => None end.

Inductive ttl :=
  | NoTTL
  | TTLof (d : Z)
  | BadTTL (s : string).

#[global] Instance ttl_eq_dec : EqDecision ttl.
Proof. solve_decision. Defined.

(** [time.ParseDuration(s)]; the empty string does not parse. *)
Definition parse_ttl (t : ttl) : option Z :=
  match t with TTLof d => Some d | _ => None end.

Definition second : Z := 1000000000.

Definition RefSchema : Z := 2.
Definition LayoutVersion : Z := 2.

Record Checkpoint := mkCheckpoint {
  cp_txid : N;
  cp_epoch : N;
  cp_created : string;
  cp_meta : gmap string string;
  cp_kind : string }.

#[global] Instance Checkpoint_eq_dec : EqDecision Checkpoint.
Proof. solve_decision. Defined.

Record BasePointer := mkBase {
  bp_lineage : string;
  bp_txid : N }.

#[global] Instance BasePointer_eq_dec : EqDecision BasePointer.
Proof. solve_decision. Defined.

Record Ref := mkRef {
  r_schema : Z;
  r_lineage : string;
  r_epoch : N;
  r_head_txid : N;
  r_head_epoch : N;
  r_checkpoints : gmap string Checkpoint;
  r_parent : string;
  r_protected : bool;
  r_lease_holder : string;
  r_lease_expiry : stamp;
  r_ttl : ttl;
  r_touched_at : stamp;
  r_reaping : bool;
  r_deleting : bool;
  r_deleting_at : stamp;
  r_meta : gmap string string;
  r_base : option BasePointer }.

#[global] Instance Ref_eq_dec : EqDecision Ref.
Proof. solve_decision. Defined.

Definition set_schema (x : Z) (r : Ref) : Ref :=
  mkRef x (r_lineage r) (r_epoch r) (r_head_txid r) (r_head_epoch r) (r_checkpoints r)
    (r_parent r) (r_protected r) (r_lease_holder r) (r_lease_expiry r) (r_ttl r) (r_touched_at
    r) (r_reaping r) (r_deleting r) (r_deleting_at r) (r_meta r) (r_base r).
Definition set_lineage (x : string) (r : Ref) : Ref :=
  mkRef (r_schema r) x (r_epoch r) (r_head_txid r) (r_head_epoch r) (r_checkpoints r) (r_parent
    r) (r_protected r) (r_lease_holder r) (r_lease_expiry r) (r_ttl r) (r_touched_at r)
    (r_reaping r) (r_deleting r) (r_deleting_at r) (r_meta r) (r_base r).
Definition set_epoch (x : N) (r : Ref) : Ref :=
  mkRef (r_schema r) (r_lineage r) x (r_head_txid r) (r_head_epoch r) (r_checkpoints r)
    (r_parent r) (r_protected r) (r_lease_holder r) (r_lease_expiry r) (r_ttl r) (r_touched_at
    r) (r_reaping r) (r_deleting r) (r_deleting_at r) (r_meta r) (r_base r).
Definition set_head_txid (x : N) (r : Ref) : Ref :=
  mkRef (r_schema r) (r_lineage r) (r_epoch r) x (r_head_epoch r) (r_checkpoints r) (r_parent
    r) (r_protected r) (r_lease_holder r) (r_lease_expiry r) (r_ttl r) (r_touched_at r)
    (r_reaping r) (r_deleting r) (r_deleting_at r) (r_meta r) (r_base r).
Definition set_head_epoch (x : N) (r : Ref) : Ref :=
  mkRef (r_schema r) (r_lineage r) (r_epoch r) (r_head_txid r) x (r_checkpoints r) (r_parent r)
    (r_protected r) (r_lease_holder r) (r_lease_expiry r) (r_ttl r) (r_touched_at r) (r_reaping
    r) (r_deleting r) (r_deleting_at r) (r_meta r) (r_base r).
Definition set_checkpoints (x : gmap string Checkpoint) (r : Ref) : Ref :=
  mkRef (r_schema r) (r_lineage r) (r_epoch r) (r_head_txid r) (r_head_epoch r) x (r_parent r)
    (r_protected r) (r_lease_holder r) (r_lease_expiry r) (r_ttl r) (r_touched_at r) (r_reaping
    r) (r_deleting r) (r_deleting_at r) (r_meta r) (r_base r).
Definition set_parent (x : string) (r : Ref) : Ref :=
  mkRef (r_schema r) (r_lineage r) (r_epoch r) (r_head_txid r) (r_head_epoch r) (r_checkpoints
    r) x (r_protected r) (r_lease_holder r) (r_lease_expiry r) (r_ttl r) (r_touched_at r)
    (r_reaping r) (r_deleting r) (r_deleting_at r) (r_meta r) (r_base r).
Definition set_protected (x : bool) (r : Ref) : Ref :=
  mkRef (r_schema r) (r_lineage r) (r_epoch r) (r_head_txid r) (r_head_epoch r) (r_checkpoints
    r) (r_parent r) x (r_lease_holder r) (r_lease_expiry r) (r_ttl r) (r_touched_at r)
    (r_reaping r) (r_deleting r) (r_deleting_at r) (r_meta r) (r_base r).
Definition set_lease_holder (x : string) (r : Ref) : Ref :=
  mkRef (r_schema r) (r_lineage r) (r_epoch r) (r_head_txid r) (r_head_epoch r) (r_checkpoints
    r) (r_parent r) (r_protected r) x (r_lease_expiry r) (r_ttl r) (r_touched_at r) (r_reaping
    r) (r_deleting r) (r_deleting_at r) (r_meta r) (r_base r).
Definition set_lease_expiry (x : stamp) (r : Ref) : Ref :=
  mkRef (r_schema r) (r_lineage r) (r_epoch r) (r_head_txid r) (r_head_epoch r) (r_checkpoints
    r) (r_parent r) (r_protected r) (r_lease_holder r) x (r_ttl r) (r_touched_at r) (r_reaping
    r) (r_deleting r) (r_deleting_at r) (r_meta r) (r_base r).
Definition set_ttl (x : ttl) (r : Ref) : Ref :=
  mkRef (r_schema r) (r_lineage r) (r_epoch r) (r_head_txid r) (r_head_epoch r) (r_checkpoints
    r) (r_parent r) (r_protected r) (r_lease_holder r) (r_lease_expiry r) x (r_touched_at r)
    (r_reaping r) (r_deleting r) (r_deleting_at r) (r_meta r) (r_base r).
Definition set_touched_at (x : stamp) (r : Ref) : Ref :=
  mkRef (r_schema r) (r_lineage r) (r_epoch r) (r_head_txid r) (r_head_epoch r) (r_checkpoints
    r) (r_parent r) (r_protected r) (r_lease_holder r) (r_lease_expiry r) (r_ttl r) x
    (r_reaping r) (r_deleting r) (r_deleting_at r) (r_meta r) (r_base r).
Definition set_reaping (x : bool) (r : Ref) : Ref :=
  mkRef (r_schema r) (r_lineage r) (r_epoch r) (r_head_txid r) (r_head_epoch r) (r_checkpoints
    r) (r_parent r) (r_protected r) (r_lease_holder r) (r_lease_expiry r) (r_ttl r)
    (r_touched_at r) x (r_deleting r) (r_deleting_at r) (r_meta r) (r_base r).
Definition set_deleting (x : bool) (r : Ref) : Ref :=
  mkRef (r_schema r) (r_lineage r) (r_epoch r) (r_head_txid r) (r_head_epoch r) (r_checkpoints
    r) (r_parent r) (r_protected r) (r_lease_holder r) (r_lease_expiry r) (r_ttl r)
    (r_touched_at r) (r_reaping r) x (r_deleting_at r) (r_meta r) (r_base r).
Definition set_deleting_at (x : stamp) (r : Ref) : Ref :=
  mkRef (r_schema r) (r_lineage r) (r_epoch r) (r_head_txid r) (r_head_epoch r) (r_checkpoints
    r) (r_parent r) (r_protected r) (r_lease_holder r) (r_lease_expiry r) (r_ttl r)
    (r_touched_at r) (r_reaping r) (r_deleting r) x (r_meta r) (r_base r).
Definition set_meta (x : gmap string string) (r : Ref) : Ref :=
  mkRef (r_schema r) (r_lineage r) (r_epoch r) (r_head_txid r) (r_head_epoch r) (r_checkpoints
    r) (r_parent r) (r_protected r) (r_lease_holder r) (r_lease_expiry r) (r_ttl r)
    (r_touched_at r) (r_reaping r) (r_deleting r) (r_deleting_at r) x (r_base r).
Definition set_base (x : option BasePointer) (r : Ref) : Ref :=
  mkRef (r_schema r) (r_lineage r) (r_epoch r) (r_head_txid r) (r_head_epoch r) (r_checkpoints
    r) (r_parent r) (r_protected r) (r_lease_holder r) (r_lease_expiry r) (r_ttl r)
    (r_touched_at r) (r_reaping r) (r_deleting r) (r_deleting_at r) (r_meta r) x.

(** A checkpoint entry of the stored document: the literal [null], a v2
    object, a v1 number, or any other JSON value. *)
Inductive rawCheckpoint :=
  | RawNull
  | RawObject (cp : Checkpoint)
  | RawNumber (n : N)
  | RawOther.

#[global] Instance rawCheckpoint_eq_dec : EqDecision rawCheckpoint.
Proof. solve_decision. Defined.

Record refWire := mkWire {
  w_schema : Z;
  w_lineage : string;
  w_epoch : N;
  w_head_txid : N;
  w_head_epoch : N;
  w_checkpoints : gmap string rawCheckpoint;
  w_parent : string;
  w_protected : bool;
  w_lease_holder : string;
  w_lease_expiry : stamp;
  w_ttl : ttl;
  w_touched_at : stamp;
  w_reaping : bool;
  w_deleting : bool;
  w_deleting_at : stamp;
  w_meta : gmap string string;
  w_base : option BasePointer }.

#[global] Instance refWire_eq_dec : EqDecision refWire.
Proof. solve_decision. Defined.

(** ** Time text

    [nowStamp] is [time.Now().UTC().Format(time.RFC3339)] at instant [t]
    (nanoseconds since the Unix epoch, years 0 to 9999). *)

(** The proleptic Gregorian date of a day number counted from 1970-01-01. *)
Definition civil_from_days (days : Z) : Z * Z * Z :=
  let z := (days + 719468)%Z in
  let era := (z / 146097)%Z in
  let doe := (z - era * 146097)%Z in
  let yoe := ((doe - doe / 1460 + doe / 36524 - doe / 146096) / 365)%Z in
  let doy := (doe - (365 * yoe + yoe / 4 - yoe / 100))%Z in
  let mp := ((5 * doy + 2) / 153)%Z in
  let d := (doy - (153 * mp + 2) / 5 + 1)%Z in
  let m := if (mp <? 10)%Z then (mp + 3)%Z else (mp - 9)%Z in
  ((yoe + era * 400 + (if (m <=? 2)%Z then 1 else 0))%Z, m, d).

Definition pad (k : nat) (z : Z) : string := fmt_digits 10 k (Z.to_N z) "".

Definition nowStamp (t : Z) : string :=
  let secs := (t / second)%Z in
  let '(y, m, d) := civil_from_days (secs / 86400)%Z in
  let s := (secs mod 86400)%Z in
  pad 4 y +:+ "-" +:+ pad 2 m +:+ "-" +:+ pad 2 d +:+ "T" +:+ pad 2 (s / 3600)%Z
  +:+ ":" +:+ pad 2 ((s / 60) mod 60)%Z +:+ ":" +:+ pad 2 (s mod 60)%Z +:+ "Z".

(** ** Operations on a ref *)

Definition SetCheckpoint (name : string) (cp : Checkpoint) (r : Ref) : Ref :=
  set_checkpoints (<[name := cp]> (r_checkpoints r)) r.

Definition Touch (now : Z) (r : Ref) : Ref := set_touched_at (At now) r.

(** One entry of [refWire.Checkpoints], as [decodeRef]'s loop body reads it:
    [null] is refused, an object with a non-zero txid is taken as it is, a
    number is a v1 entry under the ref's own epoch, anything else fails the
    second [Unmarshal]. *)
Definition decodeCheckpoint (epoch : N) (raw : rawCheckpoint) : option Checkpoint :=
  match raw with
  | RawNull => None
  | RawObject cp => if (cp_txid cp =? 0)%N then None else Some cp
  | RawNumber n => Some (mkCheckpoint n epoch "" ∅ "")
  | RawOther => None
  end.

Definition bad_checkpoints (w : refWire) : gmap string rawCheckpoint :=
  filter (λ '(_, raw), decodeCheckpoint (w_epoch w) raw = None) (w_checkpoints w).

Definition decodeRef (w : refWire) : res Ref :=
  if (RefSchema <? w_schema w)%Z then Err [ENewer]
  else if decide (bad_checkpoints w = ∅) then
    Ok (mkRef RefSchema (w_lineage w) (w_epoch w) (w_head_txid w)
          (if (w_head_epoch w =? 0)%N then w_epoch w else w_head_epoch w)
          (omap (decodeCheckpoint (w_epoch w)) (w_checkpoints w))
          (w_parent w) (w_protected w) (w_lease_holder w) (w_lease_expiry w)
          (w_ttl w) (w_touched_at w) (w_reaping w) (w_deleting w)
          (w_deleting_at w) (w_meta w) (w_base w))
  else Err [ECorrupt].

(** What [PutRef] marshals: the schema stamped, a zero head epoch replaced by
    the epoch, every checkpoint an object. *)
Definition encodeRef (r : Ref) : refWire :=
  mkWire RefSchema (r_lineage r) (r_epoch r) (r_head_txid r)
    (if (r_head_epoch r =? 0)%N then r_epoch r else r_head_epoch r)
    (RawObject <$> r_checkpoints r)
    (r_parent r) (r_protected r) (r_lease_holder r) (r_lease_expiry r)
    (r_ttl r) (r_touched_at r) (r_reaping r) (r_deleting r)
    (r_deleting_at r) (r_meta r) (r_base r).

(** A ref as [GetRef] returns it. *)
Definition ref_normal (r : Ref) : Prop :=
  r_schema r = RefSchema
  ∧ (r_head_epoch r = 0%N → r_epoch r = 0%N).

(** No checkpoint records transaction 0 (no transaction has that id). *)
Definition cps_nonzero (cps : gmap string Checkpoint) : Prop :=
  map_Forall (λ _ cp, cp_txid cp ≠ 0%N) cps.

Definition headCheckpoint (r : Ref) : Checkpoint :=
  mkCheckpoint (r_head_txid r) (r_head_epoch r) "" ∅ "".

(** ** Leases *)

(** [parseExpiry]: [None] when the field is empty or unreadable. *)
Definition parseExpiry (s : stamp) : option Z := parse_stamp s.

Definition LeaseLive (r : Ref) (now : Z) : bool :=
  match parseExpiry (r_lease_expiry r) with
  | Some t => negb (bool_decide (r_lease_holder r = "")) && (now <? t)%Z
  | None => false
  end.

(** ** Reaping and delete claims *)

Definition ReapDeadline (r : Ref) : option Z :=
  match parse_ttl (r_ttl r) with
  | None => None
  | Some d =>
      if (d <=? 0)%Z then None
      else match parse_stamp (r_touched_at r) with
           | None => None
           | Some base =>
               let base :=
                 match parse_stamp (r_lease_expiry r) with
                 | Some lease => if (base <? lease)%Z then lease else base
                 | None => base
                 end in
               Some (base + d)%Z
           end
  end.

Definition staleDeletingClaimAfter : Z := 30 * second.
Definition deleteClaimClockSlack : Z := 60 * second.

Definition deleteClaimFresh (t now : Z) : bool :=
  let age := (now - t)%Z in
  (age <? staleDeletingClaimAfter)%Z && (- deleteClaimClockSlack <=? age)%Z.

Definition liveDeleteClaim (r : Ref) (now : Z) : bool :=
  r_deleting r
  && match parse_stamp (r_deleting_at r) with
     | Some t => deleteClaimFresh t now
     | None => false
     end.

(** [onlyRenewed]: [cur] is [claimed] but for a renewed lease expiry and a
    reaping claim cleared under it; the source compares the marshalled refs. *)
Definition onlyRenewed (claimed cur : Ref) : bool :=
  let cur := set_lease_expiry (r_lease_expiry claimed) cur in
  let cur := if r_reaping claimed then set_reaping true cur else cur in
  bool_decide (claimed = cur).

(** ** Metadata and the at-rest guard *)

Definition MaxMetaKeys : nat := 32.
Definition MaxMetaKeyLen : nat := 64.
Definition MaxMetaValueLen : nat := 512.

Definition ValidateMeta (meta : gmap string string) : res unit :=
  if (MaxMetaKeys <? size meta)%nat then Err [EBadArgs]
  else if decide (map_Forall (λ k v, (String.length k <= MaxMetaKeyLen)%nat
                                     ∧ (String.length v <= MaxMetaValueLen)%nat) meta)
       then Ok tt else Err [EBadArgs].

(** [refuseIfHeld(db, branch, ref, verb, force)] at instant [now]. *)
Definition refuseIfHeld (r : Ref) (verb : string) (force : bool) (now : Z) : res unit :=
  if r_deleting r then Err [EBeingRemoved]
  else if r_reaping r then Err [EBeingReaped]
  else if negb (LeaseLive r now) then Ok tt
  else if IsCheckpointHolder (r_lease_holder r) then
    if bool_decide (verb = "checkpoint") then Err [ErrLeaseHeld]
    else if force then Ok tt
    else Err [ErrLeaseHeld]
  else if bool_decide (verb = "checkpoint") then Err [ErrLeaseHeld]
  else if force then Ok tt
  else Err [ErrLeaseHeld].

(** ** Checkpoint ranking: [newestFirst] of [internal/ops/prune.go] *)

(** A missing map entry reads as the zero value. *)
Definition cp_zero : Checkpoint := mkCheckpoint 0 0 "" ∅ "".

(** The reflexive closure of the comparison [sort.Slice] is given: a larger
    txid first, then a larger created_at, then the smaller name. *)
Definition newer (cps : gmap string Checkpoint) (a b : string) : Prop :=
  let ca := default cp_zero (cps !! a) in
  let cb := default cp_zero (cps !! b) in
  if decide (cp_txid ca = cp_txid cb) then
    if decide (cp_created ca = cp_created cb) then String.le a b
    else String.le (cp_created cb) (cp_created ca)
  else (cp_txid cb < cp_txid ca)%N.

#[global] Instance newer_dec cps : RelDecision (newer cps).
Proof. intros a b. unfold newer. repeat case_decide; apply _. Defined.

Definition newestFirst (cps : gmap string Checkpoint) : list string :=
  sort_by (newer cps) (map_to_list cps).*1.

(** ** Lemmas *)

Lemma decodeRef_ok w r :
  decodeRef w = Ok r →
  (w_schema w <= RefSchema)%Z ∧ bad_checkpoints w = ∅ ∧ ref_normal r
  ∧ r_epoch r = w_epoch w ∧ r_lineage r = w_lineage w ∧ r_head_txid r = w_head_txid w.
Proof.
  unfold decodeRef, ref_normal. intros H.
  repeat (break_match_hyp; simplify_eq/=; bool_to_prop); split_and!; try done; simpl;
    repeat break_match_goal; bool_to_prop; done.
Qed.

(** Go values that differ only in what [PutRef] normalises. *)
Definition normalizeRef (r : Ref) : Ref :=
  set_schema RefSchema
    (set_head_epoch (if (r_head_epoch r =? 0)%N then r_epoch r else r_head_epoch r) r).

Lemma normalizeRef_normal r : ref_normal r → normalizeRef r = r.
Proof.
  intros [Hs He]. destruct r as []; unfold normalizeRef, set_schema, set_head_epoch; simpl in *.
  subst. destruct (N.eqb_spec r_head_epoch0 0) as [->|]; [|done]. by rewrite He.
Qed.

Lemma ref_normal_normalize r : ref_normal (normalizeRef r).
Proof.
  split; [done|]. simpl. destruct (N.eqb_spec (r_head_epoch r) 0); [done|]. congruence.
Qed.

Lemma decode_encode_checkpoints e cps :
  cps_nonzero cps → omap (decodeCheckpoint e) (RawObject <$> cps) = cps.
Proof.
  intros Hnz. apply map_eq. intros n.
  rewrite lookup_omap, lookup_fmap. destruct (cps !! n) as [cp|] eqn:E; [|done]. simpl.
  destruct (N.eqb_spec (cp_txid cp) 0); [|done]. by destruct (Hnz n cp E).
Qed.

Lemma bad_checkpoints_encode r : cps_nonzero (r_checkpoints r) → bad_checkpoints (encodeRef r) = ∅.
Proof.
  intros Hnz. unfold bad_checkpoints. apply map_empty_filter_2. intros n raw Hn. simpl in Hn.
  apply lookup_fmap_Some in Hn as (cp & <- & Hcp). simpl.
  destruct (N.eqb_spec (cp_txid cp) 0); [|done]. by destruct (Hnz n cp Hcp).
Qed.

Lemma decodeRef_encodeRef r :
  cps_nonzero (r_checkpoints r) → decodeRef (encodeRef r) = Ok (normalizeRef r).
Proof.
  intros Hnz. unfold decodeRef. rewrite (bad_checkpoints_encode r Hnz).
  rewrite decide_True by done. cbn -[omap]. unfold normalizeRef, set_schema, set_head_epoch. simpl.
  rewrite (decode_encode_checkpoints _ _ Hnz).
  destruct (N.eqb_spec (r_head_epoch r) 0) as [E|E].
  - f_equal. destruct (N.eqb_spec (r_epoch r) 0) as [E'|E']; by rewrite ?E'.
  - by apply N.eqb_neq in E as ->.
Qed.

Lemma decodeRef_cps_nonzero w r :
  decodeRef w = Ok r →
  map_Forall (λ _ raw, raw ≠ RawNumber 0) (w_checkpoints w) → cps_nonzero (r_checkpoints r).
Proof.
  unfold decodeRef. intros H Hn.
  repeat (break_match_hyp; simplify_eq/=); intros n cp Hcp; simpl in Hcp;
  apply lookup_omap_Some in Hcp as (raw & Hraw & Hw);
  specialize (Hn n raw Hw); destruct raw as [|c|m|]; simplify_eq/=; repeat case_match; simplify_eq/=;
  bool_to_prop; auto; naive_solver.
Qed.

Lemma ReapDeadline_after_activity r d t :
  ReapDeadline r = Some d → parse_stamp (r_touched_at r) = Some t → (t < d)%Z.
Proof.
  unfold ReapDeadline. intros H Ht. rewrite Ht in H.
  repeat (break_match; simplify_eq/=); bool_to_prop; lia.
Qed.

Lemma ReapDeadline_lease r d now :
  ReapDeadline r = Some d → LeaseLive r now = true → (now < d)%Z.
Proof.
  unfold ReapDeadline, LeaseLive, parseExpiry. intros H Hl.
  repeat (break_match; simplify_eq/=); bool_to_prop; try done; lia.
Qed.

Lemma onlyRenewed_eq claimed cur :
  onlyRenewed claimed cur = true →
  r_lineage cur = r_lineage claimed ∧ r_epoch cur = r_epoch claimed
  ∧ r_head_txid cur = r_head_txid claimed ∧ r_head_epoch cur = r_head_epoch claimed
  ∧ r_checkpoints cur = r_checkpoints claimed ∧ r_lease_holder cur = r_lease_holder claimed
  ∧ r_protected cur = r_protected claimed ∧ r_deleting cur = r_deleting claimed
  ∧ r_deleting_at cur = r_deleting_at claimed ∧ r_base cur = r_base claimed.
Proof.
  unfold onlyRenewed. intros H. bool_to_prop.
  destruct (r_reaping claimed); rewrite H; simpl; naive_solver.
Qed.

(** *** The ranking is a total order *)

#[global] Instance newer_total cps : Total (newer cps).
Proof.
  intros a b. unfold newer. repeat case_decide; try congruence;
    try (destruct (total String.le a b); tauto); try lia.
  destruct (total String.le (cp_created (default cp_zero (cps !! a)))
    (cp_created (default cp_zero (cps !! b)))); tauto.
Qed.

#[global] Instance newer_trans cps : Transitive (newer cps).
Proof.
  intros a b c. unfold newer.
  generalize (default cp_zero (cps !! a)) (default cp_zero (cps !! b)) (default cp_zero (cps !! c)).
  intros ca cb cc Hab Hbc. repeat case_decide; try congruence; try lia.
  - by trans b.
  - exfalso. assert (cp_created ca = cp_created cb); [|done].
    apply (anti_symm String.le); congruence.
  - by trans (cp_created cb).
Qed.

Lemma newer_antisym cps a b : newer cps a b → newer cps b a → a = b.
Proof.
  unfold newer.
  generalize (default cp_zero (cps !! a)) (default cp_zero (cps !! b)). intros ca cb Hab Hba.
  repeat case_decide; try congruence; try lia; [by apply (anti_symm String.le)|].
  exfalso. assert (cp_created ca = cp_created cb); [|done]. by apply (anti_symm String.le).
Qed.

(** [newestFirst] does not depend on the order Go iterates the map in: sorting
    any enumeration of the names gives it. *)
Lemma newestFirst_order_free cps names :
  names ≡ₚ (map_to_list cps).*1 → sort_by (newer cps) names = newestFirst cps.
Proof.
  intros Hp. apply sort_by_unique; try apply _; [|done].
  intros x y _ _. apply newer_antisym.
Qed.

Lemma elem_of_newestFirst cps n : n ∈ newestFirst cps ↔ is_Some (cps !! n).
Proof.
  unfold newestFirst. rewrite elem_of_sort_by, list_elem_of_fmap. split.
  - intros ([n' cp] & -> & Hin). apply elem_of_map_to_list in Hin. by eexists.
  - intros [cp Hcp]. exists (n, cp). by rewrite elem_of_map_to_list.
Qed.

Lemma newestFirst_sorted cps : StronglySorted (newer cps) (newestFirst cps).
Proof. apply sort_by_sorted; apply _. Qed.

Lemma newestFirst_NoDup cps : NoDup (newestFirst cps).
Proof. unfold newestFirst. rewrite sort_by_perm. apply NoDup_fst_map_to_list. Qed.

Lemma length_newestFirst cps : List.length (newestFirst cps) = size cps.
Proof. unfold newestFirst. by rewrite sort_by_perm, length_fmap, length_map_to_list. Qed.
