(* ===== verification/Backend.v ===== *)
(** * The object store and the monad of store programs

    [internal/store/backend.go]: the [Backend] interface, over objects that
    are JSON documents of their own shape or opaque bytes.  An ETag is a
    content hash, modelled as the content itself (SHA-256 and the S3 ETag of a
    single-part object are taken to be collision free); the empty string, the
    create-only condition of [PutIf], is [NoTag].

    A store program is a function of type [IO]: it runs in a [world] whose
    schedule holds one [tick] per backend call.  The tick says what other
    processes do to the store before the call ([tk_env], any function), how
    much time passes, and how the call itself misbehaves ([tk_fault]).  A
    theorem about every schedule is therefore a theorem about every
    interleaving with other processes and every pattern of I/O faults,
    lost replies included; the empty schedule is the sequential, fault-free
    run.  [w_log] is a history variable: the writes this program itself made,
    newest first. *)
From Stdlib Require Import Ascii String.
From S2P Require Import Prelude GoStrings Keys Refs.
Local Open Scope string_scope.

(** ** Objects and ETags *)

Inductive object :=
  | OManifest (layout : Z) (created : string)
  | ORef (w : refWire)
  | OBase (b : BasePointer)
  | OStones (m : gmap string stamp)
  | OBytes (s : string).

#[global] Instance object_eq_dec : EqDecision object.
Proof. solve_decision. Defined.

Inductive etag :=
  | NoTag
  | TagOf (o : object)
  | OtherTag (s : string).

#[global] Instance etag_eq_dec : EqDecision etag.
Proof. solve_decision. Defined.

Abbreviation objs := (gmap string object).

(** ** The pure key-value semantics every backend promises *)

Definition kv_get (m : objs) (key : string) : res (object * etag) :=
  match m !! key with
  | Some o => Ok (o, TagOf o)
  | None => Err [ErrNotFound]
  end.

(** Does [PutIf]'s condition hold of the current content? *)
Definition kv_match (cur : option object) (ifMatch : etag) : bool :=
  match ifMatch, cur with
  | NoTag, None => true
  | TagOf o, Some o' => bool_decide (o = o')
  | _, _ => false
  end.

Definition kv_keys (m : objs) : list string := (map_to_list m).*1.

Definition kv_list (m : objs) (prefix : string) : list string :=
  sort_by String.le (filter (λ k, HasPrefix k prefix = true) (kv_keys m)).

(** What a resolution of several reads sees.  Chain resolution, the base
    spine and the GC mark read each key at most once per call, so the values an
    interleaved run sees are those of one [view].  [v_bound] bounds the number
    of objects the view holds; it is the fuel of the base-spine walks. *)
Record view := mkView {
  v_get : string → res (object * etag);
  v_list : string → res (list string);
  v_bound : nat }.

Definition view_of (m : objs) : view := mkView (kv_get m) (λ p, Ok (kv_list m p)) (size m).

(** ** Worlds *)

(** How a call misbehaves.  [FErr]: fails, no effect.  [FLost]: takes effect,
    the reply is lost and the caller sees an I/O error.  [FLostCAS]: takes
    effect, and the client library's own retry of it then reports the conflict
    with itself.  [FConflict]: no effect, a conflict is reported (S3's 409). *)
Inductive fault := FNone | FErr | FLost | FLostCAS | FConflict.

Record tick := mkTick {
  tk_env : objs → objs;
  tk_dt : N;
  tk_fault : fault;
  tk_view : option view }.

Definition quiet : tick := mkTick id 0 FNone None.

(** The optional interfaces the backend implements. *)
Record caps := mkCaps {
  c_conditional_delete : bool;  (* ConditionalDeleter *)
  c_settled : bool;             (* SettledWriter *)
  c_copy : bool;                (* CopyObject is supported *)
  c_batch : bool }.             (* BatchDeleter *)

Record write := mkWrite {
  wr_key : string;
  wr_before : option object;
  wr_after : option object;
  wr_time : Z }.

Record world := mkWorld {
  w_objs : objs;
  w_now : Z;
  w_sched : list tick;
  w_caps : caps;
  w_ids : nat → string;    (* the stream of random lineage ids *)
  w_nid : nat;
  w_layout2 : bool;        (* Store.layoutAtLeastV2 *)
  w_log : list write }.

Definition IO (A : Type) : Type := world → res A * world.

#[global] Instance io_ret : MRet IO := λ A a w, (Ok a, w).
#[global] Instance io_bind : MBind IO := λ A B f m w,
  let '(r, w') := m w in
  match r with Ok a => f a w' | Err e => (Err e, w') end.

Definition fail {A} (e : error) : IO A := λ w, (Err e, w).

(** Run [m] and hand its error to the caller, as Go's [err] result does. *)
Definition try {A} (m : IO A) : IO (res A) := λ w, let '(r, w') := m w in (Ok r, w').

Definition lift {A} (r : res A) : IO A := λ w, (r, w).

(** [time.Now()]. *)
Definition now : IO Z := λ w, (Ok (w_now w), w).

(** [time.Sleep], and any local work that takes time. *)
Definition sleep (d : N) : IO unit := λ w,
  (Ok tt, mkWorld (w_objs w) (w_now w + Z.of_N d) (w_sched w) (w_caps w) (w_ids w) (w_nid w)
            (w_layout2 w) (w_log w)).

(** [NewLineageID]. *)
Definition NewLineageID : IO string := λ w,
  (Ok (w_ids w (w_nid w)),
   mkWorld (w_objs w) (w_now w) (w_sched w) (w_caps w) (w_ids w) (S (w_nid w)) (w_layout2 w) (w_log w)).

Definition get_caps : IO caps := λ w, (Ok (w_caps w), w).
Definition get_layout2 : IO bool := λ w, (Ok (w_layout2 w), w).
Definition set_layout2 : IO unit := λ w,
  (Ok tt, mkWorld (w_objs w) (w_now w) (w_sched w) (w_caps w) (w_ids w) (w_nid w) true (w_log w)).

(** Take the next tick: the other processes move, time passes. *)
Definition next_tick (w : world) : tick * world :=
  let '(t, rest) := match w_sched w with [] => (quiet, []) | t :: rest => (t, rest) end in
  (t, mkWorld (tk_env t (w_objs w)) (w_now w + Z.of_N (tk_dt t))%Z rest (w_caps w)
        (w_ids w) (w_nid w) (w_layout2 w) (w_log w)).

(** Write [o] (or delete, for [None]) at [key], recording it. *)
Definition store_at (key : string) (o : option object) (w : world) : world :=
  mkWorld (partial_alter (λ _, o) key (w_objs w)) (w_now w) (w_sched w) (w_caps w)
    (w_ids w) (w_nid w) (w_layout2 w) (mkWrite key (w_objs w !! key) o (w_now w) :: w_log w).

(** ** Backend calls *)

Definition Get (key : string) : IO (object * etag) := λ w,
  let '(t, w) := next_tick w in
  match tk_fault t with
  | FNone => (kv_get (w_objs w) key, w)
  | _ => (Err [EIO], w)
  end.

Definition ListKeys (prefix : string) : IO (list string) := λ w,
  let '(t, w) := next_tick w in
  match tk_fault t with
  | FNone => (Ok (kv_list (w_objs w) prefix), w)
  | _ => (Err [EIO], w)
  end.

(** A resolution made of several reads, over the view its reads see. *)
Definition reads {A} (f : view → res A) : IO A := λ w,
  let '(t, w) := next_tick w in
  (f (default (view_of (w_objs w)) (tk_view t)), w).

Definition Put (key : string) (o : object) : IO unit := λ w,
  let '(t, w) := next_tick w in
  match tk_fault t with
  | FNone => (Ok tt, store_at key (Some o) w)
  | FLost | FLostCAS => (Err [EIO], store_at key (Some o) w)
  | FErr | FConflict => (Err [EIO], w)
  end.

Definition PutIf (key : string) (o : object) (ifMatch : etag) : IO etag := λ w,
  let '(t, w) := next_tick w in
  match tk_fault t with
  | FErr => (Err [EIO], w)
  | FConflict => (Err [ErrCAS], w)
  | f =>
      if kv_match (w_objs w !! key) ifMatch then
        match f with
        | FLost => (Err [EIO], store_at key (Some o) w)
        | FLostCAS => (Err [ErrCAS], store_at key (Some o) w)
        | _ => (Ok (TagOf o), store_at key (Some o) w)
        end
      else (Err [ErrCAS], w)
  end.

Definition Delete (key : string) : IO unit := λ w,
  let '(t, w) := next_tick w in
  match tk_fault t with
  | FNone => (Ok tt, store_at key None w)
  | FLost | FLostCAS => (Err [EIO], store_at key None w)
  | FErr | FConflict => (Err [EIO], w)
  end.

(** [ConditionalDeleter.DeleteIf]: an absent key fails the compare too. *)
Definition DeleteIf (key : string) (ifMatch : etag) : IO unit := λ w,
  let '(t, w) := next_tick w in
  match tk_fault t with
  | FErr | FConflict => (Err [EIO], w)
  | f =>
      if kv_match (w_objs w !! key) ifMatch && bool_decide (ifMatch ≠ NoTag) then
        match f with
        | FNone => (Ok tt, store_at key None w)
        | _ => (Err [EIO], store_at key None w)
        end
      else (Err [ErrCAS], w)
  end.

(** [BatchDeleter.DeleteObjects]: each key is deleted at a moment of its own and
    may fail on its own, or its reply be lost, whatever became of the others
    (S3's batches go on past a failed key, and a batch that is not answered has
    every key of it and of the batches never sent fail here; the local backend's
    loop fails every key from its first error on).  It returns the keys known to
    be deleted, and an error when some key is not. *)
Fixpoint DeleteObjects (keys : list string) : IO (list string * option error) :=
  match keys with
  | [] => mret ([], None)
  | key :: keys =>
      r ← try (Delete key);
      '(deleted, err) ← DeleteObjects keys;
      mret match r with
           | Ok _ => (key :: deleted, err)
           | Err e => (deleted, Some (e ++ default [] err)%list)
           end
  end.

(** [CopyObject(dst, src)]: a server-side copy, or [ErrCopyUnsupported]. *)
Definition CopyObject (dst src : string) : IO unit := λ w,
  let '(t, w) := next_tick w in
  if negb (c_copy (w_caps w)) then (Err [ErrCopyUnsupported], w)
  else match tk_fault t with
  | FErr | FConflict => (Err [EIO], w)
  | f =>
      match w_objs w !! src with
      | None => (Err [ErrNotFound], w)
      | Some o =>
          match f with
          | FNone => (Ok tt, store_at dst (Some o) w)
          | _ => (Err [EIO], store_at dst (Some o) w)
          end
      end
  end.

(** ** Reasoning about every schedule

    [ticked w w']: what a program knows after a tick, with the other processes
    free to write anything. *)
Definition ticked (w w' : world) : Prop :=
  w_log w' = w_log w ∧ w_caps w' = w_caps w ∧ w_ids w' = w_ids w ∧ w_nid w' = w_nid w
  ∧ w_layout2 w' = w_layout2 w ∧ (w_now w <= w_now w')%Z.

Lemma next_tick_ticked w t w' : next_tick w = (t, w') → ticked w w'.
Proof.
  unfold next_tick, ticked. intros H.
  destruct (w_sched w); simplify_eq/=; split_and!; try done; lia.
Qed.

Definition calm (w : world) : Prop := w_sched w = [].

Lemma next_tick_calm w : calm w → next_tick w = (quiet, w).
Proof.
  unfold calm, next_tick. destruct w; simpl. intros ->. by rewrite Z.add_0_r.
Qed.

(** The store after a list of writes, newest first. *)
Definition replay (l : list write) (m : objs) : objs :=
  foldr (λ x, partial_alter (λ _, wr_after x) (wr_key x)) m l.

(** The writes a program adds to the log all satisfy [P] (at the time they are
    made), the clock does not run backwards, and in a sequential run the writes
    account for the whole change of the store. *)
Definition writes (P : write → Prop) (w w' : world) : Prop :=
  ∃ l, w_log w' = (l ++ w_log w)%list ∧ Forall P l
       ∧ (calm w → calm w' ∧ w_objs w' = replay l (w_objs w))
       ∧ Forall (λ x, (w_now w <= wr_time x)%Z) l ∧ (w_now w <= w_now w')%Z
       ∧ w_caps w' = w_caps w ∧ w_ids w' = w_ids w.

Lemma writes_pure P w w' :
  w_log w' = w_log w → w_objs w' = w_objs w → w_sched w' = w_sched w → (w_now w <= w_now w')%Z →
  w_caps w' = w_caps w → w_ids w' = w_ids w → writes P w w'.
Proof. intros E1 E2 E3 Hn Hc Hi. exists []. split_and!; try done. unfold calm. by rewrite E3. Qed.

Lemma writes_refl P w : writes P w w.
Proof. apply writes_pure; done || lia. Qed.

Lemma writes_tick P w t w' : next_tick w = (t, w') → writes P w w'.
Proof.
  intros Ht. exists []. split_and!; try done; try apply (next_tick_ticked _ _ _ Ht).
  intros Hc. rewrite next_tick_calm in Ht by done. by simplify_eq.
Qed.

Lemma writes_trans P w1 w2 w3 : writes P w1 w2 → writes P w2 w3 → writes P w1 w3.
Proof.
  intros (l1 & E1 & F1 & C1 & T1 & N1 & K1 & I1) (l2 & E2 & F2 & C2 & T2 & N2 & K2 & I2). exists (l2 ++ l1)%list. split_and!.
  - by rewrite E2, E1, app_assoc.
  - by apply Forall_app.
  - intros [Hc2 R1]%C1. destruct (C2 Hc2) as [Hc3 R2]. split; [done|].
    unfold replay in *. by rewrite R2, R1, foldr_app.
  - apply Forall_app. split; [|done]. eapply Forall_impl; [exact T2|]. simpl. lia.
  - lia.
  - congruence.
  - congruence.
Qed.

Lemma writes_store (P : write → Prop) w t w' key o :
  next_tick w = (t, w') → P (mkWrite key (w_objs w' !! key) o (w_now w')) → writes P w (store_at key o w').
Proof.
  intros T HP. eapply writes_trans; [by eapply writes_tick|].
  exists [mkWrite key (w_objs w' !! key) o (w_now w')]. split_and!; try done; by repeat constructor.
Qed.

(** [spec P Q m]: on every schedule, every write [m] makes satisfies [P] and
    every value it returns satisfies [Q]. *)
Definition spec {A} (P : write → Prop) (Q : A → Prop) (m : IO A) : Prop :=
  ∀ w r w', m w = (r, w') → writes P w w' ∧ (∀ a, r = Ok a → Q a).

Lemma writes_mono (P P' : write → Prop) w w' : (∀ x, P x → P' x) → writes P w w' → writes P' w w'.
Proof. intros HP (l & E & F & C). exists l. split_and!; [done|by eapply Forall_impl|apply C..]. Qed.

Lemma spec_mono {A} (P P' : write → Prop) (Q : A → Prop) (m : IO A) :
  (∀ x, P x → P' x) → spec P Q m → spec P' Q m.
Proof. intros HP Hm w r w' E. destruct (Hm w r w' E). split; [by eapply writes_mono|done]. Qed.

Section spec_rules.
Context (P : write → Prop).

Lemma spec_weaken {A} (Q Q' : A → Prop) (m : IO A) :
  (∀ a, Q a → Q' a) → spec P Q m → spec P Q' m.
Proof. intros HQ Hm w r w' E. destruct (Hm w r w' E). split; [done|]. naive_solver. Qed.

Lemma spec_bind {A B} (Q : A → Prop) (R : B → Prop) (m : IO A) (f : A → IO B) :
  spec P Q m → (∀ a, Q a → spec P R (f a)) → spec P R (m ≫= f).
Proof.
  intros Hm Hf w r w' E. unfold mbind, io_bind in E.
  destruct (m w) as [[a|e] w1] eqn:Em; simplify_eq/=.
  - destruct (Hm _ _ _ Em) as [Hw Hq]. destruct (Hf a (Hq a eq_refl) _ _ _ E) as [Hw' Hq'].
    split; [by eapply writes_trans|done].
  - destruct (Hm _ _ _ Em) as [Hw Hq]. split; [done|done].
Qed.

Lemma spec_ret {A} (Q : A → Prop) (a : A) : Q a → spec P Q (mret a).
Proof. intros HQ w r w' E. unfold mret, io_ret in E. simplify_eq. split; [apply writes_refl|naive_solver]. Qed.

Lemma spec_fail {A} (Q : A → Prop) e : spec P Q (fail e).
Proof. intros w r w' E. unfold fail in E. simplify_eq. split; [apply writes_refl|done]. Qed.

Lemma spec_lift {A} (Q : A → Prop) (x : res A) : (∀ a, x = Ok a → Q a) → spec P Q (lift x).
Proof. intros HQ w r w' E. unfold lift in E. simplify_eq. split; [apply writes_refl|done]. Qed.

Lemma spec_try {A} (Q : A → Prop) (m : IO A) :
  spec P Q m → spec P (λ r, ∀ a, r = Ok a → Q a) (try m).
Proof.
  intros Hm w r w' E. unfold try in E. destruct (m w) as [r1 w1] eqn:Em. simplify_eq.
  destruct (Hm _ _ _ Em). split; [done|]. naive_solver.
Qed.

Lemma spec_now : spec P (λ _, True) now.
Proof. intros w r w' E. unfold now in E. simplify_eq. split; [apply writes_refl|done]. Qed.

Lemma spec_sleep d : spec P (λ _, True) (sleep d).
Proof. intros w r w' E. unfold sleep in E. simplify_eq. split; [apply writes_pure; simpl; done || lia|done]. Qed.

Lemma spec_caps : spec P (λ _, True) get_caps.
Proof. intros w r w' E. unfold get_caps in E. simplify_eq. split; [apply writes_refl|done]. Qed.

Lemma spec_layout2 : spec P (λ _, True) get_layout2.
Proof. intros w r w' E. unfold get_layout2 in E. simplify_eq. split; [apply writes_refl|done]. Qed.

Lemma spec_set_layout2 : spec P (λ _, True) set_layout2.
Proof. intros w r w' E. unfold set_layout2 in E. simplify_eq. split; [apply writes_pure; done || lia|done]. Qed.

Lemma spec_NewLineageID : spec P (λ _, True) NewLineageID.
Proof. intros w r w' E. unfold NewLineageID in E. simplify_eq. split; [apply writes_pure; done || lia|done]. Qed.

Lemma spec_Get key : spec P (λ '(o, t), t = TagOf o) (Get key).
Proof.
  intros w r w' E. unfold Get in E. destruct (next_tick w) as [t w1] eqn:Et.
  unfold kv_get in E.
  repeat (break_match_hyp; simplify_eq/=); (split; [by eapply writes_tick|intros [??] ?; by repeat (break_match_hyp; simplify_eq/=)]).
Qed.

Lemma spec_ListKeys p : spec P (λ _, True) (ListKeys p).
Proof.
  intros w r w' E. unfold ListKeys in E. destruct (next_tick w) as [t w1] eqn:Et.
  repeat (break_match_hyp; simplify_eq/=); (split; [by eapply writes_tick|done]).
Qed.

Lemma spec_reads {A} (f : view → res A) : spec P (λ a, ∃ v, f v = Ok a) (reads f).
Proof.
  intros w r w' E. unfold reads in E. destruct (next_tick w) as [t w1] eqn:Et.
  simplify_eq. split; [by eapply writes_tick|eauto].
Qed.

Lemma spec_Put key o :
  (∀ b τ, P (mkWrite key b (Some o) τ)) → spec P (λ _, True) (Put key o).
Proof.
  intros HP w r w' E. unfold Put in E. destruct (next_tick w) as [t w1] eqn:Et.
  repeat (break_match_hyp; simplify_eq/=); (split; [|done]);
    first [by eapply writes_store | by eapply writes_tick].
Qed.

Lemma kv_match_before b (t : etag) :
  kv_match b t = true → (t = NoTag ∧ b = None) ∨ (∃ o, t = TagOf o ∧ b = Some o).
Proof. destruct t, b; simpl; intros; bool_to_prop; naive_solver. Qed.

Lemma spec_PutIf key o (t : etag) :
  (∀ b τ, kv_match b t = true → P (mkWrite key b (Some o) τ)) → spec P (λ t', t' = TagOf o) (PutIf key o t).
Proof.
  intros HP w r w' E. unfold PutIf in E. destruct (next_tick w) as [tk w1] eqn:Et.
  repeat (break_match_hyp; simplify_eq/=); (split; [|naive_solver]);
    first [by eapply writes_store; eauto | by eapply writes_tick].
Qed.

Lemma spec_Delete key :
  (∀ b τ, P (mkWrite key b None τ)) → spec P (λ _, True) (Delete key).
Proof.
  intros HP w r w' E. unfold Delete in E. destruct (next_tick w) as [tk w1] eqn:Et.
  repeat (break_match_hyp; simplify_eq/=); (split; [|done]);
    first [by eapply writes_store | by eapply writes_tick].
Qed.

Lemma spec_DeleteIf key (t : etag) :
  (∀ o τ, t = TagOf o → P (mkWrite key (Some o) None τ)) → spec P (λ _, True) (DeleteIf key t).
Proof.
  intros HP w r w' E. unfold DeleteIf in E. destruct (next_tick w) as [tk w1] eqn:Et.
  repeat (break_match_hyp; simplify_eq/=); (split; [|done]); try (by eapply writes_tick);
    bool_to_prop; (eapply writes_store; [done|]);
    match goal with H : kv_match _ _ = true |- _ => apply kv_match_before in H as [[-> _]|(o & -> & ->)] end;
    naive_solver.
Qed.

Lemma spec_CopyObject dst src :
  (∀ b o τ, P (mkWrite dst b (Some o) τ)) → spec P (λ _, True) (CopyObject dst src).
Proof.
  intros HP w r w' E. unfold CopyObject in E. destruct (next_tick w) as [tk w1] eqn:Et.
  repeat (break_match_hyp; simplify_eq/=); (split; [|done]);
    first [by eapply writes_store; eauto | by eapply writes_tick].
Qed.
End spec_rules.

#[export] Hint Resolve spec_fail spec_now spec_sleep spec_caps spec_layout2 spec_set_layout2
  spec_NewLineageID spec_Get spec_ListKeys spec_reads : offshoot.

(** One step of a [spec] proof: bind, then the leaf rules. *)
Ltac spec_step :=
  lazymatch goal with
  | |- spec _ _ (_ ≫= _) => eapply spec_bind; [eauto with offshoot | intros ? ?; simpl]
  | |- spec _ _ (match ?x with _ => _ end) => destruct x eqn:?
  | |- spec _ _ (mret _) => apply spec_ret
  | |- spec _ _ (fail _) => apply spec_fail
  | |- spec _ _ (lift _) => apply spec_lift
  end.

(** ** Facts about minted lineages

    [ispec ids P Q m]: [spec] for runs whose lineage ids come from [ids]. *)
Definition ispec {A} (ids : nat → string) (P : write → Prop) (Q : A → Prop) (m : IO A) : Prop :=
  ∀ w r w', w_ids w = ids → m w = (r, w') → writes P w w' ∧ (∀ a, r = Ok a → Q a).

Section ispec_rules.
Context (ids : nat → string) (P : write → Prop).

Lemma ispec_spec {A} (Q : A → Prop) (m : IO A) : spec P Q m → ispec ids P Q m.
Proof. intros Hm w r w' _. apply Hm. Qed.

Lemma ispec_bind {A B} (Q : A → Prop) (R : B → Prop) (m : IO A) (f : A → IO B) :
  ispec ids P Q m → (∀ a, Q a → ispec ids P R (f a)) → ispec ids P R (m ≫= f).
Proof.
  intros Hm Hf w r w' Hi E. unfold mbind, io_bind in E.
  destruct (m w) as [[a|e] w1] eqn:Em; simplify_eq/=; destruct (Hm _ _ _ eq_refl Em) as [Hw Hq]; [|done].
  pose proof Hw as (l & _ & _ & _ & _ & _ & _ & Hi1).
  destruct (Hf a (Hq a eq_refl) _ _ _ Hi1 E) as [Hw' Hq']. split; [by eapply writes_trans|done].
Qed.

Lemma ispec_try {A} (Q : A → Prop) (m : IO A) :
  ispec ids P Q m → ispec ids P (λ r, ∀ a, r = Ok a → Q a) (try m).
Proof.
  intros Hm w r w' Hi E. unfold try in E. destruct (m w) as [r1 w1] eqn:Em. simplify_eq.
  destruct (Hm _ _ _ eq_refl Em). split; [done|]. naive_solver.
Qed.

Lemma ispec_NewLineageID : ispec ids P (λ L, ∃ n, L = ids n) NewLineageID.
Proof.
  intros w r w' Hi E. unfold NewLineageID in E. simplify_eq.
  split; [apply writes_pure; done || lia|]. intros a [= <-]. eauto.
Qed.
End ispec_rules.

(** ** Facts about times and capabilities

    [tspec t c P Q m]: [spec] for runs that start at [t] or later on a backend
    with the capabilities [c], so that a program may use the time and the
    capabilities it has read to justify its later writes; [Q] relates the result
    to the time of the return. *)
Definition tspec {A} (t : Z) (c : caps) (P : write → Prop) (Q : A → Z → Prop) (m : IO A) : Prop :=
  ∀ w r w', (t <= w_now w)%Z → w_caps w = c → m w = (r, w') →
    writes P w w' ∧ (∀ a, r = Ok a → Q a (w_now w')).

Section tspec_rules.
Context (c : caps) (P : write → Prop).

Lemma tspec_spec {A} t (Q : A → Prop) (m : IO A) :
  spec (λ x, (t <= wr_time x)%Z → P x) Q m → tspec t c P (λ a _, Q a) m.
Proof.
  intros Hm w r w' Ht Hcap E. destruct (Hm w r w' E) as [(l & El & Hf & Hc & Htm & Hn) HQ]. split; [|done].
  exists l. split_and!; try done; try apply Hn. rewrite Forall_forall in *. intros x Hx. apply Hf; [done|].
  specialize (Htm x Hx). lia.
Qed.

Lemma tspec_of_spec {A} t (Q : A → Prop) (m : IO A) : spec P Q m → tspec t c P (λ a _, Q a) m.
Proof. intros Hm w r w' _ _ E. by apply Hm. Qed.

Lemma tspec_bind {A B} t (Q : A → Z → Prop) (R : B → Z → Prop) (m : IO A) (f : A → IO B) :
  tspec t c P Q m → (∀ a t', (t <= t')%Z → Q a t' → tspec t' c P R (f a)) → tspec t c P R (m ≫= f).
Proof.
  intros Hm Hf w r w' Ht Hcap E. unfold mbind, io_bind in E.
  destruct (m w) as [[a|e] w1] eqn:Em; simplify_eq/=; destruct (Hm _ _ _ Ht eq_refl Em) as [Hw Hq]; [|done].
  pose proof Hw as (l & _ & _ & _ & _ & Hn & Hcap1 & _).
  assert (t <= w_now w1)%Z as Ht1 by lia.
  destruct (Hf a (w_now w1) Ht1 (Hq a eq_refl) _ _ _ (Z.le_refl _) Hcap1 E) as [Hw' Hq'].
  split; [by eapply writes_trans|done].
Qed.

Lemma tspec_now t : tspec t c P (λ t' t'', t' = t'') now.
Proof.
  intros w r w' Ht Hcap E. unfold now in E. simplify_eq. split; [apply writes_refl|].
  by intros a [= <-].
Qed.

Lemma tspec_caps_bind {B} t (R : B → Z → Prop) (f : caps → IO B) :
  tspec t c P R (f c) → tspec t c P R (get_caps ≫= f).
Proof.
  intros Hf w r w' Ht Hcap E. unfold mbind, io_bind, get_caps in E. rewrite Hcap in E.
  by eapply Hf.
Qed.

Lemma tspec_ret {A} t (Q : A → Z → Prop) (a : A) :
  (∀ t', (t <= t')%Z → Q a t') → tspec t c P Q (mret a).
Proof.
  intros HQ w r w' Ht Hcap E. unfold mret, io_ret in E. simplify_eq.
  split; [apply writes_refl|]. intros a' [= <-]. by apply HQ.
Qed.

Lemma tspec_fail {A} t (Q : A → Z → Prop) e : tspec t c P Q (fail e).
Proof. intros w r w' Ht Hcap E. unfold fail in E. simplify_eq. split; [apply writes_refl|done]. Qed.

Lemma tspec_weaken {A} t (Q Q' : A → Z → Prop) (m : IO A) :
  (∀ a t', Q a t' → Q' a t') → tspec t c P Q m → tspec t c P Q' m.
Proof. intros HQ Hm w r w' Ht Hcap E. destruct (Hm w r w' Ht Hcap E). split; [done|]. naive_solver. Qed.

Lemma tspec_try {A} t (Q : A → Z → Prop) (m : IO A) :
  tspec t c P Q m → tspec t c P (λ r t', ∀ a, r = Ok a → Q a t') (try m).
Proof.
  intros Hm w r w' Ht Hcap E. unfold try in E. destruct (m w) as [r1 w1] eqn:Em. simplify_eq.
  destruct (Hm _ _ _ Ht eq_refl Em). split; [done|]. naive_solver.
Qed.
End tspec_rules.

(** ** Sequential runs *)

Section calm_runs.
Context (w : world) (Hc : calm w).

Lemma Get_calm key : Get key w = (kv_get (w_objs w) key, w).
Proof. unfold Get. by rewrite next_tick_calm. Qed.

Lemma ListKeys_calm p : ListKeys p w = (Ok (kv_list (w_objs w) p), w).
Proof. unfold ListKeys. by rewrite next_tick_calm. Qed.

Lemma reads_calm {A} (f : view → res A) : reads f w = (f (view_of (w_objs w)), w).
Proof. unfold reads. by rewrite next_tick_calm. Qed.

Lemma Put_calm key o : Put key o w = (Ok tt, store_at key (Some o) w).
Proof. unfold Put. by rewrite next_tick_calm. Qed.

Lemma PutIf_calm key o t :
  PutIf key o t w =
  if kv_match (w_objs w !! key) t then (Ok (TagOf o), store_at key (Some o) w) else (Err [ErrCAS], w).
Proof. unfold PutIf. by rewrite next_tick_calm. Qed.

Lemma Delete_calm key : Delete key w = (Ok tt, store_at key None w).
Proof. unfold Delete. by rewrite next_tick_calm. Qed.

Lemma DeleteIf_calm key t :
  DeleteIf key t w =
  if kv_match (w_objs w !! key) t && bool_decide (t ≠ NoTag)
  then (Ok tt, store_at key None w) else (Err [ErrCAS], w).
Proof. unfold DeleteIf. by rewrite next_tick_calm. Qed.

Lemma store_at_calm key o : calm (store_at key o w).
Proof. done. Qed.
End calm_runs.

Lemma io_bind_eq {A B} (m : IO A) (f : A → IO B) w :
  (m ≫= f) w = let '(r, w') := m w in match r with Ok a => f a w' | Err e => (Err e, w') end.
Proof. done. Qed.

Lemma io_ret_eq {A} (a : A) w : mret (M := IO) a w = (Ok a, w).
Proof. done. Qed.

Lemma try_eq {A} (m : IO A) w : try m w = (Ok (m w).1, (m w).2).
Proof. unfold try. by destruct (m w). Qed.

Lemma now_eq w : now w = (Ok (w_now w), w).
Proof. done. Qed.

Lemma store_at_lookup key o w : w_objs (store_at key o w) !! key = o.
Proof. simpl. by rewrite lookup_partial_alter_eq. Qed.

Lemma store_at_lookup_ne key key' o w : key ≠ key' → w_objs (store_at key o w) !! key' = w_objs w !! key'.
Proof. intros. simpl. by rewrite lookup_partial_alter_ne. Qed.

(** ** Listings *)

Lemma elem_of_kv_list m p k : k ∈ kv_list m p ↔ is_Some (m !! k) ∧ HasPrefix k p = true.
Proof.
  unfold kv_list, kv_keys. rewrite elem_of_sort_by, list_elem_of_filter, list_elem_of_fmap. split.
  - intros [Hp ([k' o] & -> & Hin)]. apply elem_of_map_to_list in Hin. split; [by eexists|done].
  - intros [[o Ho] Hp]. split; [done|]. exists (k, o). by rewrite elem_of_map_to_list.
Qed.

Lemma kv_list_NoDup m p : NoDup (kv_list m p).
Proof.
  unfold kv_list. rewrite sort_by_perm. apply list.NoDup_filter, NoDup_fst_map_to_list.
Qed.

Lemma run_Ok {A} (m : IO A) w a : (m w).1 = Ok a → m w = (Ok a, (m w).2).
Proof. intros <-. apply surjective_pairing. Qed.

Lemma run_Err {A} (m : IO A) w e : (m w).1 = Err e → m w = (Err e, (m w).2).
Proof. intros <-. apply surjective_pairing. Qed.
