(* ===== verification/Local.v ===== *)
(** * The directory backend

    [internal/store/local.go]: [Local], a [Backend] over a directory.  Objects
    are files; a conditional write compares and renames under an flock(2) on the
    key's lock file, which release unlinks.

    The conditional calls are modelled as a machine over one key: any number of
    processes, each at some point of one call ([pc]), take turns by single
    system calls in any order.  An action may also fail or the process may die,
    which closes its descriptors.  Temporary files are private to their call
    (unique names), so a write is its rename; a directory that a delete empties
    is made again by the next write.  As in [Backend], an ETag is the content it
    hashes.  [ls_log] records each call at the system call that decides it. *)
From Stdlib Require Import Ascii String.
From S2P Require Import Prelude GoStrings Keys Refs Backend.
Local Open Scope string_scope.

(** ** Calls on one key *)

Inductive lop :=
  | LGet
  | LPutIf (o : object) (ifMatch : etag)
  | LDeleteIf (ifMatch : etag)
  | LPut (o : object)
  | LDelete.

Inductive lreply :=
  | RObj (o : object) (e : etag)
  | RNotFound
  | RTag (e : etag)
  | RUnit
  | RErrCAS
  | RErr.     (* an I/O error, or the lock's timeout *)

#[global] Instance lreply_eq_dec : EqDecision lreply.
Proof. solve_decision. Defined.

(** The compare of [PutIf] and [PutReaderIf], and that of [deleteIfLocked]. *)
Definition local_compare (op : lop) (cur : option object) : bool :=
  match op with
  | LPutIf _ ifMatch => kv_match cur ifMatch
  | LDeleteIf ifMatch => match cur with Some o => bool_decide (ifMatch = TagOf o) | None => false end
  | _ => true
  end.

(** The rename or unlink that follows: the new content and the reply. *)
Definition local_write (op : lop) (cur : option object) : option object * lreply :=
  match op with
  | LPutIf o _ => (Some o, RTag (TagOf o))
  | LPut o => (Some o, RUnit)
  | LDeleteIf _ | LDelete => (None, RUnit)
  | LGet => (cur, match cur with Some o => RObj o (TagOf o) | None => RNotFound end)
  end.

(** ** The lock machine *)

Inductive pc :=
  | PStart                          (* before the lock file is opened *)
  | POpen (i : nat)                 (* it is open, as inode [i] *)
  | PFlocked (i : nat)              (* flock granted, [sameFileAt] not yet asked *)
  | PHeld (i : nat)                 (* [lock] returned *)
  | PCompared (i : nat)             (* the compare succeeded *)
  | PReply (i : nat) (r : lreply)   (* the reply is decided, the lock to be released *)
  | PUnlinked (i : nat) (r : lreply) (* the lock file is removed, the flock still held *)
  | PDone (r : lreply)
  | PCrash.

Inductive act := Go | Fault | Die.

Record lstate := mkLocal {
  ls_obj : option object;           (* the file at the key's path *)
  ls_lock : option nat;             (* the inode at the lock file's path *)
  ls_next : nat;                    (* the next inode *)
  ls_flock : nat → option nat;      (* who holds an inode's flock *)
  ls_pc : nat → pc;
  ls_log : list (nat * lreply) }.   (* decided calls, newest first *)

Definition upd {A} (f : nat → A) (p : nat) (a : A) : nat → A := λ q, if decide (q = p) then a else f q.

Definition goto (p : nat) (c : pc) (s : lstate) : lstate :=
  mkLocal (ls_obj s) (ls_lock s) (ls_next s) (ls_flock s) (upd (ls_pc s) p c) (ls_log s).
Definition set_lock (l : option nat) (s : lstate) : lstate :=
  mkLocal (ls_obj s) l (ls_next s) (ls_flock s) (ls_pc s) (ls_log s).
Definition set_flock (i : nat) (h : option nat) (s : lstate) : lstate :=
  mkLocal (ls_obj s) (ls_lock s) (ls_next s) (upd (ls_flock s) i h) (ls_pc s) (ls_log s).
Definition decided (p : nat) (o : option object) (r : lreply) (s : lstate) : lstate :=
  mkLocal o (ls_lock s) (ls_next s) (ls_flock s) (ls_pc s) ((p, r) :: ls_log s).

(** A new lock file, by [O_CREATE]. *)
Definition create_lock (s : lstate) : lstate :=
  mkLocal (ls_obj s) (Some (ls_next s)) (S (ls_next s)) (ls_flock s) (ls_pc s) (ls_log s).

Section machine.
  Context (calls : nat → lop).

(** [lock]'s loop: open or create, try the flock, check that the file locked is
    still the one at the path; a fault stands for an error or the timeout. *)
Definition lock_step (p : nat) (a : act) (s : lstate) : lstate :=
  match ls_pc s p, a with
  | PStart, Go =>
      match ls_lock s with
      | Some i => goto p (POpen i) s
      | None => goto p (POpen (ls_next s)) (create_lock s)
      end
  | POpen i, Go =>
      match ls_flock s i with
      | None => goto p (PFlocked i) (set_flock i (Some p) s)
      | Some _ => goto p PStart s
      end
  | PFlocked i, Go =>
      if decide (ls_lock s = Some i) then goto p (PHeld i) s
      else goto p PStart (set_flock i None s)
  | PFlocked i, _ => goto p PStart (set_flock i None s)
  | _, _ => goto p (PDone RErr) s
  end.

(** The critical section: read and compare, then rename or unlink. *)
Definition body_step (p : nat) (a : act) (s : lstate) : lstate :=
  match ls_pc s p, a with
  | PHeld i, Go =>
      if local_compare (calls p) (ls_obj s) then goto p (PCompared i) s
      else goto p (PReply i RErrCAS) (decided p (ls_obj s) RErrCAS s)
  | PCompared i, Go =>
      match calls p, ls_obj s with
      | LDeleteIf _, None => goto p (PReply i RUnit) s   (* unlinked by someone else *)
      | op, cur => let '(o, r) := local_write op cur in goto p (PReply i r) (decided p o r s)
      end
  | PHeld i, _ | PCompared i, _ => goto p (PReply i RErr) s
  | _, _ => s
  end.

(** [release]: unlink the lock file, whatever is at its path, then unlock. *)
Definition release_step (p : nat) (a : act) (s : lstate) : lstate :=
  match ls_pc s p, a with
  | PReply i r, Go => goto p (PUnlinked i r) (set_lock None s)
  | PReply i r, _ => goto p (PUnlinked i r) s
  | PUnlinked i r, _ => goto p (PDone r) (set_flock i None s)
  | _, _ => s
  end.

(** [Get], [Put] and [Delete] take no lock: one system call decides them. *)
Definition plain_step (p : nat) (a : act) (s : lstate) : lstate :=
  match a with
  | Go => let '(o, r) := local_write (calls p) (ls_obj s) in goto p (PDone r) (decided p o r s)
  | _ => goto p (PDone RErr) s
  end.

(** The flock a process holds. *)
Definition flocked (c : pc) : option nat :=
  match c with
  | PFlocked i | PHeld i | PCompared i | PReply i _ | PUnlinked i _ => Some i
  | _ => None
  end.

(** A process that dies closes its descriptors; the lock file stays. *)
Definition die (p : nat) (s : lstate) : lstate :=
  goto p PCrash (match flocked (ls_pc s p) with Some i => set_flock i None s | None => s end).

Definition local_step (p : nat) (a : act) (s : lstate) : lstate :=
  match ls_pc s p, a with
  | PDone _, _ | PCrash, _ => s
  | _, Die => die p s
  | PStart, _ =>
      match calls p with
      | LPutIf _ _ | LDeleteIf _ => lock_step p a s
      | _ => plain_step p a s
      end
  | POpen _, _ | PFlocked _, _ => lock_step p a s
  | PHeld _, _ | PCompared _, _ => body_step p a s
  | PReply _ _, _ | PUnlinked _ _, _ => release_step p a s
  end.

Definition local_run (sched : list (nat * act)) (s : lstate) : lstate :=
  foldl (λ s '(p, a), local_step p a s) s sched.
End machine.

(** No call has begun; a lock file may be left from an earlier crash. *)
Definition local_init (o : option object) (left_lock : bool) : lstate :=
  mkLocal o (if left_lock then Some 0%nat else None) 1 (λ _, None) (λ _, PStart) [].

(** ** The specification: atomic calls *)

Definition kv_apply (op : lop) (cur : option object) : option object * lreply :=
  if local_compare op cur then local_write op cur else (cur, RErrCAS).

(** [log] is a sequential history of atomic calls from [o] to [o']. *)
Inductive kv_history (calls : nat → lop) (o : option object) : list (nat * lreply) → option object → Prop :=
  | history_nil : kv_history calls o [] o
  | history_cons p r log o1 o2 :
      kv_history calls o log o1 → kv_apply (calls p) o1 = (o2, r) → kv_history calls o ((p, r) :: log) o2.

(** ** Listing *)

(** [Local.path]'s check of a key. *)
Definition path_ok (key : string) : bool :=
  negb (bool_decide (key = "")) && negb (Contains key "..") && negb (HasPrefix key "/").

(** [filepath.Base] of a key. *)
Definition base_name (key : string) : string := default "" (last (Split key slash)).

(** The names [List] skips: lock files and temporaries. *)
Definition hidden (key : string) : bool := HasSuffix key ".lock" || Contains (base_name key) ".tmp-".

(** The part of [s] before its last slash, if it has one. *)
Fixpoint before_last_slash (s : string) : option string :=
  match s with
  | EmptyString => None
  | String c s' =>
      match before_last_slash s' with
      | Some d => Some (String c d)
      | None => if bool_decide (c = slash) then Some "" else None
      end
  end.

(** [listStart]: the directory [List] walks, the root being [None]. *)
Definition listStart (prefix : string) : option string :=
  match before_last_slash prefix with
  | Some d => if path_ok d then Some d else None
  | None => None
  end.

(** Does the walk of [start] reach the file? *)
Definition walked (start : option string) (key : string) : bool :=
  match start with
  | None => true
  | Some d => bool_decide (key = d) || HasPrefix key (d +:+ "/")
  end.

(** [List], over the files of the directory by their keys. *)
Definition local_list (files : objs) (prefix : string) : list string :=
  sort_by String.le
    (filter (λ k, HasPrefix k prefix = true)
       (filter (λ k, hidden k = false) (filter (λ k, walked (listStart prefix) k = true) (kv_keys files)))).
