(* ===== verification/Chain.v ===== *)
(** * Chain resolution

    [internal/store/store.go]: [lineageBase], [BaseSpine], [CollapseBase],
    [moreLive], [keepHighestEpoch], [listMembers], [resolveSelf],
    [resolveRange], [chainFrom] and [Chain]: which objects of a lineage (and of
    the lineages it was forked from) are applied, in which order, to
    materialize a target transaction.

    The definitions read a [view] of the store.  The base-spine walks of the
    source are unbounded loops cut by a cycle check; here they take fuel, one
    more than the view's bound, and [Err [EFuel]] marks exhaustion, which the
    termination theorems exclude. *)
From Stdlib Require Import Ascii String.
From S2P Require Import Prelude GoStrings Keys Refs Backend.

(** ** Bases *)

Definition lineageBase (v : view) (lineage : string) : res (option BasePointer) :=
  match v_get v (BaseKey lineage) with
  | Err e => if errors_Is e ErrNotFound then Ok None else Err e
  | Ok (OBase b, _) => Ok (Some b)
  | Ok (_, _) => Err [ECorrupt]
  end.

Fixpoint BaseSpine_loop (fuel : nat) (v : view) (seen : gset string) (cur : string)
    (spine : list string) : res (list string) :=
  match fuel with
  | O => Err [EFuel]
  | S fuel =>
      match lineageBase v cur with
      | Err e => Err e
      | Ok None => Ok spine
      | Ok (Some b) =>
          if decide (bp_lineage b ∈ seen) then Err [ECycle]
          else BaseSpine_loop fuel v ({[bp_lineage b]} ∪ seen) (bp_lineage b)
                 (spine ++ [bp_lineage b])
      end
  end.

Definition BaseSpine (v : view) (lineage : string) : res (list string) :=
  BaseSpine_loop (S (v_bound v)) v {[lineage]} lineage [].

Fixpoint CollapseBase_loop (fuel : nat) (v : view) (txid : N) (seen : gset string) (cur : string)
    : res string :=
  match fuel with
  | O => Err [EFuel]
  | S fuel =>
      match lineageBase v cur with
      | Err e => Err e
      | Ok None => Ok cur
      | Ok (Some b) =>
          if (bp_txid b <? txid)%N then Ok cur
          else if decide (bp_lineage b ∈ seen) then Err [ECycle]
          else CollapseBase_loop fuel v txid ({[bp_lineage b]} ∪ seen) (bp_lineage b)
      end
  end.

Definition CollapseBase (v : view) (lineage : string) (txid : N) : res string :=
  CollapseBase_loop (S (v_bound v)) v txid {[lineage]} lineage.

(** ** Live members of one lineage *)

Definition moreLive (a b : ChainMember) : bool :=
  if (m_epoch a =? m_epoch b)%N then m_snapshot a && negb (m_snapshot b)
  else (m_epoch b <? m_epoch a)%N.

(** Does [m] establish one transaction's state (a snapshot, or a segment of a
    single transaction)? *)
Definition single (m : ChainMember) : bool := m_snapshot m || (m_min m =? m_max m)%N.

(** One iteration of [keepHighestEpoch]'s loop over its two maps. *)
Definition keep_step (maps : gmap N ChainMember * gmap (N * N) ChainMember) (m : ChainMember)
    : gmap N ChainMember * gmap (N * N) ChainMember :=
  let '(byTXID, byRange) := maps in
  if single m then
    match byTXID !! m_max m with
    | Some cur => if moreLive m cur then (<[m_max m := m]> byTXID, byRange) else maps
    | None => (<[m_max m := m]> byTXID, byRange)
    end
  else
    match byRange !! (m_min m, m_max m) with
    | Some cur =>
        if (m_epoch cur <? m_epoch m)%N then (byTXID, <[(m_min m, m_max m) := m]> byRange) else maps
    | None => (byTXID, <[(m_min m, m_max m) := m]> byRange)
    end.

Definition keepHighestEpoch (members : list ChainMember) : list ChainMember :=
  let '(byTXID, byRange) := foldl keep_step (∅, ∅) members in
  (map_to_list byTXID).*2 ++ (map_to_list byRange).*2.

(** The two [sort.Slice] orders of [listMembers]. *)
Definition snap_le (a b : ChainMember) : Prop := (m_max a <= m_max b)%N.
Definition seg_le (a b : ChainMember) : Prop :=
  if (m_max a =? m_max b)%N then (m_min a <= m_min b)%N else (m_max a < m_max b)%N.

#[global] Instance snap_le_dec : RelDecision snap_le.
Proof. intros a b. unfold snap_le. apply _. Defined.
#[global] Instance seg_le_dec : RelDecision seg_le.
Proof. intros a b. unfold seg_le. case_match; apply _. Defined.

Definition split_members (members : list ChainMember) : list ChainMember * list ChainMember :=
  (sort_by snap_le (filter (λ m, m_snapshot m = true) members),
   sort_by seg_le (filter (λ m, m_snapshot m = false) members)).

Definition listMembers (v : view) (lineage : string) : res (list ChainMember * list ChainMember) :=
  match v_list v (LineagePrefix lineage) with
  | Err e => Err e
  | Ok keys => Ok (split_members (keepHighestEpoch (omap ParseMemberKey keys)))
  end.

(** ** Resolution *)

(** The segment loop of [resolveSelf]. *)
Fixpoint self_walk (target prevMax : N) (chain segments : list ChainMember) : res (list ChainMember) :=
  match segments with
  | [] => Err [EShort]
  | seg :: rest =>
      if (m_max seg <=? prevMax)%N then self_walk target prevMax chain rest
      else if negb (m_min seg =? add64 prevMax 1)%N then Err [EHole]
      else
        let chain := chain ++ [seg] in
        if (m_max seg =? target)%N then Ok chain
        else if (target <? m_max seg)%N then Err [EShort]
        else self_walk target (m_max seg) chain rest
  end.

(** The newest snapshot at or below [target]: the source scans from the end. *)
Definition newest_at (target : N) (snapshots : list ChainMember) : option ChainMember :=
  head (filter (λ m, (m_max m <= target)%N) (reverse snapshots)).

Definition resolveSelf (target : N) (snapshots segments : list ChainMember) : res (list ChainMember) :=
  match newest_at target snapshots with
  | None => Err [ErrNoSnapshotCoversTarget]
  | Some base =>
      if (m_max base =? target)%N then Ok [base]
      else self_walk target (m_max base) [base] segments
  end.

(** The loop of [resolveRange]: unlike [self_walk], it skips by the fixed lower
    bound. *)
Fixpoint range_walk (lo hi prevMax : N) (run segments : list ChainMember) : res (list ChainMember) :=
  match segments with
  | [] => Err [EShort]
  | seg :: rest =>
      if (m_max seg <=? lo)%N then range_walk lo hi prevMax run rest
      else if negb (m_min seg =? add64 prevMax 1)%N then Err [EHole]
      else
        let run := run ++ [seg] in
        if (m_max seg =? hi)%N then Ok run
        else if (hi <? m_max seg)%N then Err [EShort]
        else range_walk lo hi (m_max seg) run rest
  end.

Definition resolveRange (lo hi : N) (segments : list ChainMember) : res (list ChainMember) :=
  range_walk lo hi lo [] segments.

Definition chainSelf (v : view) (lineage : string) (target : N) : res (list ChainMember) :=
  match listMembers v lineage with
  | Err e => Err e
  | Ok (snapshots, segments) => resolveSelf target snapshots segments
  end.

(** The seam check: the parent chain must end exactly at the fork point. *)
Definition seam_ok (parent : list ChainMember) (txid : N) : bool :=
  match last parent with
  | Some m => (m_max m =? txid)%N
  | None => false
  end.

Fixpoint chainFrom (fuel : nat) (v : view) (lineage : string) (target : N) (seen : gset string)
    : res (list ChainMember) :=
  match fuel with
  | O => Err [EFuel]
  | S fuel =>
      match lineageBase v lineage with
      | Err e => Err e
      | Ok None => chainSelf v lineage target
      | Ok (Some base) =>
          if decide (bp_lineage base ∈ seen) then Err [ECycle]
          else
            let seen := {[bp_lineage base]} ∪ seen in
            if (target <=? bp_txid base)%N then chainFrom fuel v (bp_lineage base) target seen
            else
              match listMembers v lineage with
              | Err e => Err e
              | Ok (snapshots, segments) =>
                  match resolveSelf target snapshots segments with
                  | Ok selfChain => Ok selfChain
                  | Err selfErr =>
                      if negb (errors_Is selfErr ErrNoSnapshotCoversTarget) then Err selfErr
                      else
                        match chainFrom fuel v (bp_lineage base) (bp_txid base) seen with
                        | Err e => Err e
                        | Ok parentChain =>
                            match resolveRange (bp_txid base) target segments with
                            | Err e => Err e
                            | Ok childSegs =>
                                if negb (seam_ok parentChain (bp_txid base)) then Err [ESeam]
                                else Ok (parentChain ++ childSegs)
                            end
                        end
                  end
              end
      end
  end.

Definition Chain (v : view) (lineage : string) (target : N) : res (list ChainMember) :=
  chainFrom (S (v_bound v)) v lineage target {[lineage]}.
