(* ===== verification/ChainFacts.v ===== *)
(** * Chain resolution: lemmas

    Fencing ([keepHighestEpoch] keeps the most live member of each slot),
    independence of Go's map iteration order, the walks against the declarative
    notion of a contiguous run, and the reference definition of [Chain] by
    recursion on the base spine. *)
From Stdlib Require Import Ascii String.
From S2P Require Import Prelude GoStrings Keys Refs Backend Chain.

(** ** The liveness order *)

(** [moreLive] compares epochs, a snapshot winning a tie. *)
Definition rank (m : ChainMember) : N := (2 * m_epoch m + if m_snapshot m then 1 else 0)%N.

Lemma moreLive_rank a b : moreLive a b = (rank b <? rank a)%N.
Proof.
  unfold moreLive, rank. destruct (N.eqb_spec (m_epoch a) (m_epoch b)) as [->|];
    destruct (m_snapshot a), (m_snapshot b); simpl; symmetry;
    rewrite ?N.ltb_lt, ?N.ltb_ge; try lia;
    destruct (N.ltb_spec (m_epoch b) (m_epoch a)); rewrite ?N.ltb_lt, ?N.ltb_ge; lia.
Qed.

Definition pick (cur : option ChainMember) (m : ChainMember) : option ChainMember :=
  match cur with
  | None => Some m
  | Some c => if moreLive m c then Some m else Some c
  end.

(** The first member of highest rank. *)
Definition best (l : list ChainMember) : option ChainMember := foldl pick None l.

Lemma pick_fold_Some l c : ∃ b, foldl pick (Some c) l = Some b
  ∧ (b = c ∨ b ∈ l) ∧ (rank c <= rank b)%N ∧ Forall (λ m, (rank m <= rank b)%N) l.
Proof.
  revert c. induction l as [|m l IH]; intros c; simpl.
  - exists c. split_and!; try done. by left.
  - rewrite moreLive_rank. destruct (N.ltb_spec (rank c) (rank m)).
    + destruct (IH m) as (b & -> & Hin & Hr & Hf). exists b. split_and!; try done.
      * right. set_solver.
      * lia.
      * constructor; [lia|done].
    + destruct (IH c) as (b & -> & Hin & Hr & Hf). exists b. split_and!; try done.
      * set_solver.
      * constructor; [lia|done].
Qed.

Lemma best_nil_iff l : best l = None ↔ l = [].
Proof.
  unfold best. destruct l as [|m l]; simpl; [done|].
  destruct (pick_fold_Some l m) as (b & -> & _). done.
Qed.

Lemma best_Some l b : best l = Some b → b ∈ l ∧ Forall (λ m, (rank m <= rank b)%N) l.
Proof.
  unfold best. destruct l as [|m l]; simpl; [done|].
  destruct (pick_fold_Some l m) as (b' & -> & Hin & Hr & Hf). intros ?; simplify_eq.
  split; [set_solver|by constructor].
Qed.

Lemma best_max l b m : best l = Some b → m ∈ l → (rank m <= rank b)%N.
Proof. intros [_ Hf]%best_Some Hm. rewrite Forall_forall in Hf. by apply Hf. Qed.

(** A strictly less live member changes nothing, wherever it is listed. *)
Lemma pick_fold_weaker l m x :
  (∀ c, x = Some c → (rank c <= rank m)%N) → (∃ m', m' ∈ l ∧ (rank m < rank m')%N) →
  foldl pick (Some m) l = foldl pick x l.
Proof.
  revert x. induction l as [|h l IH]; intros x Hx (m' & Hin & Hr); [set_solver|].
  simpl. rewrite moreLive_rank. destruct (N.ltb_spec (rank m) (rank h)) as [Hh|Hh].
  - assert (pick x h = Some h) as ->; [|done].
    destruct x as [c|]; simpl; [|done]. rewrite moreLive_rank.
    specialize (Hx c eq_refl). destruct (N.ltb_spec (rank c) (rank h)); [done|lia].
  - apply IH.
    + intros c Hc. destruct x as [c'|]; simpl in Hc; simplify_eq; [|done].
      specialize (Hx c' eq_refl). destruct (moreLive h c'); by simplify_eq.
    + exists m'. split; [|done]. set_unfold. destruct Hin as [->|]; [lia|done].
Qed.

Lemma best_insert_weaker l1 m l2 :
  (∃ m', m' ∈ l1 ++ l2 ∧ (rank m < rank m')%N) → best (l1 ++ m :: l2) = best (l1 ++ l2).
Proof.
  intros (m' & Hin & Hr). unfold best. rewrite !foldl_app. simpl.
  destruct (foldl pick None l1) as [b|] eqn:E; simpl.
  - rewrite moreLive_rank. destruct (N.ltb_spec (rank b) (rank m)) as [Hb|Hb]; [|done].
    apply pick_fold_weaker; [naive_solver lia|]. exists m'. split; [|done].
    apply elem_of_app in Hin as [Hin|]; [|done].
    pose proof (best_max l1 b m' E Hin). lia.
  - apply pick_fold_weaker; [done|]. exists m'. split; [|done].
    apply best_nil_iff in E as ->. done.
Qed.

(** [best] is the first member of maximal rank. *)
Lemma best_iff l b :
  best l = Some b ↔
  ∃ l1 l2, l = l1 ++ b :: l2 ∧ Forall (λ m, (rank m < rank b)%N) l1
           ∧ Forall (λ m, (rank m <= rank b)%N) l2.
Proof.
  split.
  - revert b. induction l as [|m l IH] using rev_ind; intros b; [done|].
    unfold best. rewrite foldl_snoc. fold (best l). destruct (best l) as [c|] eqn:E; simpl.
    + rewrite moreLive_rank. destruct (N.ltb_spec (rank c) (rank m)); intros; simplify_eq.
      * exists l, []. split_and!; [done| |constructor].
        apply best_Some in E as [_ Hf]. eapply Forall_impl; [exact Hf|]. simpl. intros; lia.
      * destruct (IH b eq_refl) as (l1 & l2 & -> & H1 & H2). exists l1, (l2 ++ [m]).
        rewrite <-app_assoc. split_and!; [done..|]. apply Forall_app. by repeat constructor.
    + intros ?; simplify_eq. apply best_nil_iff in E as ->. by exists [], [].
  - intros (l1 & l2 & -> & H1 & H2). unfold best. rewrite foldl_app. simpl.
    assert (pick (foldl pick None l1) b = Some b) as ->.
    { fold (best l1). destruct (best l1) as [c|] eqn:E; [|done]. simpl.
      apply best_Some in E as [Hin _]. rewrite Forall_forall in H1. specialize (H1 c Hin).
      rewrite moreLive_rank. destruct (N.ltb_spec (rank c) (rank b)); [done|lia]. }
    destruct (pick_fold_Some l2 b) as (b' & Hb' & Hin & Hr & Hf).
    revert Hb'. clear -H2. induction l2 as [|m l2 IH]; [done|].
    apply Forall_cons in H2 as [Hm H2]. simpl. rewrite moreLive_rank.
    destruct (N.ltb_spec (rank b) (rank m)); [lia|]. by apply IH.
Qed.

(** Dropping other members keeps the best one the best. *)
Lemma best_filter (P : ChainMember → Prop) `{!∀ m, Decision (P m)} l b :
  best l = Some b → P b → best (filter P l) = Some b.
Proof.
  rewrite !best_iff. intros (l1 & l2 & -> & H1 & H2) HP.
  exists (filter P l1), (filter P l2). rewrite filter_app, filter_cons_True by done.
  split_and!; [done|by apply Forall_filter_any..].
Qed.

(** ** Slots: what [keepHighestEpoch] keeps one member of *)

Definition same_slot (a b : ChainMember) : Prop :=
  single a = single b ∧ m_max a = m_max b ∧ (single a = false → m_min a = m_min b).

#[global] Instance same_slot_dec a : ∀ b, Decision (same_slot a b).
Proof. intros b. unfold same_slot. apply _. Defined.

Lemma same_slot_refl a : same_slot a a.
Proof. done. Qed.
Lemma same_slot_sym a b : same_slot a b → same_slot b a.
Proof. unfold same_slot. intros (H1 & H2 & H3). rewrite <-H1. naive_solver. Qed.
Lemma same_slot_trans a b c : same_slot a b → same_slot b c → same_slot a c.
Proof. unfold same_slot. intros (H1 & H2 & H3) (H4 & H5 & H6). rewrite H1 in *. naive_solver congruence. Qed.

Definition keep_maps (l : list ChainMember) := foldl keep_step (∅, ∅) l.

Lemma not_single_moreLive a b : single a = false → single b = false → moreLive a b = (m_epoch b <? m_epoch a)%N.
Proof.
  unfold single, moreLive. intros Ha Hb.
  destruct (m_snapshot a), (m_snapshot b); try done. simpl.
  destruct (N.eqb_spec (m_epoch a) (m_epoch b)) as [->|]; [by rewrite N.ltb_irrefl|done].
Qed.

Lemma keep_maps_range_single l p m : (keep_maps l).2 !! p = Some m →
  single m = false ∧ p = (m_min m, m_max m) ∧ m ∈ l.
Proof.
  revert m. induction l as [|x l IH] using rev_ind; intros m; [done|].
  unfold keep_maps. rewrite foldl_snoc. fold (keep_maps l).
  destruct (keep_maps l) as [bt br]. simpl in *. unfold keep_step.
  intros H; repeat (break_match_hyp; simplify_eq/=);
    try (destruct (IH m H) as (? & ? & ?); split_and!; set_solver);
    apply lookup_insert_Some in H as [[<- <-]|[_ H]];
    try (destruct (IH m H) as (? & ? & ?); split_and!; set_solver);
    (split_and!; [done|done|set_solver]).
Qed.

Lemma keep_maps_lookup l a :
  (if single a then (keep_maps l).1 !! m_max a else (keep_maps l).2 !! (m_min a, m_max a))
  = best (filter (same_slot a) l).
Proof.
  induction l as [|x l IH] using rev_ind; [by destruct (single a)|].
  unfold keep_maps, best. rewrite !foldl_snoc, filter_app, foldl_app.
  fold (keep_maps l). fold (best (filter (same_slot a) l)). rewrite <-IH. clear IH.
  pose proof (keep_maps_range_single l (m_min a, m_max a)) as Hrange.
  destruct (keep_maps l) as [bt br]. simpl in *. unfold keep_step.
  destruct (decide (same_slot a x)) as [Hs|Hs].
  - rewrite filter_cons_True, filter_nil by done. destruct Hs as (H1 & H2 & H3). simpl.
    destruct (single x) eqn:Ex; rewrite H1; simpl.
    + rewrite H2. destruct (bt !! m_max x) as [cur|] eqn:Ec; simpl; [|simpl; by rewrite lookup_insert_eq].
      destruct (moreLive x cur); [simpl; by rewrite lookup_insert_eq|done].
    + rewrite H2, (H3 H1) in *. destruct (br !! (m_min x, m_max x)) as [cur|] eqn:Ec; simpl;
        [|simpl; by rewrite lookup_insert_eq].
      destruct (Hrange cur eq_refl) as [Hc _]. rewrite not_single_moreLive by done.
      destruct (m_epoch cur <? m_epoch x)%N; [simpl; by rewrite lookup_insert_eq|done].
  - rewrite filter_cons_False, filter_nil by done. simpl. unfold same_slot in Hs.
    destruct (single x) eqn:Ex, (single a) eqn:Ea; simpl; repeat case_match; simpl; try done;
      rewrite lookup_insert_ne; try done; naive_solver.
Qed.

Lemma keep_maps_txid_single l t m : (keep_maps l).1 !! t = Some m → single m = true ∧ m_max m = t.
Proof.
  revert m. induction l as [|x l IH] using rev_ind; intros m; [done|].
  unfold keep_maps. rewrite foldl_snoc. fold (keep_maps l).
  destruct (keep_maps l) as [bt br]. simpl in *. unfold keep_step.
  intros H; repeat (break_match_hyp; simplify_eq/=); try (by apply IH);
    try (apply lookup_insert_Some in H as [[<- <-]|[_ H]]; [done|by apply IH]).
Qed.

(** A member is kept exactly when it is the best of its slot. *)
Lemma elem_of_keepHighestEpoch l m :
  m ∈ keepHighestEpoch l ↔ best (filter (same_slot m) l) = Some m.
Proof.
  rewrite <-keep_maps_lookup. unfold keepHighestEpoch. fold (keep_maps l).
  pose proof (keep_maps_txid_single l) as Ht. pose proof (keep_maps_range_single l) as Hr.
  destruct (keep_maps l) as [bt br]. simpl in *.
  rewrite elem_of_app, !list_elem_of_fmap. split.
  - intros [([t m'] & -> & Hin)|([t m'] & -> & Hin)]; apply elem_of_map_to_list in Hin; simpl.
    + destruct (Ht _ _ Hin) as [-> ->]. done.
    + destruct (Hr _ _ Hin) as (-> & -> & _). done.
  - destruct (single m) eqn:E; intros Hin.
    + left. exists (m_max m, m). by rewrite elem_of_map_to_list.
    + right. exists ((m_min m, m_max m), m). by rewrite elem_of_map_to_list.
Qed.

Lemma best_slot_eq l a b :
  same_slot a b → best (filter (same_slot a) l) = best (filter (same_slot b) l).
Proof.
  intros Hs. rewrite <-!keep_maps_lookup. destruct Hs as (H1 & H2 & H3). rewrite <-H1, <-H2.
  destruct (single a) eqn:E; [done|]. by rewrite H3.
Qed.

Lemma keepHighestEpoch_subseteq l m : m ∈ keepHighestEpoch l → m ∈ l.
Proof.
  rewrite elem_of_keepHighestEpoch. intros [Hin _]%best_Some.
  by apply list_elem_of_filter in Hin as [_ ?].
Qed.

(** At most one member per slot survives. *)
Lemma keepHighestEpoch_slot l a b :
  a ∈ keepHighestEpoch l → b ∈ keepHighestEpoch l → same_slot a b → a = b.
Proof.
  rewrite !elem_of_keepHighestEpoch. intros Ha Hb Hs.
  rewrite (best_slot_eq l a b Hs) in Ha. congruence.
Qed.

(** Every slot with a member has a survivor, at least as live. *)
Lemma keepHighestEpoch_covers l m :
  m ∈ l → ∃ b, b ∈ keepHighestEpoch l ∧ same_slot m b ∧ (rank m <= rank b)%N.
Proof.
  intros Hm.
  assert (m ∈ filter (same_slot m) l) as Hf.
  { apply list_elem_of_filter. split; [apply same_slot_refl|done]. }
  destruct (best (filter (same_slot m) l)) as [b|] eqn:E.
  - exists b. pose proof (best_max _ _ _ E Hf).
    apply best_Some in E as Hb. destruct Hb as [Hb _]. apply list_elem_of_filter in Hb as [Hs _].
    split_and!; [|done|done]. rewrite elem_of_keepHighestEpoch.
    by rewrite <-(best_slot_eq l m b Hs).
  - apply best_nil_iff in E. rewrite E in Hf. set_solver.
Qed.

Lemma keepHighestEpoch_NoDup l : NoDup (keepHighestEpoch l).
Proof.
  unfold keepHighestEpoch. fold (keep_maps l).
  pose proof (keep_maps_txid_single l) as Ht. pose proof (keep_maps_range_single l) as Hr.
  destruct (keep_maps l) as [bt br]. simpl in *.
  apply NoDup_app. split_and!.
  - apply NoDup_fmap_2_strong; [|apply NoDup_map_to_list].
    intros [t1 m1] [t2 m2] H1%elem_of_map_to_list H2%elem_of_map_to_list ?; simplify_eq/=.
    destruct (Ht _ _ H1) as [_ <-], (Ht _ _ H2) as [_ <-]. done.
  - intros m. rewrite !list_elem_of_fmap. intros ([t m1] & -> & H1) ([p m2] & ? & H2); simplify_eq/=.
    apply elem_of_map_to_list in H1, H2.
    destruct (Ht _ _ H1) as [E1 _], (Hr _ _ H2) as (E2 & _). congruence.
  - apply NoDup_fmap_2_strong; [|apply NoDup_map_to_list].
    intros [t1 m1] [t2 m2] H1%elem_of_map_to_list H2%elem_of_map_to_list ?; simplify_eq/=.
    destruct (Hr _ _ H1) as (_ & -> & _), (Hr _ _ H2) as (_ & -> & _). done.
Qed.

(** A fenced straggler, strictly less live than a listed member of its own
    slot, leaves the survivors as they are, map for map. *)
Lemma keep_maps_straggler l1 m l2 m' :
  m' ∈ l1 ++ l2 → same_slot m m' → moreLive m' m = true →
  keepHighestEpoch (l1 ++ m :: l2) = keepHighestEpoch (l1 ++ l2).
Proof.
  intros Hin Hs Hl. rewrite moreLive_rank in Hl. bool_to_prop.
  assert (∀ a, best (filter (same_slot a) (l1 ++ m :: l2)) = best (filter (same_slot a) (l1 ++ l2))) as Hb.
  { intros a. rewrite !filter_app, filter_cons. case_decide as Ha; [|done].
    apply best_insert_weaker. exists m'. split; [|done]. rewrite <-filter_app.
    apply list_elem_of_filter. split; [by eapply same_slot_trans|done]. }
  unfold keepHighestEpoch. fold (keep_maps (l1 ++ m :: l2)) (keep_maps (l1 ++ l2)).
  assert (keep_maps (l1 ++ m :: l2) = keep_maps (l1 ++ l2)) as ->; [|done].
  apply injective_projections; apply map_eq; intros k.
  - specialize (Hb (mkMember "" true 0 k 0)). by rewrite <-!keep_maps_lookup in Hb.
  - destruct (decide (k.1 = k.2)) as [E|E].
    + destruct ((keep_maps (l1 ++ m :: l2)).2 !! k) eqn:E1;
        [apply keep_maps_range_single in E1 as (E1 & -> & _); unfold single in E1; simpl in E;
         rewrite E, N.eqb_refl, orb_true_r in E1; done|].
      destruct ((keep_maps (l1 ++ l2)).2 !! k) eqn:E2; [|done].
      apply keep_maps_range_single in E2 as (E2 & -> & _); unfold single in E2; simpl in E.
      by rewrite E, N.eqb_refl, orb_true_r in E2.
    + specialize (Hb (mkMember "" false k.1 k.2 0)). rewrite <-!keep_maps_lookup in Hb.
      unfold single in Hb. simpl in Hb. apply N.eqb_neq in E. rewrite E in Hb.
      by destruct k.
Qed.

(** ** Sorting *)

#[global] Instance snap_le_total : Total snap_le.
Proof. intros a b. unfold snap_le. lia. Qed.
#[global] Instance snap_le_trans : Transitive snap_le.
Proof. intros a b c. unfold snap_le. lia. Qed.
#[global] Instance seg_le_total : Total seg_le.
Proof.
  intros a b. unfold seg_le. rewrite (N.eqb_sym (m_max b)). destruct (N.eqb_spec (m_max a) (m_max b)); lia.
Qed.
#[global] Instance seg_le_trans : Transitive seg_le.
Proof. intros a b c. unfold seg_le. repeat case_match; bool_to_prop; lia. Qed.

Lemma snap_le_antisym l a b :
  a ∈ keepHighestEpoch l → b ∈ keepHighestEpoch l → m_snapshot a = true → m_snapshot b = true →
  snap_le a b → snap_le b a → a = b.
Proof.
  unfold snap_le. intros Ha Hb Sa Sb ??. apply (keepHighestEpoch_slot l); [done..|].
  unfold same_slot, single. rewrite Sa, Sb. split_and!; [done|lia|done].
Qed.

Lemma seg_le_antisym l a b :
  a ∈ keepHighestEpoch l → b ∈ keepHighestEpoch l → m_snapshot a = false → m_snapshot b = false →
  seg_le a b → seg_le b a → a = b.
Proof.
  unfold seg_le. intros Ha Hb Sa Sb H1 H2.
  assert (m_max a = m_max b ∧ m_min a = m_min b) as [E1 E2]
    by (repeat case_match; bool_to_prop; lia).
  apply (keepHighestEpoch_slot l); [done..|].
  unfold same_slot, single. rewrite Sa, Sb, E1, E2. done.
Qed.

(** The order in which [keepHighestEpoch] ranges over its maps does not
    matter: the two sorted lists are the same for every enumeration. *)
Lemma split_members_order_free l out :
  out ≡ₚ keepHighestEpoch l → split_members out = split_members (keepHighestEpoch l).
Proof.
  intros Hp. unfold split_members. f_equal; apply sort_by_unique; try apply _.
  - intros x y Hx Hy. apply list_elem_of_filter in Hx as [Sx Hx], Hy as [Sy Hy].
    rewrite Hp in Hx. rewrite Hp in Hy. by apply (snap_le_antisym l).
  - by rewrite Hp.
  - intros x y Hx Hy. apply list_elem_of_filter in Hx as [Sx Hx], Hy as [Sy Hy].
    rewrite Hp in Hx. rewrite Hp in Hy. by apply (seg_le_antisym l).
  - by rewrite Hp.
Qed.

(** ** Contiguous runs *)

(** [linked p run t]: segments that continue each other from just after [p] to
    exactly [t]. *)
Fixpoint linked (p : N) (run : list ChainMember) (t : N) : Prop :=
  match run with
  | [] => p = t
  | m :: rest => m_snapshot m = false ∧ m_min m = add64 p 1 ∧ linked (m_max m) rest t
  end.

(** What a resolved chain is: a snapshot, then segments, each starting where
    the one before it ended, the last ending at the target. *)
Definition chain_wf (c : list ChainMember) (t : N) : Prop :=
  ∃ s run, c = s :: run ∧ m_snapshot s = true ∧ linked (m_max s) run t.

Lemma linked_app p r1 r2 t u : linked p r1 t → linked t r2 u → linked p (r1 ++ r2) u.
Proof. revert p. induction r1 as [|m r1 IH]; intros p; simpl; [by intros ->|naive_solver]. Qed.

Lemma linked_last p run t : linked p run t → default p (m_max <$> last run) = t.
Proof.
  revert p. induction run as [|m run IH]; intros p; simpl; [done|].
  intros (_ & _ & H). specialize (IH _ H). destruct run as [|m' run]; [done|].
  rewrite last_cons_cons. destruct (last (m' :: run)) eqn:E; [done|]. by apply last_None in E.
Qed.

Lemma chain_wf_last c t : chain_wf c t → ∃ m, last c = Some m ∧ m_max m = t.
Proof.
  intros (s & run & -> & _ & H). apply linked_last in H. destruct run as [|m run]; [by exists s|].
  rewrite last_cons_cons. destruct (last (m :: run)) as [x|] eqn:E; [by exists x|].
  by apply last_None in E.
Qed.

Lemma chain_wf_app c run t u : chain_wf c t → linked t run u → chain_wf (c ++ run) u.
Proof.
  intros (s & r & -> & Hs & H) Hr. exists s, (r ++ run). split_and!; [done..|].
  by eapply linked_app.
Qed.

(** The segment walks return linked runs of listed segments. *)
Lemma self_walk_sound t p chain segs c :
  Forall (λ m, m_snapshot m = false) segs → self_walk t p chain segs = Ok c →
  ∃ run, c = chain ++ run ∧ linked p run t ∧ run ⊆ segs.
Proof.
  revert p chain. induction segs as [|seg segs IH]; intros p chain Hs; [done|].
  apply Forall_cons in Hs as [Hseg Hs]. simpl. intros H.
  repeat (break_match_hyp; simplify_eq/=).
  - destruct (IH _ _ Hs H) as (run & -> & Hl & Hsub). exists run. split_and!; [done..|set_solver].
  - bool_to_prop. exists [seg]. split_and!; [done| |set_solver]. simpl. naive_solver.
  - bool_to_prop. destruct (IH _ _ Hs H) as (run & -> & Hl & Hsub). exists (seg :: run).
    split_and!; [by rewrite <-app_assoc| |set_solver]. simpl. naive_solver.
Qed.

Lemma range_walk_sound lo hi p run0 segs c :
  Forall (λ m, m_snapshot m = false) segs → range_walk lo hi p run0 segs = Ok c →
  ∃ run, c = run0 ++ run ∧ linked p run hi ∧ run ⊆ segs ∧ Forall (λ m, (lo < m_max m)%N) run.
Proof.
  revert p run0. induction segs as [|seg segs IH]; intros p run0 Hs; [done|].
  apply Forall_cons in Hs as [Hseg Hs]. simpl. intros H.
  repeat (break_match_hyp; simplify_eq/=).
  - destruct (IH _ _ Hs H) as (run & -> & Hl & Hsub & ?). exists run. split_and!; try done. set_solver.
  - bool_to_prop. exists [seg]. split_and!; [done| |set_solver|by repeat constructor]. simpl. naive_solver.
  - bool_to_prop. destruct (IH _ _ Hs H) as (run & -> & Hl & Hsub & ?). exists (seg :: run).
    split_and!; [by rewrite <-app_assoc| |set_solver|by constructor]. simpl. naive_solver.
Qed.

(** [members v lineage]: what [listMembers] parses from the listing. *)
Definition members (v : view) (lineage : string) : list ChainMember :=
  match v_list v (LineagePrefix lineage) with Ok keys => omap ParseMemberKey keys | Err _ => [] end.

Lemma listMembers_ok v L snaps segs :
  listMembers v L = Ok (snaps, segs) →
  snaps = (split_members (keepHighestEpoch (members v L))).1
  ∧ segs = (split_members (keepHighestEpoch (members v L))).2.
Proof. unfold listMembers, members. destruct (v_list v (LineagePrefix L)); [|done]. by intros [= <- <-]. Qed.

Lemma split_members_segs l : Forall (λ m, m_snapshot m = false) (split_members l).2.
Proof. simpl. rewrite Forall_forall. intros m. rewrite elem_of_sort_by, list_elem_of_filter. naive_solver. Qed.

Lemma elem_of_split_snaps l m : m ∈ (split_members l).1 ↔ m ∈ l ∧ m_snapshot m = true.
Proof. simpl. rewrite elem_of_sort_by, list_elem_of_filter. naive_solver. Qed.

Lemma elem_of_split_segs l m : m ∈ (split_members l).2 ↔ m ∈ l ∧ m_snapshot m = false.
Proof. simpl. rewrite elem_of_sort_by, list_elem_of_filter. naive_solver. Qed.

Lemma newest_at_Some t snaps s :
  newest_at t snaps = Some s → s ∈ snaps ∧ (m_max s <= t)%N.
Proof.
  unfold newest_at. intros H. apply head_Some_elem_of in H.
  apply list_elem_of_filter in H as [? H]. by rewrite elem_of_reverse in H.
Qed.

Lemma resolveSelf_sound t l c :
  resolveSelf t (split_members l).1 (split_members l).2 = Ok c → chain_wf c t ∧ c ⊆ l.
Proof.
  unfold resolveSelf. destruct (newest_at t (split_members l).1) as [s|] eqn:E; [|done].
  apply newest_at_Some in E as [Hin Hle]. rewrite elem_of_split_snaps in Hin. destruct Hin as [Hin Hs].
  destruct (N.eqb_spec (m_max s) t).
  - intros ?; simplify_eq. split; [|set_solver]. by exists s, [].
  - intros (run & -> & Hl & Hsub)%self_walk_sound; [|apply split_members_segs].
    split; [by exists s, run|]. intros m. simpl. rewrite elem_of_cons. intros [->|Hm]; [done|].
    apply Hsub in Hm. by rewrite elem_of_split_segs in Hm; destruct Hm.
Qed.

Lemma resolveRange_sound lo hi l c :
  resolveRange lo hi (split_members l).2 = Ok c →
  linked lo c hi ∧ c ⊆ l ∧ Forall (λ m, (lo < m_max m)%N) c.
Proof.
  unfold resolveRange. intros (run & -> & Hl & Hsub & Hlo)%range_walk_sound; [|apply split_members_segs].
  split_and!; [done| |done]. intros m Hm. apply Hsub in Hm.
  rewrite elem_of_split_segs in Hm. by destruct Hm.
Qed.

(** Soundness of resolution, for every view. *)
Lemma chainFrom_sound fuel v L t seen c : chainFrom fuel v L t seen = Ok c → chain_wf c t.
Proof.
  revert L t seen c. induction fuel as [|fuel IH]; intros L t seen c; simpl; [done|].
  destruct (lineageBase v L) as [[b|]|]; [| |done].
  - case_decide; [done|]. destruct (N.leb_spec t (bp_txid b)); [by apply IH|].
    destruct (listMembers v L) as [[snaps segs]|] eqn:E; [|done].
    apply listMembers_ok in E as [-> ->].
    destruct (resolveSelf t _ _) eqn:Es.
    + intros ?; simplify_eq. by apply resolveSelf_sound in Es as [? _].
    + destruct (negb _); [done|]. destruct (chainFrom _ _ _ _ _) as [pc|] eqn:Ep; [|done].
      destruct (resolveRange _ _ _) as [run|] eqn:Er; [|done].
      apply resolveRange_sound in Er as (Hl & _ & _). apply IH in Ep.
      destruct (negb _); intros; simplify_eq. by eapply chain_wf_app.
  - unfold chainSelf. destruct (listMembers v L) as [[snaps segs]|] eqn:E; [|done].
    apply listMembers_ok in E as [-> ->]. intros [? _]%resolveSelf_sound. done.
Qed.

(** ** The base spine as a relation, and the reference resolution *)

Inductive spine_of (v : view) : string → list BasePointer → Prop :=
  | spine_root L : lineageBase v L = Ok None → spine_of v L []
  | spine_step L b bs :
      lineageBase v L = Ok (Some b) → spine_of v (bp_lineage b) bs → spine_of v L (b :: bs).

(** A lineage whose spine ends and never repeats a lineage. *)
Definition acyclic (v : view) (L : string) (bs : list BasePointer) : Prop :=
  spine_of v L bs ∧ NoDup (L :: (bp_lineage <$> bs)).

(** [Chain] by recursion on the spine: no fuel, no cycle check, and no check of
    the seam between a child's run and its base chain. *)
Fixpoint chain_ref (v : view) (L : string) (bs : list BasePointer) (t : N) : res (list ChainMember) :=
  match bs with
  | [] => chainSelf v L t
  | b :: bs =>
      if (t <=? bp_txid b)%N then chain_ref v (bp_lineage b) bs t
      else
        match listMembers v L with
        | Err e => Err e
        | Ok (snapshots, segments) =>
            match resolveSelf t snapshots segments with
            | Ok c => Ok c
            | Err e =>
                if negb (errors_Is e ErrNoSnapshotCoversTarget) then Err e
                else parent ← chain_ref v (bp_lineage b) bs (bp_txid b);
                     run ← resolveRange (bp_txid b) t segments;
                     Ok (parent ++ run)
            end
        end
  end.

Lemma acyclic_tail v L b bs : acyclic v L (b :: bs) → acyclic v (bp_lineage b) bs.
Proof.
  intros [Hs Hn]. inversion Hs; simplify_eq. split; [done|]. simpl in Hn. by apply NoDup_cons in Hn as [_ ?].
Qed.

Lemma seam_ok_sound fuel v L t seen c : chainFrom fuel v L t seen = Ok c → seam_ok c t = true.
Proof.
  intros H. apply chainFrom_sound, chain_wf_last in H as (m & Hm & <-).
  unfold seam_ok. rewrite Hm. by apply N.eqb_eq.
Qed.

Lemma chainFrom_ref fuel v L bs t seen :
  acyclic v L bs → (length bs < fuel)%nat → Forall (λ b, bp_lineage b ∉ seen) bs →
  chainFrom fuel v L t seen = chain_ref v L bs t.
Proof.
  revert L bs t seen. induction fuel as [|fuel IH]; intros L bs t seen Ha Hf Hseen; [lia|].
  pose proof Ha as [Hs Hn]. destruct Hs as [L Hb|L b bs Hb Hs]; simpl; rewrite Hb; [done|].
  apply Forall_cons in Hseen as [Hnb Hseen]. rewrite decide_False by done.
  simpl in Hn. rewrite !NoDup_cons in Hn. destruct Hn as (_ & Hnin & _).
  assert (∀ t', chainFrom fuel v (bp_lineage b) t' ({[bp_lineage b]} ∪ seen)
                = chain_ref v (bp_lineage b) bs t') as IH'.
  { intros t'. apply IH; [by eapply acyclic_tail|simpl in Hf; lia|].
    rewrite Forall_forall in *. intros b' Hb'. specialize (Hseen b' Hb').
    assert (bp_lineage b' ≠ bp_lineage b); [|set_solver].
    intros E. apply Hnin. rewrite <-E. by apply list_elem_of_fmap_2. }
  destruct (t <=? bp_txid b)%N; [apply IH'|].
  destruct (listMembers v L) as [[snaps segs]|]; [|done].
  destruct (resolveSelf t snaps segs); [done|]. destruct (negb (errors_Is _ _)); [done|].
  destruct (chainFrom fuel v (bp_lineage b) (bp_txid b) _) as [pc|] eqn:Ep; rewrite IH' in Ep; rewrite Ep; [|done].
  simpl. destruct (resolveRange _ _ _); [|done]. rewrite <-IH' in Ep.
  by rewrite (seam_ok_sound _ _ _ _ _ _ Ep).
Qed.

(** ** Termination: the fuel is enough *)

(** A view of a store with at most [v_bound] objects. *)
Definition view_ok (v : view) : Prop :=
  (∃ D : gset string, (size D <= v_bound v)%nat ∧ ∀ L b, lineageBase v L = Ok (Some b) → L ∈ D)
  ∧ (∀ L e, lineageBase v L = Err e → EFuel ∉ e)
  ∧ (∀ p e, v_list v p = Err e → EFuel ∉ e).

(** The lineages of [D] the walk may still visit from [L]. *)
Definition todo (D seen : gset string) (L : string) : nat :=
  (size (D ∖ seen) + if decide (L ∈ D) then 1 else 0)%nat.

Lemma todo_step (D seen : gset string) L L' :
  L ∈ D → L' ∉ seen → (todo D ({[L']} ∪ seen) L' < todo D seen L)%nat.
Proof.
  intros HL HL'. unfold todo. rewrite (decide_True (P:=L ∈ D)) by done. case_decide as Hd.
  - assert (size (D ∖ ({[L']} ∪ seen)) < size (D ∖ seen))%nat; [|lia].
    apply subset_size. set_solver.
  - assert (size (D ∖ ({[L']} ∪ seen)) <= size (D ∖ seen))%nat; [|lia].
    apply subseteq_size. set_solver.
Qed.

Lemma todo_start (D : gset string) L : (todo D {[L]} L <= size D)%nat.
Proof.
  unfold todo. case_decide.
  - assert (size (D ∖ {[L]}) < size D)%nat; [|lia]. apply subset_size. set_solver.
  - assert (size (D ∖ {[L]}) <= size D)%nat; [|lia]. apply subseteq_size. set_solver.
Qed.

Lemma self_walk_fuel t p chain segs e : self_walk t p chain segs = Err e → EFuel ∉ e.
Proof.
  revert p chain. induction segs as [|s segs IH]; intros p chain; simpl; [intros [= <-]; set_solver|].
  repeat case_match; intros; simplify_eq; eauto; set_solver.
Qed.

Lemma range_walk_fuel lo hi p run segs e : range_walk lo hi p run segs = Err e → EFuel ∉ e.
Proof.
  revert p run. induction segs as [|s segs IH]; intros p run; simpl; [intros [= <-]; set_solver|].
  repeat case_match; intros; simplify_eq; eauto; set_solver.
Qed.

Lemma resolveSelf_fuel t snaps segs e : resolveSelf t snaps segs = Err e → EFuel ∉ e.
Proof.
  unfold resolveSelf. repeat case_match; intros; simplify_eq; [|set_solver]. by eapply self_walk_fuel.
Qed.

Lemma listMembers_fuel v L e : view_ok v → listMembers v L = Err e → EFuel ∉ e.
Proof. intros (_ & _ & Hl). unfold listMembers. destruct (v_list v _) eqn:E; [done|]. intros [= <-]. by eapply Hl. Qed.

Lemma chainFrom_fuel fuel v L t seen D e :
  view_ok v → (∀ L b, lineageBase v L = Ok (Some b) → L ∈ D) →
  (todo D seen L < fuel)%nat → chainFrom fuel v L t seen = Err e → EFuel ∉ e.
Proof.
  intros Hv HD. revert L t seen e. induction fuel as [|fuel IH]; intros L t seen e Hf; [lia|].
  simpl. destruct (lineageBase v L) as [[b|]|] eqn:Eb.
  - case_decide as Hs; [intros [= <-]; set_solver|].
    pose proof (todo_step D seen L (bp_lineage b) (HD _ _ Eb) Hs).
    destruct (t <=? bp_txid b)%N; [apply IH; lia|].
    destruct (listMembers v L) as [[snaps segs]|] eqn:El; [|intros [= <-]; by eapply listMembers_fuel].
    destruct (resolveSelf t snaps segs) eqn:Er; [done|].
    apply resolveSelf_fuel in Er. destruct (negb (errors_Is _ _)); [by intros [= <-]|].
    destruct (chainFrom fuel v _ _ _) eqn:Ec; [|intros [= <-]; eapply IH; [|done]; lia].
    destruct (resolveRange _ _ _) eqn:Ea; [|intros [= <-]; by eapply range_walk_fuel].
    destruct (negb _); [|done]. intros [= <-]. set_solver.
  - unfold chainSelf. destruct (listMembers v L) as [[snaps segs]|] eqn:El;
      [|intros [= <-]; by eapply listMembers_fuel]. apply resolveSelf_fuel.
  - intros [= <-]. by eapply (proj1 (proj2 Hv)).
Qed.

Lemma BaseSpine_loop_fuel fuel v seen cur spine D e :
  view_ok v → (∀ L b, lineageBase v L = Ok (Some b) → L ∈ D) →
  (todo D seen cur < fuel)%nat → BaseSpine_loop fuel v seen cur spine = Err e → EFuel ∉ e.
Proof.
  intros Hv HD. revert cur seen spine e. induction fuel as [|fuel IH]; intros cur seen spine e Hf; [lia|].
  simpl. destruct (lineageBase v cur) as [[b|]|] eqn:Eb; [|done|intros [= <-]; by eapply (proj1 (proj2 Hv))].
  case_decide as Hs; [intros [= <-]; set_solver|].
  pose proof (todo_step D seen cur (bp_lineage b) (HD _ _ Eb) Hs). apply IH. lia.
Qed.

Lemma CollapseBase_loop_fuel fuel v t seen cur D e :
  view_ok v → (∀ L b, lineageBase v L = Ok (Some b) → L ∈ D) →
  (todo D seen cur < fuel)%nat → CollapseBase_loop fuel v t seen cur = Err e → EFuel ∉ e.
Proof.
  intros Hv HD. revert cur seen e. induction fuel as [|fuel IH]; intros cur seen e Hf; [lia|].
  simpl. destruct (lineageBase v cur) as [[b|]|] eqn:Eb; [|done|intros [= <-]; by eapply (proj1 (proj2 Hv))].
  destruct (_ <? _)%N; [done|]. case_decide as Hs; [intros [= <-]; set_solver|].
  pose proof (todo_step D seen cur (bp_lineage b) (HD _ _ Eb) Hs). apply IH. lia.
Qed.

(** The lineage whose base object [key] would be. *)
Definition lineage_of_base (key : string) : string :=
  TrimSuffix (TrimPrefix key "data/") "/base.json".

Lemma lineage_of_BaseKey L : lineage_of_base (BaseKey L) = L.
Proof.
  unfold lineage_of_base, BaseKey. rewrite TrimPrefix_app. apply TrimSuffix_app.
Qed.

Lemma BaseKey_inj L L' : BaseKey L = BaseKey L' → L = L'.
Proof. intros H. by rewrite <-(lineage_of_BaseKey L), H, lineage_of_BaseKey. Qed.

Lemma lineageBase_view_of m L :
  lineageBase (view_of m) L =
  match m !! BaseKey L with
  | None => Ok None
  | Some (OBase b) => Ok (Some b)
  | Some _ => Err [ECorrupt]
  end.
Proof.
  unfold lineageBase. simpl. unfold kv_get. destruct (m !! BaseKey L) as [[]|]; done.
Qed.

Lemma view_of_ok m : view_ok (view_of m).
Proof.
  split_and!.
  - exists (list_to_set (lineage_of_base <$> kv_keys m)). split.
    + simpl. etrans; [apply size_list_to_set_le|]. rewrite length_fmap. unfold kv_keys.
      by rewrite length_fmap, length_map_to_list.
    + intros L b H. rewrite lineageBase_view_of in H. rewrite elem_of_list_to_set, list_elem_of_fmap.
      exists (BaseKey L). rewrite lineage_of_BaseKey. split; [done|].
      destruct (m !! BaseKey L) as [o|] eqn:E; [|done]. unfold kv_keys.
      rewrite list_elem_of_fmap. exists (BaseKey L, o). by rewrite elem_of_map_to_list.
  - intros L e. rewrite lineageBase_view_of. destruct (m !! BaseKey L) as [[]|]; intros; simplify_eq; set_solver.
  - done.
Qed.

(** ** [BaseSpine] computes the spine *)

Lemma BaseSpine_loop_sound fuel v seen cur spine sp :
  BaseSpine_loop fuel v seen cur spine = Ok sp →
  ∃ bs, spine_of v cur bs ∧ sp = spine ++ (bp_lineage <$> bs)
        ∧ NoDup (bp_lineage <$> bs) ∧ Forall (λ b, bp_lineage b ∉ seen) bs.
Proof.
  revert seen cur spine. induction fuel as [|fuel IH]; intros seen cur spine; simpl; [done|].
  destruct (lineageBase v cur) as [[b|]|] eqn:Eb; [|intros; simplify_eq|done].
  - case_decide as Hs; [done|]. intros (bs & Hsp & -> & Hn & Hf)%IH.
    exists (b :: bs). rewrite Forall_forall in Hf. split_and!.
    + by constructor.
    + by rewrite <-app_assoc.
    + simpl. apply NoDup_cons. split; [|done]. rewrite list_elem_of_fmap.
      intros (b' & E & Hb'). specialize (Hf b' Hb'). set_solver.
    + constructor; [done|]. apply Forall_forall. intros b' Hb'. specialize (Hf b' Hb'). set_solver.
  - exists []. simpl. rewrite app_nil_r. split_and!; [by constructor|done|constructor|done].
Qed.

Lemma BaseSpine_loop_complete fuel v seen cur spine bs :
  spine_of v cur bs → NoDup (bp_lineage <$> bs) → Forall (λ b, bp_lineage b ∉ seen) bs →
  (length bs < fuel)%nat →
  BaseSpine_loop fuel v seen cur spine = Ok (spine ++ (bp_lineage <$> bs)).
Proof.
  revert seen cur spine bs. induction fuel as [|fuel IH]; intros seen cur spine bs Hs Hn Hf Hl; [lia|].
  destruct Hs as [L Hb|L b bs Hb Hs]; simpl; rewrite Hb; [by rewrite app_nil_r|].
  apply Forall_cons in Hf as [Hnb Hf]. rewrite decide_False by done.
  simpl in *. apply NoDup_cons in Hn as [Hnin Hn].
  rewrite (IH _ _ _ bs); [by rewrite <-app_assoc|done|done| |lia].
  rewrite Forall_forall in *. intros b' Hb'. specialize (Hf b' Hb').
  assert (bp_lineage b' ≠ bp_lineage b); [|set_solver].
  intros E. apply Hnin. rewrite <-E. by apply list_elem_of_fmap_2.
Qed.

Lemma BaseSpine_sound v L sp :
  BaseSpine v L = Ok sp → ∃ bs, acyclic v L bs ∧ sp = bp_lineage <$> bs.
Proof.
  unfold BaseSpine. intros (bs & Hs & -> & Hn & Hf)%BaseSpine_loop_sound. exists bs.
  split; [|done]. split; [done|]. apply NoDup_cons. split; [|done].
  rewrite list_elem_of_fmap. intros (b & -> & Hb). rewrite Forall_forall in Hf.
  specialize (Hf b Hb). set_solver.
Qed.

Lemma acyclic_seen v L bs : acyclic v L bs → Forall (λ b, bp_lineage b ∉ ({[L]} : gset string)) bs.
Proof.
  intros [_ Hn]. apply NoDup_cons in Hn as [Hnin _]. rewrite Forall_forall. intros b Hb E.
  apply elem_of_singleton in E. apply Hnin. rewrite <-E. by apply list_elem_of_fmap_2.
Qed.

(** Every lineage of an acyclic spine but the last has a base, so the bound of
    the view bounds the spine. *)
Lemma spine_in v L bs (D : gset string) :
  (∀ L b, lineageBase v L = Ok (Some b) → L ∈ D) → spine_of v L bs →
  NoDup (L :: (bp_lineage <$> bs)) → (length bs <= size D)%nat.
Proof.
  intros HD Hs Hn.
  assert (Forall (λ x, x ∈ D) (take (length bs) (L :: (bp_lineage <$> bs)))) as Hf.
  { clear Hn. induction Hs as [L Hb|L b bs Hb Hs IH]; simpl; [constructor|].
    constructor; [by eapply HD|done]. }
  set (l := take (length bs) (L :: (bp_lineage <$> bs))) in *.
  assert (NoDup l) as Hnd by (eapply sublist_NoDup; [done|apply sublist_take]).
  assert (length l = length bs) as <- by (unfold l; rewrite length_take; simpl; rewrite length_fmap; lia).
  rewrite <-(size_list_to_set (C:=gset string) l) by done.
  apply subseteq_size. intros x Hx. apply elem_of_list_to_set in Hx.
  rewrite Forall_forall in Hf. by apply Hf.
Qed.

Lemma acyclic_bound v L bs : view_ok v → acyclic v L bs → (length bs <= v_bound v)%nat.
Proof.
  intros [(D & HDs & HD) _] [Hs Hn]. pose proof (spine_in v L bs D HD Hs Hn). lia.
Qed.

Lemma BaseSpine_complete v L bs : view_ok v → acyclic v L bs → BaseSpine v L = Ok (bp_lineage <$> bs).
Proof.
  intros Hv Ha. pose proof (acyclic_bound _ _ _ Hv Ha). unfold BaseSpine.
  rewrite (BaseSpine_loop_complete _ _ _ _ _ bs); [done|apply Ha| |by apply (acyclic_seen v)|lia].
  destruct Ha as [_ Hn]. by apply NoDup_cons in Hn as [_ ?].
Qed.

Lemma Chain_ref v L bs t : view_ok v → acyclic v L bs → Chain v L t = chain_ref v L bs t.
Proof.
  intros Hv Ha. pose proof (acyclic_bound _ _ _ Hv Ha). unfold Chain.
  apply chainFrom_ref; [done|lia|by apply (acyclic_seen v)].
Qed.

(** ** [CollapseBase] *)

(** The lineage of the spine that owns [t]: fall through while the fork point
    is at or above it. *)
Fixpoint collapse_ref (L : string) (bs : list BasePointer) (t : N) : string * list BasePointer :=
  match bs with
  | [] => (L, [])
  | b :: rest => if (bp_txid b <? t)%N then (L, bs) else collapse_ref (bp_lineage b) rest t
  end.

Lemma CollapseBase_loop_ref fuel v t seen L bs :
  acyclic v L bs → (length bs < fuel)%nat → Forall (λ b, bp_lineage b ∉ seen) bs →
  CollapseBase_loop fuel v t seen L = Ok (collapse_ref L bs t).1.
Proof.
  revert L bs seen. induction fuel as [|fuel IH]; intros L bs seen Ha Hf Hseen; [lia|].
  pose proof Ha as [Hs Hn]. destruct Hs as [L Hb|L b bs Hb Hs]; simpl; rewrite Hb; [done|].
  destruct (bp_txid b <? t)%N; [done|].
  apply Forall_cons in Hseen as [Hnb Hseen]. rewrite decide_False by done.
  apply IH; [by eapply acyclic_tail|simpl in Hf; lia|].
  simpl in Hn. rewrite !NoDup_cons in Hn. destruct Hn as (_ & Hnin & _).
  rewrite Forall_forall in *. intros b' Hb'. specialize (Hseen b' Hb').
  assert (bp_lineage b' ≠ bp_lineage b); [|set_solver].
  intros E. apply Hnin. rewrite <-E. by apply list_elem_of_fmap_2.
Qed.

Lemma collapse_ref_acyclic v L bs t L' bs' :
  acyclic v L bs → collapse_ref L bs t = (L', bs') → acyclic v L' bs'.
Proof.
  revert L. induction bs as [|b bs IH]; intros L Ha; simpl; [by intros [= <- <-]|].
  destruct (bp_txid b <? t)%N; [by intros [= <- <-]|]. apply IH. by eapply acyclic_tail.
Qed.

Lemma chain_ref_collapse v L bs t L' bs' :
  collapse_ref L bs t = (L', bs') → chain_ref v L bs t = chain_ref v L' bs' t.
Proof.
  revert L. induction bs as [|b bs IH]; intros L; simpl; [by intros [= <- <-]|].
  destruct (N.ltb_spec (bp_txid b) t).
  - by intros [= <- <-].
  - intros H'. destruct (N.leb_spec t (bp_txid b)); [|lia]. by apply IH.
Qed.

(** ** Complete characterisation on single-transaction members

    Every writer of the program emits snapshots and one-transaction segments.
    On such a listing the walks return a chain exactly when one exists. *)

Definition wf_member (m : ChainMember) : Prop :=
  u64 (m_max m) ∧ (m_snapshot m = false → m_min m = m_max m).

Definition wf_members (l : list ChainMember) : Prop := Forall wf_member l.

(** One segment per transaction, from just after [p] up to [t]. *)
Fixpoint steps (p : N) (run : list ChainMember) (t : N) : Prop :=
  match run with
  | [] => p = t
  | m :: rest => m_snapshot m = false ∧ m_max m = (p + 1)%N ∧ steps (p + 1) rest t
  end.

Lemma steps_le p run t : steps p run t → (p <= t)%N.
Proof. revert p. induction run as [|m run IH]; intros p; simpl; [lia|]. intros (_ & _ & H%IH). lia. Qed.

Lemma steps_elem p run t u :
  steps p run t → (p < u <= t)%N → ∃ m, m ∈ run ∧ m_max m = u ∧ m_snapshot m = false.
Proof.
  revert p. induction run as [|m run IH]; intros p; simpl; [lia|].
  intros (Hs & Hm & H) Hu. destruct (decide (u = p + 1)%N) as [->|].
  - exists m. set_solver.
  - destruct (IH _ H) as (m' & ? & ? & ?); [lia|]. exists m'. set_solver.
Qed.

Definition max_lt (a b : ChainMember) : Prop := (m_max a < m_max b)%N.

Lemma add64_next p q : u64 q → add64 p 1 = q → (p < q)%N → q = (p + 1)%N.
Proof.
  unfold add64, u64. intros Hq E Hlt. rewrite N.mod_small in E; [lia|].
  destruct (N.lt_ge_cases (p + 1) u64_size); [done|]. exfalso.
  assert (p + 1 < u64_size + 1)%N as Hb by lia. lia.
Qed.

Lemma steps_above p run t m : steps p run t → m ∈ run → (p < m_max m)%N.
Proof.
  revert p. induction run as [|x run IH]; intros p; simpl; [set_solver|].
  intros (_ & Hx & Hst) [->|Hin]%elem_of_cons; [lia|]. specialize (IH _ Hst Hin). lia.
Qed.

(** In a strictly sorted list, a run that starts at the head's transaction
    starts with the head. *)
Lemma steps_first p m run t seg segs :
  steps p (m :: run) t → m :: run ⊆ seg :: segs → Forall (max_lt seg) segs →
  m_max seg = (p + 1)%N → m = seg ∧ steps (m_max seg) run t ∧ run ⊆ segs.
Proof.
  simpl. intros (_ & Hm & Hst) Hsub Hlt E. rewrite Forall_forall in Hlt. unfold max_lt in Hlt.
  assert (m = seg) as ->.
  { assert (m ∈ seg :: segs) as [|Hin]%elem_of_cons by set_solver; [done|]. specialize (Hlt m Hin). lia. }
  rewrite E. split_and!; [done..|].
  assert (seg ∉ run); [|set_solver]. intros Hin. pose proof (steps_above _ _ _ _ Hst Hin). lia.
Qed.

Lemma self_walk_iff t p chain segs c :
  StronglySorted max_lt segs → wf_members segs → Forall (λ m, m_snapshot m = false) segs → u64 t →
  (p < t)%N →
  self_walk t p chain segs = Ok c ↔ ∃ run, c = chain ++ run ∧ steps p run t ∧ run ⊆ segs.
Proof.
  revert p chain. induction segs as [|seg segs IH]; intros p chain Hsort Hwf Hns Ht Hp.
  { simpl. split; [done|]. intros ([|m run] & -> & H & Hsub); simpl in *; [lia|]. set_solver. }
  apply StronglySorted_inv in Hsort as [Hsort Hlt]. apply Forall_cons in Hwf as [[Hu Hmm] Hwf].
  apply Forall_cons in Hns as [Hseg Hns]. specialize (Hmm Hseg).
  simpl. rewrite Hmm. destruct (N.leb_spec (m_max seg) p) as [Hle|Hgt].
  - rewrite IH by done. split; intros (run & -> & Hst & Hsub); exists run; split_and!; try done; [set_solver|].
    assert (seg ∉ run); [|set_solver]. intros Hin. pose proof (steps_above _ _ _ _ Hst Hin). lia.
  - destruct (N.eqb_spec (m_max seg) (add64 p 1)) as [E|E]; simpl.
    + symmetry in E. apply (add64_next _ _ Hu) in E as E'; [|done].
      destruct (N.eqb_spec (m_max seg) t) as [Et|Et].
      * split.
        -- intros [= <-]. exists [seg]. split_and!; [done| |set_solver]. simpl. split_and!; [done|lia|lia].
        -- intros ([|m run] & -> & Hst & Hsub); [simpl in *; lia|].
           destruct (steps_first _ _ _ _ _ _ Hst Hsub Hlt E') as (-> & Hst' & _).
           destruct run as [|m' run]; [done|]. destruct Hst' as (_ & _ & Hst'%steps_le). lia.
      * destruct (N.ltb_spec t (m_max seg)); [lia|]. rewrite IH by (done || lia). split.
        -- intros (run & -> & Hst & Hsub). exists (seg :: run). rewrite <-app_assoc.
           split_and!; [done| |set_solver]. simpl. rewrite E' in Hst at 1. done.
        -- intros ([|m run] & -> & Hst & Hsub); [simpl in *; lia|].
           destruct (steps_first _ _ _ _ _ _ Hst Hsub Hlt E') as (-> & Hst' & Hsub').
           exists run. by rewrite <-app_assoc.
    + split; [done|]. intros ([|m run] & -> & Hst & Hsub); [simpl in *; lia|].
      destruct Hst as (_ & Hm & Hst%steps_le). exfalso. rewrite Forall_forall in Hlt.
      assert (m ∈ seg :: segs) as [->|Hin]%elem_of_cons by set_solver.
      * apply E. rewrite Hm. symmetry. apply add64_small. unfold u64 in Ht. lia.
      * apply Hlt in Hin. unfold max_lt in Hin. lia.
Qed.

(** On a strictly sorted listing the two walks agree. *)
Lemma range_walk_self lo hi p run segs :
  StronglySorted max_lt segs → (lo <= p)%N → (p = lo ∨ Forall (λ m, (p < m_max m)%N) segs) →
  range_walk lo hi p run segs = self_walk hi p run segs.
Proof.
  revert p run. induction segs as [|seg segs IH]; intros p run Hsort Hlo Hp; simpl; [done|].
  apply StronglySorted_inv in Hsort as [Hsort Hlt].
  assert ((m_max seg <=? lo)%N = (m_max seg <=? p)%N) as ->.
  { destruct Hp as [->|Hp]; [done|]. apply Forall_cons in Hp as [Hp _].
    destruct (N.leb_spec (m_max seg) lo), (N.leb_spec (m_max seg) p); lia || done. }
  destruct (N.leb_spec (m_max seg) p).
  { apply IH; [done|done|]. destruct Hp as [->|Hp]; [by left|]. right. by apply Forall_cons in Hp as [_ ?]. }
  repeat case_match; try done. apply IH; [done|lia|]. by right.
Qed.

(** ** What one lineage resolves to *)

Definition live_chain (l : list ChainMember) (t : N) (c : list ChainMember) : Prop :=
  ∃ s run, c = s :: run ∧ m_snapshot s = true ∧ steps (m_max s) run t ∧ c ⊆ keepHighestEpoch l.

Definition self_resolve (l : list ChainMember) (t : N) : res (list ChainMember) :=
  resolveSelf t (split_members (keepHighestEpoch l)).1 (split_members (keepHighestEpoch l)).2.

Lemma wf_single m : wf_member m → single m = true.
Proof. intros [_ H]. unfold single. destruct (m_snapshot m); [done|]. by rewrite H, N.eqb_refl. Qed.

Lemma wf_same_slot l a b : wf_members l → a ∈ l → b ∈ l → m_max a = m_max b → same_slot a b.
Proof.
  unfold wf_members. rewrite Forall_forall. intros Hwf Ha Hb E.
  unfold same_slot. rewrite !wf_single by auto. done.
Qed.

(** Two survivors at one transaction are one member. *)
Lemma live_unique l a b :
  wf_members l → a ∈ keepHighestEpoch l → b ∈ keepHighestEpoch l → m_max a = m_max b → a = b.
Proof.
  intros Hwf Ha Hb E. apply (keepHighestEpoch_slot l); [done..|].
  apply (wf_same_slot l); [done| | |done]; by apply keepHighestEpoch_subseteq.
Qed.

Lemma StronglySorted_strict {A} (R S : relation A) (l : list A) :
  (∀ x y, x ∈ l → y ∈ l → R x y → x ≠ y → S x y) → NoDup l → StronglySorted R l → StronglySorted S l.
Proof.
  intros HRS Hnd Hs. induction Hs as [|x l Hs IH Hf]; constructor.
  - apply IH; [|by apply NoDup_cons in Hnd as [_ ?]]. intros; apply HRS; set_solver.
  - apply NoDup_cons in Hnd as [Hx _]. rewrite Forall_forall in *. intros y Hy.
    apply HRS; [set_solver..|by apply Hf|]. by intros ->.
Qed.

Lemma split_segs_sorted l :
  wf_members l → StronglySorted max_lt (split_members (keepHighestEpoch l)).2.
Proof.
  intros Hwf. apply (StronglySorted_strict seg_le).
  - intros x y Hx Hy. rewrite elem_of_split_segs in Hx. rewrite elem_of_split_segs in Hy.
    destruct Hx as [Hx _], Hy as [Hy _]. unfold seg_le, max_lt. case_match; bool_to_prop; [|done].
    intros _ Hne. destruct Hne. by apply (live_unique l).
  - simpl. rewrite sort_by_perm. apply list.NoDup_filter, keepHighestEpoch_NoDup.
  - simpl. apply sort_by_sorted; apply _.
Qed.

Lemma wf_keep l : wf_members l → wf_members (keepHighestEpoch l).
Proof.
  unfold wf_members. rewrite !Forall_forall. intros H m Hm. apply H. by apply keepHighestEpoch_subseteq.
Qed.

Lemma split_segs_wf l : wf_members l → wf_members (split_members (keepHighestEpoch l)).2.
Proof.
  intros Hwf%wf_keep. unfold wf_members in *. rewrite Forall_forall in *. intros m.
  rewrite elem_of_split_segs. naive_solver.
Qed.

(** [newest_at] picks the snapshot of the highest transaction at or below the
    target. *)
Lemma newest_at_newest t snaps s s' :
  StronglySorted snap_le snaps → newest_at t snaps = Some s → s' ∈ snaps → (m_max s' <= t)%N →
  (m_max s' <= m_max s)%N.
Proof.
  unfold newest_at. induction snaps as [|x snaps IH]; [done|].
  intros [Hsort Hlt]%StronglySorted_inv. rewrite reverse_cons, filter_app.
  intros H Hin Hle. rewrite Forall_forall in Hlt. unfold snap_le in Hlt.
  destruct (filter _ (reverse snaps)) as [|y ys] eqn:E; simpl in H.
  - rewrite filter_cons in H. case_decide; simpl in H; simplify_eq.
    apply elem_of_cons in Hin as [->|Hin]; [done|]. exfalso.
    assert (s' ∈ filter (λ m, (m_max m <= t)%N) (reverse snaps)) as Hf.
    { apply list_elem_of_filter. by rewrite elem_of_reverse. }
    rewrite E in Hf. set_solver.
  - simplify_eq. apply elem_of_cons in Hin as [->|Hin]; [|by apply IH].
    apply Hlt. assert (s ∈ filter (λ m, (m_max m <= t)%N) (reverse snaps)) as Hf by (rewrite E; set_solver).
    apply list_elem_of_filter in Hf as [_ Hf]. by rewrite elem_of_reverse in Hf.
Qed.

Lemma newest_at_None t snaps : newest_at t snaps = None ↔ Forall (λ m, (t < m_max m)%N) snaps.
Proof.
  unfold newest_at. rewrite head_None, Forall_forall. split.
  - intros E m Hm. destruct (N.lt_ge_cases t (m_max m)); [done|].
    assert (m ∈ filter (λ m, (m_max m <= t)%N) (reverse snaps)) as Hf
      by (apply list_elem_of_filter; by rewrite elem_of_reverse).
    rewrite E in Hf. set_solver.
  - intros H. destruct (filter _ _) as [|x xs] eqn:E; [done|].
    assert (x ∈ filter (λ m, (m_max m <= t)%N) (reverse snaps)) as Hf by (rewrite E; set_solver).
    apply list_elem_of_filter in Hf as [Hle Hx]. rewrite elem_of_reverse in Hx. specialize (H x Hx). lia.
Qed.

Lemma steps_segment p run t m : steps p run t → m ∈ run → m_snapshot m = false.
Proof.
  revert p. induction run as [|x run IH]; intros p; simpl; [set_solver|].
  intros (? & _ & ?) [->|Hm]%elem_of_cons; [done|by eapply IH].
Qed.

Lemma split_snaps_sorted l : StronglySorted snap_le (split_members l).1.
Proof. simpl. apply sort_by_sorted; apply _. Qed.

(** Every live chain up to [t] starts at the newest live snapshot. *)
Lemma live_chain_start l t s s' run :
  wf_members l → newest_at t (split_members (keepHighestEpoch l)).1 = Some s →
  s' :: run ⊆ keepHighestEpoch l → m_snapshot s' = true → steps (m_max s') run t → s' = s.
Proof.
  intros Hwf En Hsub Hs' Hst. pose proof (steps_le _ _ _ Hst).
  pose proof (λ x, newest_at_newest t _ s x (split_snaps_sorted _) En) as Hnew.
  apply newest_at_Some in En as [Hin Hle]. rewrite elem_of_split_snaps in Hin. destruct Hin as [Hin Hs].
  assert (s' ∈ keepHighestEpoch l) as Hin' by set_solver.
  assert (m_max s' <= m_max s)%N by (apply Hnew; [by rewrite elem_of_split_snaps|done]).
  destruct (decide (m_max s' = m_max s)); [by apply (live_unique l)|].
  destruct (steps_elem _ _ _ (m_max s) Hst) as (m & Hm & Em & Sm); [lia|].
  assert (m = s); [apply (live_unique l); [done|set_solver|done..]|]. congruence.
Qed.

(** Soundness and completeness: a lineage resolves to [c] exactly when [c] is a
    live snapshot followed by the live segment of every later transaction up to
    the target. *)
Lemma self_resolve_iff l t c :
  wf_members l → u64 t → self_resolve l t = Ok c ↔ live_chain l t c.
Proof.
  intros Hwf Ht. unfold self_resolve, resolveSelf, live_chain.
  destruct (newest_at t _) as [s|] eqn:En.
  - pose proof (λ s' run, live_chain_start l t s s' run Hwf En) as Huniq.
    apply newest_at_Some in En as [Hin Hle]. rewrite elem_of_split_snaps in Hin. destruct Hin as [Hin Hs].
    destruct (N.eqb_spec (m_max s) t) as [E|E].
    + split.
      * intros [= <-]. exists s, []. split_and!; [done..|set_solver].
      * intros (s' & run & -> & Hs' & Hst & Hsub). assert (s' = s) as -> by eauto.
        destruct run as [|m run]; [done|]. destruct Hst as (_ & _ & Hst%steps_le). lia.
    + rewrite self_walk_iff by
        (try apply split_segs_sorted; try apply split_segs_wf; try apply split_members_segs; done || lia).
      split.
      * intros (run & -> & Hst & Hsub). exists s, run. split_and!; [done..|].
        intros m. simpl. rewrite elem_of_cons. intros [->|Hm]; [done|].
        apply Hsub in Hm. by rewrite elem_of_split_segs in Hm; destruct Hm.
      * intros (s' & run & -> & Hs' & Hst & Hsub). assert (s' = s) as -> by eauto.
        exists run. split_and!; [done..|]. intros m Hm. rewrite elem_of_split_segs.
        split; [set_solver|]. by eapply steps_segment.
  - split; [done|]. intros (s' & run & -> & Hs' & Hst & Hsub). apply steps_le in Hst.
    rewrite newest_at_None, Forall_forall in En. specialize (En s').
    rewrite elem_of_split_snaps in En. assert (s' ∈ keepHighestEpoch l) by set_solver. naive_solver lia.
Qed.

(** No live snapshot at or below [t]. *)
Definition no_snapshot (l : list ChainMember) (t : N) : Prop :=
  ∀ m, m ∈ keepHighestEpoch l → m_snapshot m = true → (t < m_max m)%N.

Lemma self_resolve_no_snapshot l t e :
  self_resolve l t = Err e → errors_Is e ErrNoSnapshotCoversTarget = true ↔ no_snapshot l t.
Proof.
  unfold self_resolve, resolveSelf, no_snapshot. destruct (newest_at t _) as [s|] eqn:En.
  - apply newest_at_Some in En as [Hin Hle]. rewrite elem_of_split_snaps in Hin. destruct Hin as [Hin Hs].
    intros He. split; [|intros H; specialize (H s Hin Hs); lia]. intros Hi. exfalso.
    destruct (m_max s =? t)%N; [done|]. revert He Hi. generalize (m_max s), [s].
    induction (split_members (keepHighestEpoch l)).2 as [|seg segs IH]; intros p ch; simpl.
    + by intros [= <-].
    + repeat case_match; try done; try (by intros [= <-]); eauto.
  - intros [= <-]. split; [intros _|done]. intros m Hm Hs.
    rewrite newest_at_None, Forall_forall in En. apply En. by rewrite elem_of_split_snaps.
Qed.

(** The child's own segments above a fork point. *)
Lemma resolveRange_iff l lo hi c :
  wf_members l → u64 hi → (lo < hi)%N →
  resolveRange lo hi (split_members (keepHighestEpoch l)).2 = Ok c ↔
  steps lo c hi ∧ c ⊆ keepHighestEpoch l.
Proof.
  intros Hwf Hu Hlt. unfold resolveRange.
  rewrite range_walk_self by (try apply split_segs_sorted; auto; lia).
  rewrite self_walk_iff by
    (try apply split_segs_sorted; try apply split_segs_wf; try apply split_members_segs; done).
  split.
  - intros (run & -> & Hst & Hsub). split; [done|]. intros m Hm. apply Hsub in Hm.
    by rewrite elem_of_split_segs in Hm; destruct Hm.
  - intros [Hst Hsub]. exists c. split_and!; [done..|]. intros m Hm. rewrite elem_of_split_segs.
    split; [by apply Hsub|]. by eapply steps_segment.
Qed.

(** ** What a lineage with a base spine resolves to *)

Definition wf_view (v : view) : Prop :=
  (∀ L, is_ok (v_list v (LineagePrefix L)) = true ∧ wf_members (members v L))
  ∧ (∀ L b, lineageBase v L = Ok (Some b) → u64 (bp_txid b)).

Fixpoint resolves (v : view) (L : string) (bs : list BasePointer) (t : N) (c : list ChainMember) : Prop :=
  match bs with
  | [] => live_chain (members v L) t c
  | b :: bs =>
      if (t <=? bp_txid b)%N then resolves v (bp_lineage b) bs t c
      else live_chain (members v L) t c
           ∨ (no_snapshot (members v L) t
              ∧ ∃ parent run, c = parent ++ run ∧ resolves v (bp_lineage b) bs (bp_txid b) parent
                  ∧ steps (bp_txid b) run t ∧ run ⊆ keepHighestEpoch (members v L))
  end.

Lemma listMembers_wf v L :
  is_ok (v_list v (LineagePrefix L)) = true →
  listMembers v L = Ok (split_members (keepHighestEpoch (members v L))).
Proof. unfold listMembers, members. by destruct (v_list v _). Qed.

Lemma chain_ref_iff v L bs t c :
  wf_view v → spine_of v L bs → u64 t → chain_ref v L bs t = Ok c ↔ resolves v L bs t c.
Proof.
  intros [Hwf Hub]. revert L t c. induction bs as [|b bs IH]; intros L t c Hs Ht; simpl.
  - unfold chainSelf. destruct (Hwf L) as [Hok Hm]. rewrite listMembers_wf by done.
    rewrite (surjective_pairing (split_members _)). by apply self_resolve_iff.
  - inversion Hs as [|? ? ? Hb Hs']; simplify_eq. destruct (Hwf L) as [Hok Hm].
    destruct (N.leb_spec t (bp_txid b)) as [Hle|Hgt]; [by apply IH|].
    rewrite listMembers_wf by done. rewrite (surjective_pairing (split_members _)).
    fold (self_resolve (members v L) t). destruct (self_resolve (members v L) t) as [c'|e] eqn:E.
    + pose proof (proj1 (self_resolve_iff _ _ _ Hm Ht) E) as Hlive. split.
      * intros [= <-]. by left.
      * intros [Hl|(Hns & _)].
        -- apply (self_resolve_iff _ _ _ Hm Ht) in Hl. congruence.
        -- destruct Hlive as (s & run & -> & Hs0 & Hst & Hsub). exfalso. apply steps_le in Hst.
           assert (s ∈ keepHighestEpoch (members v L)) as Hin by set_solver.
           specialize (Hns s Hin Hs0). lia.
    + pose proof (self_resolve_no_snapshot _ _ _ E) as Hns.
      assert (¬ live_chain (members v L) t c) as Hnl.
      { intros Hl. apply (self_resolve_iff _ _ _ Hm Ht) in Hl. congruence. }
      destruct (errors_Is e ErrNoSnapshotCoversTarget) eqn:Ei; simpl.
      2:{ split; [done|]. intros [?|(H & _)]; [done|]. apply Hns in H. congruence. }
      rewrite res_bind_ok. setoid_rewrite res_bind_ok. split.
      * intros (parent & Hp & run & Hr & [= <-]). right. split; [by apply Hns|].
        exists parent, run. apply IH in Hp; [|done|by eapply Hub].
        apply resolveRange_iff in Hr as [??]; done.
      * intros [?|(_ & parent & run & -> & Hp & Hst & Hsub)]; [done|].
        exists parent. split; [apply IH; [done|by eapply Hub|done]|]. exists run.
        split; [|done]. by apply resolveRange_iff.
Qed.

(** ** Removing objects no chain uses *)

Section removal.
Context (P : ChainMember → Prop) `{!∀ m, Decision (P m)}.

Lemma keep_filter l m : m ∈ keepHighestEpoch l → P m → m ∈ keepHighestEpoch (filter P l).
Proof.
  rewrite !elem_of_keepHighestEpoch. intros Hb HP.
  assert (filter (same_slot m) (filter P l) = filter P (filter (same_slot m) l)) as ->.
  { rewrite !list_filter_filter. apply list_filter_iff. intros x. tauto. }
  by apply best_filter.
Qed.

Lemma live_chain_filter l t c : live_chain l t c → Forall P c → live_chain (filter P l) t c.
Proof.
  intros (s & run & -> & Hs & Hst & Hsub) HP. exists s, run. split_and!; [done..|].
  rewrite Forall_forall in HP. intros m Hm. apply keep_filter; auto.
Qed.

Lemma no_snapshot_filter l lo t run :
  wf_members l → no_snapshot l t → Forall (λ m, (lo < m_max m)%N) l →
  steps lo run t → run ⊆ keepHighestEpoch l → Forall P run → no_snapshot (filter P l) t.
Proof.
  intros Hwf Hns Hlo Hst Hsub HP m Hm Hs. destruct (N.lt_ge_cases t (m_max m)) as [|Hle]; [done|].
  rewrite Forall_forall in Hlo, HP. pose proof (keepHighestEpoch_subseteq _ _ Hm) as Hin.
  apply list_elem_of_filter in Hin as [HPm Hin]. specialize (Hlo m Hin).
  destruct (steps_elem _ _ _ (m_max m) Hst) as (x & Hx & Ex & Sx); [lia|].
  assert (x = m); [|congruence].
  apply (live_unique (filter P l)); [by apply Forall_filter_any| |done|done].
  apply keep_filter; auto.
Qed.
End removal.

(** Members of a forked lineage lie above its fork point. *)
Definition above_base (v : view) : Prop :=
  ∀ L b, lineageBase v L = Ok (Some b) → Forall (λ m, (bp_txid b < m_max m)%N) (members v L).

Lemma resolves_removal v v' (P : string → ChainMember → Prop) `{!∀ L m, Decision (P L m)} L bs t c :
  wf_view v → above_base v → spine_of v L bs →
  (∀ L', L' ∈ L :: (bp_lineage <$> bs) → members v' L' = filter (P L') (members v L')) →
  resolves v L bs t c →
  (∀ L' m, L' ∈ L :: (bp_lineage <$> bs) → m ∈ c → m ∈ members v L' → P L' m) →
  resolves v' L bs t c.
Proof.
  intros [Hwf Hub] Hab. revert L t c. induction bs as [|b bs IH]; intros L t c Hs Hm Hr HP; simpl in *.
  - rewrite Hm by set_solver. apply live_chain_filter; [done|]. apply Forall_forall. intros m Hin.
    apply HP; [set_solver|done|]. destruct Hr as (? & ? & ? & ? & ? & Hsub).
    by apply keepHighestEpoch_subseteq, Hsub.
  - inversion Hs as [|? ? ? Hb Hs']; simplify_eq.
    destruct (t <=? bp_txid b)%N.
    + apply IH; [done|set_solver|done|set_solver].
    + destruct Hr as [Hl|(Hns & parent & run & -> & Hp & Hst & Hsub)].
      * left. rewrite Hm by set_solver. apply live_chain_filter; [done|]. apply Forall_forall.
        intros m Hin. apply HP; [set_solver|done|]. destruct Hl as (? & ? & ? & ? & ? & Hsub).
        by apply keepHighestEpoch_subseteq, Hsub.
      * right. assert (Forall (P L) run) as HPr.
        { apply Forall_forall. intros m Hin. apply HP; [set_solver|set_solver|].
          by apply keepHighestEpoch_subseteq, Hsub. }
        rewrite Hm by set_solver. split.
        -- eapply no_snapshot_filter; [apply Hwf|done|by eapply Hab|done..].
        -- exists parent, run. split_and!; [done| |done|].
           ++ apply IH; [done|set_solver|done|]. intros L' m ? ? ?. apply HP; set_solver.
           ++ rewrite Forall_forall in HPr. intros m Hin. apply keep_filter; auto.
Qed.

(** ** Only members at or below the target matter *)

Definition upto (t : N) (l : list ChainMember) : list ChainMember :=
  filter (λ m, (m_max m <= t)%N) l.

Lemma upto_mono t u l l' : (u <= t)%N → upto t l = upto t l' → upto u l = upto u l'.
Proof.
  intros Hu E.
  assert (∀ l, upto u l = upto u (upto t l)) as H.
  { intros x. unfold upto. rewrite list_filter_filter. apply list_filter_iff. intros m. lia. }
  by rewrite (H l), (H l'), E.
Qed.

Lemma keep_upto l l' t m :
  upto t l = upto t l' → (m_max m <= t)%N → m ∈ keepHighestEpoch l → m ∈ keepHighestEpoch l'.
Proof.
  intros E Hm. rewrite !elem_of_keepHighestEpoch.
  assert (∀ l, filter (same_slot m) l = filter (same_slot m) (upto t l)) as H.
  { intros x. unfold upto. rewrite list_filter_filter. apply list_filter_iff. intros y.
    unfold same_slot. intuition lia. }
  by rewrite (H l), (H l'), E.
Qed.

Lemma steps_below p run t m : steps p run t → m ∈ run → (m_max m <= t)%N.
Proof.
  revert p. induction run as [|x run IH]; intros p; simpl; [set_solver|].
  intros (_ & Hx & Hst) [->|Hin]%elem_of_cons; [|by eapply IH]. apply steps_le in Hst. lia.
Qed.

Lemma live_chain_upto l l' t c : upto t l = upto t l' → live_chain l t c → live_chain l' t c.
Proof.
  intros E (s & run & -> & Hs & Hst & Hsub). exists s, run. split_and!; [done..|].
  intros m Hm. apply (keep_upto l l' t); [done| |by apply Hsub].
  apply elem_of_cons in Hm as [->|Hm]; [by eapply steps_le|by eapply steps_below].
Qed.

Lemma no_snapshot_upto l l' t : upto t l = upto t l' → no_snapshot l t → no_snapshot l' t.
Proof.
  intros E Hns m Hm Hs. destruct (N.lt_ge_cases t (m_max m)) as [|Hle]; [done|].
  apply Hns; [|done]. by apply (keep_upto l' l t).
Qed.

(** What a lineage resolves to at [t] is a function of its spine and of the
    members at or below [t]. *)
Lemma resolves_upto v v' L bs t c :
  (∀ L', L' ∈ L :: (bp_lineage <$> bs) → upto t (members v L') = upto t (members v' L')) →
  resolves v L bs t c → resolves v' L bs t c.
Proof.
  revert L t c. induction bs as [|b bs IH]; intros L t c Hm; simpl in *.
  - apply live_chain_upto. set_solver.
  - destruct (N.leb_spec t (bp_txid b)) as [Hle|Hgt]; [apply IH; set_solver|].
    intros [Hl|(Hns & parent & run & -> & Hp & Hst & Hsub)].
    + left. eapply live_chain_upto; [|done]. set_solver.
    + right. split; [eapply no_snapshot_upto; [|done]; set_solver|].
      exists parent, run. split_and!; [done| |done|].
      * eapply IH; [|done]. intros L' HL'. apply (upto_mono t); [lia|]. set_solver.
      * intros m Hin. apply (keep_upto (members v L) _ t); [set_solver| |by apply Hsub].
        by eapply steps_below.
Qed.
