(* ===== verification/ChainProps.v ===== *)
(** * Chain resolution: the theorems

    Soundness for every view, the exact characterisation, termination, fencing
    of stragglers, isolation of a fork from its parent's later writes, and the
    equivalence behind [CollapseBase]. *)
From Stdlib Require Import Ascii String.
From S2P Require Import Prelude GoStrings Keys Refs Backend Chain ChainFacts.

(** ** Stores *)

(** A store whose lineage names can be spelt in keys and whose members are
    those the program's writers produce. *)
Definition wf_store (m : objs) : Prop :=
  (∀ L b, m !! BaseKey L = Some (OBase b) → lineage_ok (bp_lineage b) = true ∧ u64 (bp_txid b))
  ∧ (∀ k o x, m !! k = Some o → ParseMemberKey k = Some x → wf_member x).

(** [wf_store], decided object by object. *)
Definition wf_object (k : string) (o : object) : bool :=
  match o with OBase b => lineage_ok (bp_lineage b) && bool_decide (u64 (bp_txid b)) | _ => true end
  && match ParseMemberKey k with
     | Some x => bool_decide (u64 (m_max x)) && (m_snapshot x || (m_min x =? m_max x)%N)
     | None => true
     end.

Lemma wf_store_check m : forallb (λ '(k, o), wf_object k o) (map_to_list m) = true → wf_store m.
Proof.
  rewrite forallb_forall. intros H.
  assert (∀ k o, m !! k = Some o → wf_object k o = true) as Hw.
  { intros k o Ho. apply (H (k, o)). apply list_elem_of_In. by apply elem_of_map_to_list. }
  split.
  - intros L b Hb. specialize (Hw _ _ Hb). unfold wf_object in Hw.
    apply andb_true_iff in Hw as [Hw _]. by apply andb_true_iff in Hw as [? ?%bool_decide_eq_true].
  - intros k o x Ho Hx. specialize (Hw _ _ Ho). unfold wf_object in Hw. rewrite Hx in Hw.
    apply andb_true_iff in Hw as [_ Hw]. apply andb_true_iff in Hw as [?%bool_decide_eq_true Hw].
    split; [done|]. intros E. rewrite E in Hw. by apply N.eqb_eq.
Qed.

Lemma kv_list_insert_in m p k o :
  m !! k = None → HasPrefix k p = true →
  ∃ l1 l2, kv_list m p = l1 ++ l2 ∧ kv_list (<[k:=o]> m) p = l1 ++ k :: l2.
Proof.
  intros Hk Hp.
  assert (kv_list (<[k:=o]> m) p ≡ₚ k :: kv_list m p) as Hperm.
  { unfold kv_list, kv_keys. rewrite !sort_by_perm, map_to_list_insert by done. simpl.
    by rewrite filter_cons_True. }
  assert (k ∈ kv_list (<[k:=o]> m) p) as (l1 & l2 & E)%list_elem_of_split by (rewrite Hperm; set_solver).
  exists l1, l2. split; [|done]. rewrite E in Hperm.
  assert (StronglySorted String.le (l1 ++ k :: l2)) as Hs
    by (rewrite <-E; apply sort_by_sorted; apply _).
  apply (StronglySorted_unique String.le).
  - apply sort_by_sorted; apply _.
  - by eapply StronglySorted_remove.
  - rewrite <-Permutation_middle in Hperm. by apply Permutation_cons_inv in Hperm.
Qed.

Lemma kv_list_insert_out m p k o :
  m !! k = None → HasPrefix k p = false → kv_list (<[k:=o]> m) p = kv_list m p.
Proof.
  intros Hk Hp. unfold kv_list, kv_keys. apply sort_by_unique; try apply _.
  { intros x y _ _. apply (anti_symm String.le). }
  rewrite map_to_list_insert by done. simpl. rewrite filter_cons. by rewrite Hp.
Qed.

(** ** Extensionality: resolution reads only bases and live members *)

Lemma chainFrom_ext (G : string → Prop) v v' D f f' L t seen :
  (∀ L, G L → lineageBase v L = lineageBase v' L ∧ listMembers v L = listMembers v' L
              ∧ ∀ b, lineageBase v L = Ok (Some b) → L ∈ D ∧ G (bp_lineage b)) →
  G L → (todo D seen L < f)%nat → (todo D seen L < f')%nat →
  chainFrom f v L t seen = chainFrom f' v' L t seen.
Proof.
  intros HG. revert f' L t seen. induction f as [|f IH]; intros [|f'] L t seen HL Hf Hf'; try lia.
  simpl. destruct (HG L HL) as (Eb & El & Hb). rewrite <-Eb, <-El.
  unfold chainSelf. rewrite <-El.
  destruct (lineageBase v L) as [[b|]|]; [|done|done].
  destruct (Hb b eq_refl) as [HD HGb]. case_decide as Hs; [done|].
  pose proof (todo_step D seen L (bp_lineage b) HD Hs).
  rewrite (IH f' (bp_lineage b) t), (IH f' (bp_lineage b) (bp_txid b)) by (done || lia). done.
Qed.

Lemma Chain_ext (G : string → Prop) v v' L t :
  view_ok v → view_ok v' →
  (∀ L, G L → lineageBase v L = lineageBase v' L ∧ listMembers v L = listMembers v' L
              ∧ ∀ b, lineageBase v L = Ok (Some b) → G (bp_lineage b)) →
  G L → Chain v L t = Chain v' L t.
Proof.
  intros [(D & HDs & HD) _] [(D' & HDs' & HD') _] HG HL. unfold Chain.
  set (E := D ∩ D').
  assert (∀ L0, G L0 → ∀ b, lineageBase v L0 = Ok (Some b) → L0 ∈ E) as HE.
  { intros L0 HG0 b Hb. destruct (HG L0 HG0) as (Eb & _ & _).
    apply elem_of_intersection. split; [by eapply HD|]. eapply HD'. by rewrite <-Eb. }
  assert (size E <= size D)%nat by (apply subseteq_size; set_solver).
  assert (size E <= size D')%nat by (apply subseteq_size; set_solver).
  pose proof (todo_start E L).
  apply (chainFrom_ext G v v' E); [|done|lia|lia].
  intros L0 HG0. destruct (HG L0 HG0) as (? & ? & ?). split_and!; eauto.
Qed.

(** [Base] objects survive the insertion of a member. *)
Lemma lineageBase_insert m k o L :
  k ≠ BaseKey L → lineageBase (view_of (<[k:=o]> m)) L = lineageBase (view_of m) L.
Proof. intros Hk. rewrite !lineageBase_view_of. by rewrite lookup_insert_ne. Qed.

Lemma members_insert m k o L x :
  m !! k = None → HasPrefix k (LineagePrefix L) = true → ParseMemberKey k = Some x →
  ∃ l1 l2, members (view_of m) L = l1 ++ l2 ∧ members (view_of (<[k:=o]> m)) L = l1 ++ x :: l2.
Proof.
  intros Hk Hp Hx. destruct (kv_list_insert_in m _ k o Hk Hp) as (l1 & l2 & E1 & E2).
  exists (omap ParseMemberKey l1), (omap ParseMemberKey l2). unfold members. simpl.
  rewrite E1, E2, !omap_app. simpl. rewrite Hx. done.
Qed.

Lemma members_view_of_elem m L x :
  x ∈ members (view_of m) L ↔
  ∃ k, is_Some (m !! k) ∧ HasPrefix k (LineagePrefix L) = true ∧ ParseMemberKey k = Some x.
Proof.
  unfold members. simpl. rewrite list_elem_of_omap. setoid_rewrite elem_of_kv_list. naive_solver.
Qed.

Lemma listMembers_view_of m L :
  listMembers (view_of m) L = Ok (split_members (keepHighestEpoch (members (view_of m) L))).
Proof. by apply listMembers_wf. Qed.

Lemma wf_store_view m :
  wf_store m → wf_view (view_of m).
Proof.
  intros [Hb Hm]. split.
  - intros L. split; [done|]. apply Forall_forall. intros x (k & [o Ho] & _ & Hx)%members_view_of_elem.
    by eapply Hm.
  - intros L b. rewrite lineageBase_view_of. destruct (m !! BaseKey L) as [[]|] eqn:E; intros; simplify_eq.
    by apply (Hb L).
Qed.

Lemma wf_store_base m L b :
  wf_store m → lineageBase (view_of m) L = Ok (Some b) → lineage_ok (bp_lineage b) = true.
Proof.
  intros [Hb _]. rewrite lineageBase_view_of. destruct (m !! BaseKey L) as [[]|] eqn:E; intros; simplify_eq.
  by apply (Hb L).
Qed.

Lemma spine_lineages_ok m L bs :
  wf_store m → spine_of (view_of m) L bs → Forall (λ L', lineage_ok L' = true) (bp_lineage <$> bs).
Proof.
  intros Hwf. induction 1 as [|L b bs Hb Hs IH]; simpl; constructor; [by eapply wf_store_base|done].
Qed.

(** ** A concrete store

    Lineage ["a"]: a snapshot at 1, two segments at 2 (one fenced), one at 3;
    lineage ["b"], forked from ["a"] at 3, with segments 4 and 5. *)
Definition ex_objs : objs :=
  list_to_map [
    (SnapshotKey "a" 1 1, OBytes "s1"); (SegmentKey "a" 1 2 2, OBytes "old2");
    (SegmentKey "a" 2 2 2, OBytes "g2"); (SegmentKey "a" 2 3 3, OBytes "g3");
    (BaseKey "b", OBase (mkBase "a" 3));
    (SegmentKey "b" 1 4 4, OBytes "g4"); (SegmentKey "b" 1 5 5, OBytes "g5")].

Definition ex_chain : list ChainMember :=
  omap ParseMemberKey [SnapshotKey "a" 1 1; SegmentKey "a" 2 2 2; SegmentKey "a" 2 3 3;
                       SegmentKey "b" 1 4 4; SegmentKey "b" 1 5 5].

Lemma ex_wf_store : wf_store ex_objs.
Proof. apply wf_store_check. vm_compute. reflexivity. Qed.

Lemma ex_spine : acyclic (view_of ex_objs) "b" [mkBase "a" 3].
Proof.
  split.
  - apply spine_step; [vm_compute; reflexivity|]. apply spine_root. vm_compute. reflexivity.
  - apply (bool_decide_unpack _). vm_compute. reflexivity.
Qed.

(** ** Soundness *)

(** whatever the store holds and however its reads interleave with other
    writers, a chain [Chain] returns for a target starts with a snapshot, every
    later member is a segment that begins at the transaction after the one its
    predecessor ended at, and the last one ends exactly at the target. *)
Theorem Chain_sound v L t c : Chain v L t = Ok c → chain_wf c t.
Proof. apply chainFrom_sound. Qed.

Lemma Chain_sound_witness :
  Chain (view_of ex_objs) "b" 5 = Ok ex_chain ∧ chain_wf ex_chain 5.
Proof.
  assert (Chain (view_of ex_objs) "b" 5 = Ok ex_chain) as H by (vm_compute; reflexivity).
  split; [exact H|exact (Chain_sound _ _ _ _ H)].
Defined.

(** ** Exactness *)

Lemma Chain_exact_lemma m L bs t c :
  wf_store m → acyclic (view_of m) L bs → u64 t →
  Chain (view_of m) L t = Ok c ↔ resolves (view_of m) L bs t c.
Proof.
  intros Hwf Ha Ht. rewrite (Chain_ref _ _ bs) by (done || apply view_of_ok).
  apply chain_ref_iff; [by apply wf_store_view|apply Ha|done].
Qed.

(** C1: on a store of snapshots and one-transaction segments, [Chain] succeeds
    exactly when a live chain exists, and returns it: the newest live snapshot
    at or below the target and the live segment of every later transaction, the
    part at or below each fork point taken from the base lineage alone. *)
Theorem Chain_exact m L bs t c :
  wf_store m → acyclic (view_of m) L bs → u64 t →
  Chain (view_of m) L t = Ok c ↔ resolves (view_of m) L bs t c.
Proof. apply Chain_exact_lemma. Qed.

Lemma Chain_exact_witness : resolves (view_of ex_objs) "b" [mkBase "a" 3] 5 ex_chain.
Proof.
  apply (proj1 (Chain_exact ex_objs "b" [mkBase "a" 3] 5 ex_chain ex_wf_store ex_spine ltac:(done))).
  vm_compute. reflexivity.
Defined.

(** C34: resolution is the plain recursion along the base spine: on a lineage
    whose spine ends without repeating, the cycle check never fires, the seam
    check never fails and the walk visits exactly the spine [BaseSpine]
    reports. *)
Theorem Chain_is_reference v L bs t :
  view_ok v → acyclic v L bs →
  Chain v L t = chain_ref v L bs t ∧ BaseSpine v L = Ok (bp_lineage <$> bs).
Proof. intros Hv Ha. split; [by apply Chain_ref|by apply BaseSpine_complete]. Qed.

Lemma Chain_is_reference_witness :
  Chain (view_of ex_objs) "b" 5 = chain_ref (view_of ex_objs) "b" [mkBase "a" 3] 5
  ∧ BaseSpine (view_of ex_objs) "b" = Ok ["a"%string].
Proof. exact (Chain_is_reference _ _ _ 5 (view_of_ok ex_objs) ex_spine). Defined.

(** ** Termination *)

(** the three base-spine walks terminate on every store, cyclic base
    pointers included: with one unit of fuel more than the store has objects
    none of them runs out. *)
Theorem spine_walks_terminate m L t e :
  (Chain (view_of m) L t = Err e → EFuel ∉ e)
  ∧ (BaseSpine (view_of m) L = Err e → EFuel ∉ e)
  ∧ (CollapseBase (view_of m) L t = Err e → EFuel ∉ e).
Proof.
  pose proof (view_of_ok m) as Hv. pose proof Hv as [(D & HDs & HD) _].
  pose proof (todo_start D L). split_and!; intros He.
  - eapply chainFrom_fuel; [done|exact HD| |exact He]. lia.
  - eapply BaseSpine_loop_fuel; [done|exact HD| |exact He]. lia.
  - eapply CollapseBase_loop_fuel; [done|exact HD| |exact He]. lia.
Qed.

(** Two lineages that name each other as base. *)
Definition cyclic_objs : objs :=
  list_to_map [(BaseKey "a", OBase (mkBase "b" 3)); (BaseKey "b", OBase (mkBase "a" 3))].

Lemma spine_walks_terminate_witness :
  Chain (view_of cyclic_objs) "a" 2 = Err [ECycle] ∧ EFuel ∉ [ECycle].
Proof.
  assert (Chain (view_of cyclic_objs) "a" 2 = Err [ECycle]) as H by (vm_compute; reflexivity).
  split; [exact H|exact (proj1 (spine_walks_terminate cyclic_objs "a" 2 _) H)].
Defined.

(** ** Fencing *)

(** C27: a fenced writer's straggler is inert.  An object that lands in a lineage
    which already holds a more live member for the same slot (a higher epoch,
    or a snapshot of the same epoch) changes no chain of any lineage. *)
Theorem straggler_inert m k o x k' x' F L t :
  wf_store m → lineage_ok F = true → lineage_ok L = true →
  m !! k = None → HasPrefix k (LineagePrefix F) = true → ParseMemberKey k = Some x →
  is_Some (m !! k') → HasPrefix k' (LineagePrefix F) = true → ParseMemberKey k' = Some x' →
  same_slot x x' → moreLive x' x = true →
  Chain (view_of (<[k:=o]> m)) L t = Chain (view_of m) L t.
Proof.
  intros Hwf HF HL Hk Hp Hx Hk' Hp' Hx' Hs Hlive.
  apply (Chain_ext (λ L, lineage_ok L = true)); [apply view_of_ok..| |done].
  intros L0 HL0. assert (k ≠ BaseKey L0) as Hne
    by (intros ->; by rewrite ParseMemberKey_BaseKey in Hx).
  rewrite lineageBase_insert by done. split_and!; [done| |by intros; eapply wf_store_base].
  rewrite !listMembers_view_of. do 2 f_equal.
  destruct (HasPrefix k (LineagePrefix L0)) eqn:E.
  - assert (L0 = F) as -> by by eapply LineagePrefix_inj.
    destruct (members_insert m k o F x Hk Hp Hx) as (l1 & l2 & E1 & E2).
    rewrite E1, E2. apply (keep_maps_straggler l1 x l2 x'); [|done|done].
    rewrite <-E1. apply members_view_of_elem. by exists k'.
  - unfold members. simpl. by rewrite kv_list_insert_out.
Qed.

Lemma straggler_inert_witness :
  Chain (view_of (<[SnapshotKey "a" 1 3 := OBytes "late"]> ex_objs)) "b" 5
  = Chain (view_of ex_objs) "b" 5.
Proof.
  apply (straggler_inert ex_objs (SnapshotKey "a" 1 3) (OBytes "late")
    (mkMember (SnapshotKey "a" 1 3) true 0 3 1) (SegmentKey "a" 2 3 3)
    (mkMember (SegmentKey "a" 2 3 3) false 3 3 2) "a" "b" 5 ex_wf_store);
    try (vm_compute; reflexivity).
  - vm_compute. eexists. reflexivity.
  - vm_compute. split; [reflexivity|split; [reflexivity|done]].
Defined.

(** ** A fork does not see its parent's later writes *)

Lemma wf_store_insert_member m k o x :
  wf_store m → ParseMemberKey k = Some x → wf_member x →
  (∀ L, k ≠ BaseKey L) → wf_store (<[k:=o]> m).
Proof.
  intros [Hb Hm] Hx Hw Hk. split.
  - intros L b. rewrite lookup_insert_ne by done. apply Hb.
  - intros k' o' x'. rewrite lookup_insert_Some. intros [[<- <-]|[_ H]] Hx'; [by simplify_eq|].
    by eapply Hm.
Qed.

(** Whatever the lineage is called, its base object is not a member. *)
Lemma member_not_base k x L : ParseMemberKey k = Some x → k ≠ BaseKey L.
Proof.
  intros Hx ->. unfold ParseMemberKey, BaseKey in Hx. rewrite CutPrefix_app in Hx.
  cbn [mbind option_bind] in Hx.
  change (L +:+ "/base.json")%string with (L +:+ String slash "base.json")%string in Hx.
  rewrite (Split_app_last L "base.json" slash eq_refl) in Hx.
  destruct (Split L slash) as [|a [|b [|c l]]]; try done; [|by destruct l].
  cbn [app] in Hx. repeat case_match; try done.
  destruct (ParseUint b 10); done.
Qed.

Lemma spine_of_insert m k o L bs :
  (∀ L, k ≠ BaseKey L) → spine_of (view_of m) L bs → spine_of (view_of (<[k:=o]> m)) L bs.
Proof.
  intros Hk. induction 1 as [L Hb|L b bs Hb Hs IH].
  - apply spine_root. by rewrite lineageBase_insert.
  - apply spine_step; [by rewrite lineageBase_insert|done].
Qed.

Lemma members_insert_upto m k o P x f L :
  m !! k = None → lineage_ok P = true → lineage_ok L = true →
  HasPrefix k (LineagePrefix P) = true → ParseMemberKey k = Some x → (f < m_max x)%N →
  upto f (members (view_of (<[k:=o]> m)) L) = upto f (members (view_of m) L)
  ∧ (L ≠ P → members (view_of (<[k:=o]> m)) L = members (view_of m) L).
Proof.
  intros Hk HP HL Hp Hx Hf. destruct (HasPrefix k (LineagePrefix L)) eqn:E.
  - assert (L = P) as -> by by eapply LineagePrefix_inj. split; [|done].
    destruct (members_insert m k o P x Hk Hp Hx) as (l1 & l2 & -> & ->).
    unfold upto. rewrite !filter_app, filter_cons_False by lia. done.
  - assert (members (view_of (<[k:=o]> m)) L = members (view_of m) L) as ->; [|done].
    unfold members. simpl. by rewrite kv_list_insert_out.
Qed.

(** a fork is isolated from its parent.  An object written to the parent
    lineage above the fork point leaves every chain of the child as it was:
    the same targets resolve, to the same members. *)
Lemma fork_isolated m k o x L b bs t c :
  wf_store m → acyclic (view_of m) L (b :: bs) → lineage_ok L = true → u64 t →
  m !! k = None → HasPrefix k (LineagePrefix (bp_lineage b)) = true →
  ParseMemberKey k = Some x → wf_member x → (bp_txid b < m_max x)%N →
  Chain (view_of (<[k:=o]> m)) L t = Ok c ↔ Chain (view_of m) L t = Ok c.
Proof.
  intros Hwf Ha HL Ht Hk Hp Hx Hw Hf. pose proof (λ L, member_not_base k x L Hx) as Hnb.
  assert (acyclic (view_of (<[k:=o]> m)) L (b :: bs)) as Ha'
    by (split; [apply spine_of_insert, Ha; done|apply Ha]).
  rewrite (Chain_exact_lemma (<[k:=o]> m) L (b :: bs)), (Chain_exact_lemma m L (b :: bs))
    by (done || by eapply wf_store_insert_member).
  pose proof (spine_lineages_ok m L (b :: bs) Hwf (proj1 Ha)) as Hoks. simpl in Hoks.
  apply Forall_cons in Hoks as [HP Hoks].
  pose proof (λ L HL, members_insert_upto m k o (bp_lineage b) x (bp_txid b) L Hk HP HL Hp Hx Hf) as Hmem.
  assert (L ≠ bp_lineage b) as Hne by (destruct Ha as [_ Hn]; apply NoDup_cons in Hn as [Hn _]; set_solver).
  assert (∀ t', (t' <= bp_txid b)%N → ∀ L', L' ∈ bp_lineage b :: (bp_lineage <$> bs) →
    upto t' (members (view_of (<[k:=o]> m)) L') = upto t' (members (view_of m) L')) as Hup.
  { intros t' Ht' L' HL'. apply (upto_mono (bp_txid b)); [done|]. apply Hmem.
    apply elem_of_cons in HL' as [->|HL']; [done|]. rewrite Forall_forall in Hoks. by apply Hoks. }
  simpl. rewrite (proj2 (Hmem L HL) Hne). destruct (N.leb_spec t (bp_txid b)) as [Hle|_].
  { split; apply resolves_upto; [by apply Hup|intros; symmetry; by apply Hup]. }
  split; (intros [?|(Hns & parent & run & -> & Hr & ?)]; [by left|right]);
    (split; [done|]; exists parent, run; split; [done|]; split; [|done]);
    (eapply resolves_upto; [|exact Hr]); [by apply Hup|intros; symmetry; by apply Hup].
Qed.

Lemma fork_isolated_witness :
  Chain (view_of (<[SegmentKey "a" 2 4 4 := OBytes "parent4"]> ex_objs)) "b" 5 = Ok ex_chain.
Proof.
  apply (fork_isolated ex_objs (SegmentKey "a" 2 4 4) (OBytes "parent4")
    (mkMember (SegmentKey "a" 2 4 4) false 4 4 2) "b" (mkBase "a" 3) [] 5 ex_chain ex_wf_store ex_spine);
    try (vm_compute; reflexivity).
  split; [vm_compute; reflexivity|done].
Defined.

(** ** Collapsing the base *)

(** [CollapseBase] finds the lineage that owns a transaction: resolving the
    transaction there gives what resolving it from the fork gives, and the owner's
    own base, if it has one, lies strictly below it. *)
Theorem CollapseBase_equiv v L bs t L' :
  view_ok v → acyclic v L bs → CollapseBase v L t = Ok L' →
  Chain v L t = Chain v L' t
  ∧ (∀ b, lineageBase v L' = Ok (Some b) → (bp_txid b < t)%N)
  ∧ L' ∈ L :: (bp_lineage <$> bs).
Proof.
  intros Hv Ha. unfold CollapseBase. pose proof (acyclic_bound _ _ _ Hv Ha).
  rewrite (CollapseBase_loop_ref _ _ _ _ _ bs) by (done || lia || by apply (acyclic_seen v)).
  destruct (collapse_ref L bs t) as [L1 bs1] eqn:E. intros [= <-]. split_and!.
  - rewrite (Chain_ref v L bs), (Chain_ref v L1 bs1) by (done || by eapply collapse_ref_acyclic).
    by apply chain_ref_collapse.
  - pose proof (collapse_ref_acyclic _ _ _ _ _ _ Ha E) as [Hs _].
    intros b Hb. revert L Ha E. clear H. induction bs as [|b0 bs IH]; intros L Ha E; simpl in E.
    + simplify_eq. inversion Hs; congruence.
    + destruct (N.ltb_spec (bp_txid b0) t).
      * simplify_eq. inversion Hs; simplify_eq; congruence.
      * eapply IH; [|exact E]. by eapply acyclic_tail.
  - revert L Ha E. clear H. induction bs as [|b0 bs IH]; intros L Ha E; simpl in E.
    + simplify_eq. set_solver.
    + destruct (bp_txid b0 <? t)%N; [simplify_eq; set_solver|].
      pose proof (IH _ (acyclic_tail _ _ _ _ Ha) E). set_solver.
Qed.

Lemma CollapseBase_equiv_witness :
  CollapseBase (view_of ex_objs) "b" 2 = Ok "a"%string
  ∧ Chain (view_of ex_objs) "b" 2 = Chain (view_of ex_objs) "a" 2.
Proof.
  assert (CollapseBase (view_of ex_objs) "b" 2 = Ok "a"%string) as H by (vm_compute; reflexivity).
  split; [exact H|].
  exact (proj1 (CollapseBase_equiv _ _ _ _ _ (view_of_ok ex_objs) ex_spine H)).
Defined.

(** ** Map iteration order *)

(** The member lists do not depend on the order Go ranges over the two maps
    of [keepHighestEpoch]: any enumeration of the survivors is sorted into the
    same snapshots and the same segments. *)
Theorem listMembers_order_free v L out snaps segs :
  listMembers v L = Ok (snaps, segs) → out ≡ₚ keepHighestEpoch (members v L) →
  split_members out = (snaps, segs).
Proof.
  intros [-> ->]%listMembers_ok Hp. rewrite (split_members_order_free (members v L)) by done.
  apply surjective_pairing.
Qed.

Lemma listMembers_order_free_witness :
  split_members (reverse (keepHighestEpoch (members (view_of ex_objs) "a")))
  = split_members (keepHighestEpoch (members (view_of ex_objs) "a")).
Proof.
  rewrite (listMembers_order_free (view_of ex_objs) "a"
    (reverse (keepHighestEpoch (members (view_of ex_objs) "a"))) _ _ eq_refl); [|apply reverse_Permutation].
  vm_compute. reflexivity.
Defined.

(** ** Deleting objects *)

(** Every member of a resolved chain is an object under data/. *)
Lemma resolves_data m L bs t c x :
  resolves (view_of m) L bs t c → x ∈ c → HasPrefix (m_key x) "data/" = true.
Proof.
  assert (∀ L y, y ∈ keepHighestEpoch (members (view_of m) L) → HasPrefix (m_key y) "data/" = true) as Hk.
  { intros L0 y Hy. apply keepHighestEpoch_subseteq, members_view_of_elem in Hy as (k & _ & _ & Hp).
    rewrite (ParseMemberKey_key _ _ Hp). by eapply ParseMemberKey_data. }
  revert L t c. induction bs as [|b bs IH]; intros L t c; simpl.
  - intros (? & ? & ? & ? & ? & Hsub) Hx. by eapply Hk, Hsub.
  - destruct (t <=? bp_txid b)%N; [apply IH|].
    intros [(? & ? & ? & ? & ? & Hsub)|(_ & parent & run & -> & Hp & _ & Hsub)] Hx; [by eapply Hk, Hsub|].
    apply elem_of_app in Hx as [Hx|Hx]; [by eapply IH|by eapply Hk, Hsub].
Qed.

Definition kv_remove (D : gset string) (m : objs) : objs := filter (λ '(k, _), k ∉ D) m.

Lemma kv_remove_lookup D m k : kv_remove D m !! k = if decide (k ∈ D) then None else m !! k.
Proof.
  unfold kv_remove. case_decide as H.
  - apply map_lookup_filter_None. right. intros o _ Hn. by apply Hn.
  - destruct (m !! k) as [o|] eqn:E.
    + by apply map_lookup_filter_Some.
    + apply map_lookup_filter_None. by left.
Qed.

Lemma kv_list_remove D m p : kv_list (kv_remove D m) p = filter (λ k, k ∉ D) (kv_list m p).
Proof.
  apply (StronglySorted_unique String.le).
  - apply sort_by_sorted; apply _.
  - assert (StronglySorted String.le (kv_list m p)) as Hs by (apply sort_by_sorted; apply _).
    induction Hs as [|x l Hs IH Hf]; [constructor|]. rewrite filter_cons. case_decide; [|done].
    constructor; [done|]. by apply Forall_filter_any.
  - apply NoDup_Permutation; [apply kv_list_NoDup|apply list.NoDup_filter, kv_list_NoDup|].
    intros k. rewrite list_elem_of_filter, !elem_of_kv_list, kv_remove_lookup.
    case_decide; [|tauto]. split; [intros [[? ?] _]; done|tauto].
Qed.

Lemma members_remove D m L :
  members (view_of (kv_remove D m)) L = filter (λ x, m_key x ∉ D) (members (view_of m) L).
Proof.
  unfold members. simpl. rewrite kv_list_remove.
  induction (kv_list m (LineagePrefix L)) as [|k l IH]; [done|].
  rewrite filter_cons. destruct (ParseMemberKey k) as [x|] eqn:E.
  - pose proof (ParseMemberKey_key _ _ E) as Hk. case_decide.
    + simpl. rewrite E, filter_cons_True by by rewrite Hk. by f_equal.
    + simpl. rewrite E, filter_cons_False by (rewrite Hk; tauto). done.
  - case_decide; simpl; rewrite E; done.
Qed.

Lemma wf_store_remove D m : wf_store m → wf_store (kv_remove D m).
Proof.
  intros [Hb Hm]. split.
  - intros L b. rewrite kv_remove_lookup. case_decide; [done|]. apply Hb.
  - intros k o x. rewrite kv_remove_lookup. case_decide; [done|]. apply Hm.
Qed.

Lemma spine_of_remove D m L bs :
  (∀ L', L' ∈ L :: (bp_lineage <$> bs) → BaseKey L' ∉ D) →
  spine_of (view_of m) L bs → spine_of (view_of (kv_remove D m)) L bs.
Proof.
  intros HD Hs. induction Hs as [L Hb|L b bs Hb Hs IH].
  - apply spine_root. revert Hb. rewrite !lineageBase_view_of, kv_remove_lookup.
    rewrite decide_False; [done|]. apply HD. set_solver.
  - apply spine_step; [|apply IH; set_solver].
    revert Hb. rewrite !lineageBase_view_of, kv_remove_lookup.
    rewrite decide_False; [done|]. apply HD. set_solver.
Qed.

(** Deleting any set of objects that contains no member of a resolved chain and
    no base object of its spine leaves the chain as it was. *)
Lemma Chain_removal D m L bs t c :
  wf_store m → above_base (view_of m) → acyclic (view_of m) L bs → u64 t →
  Chain (view_of m) L t = Ok c →
  (∀ x, x ∈ c → m_key x ∉ D) → (∀ L', L' ∈ L :: (bp_lineage <$> bs) → BaseKey L' ∉ D) →
  Chain (view_of (kv_remove D m)) L t = Ok c.
Proof.
  intros Hwf Hab Ha Ht Hc HD HB.
  assert (acyclic (view_of (kv_remove D m)) L bs) as Ha'
    by (split; [apply spine_of_remove; [done|apply Ha]|apply Ha]).
  apply (Chain_exact_lemma _ _ bs); [by apply wf_store_remove|done|done|].
  apply (Chain_exact_lemma _ _ bs) in Hc; [|done..].
  eapply (resolves_removal (view_of m) _ (λ _ x, m_key x ∉ D)); [by apply wf_store_view|done|apply Ha| |done|].
  - intros L' _. apply members_remove.
  - intros L' x _ Hx _. by apply HD.
Qed.
