(* ===== verification/ChainGrow.v ===== *)
(** * Advancing a chain

    What writing one member just above a lineage's head does to its chains: the
    old ones stay, and the new head resolves to the old chain and the new
    segment, or to the new snapshot alone.  Session flushes and at-rest
    checkpoints rest on this. *)
From Stdlib Require Import Ascii String.
From S2P Require Import Prelude GoStrings Keys Refs Backend Chain ChainFacts ChainProps.
Local Open Scope N_scope.

(** A member whose epoch is above that of every other at its transaction is
    the live one there. *)
Lemma fresh_live l1 l2 x :
  (∀ y, y ∈ (l1 ++ l2)%list → m_max y = m_max x → m_epoch y < m_epoch x) →
  x ∈ keepHighestEpoch (l1 ++ x :: l2)%list.
Proof.
  intros Hy. rewrite elem_of_keepHighestEpoch, filter_app, filter_cons_True by apply same_slot_refl.
  apply best_iff. exists (filter (same_slot x) l1), (filter (same_slot x) l2).
  assert (∀ y, y ∈ (l1 ++ l2)%list → same_slot x y → rank y < rank x) as Hr.
  { intros y Hin (_ & E & _). specialize (Hy y Hin (eq_sym E)). unfold rank.
    destruct (m_snapshot y), (m_snapshot x); lia. }
  split_and!; [done|..]; apply Forall_forall; intros y [Hs Hin]%list_elem_of_filter.
  - apply Hr; [apply elem_of_app; by left|done].
  - apply N.lt_le_incl, Hr; [apply elem_of_app; by right|done].
Qed.

Lemma steps_snoc p run t x : steps p run t → m_snapshot x = false → m_max x = t + 1 → steps p (run ++ [x]) (t + 1).
Proof.
  intros Hst Hs Hm. revert p Hst. induction run as [|y run IH]; intros p; simpl.
  - intros ->. done.
  - intros (? & ? & ?). auto.
Qed.

Section advance.
  Context (m : objs) (k : string) (o : object) (x : ChainMember) (L : string) (t : N).
  Context (Hwf : wf_store m) (HL : lineage_ok L = true) (Hk : m !! k = None)
    (Hp : HasPrefix k (LineagePrefix L) = true) (Hx : ParseMemberKey k = Some x)
    (Hw : wf_member x) (Hmax : m_max x = t + 1)
    (Hfresh : ∀ y, y ∈ members (view_of m) L → m_max y = t + 1 → m_epoch y < m_epoch x).
  Local Abbreviation m' := (<[k := o]> m).

Lemma advance_upto L' : lineage_ok L' = true → upto t (members (view_of m') L') = upto t (members (view_of m) L').
Proof. intros HL'. apply (members_insert_upto m k o L x t L'); done || lia. Qed.

Lemma advance_live : x ∈ keepHighestEpoch (members (view_of m') L).
Proof.
  destruct (members_insert m k o L x Hk Hp Hx) as (l1 & l2 & E & ->). apply fresh_live.
  intros y Hin. rewrite Hmax. apply Hfresh. by rewrite E.
Qed.

Lemma advance_kept y : m_max y <= t → y ∈ keepHighestEpoch (members (view_of m) L) →
  y ∈ keepHighestEpoch (members (view_of m') L).
Proof. intros Hy. apply (keep_upto _ _ t); [symmetry; by apply advance_upto|done]. Qed.

(** The live member at the new transaction is the new one. *)
Lemma advance_at y : y ∈ keepHighestEpoch (members (view_of m') L) → m_max y = t + 1 → y = x.
Proof.
  intros Hy Ey. apply (live_unique (members (view_of m') L)); [|done|apply advance_live|congruence].
  apply (wf_store_view m'). eapply wf_store_insert_member; [done|done|done|]. intros L'. by eapply member_not_base.
Qed.

Lemma advance_live_chain c :
  m_snapshot x = false → live_chain (members (view_of m) L) t c → live_chain (members (view_of m') L) (t + 1) (c ++ [x]).
Proof.
  intros Hs (s & run & -> & Hss & Hst & Hsub). exists s, (run ++ [x])%list.
  split_and!; [done|done|by apply steps_snoc|]. intros y [Hy| ->%list_elem_of_singleton]%elem_of_app; [|apply advance_live].
  apply advance_kept; [|by apply Hsub].
  apply elem_of_cons in Hy as [->|Hy]; [by eapply steps_le|by eapply steps_below].
Qed.

Lemma advance_no_snapshot :
  m_snapshot x = false → no_snapshot (members (view_of m) L) t → no_snapshot (members (view_of m') L) (t + 1).
Proof.
  intros Hs Hns y Hy Hys. destruct (decide (m_max y = t + 1)) as [E|E].
  - apply advance_at in Hy; [congruence|done].
  - assert (t < m_max y); [|lia]. destruct (N.lt_ge_cases t (m_max y)) as [|Hle]; [done|].
    apply Hns; [|done]. apply (keep_upto (members (view_of m') L) _ t); [by apply advance_upto|done|done].
Qed.

(** [c] at the head [t] becomes [c] and the new segment at [t + 1]; at the old
    head nothing changes. *)
Lemma Chain_advance bs c :
  acyclic (view_of m) L bs → u64 (t + 1) → m_snapshot x = false →
  (∀ b bs', bs = b :: bs' → bp_txid b <= t ∧ Forall (λ y, bp_txid b < m_max y) (members (view_of m) L)) →
  Chain (view_of m) L t = Ok c →
  Chain (view_of m') L (t + 1) = Ok (c ++ [x])%list
  ∧ Chain (view_of m') L t = Ok c.
Proof.
  intros Ha Hu Es Hb Hc. pose proof (λ L', member_not_base k x L' Hx) as Hnb.
  assert (u64 t) as Hut by (unfold u64 in *; lia).
  assert (acyclic (view_of m') L bs) as Ha' by (split; [apply spine_of_insert, Ha; done|apply Ha]).
  assert (wf_store m') as Hwf' by by eapply wf_store_insert_member.
  apply (Chain_exact_lemma m L bs) in Hc; [|done..].
  pose proof (spine_lineages_ok m L bs Hwf (proj1 Ha)) as Hoks.
  assert (resolves (view_of m') L bs t c) as Hold.
  { eapply resolves_upto; [|exact Hc]. intros L' [->|HL']%elem_of_cons; symmetry; apply advance_upto; [done|].
    rewrite Forall_forall in Hoks. auto. }
  split; [|by apply (Chain_exact_lemma m' L bs)].
  apply (Chain_exact_lemma m' L bs); [done..|].
  destruct bs as [|b bs]; [by apply advance_live_chain|]. destruct (Hb b bs eq_refl) as [Hle Habove].
  simpl in Hc |- *. simpl in Hold. rewrite (proj2 (N.leb_gt (t + 1) (bp_txid b))) by lia.
  destruct (N.leb_spec t (bp_txid b)) as [Hge|Hgt].
  - assert (bp_txid b = t) as Eb by lia. right. split.
    + apply advance_no_snapshot; [done|]. intros y Hy _. rewrite Forall_forall in Habove.
      apply keepHighestEpoch_subseteq in Hy. specialize (Habove y Hy). lia.
    + exists c, [x]. rewrite Eb. split_and!; [done| | |].
      * done.
      * simpl. split_and!; [done|lia|done].
      * intros y ->%list_elem_of_singleton. apply advance_live.
  - destruct Hc as [Hl|(Hns & parent & run & -> & Hr & Hst & Hsub)].
    + left. by apply advance_live_chain.
    + right. split; [by apply advance_no_snapshot|]. exists parent, (run ++ [x])%list.
      split_and!; [by rewrite app_assoc| |by apply steps_snoc|].
      * eapply resolves_upto; [|exact Hr]. intros L' HL'. apply (upto_mono t); [lia|]. symmetry. apply advance_upto.
        rewrite Forall_forall in Hoks. apply Hoks. exact HL'.
      * intros y [Hy| ->%list_elem_of_singleton]%elem_of_app; [|apply advance_live].
        apply advance_kept; [by eapply steps_below|by apply Hsub].
Qed.

(** A new snapshot resolves to itself, whatever lies below it. *)
Lemma Chain_snapshot_at bs :
  acyclic (view_of m) L bs → u64 (t + 1) → m_snapshot x = true →
  (∀ b bs', bs = b :: bs' → bp_txid b <= t) → Chain (view_of m') L (t + 1) = Ok [x].
Proof.
  intros Ha Hu Hs Hb. pose proof (λ L', member_not_base k x L' Hx) as Hnb.
  assert (acyclic (view_of m') L bs) as Ha' by (split; [apply spine_of_insert, Ha; done|apply Ha]).
  assert (wf_store m') as Hwf' by by eapply wf_store_insert_member.
  apply (Chain_exact_lemma m' L bs); [done..|].
  assert (live_chain (members (view_of m') L) (t + 1) [x]) as Hlive.
  { exists x, []. split_and!; [done|done|done|]. intros y ->%list_elem_of_singleton. apply advance_live. }
  destruct bs as [|b bs]; [done|]. simpl. specialize (Hb b bs eq_refl).
  rewrite (proj2 (N.leb_gt (t + 1) (bp_txid b))) by lia. by left.
Qed.
End advance.
