(* ===== verification/Store.v ===== *)
(** * The store: manifest, refs, bases

    [internal/store/store.go]: [InitManifest], [CheckManifest],
    [EnsureLayoutV2], [WriteLineageBase], [GetRef], [PutRef], [ObjectExists],
    [Head], [DeleteRefIf] and [ListRefs], as programs of the monad of
    [Backend].  The unbounded [for] loops that retry a lost compare-and-swap
    become [loop]: fuel one more than the calls left in the schedule, proved
    enough by [loop_terminates]. *)
From Stdlib Require Import Ascii String.
From S2P Require Import Prelude GoStrings Keys Refs Backend.
Local Open Scope string_scope.

(** ** Retry loops *)

Fixpoint retry {A} (fuel : nat) (body : IO (option A)) : IO A :=
  match fuel with
  | O => fail [EFuel]
  | S fuel =>
      r ← body;
      match r with
      | Some a => mret a
      | None => retry fuel body
      end
  end.

Definition loop {A} (body : IO (option A)) : IO A := λ w,
  retry (S (length (w_sched w))) body w.

(** ** Manifest *)

Definition InitManifest : IO unit :=
  t ← now;
  _ ← PutIf manifestKey (OManifest LayoutVersion (nowStamp t)) NoTag;
  mret tt.

Definition CheckManifest : IO unit :=
  '(o, _) ← Get manifestKey;
  match o with
  | OManifest v _ => if (LayoutVersion <? v)%Z then fail [ENewer] else mret tt
  | _ => fail [ECorrupt]
  end.

Definition EnsureLayoutV2 : IO unit :=
  memo ← get_layout2;
  if memo : bool then mret tt else
  loop (
    '(o, tag) ← Get manifestKey;
    match o with
    | OManifest v created =>
        if (LayoutVersion <=? v)%Z then _ ← set_layout2; mret (Some tt)
        else
          r ← try (PutIf manifestKey (OManifest LayoutVersion created) tag);
          match r with
          | Err e => if errors_Is e ErrCAS then mret None else fail e
          | Ok _ => _ ← set_layout2; mret (Some tt)
          end
    | _ => fail [ECorrupt]
    end).

(** ** Refs *)

Definition describeMissingRef (db branch : string) : IO error :=
  _ ← try (ListKeys ("refs/" +:+ db +:+ "/"));
  mret [ErrNotFound].

Definition GetRef (db branch : string) : IO (Ref * etag) :=
  r ← try (Get (RefKey db branch));
  match r with
  | Err e =>
      if errors_Is e ErrNotFound then e' ← describeMissingRef db branch; fail e'
      else fail e
  | Ok (ORef wire, tag) =>
      match decodeRef wire with
      | Ok ref => mret (ref, tag)
      | Err e => fail e
      end
  | Ok (_, _) => fail [ECorrupt]
  end.

Definition PutRef (db branch : string) (r : Ref) (ifMatch : etag) : IO etag :=
  _ ← lift (ValidateName db);
  _ ← lift (ValidateName branch);
  PutIf (RefKey db branch) (ORef (encodeRef r)) ifMatch.

Definition ObjectExists (key : string) : IO bool :=
  keys ← ListKeys key;
  mret (bool_decide (key ∈ keys)).

(** [Head], by the fallback to [Get]; the size is not used by any caller
    modelled here. *)
Definition Head (key : string) : IO etag :=
  '(_, tag) ← Get key;
  mret tag.

Definition DeleteRefIf (db branch : string) (tag : etag) : IO unit :=
  c ← get_caps;
  if c_conditional_delete c then DeleteIf (RefKey db branch) tag
  else Delete (RefKey db branch).

(** The db and branch of each ref key; a key of another shape is skipped, a
    name that does not validate refuses the listing. *)
Fixpoint list_refs (keys : list string) (m : gmap string (list string)) : res (gmap string (list string)) :=
  match keys with
  | [] => Ok (sort_by String.le <$> m)
  | k :: keys =>
      match Split k slash with
      | [_; db; branch] =>
          _ ← ValidateName db; _ ← ValidateName branch;
          list_refs keys (<[db := (default [] (m !! db) ++ [branch])%list]> m)
      | _ => list_refs keys m
      end
  end.

Definition ListRefs : IO (gmap string (list string)) :=
  keys ← ListKeys "refs/";
  lift (list_refs keys ∅).

(** ** Bases *)

Definition WriteLineageBase (lineage : string) (b : BasePointer) : IO unit :=
  if bool_decide (bp_lineage b = lineage) then fail [ESelfBase]
  else _ ← PutIf (BaseKey lineage) (OBase b) NoTag; mret tt.

(** ** Retry loops terminate *)

(** A body that asks to be run again has used up part of the schedule. *)
Definition progresses {A} (body : IO (option A)) : Prop :=
  ∀ w w', body w = (Ok None, w') → (length (w_sched w') < length (w_sched w))%nat.

Lemma retry_terminates {A} (body : IO (option A)) fuel w e w' :
  progresses body → (∀ w e w', body w = (Err e, w') → EFuel ∉ e) →
  (length (w_sched w) < fuel)%nat → retry fuel body w = (Err e, w') → EFuel ∉ e.
Proof.
  intros Hp He. revert w. induction fuel as [|fuel IH]; intros w Hf; [lia|].
  simpl. rewrite io_bind_eq. destruct (body w) as [[[a|]|e0] w0] eqn:E.
  - done.
  - apply IH. apply Hp in E. lia.
  - intros [= <- <-]. by eapply He.
Qed.

Lemma loop_terminates {A} (body : IO (option A)) w e w' :
  progresses body → (∀ w e w', body w = (Err e, w') → EFuel ∉ e) →
  loop body w = (Err e, w') → EFuel ∉ e.
Proof. intros Hp He. apply retry_terminates; [done..|lia]. Qed.

(** Rules for [spec]. *)
Lemma spec_retry {A} P (Q : A → Prop) (body : IO (option A)) fuel :
  spec P (λ r, ∀ a, r = Some a → Q a) body → spec P Q (retry fuel body).
Proof.
  intros Hb. induction fuel as [|fuel IH]; simpl; [apply spec_fail|].
  eapply spec_bind; [exact Hb|]. intros [a|] Ha; simpl; [apply spec_ret; eauto|done].
Qed.

Lemma spec_loop {A} P (Q : A → Prop) (body : IO (option A)) :
  spec P (λ r, ∀ a, r = Some a → Q a) body → spec P Q (loop body).
Proof. intros Hb w. apply spec_retry. done. Qed.

(** What [GetRef] returns decodes from the object its tag names. *)
Definition read_ref (p : Ref * etag) : Prop :=
  ∃ wire, p.2 = TagOf (ORef wire) ∧ decodeRef wire = Ok p.1.

Lemma spec_GetRef P db branch : spec P read_ref (GetRef db branch).
Proof.
  unfold GetRef. eapply spec_bind; [apply spec_try, spec_Get|]. intros [[o tag]|e] Hr; simpl.
  - specialize (Hr _ eq_refl). simpl in Hr. subst.
    destruct o; try apply spec_fail. destruct (decodeRef w) eqn:E; [|apply spec_fail].
    apply spec_ret. by exists w.
  - destruct (errors_Is e ErrNotFound); [|apply spec_fail].
    eapply spec_bind with (Q := λ _, True); [|intros; apply spec_fail].
    unfold describeMissingRef. eapply spec_bind; [apply spec_try, spec_ListKeys|].
    intros. by apply spec_ret.
Qed.

Lemma spec_PutRef (P : write → Prop) db branch r tag :
  (∀ b τ, ValidateName db = Ok tt → ValidateName branch = Ok tt → kv_match b tag = true →
        P (mkWrite (RefKey db branch) b (Some (ORef (encodeRef r))) τ)) →
  spec P (λ t, t = TagOf (ORef (encodeRef r))) (PutRef db branch r tag).
Proof.
  intros HP. unfold PutRef.
  eapply spec_bind; [apply spec_lift with (Q := λ _, ValidateName db = Ok tt)|].
  { intros [] ?. done. }
  intros [] Hd. eapply spec_bind; [apply spec_lift with (Q := λ _, ValidateName branch = Ok tt)|].
  { intros [] ?. done. }
  intros [] Hb. apply spec_PutIf. intros b τ Hm. by apply HP.
Qed.

#[export] Hint Resolve spec_GetRef : offshoot.

(** ** What a successful call did, on every schedule *)

Lemma bind_Ok {A B} (m : IO A) (f : A → IO B) w b w' :
  (m ≫= f) w = (Ok b, w') → ∃ a w1, m w = (Ok a, w1) ∧ f a w1 = (Ok b, w').
Proof. rewrite io_bind_eq. destruct (m w) as [[a|e] w1]; [|done]. eauto. Qed.

Lemma try_inv {A} (m : IO A) w r w' : try m w = (r, w') → ∃ r0, r = Ok r0 ∧ m w = (r0, w').
Proof. unfold try. destruct (m w) as [r0 w0]. intros [= <- <-]. eauto. Qed.

Lemma Get_Ok key w o tag w' :
  Get key w = (Ok (o, tag), w') → ticked w w' ∧ tag = TagOf o ∧ w_objs w' !! key = Some o.
Proof.
  unfold Get. destruct (next_tick w) as [t w1] eqn:Et. apply next_tick_ticked in Et.
  unfold kv_get. intros H. repeat (break_match_hyp; simplify_eq/=). done.
Qed.

Lemma GetRef_Ok db branch w r tag w' :
  GetRef db branch w = (Ok (r, tag), w') →
  ∃ wire, tag = TagOf (ORef wire) ∧ decodeRef wire = Ok r ∧ ticked w w'
          ∧ w_objs w' !! RefKey db branch = Some (ORef wire).
Proof.
  unfold GetRef. intros (g & w1 & Hg & H)%bind_Ok.
  apply try_inv in Hg as (r0 & Er & Hg). simplify_eq. destruct r0 as [[o t]|e].
  - apply Get_Ok in Hg as (Ht & -> & Ho). destruct o; try done.
    destruct (decodeRef w0) eqn:E; [|done]. unfold mret, io_ret in H. simplify_eq. eauto.
  - destruct (errors_Is e ErrNotFound); [|done]. apply bind_Ok in H as (? & ? & _ & ?). done.
Qed.

Lemma PutIf_Ok key o tag w t w' :
  PutIf key o tag w = (Ok t, w') →
  ∃ w1, ticked w w1 ∧ kv_match (w_objs w1 !! key) tag = true ∧ t = TagOf o
        ∧ w' = store_at key (Some o) w1.
Proof.
  unfold PutIf. destruct (next_tick w) as [tk w1] eqn:Et. apply next_tick_ticked in Et.
  intros H. repeat (break_match_hyp; simplify_eq/=). eauto.
Qed.

Lemma PutRef_Ok db branch r tag w t w' :
  PutRef db branch r tag w = (Ok t, w') →
  ValidateName db = Ok tt ∧ ValidateName branch = Ok tt ∧
  ∃ w1, ticked w w1 ∧ kv_match (w_objs w1 !! RefKey db branch) tag = true
        ∧ t = TagOf (ORef (encodeRef r))
        ∧ w' = store_at (RefKey db branch) (Some (ORef (encodeRef r))) w1.
Proof.
  unfold PutRef. intros (u & w1 & H1 & H)%bind_Ok. apply bind_Ok in H as (u' & w2 & H2 & H).
  unfold lift in H1, H2. simplify_eq. destruct u, u'. split_and!; [done..|].
  by apply PutIf_Ok in H.
Qed.

Lemma encode_normalize r : encodeRef (normalizeRef r) = encodeRef r.
Proof.
  unfold encodeRef, normalizeRef, set_schema, set_head_epoch. simpl.
  destruct (N.eqb_spec (r_head_epoch r) 0) as [E|E]; simpl.
  - by destruct (N.eqb_spec (r_epoch r) 0) as [->|].
  - apply N.eqb_neq in E. by rewrite E.
Qed.

(** ** Sequential runs *)

Lemma GetRef_calm db branch w wire r :
  calm w → w_objs w !! RefKey db branch = Some (ORef wire) → decodeRef wire = Ok r →
  GetRef db branch w = (Ok (r, TagOf (ORef wire)), w).
Proof.
  intros Hc Ho Hd. unfold GetRef. rewrite io_bind_eq. unfold try. rewrite Get_calm by done.
  unfold kv_get. rewrite Ho, Hd. done.
Qed.

Lemma PutRef_calm db branch r w tag :
  calm w → ValidateName db = Ok tt → ValidateName branch = Ok tt →
  kv_match (w_objs w !! RefKey db branch) tag = true →
  PutRef db branch r tag w =
  (Ok (TagOf (ORef (encodeRef r))), store_at (RefKey db branch) (Some (ORef (encodeRef r))) w).
Proof.
  intros Hc Hd Hb Hm. unfold PutRef. rewrite !io_bind_eq. unfold lift. rewrite Hd.
  rewrite io_bind_eq, Hb, PutIf_calm by done. by rewrite Hm.
Qed.

Lemma kv_match_self o : kv_match (Some o) (TagOf o) = true.
Proof. simpl. by rewrite bool_decide_eq_true_2. Qed.
