(* ===== verification/Rely.v ===== *)
(** * Rely conditions on the other processes

    [Backend]'s schedules let the other processes do anything between two calls.
    Some outcomes can only be judged when they keep the store's own discipline:
    [stable P w] says that whatever they do in the rest of [w]'s schedule keeps
    [P] of the objects.  The lemmas carry such a [P] over reads and over the
    conditional write of a ref. *)
From Stdlib Require Import Ascii String.
From S2P Require Import Prelude GoStrings Keys Refs Backend Store.
Local Open Scope string_scope.

Definition stable (P : objs → Prop) (w : world) : Prop :=
  Forall (λ t, ∀ m, P m → P (tk_env t m)) (w_sched w).

Lemma stable_calm P w : calm w → stable P w.
Proof. unfold stable, calm. by intros ->. Qed.

(** [w'] follows [w] by reads alone. *)
Definition read_only (w w' : world) : Prop :=
  w_log w' = w_log w ∧ ∀ P, stable P w → stable P w' ∧ (P (w_objs w) → P (w_objs w')).

Lemma read_only_refl w : read_only w w.
Proof. done. Qed.

Lemma read_only_trans w1 w2 w3 : read_only w1 w2 → read_only w2 w3 → read_only w1 w3.
Proof.
  intros [E1 H1] [E2 H2]. split; [congruence|]. intros P Hs. destruct (H1 P Hs) as [Hs2 Hp].
  destruct (H2 P Hs2) as [Hs3 Hp']. split; [done|auto].
Qed.

Lemma next_tick_read_only w t w' : next_tick w = (t, w') → read_only w w'.
Proof.
  unfold next_tick. intros Ht. split.
  - by destruct (w_sched w); simplify_eq.
  - intros P Hs. unfold stable in *. destruct (w_sched w) eqn:E; simplify_eq/=; [done|].
    apply Forall_cons in Hs as [Ht Hs]. auto.
Qed.

Lemma Get_read_only key w r w' : Get key w = (r, w') → read_only w w'.
Proof.
  unfold Get. destruct (next_tick w) as [t w1] eqn:Et. apply next_tick_read_only in Et.
  intros E. repeat (break_match_hyp; simplify_eq/=); done.
Qed.

Lemma ListKeys_read_only p w r w' : ListKeys p w = (r, w') → read_only w w'.
Proof.
  unfold ListKeys. destruct (next_tick w) as [t w1] eqn:Et. apply next_tick_read_only in Et.
  intros E. repeat (break_match_hyp; simplify_eq/=); done.
Qed.

Lemma GetRef_read_only db branch w r w' : GetRef db branch w = (r, w') → read_only w w'.
Proof.
  unfold GetRef. rewrite io_bind_eq. unfold try. destruct (Get _ w) as [g w1] eqn:Eg.
  apply Get_read_only in Eg. destruct g as [[o tag]|e].
  - intros E. destruct o; try (unfold fail in E; by simplify_eq).
    destruct (decodeRef w0); unfold mret, io_ret, fail in E; by simplify_eq.
  - destruct (errors_Is e ErrNotFound); [|unfold fail; by intros [= _ <-]].
    unfold describeMissingRef. rewrite !io_bind_eq. unfold try.
    destruct (ListKeys _ w1) as [l w2] eqn:El. apply ListKeys_read_only in El.
    rewrite io_ret_eq. unfold fail. intros [= _ <-]. by eapply read_only_trans.
Qed.

(** A conditional write of a ref: the other processes move, then the ref is
    stored over one the tag matches, or it is not; success means it was. *)
Lemma PutRef_cases db branch r tag w res w' :
  PutRef db branch r tag w = (res, w') →
  ∃ w1, read_only w w1
    ∧ ((w' = w1 ∧ is_ok res = false)
       ∨ (kv_match (w_objs w1 !! RefKey db branch) tag = true
          ∧ w' = store_at (RefKey db branch) (Some (ORef (encodeRef r))) w1)).
Proof.
  unfold PutRef. rewrite !io_bind_eq. unfold lift.
  destruct (ValidateName db); [|intros [= <- <-]; exists w; auto using read_only_refl].
  rewrite io_bind_eq. destruct (ValidateName branch); [|intros [= <- <-]; exists w; auto using read_only_refl].
  unfold PutIf. destruct (next_tick w) as [t w1] eqn:Et. apply next_tick_read_only in Et. intros E. exists w1.
  split; [done|]. repeat (break_match_hyp; simplify_eq/=); auto.
Qed.

(** What [GetRef] read is what the store then holds. *)
Lemma GetRef_cases db branch w res w' :
  GetRef db branch w = (res, w') →
  read_only w w' ∧ ∀ r tag, res = Ok (r, tag) →
    ∃ wire, tag = TagOf (ORef wire) ∧ decodeRef wire = Ok r ∧ w_objs w' !! RefKey db branch = Some (ORef wire).
Proof.
  intros E. split; [by eapply GetRef_read_only|]. intros r tag ->.
  apply GetRef_Ok in E as (wire & ? & ? & _ & ?). eauto.
Qed.

(** The ref stored at a key. *)
Definition ref_at (key : string) (m : objs) (r : Ref) : Prop :=
  ∃ wire, m !! key = Some (ORef wire) ∧ decodeRef wire = Ok r.

Lemma decode_encode_inv r r' : decodeRef (encodeRef r) = Ok r' → r' = normalizeRef r.
Proof.
  unfold decodeRef. cbn [w_schema encodeRef]. rewrite Z.ltb_irrefl.
  destruct (decide (bad_checkpoints (encodeRef r) = ∅)) as [Hb|]; [|done]. intros [= <-].
  assert (cps_nonzero (r_checkpoints r)) as Hnz.
  { intros n cp Hn Hz. assert (bad_checkpoints (encodeRef r) !! n = Some (RawObject cp)) as Hx.
    { apply map_lookup_filter_Some_2; [cbn [w_checkpoints encodeRef]; by rewrite lookup_fmap, Hn|]. simpl. by rewrite Hz. }
    by rewrite Hb, lookup_empty in Hx. }
  pose proof (decodeRef_encodeRef r Hnz) as E. unfold decodeRef in E. cbn [w_schema encodeRef] in E.
  rewrite Z.ltb_irrefl, decide_True in E by done.
  exact (f_equal (λ x, match x with Ok a => a | Err _ => r end) E).
Qed.
