(* ===== verification/Lease.v ===== *)
(** * Leases and epoch fencing

    [internal/store/lease.go]: [AcquireLeaseRefIf] (with [AcquireLease] and
    [AcquireLeaseRef]), [RenewLease], [ReleaseLease], [ReleaseLeaseByHolder] and
    [clearLease].

    [ref_guar] is what every operation of the program promises the others about
    the ref objects it writes, the moves to a fresh lineage apart; the lease
    operations are proved to keep it here, the other operations in their own
    files, and [System] draws the consequence for every history of a branch. *)
From Stdlib Require Import Ascii String.
From S2P Require Import Prelude GoStrings Keys Refs Backend Store.
Local Open Scope string_scope.

Record Lease := mkLease {
  l_db : string;
  l_branch : string;
  l_holder : string;
  l_epoch : N;
  l_expiry : Z }.

(** ** Operations *)

(** The refusals and the write of an acquire, on the ref it read. *)
Definition acquire_write (db branch holder : string) (ttl now : Z) (ref : Ref) (tag : etag)
    : IO (Lease * Ref * etag) :=
  if r_reaping ref then fail [ErrReaping]
  else if r_deleting ref then fail [ErrDeleting]
  else
    let live := LeaseLive ref now in
    if live && negb (bool_decide (r_lease_holder ref = holder)) then fail [ErrLeaseHeld]
    else
      let expiry := (now + ttl)%Z in
      let ref := if live then ref else set_epoch (add64 (r_epoch ref) 1) ref in
      let ref := set_lease_expiry (At expiry) (set_lease_holder holder ref) in
      written ← try (PutRef db branch ref tag);
      match written with
      | Err e => if errors_Is e ErrCAS then fail (ErrLeaseHeld :: e) else fail e
      | Ok tag' => mret (mkLease db branch holder (r_epoch ref) expiry, normalizeRef ref, tag')
      end.

(** [check] is given the instant at which it runs. *)
Definition AcquireLeaseRefIf (db branch holder : string) (ttl now : Z) (check : Z → Ref → res unit)
    : IO (Lease * Ref * etag) :=
  if bool_decide (holder = "") then fail [EHolderEmpty] else
  '(ref, tag) ← GetRef db branch;
  t ← Backend.now;
  _ ← lift (check t ref);
  acquire_write db branch holder ttl now ref tag.

Definition AcquireLeaseRef (db branch holder : string) (ttl now : Z) : IO (Lease * Ref * etag) :=
  AcquireLeaseRefIf db branch holder ttl now (λ _ _, Ok tt).

Definition AcquireLease (db branch holder : string) (ttl now : Z) : IO Lease :=
  '(l, _, _) ← AcquireLeaseRef db branch holder ttl now;
  mret l.

Definition RenewLease (l : Lease) (ttl now : Z) : IO Lease :=
  '(ref, tag) ← GetRef (l_db l) (l_branch l);
  if negb (bool_decide (r_lease_holder ref = l_holder l)) || negb (r_epoch ref =? l_epoch l)%N
  then fail [ErrLeaseLost]
  else
    let expiry := (now + ttl)%Z in
    _ ← PutRef (l_db l) (l_branch l) (set_lease_expiry (At expiry) ref) tag;
    mret (mkLease (l_db l) (l_branch l) (l_holder l) (l_epoch l) expiry).

Definition clearLease (db branch : string) (ref : Ref) (tag : etag) : IO unit :=
  t ← now;
  _ ← PutRef db branch (Touch t (set_lease_expiry NoStamp (set_lease_holder "" ref))) tag;
  mret tt.

Definition ReleaseLease (l : Lease) : IO unit :=
  '(ref, tag) ← GetRef (l_db l) (l_branch l);
  if negb (bool_decide (r_lease_holder ref = l_holder l)) || negb (r_epoch ref =? l_epoch l)%N
  then fail [ErrLeaseLost]
  else clearLease (l_db l) (l_branch l) ref tag.

Definition ReleaseLeaseByHolder (db branch holder : string) : IO unit :=
  if bool_decide (holder = "") then fail [EHolderEmpty] else
  '(ref, tag) ← GetRef db branch;
  if bool_decide (r_lease_holder ref = "") then fail [ErrHolderMismatch]
  else if negb (bool_decide (r_lease_holder ref = holder)) then fail [ErrHolderMismatch]
  else clearLease db branch ref tag.

(** ** The guarantee on ref writes *)

(** One write of a ref: it stays in the lineage and either leaves the epoch alone
    (the holder unchanged or cleared) or opens the next epoch. *)
Definition wire_trans (a b : refWire) : Prop :=
  w_lineage b = w_lineage a
  ∧ ((w_epoch b = w_epoch a ∧ (w_lease_holder b = w_lease_holder a ∨ w_lease_holder b = ""))
     ∨ w_epoch b = add64 (w_epoch a) 1).

Definition ref_guar (x : write) : Prop :=
  match wr_before x, wr_after x with
  | Some (ORef a), Some (ORef b) => wire_trans a b
  | _, Some (ORef _) => False
  | _, _ => True
  end.

(** A ref written over the ref it was read from. *)
Lemma ref_guar_update (ref ref' : Ref) tag key :
  read_ref (ref, tag) →
  wire_trans (encodeRef ref) (encodeRef ref') →
  ∀ b τ, kv_match b tag = true → ref_guar (mkWrite key b (Some (ORef (encodeRef ref'))) τ).
Proof.
  intros (wire & Et & Hd) Ht b τ Hm. simpl in *. subst tag.
  apply kv_match_before in Hm as [[? _]|(o & Ho & ->)]; [done|]. simplify_eq.
  unfold ref_guar; simpl. unfold wire_trans in *. simpl in *.
  assert (r_lineage ref = w_lineage wire ∧ r_epoch ref = w_epoch wire
          ∧ r_lease_holder ref = w_lease_holder wire) as (E1 & E2 & E3).
  { unfold decodeRef in Hd. repeat (break_match_hyp; simplify_eq/=); done. }
  by rewrite <-E1, <-E2, <-E3.
Qed.

(** Updates that leave lineage, epoch and holder alone. *)
Lemma wire_trans_same (a b : Ref) :
  r_lineage b = r_lineage a → r_epoch b = r_epoch a →
  (r_lease_holder b = r_lease_holder a ∨ r_lease_holder b = "") →
  wire_trans (encodeRef a) (encodeRef b).
Proof. intros. split; [done|]. by left. Qed.

Lemma spec_update db branch ref tag ref' :
  read_ref (ref, tag) → wire_trans (encodeRef ref) (encodeRef ref') →
  spec ref_guar (λ t, t = TagOf (ORef (encodeRef ref'))) (PutRef db branch ref' tag).
Proof. intros Hr Ht. apply spec_PutRef. intros b τ _ _. by eapply ref_guar_update. Qed.

Lemma spec_acquire_write db branch holder ttl now ref tag :
  read_ref (ref, tag) → spec ref_guar (λ _, True) (acquire_write db branch holder ttl now ref tag).
Proof.
  intros Hr. unfold acquire_write.
  spec_step; [apply spec_fail|]. spec_step; [apply spec_fail|]. spec_step; [apply spec_fail|].
  eapply spec_bind; [apply spec_try, (spec_update _ _ ref tag); [exact Hr|]|].
  - split; [by destruct (LeaseLive ref now)|]. simpl.
    destruct (LeaseLive ref now); simpl in *; [left|by right].
    split; [done|]. left. bool_to_prop. done.
  - intros [t|e] _; simpl; [by apply spec_ret|]. destruct (errors_Is e ErrCAS); apply spec_fail.
Qed.

Lemma spec_AcquireLeaseRefIf db branch holder ttl now check :
  spec ref_guar (λ _, True) (AcquireLeaseRefIf db branch holder ttl now check).
Proof.
  unfold AcquireLeaseRefIf. spec_step; [apply spec_fail|].
  eapply spec_bind; [apply spec_GetRef|]. intros [ref tag] Hr.
  eapply spec_bind; [apply spec_now|]. intros t _.
  eapply spec_bind; [apply spec_lift with (Q := λ _, True); done|]. intros _ _.
  by apply spec_acquire_write.
Qed.

Lemma spec_RenewLease l ttl now : spec ref_guar (λ _, True) (RenewLease l ttl now).
Proof.
  unfold RenewLease. eapply spec_bind; [apply spec_GetRef|]. intros [ref tag] Hr.
  spec_step; [apply spec_fail|].
  eapply spec_bind; [eapply spec_update; [exact Hr|]|intros; by apply spec_ret].
  apply wire_trans_same; auto.
Qed.

Lemma spec_clearLease db branch ref tag :
  read_ref (ref, tag) → spec ref_guar (λ _, True) (clearLease db branch ref tag).
Proof.
  intros Hr. unfold clearLease. eapply spec_bind; [apply spec_now|]. intros t _.
  eapply spec_bind; [eapply spec_update; [exact Hr|]|intros; by apply spec_ret].
  apply wire_trans_same; auto.
Qed.

Lemma spec_ReleaseLease l : spec ref_guar (λ _, True) (ReleaseLease l).
Proof.
  unfold ReleaseLease. eapply spec_bind; [apply spec_GetRef|]. intros [ref tag] Hr.
  spec_step; [apply spec_fail|by apply spec_clearLease].
Qed.

Lemma spec_ReleaseLeaseByHolder db branch holder :
  spec ref_guar (λ _, True) (ReleaseLeaseByHolder db branch holder).
Proof.
  unfold ReleaseLeaseByHolder. spec_step; [apply spec_fail|].
  eapply spec_bind; [apply spec_GetRef|]. intros [ref tag] Hr.
  repeat (spec_step; try apply spec_fail). by apply spec_clearLease.
Qed.

(** ** Acquisition, on every schedule *)

(** The ref an acquire writes over [r]. *)
Definition acquired (r : Ref) (holder : string) (ttl now : Z) : Ref :=
  set_lease_expiry (At (now + ttl))
    (set_lease_holder holder
      (if LeaseLive r now then r else set_epoch (add64 (r_epoch r) 1) r)).

Lemma acquire_write_Ok db branch holder ttl now ref wire w l r' tag w' :
  acquire_write db branch holder ttl now ref (TagOf (ORef wire)) w = (Ok (l, r', tag), w') →
  r_reaping ref = false ∧ r_deleting ref = false
  ∧ (LeaseLive ref now = true → r_lease_holder ref = holder)
  ∧ r' = normalizeRef (acquired ref holder ttl now) ∧ tag = TagOf (ORef (encodeRef r'))
  ∧ l = mkLease db branch holder (r_epoch (acquired ref holder ttl now)) (now + ttl)
  ∧ w_objs w' !! RefKey db branch = Some (ORef (encodeRef r'))
  ∧ w_log w' = mkWrite (RefKey db branch) (Some (ORef wire)) (Some (ORef (encodeRef r'))) (w_now w') :: w_log w.
Proof.
  unfold acquire_write. intros H.
  destruct (r_reaping ref) eqn:Er; [done|]. destruct (r_deleting ref) eqn:Ed; [done|].
  destruct (LeaseLive ref now && _) eqn:El; [done|].
  apply bind_Ok in H as (r0 & w3 & Hp & H). apply try_inv in Hp as (r1 & [= <-] & Hp).
  destruct r0 as [t1|e]; [|by destruct (errors_Is e ErrCAS)].
  unfold mret, io_ret in H. simplify_eq.
  apply PutRef_Ok in Hp as (_ & _ & w4 & Ht2 & Hm & -> & ->).
  split_and!; try done.
  - intros Hl. rewrite Hl in El. simpl in El. by bool_to_prop.
  - by rewrite encode_normalize.
  - by rewrite encode_normalize, store_at_lookup.
  - simpl. rewrite encode_normalize.
    apply kv_match_before in Hm as [[? _]|(o & [= <-] & ->)]; [done|].
    by rewrite (proj1 Ht2).
Qed.

Lemma AcquireLeaseRefIf_Ok db branch holder ttl now check w l r' tag w' :
  AcquireLeaseRefIf db branch holder ttl now check w = (Ok (l, r', tag), w') →
  ∃ wire r,
    decodeRef wire = Ok r ∧ holder ≠ "" ∧ (∃ t, check t r = Ok tt)
    ∧ r_reaping r = false ∧ r_deleting r = false
    ∧ (LeaseLive r now = true → r_lease_holder r = holder)
    ∧ r' = normalizeRef (acquired r holder ttl now) ∧ tag = TagOf (ORef (encodeRef r'))
    ∧ l = mkLease db branch holder (r_epoch (acquired r holder ttl now)) (now + ttl)
    ∧ w_objs w' !! RefKey db branch = Some (ORef (encodeRef r'))
    ∧ w_log w' = mkWrite (RefKey db branch) (Some (ORef wire)) (Some (ORef (encodeRef r'))) (w_now w') :: w_log w.
Proof.
  unfold AcquireLeaseRefIf. intros H. destruct (bool_decide (holder = "")) eqn:Eh; [done|].
  apply bind_Ok in H as ([ref t0] & w1 & Hg & H). apply GetRef_Ok in Hg as (wire & -> & Hd & Ht1 & Ho).
  apply bind_Ok in H as (t & w2 & Hn & H). unfold Backend.now in Hn. simplify_eq.
  apply bind_Ok in H as ([] & w3 & Hck & H). unfold lift in Hck. simplify_eq.
  apply acquire_write_Ok in H as (?&?&?&?&?&?&?&Hlog). rewrite (proj1 Ht1) in Hlog.
  exists wire, ref. bool_to_prop. split_and!; eauto.
Qed.

(** ** Example branch *)

Definition ex_ref : Ref :=
  mkRef 2 "a" 2 3 2 {["init" := mkCheckpoint 1 1 "" ∅ "snapshot"]} "" false "" NoStamp NoTTL
    NoStamp false false NoStamp ∅ None.

Definition ex_caps : caps := mkCaps true true true true.

Definition ex_world (m : objs) (sched : list tick) : world :=
  mkWorld m (100 * second) sched ex_caps (λ n, fmt_016x (N.of_nat n)) 0 false [].

Definition ex_ref_objs : objs := {[RefKey "app" "main" := ORef (encodeRef ex_ref)]}.

(** C28: acquiring a lease, on every interleaving and every pattern of faults.
    When it succeeds, the ref it replaced carried no reap or delete claim and no
    live lease of another holder; its own single write replaced exactly that
    ref; and the lease it returns carries the epoch it wrote: the next epoch
    after the one replaced, or the same one when the holder re-acquired its own
    live lease. *)
Theorem acquire_exclusive db branch holder ttl now w l w' :
  AcquireLease db branch holder ttl now w = (Ok l, w') →
  ∃ wire r r',
    decodeRef wire = Ok r ∧ r_reaping r = false ∧ r_deleting r = false
    ∧ (LeaseLive r now = true → r_lease_holder r = holder)
    ∧ w_log w' = mkWrite (RefKey db branch) (Some (ORef wire)) (Some (ORef (encodeRef r'))) (w_now w') :: w_log w
    ∧ r_lease_holder r' = holder ∧ holder ≠ "" ∧ r_lease_expiry r' = At (now + ttl)
    ∧ l_holder l = holder ∧ l_epoch l = r_epoch r'
    ∧ r_epoch r' = (if LeaseLive r now then r_epoch r else add64 (r_epoch r) 1)
    ∧ r_lineage r' = r_lineage r ∧ r_head_txid r' = r_head_txid r
    ∧ r_checkpoints r' = r_checkpoints r.
Proof.
  unfold AcquireLease, AcquireLeaseRef. intros ([[l0 r'] t] & w1 & H & H1)%bind_Ok.
  unfold mret, io_ret in H1. simplify_eq.
  apply AcquireLeaseRefIf_Ok in H
    as (wire & r & Hd & Hh & _ & Hr & Hdel & Hl & -> & -> & -> & _ & Hlog).
  exists wire, r, (normalizeRef (acquired r holder ttl now)).
  unfold acquired in *. split_and!; try done; destruct (LeaseLive r now); done.
Qed.

Definition ex_acquire := AcquireLease "app" "main" "session:x" 30 (100 * second).

Lemma acquire_exclusive_witness :
  (ex_acquire (ex_world ex_ref_objs [])).1 = Ok (mkLease "app" "main" "session:x" 3 (100 * second + 30))
  ∧ ∃ r', r_epoch r' = 3%N ∧ r_lease_holder r' = "session:x".
Proof.
  assert ((ex_acquire (ex_world ex_ref_objs [])).1
    = Ok (mkLease "app" "main" "session:x" 3 (100 * second + 30))) as H by (vm_compute; reflexivity).
  split; [exact H|].
  destruct (acquire_exclusive _ _ _ _ _ _ _ _ (run_Ok _ _ _ H))
    as (wire & r & r' & ? & ? & ? & ? & ? & Hh & ? & ? & ? & He & ?).
  exists r'. split; [symmetry; exact He|exact Hh].
Defined.

(** a lease can be had: when nothing interferes, a branch without a reap or
    delete claim whose lease is free, lapsed, unreadable or the caller's own is
    acquired, and the ref then stored is the one replaced plus the lease. *)
Theorem acquire_available db branch holder ttl now w wire r :
  calm w → ValidateName db = Ok tt → ValidateName branch = Ok tt → holder ≠ "" →
  w_objs w !! RefKey db branch = Some (ORef wire) → decodeRef wire = Ok r →
  r_reaping r = false → r_deleting r = false →
  (LeaseLive r now = true → r_lease_holder r = holder) →
  ∃ l, AcquireLease db branch holder ttl now w
       = (Ok l, store_at (RefKey db branch) (Some (ORef (encodeRef (acquired r holder ttl now)))) w)
       ∧ LeaseLive (acquired r holder ttl now) now = bool_decide (0 < ttl)%Z.
Proof.
  intros Hc Hdb Hbr Hh Ho Hd Hr Hdel Hl.
  exists (mkLease db branch holder (r_epoch (acquired r holder ttl now)) (now + ttl)). split.
  - unfold AcquireLease, AcquireLeaseRef, AcquireLeaseRefIf, acquire_write. rewrite io_bind_eq.
    rewrite bool_decide_eq_false_2 by done.
    rewrite io_bind_eq, (GetRef_calm _ _ _ wire r) by done. rewrite io_bind_eq, now_eq, io_bind_eq.
    unfold lift. rewrite Hr, Hdel.
    assert (LeaseLive r now && negb (bool_decide (r_lease_holder r = holder)) = false) as ->.
    { destruct (LeaseLive r now); [|done]. rewrite (bool_decide_eq_true_2 _ (Hl eq_refl)). done. }
    rewrite io_bind_eq. unfold try. fold (acquired r holder ttl now).
    rewrite PutRef_calm by (done || by rewrite Ho, kv_match_self). done.
  - unfold LeaseLive at 1. simpl. rewrite bool_decide_eq_false_2 by done. simpl.
    destruct (Z.ltb_spec now (now + ttl)); symmetry; [apply bool_decide_eq_true_2|apply bool_decide_eq_false_2]; lia.
Qed.

Lemma acquire_available_witness :
  ∃ l, (ex_acquire (ex_world ex_ref_objs [])).1 = Ok l.
Proof.
  destruct (acquire_available "app" "main" "session:x" 30 (100 * second) (ex_world ex_ref_objs [])
    (encodeRef ex_ref) ex_ref) as (l & H & _); try (vm_compute; reflexivity); [done|discriminate|].
  exists l. unfold ex_acquire. rewrite H. reflexivity.
Defined.

(** ** Renewal and release, on every schedule *)

(** renewing or releasing a lease, on every schedule: success means the call
    replaced a ref that still carried exactly the lease's holder and epoch, and
    that the ref it wrote keeps the epoch, the lineage, the head and the
    checkpoints; only the expiry moved, or the holder was cleared. *)
Theorem renew_release_own l ttl now w w' :
  (∀ l', RenewLease l ttl now w = (Ok l', w') →
    ∃ wire r, decodeRef wire = Ok r ∧ r_lease_holder r = l_holder l ∧ r_epoch r = l_epoch l
      ∧ l_epoch l' = l_epoch l ∧ l_expiry l' = (now + ttl)%Z
      ∧ w_log w' = mkWrite (RefKey (l_db l) (l_branch l)) (Some (ORef wire))
          (Some (ORef (encodeRef (set_lease_expiry (At (now + ttl)) r)))) (w_now w') :: w_log w)
  ∧ (ReleaseLease l w = (Ok tt, w') →
    ∃ wire r t, decodeRef wire = Ok r ∧ r_lease_holder r = l_holder l ∧ r_epoch r = l_epoch l
      ∧ w_log w' = mkWrite (RefKey (l_db l) (l_branch l)) (Some (ORef wire))
          (Some (ORef (encodeRef (Touch t (set_lease_expiry NoStamp (set_lease_holder "" r)))))) (w_now w') :: w_log w).
Proof.
  split.
  - intros l' H. unfold RenewLease in H. apply bind_Ok in H as ([r t0] & w1 & Hg & H).
    apply GetRef_Ok in Hg as (wire & -> & Hd & Ht1 & Ho). destruct (_ || _) eqn:E; [done|].
    bool_to_prop. apply bind_Ok in H as (t1 & w2 & Hp & H). unfold mret, io_ret in H. simplify_eq.
    apply PutRef_Ok in Hp as (_ & _ & w4 & Ht2 & Hm & -> & ->).
    exists wire, r. split_and!; try done. simpl.
    apply kv_match_before in Hm as [[? _]|(o & [= <-] & ->)]; [done|]. by rewrite (proj1 Ht2), (proj1 Ht1).
  - intros H. unfold ReleaseLease in H. apply bind_Ok in H as ([r t0] & w1 & Hg & H).
    apply GetRef_Ok in Hg as (wire & -> & Hd & Ht1 & Ho). destruct (_ || _) eqn:E; [done|].
    bool_to_prop. unfold clearLease in H. apply bind_Ok in H as (t & w2 & Hn & H).
    unfold Backend.now in Hn. simplify_eq.
    apply bind_Ok in H as (t1 & w3 & Hp & H). unfold mret, io_ret in H. simplify_eq.
    apply PutRef_Ok in Hp as (_ & _ & w4 & Ht2 & Hm & -> & ->).
    exists wire, r, (w_now w2). split_and!; try done. simpl.
    apply kv_match_before in Hm as [[? _]|(o & [= <-] & ->)]; [done|]. by rewrite (proj1 Ht2), (proj1 Ht1).
Qed.

Definition ex_held_objs : objs :=
  {[RefKey "app" "main" := ORef (encodeRef (acquired ex_ref "session:x" 30 (100 * second)))]}.
Definition ex_lease : Lease := mkLease "app" "main" "session:x" 3 (100 * second + 30).

Lemma renew_release_own_witness :
  (RenewLease ex_lease 60 (100 * second) (ex_world ex_held_objs [])).1
    = Ok (mkLease "app" "main" "session:x" 3 (100 * second + 60))
  ∧ ∃ wire r, decodeRef wire = Ok r ∧ r_epoch r = 3%N.
Proof.
  assert ((RenewLease ex_lease 60 (100 * second) (ex_world ex_held_objs [])).1
    = Ok (mkLease "app" "main" "session:x" 3 (100 * second + 60))) as H by (vm_compute; reflexivity).
  split; [exact H|].
  destruct (proj1 (renew_release_own ex_lease 60 (100 * second) _ _) _ (run_Ok _ _ _ H))
    as (wire & r & Hd & _ & He & _). exists wire, r. split; [exact Hd|exact He].
Defined.
