(* ===== verification/LocalProps.v ===== *)
(** * The directory backend implements atomic compare-and-swap

    On a key that is only read and written conditionally, as refs and the
    manifest are, every interleaving of [Local]'s calls, with failures and
    crashes anywhere, is explained by a sequential history of atomic calls; and
    its listing is the one [Backend] specifies. *)
From Stdlib Require Import Ascii String.
From S2P Require Import Prelude GoStrings Keys Refs Backend Store Lease Local.
Local Open Scope string_scope.

Definition conditional (op : lop) : Prop :=
  match op with LPut _ | LDelete => False | _ => True end.

(** The call is in its critical section: its lock is the one at the path. *)
Definition in_section (c : pc) : option nat :=
  match c with PHeld i | PCompared i | PReply i _ => Some i | _ => None end.

Definition opened (c : pc) : option nat := match c with POpen i => Some i | _ => flocked c end.

(** The reply a call has been given. *)
Definition replied (c : pc) : option lreply :=
  match c with PReply _ r | PUnlinked _ r | PDone r => Some r | _ => None end.

Section machine.
  Context (calls : nat → lop) (o0 : option object).

Record local_inv (s : lstate) : Prop := mk_local_inv {
  li_flock : ∀ p i, flocked (ls_pc s p) = Some i → ls_flock s i = Some p;
  li_lock : ∀ p i, in_section (ls_pc s p) = Some i → ls_lock s = Some i;
  li_opened : ∀ p i, opened (ls_pc s p) = Some i → (i < ls_next s)%nat;
  li_next : ∀ i, ls_lock s = Some i → (i < ls_next s)%nat;
  li_compared : ∀ p i, ls_pc s p = PCompared i → local_compare (calls p) (ls_obj s) = true;
  li_logged : ∀ p r, (p, r) ∈ ls_log s → r ≠ RErr ∧ (replied (ls_pc s p) = Some r ∨ ls_pc s p = PCrash);
  li_replied : ∀ p r, replied (ls_pc s p) = Some r → r ≠ RErr → (p, r) ∈ ls_log s;
  li_once : NoDup (ls_log s).*1;
  li_history : kv_history calls o0 (ls_log s) (ls_obj s) }.

Lemma upd_eq {A} (f : nat → A) p a : upd f p a p = a.
Proof. unfold upd. by rewrite decide_True. Qed.

Lemma upd_ne {A} (f : nat → A) p q a : q ≠ p → upd f p a q = f q.
Proof. intros. unfold upd. by rewrite decide_False. Qed.

(** Two calls are never in their critical sections at once. *)
Lemma section_exclusive s p q i j :
  local_inv s → in_section (ls_pc s p) = Some i → in_section (ls_pc s q) = Some j → p = q.
Proof.
  intros Hi Hp Hq. assert (i = j) as <-.
  { pose proof (li_lock s Hi _ _ Hp). pose proof (li_lock s Hi _ _ Hq). congruence. }
  assert (∀ c k, in_section c = Some k → flocked c = Some k) as Hsf by (by intros []).
  pose proof (li_flock s Hi _ _ (Hsf _ _ Hp)). pose proof (li_flock s Hi _ _ (Hsf _ _ Hq)). congruence.
Qed.

(** ** Moves that decide nothing *)

(** [p] goes to a point where it holds what it held, or takes or drops a flock. *)
Lemma inv_goto s p c :
  local_inv s →
  (∀ i, flocked c = Some i → flocked (ls_pc s p) = Some i) →
  (∀ i, in_section c = Some i → ls_lock s = Some i) →
  (∀ i, opened c = Some i → (i < ls_next s)%nat) →
  (∀ i, c = PCompared i → local_compare (calls p) (ls_obj s) = true) →
  (∀ r, (p, r) ∈ ls_log s → replied c = Some r ∨ c = PCrash) →
  (∀ r, replied c = Some r → r ≠ RErr → (p, r) ∈ ls_log s) →
  local_inv (goto p c s).
Proof.
  intros [H1 H2 H3 H4 H5 H6 H7 H8 H9] A1 A2 A3 A4 A5 A6.
  assert (∀ q, ls_pc (goto p c s) q = if decide (q = p) then c else ls_pc s q) as Hpc by done.
  split; cbn [goto ls_obj ls_lock ls_next ls_flock ls_log]; try done;
    intros q; try (intros x; rewrite !Hpc; destruct (decide (q = p)) as [->|]; eauto).
  intros Hl. destruct (H6 _ _ Hl). eauto.
Qed.

Lemma inv_take s p i :
  local_inv s → ls_pc s p = POpen i → ls_flock s i = None → local_inv (goto p (PFlocked i) (set_flock i (Some p) s)).
Proof.
  intros [H1 H2 H3 H4 H5 H6 H7 H8 H9] Hp Hf.
  assert (∀ q, ls_pc (goto p (PFlocked i) (set_flock i (Some p) s)) q = if decide (q = p) then PFlocked i else ls_pc s q) as Hpc by done.
  split; cbn [goto set_flock ls_obj ls_lock ls_next ls_flock ls_log]; try done; intros q.
  - intros j. rewrite Hpc. destruct (decide (q = p)) as [->|]; [intros [= ->]; apply upd_eq|].
    intros Hq%H1. rewrite upd_ne; [done|]. intros ->. congruence.
  - intros j. rewrite Hpc. destruct (decide (q = p)); [done|eauto].
  - intros j. rewrite Hpc. destruct (decide (q = p)) as [->|]; [intros [= <-]; apply (H3 p); by rewrite Hp|eauto].
  - intros j. rewrite Hpc. destruct (decide (q = p)); [done|eauto].
  - intros r. rewrite Hpc. destruct (decide (q = p)) as [->|]; [|eauto]. intros Hl. destruct (H6 _ _ Hl) as [_ [Hr|Hr]]; rewrite Hp in Hr; done.
  - intros r. rewrite Hpc. destruct (decide (q = p)); [done|eauto].
Qed.

(** [p] drops its flock and leaves the locked part of its call. *)
Lemma inv_drop s p i c :
  local_inv s → flocked (ls_pc s p) = Some i → flocked c = None → opened c = None →
  (∀ r, (p, r) ∈ ls_log s → replied c = Some r ∨ c = PCrash) →
  (∀ r, replied c = Some r → r ≠ RErr → (p, r) ∈ ls_log s) →
  local_inv (goto p c (set_flock i None s)).
Proof.
  intros [H1 H2 H3 H4 H5 H6 H7 H8 H9] Hp Hc Ho A5 A6.
  assert (∀ q, ls_pc (goto p c (set_flock i None s)) q = if decide (q = p) then c else ls_pc s q) as Hpc by done.
  assert (in_section c = None) as Hs by (by destruct c).
  split; cbn [goto set_flock ls_obj ls_lock ls_next ls_flock ls_log]; try done; intros q.
  - intros j. rewrite Hpc. destruct (decide (q = p)) as [->|Hne]; [congruence|].
    intros Hq%H1. rewrite upd_ne; [done|]. intros ->. apply H1 in Hp. congruence.
  - intros j. rewrite Hpc. destruct (decide (q = p)); [congruence|eauto].
  - intros j. rewrite Hpc. destruct (decide (q = p)); [congruence|eauto].
  - intros j. rewrite Hpc. destruct (decide (q = p)); [intros ->; done|eauto].
  - intros r. rewrite Hpc. destruct (decide (q = p)) as [->|]; [|eauto]. intros Hl. destruct (H6 _ _ Hl). eauto.
  - intros r. rewrite Hpc. destruct (decide (q = p)) as [->|]; eauto.
Qed.

Lemma undecided s p : local_inv s → replied (ls_pc s p) = None → ls_pc s p ≠ PCrash → p ∉ (ls_log s).*1.
Proof.
  intros Hi Hr Hc Hin. apply list_elem_of_fmap in Hin as ([q r] & -> & Hin).
  destruct (li_logged s Hi _ _ Hin) as [_ [?|?]]; cbn in *; congruence.
Qed.

(** ** Moves that decide a call *)

(** [p] is decided by the atomic call, alone in its section if it writes. *)
Lemma inv_decide s p o r c :
  local_inv s → replied (ls_pc s p) = None → ls_pc s p ≠ PCrash → kv_apply (calls p) (ls_obj s) = (o, r) → r ≠ RErr →
  (o = ls_obj s ∨ ∀ q i, q ≠ p → ls_pc s q ≠ PCompared i) →
  replied c = Some r → (∀ i, flocked c = Some i → flocked (ls_pc s p) = Some i) →
  (∀ i, in_section c = Some i → in_section (ls_pc s p) = Some i) →
  local_inv (goto p c (decided p o r s)).
Proof.
  intros Hi Hun Hcr Hap Hre Hex Hc Hf Hs. pose proof (undecided s p Hi Hun Hcr) as Hnin.
  destruct Hi as [H1 H2 H3 H4 H5 H6 H7 H8 H9].
  assert (∀ q, ls_pc (goto p c (decided p o r s)) q = if decide (q = p) then c else ls_pc s q) as Hpc by done.
  split; cbn [goto decided ls_obj ls_lock ls_next ls_flock ls_log]; try done.
  - intros q j. rewrite Hpc. destruct (decide (q = p)) as [->|]; eauto.
  - intros q j. rewrite Hpc. destruct (decide (q = p)) as [->|]; eauto.
  - intros q j. rewrite Hpc. destruct (decide (q = p)) as [->|]; [|eauto]. intros Hj. apply (H3 p).
    destruct c; try done; cbn in Hj; simplify_eq; pose proof (Hf _ eq_refl) as Hx; destruct (ls_pc s p); by cbn in *.
  - intros q j. rewrite Hpc. destruct (decide (q = p)) as [->|Hne]; [intros ->; done|].
    intros Hq. destruct Hex as [->|Hex]; [eauto|]. by destruct (Hex q j Hne).
  - intros q x. rewrite Hpc. intros [[= -> ->]|Hl]%elem_of_cons; [rewrite decide_True by done; eauto|].
    rewrite decide_False; [eauto|]. intros ->. apply Hnin, list_elem_of_fmap. by exists (p, x).
  - intros q x. rewrite Hpc. destruct (decide (q = p)) as [->|]; [|right; eauto].
    rewrite Hc. intros [= ->] _. by left.
  - rewrite fmap_cons. by apply NoDup_cons.
  - econstructor; done.
Qed.

(** ** Every step keeps the invariant *)

(** Creating the lock file: no one is in a section, since it would be there. *)
Lemma inv_create s p :
  local_inv s → ls_lock s = None → ls_pc s p = PStart → local_inv (goto p (POpen (ls_next s)) (create_lock s)).
Proof.
  intros [H1 H2 H3 H4 H5 H6 H7 H8 H9] Hl Hp.
  assert (local_inv (create_lock s)) as Hi.
  { split; cbn [create_lock ls_obj ls_lock ls_next ls_flock ls_pc ls_log]; try done.
    - intros q i Hq%H2. congruence.
    - intros q i Hq%H3. lia.
    - intros i [= <-]. lia. }
  apply inv_goto; [done|done|done| |done| |done].
  - intros i [= <-]. cbn. lia.
  - intros r Hr. destruct (H6 _ _ Hr) as [_ [Hx|Hx]]; rewrite Hp in Hx; done.
Qed.

(** Unlinking the lock file takes it from no one else's section. *)
Lemma inv_unlink s p i r :
  local_inv s → ls_pc s p = PReply i r → local_inv (goto p (PUnlinked i r) (set_lock None s)).
Proof.
  intros Hi Hp. pose proof Hi as [H1 H2 H3 H4 H5 H6 H7 H8 H9].
  assert (∀ q, ls_pc (goto p (PUnlinked i r) (set_lock None s)) q = if decide (q = p) then PUnlinked i r else ls_pc s q) as Hpc by done.
  split; cbn [goto set_lock ls_obj ls_lock ls_next ls_flock ls_log]; try done; intros q.
  - intros j. rewrite Hpc. destruct (decide (q = p)) as [->|]; [|eauto]. intros [= <-]. apply H1. by rewrite Hp.
  - intros j. rewrite Hpc. destruct (decide (q = p)) as [->|Hne]; [done|]. intros Hq. destruct Hne.
    eapply section_exclusive; [done|exact Hq|by rewrite Hp].
  - intros j. rewrite Hpc. destruct (decide (q = p)) as [->|]; [|eauto]. intros [= <-]. apply (H3 p). by rewrite Hp.
  - intros j. rewrite Hpc. destruct (decide (q = p)) as [->|]; [done|eauto].
  - intros x. rewrite Hpc. destruct (decide (q = p)) as [->|]; [|eauto]. intros Hl. destruct (H6 _ _ Hl) as [? [Hx|Hx]]; rewrite Hp in Hx; [by split; [|left]|done].
  - intros x. rewrite Hpc. destruct (decide (q = p)) as [->|]; [|eauto]. intros Hx. apply (H7 p). by rewrite Hp.
Qed.

(** A call that is not decided may go back, or fail. *)
Lemma inv_retreat s p c :
  local_inv s → replied (ls_pc s p) = None → ls_pc s p ≠ PCrash → c = PStart ∨ c = PDone RErr → local_inv (goto p c s).
Proof.
  intros Hi Hr Hc Hcc. pose proof (undecided s p Hi Hr Hc) as Hn.
  apply inv_goto; [done|by destruct Hcc as [-> | ->]..| |].
  - intros r Hl. destruct Hn. apply list_elem_of_fmap. by exists (p, r).
  - by destruct Hcc as [-> | ->]; [|intros r [= <-]].
Qed.

Lemma inv_lock_step s p a :
  local_inv s → a ≠ Die → (ls_pc s p = PStart ∨ (∃ i, ls_pc s p = POpen i ∨ ls_pc s p = PFlocked i)) →
  local_inv (lock_step p a s).
Proof.
  intros Hi Ha Hp. unfold lock_step. destruct Hp as [Hp|(i & [Hp|Hp])]; rewrite Hp.
  - destruct a; [|by apply inv_retreat; rewrite ?Hp; auto|done].
    destruct (ls_lock s) as [i|] eqn:El; [|by apply inv_create].
    apply inv_goto; [done|done|done| |done| |done].
    + intros j [= <-]. by apply (li_next s Hi).
    + intros r Hl. destruct (li_logged s Hi _ _ Hl) as [_ [Hx|Hx]]; rewrite Hp in Hx; done.
  - destruct a; [|by apply inv_retreat; rewrite ?Hp; auto|done].
    destruct (ls_flock s i) eqn:Ef; [by apply inv_retreat; rewrite ?Hp; auto|by apply inv_take].
  - assert (local_inv (goto p PStart (set_flock i None s))) as Hback.
    { eapply inv_drop; [done|by rewrite Hp|done|done| |done].
      intros r Hl. destruct (li_logged s Hi _ _ Hl) as [_ [Hx|Hx]]; rewrite Hp in Hx; done. }
    destruct a; [|done..]. destruct (decide (ls_lock s = Some i)); [|done].
    apply inv_goto; [done|by rewrite Hp|by intros j [= <-]| |done| |done].
    + intros j [= <-]. apply (li_opened s Hi p). by rewrite Hp.
    + intros r Hl. destruct (li_logged s Hi _ _ Hl) as [_ [Hx|Hx]]; rewrite Hp in Hx; done.
Qed.

Lemma inv_fail_reply s p i :
  local_inv s → flocked (ls_pc s p) = Some i → in_section (ls_pc s p) = Some i → replied (ls_pc s p) = None →
  local_inv (goto p (PReply i RErr) s).
Proof.
  intros Hi Hf Hs Hr. assert (ls_pc s p ≠ PCrash) as Hc by (intros E; by rewrite E in Hf).
  pose proof (undecided s p Hi Hr Hc) as Hn. apply inv_goto; [done|by intros j [= <-]|intros j [= <-]|intros j [= <-]|done| |].
  - by eapply li_lock.
  - apply (li_opened s Hi p). by destruct (ls_pc s p).
  - intros r Hl. destruct Hn. apply list_elem_of_fmap. by exists (p, r).
  - by intros r [= <-].
Qed.

Lemma inv_body_step s p a i :
  local_inv s → a ≠ Die → conditional (calls p) →
  ls_pc s p = PHeld i ∨ ls_pc s p = PCompared i → local_inv (body_step calls p a s).
Proof.
  intros Hi Ha Hcond Hp. assert (flocked (ls_pc s p) = Some i ∧ in_section (ls_pc s p) = Some i ∧ replied (ls_pc s p) = None
    ∧ ls_pc s p ≠ PCrash) as (Hf & Hs & Hr & Hc) by (by destruct Hp as [-> | ->]).
  pose proof (inv_fail_reply s p i Hi Hf Hs Hr) as Hfail. unfold body_step. destruct Hp as [Hp|Hp]; rewrite Hp.
  - destruct a; [|done|done]. destruct (local_compare (calls p) (ls_obj s)) eqn:Ecmp.
    + apply inv_goto; [done|by rewrite Hp|by intros j [= <-]; eapply li_lock| |done| |done].
      * intros j [= <-]. apply (li_opened s Hi p). by rewrite Hp.
      * intros r Hl. destruct (li_logged s Hi _ _ Hl) as [_ [Hx|Hx]]; rewrite Hp in Hx; done.
    + apply inv_decide; try done; [unfold kv_apply; by rewrite Ecmp|by left|by rewrite Hp|by rewrite Hp].
  - destruct a; [|done|done]. pose proof (li_compared s Hi p i Hp) as Hcmp.
    assert (∀ o r, local_write (calls p) (ls_obj s) = (o, r) → r ≠ RErr → local_inv (goto p (PReply i r) (decided p o r s))) as Hw.
    { intros o r Hw Hre. apply inv_decide; try done; [unfold kv_apply; by rewrite Hcmp| |by rewrite Hp|by rewrite Hp].
      right. intros q j Hne Hq. destruct Hne. apply (section_exclusive s q p j i Hi); [by rewrite Hq|exact Hs]. }
    destruct (calls p) eqn:Ec; try done; cbn [local_write] in Hw; try (by apply Hw).
    + destruct (ls_obj s); by apply Hw.
    + destruct (ls_obj s); [by apply Hw|done].
Qed.

Lemma inv_release_step s p a i r :
  local_inv s → ls_pc s p = PReply i r ∨ ls_pc s p = PUnlinked i r → local_inv (release_step p a s).
Proof.
  intros Hi Hp. unfold release_step.
  assert (∀ x, (p, x) ∈ ls_log s → x = r) as Hlog.
  { intros x Hl. destruct (li_logged s Hi _ _ Hl) as [_ [Hx|Hx]]; destruct Hp as [Hp|Hp]; rewrite Hp in Hx; by simplify_eq/=. }
  assert (∀ x, r = x → x ≠ RErr → (p, x) ∈ ls_log s) as Hrep.
  { intros x <- Hne. apply (li_replied s Hi); [|done]. by destruct Hp as [-> | ->]. }
  destruct Hp as [Hp|Hp]; rewrite Hp.
  - assert (local_inv (goto p (PUnlinked i r) s)) as Hkeep.
    { apply inv_goto; [done|by rewrite Hp|done| |done| |].
      - intros j [= <-]. apply (li_opened s Hi p). by rewrite Hp.
      - intros x Hl. left. by rewrite (Hlog x Hl).
      - intros x [= <-]. by apply Hrep. }
    destruct a; [by apply inv_unlink|done|done].
  - eapply inv_drop; [done|by rewrite Hp|done|done| |].
    + intros x Hl. left. by rewrite (Hlog x Hl).
    + intros x [= <-]. by apply Hrep.
Qed.

Lemma inv_die s p : local_inv s → ls_pc s p ≠ PCrash → local_inv (die p s).
Proof.
  intros Hi Hc. unfold die. destruct (flocked (ls_pc s p)) as [i|] eqn:Ef.
  - eapply inv_drop; [done|done|done|done| |done]. by right.
  - apply inv_goto; try done. by right.
Qed.

Lemma inv_plain_step s p a :
  local_inv s → conditional (calls p) → ls_pc s p = PStart → a ≠ Die → (∀ o t, calls p ≠ LPutIf o t) → (∀ t, calls p ≠ LDeleteIf t) →
  local_inv (plain_step calls p a s).
Proof.
  intros Hi Hcond Hp Ha H1 H2. unfold plain_step. destruct a; [|by apply inv_retreat; rewrite ?Hp; auto|done].
  destruct (calls p) eqn:Ec; try done; [|by destruct (H1 o ifMatch)|by destruct (H2 ifMatch)]. cbn [local_write].
  apply inv_decide; rewrite ?Hp; try done.
  - unfold kv_apply. by rewrite Ec.
  - by destruct (ls_obj s).
  - by left.
Qed.

Lemma inv_step s p a : local_inv s → conditional (calls p) → local_inv (local_step calls p a s).
Proof.
  intros Hi Hcond. unfold local_step. destruct (ls_pc s p) as [|i|i|i|i|i r|i r|r|] eqn:Hp; try done; destruct a;
    try (apply inv_die; [done|by rewrite Hp]);
    try (by apply inv_lock_step; [done|done|]; rewrite Hp; eauto);
    try (by eapply inv_body_step; eauto); try (by eapply inv_release_step; eauto).
  all: destruct (calls p) eqn:Ec; try (by apply inv_lock_step; [done|done|]; rewrite Hp; eauto);
    apply inv_plain_step; rewrite ?Ec; done.
Qed.

Lemma inv_run sched s : local_inv s → (∀ p, conditional (calls p)) → local_inv (local_run calls sched s).
Proof.
  intros Hi Hc. revert s Hi. induction sched as [|[p a] sched IH]; intros s Hi; [done|]. cbn [local_run foldl]. apply IH.
  by apply inv_step.
Qed.

Lemma local_inv_init left_lock : local_inv (local_init o0 left_lock).
Proof.
  split; cbn; try done; [by intros i; destruct left_lock; intros [= <-]; lia| | |].
  - intros p r Hr. by apply elem_of_nil in Hr.
  - constructor.
  - constructor.
Qed.
End machine.

(** C17: [Local]'s conditional calls are atomic.  Take any number of processes
    calling [Get], [PutIf] (or [PutReaderIf]) and [DeleteIf] on one key, in
    every interleaving of their system calls, with I/O errors, lock timeouts and
    process deaths anywhere, and possibly a lock file left by an earlier crash.
    There is then a sequential history of atomic compare-and-swap calls that ends
    in the file's content, in which every call appears at most once, with the
    reply it returned, at one of its own system calls; a call that returned an
    I/O error is not in it (its write did not land); and no two calls are ever
    between lock and release at once. *)
Theorem local_cas_atomic calls o0 left_lock sched :
  (∀ p, conditional (calls p)) →
  let s := local_run calls sched (local_init o0 left_lock) in
  kv_history calls o0 (ls_log s) (ls_obj s) ∧ NoDup (ls_log s).*1
  ∧ (∀ p r, ls_pc s p = PDone r → if decide (r = RErr) then p ∉ (ls_log s).*1 else (p, r) ∈ ls_log s)
  ∧ (∀ p q i j, in_section (ls_pc s p) = Some i → in_section (ls_pc s q) = Some j → p = q).
Proof.
  intros Hc s. assert (local_inv calls o0 s) as Hi by (apply inv_run; [apply local_inv_init|done]). split_and!.
  - by apply li_history.
  - by eapply li_once.
  - intros p r Hp. destruct (decide (r = RErr)) as [->|Hr].
    + intros Hin. apply list_elem_of_fmap in Hin as ([q x] & -> & Hin). cbn [fst] in Hp.
      destruct (li_logged _ _ _ Hi _ _ Hin) as [Hx [Hl|Hl]]; rewrite Hp in Hl; by simplify_eq/=.
    + apply (li_replied _ _ _ Hi); [by rewrite Hp|done].
  - intros p q i j. by eapply section_exclusive.
Qed.

(** Two creates of one key race for a lock file left by a crash: the second
    opens it while the first holds it, finds it unlinked, starts over and loses
    the compare. *)
Definition ex_calls (p : nat) : lop := LPutIf (OBytes (if decide (p = 1%nat) then "one" else "two")) NoTag.
Definition ex_race : list (nat * act) :=
  [(1%nat, Go); (1%nat, Go); (2%nat, Go); (1%nat, Go); (2%nat, Go); (1%nat, Go); (2%nat, Go); (1%nat, Go); (1%nat, Go); (1%nat, Go);
   (2%nat, Go); (2%nat, Go); (2%nat, Go); (2%nat, Go); (2%nat, Go); (2%nat, Go); (2%nat, Go); (2%nat, Go)].

Lemma local_cas_atomic_witness :
  let s := local_run ex_calls ex_race (local_init None true) in
  ls_log s = [(2%nat, RErrCAS); (1%nat, RTag (TagOf (OBytes "one")))] ∧ ls_pc s 2%nat = PDone RErrCAS
  ∧ kv_history ex_calls None (ls_log s) (Some (OBytes "one")).
Proof.
  destruct (local_cas_atomic ex_calls None true ex_race) as (Hh & _).
  - intros p. exact I.
  - split; [vm_compute; reflexivity|]. split; [vm_compute; reflexivity|exact Hh].
Defined.

(** An unlocked [Put] between a conditional write's compare and its rename is
    overwritten: no atomic history explains it.  Callers use [Put] on keys no
    one writes conditionally. *)
Definition ex_mixed (p : nat) : lop := if decide (p = 1%nat) then LPutIf (OBytes "one") NoTag else LPut (OBytes "two").

Example put_not_atomic :
  let s := local_run ex_mixed [(1%nat, Go); (1%nat, Go); (1%nat, Go); (1%nat, Go); (2%nat, Go); (1%nat, Go)] (local_init None false) in
  ls_log s = [(1%nat, RTag (TagOf (OBytes "one"))); (2%nat, RUnit)] ∧ ls_obj s = Some (OBytes "one")
  ∧ kv_apply (ex_mixed 1%nat) (Some (OBytes "two")) = (Some (OBytes "two"), RErrCAS).
Proof. vm_compute. done. Qed.

(** The atomic calls are those of [Backend]'s store on a quiet tick. *)
Lemma PutIf_is_kv_apply key o tag w :
  calm w →
  ∃ w', PutIf key o tag w = (match (kv_apply (LPutIf o tag) (w_objs w !! key)).2 with RTag e => Ok e | _ => Err [ErrCAS] end, w')
    ∧ w_objs w' !! key = (kv_apply (LPutIf o tag) (w_objs w !! key)).1.
Proof.
  intros Hc. rewrite PutIf_calm by done. unfold kv_apply. cbn [local_compare]. destruct (kv_match _ _); cbn.
  - eexists. split; [done|]. apply store_at_lookup.
  - by exists w.
Qed.

Lemma DeleteIf_is_kv_apply key tag w :
  calm w →
  ∃ w', DeleteIf key tag w = (match (kv_apply (LDeleteIf tag) (w_objs w !! key)).2 with RUnit => Ok tt | _ => Err [ErrCAS] end, w')
    ∧ w_objs w' !! key = (kv_apply (LDeleteIf tag) (w_objs w !! key)).1.
Proof.
  intros Hc. rewrite DeleteIf_calm by done. unfold kv_apply. cbn [local_compare].
  assert (kv_match (w_objs w !! key) tag && bool_decide (tag ≠ NoTag)
    = match w_objs w !! key with Some o => bool_decide (tag = TagOf o) | None => false end) as ->.
  { unfold kv_match. destruct (w_objs w !! key) as [o|], tag as [|o'|t]; try done.
    rewrite (bool_decide_eq_true_2 (TagOf o' ≠ NoTag)), andb_true_r by done. apply bool_decide_ext. naive_solver. }
  destruct (w_objs w !! key) as [o|] eqn:E; [|by exists w].
  destruct (bool_decide _); cbn; [eexists; split; [done|]; apply store_at_lookup|by exists w].
Qed.

(** ** Listing *)

Lemma before_last_slash_spec s d : before_last_slash s = Some d → ∃ r, s = d +:+ "/" +:+ r.
Proof.
  revert d. induction s as [|c s IH]; intros d; cbn [before_last_slash]; [done|].
  destruct (before_last_slash s) as [d'|].
  - intros [= <-]. destruct (IH d' eq_refl) as [r ->]. by exists r.
  - case_bool_decide as E; [|done]. intros [= <-]. exists s. by rewrite E.
Qed.

(** Walking only the prefix's directory misses nothing. *)
Lemma walked_prefix key prefix : HasPrefix key prefix = true → walked (listStart prefix) key = true.
Proof.
  rewrite HasPrefix_spec. intros [r ->]. unfold listStart. destruct (before_last_slash prefix) as [d|] eqn:E; [|done].
  destruct (path_ok d); [|done]. destruct (before_last_slash_spec _ _ E) as [r' ->]. cbn [walked]. apply orb_true_iff. right.
  apply HasPrefix_spec. exists (r' +:+ r). by rewrite !string_app_assoc.
Qed.

(** [List] is the specified listing of the files that are not lock files or
    temporaries. *)
Lemma local_list_is_kv files prefix :
  local_list files prefix = kv_list (filter (λ '(k, _), hidden k = false) files) prefix.
Proof.
  unfold local_list, kv_list. apply sort_by_unique; try apply _.
  { intros x y _ _. apply (anti_symm String.le). }
  apply NoDup_Permutation.
  - do 3 apply list.NoDup_filter. apply NoDup_fst_map_to_list.
  - apply list.NoDup_filter, NoDup_fst_map_to_list.
  - intros k. unfold kv_keys. rewrite !list_elem_of_filter, !list_elem_of_fmap. split.
    + intros (Hp & Hh & Hw & [[k' o] [-> Hin]]). split; [done|]. exists (k', o). split; [done|].
      apply elem_of_map_to_list in Hin. apply elem_of_map_to_list, map_lookup_filter_Some_2; done.
    + intros (Hp & [[k' o] [-> Hin]]). apply elem_of_map_to_list, map_lookup_filter_Some in Hin as [Hin Hh].
      split_and!; [done|done|by apply walked_prefix|]. exists (k', o). split; [done|]. by apply elem_of_map_to_list.
Qed.
