(* ===== verification/Gc.v ===== *)
(** * Garbage collection

    [internal/ops/gc.go]: the mark ([reachableObjectsAndHeads]), the tombstone
    list ([loadTombstones], [tombstone], [pruneTombstones]), [sweepDelete] and
    [GC].

    The mark resolves every chain through one memoizing backend ([markCache]):
    each lineage's listing and each base object is read once per pass, at a
    moment of its own, and reused after.  What it reads is thus one [view],
    which need not be the store at any one moment: [reads] takes it from the
    schedule, any assignment of answers and failures to keys and prefixes
    ([tk_view]), and only in a sequential run is it the store.  The memo tables
    of spines and chains hold results of that same view and are left out.  Go's three results of [GC]
    (two counts and an error) are a [gc_result]. *)
From Stdlib Require Import Ascii String.
From S2P Require Import Prelude GoStrings Keys Refs Backend Chain ChainFacts ChainProps Store.
Local Open Scope string_scope.

(** ** Mark *)

Record liveHead := mkHead { h_txid : N; h_epoch : N }.

(** The per-lineage minimum of head txid and epoch. *)
Definition add_head (heads : gmap string liveHead) (r : Ref) : gmap string liveHead :=
  match heads !! r_lineage r with
  | None => <[r_lineage r := mkHead (r_head_txid r) (r_epoch r)]> heads
  | Some h =>
      <[r_lineage r := mkHead
          (if (r_head_txid r <? h_txid h)%N then r_head_txid r else h_txid h)
          (if (r_epoch r <? h_epoch h)%N then r_epoch r else h_epoch h)]> heads
  end.

(** The base objects that exist along a spine: the ref's own when the spine is
    not empty, and each ancestor's when the walk continued past it. *)
Definition spine_bases (lineage : string) (spine : list string) : gset string :=
  (if decide (spine = []) then ∅ else {[BaseKey lineage]})
  ∪ list_to_set (BaseKey <$> take (length spine - 1) spine).

(** The transactions a ref keeps: its head and every checkpoint. *)
Definition ref_txids (r : Ref) : gset N :=
  {[r_head_txid r]} ∪ list_to_set (cp_txid <$> (map_to_list (r_checkpoints r)).*2).

Fixpoint mark_chains (v : view) (lineage : string) (txids : list N) (reachable : gset string)
    : res (gset string) :=
  match txids with
  | [] => Ok reachable
  | t :: txids =>
      members ← Chain v lineage t;
      mark_chains v lineage txids (reachable ∪ list_to_set (m_key <$> members))
  end.

Definition mark_ref (v : view) (r : Ref) (reachable : gset string) : res (gset string) :=
  spine ← BaseSpine v (r_lineage r);
  mark_chains v (r_lineage r) (elements (ref_txids r)) (reachable ∪ spine_bases (r_lineage r) spine).

Fixpoint mark (v : view) (live : list Ref) (reachable : gset string) (heads : gmap string liveHead)
    : res (gset string * gmap string liveHead) :=
  match live with
  | [] => Ok (reachable, heads)
  | r :: live =>
      reachable ← mark_ref v r reachable;
      mark v live reachable (add_head heads r)
  end.

(** The refs a listing names, databases in order. *)
Definition flat_refs (refs : gmap string (list string)) : list (string * string) :=
  db ← sort_by String.le (map_to_list refs).*1;
  (λ branch, (db, branch)) <$> default [] (refs !! db).

(** Read each listed ref; one destroyed since the listing is skipped. *)
Fixpoint read_live (names : list (string * string)) : IO (list Ref) :=
  match names with
  | [] => mret []
  | (db, branch) :: names =>
      r ← try (GetRef db branch);
      match r with
      | Err e => if errors_Is e ErrNotFound then read_live names else fail e
      | Ok (ref, _) => rest ← read_live names; mret (ref :: rest)
      end
  end.

Definition reachableObjectsAndHeads : IO (gset string * gmap string liveHead) :=
  refs ← ListRefs;
  live ← read_live (flat_refs refs);
  reads (λ v, mark v live ∅ ∅).

Definition reachableObjects : IO (gset string) :=
  '(reachable, _) ← reachableObjectsAndHeads;
  mret reachable.

(** ** Tombstones *)

Definition loadTombstones : IO (gmap string stamp * etag) :=
  r ← try (Get tombstoneKey);
  match r with
  | Err e => if errors_Is e ErrNotFound then mret (∅, NoTag) else fail e
  | Ok (OStones m, tag) => mret (m, tag)
  | Ok (_, _) => fail [ECorrupt]
  end.

Definition TombstoneBacklog : IO nat :=
  '(m, _) ← loadTombstones;
  mret (size m).

Definition tombstone (m : gmap string stamp) : IO unit :=
  '(cur, tag) ← loadTombstones;
  _ ← PutIf tombstoneKey (OStones (m ∪ cur)) tag;
  mret tt.

Definition without (keys : list string) (m : gmap string stamp) : gmap string stamp :=
  foldr delete m keys.

Fixpoint prune_attempts (attempts : nat) (keys : list string) (lastErr : error) : IO unit :=
  match attempts with
  | O => fail lastErr
  | S attempts =>
      '(cur, tag) ← loadTombstones;
      if bool_decide (without keys cur = cur) then mret tt
      else
        r ← try (PutIf tombstoneKey (OStones (without keys cur)) tag);
        match r with
        | Ok _ => mret tt
        | Err e => if errors_Is e ErrCAS then prune_attempts attempts keys e else fail e
        end
  end.

Definition pruneTombstones (keys : list string) : IO unit :=
  if bool_decide (keys = []) then mret tt else prune_attempts 8 keys [].

(** ** Sweep *)

(** Per-key deletion, stopping at the first error: the keys deleted, and the
    error if there was one. *)
Fixpoint sweep_each (keys : list string) : IO (list string * option error) :=
  match keys with
  | [] => mret ([], None)
  | key :: keys =>
      r ← try (Delete key);
      match r with
      | Err e => mret ([], Some e)
      | Ok _ => '(deleted, err) ← sweep_each keys; mret (key :: deleted, err)
      end
  end.

(** In batches when the backend can, else key by key. *)
Definition sweepDelete (keys : list string) : IO (list string * option error) :=
  c ← get_caps;
  if c_batch c then DeleteObjects keys else sweep_each keys.

(** The compensating rule: a member above a live head of its own lineage, at an
    epoch the current writer may still commit, is never deleted. *)
Definition compensated (heads : gmap string liveHead) (key : string) : bool :=
  match ParseMemberKey key, lineageOfDataKey key with
  | Some m, Some lineage =>
      match heads !! lineage with
      | Some h => (h_txid h <? m_max m)%N && (h_epoch h <=? m_epoch m)%N
      | None => false
      end
  | _, _ => false
  end.

Record gc_result := mkGC { g_tombstoned : nat; g_deleted : nat; g_err : option error }.

(** A stone whose timestamp parses and lies before [cutoff]. *)
Definition aged (markedAt : stamp) (cutoff : Z) : bool :=
  match parse_stamp markedAt with Some ts => (ts <? cutoff)%Z | None => false end.

(** Stones old enough to be swept and not minted by this run. *)
Definition eligible (stones newStones : gmap string stamp) (cutoff : Z) : list string :=
  (map_to_list (filter (λ '(k, markedAt), newStones !! k = None ∧ aged markedAt cutoff = true) stones)).*1.

(** Phase 2 after the re-mark: prune what is reachable again or gone, delete the
    rest but for the compensating rule, and persist the removals. *)
Definition gc_apply (reMark : gset string) (liveHeads : gmap string liveHead)
    (existing keys : list string) (tombstoned : nat) : IO gc_result :=
  let pruned := filter (λ k, k ∈ reMark ∨ k ∉ existing) keys in
  let toDelete := sort_by String.le
    (filter (λ k, k ∉ reMark ∧ k ∈ existing ∧ compensated liveHeads k = false) keys) in
  '(succeeded, derr) ← sweepDelete toDelete;
  p ← try (pruneTombstones (pruned ++ succeeded)%list);
  mret (mkGC tombstoned (length succeeded)
    match derr, p with
    | Some d, Err pe => Some (d ++ pe)%list
    | Some d, Ok _ => Some d
    | None, Err pe => Some pe
    | None, Ok _ => None
    end).

Definition gc_sweep (keys : list string) (tombstoned : nat) : IO gc_result :=
  m ← try reachableObjectsAndHeads;
  match m with
  | Err e => mret (mkGC tombstoned 0 (Some e))
  | Ok (reMark, liveHeads) =>
      l ← try (ListKeys "data/");
      match l with
      | Err e => mret (mkGC tombstoned 0 (Some e))
      | Ok existing => gc_apply reMark liveHeads existing keys tombstoned
      end
  end.

Definition GC (grace : Z) : IO gc_result :=
  r ← try (
    reachable ← reachableObjects;
    all ← ListKeys "data/";
    '(stones, _) ← loadTombstones;
    t ← now;
    let fresh := filter (λ k, k ∉ reachable ∧ stones !! k = None) all in
    mret (stones, fresh, list_to_map ((λ k, (k, At t)) <$> fresh) : gmap string stamp));
  match r with
  | Err e => mret (mkGC 0 0 (Some e))
  | Ok (stones, fresh, newStones) =>
      let tombstoned := length fresh in
      r2 ← try (if bool_decide (newStones = ∅) then mret stones
                else _ ← tombstone newStones; '(s, _) ← loadTombstones; mret s);
      match r2 with
      | Err e => mret (mkGC tombstoned 0 (Some e))
      | Ok stones =>
          t ← now;
          let keys := eligible stones newStones (t - grace)%Z in
          if bool_decide (keys = []) then mret (mkGC tombstoned 0 None)
          else gc_sweep keys tombstoned
      end
  end.

(** ** What the mark covers *)

(** [R] holds everything [r] needs in [v]. *)
Definition covers_ref (v : view) (R : gset string) (r : Ref) : Prop :=
  (∃ spine, BaseSpine v (r_lineage r) = Ok spine ∧ spine_bases (r_lineage r) spine ⊆ R)
  ∧ (∀ t, t ∈ ref_txids r → ∃ c, Chain v (r_lineage r) t = Ok c ∧ ∀ x, x ∈ c → m_key x ∈ R).

Lemma mark_chains_ok v L ts R R' :
  mark_chains v L ts R = Ok R' →
  R ⊆ R' ∧ ∀ t, t ∈ ts → ∃ c, Chain v L t = Ok c ∧ ∀ x, x ∈ c → m_key x ∈ R'.
Proof.
  revert R. induction ts as [|t ts IH]; intros R; simpl; [intros [= <-]; set_solver|].
  intros (c & Hc & H)%res_bind_ok. apply IH in H as [Hsub H]. split; [set_solver|].
  intros t' [->|Ht]%elem_of_cons; [|by apply H]. exists c. split; [done|]. intros x Hx.
  apply Hsub, elem_of_union_r, elem_of_list_to_set. by apply list_elem_of_fmap_2.
Qed.

Lemma covers_ref_mono v R R' r : R ⊆ R' → covers_ref v R r → covers_ref v R' r.
Proof.
  intros Hsub [(sp & Hs & Hb) H]. split; [exists sp; split; [done|set_solver]|].
  intros t Ht. destruct (H t Ht) as (c & Hc & Hk). exists c. split; [done|]. intros x Hx. by apply Hsub, Hk.
Qed.

Lemma mark_ref_ok v r R R' : mark_ref v r R = Ok R' → R ⊆ R' ∧ covers_ref v R' r.
Proof.
  unfold mark_ref. intros (spine & Hs & [Hsub H]%mark_chains_ok)%res_bind_ok.
  split; [set_solver|]. split; [exists spine; split; [done|set_solver]|].
  intros t Ht. apply H. by apply elem_of_elements.
Qed.

Lemma mark_ok v live R heads R' heads' :
  mark v live R heads = Ok (R', heads') → R ⊆ R' ∧ Forall (covers_ref v R') live.
Proof.
  revert R heads. induction live as [|r live IH]; intros R heads; simpl.
  - intros [= <- <-]. by split.
  - intros (R1 & H1%mark_ref_ok & H%IH)%res_bind_ok. destruct H1 as [Hs1 Hc1], H as [Hs Hf].
    split; [set_solver|]. constructor; [by eapply covers_ref_mono|done].
Qed.

(** A live head is at most every live ref's head and epoch. *)
Definition heads_below (heads : gmap string liveHead) (r : Ref) : Prop :=
  ∃ h, heads !! r_lineage r = Some h ∧ (h_txid h <= r_head_txid r)%N ∧ (h_epoch h <= r_epoch r)%N.

Lemma add_head_self heads r : heads_below (add_head heads r) r.
Proof.
  unfold heads_below, add_head. destruct (heads !! r_lineage r) as [h|] eqn:E;
    rewrite lookup_insert_eq; eexists; (split; [done|]); simpl; repeat case_match; bool_to_prop; lia.
Qed.

Lemma add_head_other heads r r' : heads_below heads r → heads_below (add_head heads r') r.
Proof.
  intros (h & Hh & ? & ?). unfold heads_below, add_head.
  destruct (decide (r_lineage r' = r_lineage r)) as [E|E].
  - rewrite E, Hh, lookup_insert_eq. eexists. split; [done|]. simpl.
    repeat case_match; bool_to_prop; lia.
  - exists h. split; [|done]. by destruct (heads !! r_lineage r'); rewrite lookup_insert_ne.
Qed.

Lemma mark_heads v live R heads R' heads' r :
  mark v live R heads = Ok (R', heads') → r ∈ live ∨ heads_below heads r → heads_below heads' r.
Proof.
  revert R heads. induction live as [|r0 live IH]; intros R heads; simpl.
  - intros [= <- <-] [?|?]; [set_solver|done].
  - intros (R1 & _ & H)%res_bind_ok Hr. eapply IH; [exact H|].
    destruct Hr as [[->|Hin]%elem_of_cons|Hb]; [right; apply add_head_self|by left|right; by apply add_head_other].
Qed.

(** ** Every deletion is justified, on every schedule *)

(** No ref of [live] needs [k] in [v], nor can a current writer of one commit
    it. *)
Definition unneeded (v : view) (live : list Ref) (k : string) : Prop :=
  ∀ r, r ∈ live →
    (∀ t, t ∈ ref_txids r → ∃ c, Chain v (r_lineage r) t = Ok c ∧ k ∉ m_key <$> c)
    ∧ (∃ spine, BaseSpine v (r_lineage r) = Ok spine ∧ k ∉ spine_bases (r_lineage r) spine)
    ∧ (∀ m, ParseMemberKey k = Some m → lineageOfDataKey k = Some (r_lineage r) →
         (m_max m <= r_head_txid r)%N ∨ (m_epoch m < r_epoch r)%N).

Lemma mark_unneeded v live R heads k :
  mark v live ∅ ∅ = Ok (R, heads) → k ∉ R → compensated heads k = false → unneeded v live k.
Proof.
  intros Hm Hk Hc r Hr. pose proof (mark_ok _ _ _ _ _ _ Hm) as [_ Hf].
  rewrite Forall_forall in Hf. destruct (Hf r Hr) as [(sp & Hs & Hb) Ht]. split_and!.
  - intros t Htx. destruct (Ht t Htx) as (c & Hcc & Hx). exists c. split; [done|].
    intros (x & -> & Hin)%list_elem_of_fmap. by apply Hk, Hx.
  - exists sp. split; [done|]. set_solver.
  - intros m Hp Hl. destruct (mark_heads _ _ _ _ _ _ r Hm (or_introl Hr)) as (h & Hh & Htx & He).
    unfold compensated in Hc. rewrite Hp, Hl, Hh in Hc. apply andb_false_iff in Hc as [Hc|Hc]; bool_to_prop; lia.
Qed.

(** What GC writes: the tombstone list, and deletions of objects under data/
    that the refs it had just read do not need. *)
Definition gc_guar (x : write) : Prop :=
  (wr_key x = tombstoneKey ∧ ∃ m, wr_after x = Some (OStones m))
  ∨ (wr_after x = None ∧ HasPrefix (wr_key x) "data/" = true
     ∧ ∃ v live, unneeded v live (wr_key x)).

Lemma spec_read_live P names : spec P (λ _, True) (read_live names).
Proof.
  induction names as [|[db branch] names IH]; simpl; [by apply spec_ret|].
  eapply spec_bind; [apply spec_try, spec_GetRef|]. intros [[ref tag]|e] _; simpl.
  - eapply spec_bind; [exact IH|]. intros. by apply spec_ret.
  - destruct (errors_Is e ErrNotFound); [exact IH|apply spec_fail].
Qed.

Lemma spec_ListRefs P : spec P (λ _, True) ListRefs.
Proof.
  unfold ListRefs. eapply spec_bind; [apply spec_ListKeys|]. intros. by apply spec_lift.
Qed.

Lemma spec_reachable P :
  spec P (λ '(R, heads), ∃ v live, mark v live ∅ ∅ = Ok (R, heads)) reachableObjectsAndHeads.
Proof.
  unfold reachableObjectsAndHeads. eapply spec_bind; [apply spec_ListRefs|]. intros refs _.
  eapply spec_bind; [apply spec_read_live|]. intros live _.
  eapply spec_weaken; [|apply spec_reads]. intros [R heads] [v Hv]. eauto.
Qed.

Lemma spec_loadTombstones P : spec P (λ _, True) loadTombstones.
Proof.
  unfold loadTombstones. eapply spec_bind; [apply spec_try, spec_Get|]. intros [[[] tag]|e] _; simpl;
    try apply spec_fail; try by apply spec_ret. destruct (errors_Is e ErrNotFound); [by apply spec_ret|apply spec_fail].
Qed.

(** A write of the tombstone list. *)
Definition tomb_write (x : write) : Prop :=
  wr_key x = tombstoneKey ∧ ∃ m, wr_after x = Some (OStones m).

Lemma spec_tombstone m : spec tomb_write (λ _, True) (tombstone m).
Proof.
  unfold tombstone. eapply spec_bind; [apply spec_loadTombstones|]. intros [cur tag] _.
  eapply spec_bind; [apply spec_PutIf|intros; by apply spec_ret]. intros b τ _. split; simpl; eauto.
Qed.

Lemma spec_prune_attempts n keys e : spec tomb_write (λ _, True) (prune_attempts n keys e).
Proof.
  revert e. induction n as [|n IH]; intros e; simpl; [apply spec_fail|].
  eapply spec_bind; [apply spec_loadTombstones|]. intros [cur tag] _.
  destruct (bool_decide _); [by apply spec_ret|].
  eapply spec_bind; [apply spec_try, spec_PutIf|]. { intros b τ _. split; simpl; eauto. }
  intros [t|e'] _; simpl; [by apply spec_ret|]. destruct (errors_Is e' ErrCAS); [apply IH|apply spec_fail].
Qed.

Lemma spec_pruneTombstones keys : spec tomb_write (λ _, True) (pruneTombstones keys).
Proof. unfold pruneTombstones. destruct (bool_decide _); [by apply spec_ret|apply spec_prune_attempts]. Qed.

Lemma spec_sweep_each (P : write → Prop) keys :
  (∀ k b τ, k ∈ keys → P (mkWrite k b None τ)) → spec P (λ _, True) (sweep_each keys).
Proof.
  induction keys as [|k keys IH]; intros HP; simpl; [by apply spec_ret|].
  eapply spec_bind; [apply spec_try, spec_Delete; intros; apply HP; set_solver|].
  intros [u|e] _; simpl; [|by apply spec_ret].
  eapply spec_bind; [apply IH; intros; apply HP; set_solver|]. intros [d e] _. by apply spec_ret.
Qed.

Lemma spec_DeleteObjects (P : write → Prop) keys :
  (∀ k b τ, k ∈ keys → P (mkWrite k b None τ)) → spec P (λ _, True) (DeleteObjects keys).
Proof.
  induction keys as [|k keys IH]; intros HP; simpl; [by apply spec_ret|].
  eapply spec_bind; [apply spec_try, spec_Delete; intros; apply HP; set_solver|]. intros r _.
  eapply spec_bind; [apply IH; intros; apply HP; set_solver|]. intros [d e] _. by destruct r; apply spec_ret.
Qed.

Lemma spec_sweepDelete (P : write → Prop) keys :
  (∀ k b τ, k ∈ keys → P (mkWrite k b None τ)) → spec P (λ _, True) (sweepDelete keys).
Proof.
  intros HP. unfold sweepDelete. eapply spec_bind; [apply spec_caps|]. intros c _.
  destruct (c_batch c); [by apply spec_DeleteObjects|by apply spec_sweep_each].
Qed.

Lemma spec_ListKeys_prefix P p : spec P (Forall (λ k, HasPrefix k p = true)) (ListKeys p).
Proof.
  intros w r w' E. unfold ListKeys in E. destruct (next_tick w) as [t w1] eqn:Et.
  repeat (break_match_hyp; simplify_eq/=); (split; [by eapply writes_tick|]); try done.
  intros a [= <-]. apply Forall_forall. intros k [_ ?]%elem_of_kv_list. done.
Qed.

(** A deletion of an object the re-mark did not reach, or a write of the
    tombstone list. *)
Definition sweep_write (reMark : gset string) (heads : gmap string liveHead)
    (existing keys : list string) (x : write) : Prop :=
  tomb_write x
  ∨ (wr_after x = None ∧ wr_key x ∉ reMark ∧ wr_key x ∈ existing
     ∧ compensated heads (wr_key x) = false ∧ wr_key x ∈ keys).

Lemma spec_gc_apply reMark heads existing keys n :
  spec (sweep_write reMark heads existing keys) (λ _, True) (gc_apply reMark heads existing keys n).
Proof.
  unfold gc_apply. eapply spec_bind; [apply spec_sweepDelete|].
  - intros k b τ Hk. rewrite elem_of_sort_by, list_elem_of_filter in Hk. right. naive_solver.
  - intros [succ derr] _. eapply spec_bind; [|intros p _; by apply spec_ret].
    eapply spec_mono; [|apply spec_try, spec_pruneTombstones]. by left.
Qed.

Lemma spec_gc_sweep keys n : spec gc_guar (λ _, True) (gc_sweep keys n).
Proof.
  unfold gc_sweep. eapply spec_bind; [apply spec_try, spec_reachable|].
  intros [[reMark heads]|e] Hm; simpl; [|by apply spec_ret].
  destruct (Hm _ eq_refl) as (v & live & Hmark).
  eapply spec_bind; [apply spec_try, spec_ListKeys_prefix|]. intros [existing|e] Hex; simpl; [|by apply spec_ret].
  specialize (Hex _ eq_refl). rewrite Forall_forall in Hex.
  eapply spec_mono; [|apply spec_gc_apply]. intros x [Ht|(Ha & Hn & Hin & Hc & _)]; [by left|].
  right. split_and!; [done|by apply Hex|]. exists v, live. by eapply mark_unneeded.
Qed.

Lemma spec_GC grace : spec gc_guar (λ _, True) (GC grace).
Proof.
  unfold GC. eapply spec_bind with (Q := λ _, True).
  { eapply spec_weaken; [|apply spec_try with (Q := λ _, True)]; [done|].
    eapply spec_bind with (Q := λ _, True).
    { unfold reachableObjects. eapply spec_bind; [apply spec_reachable|]. intros [??] _. by apply spec_ret. }
    intros reach _. eapply spec_bind; [apply spec_ListKeys|]. intros all _.
    eapply spec_bind; [apply spec_loadTombstones|]. intros [stones tag] _.
    eapply spec_bind; [apply spec_now|]. intros t _. by apply spec_ret. }
  intros [[[stones fresh] newStones]|e] _; simpl; [|by apply spec_ret].
  eapply spec_bind with (Q := λ _, True).
  { eapply spec_weaken; [|apply spec_try with (Q := λ _, True)]; [done|].
    destruct (bool_decide _); [by apply spec_ret|].
    eapply spec_bind; [eapply spec_mono; [|apply spec_tombstone]; by left|]. intros _ _.
    eapply spec_bind; [apply spec_loadTombstones|]. intros [s tag] _. by apply spec_ret. }
  intros [s|e] _; simpl; [|by apply spec_ret].
  eapply spec_bind; [apply spec_now|]. intros t _.
  destruct (bool_decide _); [by apply spec_ret|apply spec_gc_sweep].
Qed.
