(* ===== verification/GcProps.v ===== *)
(** * Garbage collection: the theorems

    On every schedule, what a pass deletes is unneeded by the refs it read; in a
    sequential run the refs it read are all there are, so no chain of a live
    ref is broken, and nothing is deleted that was not tombstoned for the whole
    grace period before. *)
From Stdlib Require Import Ascii String.
From S2P Require Import Prelude GoStrings Keys Refs Backend Chain ChainFacts ChainProps Store Lease Gc.
Local Open Scope string_scope.

(** ** Stores that agree under data/ *)

Lemma kv_list_dom m m' p :
  (∀ k, HasPrefix k p = true → is_Some (m !! k) ↔ is_Some (m' !! k)) → kv_list m p = kv_list m' p.
Proof.
  intros H. apply (StronglySorted_unique String.le); [apply sort_by_sorted; apply _..|].
  apply NoDup_Permutation; [apply kv_list_NoDup..|]. intros k. rewrite !elem_of_kv_list. naive_solver.
Qed.

Definition same_data (m m' : objs) : Prop := ∀ k, HasPrefix k "data/" = true → m !! k = m' !! k.

Lemma LineagePrefix_data k L : HasPrefix k (LineagePrefix L) = true → HasPrefix k "data/" = true.
Proof.
  rewrite !HasPrefix_spec. intros [t ->]. unfold LineagePrefix. rewrite !string_app_assoc. eauto.
Qed.

Lemma BaseKey_data L : HasPrefix (BaseKey L) "data/" = true.
Proof. apply HasPrefix_app. Qed.

Lemma same_data_base m m' L :
  same_data m m' → lineageBase (view_of m) L = lineageBase (view_of m') L.
Proof. intros H. rewrite !lineageBase_view_of, H by apply BaseKey_data. done. Qed.

Lemma same_data_members m m' L : same_data m m' → members (view_of m) L = members (view_of m') L.
Proof.
  intros H. unfold members. simpl. f_equal. apply kv_list_dom. intros k Hk.
  by rewrite (H k (LineagePrefix_data _ _ Hk)).
Qed.

Lemma same_data_Chain m m' L t :
  same_data m m' → Chain (view_of m) L t = Chain (view_of m') L t.
Proof.
  intros H. apply (Chain_ext (λ _, True)); [apply view_of_ok..| |done]. intros L0 _.
  rewrite (same_data_base m m') by done. split_and!; [done| |done].
  by rewrite !listMembers_view_of, (same_data_members m m').
Qed.

Lemma same_data_wf m m' : same_data m m' → wf_store m → wf_store m'.
Proof.
  intros H [Hb Hm]. split.
  - intros L b E. rewrite <-H in E by apply BaseKey_data. by eapply Hb.
  - intros k o x E Hx. rewrite <-H in E by by eapply ParseMemberKey_data. by eapply Hm.
Qed.

Lemma same_data_above m m' : same_data m m' → above_base (view_of m) → above_base (view_of m').
Proof.
  intros H Ha L b. rewrite <-(same_data_base m m'), <-(same_data_members m m') by done. apply Ha.
Qed.

(** ** Reading in a sequential run *)

Lemma GetRef_calm_world db branch w : calm w → (GetRef db branch w).2 = w.
Proof.
  intros Hc. unfold GetRef. rewrite io_bind_eq. unfold try. rewrite Get_calm by done.
  destruct (kv_get (w_objs w) (RefKey db branch)) as [[o t]|e]; simpl.
  - destruct o; try done. by destruct (decodeRef w0).
  - destruct (errors_Is e ErrNotFound); [|done].
    unfold describeMissingRef. rewrite !io_bind_eq. unfold try. by rewrite ListKeys_calm.
Qed.

Definition live_complete (m : objs) (live : list Ref) : Prop :=
  ∀ db br wire r, ValidateName db = Ok tt → ValidateName br = Ok tt →
    m !! RefKey db br = Some (ORef wire) → decodeRef wire = Ok r → r ∈ live.

Lemma read_live_calm names w :
  calm w → (read_live names w).2 = w
  ∧ ∀ live, (read_live names w).1 = Ok live →
    ∀ db br wire r, (db, br) ∈ names → w_objs w !! RefKey db br = Some (ORef wire) →
      decodeRef wire = Ok r → r ∈ live.
Proof.
  intros Hc. induction names as [|[db0 br0] names [IHw IHl]]; simpl; [split; [done|set_solver]|].
  pose proof (GetRef_calm_world db0 br0 w Hc) as Hw.
  rewrite io_bind_eq. unfold try. destruct (GetRef db0 br0 w) as [[[ref tag]|e] w0] eqn:Eg; simpl in Hw; subst w0.
  - rewrite io_bind_eq. destruct (read_live names w) as [[rest|e] w1]; simpl in *; [|done].
    split; [done|]. intros live [= <-] db br wire r [[= -> ->]|Hin]%elem_of_cons Ho Hd.
    + rewrite (GetRef_calm _ _ _ wire r) in Eg by done. simplify_eq. set_solver.
    + apply elem_of_cons. right. by eapply IHl.
  - destruct (errors_Is e ErrNotFound) eqn:Ee; [|done]. split; [done|].
    intros live Hl db br wire r [[= -> ->]|Hin]%elem_of_cons Ho Hd; [|by eapply IHl].
    by rewrite (GetRef_calm _ _ _ wire r) in Eg by done.
Qed.

Lemma list_refs_keeps keys m0 m db br :
  list_refs keys m0 = Ok m → br ∈ default [] (m0 !! db) → br ∈ default [] (m !! db).
Proof.
  revert m0. induction keys as [|k keys IH]; intros m0; simpl.
  - intros [= <-] H. rewrite lookup_fmap. destruct (m0 !! db); simpl in *; [|done].
    by rewrite elem_of_sort_by.
  - destruct (Split k slash) as [|a [|d [|b [|]]]]; try apply IH.
    intros (u & _ & (u' & _ & H)%res_bind_ok)%res_bind_ok Hb. eapply IH; [exact H|].
    destruct (decide (d = db)) as [->|].
    + rewrite lookup_insert_eq. simpl. set_solver.
    + by rewrite lookup_insert_ne.
Qed.

Lemma list_refs_complete keys m0 m k a db br :
  list_refs keys m0 = Ok m → k ∈ keys → Split k slash = [a; db; br] → br ∈ default [] (m !! db).
Proof.
  revert m0. induction keys as [|k0 keys IH]; intros m0; simpl; [set_solver|].
  intros H [<-|Hk]%elem_of_cons Hs.
  - rewrite Hs in H. apply res_bind_ok in H as (u & _ & (u' & _ & H)%res_bind_ok).
    eapply list_refs_keeps; [exact H|]. rewrite lookup_insert_eq. simpl. set_solver.
  - destruct (Split k0 slash) as [|? [|? [|? [|]]]]; try by eapply IH.
    apply res_bind_ok in H as (u & _ & (u' & _ & H)%res_bind_ok). by eapply IH.
Qed.

Lemma elem_of_flat_refs refs db br : br ∈ default [] (refs !! db) → (db, br) ∈ flat_refs refs.
Proof.
  intros H. unfold flat_refs. apply list_elem_of_bind. exists db. split.
  - apply list_elem_of_fmap_2. done.
  - rewrite elem_of_sort_by. apply list_elem_of_fmap. destruct (refs !! db) as [l|] eqn:E; [|set_solver].
    exists (db, l). by rewrite elem_of_map_to_list.
Qed.

Lemma Split_RefKey db br :
  ValidateName db = Ok tt → ValidateName br = Ok tt → Split (RefKey db br) slash = ["refs"; db; br].
Proof.
  intros Hd%ValidateName_no_slash Hb%ValidateName_no_slash. unfold RefKey.
  change ("refs/" +:+ db +:+ "/" +:+ br) with ("refs" +:+ "/" +:+ db +:+ "/" +:+ br).
  by rewrite Split_slash2.
Qed.

(** In a sequential run the mark sees the whole store, and every ref. *)
Lemma reach_calm w :
  calm w → (reachableObjectsAndHeads w).2 = w
  ∧ ∀ R heads, (reachableObjectsAndHeads w).1 = Ok (R, heads) →
    ∃ live, mark (view_of (w_objs w)) live ∅ ∅ = Ok (R, heads) ∧ live_complete (w_objs w) live.
Proof.
  intros Hc. unfold reachableObjectsAndHeads, ListRefs. rewrite io_bind_eq.
  rewrite io_bind_eq, ListKeys_calm by done. unfold lift.
  destruct (list_refs _ _) as [refs|e] eqn:Er; [|done].
  rewrite io_bind_eq. destruct (read_live_calm (flat_refs refs) w Hc) as [Hw Hl].
  destruct (read_live (flat_refs refs) w) as [[live|e] w1]; simpl in *; [|done]. subst w1.
  rewrite reads_calm by done. split; [done|]. intros R heads Hm. exists live. split; [done|].
  intros db br wire r Hd Hb Ho Hdec. eapply Hl; [done| |done|done].
  apply elem_of_flat_refs. eapply list_refs_complete; [exact Er| |by apply Split_RefKey].
  apply elem_of_kv_list. split; [by eexists|]. apply HasPrefix_app.
Qed.

(** ** What a sequential pass leaves behind *)

(** Every chain a ref of [m] needs resolves in [m'] to the same members. *)
Definition chains_preserved (m m' : objs) : Prop :=
  ∀ db br wire r t c,
    ValidateName db = Ok tt → ValidateName br = Ok tt →
    m !! RefKey db br = Some (ORef wire) → decodeRef wire = Ok r → t ∈ ref_txids r → u64 t →
    Chain (view_of m) (r_lineage r) t = Ok c → Chain (view_of m') (r_lineage r) t = Ok c.

Lemma replay_sweep R heads ex keys l m k :
  Forall (sweep_write R heads ex keys) l → k ≠ tombstoneKey →
  replay l m !! k = m !! k
  ∨ (replay l m !! k = None ∧ k ∉ R ∧ compensated heads k = false ∧ k ∈ keys).
Proof.
  intros Hf Hk. induction Hf as [|x l Hx Hf IH]; simpl; [by left|].
  destruct (decide (wr_key x = k)) as [<-|Hne].
  - rewrite lookup_partial_alter_eq. destruct Hx as [[? _]|(-> & ? & _ & ? & ?)]; [done|]. by right.
  - by rewrite lookup_partial_alter_ne.
Qed.

Lemma replay_tomb l m k : Forall tomb_write l → k ≠ tombstoneKey → replay l m !! k = m !! k.
Proof.
  intros Hf Hk. induction Hf as [|x l [Hx _] Hf IH]; simpl; [done|].
  rewrite lookup_partial_alter_ne by congruence. done.
Qed.

Lemma data_not_tombstone k : HasPrefix k "data/" = true → k ≠ tombstoneKey.
Proof. intros H ->. vm_compute in H. done. Qed.

Lemma spine_bases_cons L x sp :
  spine_bases x sp ⊆ spine_bases L (x :: sp) ∧ BaseKey L ∈ spine_bases L (x :: sp).
Proof.
  unfold spine_bases. split; [|set_solver]. destruct sp as [|y sp]; [set_solver|].
  simpl. rewrite Nat.sub_0_r. set_solver.
Qed.

Lemma spine_bases_in v L bs L' :
  spine_of v L bs → L' ∈ L :: (bp_lineage <$> bs) →
  lineageBase v L' = Ok None ∨ BaseKey L' ∈ spine_bases L (bp_lineage <$> bs).
Proof.
  intros Hs. induction Hs as [L Hb|L b bs Hb Hs IH].
  - intros ->%list_elem_of_singleton. by left.
  - rewrite fmap_cons. destruct (spine_bases_cons L (bp_lineage b) (bp_lineage <$> bs)) as [Hsub Hin].
    intros [->|HL']%elem_of_cons; [by right|]. destruct (IH HL'); [by left|]. right. by apply Hsub.
Qed.

Lemma chains_preserved_refl m : chains_preserved m m.
Proof. intros db br wire r t c Hd Hb Ho Hdec Ht Hu Hc. exact Hc. Qed.

(** Deleting unmarked objects keeps every chain of a complete mark. *)
Lemma sweep_preserves m live R heads ex keys l :
  wf_store m → above_base (view_of m) → mark (view_of m) live ∅ ∅ = Ok (R, heads) →
  live_complete m live → Forall (sweep_write R heads ex keys) l → chains_preserved m (replay l m).
Proof.
  intros Hwf Hab Hm Hlive Hl db br wire r t c Hdb Hbr Ho Hd Ht Hu Hc.
  pose proof (mark_ok _ _ _ _ _ _ Hm) as [_ Hcov]. rewrite Forall_forall in Hcov.
  destruct (Hcov r (Hlive _ _ _ _ Hdb Hbr Ho Hd)) as [(sp & Hsp & Hbases) Hchains].
  destruct (Hchains t Ht) as (c' & Hc' & Hkeys). assert (c' = c) as -> by congruence.
  apply BaseSpine_sound in Hsp as (bs & Ha & ->).
  set (m' := replay l m). set (D := dom m ∖ dom m').
  assert (∀ k, k ∈ R → k ≠ tombstoneKey → k ∉ D) as HRD.
  { intros k Hk Hne HkD. unfold D in HkD. apply elem_of_difference in HkD as [Hin Hnin].
    destruct (replay_sweep R heads ex keys l m k Hl Hne) as [E|(_ & ? & _)]; [|done].
    apply Hnin, elem_of_dom. unfold m'. rewrite E. by apply elem_of_dom. }
  rewrite <-(same_data_Chain (kv_remove D m) m').
  - apply (Chain_removal D m _ bs); try done.
    + intros x Hx. apply HRD; [by apply Hkeys|].
      apply (Chain_exact_lemma m _ bs t c Hwf Ha Hu) in Hc.
      apply data_not_tombstone. by eapply resolves_data.
    + intros L' HL'. destruct (spine_bases_in _ _ _ L' (proj1 Ha) HL') as [Hn|Hin].
      * rewrite lineageBase_view_of in Hn. unfold D. rewrite elem_of_difference, elem_of_dom.
        destruct (m !! BaseKey L') as [[]|]; [done..|]. intros [[? ?] _]. done.
      * apply HRD; [by apply Hbases|]. apply data_not_tombstone, BaseKey_data.
  - intros k Hk. rewrite kv_remove_lookup. unfold D.
    destruct (replay_sweep R heads ex keys l m k Hl (data_not_tombstone _ Hk)) as [E|(E & _)]; fold m' in E; rewrite E.
    + case_decide as HD; [|done]. apply elem_of_difference in HD as [HD1 HD2].
      destruct HD2. apply elem_of_dom. rewrite E. by apply elem_of_dom.
    + case_decide as HD; [done|]. destruct (m !! k) as [o|] eqn:Ek; [|done]. destruct HD.
      apply elem_of_difference. rewrite !elem_of_dom, E, Ek. split; [done|]. intros [? ?]. done.
Qed.

(** *** The steps of a sequential pass *)

Lemma loadTombstones_calm w :
  calm w →
  loadTombstones w =
  (match w_objs w !! tombstoneKey with
   | None => Ok (∅, NoTag)
   | Some (OStones m) => Ok (m, TagOf (OStones m))
   | Some _ => Err [ECorrupt]
   end, w).
Proof.
  intros Hc. unfold loadTombstones. rewrite io_bind_eq. unfold try. rewrite Get_calm by done.
  unfold kv_get. by destruct (w_objs w !! tombstoneKey) as [[]|].
Qed.

(** The stones the store holds; none when there is no list. *)
Definition stones_of (m : objs) : option (gmap string stamp) :=
  match m !! tombstoneKey with
  | None => Some ∅
  | Some (OStones s) => Some s
  | Some _ => None
  end.

Lemma loadTombstones_stones w s tag :
  calm w → (loadTombstones w).1 = Ok (s, tag) → stones_of (w_objs w) = Some s
  ∧ kv_match (w_objs w !! tombstoneKey) tag = true.
Proof.
  intros Hc. rewrite loadTombstones_calm by done. unfold stones_of. simpl.
  destruct (w_objs w !! tombstoneKey) as [[]|]; intros; simplify_eq; split; try done.
  apply kv_match_self.
Qed.

(** Phase 1 writes the new stones over the old ones. *)
Lemma tombstone_calm s new w :
  calm w → stones_of (w_objs w) = Some s →
  ∃ w1, tombstone new w = (Ok tt, w1) ∧ calm w1 ∧ w_now w1 = w_now w
        ∧ w_objs w1 = <[tombstoneKey := OStones (new ∪ s)]> (w_objs w).
Proof.
  intros Hc Hs. unfold tombstone. rewrite io_bind_eq, loadTombstones_calm by done.
  unfold stones_of in Hs. destruct (w_objs w !! tombstoneKey) as [[]|] eqn:E; simplify_eq;
    rewrite io_bind_eq, PutIf_calm, E by done; rewrite ?kv_match_self; simpl;
    (eexists; split_and!; [reflexivity|done|done|done]).
Qed.

(** A pass, in a sequential run: the state in which its sweep starts, if it
    gets there. *)
Inductive gc_run (grace : Z) (w : world) (r : res gc_result) (w' : world) : Prop :=
  | run_aborted :
      w_objs w' = w_objs w →
      is_ok (reachableObjectsAndHeads w).1 = false ∨ stones_of (w_objs w) = None →
      gc_run grace w r w'
  | run_marked s new w1 :
      stones_of (w_objs w) = Some s → calm w1 → w_now w1 = w_now w →
      (∀ k, new !! k = Some (At (w_now w)) ∧ s !! k = None ∨ new !! k = None) →
      (new = ∅ ∧ w1 = w ∨ w_objs w1 = <[tombstoneKey := OStones (new ∪ s)]> (w_objs w)) →
      (∀ R heads k, (reachableObjectsAndHeads w).1 = Ok (R, heads) → k ∉ R →
         is_Some (w_objs w !! k) → HasPrefix k "data/" = true → s !! k = None → is_Some (new !! k)) →
      (eligible (new ∪ s) new (w_now w - grace) = [] ∧ w' = w1
       ∨ ∃ n, gc_sweep (eligible (new ∪ s) new (w_now w - grace)) n w1 = (r, w')) →
      gc_run grace w r w'.

Lemma fresh_stones (fresh : list string) (t : Z) k :
  (list_to_map ((λ k, (k, At t)) <$> fresh) : gmap string stamp) !! k
  = if decide (k ∈ fresh) then Some (At t) else None.
Proof.
  induction fresh as [|x fresh IH]; [done|]. rewrite fmap_cons, list_to_map_cons.
  destruct (decide (x = k)) as [->|Hne].
  - rewrite lookup_insert_eq, decide_True by set_solver. done.
  - rewrite lookup_insert_ne, IH by done. repeat case_decide; set_solver.
Qed.

Lemma GC_calm grace w r w' : calm w → GC grace w = (r, w') → gc_run grace w r w'.
Proof.
  intros Hc H. unfold GC in H. rewrite io_bind_eq, try_eq in H.
  unfold reachableObjects in H. rewrite !io_bind_eq in H.
  destruct (reach_calm w Hc) as [Hw _].
  destruct (reachableObjectsAndHeads w) as [[[reach heads]|e] w0] eqn:Er; simpl in Hw; subst w0.
  2:{ simpl in H. rewrite io_ret_eq in H. simplify_eq. apply run_aborted; [done|]. left. by rewrite Er. }
  rewrite io_ret_eq, io_bind_eq, ListKeys_calm, io_bind_eq in H by done.
  destruct (loadTombstones w) as [[[s tag]|e] w0] eqn:El;
    pose proof (loadTombstones_calm w Hc) as Hl; rewrite El in Hl; injection Hl as Hl1 ->.
  2:{ simpl in H. rewrite io_ret_eq in H. simplify_eq. apply run_aborted; [done|]. right.
      unfold stones_of. by destruct (w_objs w' !! tombstoneKey) as [[]|]. }
  destruct (loadTombstones_stones w s tag Hc) as [Hs _]; [by rewrite El|].
  rewrite io_bind_eq, now_eq, io_ret_eq in H. cbn [fst snd] in H.
  set (fresh := filter (λ k, k ∉ reach ∧ s !! k = None) (kv_list (w_objs w) "data/")) in *.
  set (new := list_to_map ((λ k, (k, At (w_now w))) <$> fresh) : gmap string stamp) in *.
  assert (∀ k, new !! k = Some (At (w_now w)) ∧ s !! k = None ∨ new !! k = None) as Hnew.
  { intros k. unfold new. rewrite fresh_stones. destruct (decide (k ∈ fresh)) as [Hk|Hk]; [|by right]. left. split; [done|].
    unfold fresh in Hk. apply list_elem_of_filter in Hk. tauto. }
  assert (∀ R heads' k, (reachableObjectsAndHeads w).1 = Ok (R, heads') → k ∉ R →
    is_Some (w_objs w !! k) → HasPrefix k "data/" = true → s !! k = None → is_Some (new !! k)) as Hcov.
  { rewrite Er. intros R heads' k [= <- <-] Hk Hm Hp Hsk. unfold new. rewrite fresh_stones, decide_True; [by eexists|].
    apply list_elem_of_filter. split; [done|]. by apply elem_of_kv_list. }
  rewrite io_bind_eq, try_eq in H. destruct (bool_decide (new = ∅)) eqn:En.
  - apply bool_decide_eq_true in En. rewrite io_ret_eq in H. cbn [fst snd] in H.
    rewrite io_bind_eq, now_eq in H.
    eapply (run_marked grace w r w' s new w); try done; [by left|].
    rewrite En, (left_id_L ∅ (∪)). rewrite En in H. destruct (bool_decide _) eqn:Ek.
    + left. apply bool_decide_eq_true in Ek. rewrite io_ret_eq in H. by simplify_eq.
    + right. eauto.
  - destruct (tombstone_calm s new w Hc Hs) as (w1 & Et & Hc1 & Hn1 & Ho1).
    rewrite io_bind_eq, Et, io_bind_eq, loadTombstones_calm, Ho1, lookup_insert_eq in H by done.
    rewrite io_ret_eq in H. cbn [fst snd] in H. rewrite io_bind_eq, now_eq, Hn1 in H.
    eapply (run_marked grace w r w' s new w1); try done; [by right|].
    destruct (bool_decide (eligible _ _ _ = _)) eqn:Ek.
    + left. apply bool_decide_eq_true in Ek. rewrite io_ret_eq in H. by simplify_eq.
    + right. eauto.
Qed.

(** The sweep of a sequential run: nothing, or deletions of eligible keys a
    complete mark of the store did not reach. *)
Lemma gc_sweep_calm keys n w r w' :
  calm w → gc_sweep keys n w = (r, w') →
  (w' = w ∧ is_ok (reachableObjectsAndHeads w).1 = false)
  ∨ ∃ live R heads l,
      mark (view_of (w_objs w)) live ∅ ∅ = Ok (R, heads) ∧ live_complete (w_objs w) live
      ∧ (reachableObjectsAndHeads w).1 = Ok (R, heads)
      ∧ Forall (sweep_write R heads (kv_list (w_objs w) "data/") keys) l
      ∧ w_objs w' = replay l (w_objs w)
      ∧ gc_apply R heads (kv_list (w_objs w) "data/") keys n w = (r, w').
Proof.
  intros Hc H. unfold gc_sweep in H. rewrite io_bind_eq, try_eq in H.
  destruct (reach_calm w Hc) as [Hw Hm].
  destruct (reachableObjectsAndHeads w) as [[[R heads]|e] w0] eqn:Er; simpl in *; subst w0.
  2:{ left. rewrite io_ret_eq in H. by simplify_eq. }
  right. destruct (Hm R heads eq_refl) as (live & Hmark & Hlive).
  rewrite io_bind_eq, try_eq, ListKeys_calm in H by done. simpl in H.
  destruct (spec_gc_apply R heads (kv_list (w_objs w) "data/") keys n _ _ _ H) as [(l & _ & Hf & Hcalm & _) _].
  exists live, R, heads, l. destruct (Hcalm Hc) as [_ Ho]. done.
Qed.

Lemma same_data_tomb (m : objs) o : same_data m (<[tombstoneKey := o]> m).
Proof. intros k Hk. rewrite lookup_insert_ne; [done|]. by apply not_eq_sym, data_not_tombstone. Qed.

Lemma RefKey_not_tomb db br : RefKey db br ≠ tombstoneKey.
Proof. done. Qed.

Lemma chains_preserved_tomb m o : chains_preserved m (<[tombstoneKey := o]> m).
Proof.
  intros db br wire r t c _ _ _ _ _ _ Hc. by rewrite <-(same_data_Chain m) by apply same_data_tomb.
Qed.

(** collection is safe under concurrency.  Whatever other processes do
    during the pass and however its calls fail, all it writes is the tombstone
    list and deletions under data/; and each object it deletes is one that, in
    the view its re-mark read, is on no chain of any transaction any ref it read
    keeps, is no base object of such a ref's spine, and cannot be committed by
    the current writer of such a ref (it lies at or below the head, or at a
    fenced epoch). *)
Theorem gc_deletes_unneeded grace w :
  ∃ l, w_log (GC grace w).2 = (l ++ w_log w)%list ∧ Forall gc_guar l.
Proof.
  destruct (GC grace w) as [r w'] eqn:E.
  destruct (spec_GC grace _ _ _ E) as [(l & Hl & Hf & _) _]. eauto.
Qed.

Lemma gc_preserves_chains_lemma grace w :
  calm w → wf_store (w_objs w) → above_base (view_of (w_objs w)) →
  chains_preserved (w_objs w) (w_objs (GC grace w).2).
Proof.
  intros Hc Hwf Hab. destruct (GC grace w) as [r w'] eqn:E. simpl.
  destruct (GC_calm _ _ _ _ Hc E) as [-> _|s new w1 Hs Hc1 Hn Hnew Hw1 _ Hsw];
    [apply chains_preserved_refl|].
  assert (∃ o, w_objs w1 = w_objs w ∨ w_objs w1 = <[tombstoneKey := o]> (w_objs w)) as [o Ho].
  { destruct Hw1 as [[_ ->]|Hw1]; [exists (OBytes ""); by left|eauto]. }
  assert (same_data (w_objs w) (w_objs w1)) as Hsame
    by (destruct Ho as [->| ->]; [done|apply same_data_tomb]).
  assert (∀ db br, w_objs w1 !! RefKey db br = w_objs w !! RefKey db br) as Hrefs.
  { intros db br. destruct Ho as [->| ->]; [done|]. by rewrite lookup_insert_ne. }
  assert (chains_preserved (w_objs w1) (w_objs w')) as Hp.
  { destruct Hsw as [[_ ->]|[n Hsw]]; [apply chains_preserved_refl|].
    destruct (gc_sweep_calm _ _ _ _ _ Hc1 Hsw) as [[-> _]|(live & R & heads & l & Hm & Hl & _ & Hf & -> & _)];
      [apply chains_preserved_refl|].
    eapply sweep_preserves; [by eapply same_data_wf|by eapply same_data_above|done..]. }
  intros db br wire r0 t c Hd Hb Hr Hdec Ht Hu Hch.
  apply (Hp db br wire); try done; [by rewrite Hrefs|]. by rewrite <-(same_data_Chain (w_objs w)).
Qed.

(** C29: a garbage collection pass never breaks a live branch: run with nothing
    else writing and no fault ([calm]), whatever its backend's way to delete, on
    a store whose base pointers and member objects are well formed ([wf_store])
    and whose lineages hold only members above their base ([above_base]), it
    leaves every chain of every branch, at its head and at every checkpoint,
    resolving to exactly the members it resolved to before. *)
Theorem gc_preserves_chains grace w :
  calm w → wf_store (w_objs w) → above_base (view_of (w_objs w)) →
  chains_preserved (w_objs w) (w_objs (GC grace w).2).
Proof. apply gc_preserves_chains_lemma. Qed.

Lemma elem_of_eligible s new cutoff k :
  k ∈ eligible s new cutoff ↔
  ∃ ts, s !! k = Some (At ts) ∧ new !! k = None ∧ (ts < cutoff)%Z.
Proof.
  unfold eligible. rewrite list_elem_of_fmap. split.
  - intros ([k' st] & -> & Hin). apply elem_of_map_to_list, map_lookup_filter_Some in Hin as [Hs [Hn Ha]].
    unfold aged in Ha. destruct st; simpl in *; try done. bool_to_prop. eauto.
  - intros (ts & Hs & Hn & Ht). exists (k, At ts). split; [done|].
    apply elem_of_map_to_list, map_lookup_filter_Some. split; [done|]. split; [done|].
    simpl. by apply Z.ltb_lt.
Qed.

(** the grace period: in a sequential pass an object disappears only if it
    was already tombstoned when the pass began, with a stamp older than the
    grace period; an object the pass itself tombstones is never deleted by it. *)
Theorem gc_respects_grace grace w k o :
  calm w → w_objs w !! k = Some o → w_objs (GC grace w).2 !! k = None → k ≠ tombstoneKey →
  ∃ s ts, stones_of (w_objs w) = Some s ∧ s !! k = Some (At ts) ∧ (ts < w_now w - grace)%Z.
Proof.
  intros Hc Ho Hgone Hk. destruct (GC grace w) as [r w'] eqn:E. simpl in Hgone.
  destruct (GC_calm _ _ _ _ Hc E) as [Ew _|s new w1 Hs Hc1 Hn Hnew Hw1 _ Hsw]; [congruence|].
  assert (w_objs w1 !! k = Some o) as Ho1.
  { destruct Hw1 as [[_ ->]| ->]; [done|]. by rewrite lookup_insert_ne. }
  destruct Hsw as [[_ ->]|[n Hsw]]; [congruence|].
  destruct (gc_sweep_calm _ _ _ _ _ Hc1 Hsw) as [[-> _]|(live & R & heads & l & _ & _ & _ & Hf & Ew & _)]; [congruence|].
  rewrite Ew in Hgone.
  destruct (replay_sweep _ _ _ _ l (w_objs w1) k Hf Hk) as [E1|(_ & _ & _ & Hin)]; [congruence|].
  apply elem_of_eligible in Hin as (ts & Hst & Hnk & Hts). exists s, ts. split_and!; [done| |done].
  by rewrite lookup_union_r in Hst.
Qed.

(** ** Garbage is collected *)

Lemma delete_calm_step k (keys : list string) w w1 :
  (∀ k', k' ∈ keys → w_objs w1 !! k' = None) ∧ (∀ k', w_objs (store_at k None w) !! k' = None → w_objs w1 !! k' = None) →
  (∀ k', k' ∈ k :: keys → w_objs w1 !! k' = None) ∧ (∀ k', w_objs w !! k' = None → w_objs w1 !! k' = None).
Proof.
  intros [H1 H2]. split.
  - intros k' [->|Hin]%elem_of_cons; [|by apply H1]. apply H2. apply store_at_lookup.
  - intros k' Hk'. apply H2. simpl. destruct (decide (k' = k)) as [->|].
    + by rewrite lookup_partial_alter_eq.
    + by rewrite lookup_partial_alter_ne.
Qed.

Lemma sweep_each_calm keys w :
  calm w → ∃ w1, sweep_each keys w = (Ok (keys, None), w1) ∧ calm w1 ∧
    (∀ k, k ∈ keys → w_objs w1 !! k = None) ∧ (∀ k, w_objs w !! k = None → w_objs w1 !! k = None).
Proof.
  revert w. induction keys as [|k keys IH]; intros w Hc; simpl.
  - exists w. split_and!; [done..|set_solver|done].
  - rewrite io_bind_eq, try_eq, Delete_calm by done. simpl. rewrite io_bind_eq.
    destruct (IH (store_at k None w)) as (w1 & E & Hc1 & Hk); [done|]. rewrite E. simpl.
    exists w1. split; [done|]. split; [done|]. by apply (delete_calm_step k keys w w1).
Qed.

Lemma DeleteObjects_calm keys w :
  calm w → ∃ w1, DeleteObjects keys w = (Ok (keys, None), w1) ∧ calm w1 ∧
    (∀ k, k ∈ keys → w_objs w1 !! k = None) ∧ (∀ k, w_objs w !! k = None → w_objs w1 !! k = None).
Proof.
  revert w. induction keys as [|k keys IH]; intros w Hc; simpl.
  - exists w. split_and!; [done..|set_solver|done].
  - rewrite io_bind_eq, try_eq, Delete_calm by done. simpl. rewrite io_bind_eq.
    destruct (IH (store_at k None w)) as (w1 & E & Hc1 & Hk); [done|]. rewrite E. simpl.
    exists w1. split; [done|]. split; [done|]. by apply (delete_calm_step k keys w w1).
Qed.

Lemma sweepDelete_calm keys w :
  calm w → ∃ w1, sweepDelete keys w = (Ok (keys, None), w1) ∧ calm w1
    ∧ (∀ k, k ∈ keys → w_objs w1 !! k = None).
Proof.
  intros Hc. unfold sweepDelete, get_caps. rewrite io_bind_eq. destruct (c_batch (w_caps w)).
  - destruct (DeleteObjects_calm keys w Hc) as (w1 & E & Hc1 & Hm & _). by exists w1.
  - destruct (sweep_each_calm keys w Hc) as (w1 & E & Hc1 & Hm & _). by exists w1.
Qed.

Lemma gc_apply_calm R heads keys n w r w' k o :
  calm w → gc_apply R heads (kv_list (w_objs w) "data/") keys n w = (r, w') →
  k ∈ keys → k ∉ R → w_objs w !! k = Some o → HasPrefix k "data/" = true → compensated heads k = false →
  w_objs w' !! k = None.
Proof.
  intros Hc H Hk HR Ho Hp Hcomp. unfold gc_apply in H. rewrite io_bind_eq in H.
  destruct (sweepDelete_calm (sort_by String.le (filter (λ k, k ∉ R ∧ k ∈ kv_list (w_objs w) "data/"
    ∧ compensated heads k = false) keys)) w Hc) as (w1 & E & Hc1 & Hdel). rewrite E in H.
  assert (w_objs w1 !! k = None) as Hk1.
  { apply Hdel. rewrite elem_of_sort_by, list_elem_of_filter, elem_of_kv_list. naive_solver. }
  rewrite io_bind_eq, try_eq, io_ret_eq in H. destruct (pruneTombstones _ w1) as [p w2] eqn:Ep. simplify_eq/=.
  destruct (spec_pruneTombstones _ _ _ _ Ep) as [(l & _ & Hf & Hcalm & _) _].
  destruct (Hcalm Hc1) as [_ ->]. rewrite replay_tomb; [done..|]. by apply data_not_tombstone.
Qed.

(** *** The mark does not read the tombstone list *)

Lemma BaseSpine_loop_ext v v' D f f' seen cur sp :
  (∀ L, lineageBase v L = lineageBase v' L) →
  (∀ L b, lineageBase v L = Ok (Some b) → L ∈ D) →
  (todo D seen cur < f)%nat → (todo D seen cur < f')%nat →
  BaseSpine_loop f v seen cur sp = BaseSpine_loop f' v' seen cur sp.
Proof.
  intros HG HD. revert f' seen cur sp. induction f as [|f IH]; intros [|f'] seen cur sp Hf Hf'; try lia.
  simpl. rewrite <-HG. destruct (lineageBase v cur) as [[b|]|] eqn:Eb; [|done|done].
  case_decide as Hs; [done|]. pose proof (todo_step D seen cur (bp_lineage b) (HD _ _ Eb) Hs).
  apply IH; lia.
Qed.

Lemma same_data_BaseSpine m m' L :
  same_data m m' → BaseSpine (view_of m) L = BaseSpine (view_of m') L.
Proof.
  intros Hs. destruct (view_of_ok m) as [(D & HDs & HD) _], (view_of_ok m') as [(D' & HDs' & HD') _].
  pose proof (λ L, same_data_base m m' L Hs) as Hb.
  assert (∀ L0 b, lineageBase (view_of m) L0 = Ok (Some b) → L0 ∈ D ∩ D') as HE.
  { intros L0 b E. apply elem_of_intersection. split; [by eapply HD|]. eapply HD'. by rewrite <-Hb. }
  assert (size (D ∩ D') <= size D)%nat by (apply subseteq_size; set_solver).
  assert (size (D ∩ D') <= size D')%nat by (apply subseteq_size; set_solver).
  pose proof (todo_start (D ∩ D') L).
  apply (BaseSpine_loop_ext _ _ (D ∩ D')); [done|done|lia|lia].
Qed.

Lemma same_data_mark m m' live R heads :
  same_data m m' → mark (view_of m) live R heads = mark (view_of m') live R heads.
Proof.
  intros Hs. revert R heads. induction live as [|r live IH]; intros R heads; simpl; [done|].
  assert (mark_ref (view_of m) r R = mark_ref (view_of m') r R) as ->.
  { unfold mark_ref. rewrite (same_data_BaseSpine m m') by done.
    destruct (BaseSpine (view_of m') (r_lineage r)) as [sp|]; [|done]. simpl.
    generalize (R ∪ spine_bases (r_lineage r) sp). induction (elements (ref_txids r)) as [|t ts IHt];
      intros R0; simpl; [done|]. rewrite (same_data_Chain m m') by done.
    destruct (Chain (view_of m') _ _); simpl; [apply IHt|done]. }
  destruct (mark_ref _ _ _); simpl; [apply IH|done].
Qed.

Lemma GetRef_calm_value db br w :
  calm w →
  (GetRef db br w).1 =
  match w_objs w !! RefKey db br with
  | None => Err [ErrNotFound]
  | Some (ORef wire) =>
      match decodeRef wire with Ok r => Ok (r, TagOf (ORef wire)) | Err e => Err e end
  | Some _ => Err [ECorrupt]
  end.
Proof.
  intros Hc. unfold GetRef. rewrite io_bind_eq, try_eq, Get_calm by done. unfold kv_get.
  destruct (w_objs w !! RefKey db br) as [[]|]; simpl; try done.
  - by destruct (decodeRef w0).
  - unfold describeMissingRef. rewrite !io_bind_eq, try_eq, ListKeys_calm by done. done.
Qed.

Definition same_but_tomb (w w1 : world) : Prop :=
  ∀ k, k ≠ tombstoneKey → w_objs w1 !! k = w_objs w !! k.

Lemma read_live_tomb names w w1 :
  calm w → calm w1 → same_but_tomb w w1 → (read_live names w1).1 = (read_live names w).1.
Proof.
  intros Hc Hc1 Hs. induction names as [|[db br] names IH]; simpl; [done|].
  rewrite !io_bind_eq, !try_eq, !GetRef_calm_value, !GetRef_calm_world by done.
  rewrite (Hs (RefKey db br)) by done.
  destruct (read_live_calm names w Hc) as [Hw _], (read_live_calm names w1 Hc1) as [Hw1 _].
  destruct (w_objs w !! RefKey db br) as [[]|]; try done.
  destruct (decodeRef w0) as [r|e]; [|by destruct (errors_Is e ErrNotFound)]. rewrite !io_bind_eq.
  destruct (read_live names w) as [r0 w2], (read_live names w1) as [r1 w3]. simpl in *. subst.
  by destruct r0.
Qed.

Lemma reach_tomb w w1 :
  calm w → calm w1 → same_but_tomb w w1 →
  (reachableObjectsAndHeads w1).1 = (reachableObjectsAndHeads w).1.
Proof.
  intros Hc Hc1 Hs. unfold reachableObjectsAndHeads, ListRefs. rewrite !io_bind_eq.
  rewrite !ListKeys_calm by done. unfold lift.
  rewrite (kv_list_dom (w_objs w1) (w_objs w)).
  2:{ intros k Hk. rewrite Hs; [done|]. intros ->. done. }
  destruct (list_refs _ _) as [refs|e]; [|done]. rewrite !io_bind_eq.
  pose proof (read_live_tomb (flat_refs refs) w w1 Hc Hc1 Hs) as E.
  destruct (read_live_calm (flat_refs refs) w Hc) as [Hw _], (read_live_calm (flat_refs refs) w1 Hc1) as [Hw1 _].
  destruct (read_live (flat_refs refs) w) as [r0 w2], (read_live (flat_refs refs) w1) as [r1 w3].
  simpl in *. subst. destruct r0; [|done]. rewrite !reads_calm by done. simpl.
  apply same_data_mark. intros k Hk. apply Hs. by apply data_not_tombstone.
Qed.

Lemma without_lookup keys m k : k ∉ keys → without keys m !! k = m !! k.
Proof.
  induction keys as [|x keys IH]; simpl; [done|]. intros Hk.
  rewrite lookup_delete_ne by set_solver. apply IH. set_solver.
Qed.

Lemma pruneTombstones_calm keys w s w' r :
  calm w → stones_of (w_objs w) = Some s → pruneTombstones keys w = (r, w') →
  stones_of (w_objs w') = Some s ∨ stones_of (w_objs w') = Some (without keys s).
Proof.
  intros Hc Hs. unfold pruneTombstones. destruct (bool_decide (keys = [])).
  { rewrite io_ret_eq. intros [= <- <-]. by left. }
  cbn [prune_attempts]. rewrite io_bind_eq, loadTombstones_calm by done.
  unfold stones_of in *.
  destruct (w_objs w !! tombstoneKey) as [[]|] eqn:E; simplify_eq; simpl.
  - destruct (bool_decide _); [rewrite io_ret_eq; intros [= <- <-]; left; by rewrite E|].
    rewrite io_bind_eq, try_eq, PutIf_calm, E, kv_match_self by done. cbn [fst snd].
    rewrite io_ret_eq. intros [= <- <-]. right. by rewrite store_at_lookup.
  - assert (without keys ∅ = ∅) as -> by (clear; induction keys; simpl; [done|]; by rewrite IHkeys, delete_empty).
    rewrite bool_decide_eq_true_2 by done. rewrite io_ret_eq. intros [= <- <-]. left. by rewrite E.
Qed.

(** A stone outside the eligible keys survives the sweep. *)
Lemma gc_apply_stones R heads keys n w r w' s k x :
  calm w → gc_apply R heads (kv_list (w_objs w) "data/") keys n w = (r, w') →
  stones_of (w_objs w) = Some s → s !! k = Some x → k ∉ keys →
  ∃ s', stones_of (w_objs w') = Some s' ∧ s' !! k = Some x.
Proof.
  intros Hc H Hs Hk Hnk. unfold gc_apply in H. rewrite io_bind_eq in H.
  set (del := sort_by String.le _) in H.
  assert (∀ k, k ∈ del → k ∈ keys ∧ k ≠ tombstoneKey) as Hdel.
  { intros k' Hk'. unfold del in Hk'. rewrite elem_of_sort_by, list_elem_of_filter, elem_of_kv_list in Hk'.
    destruct Hk' as [(_ & [_ Hp] & _) ?]. split; [done|]. by apply data_not_tombstone. }
  destruct (sweepDelete del w) as [[[succ derr]|e] w1] eqn:E.
  2:{ destruct (sweepDelete_calm del w Hc) as (w2 & E2 & _). congruence. }
  destruct (sweepDelete_calm del w Hc) as (w2 & E2 & Hc1 & _). rewrite E in E2. simplify_eq.
  assert (stones_of (w_objs w2) = Some s) as Hs1.
  { destruct (spec_sweepDelete (λ x, wr_key x ≠ tombstoneKey) del ltac:(naive_solver) _ _ _ E)
      as [(l & _ & Hf & Hcalm & _) _]. destruct (Hcalm Hc) as [_ Ew]. unfold stones_of in *. rewrite Ew. clear -Hf Hs.
    assert (replay l (w_objs w) !! tombstoneKey = w_objs w !! tombstoneKey) as ->; [|done].
    induction Hf as [|y l Hy Hf IH]; simpl; [done|]. by rewrite lookup_partial_alter_ne. }
  rewrite io_bind_eq, try_eq, io_ret_eq in H. destruct (pruneTombstones _ w2) as [p w3] eqn:Ep. simplify_eq/=.
  destruct (pruneTombstones_calm _ _ s _ _ Hc1 Hs1 Ep) as [->| ->]; eexists; (split; [done|]); [done|].
  rewrite without_lookup; [done|]. rewrite elem_of_app, list_elem_of_filter. intros [[_ ?]|?%Hdel]; naive_solver.
Qed.

(** garbage does not stay: in a sequential pass that gets through its mark,
    an object under data/ that no ref reaches is tombstoned now when it had no
    stone, and its stone survives the pass; and when its stone has outlived the
    grace period and the compensating rule does not hold it back, the object is
    gone at the end of the pass. *)
Theorem gc_collects grace w k o s R heads :
  calm w → (reachableObjectsAndHeads w).1 = Ok (R, heads) → stones_of (w_objs w) = Some s →
  w_objs w !! k = Some o → HasPrefix k "data/" = true → k ∉ R →
  (s !! k = None →
     ∃ s', stones_of (w_objs (GC grace w).2) = Some s' ∧ s' !! k = Some (At (w_now w)))
  ∧ (∀ ts, s !! k = Some (At ts) → (ts < w_now w - grace)%Z → compensated heads k = false →
     w_objs (GC grace w).2 !! k = None).
Proof.
  intros Hc Hr Hs Ho Hp HR. destruct (GC grace w) as [r w'] eqn:E. simpl.
  destruct (GC_calm _ _ _ _ Hc E) as [_ [Ha|Ha]|s0 new w1 Hs0 Hc1 Hn Hnew Hw1 Hcov Hsw];
    [by rewrite Hr in Ha|congruence|]. assert (s0 = s) as -> by congruence. clear Hs0.
  assert (same_but_tomb w w1) as Hst.
  { intros k0 Hk0. destruct Hw1 as [[_ ->]| ->]; [done|]. by rewrite lookup_insert_ne. }
  assert (w_objs w1 !! k = Some o) as Ho1 by (rewrite Hst; [done|by apply data_not_tombstone]).
  assert ((reachableObjectsAndHeads w1).1 = Ok (R, heads)) as Hr1 by (rewrite (reach_tomb w w1) by done; done).
  split.
  - intros Hk. destruct (Hcov R heads k Hr HR ltac:(by eexists) Hp Hk) as [x Hx].
    assert (x = At (w_now w)) as -> by (destruct (Hnew k) as [[? _]|?]; congruence).
    assert (stones_of (w_objs w1) = Some (new ∪ s)) as Hs1.
    { unfold stones_of. destruct Hw1 as [[-> ->]| ->]; [|by rewrite lookup_insert_eq].
      rewrite (left_id_L ∅ (∪)). done. }
    assert ((new ∪ s) !! k = Some (At (w_now w))) as Hku by (by apply lookup_union_Some_l).
    destruct Hsw as [[_ ->]|[n Hsw]]; [eauto|].
    destruct (gc_sweep_calm _ _ _ _ _ Hc1 Hsw) as [[-> _]|(live & R0 & heads0 & l & _ & _ & _ & _ & _ & Happ)]; [eauto|].
    eapply gc_apply_stones; [exact Hc1|exact Happ|done|done|].
    rewrite elem_of_eligible. intros (ts & _ & ? & _). congruence.
  - intros ts Hts Hlt Hcomp.
    assert (k ∈ eligible (new ∪ s) new (w_now w - grace)) as Hel.
    { apply elem_of_eligible. exists ts. assert (new !! k = None) as Hnk
        by (destruct (Hnew k) as [[_ ?]|?]; congruence). by rewrite lookup_union_r. }
    destruct Hsw as [[Hnil _]|[n Hsw]]; [rewrite Hnil in Hel; set_solver|].
    destruct (gc_sweep_calm _ _ _ _ _ Hc1 Hsw) as [[_ Ha]|(live & R0 & heads0 & l & _ & _ & Hr0 & _ & _ & Happ)];
      [by rewrite Hr1 in Ha|].
    rewrite Hr1 in Hr0. simplify_eq. by eapply gc_apply_calm.
Qed.

(** ** An example pass

    Branch [app@main] on lineage ["b"] (head 5), and an abandoned snapshot of
    lineage ["dead"] tombstoned long ago. *)
Definition gc_ref : Ref :=
  mkRef 2 "b" 1 5 1 {["fork" := mkCheckpoint 3 1 "" ∅ ""]} "" false "" NoStamp NoTTL
    NoStamp false false NoStamp ∅ (Some (mkBase "a" 3)).

Definition dead_key : string := SnapshotKey "dead" 1 1.

Definition gc_stones : gmap string stamp := {[dead_key := At 0]}.

Definition gc_objs : objs :=
  <[RefKey "app" "main" := ORef (encodeRef gc_ref)]>
  (<[dead_key := OBytes "junk"]> (<[tombstoneKey := OStones gc_stones]> ex_objs)).

Lemma gc_objs_wf : wf_store gc_objs.
Proof. apply wf_store_check. vm_compute. reflexivity. Qed.

Lemma above_base_check m :
  forallb (λ '(k, o), match o with
    | OBase b => forallb (λ x, (bp_txid b <? m_max x)%N) (members (view_of m) (lineage_of_base k))
    | _ => true end) (map_to_list m) = true → above_base (view_of m).
Proof.
  rewrite forallb_forall. intros H L b. rewrite lineageBase_view_of.
  destruct (m !! BaseKey L) as [o|] eqn:E; [|done]. destruct o; intros; simplify_eq.
  specialize (H (BaseKey L, OBase b)). simpl in H. rewrite lineage_of_BaseKey, forallb_forall in H.
  apply Forall_forall. intros x Hx. apply N.ltb_lt, H; apply list_elem_of_In; [|done].
  by apply elem_of_map_to_list.
Qed.

Lemma gc_objs_above : above_base (view_of gc_objs).
Proof. apply above_base_check. vm_compute. reflexivity. Qed.

Definition gc_world : world := ex_world gc_objs [].

Lemma gc_preserves_chains_witness :
  Chain (view_of gc_objs) "b" 5 = Ok ex_chain
  ∧ Chain (view_of (w_objs (GC (10 * second) gc_world).2)) "b" 5 = Ok ex_chain.
Proof.
  assert (Chain (view_of gc_objs) "b" 5 = Ok ex_chain) as H by (vm_compute; reflexivity).
  split; [exact H|].
  apply (gc_preserves_chains (10 * second) gc_world eq_refl gc_objs_wf gc_objs_above
    "app" "main" (encodeRef gc_ref) gc_ref 5%N ex_chain); vm_compute; reflexivity.
Defined.

Lemma gc_respects_grace_witness :
  w_objs (GC (10 * second) gc_world).2 !! dead_key = None
  ∧ ∃ s ts, stones_of gc_objs = Some s ∧ s !! dead_key = Some (At ts) ∧ (ts < 90 * second)%Z.
Proof.
  assert (w_objs (GC (10 * second) gc_world).2 !! dead_key = None) as H by (vm_compute; reflexivity).
  split; [exact H|].
  destruct (gc_respects_grace (10 * second) gc_world dead_key (OBytes "junk")) as (s & ts & Hs & Hk & Ht);
    [reflexivity|vm_compute; reflexivity|exact H|discriminate|].
  exists s, ts. split; [exact Hs|split; [exact Hk|exact Ht]].
Defined.

Definition gc_mark : gset string * gmap string liveHead :=
  match (reachableObjectsAndHeads gc_world).1 with Ok x => x | Err _ => (∅, ∅) end.

Lemma gc_collects_witness : w_objs (GC (10 * second) gc_world).2 !! dead_key = None.
Proof.
  assert ((reachableObjectsAndHeads gc_world).1 = Ok (gc_mark.1, gc_mark.2)) as Hr.
  { rewrite <-surjective_pairing. unfold gc_mark.
    assert (is_ok (reachableObjectsAndHeads gc_world).1 = true) as Hok by (vm_compute; reflexivity).
    destruct (reachableObjectsAndHeads gc_world).1; [reflexivity|discriminate]. }
  assert (bool_decide (dead_key ∈ gc_mark.1) = false) as HR by (vm_compute; reflexivity).
  assert (compensated gc_mark.2 dead_key = false) as Hcomp by (vm_compute; reflexivity).
  assert (stones_of (w_objs gc_world) = Some gc_stones) as Hs by (vm_compute; reflexivity).
  assert (w_objs gc_world !! dead_key = Some (OBytes "junk")) as Ho by (vm_compute; reflexivity).
  assert (gc_stones !! dead_key = Some (At 0)) as Hk by (vm_compute; reflexivity).
  exact (proj2 (gc_collects (10 * second) gc_world dead_key (OBytes "junk") gc_stones _ _
    eq_refl Hr Hs Ho eq_refl (bool_decide_eq_false_1 _ HR)) 0%Z Hk eq_refl Hcomp).
Defined.

(** ** The tombstone list under concurrent passes *)

Lemma spec_loadTombstones_tag P :
  spec P (λ '(m, tag), (tag = NoTag ∧ m = ∅) ∨ tag = TagOf (OStones m)) loadTombstones.
Proof.
  unfold loadTombstones. eapply spec_bind; [apply spec_try, spec_Get|].
  intros [[o tag]|e] Hr; simpl.
  - specialize (Hr _ eq_refl). simpl in Hr. subst. destruct o; try apply spec_fail. apply spec_ret. by right.
  - destruct (errors_Is e ErrNotFound); [apply spec_ret; by left|apply spec_fail].
Qed.

(** Additions to, and removals from, whatever list is stored at that moment. *)
Definition tomb_add (new : gmap string stamp) (x : write) : Prop :=
  wr_key x = tombstoneKey
  ∧ ((wr_before x = None ∧ wr_after x = Some (OStones new))
     ∨ ∃ a, wr_before x = Some (OStones a) ∧ wr_after x = Some (OStones (new ∪ a))).

Definition tomb_prune (keys : list string) (x : write) : Prop :=
  wr_key x = tombstoneKey
  ∧ ∃ a, wr_before x = Some (OStones a) ∧ wr_after x = Some (OStones (without keys a)).

Lemma without_empty keys : without keys ∅ = ∅.
Proof. induction keys as [|x keys IH]; simpl; [done|]. by rewrite IH, delete_empty. Qed.

Lemma spec_tombstone_exact new : spec (tomb_add new) (λ _, True) (tombstone new).
Proof.
  unfold tombstone. eapply spec_bind; [apply spec_loadTombstones_tag|]. intros [cur tag] Ht.
  eapply spec_bind; [apply spec_PutIf|intros; by apply spec_ret].
  intros b τ [[-> ->]|(o & -> & ->)]%kv_match_before; (split; [done|]); simpl.
  - destruct Ht as [[_ ->]|?]; [|done]. left. by rewrite (right_id_L ∅ (∪)).
  - destruct Ht as [[? _]|[= ->]]; [done|]. right. eauto.
Qed.

Lemma spec_prune_exact keys : spec (tomb_prune keys) (λ _, True) (pruneTombstones keys).
Proof.
  unfold pruneTombstones. destruct (bool_decide _); [by apply spec_ret|].
  generalize 8%nat, ([] : error). intros n. induction n as [|n IH]; intros e; simpl; [apply spec_fail|].
  eapply spec_bind; [apply spec_loadTombstones_tag|]. intros [cur tag] Ht.
  destruct (bool_decide (without keys cur = cur)) eqn:E; [by apply spec_ret|]. bool_to_prop.
  eapply spec_bind; [apply spec_try, spec_PutIf|].
  - intros b τ [[-> ->]|(o & -> & ->)]%kv_match_before; (split; [done|]); simpl.
    + destruct Ht as [[_ ->]|?]; [|done]. by rewrite without_empty in E.
    + destruct Ht as [[? _]|[= ->]]; [done|]. eauto.
  - intros [t|e'] _; simpl; [by apply spec_ret|]. destruct (errors_Is e' ErrCAS); [apply IH|apply spec_fail].
Qed.

(** Concurrent passes lose no tombstone update: on every schedule a
    tombstone write adds its stones to exactly the list stored at that moment,
    and a prune removes exactly its keys from the list stored at that moment;
    neither ever writes back a list another pass has since changed. *)
Theorem tombstone_updates_exact new keys w :
  (∃ l, w_log (tombstone new w).2 = (l ++ w_log w)%list ∧ Forall (tomb_add new) l)
  ∧ (∃ l, w_log (pruneTombstones keys w).2 = (l ++ w_log w)%list ∧ Forall (tomb_prune keys) l).
Proof.
  split.
  - destruct (tombstone new w) as [r w'] eqn:E.
    destruct (spec_tombstone_exact new _ _ _ E) as [(l & ? & ? & _) _]. eauto.
  - destruct (pruneTombstones keys w) as [r w'] eqn:E.
    destruct (spec_prune_exact keys _ _ _ E) as [(l & ? & ? & _) _]. eauto.
Qed.
