(* ===== verification/Claims.v ===== *)
(** * Destroying and reaping branches

    [internal/ops/gc.go]: [Destroy], [landedClaim], [deleteClaimedRef],
    [unwindDeletingClaim], [ClearStaleDeleteClaims]; [internal/ops/reap.go]:
    [Reap], [reapOne], [clearStaleReapingClaim].

    The checkout file of a branch is outside the store: [checkout] is what
    [Destroy] finds of it, [None] when there is no file, [Some (d, r)] when
    quiescing it takes [d] nanoseconds and returns [r].  Removing the checkout's
    files afterwards is best effort on the local disk and is left out. *)
From Stdlib Require Import Ascii String.
From S2P Require Import Prelude GoStrings Keys Refs Backend Store Lease Gc.
Local Open Scope string_scope.

Definition destroyDeleteAttempts : nat := 4.
Definition claimSettleReads : nat := 3.
Definition claimSettleEvery : N := 700000000.
Definition deleteClaimMargin : Z := 10 * second.

(** ** Unwinding a claim *)

Fixpoint unwind_attempts (attempts : nat) (db branch : string) (claimedAt : stamp) : IO unit :=
  match attempts with
  | O => mret tt
  | S attempts =>
      r ← try (GetRef db branch);
      match r with
      | Err _ => mret tt
      | Ok (ref, tag) =>
          if negb (r_deleting ref) || negb (bool_decide (r_deleting_at ref = claimedAt)) then mret tt
          else
            p ← try (PutRef db branch (set_deleting_at NoStamp (set_deleting false ref)) tag);
            match p with
            | Err e => if errors_Is e ErrCAS then unwind_attempts attempts db branch claimedAt else mret tt
            | Ok _ => mret tt
            end
      end
  end.

Definition unwindDeletingClaim (db branch : string) (claimedAt : stamp) : IO unit :=
  unwind_attempts destroyDeleteAttempts db branch claimedAt.

(** ** A claim write with no verdict *)

(** Read the ref again while it is still the one the claim was sent over. *)
Fixpoint settle_reads (n : nat) (db branch : string) (sent : etag) : IO (res (Ref * etag)) :=
  r ← try (GetRef db branch);
  match n, r with
  | S n, Ok (cur, tag) =>
      if bool_decide (tag = sent) then _ ← sleep claimSettleEvery; settle_reads n db branch sent
      else mret r
  | _, _ => mret r
  end.

Definition landedClaim (db branch : string) (claimed : Ref) (sent : etag) (force : bool) (werr : error)
    : IO etag :=
  c ← get_caps;
  if c_settled c then fail werr else
  r ← settle_reads claimSettleReads db branch sent;
  match r with
  | Err _ => fail werr
  | Ok (cur, tag) =>
      if bool_decide (tag = sent) then fail werr
      else if negb (r_deleting cur) || negb (bool_decide (r_deleting_at cur = r_deleting_at claimed))
      then fail werr
      else if negb (onlyRenewed claimed cur) then
        _ ← unwindDeletingClaim db branch (r_deleting_at claimed); fail [ErrCAS]
      else
        t ← now;
        if negb force && LeaseLive cur t then
          _ ← unwindDeletingClaim db branch (r_deleting_at claimed); fail [ErrLeaseHeld]
        else mret tag
  end.

(** ** The delete *)

Fixpoint delete_attempts (more : nat) (db branch : string) (claimed : Ref) (tag : etag) (force : bool)
    : IO unit :=
  r ← try (DeleteRefIf db branch tag);
  match r with
  | Ok _ => mret tt
  | Err e =>
      if negb (errors_Is e ErrCAS) then fail e
      else
        match more with
        | O => fail e
        | S more =>
            g ← try (GetRef db branch);
            match g with
            | Err _ => fail e
            | Ok (cur, curTag) =>
                if negb (onlyRenewed claimed cur) then fail e
                else
                  t ← now;
                  if negb force && LeaseLive cur t then fail [ErrLeaseHeld]
                  else delete_attempts more db branch claimed curTag force
            end
        end
  end.

Definition deleteClaimedRef (db branch : string) (claimed : Ref) (tag : etag) (force : bool) : IO unit :=
  delete_attempts (destroyDeleteAttempts - 1) db branch claimed tag force.

(** Once the claim is written: quiesce the checkout, check that the claim still
    has its margin, delete. *)
Definition destroy_claimed (db branch : string) (claimed : Ref) (claimTag : etag) (force : bool)
    (checkout : option (N * res unit)) : IO unit :=
  q ← match checkout with
      | None => mret (Ok tt)
      | Some (d, r) => _ ← sleep d; mret r
      end;
  match q with
  | Err e => _ ← unwindDeletingClaim db branch (r_deleting_at claimed); fail (ECheckout :: e)
  | Ok _ =>
      t ← now;
      if negb (liveDeleteClaim claimed (t + deleteClaimMargin)) then
        _ ← unwindDeletingClaim db branch (r_deleting_at claimed); fail [EHeldUp; ErrCAS]
      else
        d ← try (deleteClaimedRef db branch claimed claimTag force);
        match d with
        | Err e => _ ← unwindDeletingClaim db branch (r_deleting_at claimed); fail e
        | Ok _ => mret tt
        end
  end.

Definition Destroy (db branch : string) (force : bool) (checkout : option (N * res unit)) : IO unit :=
  _ ← lift (ValidateName db);
  _ ← lift (ValidateName branch);
  '(ref, tag) ← GetRef db branch;
  if r_protected ref && negb force then fail [EProtected] else
  t ← now;
  if negb force && LeaseLive ref t then fail [ErrLeaseHeld] else
  if liveDeleteClaim ref t then fail [ErrDeleting] else
  let claimed := set_deleting_at (At t) (set_deleting true ref) in
  p ← try (PutRef db branch claimed tag);
  claimTag ← match p with
             | Ok claimTag => mret claimTag
             | Err e => landedClaim db branch claimed tag force e
             end;
  destroy_claimed db branch claimed claimTag force checkout.

(** ** Stale delete claims *)

Fixpoint clear_stale (names : list (string * string)) (now : Z) (cleared : list string)
    (firstErr : option error) : IO (list string * option error) :=
  match names with
  | [] => mret (cleared, firstErr)
  | (db, branch) :: names =>
      g ← try (GetRef db branch);
      match g with
      | Err e =>
          if errors_Is e ErrNotFound then clear_stale names now cleared firstErr
          else clear_stale names now cleared (Some (default e firstErr))
      | Ok (ref, tag) =>
          if negb (r_deleting ref) then clear_stale names now cleared firstErr
          else
            match parse_stamp (r_deleting_at ref) with
            | None => clear_stale names now cleared firstErr
            | Some claimedAt =>
                if deleteClaimFresh claimedAt now then clear_stale names now cleared firstErr
                else
                  p ← try (PutRef db branch (set_deleting_at NoStamp (set_deleting false ref)) tag);
                  match p with
                  | Err e =>
                      if errors_Is e ErrCAS then clear_stale names now cleared firstErr
                      else clear_stale names now cleared (Some (default e firstErr))
                  | Ok _ => clear_stale names now (cleared ++ [db +:+ "@" +:+ branch])%list firstErr
                  end
            end
      end
  end.

Definition ClearStaleDeleteClaims (now : Z) : IO (list string * option error) :=
  refs ← ListRefs;
  clear_stale (flat_refs refs) now [] None.

(** ** Reaping *)

Definition clearStaleReapingClaim (db branch : string) (ref : Ref) (tag : etag) : IO bool :=
  p ← try (PutRef db branch (set_reaping false ref) tag);
  match p with
  | Err e => if errors_Is e ErrCAS then mret false else fail e
  | Ok _ => mret false
  end.

(** After a refused destroy: take the reaping claim back unless a live delete
    claim is on the ref. *)
Definition unwind_reaping (db branch : string) : IO unit :=
  g ← try (GetRef db branch);
  match g with
  | Ok (ref2, tag2) =>
      t ← now;
      if r_reaping ref2 && negb (liveDeleteClaim ref2 t) then
        _ ← try (PutRef db branch (set_reaping false ref2) tag2); mret tt
      else mret tt
  | Err _ => mret tt
  end.

Definition reapOne (db branch : string) (now : Z) (checkout : option (N * res unit)) : IO bool :=
  g ← try (GetRef db branch);
  match g with
  | Err e => if errors_Is e ErrNotFound then mret false else fail e
  | Ok (ref, tag) =>
      if bool_decide (r_ttl ref = NoTTL) || r_protected ref then mret false
      else if liveDeleteClaim ref now then mret false
      else
        match ReapDeadline ref with
        | None => if r_reaping ref then clearStaleReapingClaim db branch ref tag else mret false
        | Some deadline =>
            if (now <? deadline)%Z then
              if r_reaping ref then clearStaleReapingClaim db branch ref tag else mret false
            else
              p ← try (PutRef db branch (set_reaping true ref) tag);
              match p with
              | Err e => if errors_Is e ErrCAS then mret false else fail e
              | Ok _ =>
                  d ← try (Destroy db branch false checkout);
                  match d with
                  | Ok _ => mret true
                  | Err e =>
                      _ ← unwind_reaping db branch;
                      if errors_Is e ErrDeleting then mret false else fail e
                  end
              end
        end
  end.

Fixpoint reap_all (names : list (string * string)) (now : Z) (checkout : string → string → option (N * res unit))
    (reaped : list string) (firstErr : option error) : IO (list string * option error) :=
  match names with
  | [] => mret (reaped, firstErr)
  | (db, branch) :: names =>
      r ← try (reapOne db branch now (checkout db branch));
      match r with
      | Err e => reap_all names now checkout reaped (Some (default e firstErr))
      | Ok true => reap_all names now checkout (reaped ++ [db +:+ "@" +:+ branch])%list firstErr
      | Ok false => reap_all names now checkout reaped firstErr
      end
  end.

Definition Reap (now : Z) (checkout : string → string → option (N * res unit))
    : IO (list string * option error) :=
  refs ← ListRefs;
  reap_all (flat_refs refs) now checkout [] None.
