(* ===== verification/ClaimsProps.v ===== *)
(** * Destroying and reaping branches: the theorems *)
From Stdlib Require Import Ascii String.
From S2P Require Import Prelude GoStrings Keys Refs Backend Store Lease Gc Claims.
Local Open Scope string_scope.

(** ** Every ref write keeps the guarantee *)

Lemma spec_unwind db branch at_ : spec ref_guar (λ _, True) (unwindDeletingClaim db branch at_).
Proof.
  unfold unwindDeletingClaim. generalize destroyDeleteAttempts. intros n.
  induction n as [|n IH]; simpl; [by apply spec_ret|].
  eapply spec_bind; [apply spec_try, spec_GetRef|]. intros [[ref tag]|e] Hr; simpl; [|by apply spec_ret].
  specialize (Hr _ eq_refl). destruct (_ || _); [by apply spec_ret|].
  eapply spec_bind; [apply spec_try, (spec_update _ _ ref tag); [exact Hr|apply wire_trans_same; auto]|].
  intros [t|e] _; simpl; [by apply spec_ret|]. destruct (errors_Is e ErrCAS); [exact IH|by apply spec_ret].
Qed.

Lemma spec_settle_reads P n db branch sent :
  spec P (λ r, ∀ p, r = Ok p → read_ref p) (settle_reads n db branch sent).
Proof.
  induction n as [|n IH]; simpl.
  - eapply spec_bind; [apply spec_try, spec_GetRef|]. intros r Hr. by apply spec_ret.
  - eapply spec_bind; [apply spec_try, spec_GetRef|]. intros [[cur tag]|e] Hr; [|by apply spec_ret].
    destruct (bool_decide (tag = sent)); [|by apply spec_ret].
    eapply spec_bind; [apply spec_sleep|]. intros _ _. exact IH.
Qed.

Lemma spec_landedClaim db branch claimed sent force werr :
  spec ref_guar (λ _, True) (landedClaim db branch claimed sent force werr).
Proof.
  unfold landedClaim. eapply spec_bind; [apply spec_caps|]. intros c _.
  destruct (c_settled c); [apply spec_fail|].
  eapply spec_bind; [apply spec_settle_reads|]. intros [[cur tag]|e] Hr; [|apply spec_fail].
  destruct (bool_decide _); [apply spec_fail|]. destruct (_ || _); [apply spec_fail|].
  destruct (negb _).
  { eapply spec_bind; [apply spec_unwind|]. intros. apply spec_fail. }
  eapply spec_bind; [apply spec_now|]. intros t _. destruct (_ && _); [|by apply spec_ret].
  eapply spec_bind; [apply spec_unwind|]. intros. apply spec_fail.
Qed.

Lemma spec_DeleteRefIf (P : write → Prop) db branch tag :
  (∀ b τ, P (mkWrite (RefKey db branch) b None τ)) → spec P (λ _, True) (DeleteRefIf db branch tag).
Proof.
  intros HP. unfold DeleteRefIf. eapply spec_bind; [apply spec_caps|]. intros c _.
  destruct (c_conditional_delete c); [by apply spec_DeleteIf|by apply spec_Delete].
Qed.

Lemma ref_guar_delete k b τ : ref_guar (mkWrite k b None τ).
Proof. unfold ref_guar. simpl. by destruct b as [[]|]. Qed.

Lemma spec_delete_attempts n db branch claimed tag force :
  spec ref_guar (λ _, True) (delete_attempts n db branch claimed tag force).
Proof.
  revert tag. induction n as [|n IH]; intros tag; simpl.
  - eapply spec_bind; [apply spec_try, spec_DeleteRefIf; intros; apply ref_guar_delete|].
    intros [u|e] _; simpl; [by apply spec_ret|]. destruct (negb _); apply spec_fail.
  - eapply spec_bind; [apply spec_try, spec_DeleteRefIf; intros; apply ref_guar_delete|].
    intros [u|e] _; simpl; [by apply spec_ret|]. destruct (negb _); [apply spec_fail|].
    eapply spec_bind; [apply spec_try, spec_GetRef|]. intros [[cur ct]|e'] _; [|apply spec_fail].
    destruct (negb _); [apply spec_fail|]. eapply spec_bind; [apply spec_now|]. intros t _.
    destruct (_ && _); [apply spec_fail|apply IH].
Qed.

Lemma spec_destroy_claimed db branch claimed tag force checkout :
  spec ref_guar (λ _, True) (destroy_claimed db branch claimed tag force checkout).
Proof.
  unfold destroy_claimed. eapply spec_bind with (Q := λ _, True).
  { destruct checkout as [[d r]|]; [|by apply spec_ret].
    eapply spec_bind; [apply spec_sleep|]. intros. by apply spec_ret. }
  intros [u|e] _.
  - eapply spec_bind; [apply spec_now|]. intros t _. destruct (negb _).
    { eapply spec_bind; [apply spec_unwind|]. intros. apply spec_fail. }
    eapply spec_bind; [apply spec_try, spec_delete_attempts|]. intros [v|e] _; [by apply spec_ret|].
    eapply spec_bind; [apply spec_unwind|]. intros. apply spec_fail.
  - eapply spec_bind; [apply spec_unwind|]. intros. apply spec_fail.
Qed.

Lemma spec_Destroy db branch force checkout :
  spec ref_guar (λ _, True) (Destroy db branch force checkout).
Proof.
  unfold Destroy. do 2 (eapply spec_bind; [apply spec_lift with (Q := λ _, True); done|]; intros _ _).
  eapply spec_bind; [apply spec_GetRef|]. intros [ref tag] Hr.
  destruct (_ && _); [apply spec_fail|]. eapply spec_bind; [apply spec_now|]. intros t _.
  destruct (_ && _); [apply spec_fail|]. destruct (liveDeleteClaim ref t); [apply spec_fail|].
  eapply spec_bind; [apply spec_try, (spec_update _ _ ref tag); [exact Hr|apply wire_trans_same; auto]|].
  intros p _. eapply spec_bind with (Q := λ _, True); [|intros; apply spec_destroy_claimed].
  destruct p; [by apply spec_ret|apply spec_landedClaim].
Qed.

Lemma spec_clear_stale names now cleared fe :
  spec ref_guar (λ _, True) (clear_stale names now cleared fe).
Proof.
  revert cleared fe. induction names as [|[db br] names IH]; intros cleared fe; simpl; [by apply spec_ret|].
  eapply spec_bind; [apply spec_try, spec_GetRef|]. intros [[ref tag]|e] Hr.
  - specialize (Hr _ eq_refl). destruct (negb _); [apply IH|].
    destruct (parse_stamp _); [|apply IH]. destruct (deleteClaimFresh _ _); [apply IH|].
    eapply spec_bind; [apply spec_try, (spec_update _ _ ref tag); [exact Hr|apply wire_trans_same; auto]|].
    intros [t|e] _; [apply IH|]. destruct (errors_Is e ErrCAS); apply IH.
  - destruct (errors_Is e ErrNotFound); apply IH.
Qed.

Lemma spec_ClearStaleDeleteClaims now : spec ref_guar (λ _, True) (ClearStaleDeleteClaims now).
Proof.
  unfold ClearStaleDeleteClaims. eapply spec_bind; [apply spec_ListRefs|]. intros refs _.
  apply spec_clear_stale.
Qed.

Lemma spec_clearStaleReapingClaim db branch ref tag :
  read_ref (ref, tag) → spec ref_guar (λ _, True) (clearStaleReapingClaim db branch ref tag).
Proof.
  intros Hr. unfold clearStaleReapingClaim.
  eapply spec_bind; [apply spec_try, (spec_update _ _ ref tag); [exact Hr|apply wire_trans_same; auto]|].
  intros [t|e] _; [by apply spec_ret|]. destruct (errors_Is e ErrCAS); [by apply spec_ret|apply spec_fail].
Qed.

Lemma spec_unwind_reaping db branch : spec ref_guar (λ _, True) (unwind_reaping db branch).
Proof.
  unfold unwind_reaping. eapply spec_bind; [apply spec_try, spec_GetRef|].
  intros [[ref tag]|e] Hr; [|by apply spec_ret]. specialize (Hr _ eq_refl).
  eapply spec_bind; [apply spec_now|]. intros t _. destruct (_ && _); [|by apply spec_ret].
  eapply spec_bind; [apply spec_try, (spec_update _ _ ref tag); [exact Hr|apply wire_trans_same; auto]|].
  intros. by apply spec_ret.
Qed.

Lemma spec_reapOne db branch now checkout : spec ref_guar (λ _, True) (reapOne db branch now checkout).
Proof.
  unfold reapOne. eapply spec_bind; [apply spec_try, spec_GetRef|]. intros [[ref tag]|e] Hr.
  2:{ destruct (errors_Is e ErrNotFound); [by apply spec_ret|apply spec_fail]. }
  specialize (Hr _ eq_refl). destruct (_ || _); [by apply spec_ret|].
  destruct (liveDeleteClaim ref now); [by apply spec_ret|].
  destruct (ReapDeadline ref) as [d|]; [destruct (now <? d)%Z|];
    try (destruct (r_reaping ref); [by apply spec_clearStaleReapingClaim|by apply spec_ret]).
  eapply spec_bind; [apply spec_try, (spec_update _ _ ref tag); [exact Hr|apply wire_trans_same; auto]|].
  intros [t|e] _.
  - eapply spec_bind; [apply spec_try, spec_Destroy|]. intros [u|e] _; [by apply spec_ret|].
    eapply spec_bind; [apply spec_unwind_reaping|]. intros _ _.
    destruct (errors_Is e ErrDeleting); [by apply spec_ret|apply spec_fail].
  - destruct (errors_Is e ErrCAS); [by apply spec_ret|apply spec_fail].
Qed.

Lemma spec_Reap now checkout : spec ref_guar (λ _, True) (Reap now checkout).
Proof.
  unfold Reap. eapply spec_bind; [apply spec_ListRefs|]. intros refs _.
  generalize (flat_refs refs), ([] : list string), (None : option error). intros names.
  induction names as [|[db br] names IH]; intros reaped fe; simpl; [by apply spec_ret|].
  eapply spec_bind; [apply spec_try, spec_reapOne|]. intros [[]|e] _; apply IH.
Qed.

(** ** What a destroy may delete *)

(** [LeaseLive] of a stored ref. *)
Definition wire_live (w : refWire) (t : Z) : bool :=
  match parse_stamp (w_lease_expiry w) with
  | Some e => negb (bool_decide (w_lease_holder w = "")) && (t <? e)%Z
  | None => false
  end.

(** A deletion is of a ref under a delete claim; an unforced one, of a ref that
    is unprotected and carries no lease live at that moment. *)
Definition safe_delete (force : bool) (x : write) : Prop :=
  wr_after x = None →
  ∃ wire, wr_before x = Some (ORef wire) ∧ w_deleting wire = true
    ∧ (force = false → w_protected wire = false ∧ wire_live wire (wr_time x) = false).

Lemma wire_live_later w t t' : wire_live w t = false → (t <= t')%Z → wire_live w t' = false.
Proof.
  unfold wire_live. destruct (parse_stamp _); [|done]. intros H Hle.
  apply andb_false_iff in H as [->|H]; [done|]. apply andb_false_iff. right.
  bool_to_prop. apply Z.ltb_ge. lia.
Qed.

(** The fields of a ref the destroy decides on, in the stored ref. *)
Lemma decodeRef_fields wire r :
  decodeRef wire = Ok r →
  w_deleting wire = r_deleting r ∧ w_protected wire = r_protected r
  ∧ ∀ t, wire_live wire t = LeaseLive r t.
Proof.
  unfold decodeRef. intros H. repeat (break_match_hyp; simplify_eq/=). split_and!; done.
Qed.

(** What a tag must vouch for before it may be passed to the delete at [t]. *)
Definition deletable (force : bool) (tag : etag) (t : Z) : Prop :=
  ∃ wire, tag = TagOf (ORef wire) ∧ w_deleting wire = true
    ∧ (force = false → w_protected wire = false ∧ wire_live wire t = false).

Lemma onlyRenewed_deletable force claimed cur tag t :
  read_ref (cur, tag) → onlyRenewed claimed cur = true → r_deleting claimed = true →
  (force = false → r_protected claimed = false) → negb force && LeaseLive cur t = false →
  deletable force tag t.
Proof.
  intros (wire & Et & Hd) Ho Hdel Hp Hl. simpl in *. subst.
  apply decodeRef_fields in Hd as (Ed & Ep & El).
  apply onlyRenewed_eq in Ho as (_ & _ & _ & _ & _ & _ & Hpr & Hde & _).
  exists wire. split_and!; [done|congruence|]. intros ->. split; [naive_solver congruence|].
  rewrite El. by apply Hl.
Qed.

Section destroy_safety.
Context (c : caps) (Hcond : c_conditional_delete c = true) (force : bool).

Lemma safe_put k b o τ : safe_delete force (mkWrite k b (Some o) τ).
Proof. done. Qed.

Lemma spec_unwind_safe db branch at_ :
  spec (safe_delete force) (λ _, True) (unwindDeletingClaim db branch at_).
Proof.
  unfold unwindDeletingClaim. generalize destroyDeleteAttempts. intros n.
  induction n as [|n IH]; simpl; [by apply spec_ret|].
  eapply spec_bind; [apply spec_try, spec_GetRef|]. intros [[ref tag]|e] Hr; simpl; [|by apply spec_ret].
  destruct (_ || _); [by apply spec_ret|].
  eapply spec_bind; [apply spec_try, spec_PutRef; done|].
  intros [t|e] _; simpl; [by apply spec_ret|]. destruct (errors_Is e ErrCAS); [exact IH|by apply spec_ret].
Qed.

(** A failing tail that unwinds the claim. *)
Lemma tspec_unwind_fail {A} t db branch at_ e (Q : A → Z → Prop) :
  tspec t c (safe_delete force) Q (unwindDeletingClaim db branch at_ ≫= λ _, fail e).
Proof.
  eapply tspec_bind; [apply tspec_of_spec, spec_unwind_safe|]. intros. apply tspec_fail.
Qed.

Lemma tspec_DeleteRefIf t db branch tag :
  deletable force tag t → tspec t c (safe_delete force) (λ _ _, True) (DeleteRefIf db branch tag).
Proof.
  intros (wire & -> & Hd & Hf). unfold DeleteRefIf. apply tspec_caps_bind. rewrite Hcond.
  apply (tspec_spec _ _ _ (λ _, True)), spec_DeleteIf. intros o τ [= <-] Ht _. exists wire.
  split_and!; [done..|]. intros E. destruct (Hf E). split; [done|]. by eapply wire_live_later.
Qed.

Lemma tspec_delete_attempts n t db branch claimed tag :
  deletable force tag t → r_deleting claimed = true → (force = false → r_protected claimed = false) →
  tspec t c (safe_delete force) (λ _ _, True) (delete_attempts n db branch claimed tag force).
Proof.
  intros Ht Hdel Hp. revert t tag Ht. induction n as [|n IH]; intros t tag Ht; simpl;
    (eapply tspec_bind; [apply tspec_try, tspec_DeleteRefIf, Ht|]; intros [u|e] t1 Ht1 _; simpl; [by apply tspec_ret|];
     destruct (negb _); [apply tspec_fail|]).
  - apply tspec_fail.
  - eapply tspec_bind; [apply tspec_try, tspec_of_spec, spec_GetRef|].
    intros [[cur ct]|e'] t2 Ht2 Hr; [|apply tspec_fail]. specialize (Hr _ eq_refl).
    destruct (negb (onlyRenewed claimed cur)) eqn:Eo; [apply tspec_fail|]. bool_to_prop.
    eapply tspec_bind; [apply tspec_now|]. intros t3 t3' Ht3 ->.
    destruct (negb force && LeaseLive cur t3') eqn:El; [apply tspec_fail|].
    apply IH. by eapply onlyRenewed_deletable.
Qed.

Lemma tspec_landedClaim t db branch claimed sent werr :
  r_deleting claimed = true → (force = false → r_protected claimed = false) →
  tspec t c (safe_delete force) (λ tag t', deletable force tag t') (landedClaim db branch claimed sent force werr).
Proof.
  intros Hdel Hp. unfold landedClaim. apply tspec_caps_bind. destruct (c_settled c); [apply tspec_fail|].
  eapply tspec_bind; [apply tspec_of_spec, spec_settle_reads|].
  intros [[cur tag]|e] t1 Ht1 Hr; [|apply tspec_fail]. specialize (Hr _ eq_refl).
  destruct (bool_decide _); [apply tspec_fail|]. destruct (_ || _); [apply tspec_fail|].
  destruct (negb (onlyRenewed claimed cur)) eqn:Eo; [apply tspec_unwind_fail|]. bool_to_prop.
  eapply tspec_bind; [apply tspec_now|]. intros t2 t2' Ht2 ->.
  destruct (negb force && LeaseLive cur t2') eqn:El; [apply tspec_unwind_fail|].
  apply tspec_ret. intros tz Htz. destruct (onlyRenewed_deletable _ _ _ _ _ Hr Eo Hdel Hp El) as (wire & -> & ? & Hf).
  exists wire. split_and!; [done..|]. intros E. destruct (Hf E). split; [done|]. by eapply wire_live_later.
Qed.

Lemma deletable_later tag t t' : deletable force tag t → (t <= t')%Z → deletable force tag t'.
Proof.
  intros (wire & -> & ? & Hf) Hle. exists wire. split_and!; [done..|]. intros E. destruct (Hf E).
  split; [done|]. by eapply wire_live_later.
Qed.

Lemma tspec_destroy_claimed t db branch claimed tag checkout :
  deletable force tag t → r_deleting claimed = true → (force = false → r_protected claimed = false) →
  tspec t c (safe_delete force) (λ _ _, True) (destroy_claimed db branch claimed tag force checkout).
Proof.
  intros Ht Hdel Hp. unfold destroy_claimed. eapply tspec_bind with (Q := λ _ _, True).
  { apply (tspec_of_spec _ _ _ (λ _, True)). destruct checkout as [[d r]|]; [|by apply spec_ret].
    eapply spec_bind; [apply spec_sleep|]. intros. by apply spec_ret. }
  intros [u|e] t1 Ht1 _; [|apply tspec_unwind_fail].
  eapply tspec_bind; [apply tspec_now|]. intros t2 t2' Ht2 ->.
  destruct (negb _); [apply tspec_unwind_fail|].
  eapply tspec_bind; [apply tspec_try, tspec_delete_attempts; [|done|done]; eapply deletable_later; [done|lia]|].
  intros [v|e] t3 Ht3 _; [by apply tspec_ret|apply tspec_unwind_fail].
Qed.

Lemma tspec_Destroy t db branch checkout :
  tspec t c (safe_delete force) (λ _ _, True) (Destroy db branch force checkout).
Proof.
  unfold Destroy.
  do 2 (eapply tspec_bind; [apply tspec_of_spec, spec_lift with (Q := λ _, True); done|]; intros ? ? ? _).
  eapply tspec_bind; [apply tspec_of_spec, spec_GetRef|]. intros [ref tag] t1 Ht1 Hr.
  destruct (r_protected ref && negb force) eqn:Epr; [apply tspec_fail|].
  eapply tspec_bind; [apply tspec_now|]. intros t2 t2' Ht2 ->.
  destruct (negb force && LeaseLive ref t2') eqn:El; [apply tspec_fail|].
  destruct (liveDeleteClaim ref t2'); [apply tspec_fail|].
  set (claimed := set_deleting_at (At t2') (set_deleting true ref)).
  assert (force = false → r_protected claimed = false) as Hp.
  { intros ->. simpl. by destruct (r_protected ref). }
  eapply tspec_bind; [apply tspec_try, tspec_of_spec, spec_PutRef; done|].
  intros p t3 Ht3 Hpq. eapply tspec_bind with (Q := λ tag t', deletable force tag t').
  - destruct p as [ct|e]; [|by apply tspec_landedClaim].
    apply tspec_ret. intros tz Htz. specialize (Hpq _ eq_refl). subst ct.
    exists (encodeRef claimed). split_and!; [done..|]. intros E. split; [by apply Hp|].
    eapply wire_live_later; [|exact Htz]. eapply wire_live_later; [|exact Ht3].
    subst force. simpl in El. exact El.
  - intros ct t4 Ht4 Hct. by apply tspec_destroy_claimed.
Qed.
End destroy_safety.

(** C30: destroying a branch on a backend with conditional deletes, on every
    interleaving and every pattern of faults: every ref it deletes is a ref
    under a delete claim, and an unforced destroy deletes only a ref that is
    unprotected and whose lease is not live at the moment of the delete, however
    often the holder renewed in between. *)
Theorem destroy_never_kills_live_lease db branch force checkout w :
  c_conditional_delete (w_caps w) = true →
  ∃ l, w_log (Destroy db branch force checkout w).2 = (l ++ w_log w)%list ∧ Forall (safe_delete force) l.
Proof.
  intros Hc. destruct (Destroy db branch force checkout w) as [r w'] eqn:E.
  destruct (tspec_Destroy (w_caps w) Hc force (w_now w) db branch checkout _ _ _ (Z.le_refl _) eq_refl E)
    as [(l & ? & ? & _) _]. eauto.
Qed.

Lemma destroy_never_kills_live_lease_witness :
  ∃ l, w_log (Destroy "app" "main" false None (ex_world ex_ref_objs [])).2 = (l ++ [])%list
       ∧ Forall (safe_delete false) l.
Proof. exact (destroy_never_kills_live_lease "app" "main" false None (ex_world ex_ref_objs []) eq_refl). Defined.

(** ** Reaping *)

Section reap_safety.
Context (c : caps) (Hcond : c_conditional_delete c = true).

Lemma tspec_puts {A} t (m : IO A) :
  spec (λ x, wr_after x ≠ None) (λ _, True) m → tspec t c (safe_delete false) (λ _ _, True) m.
Proof.
  intros Hm. apply (tspec_of_spec _ _ _ (λ _, True)). eapply spec_mono; [|exact Hm]. by intros x Hx ?.
Qed.

Lemma tspec_reapOne t db branch now checkout :
  tspec t c (safe_delete false) (λ _ _, True) (reapOne db branch now checkout).
Proof.
  assert (∀ ref tag, spec (λ x, wr_after x ≠ None) (λ _, True) (clearStaleReapingClaim db branch ref tag)) as Hclear.
  { intros ref tag. unfold clearStaleReapingClaim. eapply spec_bind; [apply spec_try, spec_PutRef; done|].
    intros [?|e] _; [by apply spec_ret|]. destruct (errors_Is e ErrCAS); [by apply spec_ret|apply spec_fail]. }
  unfold reapOne. eapply tspec_bind; [apply tspec_try, tspec_of_spec, spec_GetRef|].
  intros [[ref tag]|e] t1 _ _.
  2:{ destruct (errors_Is e ErrNotFound); [by apply tspec_ret|apply tspec_fail]. }
  destruct (_ || _); [by apply tspec_ret|]. destruct (liveDeleteClaim ref now); [by apply tspec_ret|].
  destruct (ReapDeadline ref) as [d|]; [destruct (now <? d)%Z|];
    try (destruct (r_reaping ref); [by apply tspec_puts|by apply tspec_ret]).
  eapply tspec_bind with (Q := λ _ _, True).
  { apply tspec_puts. eapply spec_weaken; [|apply spec_try, spec_PutRef; done]. done. }
  intros [ct|e] t2 _ _.
  2:{ destruct (errors_Is e ErrCAS); [by apply tspec_ret|apply tspec_fail]. }
  eapply tspec_bind; [by apply tspec_try, tspec_Destroy|]. intros [u|e] t3 _ _; [by apply tspec_ret|].
  eapply tspec_bind; [apply tspec_puts|intros; destruct (errors_Is e ErrDeleting); [by apply tspec_ret|apply tspec_fail]].
  unfold unwind_reaping. eapply spec_bind; [apply spec_try, spec_GetRef|].
  intros [[ref2 tag2]|e2] _; [|by apply spec_ret]. eapply spec_bind; [apply spec_now|]. intros t4 _.
  destruct (_ && _); [|by apply spec_ret].
  eapply spec_bind; [apply spec_try, spec_PutRef; done|]. intros. by apply spec_ret.
Qed.

Lemma tspec_Reap t now checkout : tspec t c (safe_delete false) (λ _ _, True) (Reap now checkout).
Proof.
  unfold Reap. eapply tspec_bind; [apply tspec_of_spec, spec_ListRefs|]. intros refs t1 _ _.
  revert t1. generalize (flat_refs refs), ([] : list string), (None : option error). intros names.
  induction names as [|[db br] names IH]; intros reaped fe t1; simpl; [by apply tspec_ret|].
  eapply tspec_bind; [apply tspec_try, tspec_reapOne|]. intros [[]|e] t2 _ _; apply IH.
Qed.
End reap_safety.

(** reaping never takes a branch from its writer: on a backend with
    conditional deletes, on every interleaving and every pattern of faults, every
    ref a reap pass deletes is under a delete claim, unprotected, and carries no
    lease live at the moment of the delete. *)
Lemma reap_never_kills_live_lease now checkout w :
  c_conditional_delete (w_caps w) = true →
  ∃ l, w_log (Reap now checkout w).2 = (l ++ w_log w)%list ∧ Forall (safe_delete false) l.
Proof.
  intros Hc. destruct (Reap now checkout w) as [r w'] eqn:E.
  destruct (tspec_Reap (w_caps w) Hc (w_now w) now checkout _ _ _ (Z.le_refl _) eq_refl E)
    as [(l & ? & ? & _) _]. eauto.
Qed.

Lemma reap_never_kills_live_lease_witness :
  ∃ l, w_log (Reap 0 (λ _ _, None) (ex_world ex_ref_objs [])).2 = (l ++ [])%list
       ∧ Forall (safe_delete false) l.
Proof. exact (reap_never_kills_live_lease 0 (λ _ _, None) (ex_world ex_ref_objs []) eq_refl). Defined.

(** ** Outcomes of a sequential run *)

(** Why a destroy is refused, in the order the code checks. *)
Definition destroy_refusal (r : Ref) (force : bool) (t : Z) : option error :=
  if r_protected r && negb force then Some [EProtected]
  else if negb force && LeaseLive r t then Some [ErrLeaseHeld]
  else if liveDeleteClaim r t then Some [ErrDeleting]
  else None.

Lemma delete_via_store (m : objs) k o : delete k (partial_alter (λ _, Some o) k m) = delete k m.
Proof.
  apply map_eq. intros j. destruct (decide (k = j)) as [<-|].
  - by rewrite !lookup_delete_eq.
  - by rewrite !lookup_delete_ne, lookup_partial_alter_ne.
Qed.

(** There is no checkout, or it quiesces well within the life of a claim. *)
Definition checkout_quiesces (checkout : option (N * res unit)) : Prop :=
  match checkout with
  | None => True
  | Some (d, r) => r = Ok tt ∧ (Z.of_N d + deleteClaimMargin < staleDeletingClaimAfter)%Z
  end.

(** What a destroy leaves of the world beside the ref: only time has passed. *)
Record destroyed (w w' : world) (key : string) : Prop := mk_destroyed {
  dd_objs : w_objs w' = delete key (w_objs w);
  dd_calm : calm w';
  dd_caps : w_caps w' = w_caps w;
  dd_ids : w_ids w' = w_ids w ∧ w_nid w' = w_nid w }.

Lemma deleteClaimedRef_calm db branch claimed force w :
  calm w → w_objs w !! RefKey db branch = Some (ORef (encodeRef claimed)) →
  deleteClaimedRef db branch claimed (TagOf (ORef (encodeRef claimed))) force w
  = (Ok tt, store_at (RefKey db branch) None w).
Proof.
  intros Hc Ho. unfold deleteClaimedRef. simpl. unfold DeleteRefIf, get_caps. rewrite !io_bind_eq, !try_eq, io_bind_eq.
  destruct (c_conditional_delete (w_caps w)); [|by rewrite Delete_calm].
  rewrite DeleteIf_calm, Ho, kv_match_self by done. rewrite bool_decide_eq_true_2 by done. done.
Qed.

Lemma destroy_claimed_calm db branch claimed force checkout w :
  calm w → r_deleting claimed = true → r_deleting_at claimed = At (w_now w) → checkout_quiesces checkout →
  w_objs w !! RefKey db branch = Some (ORef (encodeRef claimed)) →
  ∃ w', destroy_claimed db branch claimed (TagOf (ORef (encodeRef claimed))) force checkout w = (Ok tt, w')
    ∧ destroyed w w' (RefKey db branch).
Proof.
  intros Hc Hd Hda Hq Ho.
  assert (∃ d, (match checkout with None => mret (Ok tt) | Some (d, r) => _ ← sleep d; mret r end) w
    = (Ok (Ok tt), mkWorld (w_objs w) (w_now w + Z.of_N d) (w_sched w) (w_caps w) (w_ids w) (w_nid w) (w_layout2 w) (w_log w))
    ∧ (Z.of_N d + deleteClaimMargin < staleDeletingClaimAfter)%Z) as (d & E & Hd').
  { destruct checkout as [[d r]|]; [destruct Hq as [-> Hq]; exists d; split; [done|done]|].
    exists 0%N. split; [|done]. destruct w; cbn. by rewrite Z.add_0_r. }
  unfold destroy_claimed. rewrite io_bind_eq, E. set (w1 := mkWorld _ _ _ _ _ _ _ _). cbv beta match.
  rewrite io_bind_eq, now_eq.
  assert (liveDeleteClaim claimed (w_now w1 + deleteClaimMargin) = true) as ->.
  { unfold liveDeleteClaim. rewrite Hd, Hda. simpl. unfold deleteClaimFresh.
    unfold deleteClaimMargin, staleDeletingClaimAfter, deleteClaimClockSlack, second in *.
    apply andb_true_iff. rewrite Z.ltb_lt, Z.leb_le. lia. }
  simpl. rewrite io_bind_eq, try_eq, deleteClaimedRef_calm by done.
  eexists. split; [done|]. by split.
Qed.

(** the outcome of a destroy that runs alone, on every branch of the code:
    refused (protected, live lease, another destroy's live claim) with the store
    untouched, or done, with the branch's ref gone and nothing else changed. *)
Theorem destroy_outcome db branch force checkout w wire r :
  calm w → ValidateName db = Ok tt → ValidateName branch = Ok tt → checkout_quiesces checkout →
  w_objs w !! RefKey db branch = Some (ORef wire) → decodeRef wire = Ok r →
  match destroy_refusal r force (w_now w) with
  | Some e => Destroy db branch force checkout w = (Err e, w)
  | None => ∃ w', Destroy db branch force checkout w = (Ok tt, w') ∧ destroyed w w' (RefKey db branch)
  end.
Proof.
  intros Hc Hdb Hbr Hq Ho Hd. unfold destroy_refusal.
  assert (Destroy db branch force checkout w =
    (if r_protected r && negb force then fail [EProtected] else
     t ← now;
     if negb force && LeaseLive r t then fail [ErrLeaseHeld] else
     if liveDeleteClaim r t then fail [ErrDeleting] else
     let claimed := set_deleting_at (At t) (set_deleting true r) in
     p ← try (PutRef db branch claimed (TagOf (ORef wire)));
     claimTag ← match p with
                | Ok claimTag => mret claimTag
                | Err e => landedClaim db branch claimed (TagOf (ORef wire)) force e
                end;
     destroy_claimed db branch claimed claimTag force checkout) w) as ->.
  { unfold Destroy. rewrite io_bind_eq. unfold lift. rewrite Hdb, io_bind_eq, Hbr.
    rewrite io_bind_eq, (GetRef_calm _ _ _ wire r) by done. done. }
  destruct (r_protected r && negb force); [done|]. rewrite io_bind_eq, now_eq.
  destruct (negb force && LeaseLive r (w_now w)); [done|].
  destruct (liveDeleteClaim r (w_now w)); [done|]. cbv zeta.
  rewrite io_bind_eq, try_eq, PutRef_calm by (done || by rewrite Ho, kv_match_self). cbn [fst snd].
  rewrite io_bind_eq, io_ret_eq. set (claimed := set_deleting_at _ _). set (w1 := store_at _ _ w).
  destruct (destroy_claimed_calm db branch claimed force checkout w1) as (w' & E & [Hw1 Hw2 Hw3 Hw4]); [done..| |].
  { apply store_at_lookup. }
  exists w'. split; [exact E|]. split; [|done..]. rewrite Hw1. apply delete_via_store.
Qed.

Lemma destroy_outcome_witness :
  ∃ w', Destroy "app" "main" false None (ex_world ex_ref_objs []) = (Ok tt, w')
        ∧ w_objs w' = delete (RefKey "app" "main") ex_ref_objs.
Proof.
  destruct (destroy_outcome "app" "main" false None (ex_world ex_ref_objs []) (encodeRef ex_ref) ex_ref)
    as (w' & E & [Ho _ _ _]); try (vm_compute; reflexivity); try exact I. exists w'. split; [exact E|exact Ho].
Defined.
