(* ===== verification/RefOps.v ===== *)
(** * Metadata operations on a branch

    [internal/ops/touch.go] ([Touch]), [internal/ops/protect.go]
    ([SetProtected]), [internal/ops/prune.go] ([PruneCheckpoints]): loops that
    read the ref, decide, and write it back by compare-and-swap, starting over
    when they lose. *)
From Stdlib Require Import Ascii String.
From S2P Require Import Prelude GoStrings Keys Refs Backend Store Lease.
Local Open Scope string_scope.

(** Write the ref and return [a], or ask for another round on a lost
    compare-and-swap. *)
Definition put_or_retry {A} (db branch : string) (ref : Ref) (tag : etag) (a : A) : IO (option A) :=
  p ← try (PutRef db branch ref tag);
  match p with
  | Err e => if errors_Is e ErrCAS then mret None else fail e
  | Ok _ => mret (Some a)
  end.

(** [ttl]: [None] keeps the TTL, [Some d] sets it when positive and clears it
    otherwise. *)
Definition touched (ref : Ref) (ttl : option Z) (now : Z) : Ref :=
  Touch now match ttl with
            | None => ref
            | Some d => if (0 <? d)%Z then set_ttl (TTLof d) ref else set_ttl NoTTL ref
            end.

Definition touch_body (db branch : string) (ttl : option Z) (now : Z) : IO (option Ref) :=
  '(ref, tag) ← GetRef db branch;
  if r_reaping ref then fail [EBeingReaped]
  else put_or_retry db branch (touched ref ttl now) tag (touched ref ttl now).

Definition TouchBranch (db branch : string) (ttl : option Z) (now : Z) : IO Ref :=
  _ ← lift (ValidateName db);
  _ ← lift (ValidateName branch);
  loop (touch_body db branch ttl now).

Definition protect_body (db branch : string) (protected : bool) : IO (option Ref) :=
  '(ref, tag) ← GetRef db branch;
  if r_reaping ref || r_deleting ref then fail [EBeingRemoved]
  else if bool_decide (r_protected ref = protected) then mret (Some ref)
  else put_or_retry db branch (set_protected protected ref) tag (set_protected protected ref).

Definition SetProtected (db branch : string) (protected : bool) : IO Ref :=
  _ ← lift (ValidateName db);
  _ ← lift (ValidateName branch);
  loop (protect_body db branch protected).

(** ** Pruning checkpoints *)

Record PruneOptions := mkPrune {
  o_names : list string;
  o_keep : Z;
  o_keepset : bool;
  o_force : bool }.

Record PruneResult := mkPruned { p_deleted : list string; p_kept : nat }.

(** The names to drop: all but the newest [Keep], or exactly the names given,
    which must all exist. *)
Definition drop_names (cps : gmap string Checkpoint) (opts : PruneOptions) : res (gset string) :=
  if o_keepset opts then
    Ok (list_to_set (drop (Nat.min (Z.to_nat (o_keep opts)) (size cps)) (newestFirst cps)))
  else if decide (Forall (λ n, is_Some (cps !! n)) (o_names opts)) then Ok (list_to_set (o_names opts))
  else Err [ENoCheckpoint].

Definition pruned (ref : Ref) (dropped : gset string) : Ref :=
  set_checkpoints (filter (λ '(n, _), n ∉ dropped) (r_checkpoints ref)) ref.

Definition prune_body (db branch : string) (opts : PruneOptions) : IO (option PruneResult) :=
  '(ref, tag) ← GetRef db branch;
  if r_reaping ref || r_deleting ref then fail [EBeingRemoved]
  else if r_protected ref && negb (o_force opts) then fail [EProtected]
  else
    dropped ← lift (drop_names (r_checkpoints ref) opts);
    let res := mkPruned (sort_by String.le (elements dropped))
                 (size (r_checkpoints ref) - size dropped) in
    if bool_decide (dropped = ∅) then mret (Some res)
    else put_or_retry db branch (pruned ref dropped) tag res.

Definition validate_prune (opts : PruneOptions) : res unit :=
  if o_keepset opts && negb (bool_decide (o_names opts = [])) then Err [EBadArgs]
  else if negb (o_keepset opts) && bool_decide (o_names opts = []) then Err [EBadArgs]
  else if o_keepset opts && (o_keep opts <? 0)%Z then Err [EBadArgs]
  else if forallb (λ n, is_ok (ValidateName n)) (o_names opts) then Ok tt else Err [EBadName].

Definition PruneCheckpoints (db branch : string) (opts : PruneOptions) : IO PruneResult :=
  _ ← lift (ValidateName db);
  _ ← lift (ValidateName branch);
  _ ← lift (validate_prune opts);
  loop (prune_body db branch opts).

(** ** Termination *)

Lemma next_tick_sched w t w' : next_tick w = (t, w') → w_sched w' = tail (w_sched w).
Proof. unfold next_tick. destruct (w_sched w) as [|t0 l] eqn:E; intros; simplify_eq/=; done. Qed.

Lemma Get_sched key w : w_sched (Get key w).2 = tail (w_sched w).
Proof.
  unfold Get. destruct (next_tick w) as [t w1] eqn:E. apply next_tick_sched in E as <-.
  by destruct (tk_fault t).
Qed.

Lemma PutIf_sched key o tag w : w_sched (PutIf key o tag w).2 = tail (w_sched w).
Proof.
  unfold PutIf. destruct (next_tick w) as [t w1] eqn:E. apply next_tick_sched in E as <-.
  destruct (tk_fault t); try done; by destruct (kv_match _ _).
Qed.

(** Losing a compare-and-swap takes an interfering tick. *)
Lemma PutIf_conflict_sched key o (tag : etag) w e w' :
  PutIf key o tag w = (Err e, w') → errors_Is e ErrCAS = true →
  kv_match (w_objs w !! key) tag = true → (length (w_sched w') < length (w_sched w))%nat.
Proof.
  intros H He Hm. pose proof (PutIf_sched key o tag w) as Hs. rewrite H in Hs. simpl in Hs. rewrite Hs.
  destruct (w_sched w) as [|t l] eqn:E; [|simpl; lia]. exfalso.
  rewrite PutIf_calm in H by done. by rewrite Hm in H.
Qed.

Lemma GetRef_Ok_sched db branch w r tag w' :
  GetRef db branch w = (Ok (r, tag), w') → (length (w_sched w') <= length (w_sched w))%nat.
Proof.
  unfold GetRef. rewrite io_bind_eq, try_eq. intros H.
  assert (w' = (Get (RefKey db branch) w).2) as ->.
  { destruct (Get (RefKey db branch) w) as [[[[] t]|e] w1]; simpl in H; try (by inversion H).
    - by destruct (decodeRef w0); inversion H.
    - destruct (errors_Is e ErrNotFound); [|done]. rewrite io_bind_eq in H.
      destruct (describeMissingRef db branch w1) as [[]]; done. }
  rewrite Get_sched. destruct (w_sched w); simpl; lia.
Qed.

(** A read-decide-write round that asks for another one has consumed part of
    the schedule. *)
Lemma cas_round_progresses {A} db branch (f : Ref → etag → IO (option A)) :
  (∀ ref tag w w', f ref tag w = (Ok None, w') →
     ∃ ref' a, put_or_retry (A:=A) db branch ref' tag a w = (Ok None, w')) →
  progresses ('(ref, tag) ← GetRef db branch; f ref tag).
Proof.
  intros Hf w w' H. rewrite io_bind_eq in H.
  destruct (GetRef db branch w) as [[[ref tag]|e] w1] eqn:Eg; [|done].
  pose proof (GetRef_Ok_sched _ _ _ _ _ _ Eg) as Hle.
  apply GetRef_Ok in Eg as (wire & -> & _ & _ & Ho).
  destruct (Hf _ _ _ _ H) as (ref' & a & Hp). clear H. unfold put_or_retry in Hp.
  rewrite io_bind_eq, try_eq in Hp.
  destruct (PutRef db branch ref' (TagOf (ORef wire)) w1) as [[t|e] w2] eqn:Ep; [done|]. simpl in Hp.
  destruct (errors_Is e ErrCAS) eqn:Ee; [|done]. rewrite io_ret_eq in Hp. simplify_eq.
  unfold PutRef in Ep. rewrite io_bind_eq in Ep. unfold lift in Ep.
  destruct (ValidateName db) as [u|eb] eqn:Ev; [|simplify_eq; exfalso; revert Ee Ev; unfold ValidateName;
    repeat case_match; intros; simplify_eq; done].
  rewrite io_bind_eq in Ep.
  destruct (ValidateName branch) as [u'|eb] eqn:Ev'; [|simplify_eq; exfalso; revert Ee Ev'; unfold ValidateName;
    repeat case_match; intros; simplify_eq; done].
  apply PutIf_conflict_sched in Ep; [lia|done|]. by rewrite Ho, kv_match_self.
Qed.

(** ** Guarantees *)

Lemma spec_put_or_retry {A} db branch ref tag ref' (a : A) (Q : A → Prop) :
  read_ref (ref, tag) → wire_trans (encodeRef ref) (encodeRef ref') → Q a →
  spec ref_guar (λ r, ∀ x, r = Some x → Q x) (put_or_retry db branch ref' tag a).
Proof.
  intros Hr Ht HQ. unfold put_or_retry.
  eapply spec_bind; [apply spec_try, (spec_update _ _ ref tag); done|].
  intros [t|e] _; simpl; [apply spec_ret; naive_solver|].
  destruct (errors_Is e ErrCAS); [by apply spec_ret|apply spec_fail].
Qed.

Lemma spec_valid_names {A} P (Q : A → Prop) db branch (m : IO A) :
  spec P Q m → spec P Q (_ ← lift (ValidateName db); _ ← lift (ValidateName branch); m).
Proof.
  intros Hm. do 2 (eapply spec_bind; [apply spec_lift with (Q := λ _, True); done|]; intros _ _). done.
Qed.

Lemma spec_TouchBranch db branch ttl now : spec ref_guar (λ _, True) (TouchBranch db branch ttl now).
Proof.
  unfold TouchBranch. apply spec_valid_names, spec_loop. unfold touch_body.
  eapply spec_bind; [apply spec_GetRef|]. intros [ref tag] Hr. destruct (r_reaping ref); [apply spec_fail|].
  eapply spec_put_or_retry; [exact Hr| |done]. unfold touched.
  apply wire_trans_same; destruct ttl as [d|]; simpl; try destruct (0 <? d)%Z; auto.
Qed.

Lemma spec_SetProtected db branch p : spec ref_guar (λ _, True) (SetProtected db branch p).
Proof.
  unfold SetProtected. apply spec_valid_names, spec_loop. unfold protect_body.
  eapply spec_bind; [apply spec_GetRef|]. intros [ref tag] Hr. destruct (_ || _); [apply spec_fail|].
  destruct (bool_decide _); [by apply spec_ret|].
  eapply spec_put_or_retry; [exact Hr| |done]. apply wire_trans_same; auto.
Qed.

Lemma spec_PruneCheckpoints db branch opts : spec ref_guar (λ _, True) (PruneCheckpoints db branch opts).
Proof.
  unfold PruneCheckpoints. apply spec_valid_names.
  eapply spec_bind; [apply spec_lift with (Q := λ _, True); done|]. intros _ _. apply spec_loop.
  unfold prune_body. eapply spec_bind; [apply spec_GetRef|]. intros [ref tag] Hr.
  destruct (_ || _); [apply spec_fail|]. destruct (_ && _); [apply spec_fail|].
  eapply spec_bind; [apply spec_lift with (Q := λ _, True); done|]. intros dropped _.
  destruct (bool_decide _); [by apply spec_ret|].
  eapply spec_put_or_retry; [exact Hr| |done]. apply wire_trans_same; auto.
Qed.

(** ** Theorems *)

(** A body built from GetRef and PutRef never reports exhausted fuel. *)
Lemma GetRef_no_fuel db branch w e w' : GetRef db branch w = (Err e, w') → EFuel ∉ e.
Proof.
  unfold GetRef. rewrite io_bind_eq, try_eq. intros H.
  destruct (Get (RefKey db branch) w) as [[[o t]|e0] w1] eqn:Eg; simpl in H.
  - destruct o; try (unfold fail in H; simplify_eq; set_solver).
    destruct (decodeRef w0) eqn:Ed; [done|]. unfold fail in H. simplify_eq.
    revert Ed. unfold decodeRef. repeat case_match; intros; simplify_eq; set_solver.
  - assert (EFuel ∉ e0) as He0.
    { revert Eg. unfold Get. destruct (next_tick w) as [t w2]. unfold kv_get.
      repeat case_match; intros; simplify_eq; set_solver. }
    destruct (errors_Is e0 ErrNotFound).
    + rewrite io_bind_eq in H. unfold describeMissingRef in H. rewrite io_bind_eq, try_eq, io_ret_eq in H.
      unfold fail in H. simplify_eq. set_solver.
    + unfold fail in H. by simplify_eq.
Qed.

Lemma ValidateName_no_fuel n e : ValidateName n = Err e → EFuel ∉ e.
Proof. unfold ValidateName. repeat case_match; intros; simplify_eq; set_solver. Qed.

Lemma put_or_retry_no_fuel {A} db branch ref tag (a : A) w e w' :
  put_or_retry db branch ref tag a w = (Err e, w') → EFuel ∉ e.
Proof.
  unfold put_or_retry. rewrite io_bind_eq, try_eq. intros H.
  destruct (PutRef db branch ref tag w) as [[t|e0] w1] eqn:Ep; simpl in H; [done|].
  destruct (errors_Is e0 ErrCAS); [done|]. unfold fail in H. simplify_eq.
  unfold PutRef in Ep. rewrite io_bind_eq in Ep. unfold lift in Ep.
  destruct (ValidateName db) eqn:Ev; [|simplify_eq; by eapply ValidateName_no_fuel].
  rewrite io_bind_eq in Ep.
  destruct (ValidateName branch) eqn:Ev'; [|simplify_eq; by eapply ValidateName_no_fuel].
  revert Ep. unfold PutIf. destruct (next_tick w) as [t w2]. repeat case_match; intros; simplify_eq; set_solver.
Qed.

Lemma cas_round_no_fuel {A} db branch (f : Ref → etag → IO (option A)) w e w' :
  (∀ ref tag w e w', f ref tag w = (Err e, w') → EFuel ∉ e) →
  ('(ref, tag) ← GetRef db branch; f ref tag) w = (Err e, w') → EFuel ∉ e.
Proof.
  intros Hf H. rewrite io_bind_eq in H. destruct (GetRef db branch w) as [[[ref tag]|e0] w1] eqn:Eg.
  - by eapply Hf.
  - simplify_eq. by eapply GetRef_no_fuel.
Qed.

Lemma valid_names_no_fuel {A} db branch (m : IO A) w e w' :
  (∀ w e w', m w = (Err e, w') → EFuel ∉ e) →
  (_ ← lift (ValidateName db); _ ← lift (ValidateName branch); m) w = (Err e, w') → EFuel ∉ e.
Proof.
  intros Hm. rewrite io_bind_eq. unfold lift.
  destruct (ValidateName db) eqn:Ev; [|intros; simplify_eq; by eapply ValidateName_no_fuel].
  rewrite io_bind_eq.
  destruct (ValidateName branch) eqn:Ev'; [|intros; simplify_eq; by eapply ValidateName_no_fuel].
  apply Hm.
Qed.

(** the compare-and-swap loops end: touching, protecting and pruning return
    on every schedule, since a round is repeated only after another process's
    write or a fault; none of them runs out of fuel. *)
Theorem ref_loops_terminate db branch ttl now protected opts w e w' :
  (TouchBranch db branch ttl now w = (Err e, w') → EFuel ∉ e)
  ∧ (SetProtected db branch protected w = (Err e, w') → EFuel ∉ e)
  ∧ (PruneCheckpoints db branch opts w = (Err e, w') → EFuel ∉ e).
Proof.
  split_and!.
  - apply valid_names_no_fuel. clear. intros w e w'. apply loop_terminates.
    + apply cas_round_progresses. intros ref tag w1 w1' H. destruct (r_reaping ref); [done|]. eauto.
    + clear. intros w e w'. apply cas_round_no_fuel. intros ref tag w1 e1 w1'.
      destruct (r_reaping ref); [intros [= <- _]; set_solver|]. apply put_or_retry_no_fuel.
  - apply valid_names_no_fuel. clear. intros w e w'. apply loop_terminates.
    + apply cas_round_progresses. intros ref tag w1 w1' H.
      destruct (_ || _); [done|]. destruct (bool_decide _); [done|]. eauto.
    + clear. intros w e w'. apply cas_round_no_fuel. intros ref tag w1 e1 w1'.
      destruct (_ || _); [intros [= <- _]; set_solver|]. destruct (bool_decide _); [done|].
      apply put_or_retry_no_fuel.
  - apply valid_names_no_fuel. clear. intros w e w'. rewrite io_bind_eq. unfold lift at 1.
    destruct (validate_prune opts) as [u|ev] eqn:Ev.
    2:{ intros [= <- <-]. revert Ev. unfold validate_prune. repeat case_match; intros; simplify_eq; set_solver. }
    apply loop_terminates.
    + apply cas_round_progresses. intros ref tag w1 w1' H.
      destruct (_ || _); [done|]. destruct (_ && _); [done|]. rewrite io_bind_eq in H. unfold lift in H.
      destruct (drop_names _ _) as [D|]; [|done]. destruct (bool_decide _); [done|]. eauto.
    + clear. intros w e w'. apply cas_round_no_fuel. intros ref tag w1 e1 w1'.
      destruct (_ || _); [intros [= <- _]; set_solver|]. destruct (_ && _); [intros [= <- _]; set_solver|].
      rewrite io_bind_eq. unfold lift. destruct (drop_names _ _) as [D|ed] eqn:Ed.
      * destruct (bool_decide _); [done|]. apply put_or_retry_no_fuel.
      * intros [= <- _]. revert Ed. unfold drop_names. repeat case_match; intros; simplify_eq; set_solver.
Qed.

Lemma ref_loops_terminate_witness :
  (TouchBranch "app" "none" None 0 (ex_world ex_ref_objs [])).1 = Err [ErrNotFound] ∧ EFuel ∉ [ErrNotFound].
Proof.
  assert ((TouchBranch "app" "none" None 0 (ex_world ex_ref_objs [])).1 = Err [ErrNotFound]) as H
    by (vm_compute; reflexivity).
  split; [exact H|].
  exact (proj1 (ref_loops_terminate "app" "none" None 0 false (mkPrune [] 0 false false) _ _ _) (run_Err _ _ _ H)).
Defined.

(** ** Pruning *)

(** A write that drops from the ref it replaces exactly what the options select
    there. *)
Definition prune_write (opts : PruneOptions) (x : write) : Prop :=
  ∃ wire r D, wr_before x = Some (ORef wire) ∧ decodeRef wire = Ok r
    ∧ r_reaping r = false ∧ r_deleting r = false ∧ (r_protected r = true → o_force opts = true)
    ∧ drop_names (r_checkpoints r) opts = Ok D ∧ wr_after x = Some (ORef (encodeRef (pruned r D))).

(** The report of a prune of the checkpoints [cps]. *)
Definition prune_report (opts : PruneOptions) (res : PruneResult) : Prop :=
  ∃ cps D, drop_names cps opts = Ok D ∧ list_to_set (p_deleted res) = D
    ∧ StronglySorted String.le (p_deleted res)
    ∧ p_kept res = size (filter (λ '(n, _), n ∉ D) cps).

Lemma drop_names_subset cps opts D : drop_names cps opts = Ok D → D ⊆ dom cps.
Proof.
  unfold drop_names. destruct (o_keepset opts); [|destruct (decide _) as [f|]; [|done]];
    intros [= <-] n.
  - rewrite elem_of_list_to_set. intros Hn.
    apply elem_of_dom, elem_of_newestFirst. eapply elem_of_sublist; [exact Hn|apply sublist_drop].
  - rewrite elem_of_list_to_set. intros Hn. rewrite Forall_forall in f. apply elem_of_dom. by apply f.
Qed.

Lemma size_pruned (cps : gmap string Checkpoint) (D : gset string) :
  D ⊆ dom cps → size (filter (λ '(n, _), n ∉ D) cps) = (size cps - size D)%nat.
Proof.
  intros Hsub. rewrite <-!size_dom.
  assert (dom (filter (λ '(n, _), n ∉ D) cps) = dom cps ∖ D) as ->.
  { apply set_eq. intros n. rewrite elem_of_difference, !elem_of_dom. split.
    - intros [cp [Hc Hn]%map_lookup_filter_Some]. split; [by eexists|done].
    - intros [[cp Hc] Hn]. exists cp. by apply map_lookup_filter_Some. }
  rewrite size_difference by done. done.
Qed.

Lemma spec_prune opts db branch : spec (prune_write opts) (prune_report opts) (PruneCheckpoints db branch opts).
Proof.
  unfold PruneCheckpoints. apply spec_valid_names.
  eapply spec_bind; [apply spec_lift with (Q := λ _, True); done|]. intros _ _. apply spec_loop.
  unfold prune_body. eapply spec_bind; [apply spec_GetRef|]. intros [ref tag] (wire & Et & Hd). simpl in *. subst tag.
  destruct (_ || _) eqn:E1; [apply spec_fail|]. destruct (_ && _) eqn:E2; [apply spec_fail|].
  eapply spec_bind; [apply spec_lift with (Q := λ D, drop_names (r_checkpoints ref) opts = Ok D); naive_solver|].
  intros D HD. apply orb_false_iff in E1 as [Er Edel].
  set (res := mkPruned _ _).
  assert (prune_report opts res) as Hrep.
  { exists (r_checkpoints ref), D. split_and!; [done| | |].
    - apply set_eq. intros n. rewrite elem_of_list_to_set. simpl.
      rewrite elem_of_sort_by. by rewrite elem_of_elements.
    - simpl. apply sort_by_sorted; apply _.
    - simpl. rewrite size_pruned; [done|]. exact (drop_names_subset _ _ _ HD). }
  destruct (bool_decide _); [apply spec_ret; naive_solver|].
  unfold put_or_retry. eapply spec_bind; [apply spec_try, spec_PutRef|].
  - intros b τ _ _ [[? _]|(o & [= <-] & ->)]%kv_match_before; [done|].
    exists wire, ref, D. split_and!; try done. intros Hp. rewrite Hp in E2. by destruct (o_force opts).
  - intros [t|e] _; simpl; [apply spec_ret; naive_solver|].
    destruct (errors_Is e ErrCAS); [by apply spec_ret|apply spec_fail].
Qed.

Lemma newestFirst_ranked cps i j a b :
  newestFirst cps !! i = Some a → newestFirst cps !! j = Some b → (i < j)%nat → newer cps a b.
Proof.
  intros Ha Hb Hij. pose proof (newestFirst_sorted cps) as Hs.
  revert i j Ha Hb Hij. induction Hs as [|x l Hs IH Hf]; intros i j Ha Hb Hij; [done|].
  destruct j as [|j]; [lia|]. simpl in Hb. destruct i as [|i]; simpl in Ha.
  - simplify_eq. rewrite Forall_forall in Hf. apply Hf. by eapply list_elem_of_lookup_2.
  - eapply IH; [done|done|lia].
Qed.

(** A keep prune keeps the newest: of the checkpoints a keep count selects
    to stay, each ranks at or before (later transaction, then later stamp, then
    name) every one selected to go, and as many stay as the count asks for or
    the branch has. *)
Theorem prune_keeps_newest cps opts D a b :
  o_keepset opts = true → drop_names cps opts = Ok D →
  (is_Some (cps !! a) → a ∉ D → b ∈ D → newer cps a b ∧ a ≠ b)
  ∧ size (filter (λ '(n, _), n ∉ D) cps) = Nat.min (Z.to_nat (o_keep opts)) (size cps).
Proof.
  intros Hk HD. pose proof (drop_names_subset _ _ _ HD) as Hsub.
  unfold drop_names in HD. rewrite Hk in HD. simplify_eq.
  set (k := Nat.min (Z.to_nat (o_keep opts)) (size cps)) in *. split.
  - intros Ha HaD HbD. rewrite elem_of_list_to_set in HaD. rewrite elem_of_list_to_set in HbD.
    split; [|by intros ->]. apply elem_of_newestFirst, list_elem_of_lookup in Ha as [i Hi].
    apply list_elem_of_lookup in HbD as [j Hj]. rewrite lookup_drop in Hj.
    eapply newestFirst_ranked; [exact Hi|exact Hj|].
    destruct (Nat.lt_ge_cases i k); [lia|]. exfalso. apply HaD.
    apply list_elem_of_lookup. exists (i - k)%nat. rewrite lookup_drop. by replace (k + (i - k))%nat with i by lia.
  - rewrite size_pruned by done. rewrite size_list_to_set.
    + rewrite length_drop, length_newestFirst. lia.
    + eapply sublist_NoDup; [apply newestFirst_NoDup|apply sublist_drop].
Qed.

Definition ex_cps : gmap string Checkpoint :=
  list_to_map [("a", mkCheckpoint 1 1 "" ∅ ""); ("b", mkCheckpoint 3 1 "" ∅ ""); ("c", mkCheckpoint 2 1 "" ∅ "")].

Lemma prune_keeps_newest_witness :
  newer ex_cps "b" "a" ∧ size (filter (λ '(n, _), n ∉ ({["a"; "c"]} : gset string)) ex_cps) = 1%nat.
Proof.
  destruct (prune_keeps_newest ex_cps (mkPrune [] 1 true false) {["a"; "c"]} "b" "a" eq_refl) as [H1 H2].
  { vm_compute. reflexivity. }
  split; [|exact H2]. apply H1.
  - vm_compute. eexists. reflexivity.
  - apply (bool_decide_unpack _). vm_compute. reflexivity.
  - apply (bool_decide_unpack _). vm_compute. reflexivity.
Defined.

(** Pruning is exact under concurrency: on every schedule, every write of a
    prune drops from the ref it replaced exactly the checkpoints the options
    select in that very ref (so none recorded meanwhile is lost) and leaves
    everything else of it alone, never under a reap or delete claim and never on
    a protected branch without force; and a prune that returns reports the
    dropped names, sorted, and the number kept. *)
Theorem prune_exact db branch opts w :
  (∃ l, w_log (PruneCheckpoints db branch opts w).2 = (l ++ w_log w)%list ∧ Forall (prune_write opts) l)
  ∧ (∀ res, (PruneCheckpoints db branch opts w).1 = Ok res → prune_report opts res).
Proof.
  destruct (PruneCheckpoints db branch opts w) as [r w'] eqn:E.
  destruct (spec_prune opts db branch _ _ _ E) as [(l & ? & ? & _) Hr]. split; [eauto|]. simpl. naive_solver.
Qed.

Lemma prune_exact_witness : prune_report (mkPrune ["init"] 0 false false) (mkPruned ["init"] 0).
Proof.
  apply (proj2 (prune_exact "app" "main" (mkPrune ["init"] 0 false false) (ex_world ex_ref_objs []))).
  vm_compute. reflexivity.
Defined.
