(* ===== verification/Files.v ===== *)
(** * Bytes and files

    Byte slices, the [encoding/binary] readers, and a file as its byte
    contents with [os.File]'s [ReadAt], [WriteAt] and [Truncate]; then the
    pages of a database file and how each operation changes them.  Used by
    the models of [internal/wal], [internal/replay], [internal/ltxio] and
    [internal/session]. *)
From Stdlib Require Import Strings.Byte.
From S2P Require Import Prelude.
Local Open Scope N_scope.

Abbreviation bytes := (list byte).

#[global] Instance byte_eq_dec : EqDecision byte := Byte.byte_eq_dec.

(** [uint32] subtraction. *)
Definition sub32 (a b : N) : N := (a + u32_size - b) mod u32_size.

Lemma sub32_small a b : b <= a → a < u32_size → sub32 a b = a - b.
Proof.
  intros. unfold sub32. replace (a + u32_size - b) with (a - b + 1 * u32_size) by lia.
  rewrite N.Div0.mod_add. apply N.mod_small. lia.
Qed.

(** ** [encoding/binary] *)

Inductive ByteOrder := LittleEndian | BigEndian.

(** The first four bytes of [b]; Go panics on a shorter slice, and every call
    passes at least four. *)
Definition Uint32 (bo : ByteOrder) (b : bytes) : N :=
  match b with
  | b0 :: b1 :: b2 :: b3 :: _ =>
      match bo with
      | BigEndian => ((to_N b0 * 256 + to_N b1) * 256 + to_N b2) * 256 + to_N b3
      | LittleEndian => ((to_N b3 * 256 + to_N b2) * 256 + to_N b1) * 256 + to_N b0
      end
  | _ => 0
  end.

Definition Uint16BE (b : bytes) : N :=
  match b with b0 :: b1 :: _ => to_N b0 * 256 + to_N b1 | _ => 0 end.

Definition byte_of (n : N) : byte := default x00 (of_N (n mod 256)).

(** [binary.BigEndian.PutUint32], the encoding [Uint32 BigEndian] reads. *)
Definition PutUint32 (n : N) : bytes :=
  [byte_of (n / 16777216); byte_of (n / 65536); byte_of (n / 256); byte_of n].

(** [b[i:j]]. *)
Definition slice (b : bytes) (i j : nat) : bytes := take (j - i) (drop i b).

Lemma to_N_byte_of n : to_N (byte_of n) = n mod 256.
Proof.
  unfold byte_of. destruct (of_N (n mod 256)) as [c|] eqn:E; simpl.
  - by apply Byte.to_of_N in E.
  - apply Byte.of_N_None_iff in E. pose proof (N.mod_lt n 256 ltac:(lia)). lia.
Qed.

Lemma Uint32_Put n l : n < u32_size → Uint32 BigEndian (PutUint32 n ++ l) = n.
Proof.
  intros Hn. unfold u32_size in Hn. unfold Uint32, PutUint32. cbn [app].
  rewrite !to_N_byte_of.
  pose proof (N.div_mod n 256 ltac:(lia)) as H0.
  pose proof (N.div_mod (n / 256) 256 ltac:(lia)) as H1.
  pose proof (N.div_mod (n / 256 / 256) 256 ltac:(lia)) as H2.
  rewrite !N.Div0.div_div in *. change (256 * 256) with 65536 in *. change (65536 * 256) with 16777216 in *.
  assert (n / 16777216 < 256) as H3 by (apply N.Div0.div_lt_upper_bound; lia).
  rewrite (N.mod_small (n / 16777216)) by done. lia.
Qed.

Lemma to_N_lt (b : byte) : to_N b < 256.
Proof. pose proof (Byte.to_N_bounded b). lia. Qed.

Lemma Uint32_u32 bo b : u32 (Uint32 bo b).
Proof.
  unfold u32, u32_size. destruct b as [|b0 [|b1 [|b2 [|b3 b]]]]; simpl; try lia.
  pose proof (to_N_lt b0). pose proof (to_N_lt b1). pose proof (to_N_lt b2). pose proof (to_N_lt b3).
  destruct bo; lia.
Qed.

Lemma byte_of_to_N n b : n mod 256 = to_N b → byte_of n = b.
Proof. intros E. unfold byte_of. by rewrite E, Byte.of_to_N. Qed.

Lemma Put_Uint32 b : length b = 4%nat → PutUint32 (Uint32 BigEndian b) = b.
Proof.
  destruct b as [|b0 [|b1 [|b2 [|b3 [|]]]]]; intros Hl; try discriminate. cbn [Uint32].
  pose proof (to_N_lt b0). pose proof (to_N_lt b1). pose proof (to_N_lt b2). pose proof (to_N_lt b3).
  set (n := ((to_N b0 * 256 + to_N b1) * 256 + to_N b2) * 256 + to_N b3).
  assert (n / 256 = (to_N b0 * 256 + to_N b1) * 256 + to_N b2) as E1 by (symmetry; apply (N.div_unique _ 256 _ (to_N b3)); lia).
  assert (n / 256 / 256 = to_N b0 * 256 + to_N b1) as E2
    by (rewrite E1; symmetry; apply (N.div_unique _ 256 _ (to_N b2)); lia).
  assert (n / 256 / 256 / 256 = to_N b0) as E3
    by (rewrite E2; symmetry; apply (N.div_unique _ 256 _ (to_N b1)); lia).
  unfold PutUint32. change 16777216 with (256 * 256 * 256). change 65536 with (256 * 256).
  rewrite <-!N.Div0.div_div, E3, E2, E1.
  f_equal; [|f_equal; [|f_equal; [|f_equal]]]; apply byte_of_to_N.
  - by apply N.mod_small.
  - symmetry. by apply (N.mod_unique _ 256 (to_N b0)); lia.
  - symmetry. by apply (N.mod_unique _ 256 (to_N b0 * 256 + to_N b1)); lia.
  - symmetry. apply (N.mod_unique _ 256 ((to_N b0 * 256 + to_N b1) * 256 + to_N b2)); unfold n; lia.
Qed.

(** ** Files *)

(** [ReadAt] of [n] bytes: an error when the file is shorter. *)
Definition ReadAt (f : bytes) (off n : N) : option bytes :=
  let b := take (N.to_nat n) (drop (N.to_nat off) f) in
  if bool_decide (length b = N.to_nat n) then Some b else None.

(** [WriteAt]: a hole before [off] reads as zeros. *)
Definition WriteAt (f : bytes) (off : N) (d : bytes) : bytes :=
  match d with
  | [] => f
  | _ =>
      let o := N.to_nat off in
      let f' := (f ++ replicate (o - length f) x00)%list in
      (take o f' ++ d ++ drop (o + length d) f')%list
  end.

Definition Truncate (f : bytes) (size : N) : bytes :=
  let n := N.to_nat size in (take n f ++ replicate (n - length f) x00)%list.

Lemma length_WriteAt f off d :
  d ≠ [] → length (WriteAt f off d) = Nat.max (length f) (N.to_nat off + length d).
Proof.
  intros Hd. unfold WriteAt. destruct d as [|b d]; [done|].
  rewrite !length_app, length_take, length_drop, length_app, length_replicate. simpl. lia.
Qed.

Lemma length_Truncate f size : length (Truncate f size) = N.to_nat size.
Proof. unfold Truncate. rewrite length_app, length_take, length_replicate. lia. Qed.

Lemma lookup_WriteAt_in f off d i :
  (i < length d)%nat → WriteAt f off d !! (N.to_nat off + i)%nat = d !! i.
Proof.
  intros Hi. unfold WriteAt. destruct d as [|b d]; [simpl in Hi; lia|].
  set (o := N.to_nat off). set (f' := (f ++ replicate (o - length f) x00)%list).
  assert (length (take o f') = o) as Hl.
  { rewrite length_take. unfold f'. rewrite length_app, length_replicate. lia. }
  rewrite lookup_app_r by lia. rewrite Hl. replace (o + i - o)%nat with i by lia.
  by rewrite lookup_app_l.
Qed.

Lemma lookup_WriteAt_out f off d i :
  (i < length f)%nat → (i < N.to_nat off ∨ N.to_nat off + length d <= i)%nat →
  WriteAt f off d !! i = f !! i.
Proof.
  intros Hi Ho. unfold WriteAt. destruct d as [|b d]; [done|].
  set (o := N.to_nat off) in *. set (f' := (f ++ replicate (o - length f) x00)%list).
  assert (length (take o f') = o) as Hl.
  { rewrite length_take. unfold f'. rewrite length_app, length_replicate. lia. }
  destruct Ho as [Ho|Ho].
  - rewrite lookup_app_l by lia. rewrite lookup_take, decide_True by done. unfold f'. by rewrite lookup_app_l.
  - rewrite lookup_app_r by lia. rewrite Hl. rewrite lookup_app_r by lia.
    rewrite lookup_drop. unfold f'. rewrite lookup_app_l by lia. f_equal. lia.
Qed.

Lemma lookup_Truncate f size i :
  (i < N.to_nat size)%nat → (i < length f)%nat → Truncate f size !! i = f !! i.
Proof.
  intros. unfold Truncate. rewrite lookup_app_l by (rewrite length_take; lia).
  rewrite lookup_take. by rewrite decide_True.
Qed.

(** ** Pages *)

(** [int64(pgno-1) * int64(pageSize)]. *)
Definition page_off (ps pgno : N) : N := sub32 pgno 1 * ps.

(** The bytes of page [pgno]. *)
Definition page (f : bytes) (ps pgno : N) : bytes :=
  take (N.to_nat ps) (drop (N.to_nat (page_off ps pgno)) f).

(** Page [pgno] lies within the file. *)
Definition has_page (f : bytes) (ps pgno : N) : Prop :=
  1 <= pgno ∧ pgno < u32_size ∧ pgno * ps <= N.of_nat (length f).

Lemma page_off_eq ps pgno : 1 <= pgno → pgno < u32_size → page_off ps pgno = (pgno - 1) * ps.
Proof. intros. unfold page_off. by rewrite sub32_small by lia. Qed.

Lemma length_page f ps pgno : has_page f ps pgno → length (page f ps pgno) = N.to_nat ps.
Proof.
  intros (H1 & H2 & H3). unfold page. rewrite length_take, length_drop, page_off_eq by done. nia.
Qed.

Lemma ReadAt_page f ps pgno :
  has_page f ps pgno → ReadAt f (page_off ps pgno) ps = Some (page f ps pgno).
Proof.
  intros H. unfold ReadAt. change (take _ (drop _ f)) with (page f ps pgno).
  rewrite bool_decide_eq_true_2; [done|]. by apply length_page.
Qed.

Lemma lookup_page f ps pgno i :
  (i < N.to_nat ps)%nat → page f ps pgno !! i = f !! (N.to_nat (page_off ps pgno) + i)%nat.
Proof. intros. unfold page. rewrite lookup_take, decide_True by done. by rewrite lookup_drop. Qed.

(** Two files agree on page [pgno] when their bytes there agree. *)
Lemma page_ext f g ps pgno :
  has_page f ps pgno → has_page g ps pgno →
  (∀ i, (i < N.to_nat ps)%nat →
     f !! (N.to_nat (page_off ps pgno) + i)%nat = g !! (N.to_nat (page_off ps pgno) + i)%nat) →
  page f ps pgno = page g ps pgno.
Proof.
  intros Hf Hg H. apply list_eq. intros i. destruct (decide (i < N.to_nat ps)%nat).
  - rewrite !lookup_page by done. auto.
  - rewrite !lookup_ge_None_2; [done|rewrite length_page by done; lia..].
Qed.

Section pages.
  Context (ps : N) (Hps : 0 < ps).

Lemma has_page_WriteAt f k d n :
  has_page f ps n → has_page (WriteAt f (page_off ps k) d) ps n.
Proof.
  intros (H1 & H2 & H3). split_and!; [done..|]. destruct d as [|b d]; [done|].
  rewrite length_WriteAt by done. lia.
Qed.

Lemma has_page_WriteAt_eq f k d :
  1 <= k → k < u32_size → length d = N.to_nat ps → has_page (WriteAt f (page_off ps k) d) ps k.
Proof.
  intros H1 H2 Hd. split_and!; [done..|]. rewrite length_WriteAt by (intros ->; simpl in Hd; lia).
  rewrite Hd, page_off_eq by done. nia.
Qed.

Lemma page_WriteAt_eq f k d :
  1 <= k → k < u32_size → length d = N.to_nat ps → page (WriteAt f (page_off ps k) d) ps k = d.
Proof.
  intros H1 H2 Hd. pose proof (has_page_WriteAt_eq f k d H1 H2 Hd) as Hp.
  apply list_eq. intros i. destruct (decide (i < N.to_nat ps)%nat).
  - rewrite lookup_page by done. apply lookup_WriteAt_in. lia.
  - rewrite !lookup_ge_None_2; [done|lia|]. rewrite length_page by done. lia.
Qed.

Lemma page_WriteAt_ne f k d n :
  has_page f ps n → 1 <= k → k < u32_size → length d = N.to_nat ps → n ≠ k →
  page (WriteAt f (page_off ps k) d) ps n = page f ps n.
Proof.
  intros Hn H1 H2 Hd Hne. apply page_ext; [by apply has_page_WriteAt|done|].
  destruct Hn as (Hn1 & Hn2 & Hn3). intros i Hi. apply lookup_WriteAt_out.
  - rewrite page_off_eq by done. nia.
  - rewrite Hd, !page_off_eq by done. destruct (decide (n < k)); [left|right]; nia.
Qed.

Lemma has_page_Truncate f c n :
  1 <= n → n < u32_size → n <= c → has_page (Truncate f (c * ps)) ps n.
Proof. intros. split_and!; [done..|]. rewrite length_Truncate. nia. Qed.

Lemma page_Truncate f c n :
  has_page f ps n → n <= c → page (Truncate f (c * ps)) ps n = page f ps n.
Proof.
  intros Hn Hc. pose proof Hn as (H1 & H2 & H3).
  apply page_ext; [by apply has_page_Truncate|done|].
  intros i Hi. apply lookup_Truncate; rewrite page_off_eq by done; nia.
Qed.

(** A sequence of page writes; the last write of a page wins. *)
Definition write_pages (l : list (N * bytes)) (f : bytes) : bytes :=
  foldl (λ f '(k, d), WriteAt f (page_off ps k) d) f l.

Definition last_writes (l : list (N * bytes)) (m : gmap N bytes) : gmap N bytes :=
  foldl (λ m '(k, d), <[k := d]> m) m l.

Lemma write_pages_spec l f :
  Forall (λ w, 1 <= w.1 ∧ w.1 < u32_size ∧ length w.2 = N.to_nat ps) l →
  (length f <= length (write_pages l f))%nat ∧
  (∀ n d, last_writes l ∅ !! n = Some d → has_page (write_pages l f) ps n ∧ page (write_pages l f) ps n = d) ∧
  (∀ n, last_writes l ∅ !! n = None → has_page f ps n → page (write_pages l f) ps n = page f ps n).
Proof.
  induction l as [|[k d] l IH] using rev_ind; intros Hl.
  { split_and!; [done|by intros ??|done]. }
  apply Forall_app in Hl as [Hl [(H1 & H2 & Hd) _]%Forall_cons]. cbn [fst snd] in *.
  destruct (IH Hl) as (IH1 & IH2 & IH3). unfold write_pages, last_writes in *.
  rewrite !foldl_app. cbn [foldl].
  set (g := foldl (λ f '(k, d), WriteAt f (page_off ps k) d) f l) in *.
  set (m := foldl (λ m '(k, d), <[k := d]> m) ∅ l) in *.
  split_and!.
  - rewrite length_WriteAt; [lia|]. intros ->. simpl in Hd. lia.
  - intros n e. destruct (decide (n = k)) as [->|Hne].
    + rewrite lookup_insert_eq. intros [= <-]. split; [by apply has_page_WriteAt_eq|by apply page_WriteAt_eq].
    + rewrite lookup_insert_ne by done. intros [Hh <-]%IH2.
      split; [by apply has_page_WriteAt|by apply page_WriteAt_ne].
  - intros n. destruct (decide (n = k)) as [->|Hne]; [by rewrite lookup_insert_eq|].
    rewrite lookup_insert_ne by done. intros Hn Hh. rewrite <-(IH3 n) by done.
    apply page_WriteAt_ne; [|done..]. destruct Hh as (? & ? & ?). split_and!; [done..|lia].
Qed.

Lemma last_writes_union l m n : last_writes l m !! n = (last_writes l ∅ ∪ m) !! n.
Proof.
  induction l as [|[k d] l IH] using rev_ind; unfold last_writes in *; [cbn [foldl]; by rewrite map_empty_union|].
  rewrite !foldl_app. cbn [foldl]. destruct (decide (n = k)) as [->|Hne].
  - rewrite lookup_insert_eq. symmetry. apply lookup_union_Some_l. by rewrite lookup_insert_eq.
  - rewrite lookup_insert_ne, IH by done. rewrite !lookup_union, lookup_insert_ne by done. done.
Qed.

Lemma elem_of_last_writes l n : is_Some (last_writes l ∅ !! n) ↔ n ∈ l.*1.
Proof.
  induction l as [|[k d] l IH] using rev_ind; unfold last_writes in *; simpl.
  { split; [by intros [? ?]|intros Hn; by apply not_elem_of_nil in Hn]. }
  rewrite foldl_app, fmap_app. cbn [foldl fmap list_fmap]. rewrite elem_of_app, list_elem_of_singleton, <-IH.
  destruct (decide (n = k)) as [->|Hne].
  - rewrite lookup_insert_eq. split; [by right|eauto].
  - rewrite lookup_insert_ne by done. split; [by left|]. intros [?|?]; done.
Qed.

Lemma last_writes_Some l n d : last_writes l ∅ !! n = Some d → (n, d) ∈ l.
Proof.
  induction l as [|[k e] l IH] using rev_ind; unfold last_writes in *; [done|].
  rewrite foldl_app. cbn [foldl]. rewrite elem_of_app, list_elem_of_singleton.
  destruct (decide (n = k)) as [->|Hne].
  - rewrite lookup_insert_eq. intros [= ->]. by right.
  - rewrite lookup_insert_ne by done. auto.
Qed.
End pages.
