(* ===== verification/Wal.v ===== *)
(** * The SQLite write-ahead log reader

    [internal/wal/wal.go] and [internal/wal/reader.go]: parsing of WAL and
    frame headers, the cumulative checksum, and [Reader.Next], which returns
    the next committed transaction or nothing.  Reading the file is a
    parameter of [Next]: the bytes [os.Open] and the reads see, or the error
    [os.Open] returns.  [frame_bytes] and [wal_bytes] are the reference
    encoder (the documented format), used only to state the round trip. *)
From Stdlib Require Import Strings.Byte.
From S2P Require Import Prelude Files.
Local Open Scope N_scope.

Definition HeaderSize : N := 32.
Definition FrameHeaderSize : N := 24.
Definition magicLE : N := 931071618.
Definition magicBE : N := 931071619.
Definition wal_version : N := 3007000.

Record Header := mkHeader {
  wh_magic : N; wh_version : N; wh_page_size : N; wh_checkpoint_seq : N;
  wh_salt1 : N; wh_salt2 : N; wh_cksum1 : N; wh_cksum2 : N }.

Record FrameHeader := mkFrameHeader {
  fh_pgno : N; fh_commit : N; fh_salt1 : N; fh_salt2 : N; fh_cksum1 : N; fh_cksum2 : N }.

Record Frame := mkFrame { fr_header : FrameHeader; fr_data : bytes }.

Definition FrameSize (h : Header) : N := FrameHeaderSize + wh_page_size h.

Definition ChecksumByteOrder (h : Header) : ByteOrder :=
  if wh_magic h =? magicBE then BigEndian else LittleEndian.

(** SQLite's cumulative checksum, eight bytes at a time; a shorter rest is
    ignored. *)
Fixpoint Checksum (bo : ByteOrder) (s : N * N) (b : bytes) : N * N :=
  match b with
  | b0 :: b1 :: b2 :: b3 :: b4 :: b5 :: b6 :: b7 :: b =>
      let s1 := add32 s.1 (add32 (Uint32 bo [b0; b1; b2; b3]) s.2) in
      let s2 := add32 s.2 (add32 (Uint32 bo [b4; b5; b6; b7]) s1) in
      Checksum bo (s1, s2) b
  | _ => s
  end.

(** [b] has at least [HeaderSize] bytes. *)
Definition ParseHeader (b : bytes) : res Header :=
  let h := mkHeader
    (Uint32 BigEndian (slice b 0 4)) (Uint32 BigEndian (slice b 4 8))
    (Uint32 BigEndian (slice b 8 12)) (Uint32 BigEndian (slice b 12 16))
    (Uint32 BigEndian (slice b 16 20)) (Uint32 BigEndian (slice b 20 24))
    (Uint32 BigEndian (slice b 24 28)) (Uint32 BigEndian (slice b 28 32)) in
  if negb (wh_magic h =? magicLE) && negb (wh_magic h =? magicBE) then Err [EBadMagic]
  else if negb (wh_version h =? wal_version) then Err [EBadVersion]
  else
    let '(s1, s2) := Checksum (ChecksumByteOrder h) (0, 0) (take 24 b) in
    if negb (s1 =? wh_cksum1 h) || negb (s2 =? wh_cksum2 h) then Err [EChecksum] else Ok h.

Definition ParseFrameHeader (b : bytes) : FrameHeader :=
  mkFrameHeader
    (Uint32 BigEndian (slice b 0 4)) (Uint32 BigEndian (slice b 4 8))
    (Uint32 BigEndian (slice b 8 12)) (Uint32 BigEndian (slice b 12 16))
    (Uint32 BigEndian (slice b 16 20)) (Uint32 BigEndian (slice b 20 24)).

Record Reader := mkReader {
  rd_bound : bool; rd_need_seed : bool; rd_off : N;
  rd_salt1 : N; rd_salt2 : N; rd_s : N * N; rd_hdr : Header }.

Definition zero_header : Header := mkHeader 0 0 0 0 0 0 0 0.

Definition NewReader : Reader := mkReader false false 0 0 0 (0, 0) zero_header.

Definition Bind (off salt1 salt2 : N) (r : Reader) : Reader :=
  mkReader true true off salt1 salt2 (rd_s r) (rd_hdr r).

(** The frame loop of [Next]: the frames up to the next commit frame with the
    offset and checksum after it, or [None] for "wait".  Each round reads a
    whole frame inside the file, so a fuel of the file's length is enough. *)
Fixpoint next_frames (fuel : nat) (f : bytes) (hdr : Header) (off : N) (s : N * N) (frames : list Frame)
    : res (option (list Frame * N * (N * N))) :=
  match fuel with
  | O => Err [EFuel]
  | S fuel =>
      match ReadAt f off (FrameSize hdr) with
      | None => Ok None
      | Some buf =>
          let fh := ParseFrameHeader (take 24 buf) in
          if negb (fh_salt1 fh =? wh_salt1 hdr) || negb (fh_salt2 fh =? wh_salt2 hdr) then Ok None
          else
            let s := Checksum (ChecksumByteOrder hdr) s (take 8 buf) in
            let s := Checksum (ChecksumByteOrder hdr) s (drop 24 buf) in
            if negb (s.1 =? fh_cksum1 fh) || negb (s.2 =? fh_cksum2 fh) then Ok None
            else
              let frames := (frames ++ [mkFrame fh (drop 24 buf)])%list in
              let off := off + FrameSize hdr in
              if negb (fh_commit fh =? 0) then Ok (Some (frames, off, s))
              else next_frames fuel f hdr off s frames
      end
  end.

(** What [Next] does to the reader once the header parsed: bind to the WAL's
    generation, refuse another generation, or take the checksum seed. *)
Definition bind_header (hdr : Header) (r : Reader) : res Reader :=
  if negb (rd_bound r) then
    Ok (mkReader true (rd_need_seed r) HeaderSize (wh_salt1 hdr) (wh_salt2 hdr)
          (wh_cksum1 hdr, wh_cksum2 hdr) hdr)
  else if negb (wh_salt1 hdr =? rd_salt1 r) || negb (wh_salt2 hdr =? rd_salt2 r) then Err [EWALRestarted]
  else if rd_need_seed r then
    Ok (mkReader true false (rd_off r) (rd_salt1 r) (rd_salt2 r) (wh_cksum1 hdr, wh_cksum2 hdr) hdr)
  else Ok (mkReader true false (rd_off r) (rd_salt1 r) (rd_salt2 r) (rd_s r) hdr).

Definition Next (file : res bytes) (r : Reader) : res (list Frame) * Reader :=
  match file with
  | Err e => ((if errors_Is e ErrNotFound then Ok [] else Err e), r)
  | Ok f =>
      match ReadAt f 0 HeaderSize with
      | None => (Ok [], r)
      | Some hb =>
          match ParseHeader hb with
          | Err _ => (Ok [], r)
          | Ok hdr =>
              match bind_header hdr r with
              | Err e => (Err e, r)
              | Ok r =>
                  match next_frames (S (length f)) f hdr (rd_off r) (rd_s r) [] with
                  | Err e => (Err e, r)
                  | Ok None => (Ok [], r)
                  | Ok (Some (frames, off, s)) =>
                      (Ok frames, mkReader (rd_bound r) (rd_need_seed r) off (rd_salt1 r) (rd_salt2 r) s (rd_hdr r))
                  end
              end
          end
      end
  end.

(** Drain a file: call [Next] [n] times, collecting the transactions. *)
Fixpoint drain_wal (n : nat) (f : bytes) (r : Reader) : res (list (list Frame)) * Reader :=
  match n with
  | O => (Ok [], r)
  | S n =>
      match Next (Ok f) r with
      | (Err e, r) => (Err e, r)
      | (Ok [], r) => (Ok [], r)
      | (Ok tx, r) => let '(txs, r) := drain_wal n f r in ((cons tx <$> txs), r)
      end
  end.

(** ** The reference encoder *)

Record pageWrite := mkPageWrite { pw_pgno : N; pw_commit : N; pw_data : bytes }.

Definition frame_sum (h : Header) (s : N * N) (p : pageWrite) : N * N :=
  Checksum (ChecksumByteOrder h)
    (Checksum (ChecksumByteOrder h) s (PutUint32 (pw_pgno p) ++ PutUint32 (pw_commit p))) (pw_data p).

Definition frame_of (h : Header) (s : N * N) (p : pageWrite) : Frame :=
  let s := frame_sum h s p in
  mkFrame (mkFrameHeader (pw_pgno p) (pw_commit p) (wh_salt1 h) (wh_salt2 h) s.1 s.2) (pw_data p).

Definition frame_bytes (h : Header) (s : N * N) (p : pageWrite) : bytes :=
  (PutUint32 (pw_pgno p) ++ PutUint32 (pw_commit p) ++ PutUint32 (wh_salt1 h) ++ PutUint32 (wh_salt2 h)
   ++ PutUint32 (frame_sum h s p).1 ++ PutUint32 (frame_sum h s p).2 ++ pw_data p)%list.

Fixpoint run_sum (h : Header) (s : N * N) (ps : list pageWrite) : N * N :=
  match ps with [] => s | p :: ps => run_sum h (frame_sum h s p) ps end.

Fixpoint run_frames (h : Header) (s : N * N) (ps : list pageWrite) : list Frame :=
  match ps with [] => [] | p :: ps => frame_of h s p :: run_frames h (frame_sum h s p) ps end.

Fixpoint run_bytes (h : Header) (s : N * N) (ps : list pageWrite) : bytes :=
  match ps with [] => [] | p :: ps => (frame_bytes h s p ++ run_bytes h (frame_sum h s p) ps)%list end.

Definition header_prefix (h : Header) : bytes :=
  (PutUint32 (wh_magic h) ++ PutUint32 (wh_version h) ++ PutUint32 (wh_page_size h)
   ++ PutUint32 (wh_checkpoint_seq h) ++ PutUint32 (wh_salt1 h) ++ PutUint32 (wh_salt2 h))%list.

Definition header_bytes (h : Header) : bytes :=
  (header_prefix h ++ PutUint32 (wh_cksum1 h) ++ PutUint32 (wh_cksum2 h))%list.
