(* ===== verification/WalProps.v ===== *)
(** * Properties of the WAL reader

    The round trip with the documented format, torn tails included
    ([wal_roundtrip]); a transaction, once returned, is a function of the
    bytes it was read from ([wal_next_stable]); a poll that found nothing
    loses nothing ([wal_wait_inert]); and [Next] always returns, its only
    error on a readable file being the restart of the WAL ([wal_next_total]). *)
From Stdlib Require Import Strings.Byte.
From S2P Require Import Prelude Files Wal.
Local Open Scope N_scope.

(** ** The checksum *)

Definition sum_u32 (s : N * N) : Prop := u32 s.1 ∧ u32 s.2.

Lemma add32_u32 a b : u32 (add32 a b).
Proof. unfold add32, u32. by apply N.mod_lt. Qed.

Lemma Checksum_u32 bo s b : sum_u32 s → sum_u32 (Checksum bo s b).
Proof.
  remember (length b) as n eqn:Hn. revert s b Hn.
  induction (lt_wf n) as [n _ IH]. intros s b -> Hs.
  destruct b as [|b0 [|b1 [|b2 [|b3 [|b4 [|b5 [|b6 [|b7 b]]]]]]]]; try exact Hs.
  cbn [Checksum]. eapply IH; [|reflexivity|]; [simpl; lia|].
  split; simpl; apply add32_u32.
Qed.

Lemma frame_sum_u32 h s p : sum_u32 s → sum_u32 (frame_sum h s p).
Proof. intros. unfold frame_sum. by do 2 apply Checksum_u32. Qed.

Lemma run_sum_u32 h ps s : sum_u32 s → sum_u32 (run_sum h s ps).
Proof. revert s. induction ps as [|p ps IH]; intros s Hs; simpl; [done|]. apply IH. by apply frame_sum_u32. Qed.

Lemma run_sum_app h ps qs s : run_sum h s (ps ++ qs) = run_sum h (run_sum h s ps) qs.
Proof. revert s. induction ps as [|p ps IH]; intros s; simpl; [done|]. apply IH. Qed.

Lemma run_frames_app h ps qs s :
  run_frames h s (ps ++ qs) = (run_frames h s ps ++ run_frames h (run_sum h s ps) qs)%list.
Proof. revert s. induction ps as [|p ps IH]; intros s; simpl; [done|]. by rewrite IH. Qed.

Lemma run_bytes_app h ps qs s :
  run_bytes h s (ps ++ qs) = (run_bytes h s ps ++ run_bytes h (run_sum h s ps) qs)%list.
Proof. revert s. induction ps as [|p ps IH]; intros s; simpl; [done|]. by rewrite IH, app_assoc. Qed.

(** ** Headers *)

Record hdr_ok (h : Header) : Prop := mk_hdr_ok {
  ho_magic : wh_magic h = magicLE ∨ wh_magic h = magicBE;
  ho_version : wh_version h = wal_version;
  ho_page_size : u32 (wh_page_size h);
  ho_seq : u32 (wh_checkpoint_seq h);
  ho_salt1 : u32 (wh_salt1 h);
  ho_salt2 : u32 (wh_salt2 h);
  ho_sum : Checksum (ChecksumByteOrder h) (0, 0) (header_prefix h) = (wh_cksum1 h, wh_cksum2 h) }.

Lemma hdr_seed_u32 h : hdr_ok h → sum_u32 (wh_cksum1 h, wh_cksum2 h).
Proof. intros H. rewrite <-(ho_sum h H). by apply Checksum_u32. Qed.

Lemma Uint32_Put' n : n < u32_size → Uint32 BigEndian (PutUint32 n) = n.
Proof. intros. rewrite <-(app_nil_r (PutUint32 n)). by apply Uint32_Put. Qed.

Lemma ParseHeader_bytes h : hdr_ok h → ParseHeader (header_bytes h) = Ok h.
Proof.
  intros H. destruct (hdr_seed_u32 h H) as [Hc1 Hc2]. destruct H as [Hm Hv Hp Hq H1 H2 Hs].
  assert (u32 (wh_magic h)) as Hmm by (unfold u32; destruct Hm as [->| ->]; done).
  assert (u32 (wh_version h)) as Hvv by (unfold u32; by rewrite Hv).
  unfold ParseHeader.
  change (slice (header_bytes h) 0 4) with (PutUint32 (wh_magic h)).
  change (slice (header_bytes h) 4 8) with (PutUint32 (wh_version h)).
  change (slice (header_bytes h) 8 12) with (PutUint32 (wh_page_size h)).
  change (slice (header_bytes h) 12 16) with (PutUint32 (wh_checkpoint_seq h)).
  change (slice (header_bytes h) 16 20) with (PutUint32 (wh_salt1 h)).
  change (slice (header_bytes h) 20 24) with (PutUint32 (wh_salt2 h)).
  change (slice (header_bytes h) 24 28) with (PutUint32 (wh_cksum1 h)).
  change (slice (header_bytes h) 28 32) with (PutUint32 (wh_cksum2 h)).
  change (take 24 (header_bytes h)) with (header_prefix h).
  rewrite !Uint32_Put' by assumption.
  replace (mkHeader _ _ _ _ _ _ _ _) with h by (by destruct h). cbv zeta.
  rewrite Hs, Hv, !N.eqb_refl. destruct Hm as [->| ->]; reflexivity.
Qed.

(** ** One frame *)

Record write_ok (h : Header) (p : pageWrite) : Prop := mk_write_ok {
  wo_pgno : u32 (pw_pgno p); wo_commit : u32 (pw_commit p);
  wo_len : length (pw_data p) = N.to_nat (wh_page_size h) }.

Lemma length_frame_bytes h s p :
  write_ok h p → length (frame_bytes h s p) = N.to_nat (FrameSize h).
Proof.
  intros [_ _ Hl]. unfold frame_bytes, FrameSize, FrameHeaderSize. rewrite !length_app. simpl. lia.
Qed.

Lemma ReadAt_prefix f off n b rest :
  drop (N.to_nat off) f = (b ++ rest)%list → length b = N.to_nat n → ReadAt f off n = Some b.
Proof.
  intros Hd Hl. unfold ReadAt. rewrite Hd, <-Hl, take_app_length.
  by rewrite bool_decide_eq_true_2.
Qed.

Lemma drop_next f (off n : N) (b rest : bytes) :
  drop (N.to_nat off) f = (b ++ rest)%list → length b = N.to_nat n → drop (N.to_nat (off + n)) f = rest.
Proof.
  intros Hd Hl. rewrite N2Nat.inj_add. rewrite <-drop_drop, Hd, <-Hl. by rewrite drop_app_length.
Qed.

(** The loop reads one encoded frame and goes on, or stops at a commit. *)
Lemma next_frames_step fuel f h off s p rest acc :
  hdr_ok h → write_ok h p → sum_u32 s →
  drop (N.to_nat off) f = (frame_bytes h s p ++ rest)%list →
  next_frames (S fuel) f h off s acc =
    (let acc := (acc ++ [frame_of h s p])%list in
     if negb (pw_commit p =? 0) then Ok (Some (acc, off + FrameSize h, frame_sum h s p))
     else next_frames fuel f h (off + FrameSize h) (frame_sum h s p) acc).
Proof.
  intros Hh Hp Hs Hd. cbn [next_frames].
  rewrite (ReadAt_prefix _ _ _ _ _ Hd (length_frame_bytes h s p Hp)).
  pose proof (frame_sum_u32 h s p Hs) as [Hc1 Hc2]. destruct Hp as [Hp Hc Hl].
  change (take 8 (frame_bytes h s p)) with (PutUint32 (pw_pgno p) ++ PutUint32 (pw_commit p))%list.
  change (drop 24 (frame_bytes h s p)) with (pw_data p).
  assert (ParseFrameHeader (take 24 (frame_bytes h s p)) =
    mkFrameHeader (pw_pgno p) (pw_commit p) (wh_salt1 h) (wh_salt2 h)
      (frame_sum h s p).1 (frame_sum h s p).2) as ->.
  { unfold ParseFrameHeader.
    change (slice (take 24 (frame_bytes h s p)) 0 4) with (PutUint32 (pw_pgno p)).
    change (slice (take 24 (frame_bytes h s p)) 4 8) with (PutUint32 (pw_commit p)).
    change (slice (take 24 (frame_bytes h s p)) 8 12) with (PutUint32 (wh_salt1 h)).
    change (slice (take 24 (frame_bytes h s p)) 12 16) with (PutUint32 (wh_salt2 h)).
    change (slice (take 24 (frame_bytes h s p)) 16 20) with (PutUint32 (frame_sum h s p).1).
    change (slice (take 24 (frame_bytes h s p)) 20 24) with (PutUint32 (frame_sum h s p).2).
    rewrite !Uint32_Put' by (apply Hh || assumption). done. }
  cbv zeta. cbn [fh_salt1 fh_salt2 fh_cksum1 fh_cksum2 fh_commit]. fold (frame_sum h s p).
  rewrite !N.eqb_refl. cbn [negb orb]. done.
Qed.

(** Uncommitted frames are passed over, whatever follows them. *)
Lemma next_frames_run fuel f h off s ps rest acc :
  hdr_ok h → Forall (write_ok h) ps → Forall (λ p, pw_commit p = 0) ps → sum_u32 s →
  drop (N.to_nat off) f = (run_bytes h s ps ++ rest)%list →
  next_frames (length ps + fuel) f h off s acc =
    next_frames fuel f h (off + N.of_nat (length ps) * FrameSize h) (run_sum h s ps)
      (acc ++ run_frames h s ps).
Proof.
  intros Hh. revert off s acc. induction ps as [|p ps IH]; intros off s acc Hok Hc Hs Hd.
  - cbn [length plus run_sum run_frames]. rewrite app_nil_r, N.mul_0_l, N.add_0_r. done.
  - apply Forall_cons in Hok as [Hp Hok]. apply Forall_cons in Hc as [Hpc Hc].
    cbn [run_bytes] in Hd. rewrite <-app_assoc in Hd.
    cbn [length plus]. rewrite (next_frames_step _ _ _ _ _ _ _ _ Hh Hp Hs Hd).
    rewrite Hpc. cbn [N.eqb negb]. cbv zeta. rewrite IH; [|done|done|by apply frame_sum_u32|].
    + cbn [run_sum run_frames]. rewrite <-app_assoc. cbn [app]. f_equal. lia.
    + eapply drop_next; [exact Hd|]. by apply length_frame_bytes.
Qed.

(** Where a log ends, with the checksum [s] before it: there is no whole frame
    left; or the next one, of another generation of the log or torn, does not
    carry the header's salts, or not the checksum of its number, commit size
    and page.  Anything may follow. *)
Definition frame_salts (rest : bytes) : bytes := slice rest 8 16.
Definition frame_cksum (rest : bytes) : bytes := slice rest 16 24.
Definition cksum_bytes (h : Header) (s : N * N) (rest : bytes) : bytes :=
  let bo := ChecksumByteOrder h in
  let c := Checksum bo (Checksum bo s (slice rest 0 8)) (slice rest 24 (N.to_nat (FrameSize h))) in
  (PutUint32 c.1 ++ PutUint32 c.2)%list.

Definition log_end (h : Header) (s : N * N) (rest : bytes) : Prop :=
  (length rest < N.to_nat (FrameSize h))%nat ∨
  frame_salts rest ≠ (PutUint32 (wh_salt1 h) ++ PutUint32 (wh_salt2 h))%list ∨
  frame_cksum rest ≠ cksum_bytes h s rest.

Lemma slice_take_le (b : bytes) i j n : (j <= n)%nat → slice (take n b) i j = slice b i j.
Proof. intros. unfold slice. rewrite skipn_firstn_comm, take_take. f_equal. lia. Qed.

Lemma slice_split (b : bytes) i j k : (i <= j <= k)%nat → slice b i k = (slice b i j ++ slice b j k)%list.
Proof.
  intros. unfold slice. rewrite <-(take_drop (j - i) (take (k - i) (drop i b))), take_take, skipn_firstn_comm, drop_drop.
  f_equal; f_equal; try lia. f_equal. lia.
Qed.

Lemma length_slice (b : bytes) i j : (i <= j)%nat → (j <= length b)%nat → length (slice b i j) = (j - i)%nat.
Proof. intros. unfold slice. rewrite length_take, length_drop. lia. Qed.

Lemma word_eq (b : bytes) i n : (i + 4 <= length b)%nat → (Uint32 BigEndian (slice b i (i + 4)) =? n) = true →
  slice b i (i + 4) = PutUint32 n.
Proof. intros Hl <-%N.eqb_eq. rewrite Put_Uint32; [done|]. rewrite length_slice; lia. Qed.

Lemma next_frames_end fuel f h off s acc rest :
  drop (N.to_nat off) f = rest → log_end h s rest → next_frames (S fuel) f h off s acc = Ok None.
Proof.
  intros Hd He. cbn [next_frames]. unfold ReadAt. rewrite Hd. set (fz := N.to_nat (FrameSize h)) in *.
  assert (24 <= fz)%nat by (unfold fz, FrameSize, FrameHeaderSize; lia).
  case_bool_decide as Hl; [|done]. rewrite length_take in Hl.
  destruct He as [He|He]; [fold fz in He; lia|].
  unfold ParseFrameHeader. cbv zeta. cbn [fh_salt1 fh_salt2 fh_cksum1 fh_cksum2].
  rewrite !take_take, !(Nat.min_l 24 fz), (Nat.min_l 8 fz) by lia.
  destruct (negb (Uint32 _ (slice (take 24 rest) 8 12) =? _) || _) eqn:E1; [done|].
  apply orb_false_iff in E1 as [Es1%negb_false_iff Es2%negb_false_iff].
  destruct (negb (_ =? Uint32 _ (slice (take 24 rest) 16 20)) || _) eqn:E2; [done|exfalso].
  apply orb_false_iff in E2 as [Ec1%negb_false_iff Ec2%negb_false_iff].
  rewrite N.eqb_sym in Ec1, Ec2. rewrite slice_take_le in Es1, Es2, Ec1, Ec2 by lia.
  apply (word_eq rest 8) in Es1; [|lia]. apply (word_eq rest 12) in Es2; [|lia].
  apply (word_eq rest 16) in Ec1; [|lia]. apply (word_eq rest 20) in Ec2; [|lia].
  destruct He as [He|He]; apply He.
  - unfold frame_salts. rewrite (slice_split rest 8 12 16) by lia. by f_equal.
  - unfold frame_cksum, cksum_bytes. rewrite (slice_split rest 16 20 24) by lia.
    fold fz. change (slice rest 0 8) with (take 8 rest).
    change (slice rest 24 fz) with (take (fz - 24) (drop 24 rest)). rewrite <-skipn_firstn_comm. by f_equal.
Qed.

(** ** Transactions *)

(** A transaction of the log: its frames carry no commit size but the last. *)
Definition tx_ok (h : Header) (tx : list pageWrite) : Prop :=
  ∃ init last, tx = (init ++ [last])%list ∧ Forall (write_ok h) tx ∧
    Forall (λ p, pw_commit p = 0) init ∧ pw_commit last ≠ 0.

Lemma length_run_bytes h s ps :
  Forall (write_ok h) ps → length (run_bytes h s ps) = (length ps * N.to_nat (FrameSize h))%nat.
Proof.
  revert s. induction ps as [|p ps IH]; intros s; cbn [run_bytes length]; [done|].
  intros [Hp Hps]%Forall_cons. by rewrite length_app, length_frame_bytes, IH.
Qed.

Lemma run_fits f h off s ps rest :
  Forall (write_ok h) ps → drop (N.to_nat off) f = (run_bytes h s ps ++ rest)%list →
  (length ps * N.to_nat (FrameSize h) + length rest <= length f)%nat.
Proof.
  intros Hps Hd. apply (f_equal length) in Hd.
  rewrite length_drop, length_app, length_run_bytes in Hd by done. lia.
Qed.

Lemma next_tx f h off s tx rest :
  hdr_ok h → tx_ok h tx → sum_u32 s →
  drop (N.to_nat off) f = (run_bytes h s tx ++ rest)%list →
  next_frames (S (length f)) f h off s [] =
    Ok (Some (run_frames h s tx, off + N.of_nat (length tx) * FrameSize h, run_sum h s tx)).
Proof.
  intros Hh (init & last & -> & Hok & Hi & Hl) Hs Hd.
  pose proof (run_fits _ _ _ _ _ _ Hok Hd) as Hfit.
  apply Forall_app in Hok as [Hok [Hlast _]%Forall_cons].
  rewrite length_app in Hfit. cbn [length] in Hfit.
  assert (24 <= N.to_nat (FrameSize h))%nat by (unfold FrameSize, FrameHeaderSize; lia).
  replace (S (length f)) with (length init + S (length f - length init))%nat by nia.
  rewrite run_bytes_app, <-app_assoc in Hd.
  rewrite (next_frames_run _ _ _ _ _ _ _ _ Hh Hok Hi Hs Hd).
  assert (drop (N.to_nat (off + N.of_nat (length init) * FrameSize h)) f =
    (run_bytes h (run_sum h s init) [last] ++ rest)%list) as Hd'.
  { eapply drop_next; [exact Hd|]. rewrite length_run_bytes by done. nia. }
  cbn [run_bytes] in Hd'. rewrite app_nil_r in Hd'.
  rewrite (next_frames_step _ _ _ _ _ _ _ _ Hh Hlast (run_sum_u32 _ _ _ Hs) Hd').
  apply N.eqb_neq in Hl. rewrite Hl. cbn [negb].
  rewrite run_frames_app, run_sum_app, length_app. cbn [length run_frames run_sum].
  replace (off + N.of_nat (length init + 1) * FrameSize h)
    with (off + N.of_nat (length init) * FrameSize h + FrameSize h) by lia. done.
Qed.

(** Nothing committed: the reader waits. *)
Lemma next_partial f h off s ps torn :
  hdr_ok h → Forall (write_ok h) ps → Forall (λ p, pw_commit p = 0) ps → sum_u32 s →
  log_end h (run_sum h s ps) torn →
  drop (N.to_nat off) f = (run_bytes h s ps ++ torn)%list →
  next_frames (S (length f)) f h off s [] = Ok None.
Proof.
  intros Hh Hok Hc Hs Ht Hd. pose proof (run_fits _ _ _ _ _ _ Hok Hd) as Hfit.
  assert (24 <= N.to_nat (FrameSize h))%nat by (unfold FrameSize, FrameHeaderSize; lia).
  replace (S (length f)) with (length ps + S (length f - length ps))%nat by nia.
  rewrite (next_frames_run _ _ _ _ _ _ _ _ Hh Hok Hc Hs Hd). eapply next_frames_end; [|exact Ht].
  eapply drop_next; [exact Hd|]. rewrite length_run_bytes by done. nia.
Qed.

(** ** The reader *)

(** A reader positioned at [off] with running checksum [s]. *)
Definition reader_at (h : Header) (off : N) (s : N * N) : Reader :=
  mkReader true false off (wh_salt1 h) (wh_salt2 h) s h.

Definition seed (h : Header) : N * N := (wh_cksum1 h, wh_cksum2 h).

Lemma ReadAt_header h rest : ReadAt (header_bytes h ++ rest) 0 HeaderSize = Some (header_bytes h).
Proof. apply (ReadAt_prefix _ _ _ _ rest); done. Qed.

Lemma drop_header h (rest : bytes) : drop (N.to_nat HeaderSize) (header_bytes h ++ rest) = rest.
Proof. change (N.to_nat HeaderSize) with (length (header_bytes h)). apply drop_app_length. Qed.

Lemma Next_at h f rest off s :
  hdr_ok h → f = (header_bytes h ++ rest)%list →
  Next (Ok f) (reader_at h off s) =
    match next_frames (S (length f)) f h off s [] with
    | Err e => (Err e, reader_at h off s)
    | Ok None => (Ok [], reader_at h off s)
    | Ok (Some (frames, off', s')) => (Ok frames, reader_at h off' s')
    end.
Proof.
  intros Hh ->. unfold Next. rewrite ReadAt_header, ParseHeader_bytes by done.
  unfold bind_header, reader_at. cbn [rd_bound rd_need_seed rd_salt1 rd_salt2 rd_off rd_s negb].
  rewrite !N.eqb_refl. cbn [negb orb rd_off rd_s]. repeat case_match; done.
Qed.

Lemma Next_new h f rest :
  hdr_ok h → f = (header_bytes h ++ rest)%list →
  Next (Ok f) NewReader = Next (Ok f) (reader_at h HeaderSize (seed h)).
Proof.
  intros Hh Hf. rewrite (Next_at h f rest) by done. subst f.
  unfold Next. rewrite ReadAt_header, ParseHeader_bytes by done. done.
Qed.

Fixpoint txs_frames (h : Header) (s : N * N) (txs : list (list pageWrite)) : list (list Frame) :=
  match txs with [] => [] | tx :: txs => run_frames h s tx :: txs_frames h (run_sum h s tx) txs end.

Lemma run_frames_nonnil h s tx : tx_ok h tx → ∃ fr frs, run_frames h s tx = fr :: frs.
Proof. intros (init & last & -> & _). destruct init; simpl; eauto. Qed.

Lemma drain_at n f h rest0 off s txs part torn :
  hdr_ok h → f = (header_bytes h ++ rest0)%list → Forall (tx_ok h) txs →
  Forall (write_ok h) part → Forall (λ p, pw_commit p = 0) part → sum_u32 s →
  log_end h (run_sum h s (concat txs ++ part)) torn →
  drop (N.to_nat off) f = (run_bytes h s (concat txs ++ part) ++ torn)%list →
  (length txs < n)%nat →
  drain_wal n f (reader_at h off s) =
    (Ok (txs_frames h s txs),
     reader_at h (off + N.of_nat (length (concat txs)) * FrameSize h) (run_sum h s (concat txs))).
Proof.
  intros Hh Hf. revert n off s. induction txs as [|tx txs IH]; intros n off s Htx Hp Hc Hs Ht Hd Hn;
    (destruct n as [|n]; [simpl in Hn; lia|]); cbn [drain_wal].
  - rewrite (Next_at h f rest0) by done. cbn [concat app] in Hd.
    rewrite (next_partial _ _ _ _ _ _ Hh Hp Hc Hs Ht Hd). cbn. by rewrite N.mul_0_l, N.add_0_r.
  - apply Forall_cons in Htx as [Htx1 Htx]. cbn [concat] in Hd, Ht.
    rewrite <-app_assoc, run_bytes_app, <-app_assoc in Hd. rewrite <-app_assoc, run_sum_app in Ht.
    rewrite (Next_at h f rest0) by done. rewrite (next_tx _ _ _ _ _ _ Hh Htx1 Hs Hd).
    destruct (run_frames_nonnil h s tx Htx1) as (fr & frs & Hfr).
    rewrite Hfr. rewrite (IH n); [|done|done|done|by apply run_sum_u32|done| |simpl in Hn; lia].
    + cbn [txs_frames concat fmap res_fmap]. rewrite Hfr, run_sum_app, length_app.
      unfold reader_at. f_equal. f_equal. lia.
    + eapply drop_next; [exact Hd|].
      destruct Htx1 as (? & ? & _ & Hok & _). rewrite length_run_bytes by done. nia.
Qed.

Lemma drain_new h f rest n :
  hdr_ok h → f = (header_bytes h ++ rest)%list →
  drain_wal (S n) f NewReader = drain_wal (S n) f (reader_at h HeaderSize (seed h)).
Proof. intros Hh Hf. cbn [drain_wal]. by rewrite (Next_new h f rest Hh Hf). Qed.

Definition wal_bytes (h : Header) (txs : list (list pageWrite)) (part : list pageWrite) (torn : bytes) : bytes :=
  (header_bytes h ++ run_bytes h (seed h) (concat txs ++ part) ++ torn)%list.

(** C33: Polling a log written in the documented format returns exactly its
    committed transactions, in order, each with the page numbers, commit
    sizes and page bytes that were written, and leaves the reader at the end of
    the last of them.  Whole transactions may be followed by the frames of an
    unfinished one, and those by anything at all that does not go on the log:
    less than a frame, or a frame whose salts are not the header's (what an
    earlier generation of a restarted log left, valid commits included) or
    whose checksum does not continue the log's (a torn frame), and then any
    bytes.  None of it is returned. *)
Theorem wal_roundtrip (h : Header) (txs : list (list pageWrite)) (part : list pageWrite) (torn : bytes) (n : nat) :
  hdr_ok h → Forall (tx_ok h) txs → Forall (write_ok h) part → Forall (λ p, pw_commit p = 0) part →
  log_end h (run_sum h (seed h) (concat txs ++ part)) torn → (length txs < n)%nat →
  drain_wal n (wal_bytes h txs part torn) NewReader =
    (Ok (txs_frames h (seed h) txs),
     reader_at h (HeaderSize + N.of_nat (length (concat txs)) * FrameSize h) (run_sum h (seed h) (concat txs))).
Proof.
  intros Hh Htx Hp Hc Ht Hn.
  rewrite <-(drain_at n (wal_bytes h txs part torn) h _ HeaderSize (seed h) txs part torn
    Hh eq_refl Htx Hp Hc (hdr_seed_u32 h Hh) Ht (drop_header h _) Hn).
  destruct n as [|n]; [lia|]. apply (drain_new h _ _ n Hh eq_refl).
Qed.

Definition ex_pre_hdr : Header := mkHeader magicLE wal_version 8 0 7 9 0 0.
Definition ex_hdr : Header :=
  let s := Checksum LittleEndian (0, 0) (header_prefix ex_pre_hdr) in
  mkHeader magicLE wal_version 8 0 7 9 s.1 s.2.
Definition ex_page (b : byte) : bytes := replicate 8 b.
Definition ex_txs : list (list pageWrite) :=
  [[mkPageWrite 1 0 (ex_page x01); mkPageWrite 2 2 (ex_page x02)]; [mkPageWrite 1 2 (ex_page x03)]].

Lemma ex_hdr_ok : hdr_ok ex_hdr.
Proof. split; [by left|reflexivity|..|vm_compute; reflexivity]; by vm_compute. Qed.

Lemma ex_txs_ok : Forall (tx_ok ex_hdr) ex_txs.
Proof.
  repeat constructor.
  - exists [mkPageWrite 1 0 (ex_page x01)], (mkPageWrite 2 2 (ex_page x02)). split_and!; [done| |by repeat constructor|done].
    repeat constructor; by vm_compute.
  - exists [], (mkPageWrite 1 2 (ex_page x03)). split_and!; [done| |by constructor|done].
    repeat constructor; by vm_compute.
Qed.

(** The frames a restart left behind: a commit of the earlier generation, whose
    header differs in its salts only, here with the checksum the log would go
    on with, and more bytes after it. *)
Definition ex_old_hdr : Header := mkHeader magicLE wal_version 8 0 6 4 0 0.
Definition ex_part : list pageWrite := [mkPageWrite 2 0 (ex_page x05)].
Definition ex_stale : bytes :=
  (frame_bytes ex_old_hdr (run_sum ex_hdr (seed ex_hdr) (concat ex_txs ++ ex_part)) (mkPageWrite 1 2 (ex_page x09)) ++ ex_page x0a)%list.

Lemma wal_roundtrip_witness :
  frame_cksum ex_stale = cksum_bytes ex_hdr (run_sum ex_hdr (seed ex_hdr) (concat ex_txs ++ ex_part)) ex_stale ∧
  drain_wal 3 (wal_bytes ex_hdr ex_txs ex_part ex_stale) NewReader =
    (Ok (txs_frames ex_hdr (seed ex_hdr) ex_txs),
     reader_at ex_hdr (HeaderSize + 3 * FrameSize ex_hdr) (run_sum ex_hdr (seed ex_hdr) (concat ex_txs))).
Proof.
  split; [by vm_compute|].
  apply (wal_roundtrip ex_hdr ex_txs ex_part ex_stale 3).
  - apply ex_hdr_ok.
  - apply ex_txs_ok.
  - repeat constructor; by vm_compute.
  - by repeat constructor.
  - right; left. by vm_compute.
  - simpl. lia.
Defined.

(** ** Arbitrary bytes *)

Lemma ReadAt_Some f off n b :
  ReadAt f off n = Some b →
  length b = N.to_nat n ∧ b = take (N.to_nat n) (drop (N.to_nat off) f) ∧
  (n = 0%N ∨ N.to_nat off + N.to_nat n <= length f)%nat.
Proof.
  unfold ReadAt. intros H. case_bool_decide as Hl; [|done]. simplify_eq. split; [done|].
  split; [done|]. rewrite length_take, length_drop in Hl. lia.
Qed.

(** The loop never runs out of fuel. *)
Lemma next_frames_fuel fuel f h off s acc e :
  (length f < N.to_nat off + fuel)%nat → next_frames fuel f h off s acc ≠ Err e ∨ fuel = O.
Proof.
  revert off s acc. induction fuel as [|fuel IH]; intros off s acc Hf; [by right|]. left.
  cbn [next_frames]. destruct (ReadAt f off (FrameSize h)) as [buf|] eqn:Hr; [|done].
  apply ReadAt_Some in Hr as (_ & _ & [Hz|Hfit]); [unfold FrameSize, FrameHeaderSize in Hz; lia|].
  repeat case_match; try done.
  assert (24 <= N.to_nat (FrameSize h))%nat by (unfold FrameSize, FrameHeaderSize; lia).
  edestruct (IH (off + FrameSize h)) as [Hne|Hz]; [|exact Hne|].
  - lia.
  - subst. lia.
Qed.

Lemma next_frames_returns f h off s acc : ∃ o, next_frames (S (length f)) f h off s acc = Ok o.
Proof.
  destruct (next_frames (S (length f)) f h off s acc) as [o|e] eqn:E; [eauto|].
  destruct (next_frames_fuel (S (length f)) f h off s acc e) as [H|H]; [lia|done|done].
Qed.

(** What a returned transaction is: it extends the accumulator, and ends past
    the position it started from. *)
Lemma next_frames_ge fuel f h off s acc fs off' s' :
  next_frames fuel f h off s acc = Ok (Some (fs, off', s')) →
  off + FrameSize h <= off' ∧ ∃ fr frs, fs = (acc ++ fr :: frs)%list.
Proof.
  revert off s acc. induction fuel as [|fuel IH]; intros off s acc; cbn [next_frames]; [done|].
  destruct (ReadAt f off (FrameSize h)) as [buf|]; [|done].
  repeat case_match; try done; intros Heq.
  - simplify_eq. split; [lia|]. eexists _, _. done.
  - apply IH in Heq as [Hle (fr & frs & ->)]. split; [lia|].
    eexists _, _. by rewrite <-app_assoc.
Qed.

Lemma ReadAt_agree f f' off n k b :
  (N.to_nat off + N.to_nat n <= k)%nat → take k f = take k f' →
  ReadAt f off n = Some b → ReadAt f' off n = Some b.
Proof.
  intros Hk Ht (Hl & Hb & _)%ReadAt_Some. unfold ReadAt.
  assert (take (N.to_nat n) (drop (N.to_nat off) f') = b) as ->.
  { rewrite Hb, !take_drop_commute.
    assert (∀ g : bytes, take (N.to_nat off + N.to_nat n) g = take (N.to_nat off + N.to_nat n) (take k g)) as Hg.
    { intros g. rewrite take_take. f_equal. lia. }
    by rewrite (Hg f), (Hg f'), Ht. }
  by rewrite bool_decide_eq_true_2.
Qed.

Lemma next_frames_agree fuel fuel' f f' h off s acc fs off' s' :
  next_frames fuel f h off s acc = Ok (Some (fs, off', s')) →
  take (N.to_nat off') f = take (N.to_nat off') f' →
  next_frames fuel' f' h off s acc = Ok (Some (fs, off', s')) ∨ next_frames fuel' f' h off s acc = Err [EFuel].
Proof.
  revert fuel' off s acc. induction fuel as [|fuel IH]; intros fuel' off s acc Hn Ht; [done|].
  destruct fuel' as [|fuel']; [by right|].
  pose proof (next_frames_ge _ _ _ _ _ _ _ _ _ Hn) as [Hge _].
  cbn [next_frames] in Hn |- *.
  destruct (ReadAt f off (FrameSize h)) as [buf|] eqn:Hr; [|done].
  rewrite (ReadAt_agree f f' off _ (N.to_nat off') buf); [|lia|done|done].
  repeat case_match; try done; auto.
Qed.

(** [Next] returns on every file and every reader state: its frame loop
    ends, and the one error it reports on a readable file is the restart of
    the WAL, exactly when the file's valid header carries other salts than
    the ones the reader is bound to; the reader is then unchanged. *)
Theorem wal_next_total (f : bytes) (r : Reader) :
  let restarted := ∃ hb hdr, ReadAt f 0 HeaderSize = Some hb ∧ ParseHeader hb = Ok hdr ∧
    rd_bound r = true ∧ (wh_salt1 hdr, wh_salt2 hdr) ≠ (rd_salt1 r, rd_salt2 r) in
  (restarted ∧ Next (Ok f) r = (Err [EWALRestarted], r)) ∨
  (¬ restarted ∧ ∃ tx r', Next (Ok f) r = (Ok tx, r')).
Proof.
  intros restarted. unfold restarted, Next. clear restarted.
  destruct (ReadAt f 0 HeaderSize) as [hb|] eqn:Hr; [|right; split; [intros (?&?&?&?&?&?); congruence|eauto]].
  destruct (ParseHeader hb) as [hdr|e] eqn:Hp; [|right; split; [intros (?&?&?&?&?&?); congruence|eauto]].
  unfold bind_header. destruct (rd_bound r) eqn:Hb; cbn [negb].
  - destruct (negb _ || negb _) eqn:Hs.
    + left. split; [|done]. exists hb, hdr. split_and!; [done..|].
      apply orb_true_iff in Hs. rewrite !negb_true_iff, !N.eqb_neq in Hs. destruct Hs; congruence.
    + right. bool_to_prop. split; [intros (?&?&?&?&?&?); congruence|].
      destruct (rd_need_seed r);
        (edestruct (next_frames_returns f hdr) as [[[[fs off] s]|] ->]; eauto).
  - right. split; [intros (?&?&?&?&?&?); congruence|].
    edestruct (next_frames_returns f hdr) as [[[[fs off] s]|] ->]; eauto.
Qed.

(** ** Polling a file that changes *)

(** The states of a reader: one not bound to a generation awaits no seed, and
    a bound one is positioned past the WAL header. *)
Definition reader_wf (r : Reader) : Prop :=
  (rd_bound r = false → rd_need_seed r = false) ∧ (rd_bound r = true → HeaderSize <= rd_off r).

Lemma reader_wf_new : reader_wf NewReader.
Proof. split; done. Qed.

Lemma bind_header_wf hdr r r1 : reader_wf r → bind_header hdr r = Ok r1 →
  reader_wf r1 ∧ bind_header hdr r1 = Ok r1 ∧ HeaderSize <= rd_off r1.
Proof.
  intros [Hw1 Hw2]. unfold bind_header. destruct (rd_bound r) eqn:Hb; cbn [negb].
  - destruct (negb _ || negb _) eqn:Hs; [done|]. bool_to_prop.
    destruct (rd_need_seed r); intros; simplify_eq; cbn;
      (split_and!; [split; cbn; [done|auto]|by rewrite H, H0, !N.eqb_refl|auto]).
  - intros; simplify_eq. cbn. rewrite Hw1 by done. rewrite !N.eqb_refl. cbn.
    split_and!; [split; cbn; [done|intros; lia]|done|lia].
Qed.

(** The three outcomes of [Next] on a readable file, inverted. *)
Lemma Next_Ok_inv f r tx r' : Next (Ok f) r = (Ok tx, r') →
  (tx = [] ∧ r' = r ∧ ∀ hb, ReadAt f 0 HeaderSize = Some hb → ¬ ∃ hdr, ParseHeader hb = Ok hdr) ∨
  (∃ hb hdr r1, ReadAt f 0 HeaderSize = Some hb ∧ ParseHeader hb = Ok hdr ∧ bind_header hdr r = Ok r1 ∧
    ((tx = [] ∧ r' = r1) ∨
     (∃ off s, next_frames (S (length f)) f hdr (rd_off r1) (rd_s r1) [] = Ok (Some (tx, off, s)) ∧
        r' = mkReader (rd_bound r1) (rd_need_seed r1) off (rd_salt1 r1) (rd_salt2 r1) s (rd_hdr r1)))).
Proof.
  unfold Next. destruct (ReadAt f 0 HeaderSize) as [hb|] eqn:Hr; [|intros; simplify_eq; left; naive_solver].
  destruct (ParseHeader hb) as [hdr|e] eqn:Hp;
    [|intros; simplify_eq; left; split_and!; [done..|]; intros ? [= <-] [? ?]; congruence].
  destruct (bind_header hdr r) as [r1|e] eqn:Hb; [|done].
  intros H. right. exists hb, hdr, r1. split_and!; [done..|].
  destruct (next_frames _ _ _ _ _ _) as [[[[fs off] s]|]|e]; simplify_eq; eauto 10.
Qed.

Lemma ReadAt_header_agree f f' k :
  (32 <= k)%nat → take k f = take k f' → ReadAt f 0 HeaderSize = ReadAt f' 0 HeaderSize.
Proof.
  intros Hk Ht. destruct (ReadAt f 0 HeaderSize) as [b|] eqn:E.
  - symmetry. eapply ReadAt_agree; [|exact Ht|exact E]. exact Hk.
  - destruct (ReadAt f' 0 HeaderSize) as [b|] eqn:E'; [|done].
    rewrite (ReadAt_agree f' f 0 HeaderSize k b) in E; [done|exact Hk|by symmetry|done].
Qed.

(** A transaction is final once returned. *)
Lemma next_final (f f' : bytes) (r r' : Reader) (tx : list Frame) :
  reader_wf r → Next (Ok f) r = (Ok tx, r') → tx ≠ [] →
  take (N.to_nat (rd_off r')) f = take (N.to_nat (rd_off r')) f' →
  Next (Ok f') r = (Ok tx, r').
Proof.
  intros Hwf [(-> & _)|(hb & hdr & r1 & Hr & Hp & Hb & [[-> _]|(off & s & Hn & ->)])]%Next_Ok_inv Htx Ht;
    [done..|].
  pose proof (bind_header_wf _ _ _ Hwf Hb) as (_ & _ & Hoff). cbn [rd_off] in Ht.
  pose proof (next_frames_ge _ _ _ _ _ _ _ _ _ Hn) as [Hge _].
  unfold Next. rewrite <-(ReadAt_header_agree f f' (N.to_nat off)), Hr, Hp, Hb by (done || (unfold HeaderSize in *; lia)).
  destruct (next_frames_agree _ (S (length f')) f f' hdr _ _ _ _ _ _ Hn Ht) as [->|He]; [done|].
  destruct (next_frames_returns f' hdr (rd_off r1) (rd_s r1) []) as [o Ho]. congruence.
Qed.

(** A poll that found no transaction loses nothing. *)
Lemma next_inert (f f' : bytes) (r r' : Reader) :
  reader_wf r → Next (Ok f) r = (Ok [], r') → take 32 f = take 32 f' →
  Next (Ok f') r' = Next (Ok f') r.
Proof.
  intros Hwf [(_ & -> & _)|(hb & hdr & r1 & Hr & Hp & Hb & Hcase)]%Next_Ok_inv Ht; [done|].
  destruct Hcase as [[_ ->]|(off & s & Hn & _)].
  - pose proof (bind_header_wf _ _ _ Hwf Hb) as (_ & Hb1 & _).
    unfold Next. rewrite <-(ReadAt_header_agree f f' 32), Hr, Hp, Hb, Hb1 by (done || lia). done.
  - apply next_frames_ge in Hn as [_ (? & ? & Hnil)]. done.
Qed.

(** Polling is stable.  A transaction is final once returned: on any other
    content of the file that agrees with this one up to the transaction's end
    (more frames appended, a torn or overwritten tail) the same reader returns
    the same frames and moves to the same position.  And a poll that found
    nothing loses nothing: on any later content with the same header, polling
    from the state it left gives what polling from the state before it would
    have given. *)
Theorem wal_poll_stable (f f' : bytes) (r r' : Reader) (tx : list Frame) :
  reader_wf r → Next (Ok f) r = (Ok tx, r') →
  (tx ≠ [] → take (N.to_nat (rd_off r')) f = take (N.to_nat (rd_off r')) f' → Next (Ok f') r = (Ok tx, r'))
  ∧ (tx = [] → take 32 f = take 32 f' → Next (Ok f') r' = Next (Ok f') r).
Proof.
  intros Hwf HN. split; [intros; by apply (next_final f)|]. intros -> Ht. by apply (next_inert f).
Qed.

Lemma wal_poll_stable_witness :
  ∃ tx r', Next (Ok (wal_bytes ex_hdr ex_txs [] [])) NewReader = (Ok tx, r') ∧ length tx = 2%nat ∧
    Next (Ok (wal_bytes ex_hdr (take 1 ex_txs) [] [x05])) NewReader = (Ok tx, r').
Proof.
  eexists _, _. split; [vm_compute; reflexivity|]. split; [reflexivity|].
  apply (wal_poll_stable (wal_bytes ex_hdr ex_txs [] [])).
  - apply reader_wf_new.
  - vm_compute. reflexivity.
  - done.
  - vm_compute. reflexivity.
Defined.
