(* ===== verification/GoUrl.v ===== *)
(** * The parts of [net/url], [strconv] and [strings] the S3 backend uses

    [url.PathEscape] and [url.PathUnescape], byte by byte; the verb [%d] on an
    [int64] and [strconv.ParseInt]; [strings.Trim] with a one-byte cutset. *)
From Stdlib Require Import Ascii String.
From S2P Require Import Prelude GoStrings Keys.
Local Open Scope string_scope.

(** ** Escaping *)

Definition in_range (lo hi n : N) : bool := (lo <=? n)%N && (n <=? hi)%N.

(** [shouldEscape(c, encodePathSegment)]: letters, digits, [-_.~] and
    [$&+:=@] stay. *)
Definition shouldEscape (c : ascii) : bool :=
  let n := N_of_ascii c in
  negb (in_range 97 122 n || in_range 65 90 n || in_range 48 57 n
        || bool_decide (c ∈ ["-"; "_"; "."; "~"; "$"; "&"; "+"; ":"; "="; "@"]%char)).

(** A digit of [upperhex]. *)
Definition upperhex (d : N) : ascii := ascii_of_N (if (d <? 10)%N then d + 48 else d + 55)%N.

Fixpoint PathEscape (s : string) : string :=
  match s with
  | EmptyString => ""
  | String c s' =>
      if shouldEscape c then
        String "%" (String (upperhex (N_of_ascii c / 16)) (String (upperhex (N_of_ascii c mod 16)) (PathEscape s')))
      else String c (PathEscape s')
  end.

(** [url.PathUnescape]: an error on a percent sign without two hex digits. *)
Fixpoint PathUnescape (s : string) : res string :=
  match s with
  | EmptyString => Ok ""
  | String "%" s1 =>
      match s1 with
      | String h (String l s') =>
          match digit_val h, digit_val l with
          | Some a, Some b => String (ascii_of_N (a * 16 + b)) <$> PathUnescape s'
          | _, _ => Err [EBadArgs]
          end
      | _ => Err [EBadArgs]
      end
  | String c s' => String c <$> PathUnescape s'
  end.

Lemma PathUnescape_plain c s : c ≠ "%"%char → PathUnescape (String c s) = String c <$> PathUnescape s.
Proof. intros Hc. destruct c as [[] [] [] [] [] [] [] []]; done. Qed.

(** Escaping one byte, read back; by cases on the byte. *)
Lemma unescape_byte c s :
  PathUnescape (String "%" (String (upperhex (N_of_ascii c / 16)) (String (upperhex (N_of_ascii c mod 16)) s)))
  = String c <$> PathUnescape s.
Proof. destruct c as [[] [] [] [] [] [] [] []]; reflexivity. Qed.

Lemma escape_percent : shouldEscape "%" = true.
Proof. reflexivity. Qed.

Lemma unescape_escape s t : PathUnescape (PathEscape s +:+ t) = String.append s <$> PathUnescape t.
Proof.
  induction s as [|c s IH]; cbn [PathEscape String.append]; [by destruct (PathUnescape t)|].
  destruct (shouldEscape c) eqn:E; cbn [String.append].
  - rewrite unescape_byte, IH. by destruct (PathUnescape t).
  - rewrite PathUnescape_plain, IH by (intros ->; by rewrite escape_percent in E). by destruct (PathUnescape t).
Qed.

Lemma PathUnescape_escape s : PathUnescape (PathEscape s) = Ok s.
Proof.
  pose proof (unescape_escape s "") as H. rewrite string_app_nil_r in H. rewrite H. simpl.
  by rewrite string_app_nil_r.
Qed.

(** Escaped text is free of every byte that is always escaped. *)
Lemma PathEscape_free d s : shouldEscape d = true → d ≠ "%"%char → in_range 48 57 (N_of_ascii d) = false →
  in_range 65 70 (N_of_ascii d) = false → all_chars (λ c, bool_decide (c ≠ d)) (PathEscape s) = true.
Proof.
  intros Hd Hp H1 H2. induction s as [|c s IH]; simpl; [done|].
  assert (∀ n, (n < 16)%N → upperhex n ≠ d) as Hx.
  { intros n Hn <-. unfold upperhex, in_range in *. rewrite N_ascii_embedding in H1, H2 by (case_match; lia).
    destruct (N.ltb_spec n 10); bool_to_prop;
      repeat match goal with H : (_ && _) = false |- _ => apply andb_false_iff in H as [H|H] end; bool_to_prop; lia. }
  pose proof (N_ascii_bounded c).
  destruct (shouldEscape c) eqn:E; simpl; rewrite IH, ?andb_true_r.
  - rewrite !bool_decide_eq_true_2; [done| | |done].
    + apply Hx. apply N.mod_lt. done.
    + apply Hx. apply N.Div0.div_lt_upper_bound. lia.
  - rewrite bool_decide_eq_true_2; [done|]. intros ->. congruence.
Qed.

(** ** Integers *)

(** [%d] of an [int64]. *)
Definition fmt_int (z : Z) : string := if (z <? 0)%Z then "-" +:+ fmt_d (Z.to_N (- z)) else fmt_d (Z.to_N z).

(** [strconv.ParseInt(s, 10, bits)]. *)
Definition ParseInt (s : string) (bits : Z) : res Z :=
  let '(neg, digits) := match s with
    | String "-" s' => (true, s')
    | String "+" s' => (false, s')
    | _ => (false, s)
    end in
  match ParseUint digits 10 with
  | None => Err [EBadArgs]
  | Some n =>
      if neg then if (Z.of_N n <=? 2 ^ (bits - 1))%Z then Ok (- Z.of_N n)%Z else Err [EBadArgs]
      else if (Z.of_N n <? 2 ^ (bits - 1))%Z then Ok (Z.of_N n) else Err [EBadArgs]
  end.

(** A printed number starts with a digit. *)
Lemma fmt_d_digits n : all_chars (λ c, in_range 48 57 (N_of_ascii c)) (fmt_d n) = true.
Proof.
  unfold fmt_d. generalize (dec_width 20 n) as k. intros k.
  assert (∀ k n s, all_chars (λ c, in_range 48 57 (N_of_ascii c)) s = true →
    all_chars (λ c, in_range 48 57 (N_of_ascii c)) (fmt_digits 10 k n s) = true) as H; [|by apply H].
  clear. induction k as [|k IH]; intros n s Hs; simpl; [done|]. apply IH. simpl. rewrite Hs, andb_true_r.
  pose proof (N.mod_lt n 10 ltac:(done)) as Hm. unfold digit_char. revert Hm.
  generalize (n mod 10)%N as m. intros m Hm. destruct (N.ltb_spec m 10) as [_|?]; [|lia].
  rewrite N_ascii_embedding by lia. unfold in_range. apply andb_true_iff. split; apply N.leb_le; lia.
Qed.

Lemma fmt_d_no d n : in_range 48 57 (N_of_ascii d) = false → all_chars (λ c, bool_decide (c ≠ d)) (fmt_d n) = true.
Proof.
  intros Hd. eapply all_chars_impl; [|apply fmt_d_digits]. intros c Hc. simpl in Hc.
  apply bool_decide_eq_true_2. intros ->. congruence.
Qed.

Lemma fmt_d_cons n : ∃ c s, fmt_d n = String c s ∧ in_range 48 57 (N_of_ascii c) = true.
Proof.
  pose proof (fmt_d_digits n) as H. unfold fmt_d in *.
  assert (String.length (fmt_digits 10 (dec_width 20 n) n "") ≠ 0%nat) as Hl.
  { rewrite fmt_digits_length. pose proof (dec_width_pos 20 n). lia. }
  destruct (fmt_digits 10 (dec_width 20 n) n "") as [|c s]; [done|].
  simpl in H. apply andb_true_iff in H as [H _]. eauto.
Qed.

Lemma ParseInt_fmt z bits : (0 <= z < 2 ^ (bits - 1))%Z → (bits <= 64)%Z → ParseInt (fmt_int z) bits = Ok z.
Proof.
  intros Hz Hb. unfold fmt_int. destruct (Z.ltb_spec z 0); [lia|].
  assert (2 ^ (bits - 1) <= 2 ^ 63)%Z as Hp by (apply Z.pow_le_mono_r; [done|clear - Hb; lia]).
  change (2 ^ 63)%Z with 9223372036854775808%Z in Hp.
  assert (u64 (Z.to_N z)) as Hu.
  { unfold u64, u64_size. lia. }
  destruct (fmt_d_cons (Z.to_N z)) as (c & s & E & Hc).
  unfold ParseInt. pose proof (ParseUint_fmt_d _ Hu) as HP. rewrite E in *.
  assert ((match String c s with String "-" s' => (true, s') | String "+" s' => (false, s') | _ => (false, String c s) end)
          = (false, String c s)) as ->.
  { destruct c as [[] [] [] [] [] [] [] []]; done. }
  rewrite HP, Z2N.id by lia. destruct (Z.ltb_spec z (2 ^ (bits - 1))); [done|lia].
Qed.

(** ** Trimming *)

(** [strings.Trim(s, "c")]. *)
Fixpoint trim_left (c : ascii) (s : string) : string :=
  match s with String d s' => if decide (d = c) then trim_left c s' else s | EmptyString => "" end.
Fixpoint trim_right (c : ascii) (s : string) : string :=
  match s with
  | EmptyString => ""
  | String d s' => match trim_right c s' with EmptyString => if decide (d = c) then "" else String d "" | t => String d t end
  end.
Definition Trim (c : ascii) (s : string) : string := trim_right c (trim_left c s).
