(* ===== verification/S3Api.v ===== *)
(** * The S3 API as the AWS SDK presents it

    What [internal/store/s3.go] and [s3_multipart.go] call: [S3Client], the
    methods of the SDK's client as functions on the state of the service, whose
    types are the SDK's; [S3Laws], the documented behaviour of the service that
    the backend relies on, over the abstract bucket [view] shows; and [SIO], the
    monad of programs that make such calls.  [FakeS3] implements the client and
    [FakeS3Props] proves the laws of it.

    A program runs in an [sworld] whose schedule holds one [stick] per request:
    what other clients do to the service before it, and whether the reply is an
    error of the transport, the request having taken effect or not.  [sw_log] is
    a history variable: the requests of this program that reached the service,
    with its state before and after, newest first. *)
From Stdlib Require Import Ascii String Strings.Byte.
From S2P Require Import Prelude GoStrings Keys GoUrl Files.
Local Open Scope string_scope.

(** ** Errors of the SDK *)

(** The code of the [smithy.APIError] in the chain, if there is one, and the
    status of the [ResponseError], 0 if there is none. *)
Record sdkerr := mkSdk { APIErrorCode : option string; HTTPStatusCode : N }.

Definition statusOf (e : sdkerr) : N := HTTPStatusCode e.

Definition isNotFound (e : sdkerr) : bool :=
  match APIErrorCode e with
  | Some c => bool_decide (c = "NoSuchKey") || bool_decide (c = "NotFound")
  | None => (statusOf e =? 404)%N
  end.

Definition isPreconditionFailed (e : sdkerr) : bool :=
  match APIErrorCode e with
  | Some c => bool_decide (c = "PreconditionFailed") || bool_decide (c = "ConditionalRequestConflict")
  | None => (statusOf e =? 412)%N || (statusOf e =? 409)%N
  end.

Inductive reply (A : Type) : Type :=
  | Resp (a : A)
  | SdkErr (e : sdkerr).
Arguments Resp {A} a.
Arguments SdkErr {A} e.

(** ** Requests *)

(** The [IfNoneMatch] and [IfMatch] fields of a conditional write. *)
Record conds := mkConds { IfNoneMatch : option string; IfMatch : option string }.
Definition no_conds : conds := mkConds None None.

(** The ETag and checksum fields common to [UploadPartOutput] and
    [CopyPartResult]. *)
Record partChecksums := mkPC {
  pc_etag : option string; pc_crc32 : option string; pc_crc32c : option string;
  pc_crc64nvme : option string; pc_sha1 : option string; pc_sha256 : option string }.

Record CompletedPart := mkCP {
  cp_ETag : option string; PartNumber : Z; ChecksumCRC32 : option string;
  ChecksumCRC32C : option string; ChecksumCRC64NVME : option string;
  ChecksumSHA1 : option string; ChecksumSHA256 : option string }.

(** The client's methods; the first argument is the bucket, the second the key
    (the prefix for [ListObjectsV2], which is one [NextPage] of the SDK's
    paginator: the keys and, when there are more pages, the token). *)
Class S3Client (V : Type) := {
  GetObject : string → string → V → reply (bytes * string) * V;
  HeadObject : string → string → V → reply (string * Z) * V;
  (** the body, and [ContentLength] when the caller sets it *)
  PutObject : string → string → bytes → option Z → conds → V → reply string * V;
  DeleteObject : string → string → V → reply unit * V;
  (** the keys deleted, and the keys refused with the code of the error *)
  DeleteObjectsReq : string → list string → V → reply (list string * list (string * string)) * V;
  ListObjectsV2 : string → string → option string → V → reply (list string * option string) * V;
  (** the copy source *)
  CopyObjectReq : string → string → string → V → reply unit * V;
  (** the checksum algorithm, empty for none; the answer is the upload id *)
  CreateMultipartUpload : string → string → string → V → reply string * V;
  (** the upload id, the part number, the body, [ContentLength], the algorithm *)
  UploadPart : string → string → string → Z → bytes → Z → string → V → reply partChecksums * V;
  (** the upload id, the part number, the copy source, the range *)
  UploadPartCopy : string → string → string → Z → string → string → V → reply (option partChecksums) * V;
  (** the upload id, the parts, [MpuObjectSize] *)
  CompleteMultipartUpload : string → string → string → list CompletedPart → Z → conds → V → reply string * V;
  AbortMultipartUpload : string → string → string → V → reply unit * V }.

(** ** The monad of programs that call the service *)

Section sio.
Context {V : Type}.

Record stick := mkSTick {
  st_env : V → V;
  st_fault : option (bool * sdkerr) }.   (* did the request take effect, and the error seen *)

Definition squiet : stick := mkSTick id None.

Record entry := mkEntry { en_before : V; en_after : V; en_lost : bool }.

Record sworld := mkSWorld {
  sw_srv : V;
  sw_sched : list stick;
  sw_picks : list nat;     (* the choices of the Go scheduler *)
  sw_log : list entry }.

Definition SIO (A : Type) : Type := sworld → res A * sworld.

#[global] Instance sio_ret : MRet SIO := λ A a w, (Ok a, w).
#[global] Instance sio_bind : MBind SIO := λ A B f m w,
  let '(r, w') := m w in
  match r with Ok a => f a w' | Err e => (Err e, w') end.

Definition sfail {A} (e : error) : SIO A := λ w, (Err e, w).
Definition slift {A} (r : res A) : SIO A := λ w, (r, w).
Definition stry {A} (m : SIO A) : SIO (res A) := λ w, let '(r, w') := m w in (Ok r, w').

(** The other clients' moves before the next request. *)
Definition snext (w : sworld) : stick * sworld :=
  let '(t, rest) := match sw_sched w with [] => (squiet, []) | t :: rest => (t, rest) end in
  (t, mkSWorld (st_env t (sw_srv w)) rest (sw_picks w) (sw_log w)).

(** The request reached the service and left it in state [v]. *)
Definition landed (v : V) (lost : bool) (w : sworld) : sworld :=
  mkSWorld v (sw_sched w) (sw_picks w) (mkEntry (sw_srv w) v lost :: sw_log w).

(** One request.  The error of a fault stands for everything that can go wrong
    on the way: a deadline, a broken connection, a 503. *)
Definition call {A} (op : V → reply A * V) : SIO (reply A) := λ w,
  let '(t, w) := snext w in
  let '(r, v) := op (sw_srv w) in
  match st_fault t with
  | None => (Ok r, landed v false w)
  | Some (true, e) => (Ok (SdkErr e), landed v true w)
  | Some (false, e) => (Ok (SdkErr e), w)
  end.

(** [io.ReadAll] of a response body. *)
Definition ReadAll (body : bytes) : SIO bytes := λ w,
  let '(t, w) := snext w in
  match st_fault t with None => (Ok body, w) | Some _ => (Err [EIO], w) end.

(** The next choice among [n] runnable goroutines. *)
Definition pick (n : nat) : SIO nat := λ w,
  let '(i, rest) := match sw_picks w with [] => (0%nat, []) | i :: rest => (i, rest) end in
  (Ok (i mod n)%nat, mkSWorld (sw_srv w) (sw_sched w) rest (sw_log w)).
End sio.
#[global] Arguments stick V : clear implicits.
#[global] Arguments sworld V : clear implicits.
#[global] Arguments entry V : clear implicits.
#[global] Arguments SIO V A : clear implicits.

(** ** What the service promises *)

Record sobject := mkSObj { so_data : bytes; so_etag : string }.
Record spart := mkSPart { sp_data : bytes; sp_etag : string }.
Record upload := mkUp { up_key : string; up_alg : string; up_parts : gmap Z spart }.

(** A bucket: its objects and the uploads in progress, by their ids.  An upload
    is in progress while it takes parts and can be completed.  What the service
    may go on storing, and billing, of one that is over is not shown: a part that
    was on its way when the abort was acknowledged ([docs/operations.md]). *)
Record bucket := mkBucket { b_objs : gmap string sobject; b_uploads : gmap string upload }.

(** Do the conditions of a write hold of the current object? *)
Definition cond_holds (c : conds) (cur : option sobject) : bool :=
  match IfNoneMatch c with
  | Some t => negb (bool_decide (t = "*" ∧ is_Some cur))
  | None => true
  end &&
  match IfMatch c with
  | Some t => match cur with Some o => bool_decide (so_etag o = t) | None => false end
  | None => true
  end.

(** How a failed condition is reported. *)
Definition cond_err (c : conds) (cur : option sobject) (e : sdkerr) : Prop :=
  isPreconditionFailed e = true ∨ (is_Some (IfMatch c) ∧ cur = None ∧ isNotFound e = true).

(** An error that says nothing about the object. *)
Definition plain_err (e : sdkerr) : Prop := isNotFound e = false ∧ isPreconditionFailed e = false.

Definition MiB : Z := 1048576.
Definition single_put_max : Z := 5 * 1024 * MiB.             (* 5 GiB *)
Definition object_max : Z := 5 * 1024 * 1024 * MiB.          (* 5 TiB *)
Definition part_min : Z := 5 * MiB.

Definition blen (b : bytes) : Z := Z.of_nat (length b).

Definition part_no (n : Z) : Prop := (1 <= n <= 10000)%Z.

(** [s3CopySource]: the bucket and each segment of the key, escaped. *)
Definition s3CopySource (bucket key : string) : string :=
  PathEscape bucket +:+ "/" +:+ Join (PathEscape <$> Split key slash) slash.

(** [fmt.Sprintf("bytes=%d-%d", lo, hi)]. *)
Definition copy_range (lo hi : Z) : string := "bytes=" +:+ fmt_int lo +:+ "-" +:+ fmt_int hi.

(** [b[lo:hi+1]], a range with both ends included. *)
Definition range_of (b : bytes) (lo hi : Z) : bytes := take (Z.to_nat (hi - lo + 1)) (drop (Z.to_nat lo) b).

(** The part an entry of [CompleteMultipartUpload] names. *)
Definition part_named (up : upload) (p : CompletedPart) (b : bytes) : Prop :=
  ∃ sp, up_parts up !! PartNumber p = Some sp ∧ cp_ETag p = Some (sp_etag sp) ∧ sp_data sp = b
        ∧ (up_alg up = "CRC32" → ∃ c, ChecksumCRC32 p = Some c ∧ c ≠ "").

(** A request to complete the service accepts: the parts in ascending order,
    each named by its ETag and its checksum if one was declared, none but the
    last one short. *)
Definition complete_wf (up : upload) (parts : list CompletedPart) (size : Z) (ds : list bytes) : Prop :=
  parts ≠ [] ∧ StronglySorted Z.lt (PartNumber <$> parts) ∧ Forall2 (part_named up) parts ds
  ∧ (up_alg up = "" ∨ up_alg up = "CRC32")
  ∧ size = blen (concat ds) ∧ (size <= object_max)%Z
  ∧ (∀ i b, (S i < length ds)%nat → ds !! i = Some b → (part_min <= blen b)%Z)
  ∧ Forall (λ b, blen b <= single_put_max)%Z ds.

(** The keys of a listing that [from] leaves. *)
Definition keys_from (m : gmap string sobject) (prefix : string) (from : string → bool) : list string :=
  sort_by String.le (filter (λ k, HasPrefix k prefix = true ∧ from k = true) (map_to_list m).*1).

Class S3View (V : Type) := {
  view : V → bucket;
  (** the upload ids handed out so far *)
  issued : V → string → Prop;
  srv_ok : V → Prop;
  (** the ETag of an object stored by a single request *)
  digest : bytes → string;
  (** [tok_from t k]: the key [k] is still to come at continuation token [t] *)
  tok_from : string → string → bool }.

(** [v'] shows the bucket [b] and has issued the same ids as [v]. *)
Definition shows `{S3View V} (v v' : V) (b : bucket) : Prop :=
  srv_ok v' ∧ (∀ id, issued v' id ↔ issued v id) ∧ view v' = b.

Abbreviation same v v' := (shows v v' (view v)).
Abbreviation stores v v' k o := (shows v v' (mkBucket (<[k := o]> (b_objs (view v))) (b_uploads (view v)))).

Class S3Laws (V : Type) `{S3Client V} `{S3View V} (bkt : string) := {
  digest_inj : ∀ b b', digest b = digest b' → b = b';
  digest_nonempty : ∀ b, digest b ≠ "";
  law_issued : ∀ v id up, srv_ok v → b_uploads (view v) !! id = Some up → issued v id;
  law_get : ∀ k v r v', srv_ok v → k ≠ "" → GetObject bkt k v = (r, v') → same v v' ∧
    match b_objs (view v) !! k with
    | Some o => r = Resp (so_data o, so_etag o)
    | None => ∃ e, r = SdkErr e ∧ isNotFound e = true
    end;
  law_head : ∀ k v r v', srv_ok v → HeadObject bkt k v = (r, v') → same v v' ∧
    match b_objs (view v) !! k with
    | Some o => r = Resp (so_etag o, blen (so_data o))
    | None => ∃ e, r = SdkErr e ∧ isNotFound e = true
    end;
  law_put : ∀ k d n c v r v', srv_ok v → (blen d <= single_put_max)%Z → IfMatch c ≠ Some "" →
    PutObject bkt k d n c v = (r, v') →
    if bool_decide (n = None ∨ n = Some (blen d)) then
      if cond_holds c (b_objs (view v) !! k) then r = Resp (digest d) ∧ stores v v' k (mkSObj d (digest d))
      else same v v' ∧ ∃ e, r = SdkErr e ∧ cond_err c (b_objs (view v) !! k) e
    else same v v' ∧ ∃ e, r = SdkErr e ∧ plain_err e;
  law_delete : ∀ k v r v', srv_ok v → DeleteObject bkt k v = (r, v') →
    r = Resp () ∧ shows v v' (mkBucket (delete k (b_objs (view v))) (b_uploads (view v)));
  law_delete_objects : ∀ ks v r v', srv_ok v → (length ks <= 1000)%nat → DeleteObjectsReq bkt ks v = (r, v') →
    ∃ del errs, r = Resp (del, errs)
    ∧ (∀ k, k ∈ ks ↔ k ∈ del ∨ k ∈ errs.*1) ∧ (∀ k, k ∈ errs.*1 → k ∉ del)
    ∧ ∃ m, shows v v' (mkBucket m (b_uploads (view v)))
           ∧ ∀ k, m !! k = if bool_decide (k ∈ del) then None else b_objs (view v) !! k;
  law_list : ∀ p t v r v', srv_ok v → ListObjectsV2 bkt p t v = (r, v') → same v v' ∧
    ∃ page next, r = Resp (page, next) ∧
      let from := match t with Some t => tok_from t | None => λ _, true end in
      let keys := keys_from (b_objs (view v)) p from in
      match next with
      | None => page = keys
      | Some t' => page = filter (λ k, tok_from t' k = false) keys ∧ page ≠ []
                   ∧ ∀ k, tok_from t' k = true → from k = true
      end;
  law_tok : ∀ t k k', tok_from t k = true → String.le k k' → tok_from t k' = true;
  law_copy : ∀ k src v r v', srv_ok v → CopyObjectReq bkt k (s3CopySource bkt src) v = (r, v') →
    match b_objs (view v) !! src with
    | Some o => (blen (so_data o) <= single_put_max)%Z →
        r = Resp () ∧ stores v v' k (mkSObj (so_data o) (digest (so_data o)))
    | None => same v v' ∧ ∃ e, r = SdkErr e ∧ isNotFound e = true
    end;
  law_create : ∀ k alg v r v', srv_ok v → CreateMultipartUpload bkt k alg v = (r, v') →
    ∃ id, r = Resp id ∧ ¬ issued v id ∧ srv_ok v' ∧ (∀ i, issued v' i ↔ i = id ∨ issued v i)
    ∧ view v' = mkBucket (b_objs (view v)) (<[id := mkUp k alg ∅]> (b_uploads (view v)));
  law_upload_part : ∀ k id n d len alg v r v', srv_ok v → issued v id → part_no n →
    UploadPart bkt k id n d len alg v = (r, v') →
    match r with
    | Resp ck => ∃ up et, b_uploads (view v) !! id = Some up ∧ up_key up = k ∧ len = blen d ∧ pc_etag ck = Some et
        ∧ (alg = "CRC32" → ∃ c, pc_crc32 ck = Some c ∧ c ≠ "")
        ∧ shows v v' (mkBucket (b_objs (view v))
            (<[id := mkUp (up_key up) (up_alg up) (<[n := mkSPart d et]> (up_parts up))]> (b_uploads (view v))))
    | SdkErr _ => same v v'
    end ∧ (∀ up, b_uploads (view v) !! id = Some up → up_key up = k → len = blen d →
             (blen d <= single_put_max)%Z → ∃ ck, r = Resp ck);
  law_part_copy : ∀ k id n src lo hi v r v', srv_ok v → issued v id → part_no n → (0 <= lo <= hi)%Z → (hi < object_max)%Z →
    UploadPartCopy bkt k id n (s3CopySource bkt src) (copy_range lo hi) v = (r, v') →
    match r with
    | Resp None => same v v'
    | Resp (Some ck) => ∃ up et o, b_uploads (view v) !! id = Some up ∧ up_key up = k
        ∧ b_objs (view v) !! src = Some o ∧ (hi < blen (so_data o))%Z ∧ pc_etag ck = Some et
        ∧ shows v v' (mkBucket (b_objs (view v))
            (<[id := mkUp (up_key up) (up_alg up) (<[n := mkSPart (range_of (so_data o) lo hi) et]> (up_parts up))]>
               (b_uploads (view v))))
    | SdkErr _ => same v v'
    end ∧ (∀ up o, b_uploads (view v) !! id = Some up → up_key up = k →
             b_objs (view v) !! src = Some o → (hi < blen (so_data o))%Z → (part_min < blen (so_data o))%Z →
             (hi - lo + 1 <= single_put_max)%Z → ∃ ck, r = Resp (Some ck));
  law_complete : ∀ k id parts size c v r v', srv_ok v → issued v id → IfMatch c ≠ Some "" →
    CompleteMultipartUpload bkt k id parts size c v = (r, v') →
    match r with
    | Resp _ => ∃ up ds t, b_uploads (view v) !! id = Some up ∧ up_key up = k
        ∧ Forall2 (λ p b, sp_data <$> up_parts up !! PartNumber p = Some b) parts ds
        ∧ cond_holds c (b_objs (view v) !! k) = true
        ∧ shows v v' (mkBucket (<[k := mkSObj (concat ds) t]> (b_objs (view v))) (delete id (b_uploads (view v))))
    | SdkErr _ => same v v'
    end ∧ (∀ up ds, b_uploads (view v) !! id = Some up → up_key up = k → complete_wf up parts size ds →
             if cond_holds c (b_objs (view v) !! k) then ∃ t, r = Resp t
             else ∃ e, r = SdkErr e ∧ cond_err c (b_objs (view v) !! k) e);
  (** an acknowledged abort ends the upload; what becomes of parts still on their
      way is not promised *)
  law_abort : ∀ k id v r v', srv_ok v → issued v id → AbortMultipartUpload bkt k id v = (r, v') →
    match r with
    | Resp _ => shows v v' (mkBucket (b_objs (view v)) (delete id (b_uploads (view v))))
    | SdkErr _ => same v v'
    end ∧ (∀ up, b_uploads (view v) !! id = Some up → up_key up = k → r = Resp ()) }.
