(* ===== verification/S3.v ===== *)
(** * The S3 backend

    [internal/store/s3.go] and [s3_multipart.go]: every operation of [S3] over a
    client of the S3 API, in the monad of [S3Api].  A deadline is a fault of the
    request it bounds.  The package variables that the tests shrink are the
    fields of [limits]; [production] has their values. *)
From Stdlib Require Import Ascii String Strings.Byte.
From S2P Require Import Prelude GoStrings Keys GoUrl Files S3Api.
Local Open Scope string_scope.

(** ** Configuration *)

Record S3Config := mkS3Config {
  Bucket : string; cfg_Prefix : string; Endpoint : string; Region : string; UsePathStyle : bool }.

Record S3 := mkS3 { s_bucket : string; s_prefix : string }.

(** [load] is [awsconfig.LoadDefaultConfig]: given a region or none, the region
    of the resulting configuration. *)
Definition NewS3 (load : option string → res string) (cfg : S3Config) : res S3 :=
  if bool_decide (Bucket cfg = "") then Err [EBadArgs]
  else
    let region := if bool_decide (Region cfg = "") && negb (bool_decide (Endpoint cfg = "")) then "auto" else Region cfg in
    awsRegion ← load (if bool_decide (region = "") then None else Some region);
    if bool_decide (awsRegion = "") then Err [EBadArgs]
    else Ok (mkS3 (Bucket cfg) (Trim slash (cfg_Prefix cfg))).

Definition full (s : S3) (key : string) : res string :=
  if bool_decide (key = "") || Contains key ".." || HasPrefix key "/" then Err [EBadKey]
  else if bool_decide (s_prefix s = "") then Ok key
  else Ok (s_prefix s +:+ "/" +:+ key).

Definition strip (s : S3) (k : string) : string :=
  if bool_decide (s_prefix s = "") then k else TrimPrefix k (s_prefix s +:+ "/").

(** ** Sizes and deadlines *)

(** [int64] arithmetic. *)
Definition i64 (z : Z) : Z := ((z + 2 ^ 63) mod 2 ^ 64 - 2 ^ 63)%Z.
Definition i32 (z : Z) : Z := ((z + 2 ^ 31) mod 2 ^ 32 - 2 ^ 31)%Z.

Definition second : Z := 1000000000.
Definition singleShotRPCTimeout : Z := 15 * 60 * second.
Definition singleShotFloorBytesPerSecond : Z := 1048576.

Definition singleShotDeadline (size : Z) : Z :=
  if (0 <? size)%Z then i64 (singleShotRPCTimeout + i64 (Z.quot size singleShotFloorBytesPerSecond * second))
  else singleShotRPCTimeout.

Record limits := mkLimits {
  defaultPartSize : Z; multipartConcurrency : Z; multipartThreshold : Z; copyObjectMaxBytes : Z }.

Definition production : limits := mkLimits (64 * MiB) 4 (5 * 1024 * MiB) (5 * 1024 * MiB).

Definition minPartSize : Z := 5 * MiB.
Definition maxParts : Z := 10000.
Definition s3MaxObjectBytes : Z := 5 * 1024 * 1024 * MiB.

Definition partSizeFor (lim : limits) (size : Z) : Z :=
  let ps := defaultPartSize lim in
  let need := Z.quot (i64 (i64 (size + maxParts) - 1)) maxParts in
  let ps := if (ps <? need)%Z then need else ps in
  if (ps <? minPartSize)%Z then minPartSize else ps.

Definition partLen (size offset partSize : Z) : Z :=
  let remain := i64 (size - offset) in
  if (remain <? partSize)%Z then remain else partSize.

(** [int32((size + partSize - 1) / partSize)]. *)
Definition numParts (size partSize : Z) : Z := i32 (Z.quot (i64 (i64 (size + partSize) - 1)) partSize).

(** ** Checksums *)

(** [uploadPartChecksums] and [copyPartChecksums] read fields of the same names
    into [partChecksums], which is what the client returns here. *)
Definition completedPart (partNum : Z) (c : partChecksums) : CompletedPart :=
  mkCP (pc_etag c) partNum (pc_crc32 c) (pc_crc32c c) (pc_crc64nvme c) (pc_sha1 c) (pc_sha256 c).

(** The zero value of the SDK's [CompletedPart]. *)
Definition zeroPart : CompletedPart := mkCP None 0 None None None None None.

(** ** Readers *)

(** The [io.Reader] of an upload: its bytes, its position, and whether it is an
    [io.ReaderAt] and an [io.Seeker] whose [Seek] succeeds. *)
Record reader := mkReader { rd_data : bytes; rd_pos : nat; rd_ReaderAt : bool; rd_Seeker : bool; rd_seeks : bool }.

(** What is left of it. *)
Definition rd_rest (r : reader) : bytes := drop (rd_pos r) (rd_data r).

(** [io.ReadAll(io.NewSectionReader(ra, off, n))]. *)
Definition section (data : bytes) (off n : Z) : bytes := take (Z.to_nat n) (drop (Z.to_nat off) data).

(** [io.ReadFull(io.LimitReader(r, n), buf[:n])]: an error when [r] is short. *)
Definition read_full (rest : bytes) (n : Z) : res (bytes * bytes) :=
  if (n <=? blen rest)%Z then Ok (take (Z.to_nat n) rest, drop (Z.to_nat n) rest) else Err [EIO].

(** The precondition headers of a conditional write. *)
Definition precondition (ifMatch : string) : conds :=
  if bool_decide (ifMatch = "") then mkConds (Some "*") None else mkConds None (Some ifMatch).

(** How a failed conditional write is reported. *)
Definition cas_error (ifMatch : string) (e : sdkerr) : error :=
  if isPreconditionFailed e then [ErrCAS]
  else if negb (bool_decide (ifMatch = "")) && isNotFound e then [ErrCAS]
  else [EIO].

Section s3.
Context {V : Type} `{S3Client V}.
Context (lim : limits) (s : S3).

Abbreviation SIO := (SIO V).
Abbreviation bkt := (s_bucket s).

(** ** Objects *)

Definition Get (key : string) : SIO (bytes * string) :=
  fk ← slift (full s key);
  out ← call (GetObject bkt fk);
  match out with
  | SdkErr e => sfail (if isNotFound e then [ErrNotFound] else [EIO])
  | Resp (body, etag) => data ← ReadAll body; mret (data, etag)
  end.

(** The stream, read by the caller; that it has stalled is an error of a read. *)
Definition GetReader (key : string) : SIO (bytes * string) :=
  fk ← slift (full s key);
  out ← call (GetObject bkt fk);
  match out with
  | SdkErr e => sfail (if isNotFound e then [ErrNotFound] else [EIO])
  | Resp (body, etag) => mret (body, etag)
  end.

Definition Head (key : string) : SIO (string * Z) :=
  fk ← slift (full s key);
  out ← call (HeadObject bkt fk);
  match out with
  | SdkErr e => sfail (if isNotFound e then [ErrNotFound] else [EIO])
  | Resp (etag, len) => mret (etag, len)
  end.

Definition Put (key : string) (data : bytes) : SIO unit :=
  fk ← slift (full s key);
  out ← call (PutObject bkt fk data None no_conds);
  match out with SdkErr _ => sfail [EIO] | Resp _ => mret () end.

Definition PutIf (key : string) (data : bytes) (ifMatch : string) : SIO string :=
  fk ← slift (full s key);
  out ← call (PutObject bkt fk data None (precondition ifMatch));
  match out with SdkErr e => sfail (cas_error ifMatch e) | Resp etag => mret etag end.

Definition Delete (key : string) : SIO unit :=
  fk ← slift (full s key);
  out ← call (DeleteObject bkt fk);
  match out with
  | SdkErr e => if isNotFound e then mret () else sfail [EIO]
  | Resp _ => mret ()
  end.

(** [List]'s loop over the pages; [fuel] bounds their number. *)
Fixpoint list_pages (fuel : nat) (fp : string) (tok : option string) (keys : list string) : SIO (list string) :=
  match fuel with
  | O => sfail [EFuel]
  | Datatypes.S fuel =>
      out ← call (ListObjectsV2 bkt fp tok);
      match out with
      | SdkErr _ => sfail [EIO]
      | Resp (page, next) =>
          let keys := (keys ++ (strip s <$> page))%list in
          match next with
          | None => mret keys
          | Some _ => list_pages fuel fp next keys
          end
      end
  end.

Definition List (fuel : nat) (prefix : string) : SIO (list string) :=
  fp ← slift (full s (prefix +:+ "x"));
  keys ← list_pages fuel (TrimSuffix fp "x") None [];
  mret (sort_by String.le keys).

Definition s3DeleteObjectsMaxKeys : nat := 1000.

(** [orig]: from the bucket key to the caller's. *)
Fixpoint delete_batches (fuel : nat) (orig : gmap string string) (full : list string)
    (deleted failed : list string) : SIO (list string * option error) :=
  match fuel with
  | O => sfail [EFuel]
  | Datatypes.S fuel =>
      match full with
      | [] => mret (deleted, match failed with [] => None | _ => Some [EIO] end)
      | _ =>
          out ← call (DeleteObjectsReq bkt (take s3DeleteObjectsMaxKeys full));
          match out with
          | SdkErr _ => mret (deleted, Some [EIO])
          | Resp (del, errs) =>
              delete_batches fuel orig (drop s3DeleteObjectsMaxKeys full)
                (deleted ++ omap (λ k, orig !! k) del)%list
                (failed ++ ((λ e, default e.1 (orig !! e.1)) <$> errs))%list
          end
      end
  end.

(** The [full] of every key, or the first error. *)
Fixpoint full_keys (keys : list string) : res (list string) :=
  match keys with
  | [] => Ok []
  | k :: keys => fk ← full s k; fks ← full_keys keys; Ok (fk :: fks)
  end.

(** The keys deleted, and the error. *)
Definition DeleteObjects (keys : list string) : SIO (list string * option error) :=
  match keys with
  | [] => mret ([], None)
  | _ =>
      match full_keys keys with
      | Err e => mret ([], Some e)
      | Ok fks =>
          let orig := foldl (λ m p, <[p.1 := p.2]> m) ∅ (zip fks keys) in
          delete_batches (Datatypes.S (length fks)) orig fks [] []
      end
  end.

(** ** Multipart uploads *)

(** The deferred cleanup: an upload whose body did not complete is aborted, and
    a failure to do so is added to the body's error. *)
Definition abortUnlessCompleted {A} (fk id : string) (body : SIO A) : SIO A :=
  r ← stry body;
  match r with
  | Ok a => mret a
  | Err e =>
      out ← call (AbortMultipartUpload bkt fk id);
      match out with Resp _ => sfail e | SdkErr _ => sfail (EAbort :: e) end
  end.

(** The state of [concurrentPartUpload]: the next part the producer hands out
    and whether it still does, the parts the workers are uploading, the results
    and the first error. *)
Record pool := mkPool {
  p_next : Z; p_open : bool; p_inflight : list Z; p_parts : list CompletedPart; p_err : option error }.

Inductive pevent := Assign | Stop | Finish (n : Z).

(** The goroutines that can move.  The channel is unbuffered, so the producer
    hands a part to an idle worker; once the context is cancelled its [select]
    may do either. *)
Definition enabled (workers num : Z) (p : pool) : list pevent :=
  (if p_open p && (p_next p <=? num)%Z && (Z.of_nat (length (p_inflight p)) <? workers)%Z then [Assign] else [])
  ++ (if p_open p && bool_decide (is_Some (p_err p)) then [Stop] else [])
  ++ (Finish <$> p_inflight p).

(** [recordErr]. *)
Definition recordErr (e : error) (p : pool) : pool :=
  mkPool (p_next p) (p_open p) (p_inflight p) (p_parts p) (match p_err p with None => Some e | Some e' => Some e' end).

Definition leave (n : Z) (p : pool) : pool :=
  mkPool (p_next p) (p_open p) (filter (λ m, m ≠ n) (p_inflight p)) (p_parts p) (p_err p).

(** [parts[n-1] = cp]. *)
Definition filled (n : Z) (cp : CompletedPart) (p : pool) : pool :=
  mkPool (p_next p) (p_open p) (p_inflight p) (<[Z.to_nat (n - 1) := cp]> (p_parts p)) (p_err p).

Definition pool_step (fk id : string) (data : bytes) (base size partSize : Z) (ev : pevent) (p : pool) : SIO pool :=
  match ev with
  | Assign => mret (mkPool (p_next p + 1) (p_open p) (p_inflight p ++ [p_next p]) (p_parts p) (p_err p))
  | Stop => mret (mkPool (p_next p) false (p_inflight p) (p_parts p) (p_err p))
  | Finish n =>
      let offset := i64 ((n - 1) * partSize) in
      let len := partLen size offset partSize in
      up ← call (UploadPart bkt fk id n (section data (i64 (base + offset)) len) len "CRC32");
      mret (leave n match up with
                    | SdkErr _ => recordErr [EIO] p
                    | Resp ck => filled n (completedPart n ck) p
                    end)
  end.

Fixpoint pool_run (fuel : nat) (workers num : Z) (fk id : string) (data : bytes) (base size partSize : Z) (p : pool)
    : SIO pool :=
  match fuel with
  | O => sfail [EFuel]
  | Datatypes.S fuel =>
      match enabled workers num p with
      | [] => mret p
      | evs =>
          i ← pick (length evs);
          p ← pool_step fk id data base size partSize (default Stop (evs !! i)) p;
          pool_run fuel workers num fk id data base size partSize p
      end
  end.

(** Each part takes two moves, and the producer at most one more. *)
Definition concurrentPartUpload (fk id : string) (data : bytes) (base size partSize num : Z) : SIO (list CompletedPart) :=
  let workers := multipartConcurrency lim in
  let workers := if (workers <? 1)%Z then 1%Z else workers in
  let workers := if (num <? workers)%Z then num else workers in
  p ← pool_run (2 * Z.to_nat num + 2) workers num fk id data base size partSize
        (mkPool 1 true [] (replicate (Z.to_nat num) zeroPart) None);
  match p_err p with None => mret (p_parts p) | Some e => sfail e end.

(** The fallback: one part after the other, through one buffer. *)
Fixpoint sequential_parts (fuel : nat) (fk id : string) (rest : bytes) (size partSize offset partNum : Z)
    (parts : list CompletedPart) : SIO (list CompletedPart) :=
  match fuel with
  | O => sfail [EFuel]
  | Datatypes.S fuel =>
      if (offset <? size)%Z then
        let n := partLen size offset partSize in
        '(buf, rest) ← slift (read_full rest n);
        up ← call (UploadPart bkt fk id partNum buf n "CRC32");
        match up with
        | SdkErr _ => sfail [EIO]
        | Resp ck =>
            sequential_parts fuel fk id rest size partSize (i64 (offset + partSize)) (i32 (partNum + 1))
              (parts ++ [completedPart partNum ck])
        end
      else mret parts
  end.

(** The parts of [putMultipart], by either path. *)
Definition upload_parts (fk id : string) (r : reader) (size : Z) : SIO (list CompletedPart) :=
  let partSize := partSizeFor lim size in
  if rd_ReaderAt r && rd_Seeker r && rd_seeks r then
    concurrentPartUpload fk id (rd_data r) (Z.of_nat (rd_pos r)) size partSize (numParts size partSize)
  else sequential_parts (Datatypes.S (Z.to_nat (numParts size partSize))) fk id (rd_rest r) size partSize 0 1 [].

Definition complete_upload (fk id : string) (parts : list CompletedPart) (size : Z) (ifMatch : string)
    (conditional : bool) : SIO string :=
  out ← call (CompleteMultipartUpload bkt fk id parts size (if conditional then precondition ifMatch else no_conds));
  match out with
  | SdkErr e => sfail (if conditional then cas_error ifMatch e else [EIO])
  | Resp etag => mret etag
  end.

(** The create-only preflight: does the object exist already? *)
Definition preflight (fk ifMatch : string) (conditional : bool) : SIO bool :=
  if conditional && bool_decide (ifMatch = "") then
    out ← call (HeadObject bkt fk);
    mret match out with Resp _ => true | SdkErr _ => false end
  else mret false.

Definition putMultipart (key : string) (r : reader) (size : Z) (ifMatch : string) (conditional : bool) : SIO string :=
  fk ← slift (full s key);
  exists_ ← preflight fk ifMatch conditional;
  if (exists_ : bool) then sfail [ErrCAS]
  else
    created ← call (CreateMultipartUpload bkt fk "CRC32");
    match created with
    | SdkErr _ => sfail [EIO]
    | Resp id =>
        abortUnlessCompleted fk id
          (parts ← upload_parts fk id r size; complete_upload fk id parts size ifMatch conditional)
    end.

Definition PutReader (key : string) (r : reader) (size : Z) : SIO unit :=
  if (multipartThreshold lim <? size)%Z then _ ← putMultipart key r size "" false; mret ()
  else
    fk ← slift (full s key);
    out ← call (PutObject bkt fk (rd_rest r) (Some size) no_conds);
    match out with SdkErr _ => sfail [EIO] | Resp _ => mret () end.

Definition PutReaderIf (key : string) (r : reader) (size : Z) (ifMatch : string) : SIO string :=
  if (multipartThreshold lim <? size)%Z then putMultipart key r size ifMatch true
  else
    fk ← slift (full s key);
    out ← call (PutObject bkt fk (rd_rest r) (Some size) (precondition ifMatch));
    match out with SdkErr e => sfail (cas_error ifMatch e) | Resp etag => mret etag end.

(** ** Copies *)

Fixpoint copy_parts (fuel : nat) (fdst id copySource : string) (size partSize offset partNum : Z)
    (parts : list CompletedPart) : SIO (list CompletedPart) :=
  match fuel with
  | O => sfail [EFuel]
  | Datatypes.S fuel =>
      if (offset <? size)%Z then
        let n := partLen size offset partSize in
        let end_ := i64 (i64 (offset + n) - 1) in
        up ← call (UploadPartCopy bkt fdst id partNum copySource (copy_range offset end_));
        match up with
        | SdkErr _ | Resp None => sfail [EIO]
        | Resp (Some ck) =>
            copy_parts fuel fdst id copySource size partSize (i64 (offset + partSize)) (i32 (partNum + 1))
              (parts ++ [completedPart partNum ck])
        end
      else mret parts
  end.

Definition copyObjectMultipart (fsrc fdst : string) (size : Z) : SIO unit :=
  created ← call (CreateMultipartUpload bkt fdst "");
  match created with
  | SdkErr _ => sfail [EIO]
  | Resp id =>
      abortUnlessCompleted fdst id
        (let partSize := partSizeFor lim size in
         parts ← copy_parts (Datatypes.S (Z.to_nat (numParts size partSize))) fdst id (s3CopySource bkt fsrc)
                   size partSize 0 1 [];
         _ ← complete_upload fdst id parts size "" false;
         mret ())
  end.

Definition CopyObject (dst src : string) : SIO unit :=
  fsrc ← slift (full s src);
  fdst ← slift (full s dst);
  head ← call (HeadObject bkt fsrc);
  match head with
  | SdkErr e => sfail (if isNotFound e then [ErrNotFound] else [EIO])
  | Resp (_, size) =>
      if (s3MaxObjectBytes <? size)%Z then sfail [ErrCopyUnsupported]
      else if (copyObjectMaxBytes lim <? size)%Z then copyObjectMultipart fsrc fdst size
      else
        out ← call (CopyObjectReq bkt fdst (s3CopySource bkt fsrc));
        match out with
        | SdkErr e => sfail (if isNotFound e then [ErrNotFound] else [EIO])
        | Resp _ => mret ()
        end
  end.

(** ** The probe of [probe.go]

    [key] is the random key; the cleanup's failure is only a warning. *)

Definition probeContentIs (key : string) (want : bytes) : SIO unit :=
  r ← stry (Get key);
  match r with
  | Err e => sfail (EIO :: e)
  | Ok (got, _) => if bool_decide (got = want) then mret () else sfail [ErrNoCAS]
  end.

(** A put that must be refused, and must change nothing. *)
Definition probe_refused (key : string) (data want : bytes) (ifMatch : string) : SIO unit :=
  r ← stry (PutIf key data ifMatch);
  match r with
  | Ok _ => sfail [ErrNoCAS]
  | Err e => if errors_Is e ErrCAS then probeContentIs key want else sfail (EIO :: e)
  end.

Definition probe_body (key : string) (first second : bytes) (etag : string) : SIO unit :=
  _ ← probe_refused key second first "";
  _ ← probe_refused key second first "offshoot-probe-not-a-real-etag";
  r ← stry (PutIf key second etag);
  match r with
  | Err e => sfail (EIO :: e)
  | Ok _ => probeContentIs key second
  end.

Definition ProbeCAS (key : string) : SIO unit :=
  let first := String.list_byte_of_string "offshoot-probe-1" in
  let second := String.list_byte_of_string "offshoot-probe-2" in
  r ← stry (PutIf key first "");
  match r with
  | Err e => sfail (EIO :: e)
  | Ok etag =>
      r ← stry (probe_body key first second etag);
      _ ← stry (Delete key);
      slift r
  end.
End s3.
