(* ===== verification/FakeS3.v ===== *)
(** * The S3 server of the tests

    [internal/store/storetest/fakes3.go]: the state of [FakeS3] and its handlers,
    over HTTP requests whose XML bodies are their parsed form.  The hooks that
    stall, gate, hold and count requests for the tests' timing are left out: they
    change no answer.  MD5 is a parameter.

    [fake_client] is a client for it, in the role of the AWS SDK: it puts each
    call into the request the handlers expect ([crc32] is the checksum it adds)
    and reads the answer back. *)
From Stdlib Require Import Ascii String Strings.Byte.
From stdpp Require Import pretty.
From S2P Require Import Prelude GoStrings Keys GoUrl Files S3Api.
Local Open Scope string_scope.

Definition fakeBucket : string := "offshoot-test".

(** ** Requests and responses *)

Inductive method := GET | PUT | DELETE | POST | HEAD | OtherMethod.

(** One [Part] of a [CompleteMultipartUpload] body; an absent element is empty. *)
Record completedPartXML := mkPartXML {
  px_PartNumber : Z; px_ETag : string; px_CRC32 : string; px_CRC32C : string; px_CRC64NVME : string;
  px_SHA1 : string; px_SHA256 : string }.

Inductive body :=
  | BRaw (b : bytes)
  | BComplete (parts : list completedPartXML)
  | BDelete (objects : list string) (quiet : bool).

Record request := mkReq {
  r_Method : method; r_Path : string; r_Query : gmap string string; r_Header : gmap string string; r_Body : body }.

(** [Query().Get] and [Header.Get]. *)
Definition qget (r : request) (name : string) : string := default "" (r_Query r !! name).
Definition hget (r : request) (name : string) : string := default "" (r_Header r !! name).

Inductive payload :=
  | PNone
  | PBytes (b : bytes)
  | PError (code : string)
  | PCopy (etag : string)              (* CopyObjectResult and CopyPartResult *)
  | PInitiate (id : string)
  | PComplete (etag : string)
  | PDeleted (deleted : list string) (errs : list (string * string))
  | PList (keys : list string) (truncated : bool) (next : string).

(** [Content-Length] is a header of its own; [None] when the handler sets none. *)
Record response := mkResponse {
  p_Status : N; p_Header : gmap string string; p_ContentLength : option Z; p_Body : payload }.

Definition xmlError (status : N) (code : string) : response := mkResponse status ∅ None (PError code).
Definition status_only (status : N) : response := mkResponse status ∅ None PNone.

(** ** The server's state *)

Record fakeMultipartUpload := mkFakeUpload {
  fu_key : string; fu_parts : gmap Z bytes; fu_checksumAlgorithm : string }.

Record FakeS3 := mkFakeS3 {
  f_objs : gmap string bytes;
  f_ignore : bool;
  f_fault : method → string → option N;
  f_sizeOverrides : gmap string Z;
  f_batchDeleteErrs : gset string;
  f_multipart : gmap string fakeMultipartUpload;
  f_nextUploadID : N;
  f_multipartCreates : N; f_multipartUploadParts : N; f_multipartCompletes : N; f_multipartAborts : N }.

Definition NewFakeS3 : FakeS3 := mkFakeS3 ∅ false (λ _ _, None) ∅ ∅ ∅ 0 0 0 0 0.

Definition set_objs (m : gmap string bytes) (f : FakeS3) : FakeS3 :=
  mkFakeS3 m (f_ignore f) (f_fault f) (f_sizeOverrides f) (f_batchDeleteErrs f) (f_multipart f) (f_nextUploadID f)
    (f_multipartCreates f) (f_multipartUploadParts f) (f_multipartCompletes f) (f_multipartAborts f).

(** ** The knobs of the tests *)

Definition IgnorePreconditions (b : bool) (f : FakeS3) : FakeS3 :=
  mkFakeS3 (f_objs f) b (f_fault f) (f_sizeOverrides f) (f_batchDeleteErrs f) (f_multipart f) (f_nextUploadID f)
    (f_multipartCreates f) (f_multipartUploadParts f) (f_multipartCompletes f) (f_multipartAborts f).
Definition SetFault (fn : method → string → option N) (f : FakeS3) : FakeS3 :=
  mkFakeS3 (f_objs f) (f_ignore f) fn (f_sizeOverrides f) (f_batchDeleteErrs f) (f_multipart f) (f_nextUploadID f)
    (f_multipartCreates f) (f_multipartUploadParts f) (f_multipartCompletes f) (f_multipartAborts f).
Definition SetSizeOverride (key : string) (size : Z) (f : FakeS3) : FakeS3 :=
  mkFakeS3 (f_objs f) (f_ignore f) (f_fault f) (<[key := size]> (f_sizeOverrides f)) (f_batchDeleteErrs f)
    (f_multipart f) (f_nextUploadID f)
    (f_multipartCreates f) (f_multipartUploadParts f) (f_multipartCompletes f) (f_multipartAborts f).
Definition SetBatchDeleteError (key : string) (f : FakeS3) : FakeS3 :=
  mkFakeS3 (f_objs f) (f_ignore f) (f_fault f) (f_sizeOverrides f) ({[key]} ∪ f_batchDeleteErrs f)
    (f_multipart f) (f_nextUploadID f)
    (f_multipartCreates f) (f_multipartUploadParts f) (f_multipartCompletes f) (f_multipartAborts f).
Definition Seed (key : string) (data : bytes) (f : FakeS3) : FakeS3 := set_objs (<[key := data]> (f_objs f)) f.
Definition PendingMultipartUploads (f : FakeS3) : nat := size (f_multipart f).
Definition MultipartStats (f : FakeS3) : N * N * N * N :=
  (f_multipartCreates f, f_multipartUploadParts f, f_multipartCompletes f, f_multipartAborts f).

(** ** Paths and headers *)

Definition bucketOf (p : string) : string :=
  let p := TrimPrefix p "/" in match Cut p slash with Some (b, _) => b | None => p end.
Definition keyOf (p : string) : string :=
  match Cut (TrimPrefix p "/") slash with Some (_, k) => k | None => "" end.

Definition qmark : ascii := "?".

Definition decodeCopySource (v : string) : res string :=
  let v := TrimPrefix v "/" in
  let v := match Cut v qmark with Some (v, _) => v | None => v end in
  match Cut v slash with
  | Some (bucket, key) => if bool_decide (bucket = fakeBucket) then PathUnescape key else Err [EBadArgs]
  | None => Err [EBadArgs]
  end.

Definition dash : ascii := "-".

Definition parseCopySourceRange (v : string) (srcLen : Z) : res (Z * Z) :=
  match Cut (TrimPrefix v "bytes=") dash with
  | None => Err [EBadArgs]
  | Some (lo, hi) =>
      start ← ParseInt lo 64;
      end_ ← ParseInt hi 64;
      if (start <? 0)%Z || (end_ <? start)%Z || (srcLen <=? end_)%Z then Err [EBadArgs]
      else Ok (start, end_)
  end.

Definition checksumHeaders : list string :=
  ["X-Amz-Checksum-Crc32"; "X-Amz-Checksum-Crc32c"; "X-Amz-Checksum-Crc64nvme"; "X-Amz-Checksum-Sha1";
   "X-Amz-Checksum-Sha256"].

(** [strings.ToUpper], of ASCII. *)
Fixpoint ToUpper (s : string) : string :=
  match s with
  | EmptyString => ""
  | String c s' =>
      let n := N_of_ascii c in
      String (if in_range 97 122 n then ascii_of_N (n - 32) else c) (ToUpper s')
  end.

Definition checksumForAlgorithm (p : completedPartXML) (algorithm : string) : string :=
  let a := ToUpper algorithm in
  if bool_decide (a = "CRC32") then px_CRC32 p
  else if bool_decide (a = "CRC32C") then px_CRC32C p
  else if bool_decide (a = "CRC64NVME") then px_CRC64NVME p
  else if bool_decide (a = "SHA1") then px_SHA1 p
  else if bool_decide (a = "SHA256") then px_SHA256 p
  else "".

(** [hex.EncodeToString]. *)
Fixpoint EncodeToString (b : bytes) : string :=
  match b with
  | [] => ""
  | c :: b => String (digit_char (to_N c / 16)) (String (digit_char (to_N c mod 16)) (EncodeToString b))
  end.

Definition dquote : ascii := ascii_of_nat 34.

(** [sort.SearchStrings]: the first index whose key is not before [x]. *)
Fixpoint SearchStrings (keys : list string) (x : string) : nat :=
  match keys with
  | k :: keys => if bool_decide (String.le x k) then 0%nat else Datatypes.S (SearchStrings keys x)
  | [] => 0%nat
  end.

Section fake.
Context (md5 : bytes → bytes).

Definition etagOf (b : bytes) : string := String dquote (EncodeToString (md5 b) +:+ String dquote "").

Definition etag_header (b : bytes) : gmap string string := {["ETag" := etagOf b]}.

(** ** Handlers *)

Definition set_multipart (m : gmap string fakeMultipartUpload) (f : FakeS3) : FakeS3 :=
  mkFakeS3 (f_objs f) (f_ignore f) (f_fault f) (f_sizeOverrides f) (f_batchDeleteErrs f) m (f_nextUploadID f)
    (f_multipartCreates f) (f_multipartUploadParts f) (f_multipartCompletes f) (f_multipartAborts f).

Definition copyObject (dstKey copySource : string) (f : FakeS3) : response * FakeS3 :=
  match decodeCopySource copySource with
  | Err _ => (xmlError 400 "InvalidArgument", f)
  | Ok srcKey =>
      match f_objs f !! srcKey with
      | None => (xmlError 404 "NoSuchKey", f)
      | Some data => (mkResponse 200 ∅ None (PCopy (etagOf data)), set_objs (<[dstKey := data]> (f_objs f)) f)
      end
  end.

Definition createMultipartUpload (r : request) (key : string) (f : FakeS3) : response * FakeS3 :=
  let n := (f_nextUploadID f + 1)%N in
  let id := "fake-upload-" +:+ pretty n in
  (mkResponse 200 ∅ None (PInitiate id),
   mkFakeS3 (f_objs f) (f_ignore f) (f_fault f) (f_sizeOverrides f) (f_batchDeleteErrs f)
     (<[id := mkFakeUpload key ∅ (hget r "X-Amz-Checksum-Algorithm")]> (f_multipart f)) n
     (f_multipartCreates f + 1) (f_multipartUploadParts f) (f_multipartCompletes f) (f_multipartAborts f)).

(** [up.parts[n] = b], in place. *)
Definition store_part (id : string) (up : fakeMultipartUpload) (n : Z) (b : bytes) (f : FakeS3) : FakeS3 :=
  mkFakeS3 (f_objs f) (f_ignore f) (f_fault f) (f_sizeOverrides f) (f_batchDeleteErrs f)
    (<[id := mkFakeUpload (fu_key up) (<[n := b]> (fu_parts up)) (fu_checksumAlgorithm up)]> (f_multipart f))
    (f_nextUploadID f)
    (f_multipartCreates f) (f_multipartUploadParts f + 1) (f_multipartCompletes f) (f_multipartAborts f).

(** The checksum headers of the request, on the response. *)
Definition echo_checksums (r : request) (h : gmap string string) : gmap string string :=
  foldr (λ name h, if bool_decide (hget r name = "") then h else <[name := hget r name]> h) h checksumHeaders.

Definition uploadPart (r : request) (key : string) (f : FakeS3) : response * FakeS3 :=
  match f_multipart f !! qget r "uploadId" with
  | None => (xmlError 404 "NoSuchUpload", f)
  | Some up =>
      if negb (bool_decide (fu_key up = key)) then (xmlError 404 "NoSuchUpload", f)
      else match ParseInt (qget r "partNumber") 32, r_Body r with
           | Err _, _ => (xmlError 400 "InvalidArgument", f)
           | Ok n, BRaw b =>
               if (n <? 1)%Z then (xmlError 400 "InvalidArgument", f)
               else (mkResponse 200 (echo_checksums r (etag_header b)) None PNone, store_part (qget r "uploadId") up n b f)
           | _, _ => (status_only 400, f)
           end
  end.

Definition uploadPartCopy (r : request) (dstKey copySource : string) (f : FakeS3) : response * FakeS3 :=
  match f_multipart f !! qget r "uploadId" with
  | None => (xmlError 404 "NoSuchUpload", f)
  | Some up =>
      if negb (bool_decide (fu_key up = dstKey)) then (xmlError 404 "NoSuchUpload", f)
      else match ParseInt (qget r "partNumber") 32 with
           | Err _ => (xmlError 400 "InvalidArgument", f)
           | Ok n =>
               if (n <? 1)%Z then (xmlError 400 "InvalidArgument", f)
               else match decodeCopySource copySource with
                    | Err _ => (xmlError 400 "InvalidArgument", f)
                    | Ok srcKey =>
                        match f_objs f !! srcKey with
                        | None => (xmlError 404 "NoSuchKey", f)
                        | Some src =>
                            match parseCopySourceRange (hget r "X-Amz-Copy-Source-Range") (blen src) with
                            | Err _ => (xmlError 400 "InvalidArgument", f)
                            | Ok (start, end_) =>
                                let slice := range_of src start end_ in
                                (mkResponse 200 ∅ None (PCopy (etagOf slice)), store_part (qget r "uploadId") up n slice f)
                            end
                        end
                    end
           end
  end.

(** The [If-None-Match] and [If-Match] checks of a write. *)
Definition precondition_fails (r : request) (key : string) (f : FakeS3) : bool :=
  let cur := f_objs f !! key in
  negb (f_ignore f) &&
  (bool_decide (hget r "If-None-Match" = "*" ∧ is_Some cur)
   || (negb (bool_decide (hget r "If-Match" = ""))
       && match cur with Some d => negb (bool_decide (etagOf d = hget r "If-Match")) | None => true end)).

(** The parts named, in the request's order; [None] if one is missing. *)
Definition gather (up : fakeMultipartUpload) (parts : list completedPartXML) : option (list bytes) :=
  mapM (λ p, fu_parts up !! px_PartNumber p) parts.

Definition completeMultipartUpload (r : request) (key uploadID : string) (f : FakeS3) : response * FakeS3 :=
  match f_multipart f !! uploadID with
  | None => (xmlError 404 "NoSuchUpload", f)
  | Some up =>
      if negb (bool_decide (fu_key up = key)) then (xmlError 404 "NoSuchUpload", f)
      else match r_Body r with
      | BComplete ((_ :: _) as parts) =>
          if negb (bool_decide (fu_checksumAlgorithm up = ""))
             && existsb (λ p, bool_decide (checksumForAlgorithm p (fu_checksumAlgorithm up) = "")) parts
          then (xmlError 400 "InvalidRequest", f)
          else if precondition_fails r key f then (xmlError 412 "PreconditionFailed", f)
          else match gather up parts with
               | None => (xmlError 400 "InvalidPart", f)
               | Some ds =>
                   let etag := String dquote (EncodeToString (md5 (concat (md5 <$> ds))) +:+ "-"
                                 +:+ pretty (N.of_nat (length parts)) +:+ String dquote "") in
                   (mkResponse 200 ∅ None (PComplete etag),
                    mkFakeS3 (<[key := concat ds]> (f_objs f)) (f_ignore f) (f_fault f) (f_sizeOverrides f)
                      (f_batchDeleteErrs f) (delete uploadID (f_multipart f)) (f_nextUploadID f)
                      (f_multipartCreates f) (f_multipartUploadParts f) (f_multipartCompletes f + 1)
                      (f_multipartAborts f))
               end
      | _ => (xmlError 400 "MalformedXML", f)
      end
  end.

Definition abortMultipartUpload (key uploadID : string) (f : FakeS3) : response * FakeS3 :=
  match f_multipart f !! uploadID with
  | None => (xmlError 404 "NoSuchUpload", f)
  | Some up =>
      if negb (bool_decide (fu_key up = key)) then (xmlError 404 "NoSuchUpload", f)
      else (status_only 204,
            mkFakeS3 (f_objs f) (f_ignore f) (f_fault f) (f_sizeOverrides f) (f_batchDeleteErrs f)
              (delete uploadID (f_multipart f)) (f_nextUploadID f)
              (f_multipartCreates f) (f_multipartUploadParts f) (f_multipartCompletes f) (f_multipartAborts f + 1))
  end.

Definition deleteObjectsMaxKeys : nat := 1000.

(** The loop of [deleteObjects]. *)
Fixpoint delete_loop (errs : gset string) (quiet : bool) (keys : list string) (m : gmap string bytes)
    (deleted : list string) (errors : list (string * string))
    : gmap string bytes * list string * list (string * string) :=
  match keys with
  | [] => (m, deleted, errors)
  | k :: keys =>
      if bool_decide (k ∈ errs) then delete_loop errs quiet keys m deleted (errors ++ [(k, "InternalError")])
      else delete_loop errs quiet keys (delete k m) (if quiet then deleted else deleted ++ [k])%list errors
  end.

Definition deleteObjects (r : request) (f : FakeS3) : response * FakeS3 :=
  match r_Body r with
  | BDelete keys quiet =>
      if (deleteObjectsMaxKeys <? length keys)%nat then (xmlError 400 "MalformedXML", f)
      else let '(m, deleted, errors) := delete_loop (f_batchDeleteErrs f) quiet keys (f_objs f) [] [] in
           (mkResponse 200 ∅ None (PDeleted deleted errors), set_objs m f)
  | _ => (xmlError 400 "MalformedXML", f)
  end.

Definition maxKeys : nat := 1000.

Definition list_ (r : request) (f : FakeS3) : response * FakeS3 :=
  let prefix := qget r "prefix" in
  let token := qget r "continuation-token" in
  let keys := sort_by String.le (filter (λ k, HasPrefix k prefix = true) (map_to_list (f_objs f)).*1) in
  let keys := if bool_decide (token = "") then keys else drop (SearchStrings keys token) keys in
  (match keys !! maxKeys with
   | Some next => mkResponse 200 ∅ None (PList (take maxKeys keys) true next)
   | None => mkResponse 200 ∅ None (PList keys false "")
   end, f).

Definition handle_get (r : request) (key : string) (f : FakeS3) : response * FakeS3 :=
  if bool_decide (key = "") || bool_decide (qget r "list-type" = "2") then list_ r f
  else match f_objs f !! key with
       | None => (xmlError 404 "NoSuchKey", f)
       | Some data => (mkResponse 200 (etag_header data) None (PBytes data), f)
       end.

Definition handle_put (r : request) (key : string) (f : FakeS3) : response * FakeS3 :=
  let copySrc := hget r "X-Amz-Copy-Source" in
  if negb (bool_decide (qget r "partNumber" = "")) && negb (bool_decide (qget r "uploadId" = "")) then
    if negb (bool_decide (copySrc = "")) then uploadPartCopy r key copySrc f else uploadPart r key f
  else if negb (bool_decide (copySrc = "")) then copyObject key copySrc f
  else match r_Body r with
       | BRaw data =>
           if precondition_fails r key f then (xmlError 412 "PreconditionFailed", f)
           else (mkResponse 200 (etag_header data) None PNone, set_objs (<[key := data]> (f_objs f)) f)
       | _ => (status_only 400, f)
       end.

Definition handle_delete (r : request) (key : string) (f : FakeS3) : response * FakeS3 :=
  let uploadID := qget r "uploadId" in
  if negb (bool_decide (uploadID = "")) then abortMultipartUpload key uploadID f
  else (status_only 204, set_objs (delete key (f_objs f)) f).

Definition handle_post (r : request) (key : string) (f : FakeS3) : response * FakeS3 :=
  if bool_decide (is_Some (r_Query r !! "uploads")) then createMultipartUpload r key f
  else
    let uploadID := qget r "uploadId" in
    if negb (bool_decide (uploadID = "")) then completeMultipartUpload r key uploadID f
    else if bool_decide (is_Some (r_Query r !! "delete")) && bool_decide (key = "") then deleteObjects r f
    else (status_only 405, f).

Definition handle_head (r : request) (key : string) (f : FakeS3) : response * FakeS3 :=
  match f_objs f !! key with
  | None => (status_only 404, f)
  | Some data =>
      let size := default (blen data) (f_sizeOverrides f !! key) in
      (mkResponse 200 (etag_header data) (Some size) PNone, f)
  end.

Definition handle (r : request) (f : FakeS3) : response * FakeS3 :=
  if negb (bool_decide (bucketOf (r_Path r) = fakeBucket)) then (xmlError 404 "NoSuchBucket", f)
  else
    let key := keyOf (r_Path r) in
    match f_fault f (r_Method r) key with
    | Some status => (xmlError status "InternalError", f)
    | None =>
        match r_Method r with
        | GET => handle_get r key f
        | PUT => handle_put r key f
        | DELETE => handle_delete r key f
        | POST => handle_post r key f
        | HEAD => handle_head r key f
        | OtherMethod => (status_only 405, f)
        end
    end.

(** ** A client *)

Context (crc32 : bytes → string).

(** The error of an answer that is not a success. *)
Definition sdk_error (p : response) : sdkerr :=
  mkSdk (match p_Body p with PError c => Some c | _ => None end) (p_Status p).

Definition hdr (p : response) (name : string) : string := default "" (p_Header p !! name).

Definition sdk_call {A} (r : request) (read : response → option A) (f : FakeS3) : reply A * FakeS3 :=
  let '(p, f') := handle r f in
  (match read p with Some a => Resp a | None => SdkErr (sdk_error p) end, f').

(** A body that does not have the length announced is not sent. *)
Definition send_error : sdkerr := mkSdk None 0.

Definition path_of (bkt key : string) : string := "/" +:+ bkt +:+ "/" +:+ key.

Definition cond_headers (c : conds) : gmap string string :=
  match IfNoneMatch c with Some t => <["If-None-Match" := t]> | None => id end
    match IfMatch c with Some t => {["If-Match" := t]} | None => ∅ end.

Definition ok_etag (p : response) : option string :=
  if (p_Status p =? 200)%N then p_Header p !! "ETag" else None.

(** A checksum of the answer; the SDK's fields are nil when it is absent. *)
Definition part_checksums (p : response) : partChecksums :=
  mkPC (p_Header p !! "ETag") (p_Header p !! "X-Amz-Checksum-Crc32") (p_Header p !! "X-Amz-Checksum-Crc32c")
    (p_Header p !! "X-Amz-Checksum-Crc64nvme") (p_Header p !! "X-Amz-Checksum-Sha1") (p_Header p !! "X-Amz-Checksum-Sha256").

Definition part_xml (p : CompletedPart) : completedPartXML :=
  mkPartXML (PartNumber p) (default "" (cp_ETag p)) (default "" (ChecksumCRC32 p)) (default "" (ChecksumCRC32C p))
    (default "" (ChecksumCRC64NVME p)) (default "" (ChecksumSHA1 p)) (default "" (ChecksumSHA256 p)).

Definition part_query (id : string) (n : Z) : gmap string string :=
  {["partNumber" := fmt_int n; "uploadId" := id]}.

Definition fake_client : S3Client FakeS3 := {|
  GetObject bkt key := sdk_call (mkReq GET (path_of bkt key) ∅ ∅ (BRaw []))
    (λ p, match p_Body p with PBytes b => Some (b, hdr p "ETag") | _ => None end);
  HeadObject bkt key := sdk_call (mkReq HEAD (path_of bkt key) ∅ ∅ (BRaw []))
    (λ p, if (p_Status p =? 200)%N then Some (hdr p "ETag", default 0%Z (p_ContentLength p)) else None);
  PutObject bkt key data len c f :=
    if bool_decide (len = None ∨ len = Some (blen data)) then
      sdk_call (mkReq PUT (path_of bkt key) ∅ (cond_headers c) (BRaw data)) ok_etag f
    else (SdkErr send_error, f);
  DeleteObject bkt key := sdk_call (mkReq DELETE (path_of bkt key) ∅ ∅ (BRaw []))
    (λ p, if (p_Status p =? 204)%N then Some () else None);
  DeleteObjectsReq bkt keys := sdk_call (mkReq POST ("/" +:+ bkt) {["delete" := ""]} ∅ (BDelete keys false))
    (λ p, match p_Body p with PDeleted d e => Some (d, e) | _ => None end);
  ListObjectsV2 bkt prefix tok :=
    sdk_call (mkReq GET ("/" +:+ bkt)
                (match tok with Some t => <["continuation-token" := t]> | None => id end
                   {["list-type" := "2"; "prefix" := prefix]}) ∅ (BRaw []))
      (λ p, match p_Body p with
            | PList keys truncated next =>
                Some (keys, if truncated && negb (bool_decide (next = "")) then Some next else None)
            | _ => None
            end);
  CopyObjectReq bkt key src := sdk_call (mkReq PUT (path_of bkt key) ∅ {["X-Amz-Copy-Source" := src]} (BRaw []))
    (λ p, match p_Body p with PCopy _ => Some () | _ => None end);
  CreateMultipartUpload bkt key alg :=
    sdk_call (mkReq POST (path_of bkt key) {["uploads" := ""]}
                (if bool_decide (alg = "") then ∅ else {["X-Amz-Checksum-Algorithm" := alg]}) (BRaw []))
      (λ p, match p_Body p with PInitiate id => Some id | _ => None end);
  UploadPart bkt key id n data len alg f :=
    if bool_decide (len = blen data) then
      sdk_call (mkReq PUT (path_of bkt key) (part_query id n)
                  (if bool_decide (alg = "CRC32") then {["X-Amz-Checksum-Crc32" := crc32 data]} else ∅) (BRaw data))
        (λ p, if (p_Status p =? 200)%N then Some (part_checksums p) else None) f
    else (SdkErr send_error, f);
  UploadPartCopy bkt key id n src range :=
    sdk_call (mkReq PUT (path_of bkt key) (part_query id n)
                {["X-Amz-Copy-Source" := src; "X-Amz-Copy-Source-Range" := range]} (BRaw []))
      (λ p, match p_Body p with PCopy t => Some (Some (mkPC (Some t) None None None None None)) | _ => None end);
  CompleteMultipartUpload bkt key id parts size c :=
    sdk_call (mkReq POST (path_of bkt key) {["uploadId" := id]} (cond_headers c) (BComplete (part_xml <$> parts)))
      (λ p, match p_Body p with PComplete t => Some t | _ => None end);
  AbortMultipartUpload bkt key id := sdk_call (mkReq DELETE (path_of bkt key) {["uploadId" := id]} ∅ (BRaw []))
    (λ p, if (p_Status p =? 204)%N then Some () else None) |}.
End fake.
