(* ===== verification/FakeS3Props.v ===== *)
(** * The server of the tests keeps the laws of the S3 API

    [fake_server_lawful]: [FakeS3], driven through [fake_client], satisfies
    [S3Laws] as long as its knobs are untouched, MD5 being taken to be free of
    collisions.  On the way, what the backend sends is what the handlers read:
    [copy_source_roundtrip] and [copy_range_read]. *)
From Stdlib Require Import Ascii String Strings.Byte.
From stdpp Require Import pretty.
From S2P Require Import Prelude GoStrings Keys GoUrl Files S3Api FakeS3.
Local Open Scope string_scope.

(** ** Copy sources and ranges *)

Lemma Cut_none s sep : all_chars (λ c, bool_decide (c ≠ sep)) s = true → Cut s sep = None.
Proof.
  induction s as [|c s IH]; simpl; [done|]. rewrite andb_true_iff, bool_decide_eq_true. intros [Hc Hs].
  by rewrite decide_False, IH.
Qed.

Lemma all_chars_Join f l sep : f sep = true → Forall (λ w, all_chars f w = true) l → all_chars f (Join l sep) = true.
Proof.
  intros Hs. induction 1 as [|w l Hw Hl IH]; [done|]. destruct l as [|w' l]; [done|].
  change (all_chars f (w +:+ String sep (Join (w' :: l) sep)) = true).
  rewrite all_chars_app, Hw. cbn [all_chars andb]. by rewrite Hs, IH.
Qed.

Lemma unescape_Join l : PathUnescape (Join (PathEscape <$> l) slash) = Ok (Join l slash).
Proof.
  induction l as [|w l IH]; [done|]. destruct l as [|w' l]; [apply PathUnescape_escape|].
  change (PathUnescape (PathEscape w +:+ String slash (Join (PathEscape <$> (w' :: l)) slash))
          = Ok (w +:+ String slash (Join (w' :: l) slash))).
  rewrite unescape_escape, PathUnescape_plain by done. by rewrite IH.
Qed.

Lemma decode_copy_source key : decodeCopySource (s3CopySource fakeBucket key) = Ok key.
Proof.
  unfold decodeCopySource, s3CopySource. set (e := Join _ slash).
  change (PathEscape fakeBucket) with fakeBucket.
  change (TrimPrefix (fakeBucket +:+ "/" +:+ e) "/") with (fakeBucket +:+ String slash e).
  rewrite (Cut_none _ qmark).
  - cbv beta iota zeta. rewrite (Cut_word fakeBucket e slash) by done. rewrite bool_decide_eq_true_2 by done.
    unfold e. by rewrite unescape_Join, Join_Split.
  - change (all_chars (λ c, bool_decide (c ≠ qmark)) e = true). apply all_chars_Join; [done|].
    apply Forall_fmap, Forall_true. intros w. by apply PathEscape_free.
Qed.

Lemma fmt_int_dash z : (0 <= z)%Z → all_chars (λ c, bool_decide (c ≠ dash)) (fmt_int z) = true.
Proof. intros Hz. unfold fmt_int. destruct (Z.ltb_spec z 0); [lia|]. by apply fmt_d_no. Qed.

Lemma copy_range_read lo hi n : (0 <= lo <= hi)%Z → (hi < 2 ^ 63)%Z →
  parseCopySourceRange (copy_range lo hi) n = if (n <=? hi)%Z then Err [EBadArgs] else Ok (lo, hi).
Proof.
  intros Hl Hh. unfold parseCopySourceRange, copy_range. rewrite TrimPrefix_app.
  change (fmt_int lo +:+ "-" +:+ fmt_int hi) with (fmt_int lo +:+ String dash (fmt_int hi)).
  rewrite Cut_word by (apply fmt_int_dash; lia).
  rewrite (ParseInt_fmt lo) by (change (64 - 1)%Z with 63%Z; lia).
  rewrite (ParseInt_fmt hi) by (change (64 - 1)%Z with 63%Z; lia). cbn.
  destruct (Z.ltb_spec lo 0); [lia|]. destruct (Z.ltb_spec hi lo); [lia|]. done.
Qed.

(** ** Paths *)

Lemma bucketOf_path key : bucketOf (path_of fakeBucket key) = fakeBucket.
Proof.
  unfold bucketOf, path_of. change ("/" +:+ fakeBucket +:+ "/" +:+ key) with (String slash (fakeBucket +:+ String slash key)).
  change (TrimPrefix (String slash (fakeBucket +:+ String slash key)) "/") with (fakeBucket +:+ String slash key).
  by rewrite Cut_word.
Qed.

Lemma keyOf_path key : keyOf (path_of fakeBucket key) = key.
Proof.
  unfold keyOf, path_of.
  change (TrimPrefix ("/" +:+ fakeBucket +:+ "/" +:+ key) "/") with (fakeBucket +:+ String slash key).
  by rewrite Cut_word.
Qed.

(** ** Sorted keys *)

Lemma SearchStrings_drop l t : StronglySorted String.le l → drop (SearchStrings l t) l = filter (λ k, String.le t k) l.
Proof.
  induction 1 as [|k l Hs IH Hf]; [done|]. simpl. case_bool_decide as Hk.
  - rewrite filter_cons_True by done. cbn [drop]. f_equal. symmetry. apply filter_every.
    intros k' Hk'. rewrite Forall_forall in Hf. etrans; [exact Hk|by apply Hf].
  - rewrite filter_cons_False by done. exact IH.
Qed.

Lemma StronglySorted_filter_any {A} (R : relation A) (P : A → Prop) `{!∀ x, Decision (P x)} (l : list A) :
  StronglySorted R l → StronglySorted R (filter P l).
Proof.
  induction 1 as [|x l Hs IH Hf]; [by constructor|]. destruct (decide (P x)).
  - rewrite filter_cons_True by done. constructor; [done|]. by apply Forall_filter_any.
  - by rewrite filter_cons_False.
Qed.

Lemma sort_by_filter (P Q : string → Prop) `{!∀ x, Decision (P x), !∀ x, Decision (Q x)} l :
  sort_by String.le (filter (λ k, P k ∧ Q k) l) = filter Q (sort_by String.le (filter P l)).
Proof.
  apply (StronglySorted_unique String.le).
  - apply sort_by_sorted; apply _.
  - apply StronglySorted_filter_any, sort_by_sorted; apply _.
  - rewrite sort_by_perm.
    rewrite (sort_by_perm String.le (filter P l)).
    induction l as [|k l IH]; [done|]. rewrite !filter_cons.
    repeat case_decide; rewrite ?filter_cons; repeat case_decide; try naive_solver; by rewrite IH.
Qed.

(** The element at [n] of a sorted list without duplicates splits it in two. *)
Lemma sorted_split l n t : StronglySorted String.le l → NoDup l → l !! n = Some t →
  take n l = filter (λ k, ¬ String.le t k) l.
Proof.
  intros Hs Hn Ht. pose proof (take_drop_middle _ _ _ Ht) as E.
  assert (filter (λ k, ¬ String.le t k) (take n l) = take n l ∧ filter (λ k, ¬ String.le t k) (t :: drop (Datatypes.S n) l) = [])
    as [E1 E2]; [|rewrite <- E at 2; rewrite filter_app, E1, E2; by rewrite app_nil_r].
  rewrite <- E in Hs, Hn. apply StronglySorted_app in Hs as (Hs1 & _ & Hs2). apply NoDup_app in Hn as (_ & Hd & _).
  split.
  - apply filter_every. intros k Hk Hle. apply (Hd k Hk). replace k with t; [constructor|].
    apply (anti_symm String.le); [done|]. apply Hs1; [done|constructor].
  - apply filter_no. intros k Hk Hle. apply Hle. apply StronglySorted_inv in Hs2 as [_ Hf]. rewrite Forall_forall in Hf.
    apply elem_of_cons in Hk as [->|Hk]; [reflexivity|by apply Hf].
Qed.

(** ** The bucket the server shows *)

(** The ids handed out so far. *)
Definition fake_issued (f : FakeS3) (id : string) : Prop :=
  ∃ i : N, (0 < i <= f_nextUploadID f)%N ∧ id = "fake-upload-" +:+ pretty i.

(** The knobs are untouched, and what is pending was handed out. *)
Definition fake_ok (f : FakeS3) : Prop :=
  f_ignore f = false ∧ (∀ m k, f_fault f m k = None) ∧ f_sizeOverrides f = ∅
  ∧ ∀ id up, f_multipart f !! id = Some up → fake_issued f id.

Section lawful.
Context (md5 : bytes → bytes) (crc32 : bytes → string).

Definition fake_object (b : bytes) : sobject := mkSObj b (etagOf md5 b).
Definition fake_part (b : bytes) : spart := mkSPart b (etagOf md5 b).
Definition fake_upload (u : fakeMultipartUpload) : upload :=
  mkUp (fu_key u) (fu_checksumAlgorithm u) (fake_part <$> fu_parts u).

#[local] Instance fake_view : S3View FakeS3 := {
  view f := mkBucket (fake_object <$> f_objs f) (fake_upload <$> f_multipart f);
  issued := fake_issued;
  srv_ok := fake_ok;
  digest := etagOf md5;
  tok_from t k := bool_decide (String.le t k) }.

#[local] Instance the_client : S3Client FakeS3 := fake_client md5 crc32.

Hypothesis md5_inj : ∀ b b', md5 b = md5 b' → b = b'.
Hypothesis crc32_some : ∀ b, crc32 b ≠ "".

Lemma hex_inj b b' : EncodeToString b = EncodeToString b' → b = b'.
Proof.
  revert b'. induction b as [|c b IH]; intros [|c' b'] H; simpl in H; try done.
  injection H as H1 H2 H3. f_equal; [|by apply IH].
  assert (∀ x y : N, (x < 16)%N → (y < 16)%N → digit_char x = digit_char y → x = y) as Hd.
  { intros x y Hx Hy E. pose proof (digit_val_char x Hx). pose proof (digit_val_char y Hy). congruence. }
  pose proof (to_N_lt c). pose proof (to_N_lt c').
  apply Hd in H1; [|apply N.Div0.div_lt_upper_bound; lia..].
  apply Hd in H2; [|apply N.mod_lt; lia..].
  assert (to_N c = to_N c') as E.
  { rewrite (N.div_mod (to_N c) 16), (N.div_mod (to_N c') 16) by lia. congruence. }
  apply (f_equal of_N) in E. rewrite !Byte.of_to_N in E. congruence.
Qed.

Lemma app_quote_inj s t q : s +:+ q = t +:+ q → s = t.
Proof.
  revert t. induction s as [|c s IH]; intros [|d t] H; simpl in H; try done.
  - apply (f_equal String.length) in H. simpl in H. rewrite string_app_length in H. lia.
  - apply (f_equal String.length) in H. simpl in H. rewrite string_app_length in H. lia.
  - injection H as -> H. f_equal. by apply IH.
Qed.

Lemma etagOf_inj b b' : etagOf md5 b = etagOf md5 b' → b = b'.
Proof. unfold etagOf. intros [= H%app_quote_inj]. by apply md5_inj, hex_inj. Qed.

(** ** Dispatch *)

Lemma handle_path f m key q h b : fake_ok f →
  handle md5 (mkReq m (path_of fakeBucket key) q h b) f =
  let r := mkReq m (path_of fakeBucket key) q h b in
  match m with
  | GET => handle_get md5 r key f | PUT => handle_put md5 r key f | DELETE => handle_delete r key f
  | POST => handle_post md5 r key f | HEAD => handle_head md5 r key f | OtherMethod => (status_only 405, f)
  end.
Proof.
  intros (_ & Hf & _). unfold handle. cbn [r_Path]. rewrite bucketOf_path, keyOf_path, bool_decide_eq_true_2 by done.
  cbn [negb r_Method]. by rewrite Hf.
Qed.

Lemma handle_bucket f m q h b : fake_ok f →
  handle md5 (mkReq m ("/" +:+ fakeBucket) q h b) f =
  let r := mkReq m ("/" +:+ fakeBucket) q h b in
  match m with
  | GET => handle_get md5 r "" f | PUT => handle_put md5 r "" f | DELETE => handle_delete r "" f
  | POST => handle_post md5 r "" f | HEAD => handle_head md5 r "" f | OtherMethod => (status_only 405, f)
  end.
Proof.
  intros (_ & Hf & _). unfold handle. cbn [r_Path].
  change (bucketOf ("/" +:+ fakeBucket)) with fakeBucket. change (keyOf ("/" +:+ fakeBucket)) with "".
  rewrite bool_decide_eq_true_2 by done. cbn [negb r_Method]. by rewrite Hf.
Qed.

Lemma qget_empty m p h b name : qget (mkReq m p ∅ h b) name = "".
Proof. reflexivity. Qed.

Lemma same_refl f : fake_ok f → same f f.
Proof. intros Hok. split; [exact Hok|done]. Qed.

Lemma set_objs_ok f m : fake_ok f → fake_ok (set_objs m f).
Proof. done. Qed.

Lemma shows_objs f m : fake_ok f → shows f (set_objs m f) (mkBucket (fake_object <$> m) (b_uploads (view f))).
Proof. intros Hok. split; [exact Hok|done]. Qed.

Lemma stores_set f key d : fake_ok f → stores f (set_objs (<[key := d]> (f_objs f)) f) key (fake_object d).
Proof. intros Hok. split; [exact Hok|split; [done|]]. cbn. by rewrite fmap_insert. Qed.

(** ** Objects *)

Lemma fake_get key f r f' : fake_ok f → key ≠ "" → GetObject fakeBucket key f = (r, f') → same f f' ∧
  match b_objs (view f) !! key with
  | Some o => r = Resp (so_data o, so_etag o)
  | None => ∃ e, r = SdkErr e ∧ isNotFound e = true
  end.
Proof.
  intros Hok Hk. cbn [GetObject the_client fake_client]. unfold sdk_call. rewrite handle_path by done. cbv zeta beta iota.
  unfold handle_get. rewrite bool_decide_eq_false_2 by done. cbn [orb qget r_Query].
  rewrite bool_decide_eq_false_2 by done. cbn [view fake_view b_objs]. rewrite lookup_fmap.
  destruct (f_objs f !! key) as [d|]; intros [= <- <-]; (split; [by apply same_refl|]); cbn; [done|].
  by eexists.
Qed.

Lemma fake_head key f r f' : fake_ok f → HeadObject fakeBucket key f = (r, f') → same f f' ∧
  match b_objs (view f) !! key with
  | Some o => r = Resp (so_etag o, blen (so_data o))
  | None => ∃ e, r = SdkErr e ∧ isNotFound e = true
  end.
Proof.
  intros Hok. cbn [HeadObject the_client fake_client]. unfold sdk_call. rewrite handle_path by done. cbv zeta beta iota.
  unfold handle_head. cbn [view fake_view b_objs]. rewrite lookup_fmap.
  destruct Hok as (Hi & Hf & Hs & Hm). rewrite Hs.
  destruct (f_objs f !! key) as [d|]; intros [= <- <-]; (split; [by apply same_refl|]); cbn; [done|].
  by eexists.
Qed.

(** The handlers' check of the headers is the service's condition. *)
Lemma precondition_spec m key q c b f : fake_ok f → IfMatch c ≠ Some "" →
  precondition_fails md5 (mkReq m (path_of fakeBucket key) q (cond_headers c) b) key f
  = negb (cond_holds c (b_objs (view f) !! key)).
Proof.
  intros (Hi & _) Hc. unfold precondition_fails, cond_holds. rewrite Hi. cbn [negb andb view fake_view b_objs].
  rewrite lookup_fmap.
  assert (hget (mkReq m (path_of fakeBucket key) q (cond_headers c) b) "If-None-Match" = default "" (IfNoneMatch c)) as ->.
  { unfold hget, cond_headers. cbn [r_Header]. destruct (IfNoneMatch c) as [t|], (IfMatch c) as [t'|]; by simplify_map_eq. }
  assert (hget (mkReq m (path_of fakeBucket key) q (cond_headers c) b) "If-Match" = default "" (IfMatch c)) as ->.
  { unfold hget, cond_headers. cbn [r_Header]. destruct (IfNoneMatch c) as [t|], (IfMatch c) as [t'|]; by simplify_map_eq. }
  rewrite negb_andb. f_equal.
  - destruct (IfNoneMatch c) as [t|]; cbn [default].
    + rewrite negb_involutive. apply bool_decide_ext. by rewrite fmap_is_Some.
    + apply bool_decide_eq_false_2. by intros [? _].
  - destruct (IfMatch c) as [t|] eqn:E; cbn [default]; [|done].
    change (default "" (Some t)) with t. rewrite bool_decide_eq_false_2 by (intros Ht; cbv in Ht; by subst t). cbn [negb andb]. by destruct (f_objs f !! key).
Qed.

Lemma fake_put key d n c f r f' : fake_ok f → IfMatch c ≠ Some "" → PutObject fakeBucket key d n c f = (r, f') →
  if bool_decide (n = None ∨ n = Some (blen d)) then
    if cond_holds c (b_objs (view f) !! key) then r = Resp (digest d) ∧ stores f f' key (mkSObj d (digest d))
    else same f f' ∧ ∃ e, r = SdkErr e ∧ cond_err c (b_objs (view f) !! key) e
  else same f f' ∧ ∃ e, r = SdkErr e ∧ plain_err e.
Proof.
  intros Hok Hc. cbn [PutObject the_client fake_client]. case_bool_decide; last first.
  { intros [= <- <-]. split; [by apply same_refl|]. by eexists. }
  unfold sdk_call. rewrite handle_path by done. cbv zeta beta iota. unfold handle_put.
  assert (∀ name, name ∈ ["X-Amz-Copy-Source"] → hget (mkReq PUT (path_of fakeBucket key) ∅ (cond_headers c) (BRaw d)) name = "") as Hh.
  { intros name ->%list_elem_of_singleton. unfold hget, cond_headers. cbn [r_Header].
    destruct (IfNoneMatch c) as [t|], (IfMatch c) as [t'|]; by simplify_map_eq. }
  rewrite Hh by constructor. cbn [qget r_Query r_Body]. rewrite precondition_spec by done. cbn -[cond_holds view].
  destruct (cond_holds c _); cbn [negb]; intros [= <- <-].
  - split; [done|]. by apply stores_set.
  - split; [by apply same_refl|]. eexists. split; [done|]. by left.
Qed.

Lemma fake_delete key f r f' : fake_ok f → DeleteObject fakeBucket key f = (r, f') →
  r = Resp () ∧ shows f f' (mkBucket (delete key (b_objs (view f))) (b_uploads (view f))).
Proof.
  intros Hok. cbn [DeleteObject the_client fake_client]. unfold sdk_call. rewrite handle_path by done. cbv zeta beta iota.
  unfold handle_delete. rewrite qget_empty. rewrite bool_decide_eq_true_2 by done. cbn [negb]. intros [= <- <-].
  split; [done|]. split; [exact Hok|split; [done|]]. cbn. by rewrite fmap_delete.
Qed.

Lemma fake_copy key src f r f' : fake_ok f → CopyObjectReq fakeBucket key (s3CopySource fakeBucket src) f = (r, f') →
  match b_objs (view f) !! src with
  | Some o => r = Resp () ∧ stores f f' key (mkSObj (so_data o) (digest (so_data o)))
  | None => same f f' ∧ ∃ e, r = SdkErr e ∧ isNotFound e = true
  end.
Proof.
  intros Hok. cbn [CopyObjectReq the_client fake_client]. unfold sdk_call. rewrite handle_path by done. cbv zeta beta iota.
  unfold handle_put. rewrite !qget_empty, bool_decide_eq_true_2 by done. cbn [negb andb].
  assert (hget (mkReq PUT (path_of fakeBucket key) ∅ {["X-Amz-Copy-Source" := s3CopySource fakeBucket src]} (BRaw []))
    "X-Amz-Copy-Source" = s3CopySource fakeBucket src) as ->.
  { unfold hget. cbn [r_Header]. by rewrite lookup_singleton_eq. }
  rewrite (bool_decide_eq_false_2 (_ = "")) by done. cbn [negb]. unfold copyObject. rewrite decode_copy_source. cbn [view fake_view b_objs]. rewrite lookup_fmap.
  destruct (f_objs f !! src) as [d|]; intros [= <- <-]; cbn -[view].
  - split; [done|]. by apply stores_set.
  - split; [by apply same_refl|]. by eexists.
Qed.

(** ** Uploads *)

Lemma fake_create key alg f r f' : fake_ok f → CreateMultipartUpload fakeBucket key alg f = (r, f') →
  ∃ id, r = Resp id ∧ ¬ issued f id ∧ srv_ok f' ∧ (∀ i, issued f' i ↔ i = id ∨ issued f i)
  ∧ view f' = mkBucket (b_objs (view f)) (<[id := mkUp key alg ∅]> (b_uploads (view f))).
Proof.
  intros Hok. cbn [CreateMultipartUpload the_client fake_client]. unfold sdk_call. rewrite handle_path by done.
  cbv zeta beta iota. unfold handle_post. cbn [r_Query]. rewrite lookup_singleton_eq, bool_decide_eq_true_2 by eauto.
  unfold createMultipartUpload. set (id := "fake-upload-" +:+ pretty _).
  assert (hget (mkReq POST (path_of fakeBucket key) {["uploads" := ""]}
    (if bool_decide (alg = "") then ∅ else {["X-Amz-Checksum-Algorithm" := alg]}) (BRaw [])) "X-Amz-Checksum-Algorithm" = alg) as ->.
  { unfold hget. cbn [r_Header]. case_bool_decide; [by subst|]. by rewrite lookup_singleton_eq. }
  intros [= <- <-]. destruct Hok as (Hi & Hf & Hs & Hm).
  assert (∀ i, fake_issued f i → ∃ n : N, (0 < n <= f_nextUploadID f + 1)%N ∧ i = "fake-upload-" +:+ pretty n) as Hw.
  { intros i (n & Hn & ->). exists n. split; [lia|done]. }
  exists id. split; [done|]. split_and!.
  - intros (i & Hi' & E). unfold id in E. injection E as E%(inj pretty). lia.
  - split; [done|]. split; [done|]. split; [done|]. cbn. intros i up. rewrite lookup_insert_Some.
    intros [[<- _]|[_ H%Hm]]; [exists (f_nextUploadID f + 1)%N; cbn; split; [lia|done]|by apply Hw].
  - cbn. intros i. split.
    + intros (n & Hn & ->). cbn in Hn. destruct (decide (n = f_nextUploadID f + 1)%N) as [->|]; [by left|].
      right. exists n. split; [lia|done].
    + intros [->|H%Hw]; [exists (f_nextUploadID f + 1)%N; cbn; split; [lia|done]|exact H].
  - cbn. by rewrite fmap_insert.
Qed.

Lemma issued_nonempty f id : fake_issued f id → id ≠ "".
Proof. by intros (n & _ & ->). Qed.

(** A part lands in its upload. *)
Lemma store_part_shows f id up n b : fake_ok f → f_multipart f !! id = Some up →
  shows f (store_part id up n b f) (mkBucket (b_objs (view f))
    (<[id := mkUp (fu_key up) (fu_checksumAlgorithm up) (<[n := fake_part b]> (fake_part <$> fu_parts up))]>
       (b_uploads (view f)))).
Proof.
  intros (Hi & Hf & Hs & Hm) Hup. split; [|split; [done|]].
  - split; [done|]. split; [done|]. split; [done|]. cbn. intros i u. rewrite lookup_insert_Some.
    intros [[<- _]|[_ H%Hm]]; [|exact H]. exact (Hm _ _ Hup).
  - cbn. f_equal. rewrite fmap_insert. unfold fake_upload at 1. cbn. by rewrite fmap_insert.
Qed.

Lemma part_query_get m p h b id n : part_no n →
  let r := mkReq m p (part_query id n) h b in
  qget r "uploadId" = id ∧ qget r "partNumber" ≠ "" ∧ ParseInt (qget r "partNumber") 32 = Ok n.
Proof.
  intros Hn r. unfold qget, r, part_query. cbn [r_Query].
  rewrite lookup_insert_ne, lookup_singleton_eq, lookup_insert_eq by done. cbn -[ParseInt fmt_int].
  unfold part_no in Hn. split; [done|]. rewrite ParseInt_fmt by lia. split; [|done].
  intros E. pose proof (ParseInt_fmt n 32 ltac:(lia) ltac:(lia)) as H. by rewrite E in H.
Qed.

(** The part the server answers with: its ETag, and the checksum sent. *)
Lemma echo_read q b (crc : bool) p m :
  let r := mkReq m p q (if crc then {["X-Amz-Checksum-Crc32" := crc32 b]} else ∅) (BRaw b) in
  echo_checksums r (etag_header md5 b) !! "ETag" = Some (etagOf md5 b)
  ∧ (crc = true → echo_checksums r (etag_header md5 b) !! "X-Amz-Checksum-Crc32" = Some (crc32 b)).
Proof.
  intros r.
  assert (echo_checksums r (etag_header md5 b)
    = if crc then <["X-Amz-Checksum-Crc32" := crc32 b]> (etag_header md5 b) else etag_header md5 b) as ->.
  { unfold r. destruct crc; [|done]. unfold echo_checksums, checksumHeaders. cbn [foldr].
    assert (∀ x, hget (mkReq m p q {["X-Amz-Checksum-Crc32" := crc32 b]} (BRaw b)) x
      = if decide (x = "X-Amz-Checksum-Crc32") then crc32 b else "") as Hh.
    { intros x. unfold hget. cbn [r_Header]. case_decide; [subst; by rewrite lookup_singleton_eq|by rewrite lookup_singleton_ne]. }
    rewrite !Hh. cbn. by rewrite bool_decide_eq_false_2 by apply crc32_some. }
  unfold etag_header. destruct crc; (split; [|done || intros _]); by simplify_map_eq.
Qed.

Lemma fake_upload_part key id n d len alg f r f' : fake_ok f → fake_issued f id → part_no n →
  UploadPart fakeBucket key id n d len alg f = (r, f') →
  match r with
  | Resp ck => ∃ up et, b_uploads (view f) !! id = Some up ∧ up_key up = key ∧ len = blen d ∧ pc_etag ck = Some et
      ∧ (alg = "CRC32" → ∃ c, pc_crc32 ck = Some c ∧ c ≠ "")
      ∧ shows f f' (mkBucket (b_objs (view f))
          (<[id := mkUp (up_key up) (up_alg up) (<[n := mkSPart d et]> (up_parts up))]> (b_uploads (view f))))
  | SdkErr _ => same f f'
  end ∧ (∀ up, b_uploads (view f) !! id = Some up → up_key up = key → len = blen d →
           (blen d <= single_put_max)%Z → ∃ ck, r = Resp ck).
Proof.
  intros Hok Hid Hn. cbn [UploadPart the_client fake_client]. case_bool_decide as Hl; last first.
  { intros [= <- <-]. split; [by apply same_refl|]. by intros. }
  unfold sdk_call. rewrite handle_path by done. cbv zeta beta iota. unfold handle_put.
  set (rq := mkReq _ _ _ _ _).
  destruct (part_query_get PUT (path_of fakeBucket key) (r_Header rq) (BRaw d) id n Hn) as (E1 & E2 & E3).
  change (mkReq PUT (path_of fakeBucket key) (part_query id n) (r_Header rq) (BRaw d)) with rq in E1, E2, E3.
  rewrite (bool_decide_eq_false_2 _ E2), E1, (bool_decide_eq_false_2 (id = "")) by by eapply issued_nonempty.
  assert (hget rq "X-Amz-Copy-Source" = "") as ->.
  { unfold hget, rq. cbn [r_Header]. by case_bool_decide. }
  cbn [negb andb]. rewrite bool_decide_eq_true_2 by done. cbn [negb]. unfold uploadPart. rewrite E1, E3.
  cbn [view fake_view b_uploads]. rewrite lookup_fmap.
  destruct (f_multipart f !! id) as [up|] eqn:Eup; last first.
  { intros [= <- <-]. cbn -[view]. split; [by apply same_refl|done]. }
  case_bool_decide as Hk; cbn [negb]; last first.
  { intros [= <- <-]. cbn -[view]. split; [by apply same_refl|]. intros u [= <-]. done. }
  change (r_Body rq) with (BRaw d). cbv iota. destruct (Z.ltb_spec n 1); [unfold part_no in Hn; lia|].
  destruct (echo_read (part_query id n) d (bool_decide (alg = "CRC32")) (path_of fakeBucket key) PUT) as [H1 H2].
  intros [= <- <-]. cbn -[view echo_checksums]. split; [|by eauto].
  exists (fake_upload up), (etagOf md5 d). split_and!; try done.
  - intros Ha. exists (crc32 d). split; [|done]. apply H2. by apply bool_decide_eq_true_2.
  - by apply store_part_shows.
Qed.

Lemma fake_part_copy key id n src lo hi f r f' : fake_ok f → fake_issued f id → part_no n →
  (0 <= lo <= hi)%Z → (hi < object_max)%Z →
  UploadPartCopy fakeBucket key id n (s3CopySource fakeBucket src) (copy_range lo hi) f = (r, f') →
  match r with
  | Resp None => same f f'
  | Resp (Some ck) => ∃ up et o, b_uploads (view f) !! id = Some up ∧ up_key up = key
      ∧ b_objs (view f) !! src = Some o ∧ (hi < blen (so_data o))%Z ∧ pc_etag ck = Some et
      ∧ shows f f' (mkBucket (b_objs (view f))
          (<[id := mkUp (up_key up) (up_alg up) (<[n := mkSPart (range_of (so_data o) lo hi) et]> (up_parts up))]>
             (b_uploads (view f))))
  | SdkErr _ => same f f'
  end ∧ (∀ up o, b_uploads (view f) !! id = Some up → up_key up = key →
           b_objs (view f) !! src = Some o → (hi < blen (so_data o))%Z → ∃ ck, r = Resp (Some ck)).
Proof.
  intros Hok Hid Hn Hlo Hhi. cbn [UploadPartCopy the_client fake_client].
  unfold sdk_call. rewrite handle_path by done. cbv zeta beta iota. unfold handle_put.
  set (rq := mkReq _ _ _ _ _).
  destruct (part_query_get PUT (path_of fakeBucket key) (r_Header rq) (BRaw []) id n Hn) as (E1 & E2 & E3).
  change (mkReq PUT (path_of fakeBucket key) (part_query id n) (r_Header rq) (BRaw [])) with rq in E1, E2, E3.
  rewrite (bool_decide_eq_false_2 _ E2), E1, (bool_decide_eq_false_2 (id = "")) by by eapply issued_nonempty.
  assert (hget rq "X-Amz-Copy-Source" = s3CopySource fakeBucket src) as ->.
  { unfold hget, rq. cbn [r_Header]. by rewrite lookup_insert_eq. }
  assert (hget rq "X-Amz-Copy-Source-Range" = copy_range lo hi) as Er.
  { unfold hget, rq. cbn [r_Header]. by rewrite lookup_insert_ne, lookup_singleton_eq. }
  cbn [negb andb]. rewrite bool_decide_eq_false_2 by done. cbn [negb]. unfold uploadPartCopy.
  rewrite E1, E3, Er, decode_copy_source.
  cbn [view fake_view b_uploads b_objs]. rewrite !lookup_fmap.
  destruct (f_multipart f !! id) as [up|] eqn:Eup; last first.
  { intros [= <- <-]. cbn -[view]. split; [by apply same_refl|done]. }
  case_bool_decide as Hk; cbn [negb]; last first.
  { intros [= <- <-]. cbn -[view]. split; [by apply same_refl|]. intros u o [= <-]. done. }
  destruct (Z.ltb_spec n 1); [unfold part_no in Hn; lia|].
  destruct (f_objs f !! src) as [d|] eqn:Ed; last first.
  { intros [= <- <-]. cbn -[view]. split; [by apply same_refl|done]. }
  rewrite copy_range_read by (unfold object_max, MiB in *; lia).
  destruct (Z.leb_spec (blen d) hi).
  { intros [= <- <-]. cbn -[view]. split; [by apply same_refl|]. intros u o _ _ [= <-] Hd. cbn in Hd. lia. }
  intros [= <- <-]. cbn -[view]. split; [|by eauto].
  exists (fake_upload up), (etagOf md5 (range_of d lo hi)), (fake_object d). split_and!; try done.
  by apply store_part_shows.
Qed.

Lemma gather_spec up parts ds : gather up parts = Some ds ↔ Forall2 (λ p b, fu_parts up !! px_PartNumber p = Some b) parts ds.
Proof. unfold gather. apply mapM_Some. Qed.

Lemma fake_complete key id parts size c f r f' : fake_ok f → fake_issued f id → IfMatch c ≠ Some "" →
  CompleteMultipartUpload fakeBucket key id parts size c f = (r, f') →
  match r with
  | Resp _ => ∃ up ds t, b_uploads (view f) !! id = Some up ∧ up_key up = key
      ∧ Forall2 (λ p b, sp_data <$> up_parts up !! PartNumber p = Some b) parts ds
      ∧ cond_holds c (b_objs (view f) !! key) = true
      ∧ shows f f' (mkBucket (<[key := mkSObj (concat ds) t]> (b_objs (view f))) (delete id (b_uploads (view f))))
  | SdkErr _ => same f f'
  end ∧ (∀ up ds, b_uploads (view f) !! id = Some up → up_key up = key → complete_wf up parts size ds →
           if cond_holds c (b_objs (view f) !! key) then ∃ t, r = Resp t
           else ∃ e, r = SdkErr e ∧ cond_err c (b_objs (view f) !! key) e).
Proof.
  intros Hok Hid Hc. cbn [CompleteMultipartUpload the_client fake_client].
  unfold sdk_call. rewrite handle_path by done. cbv zeta beta iota. unfold handle_post. cbn [r_Query].
  rewrite (lookup_singleton_ne _ "uploads"), bool_decide_eq_false_2 by (done || by intros [? ?]).
  set (rq := mkReq _ _ _ _ _).
  assert (qget rq "uploadId" = id) as -> by (unfold qget, rq; cbn [r_Query]; by rewrite lookup_singleton_eq).
  rewrite bool_decide_eq_false_2 by by eapply issued_nonempty. cbn [negb]. unfold completeMultipartUpload.
  unfold rq at 1 2. rewrite precondition_spec by done. cbn [r_Body].
  set (cur := b_objs (view f) !! key). cbn [view fake_view b_uploads]. rewrite lookup_fmap.
  destruct (f_multipart f !! id) as [up|] eqn:Eup; last first.
  { intros [= <- <-]. cbn -[view]. split; [by apply same_refl|done]. }
  case_bool_decide as Hk; cbn [negb]; last first.
  { intros [= <- <-]. cbn -[view]. split; [by apply same_refl|]. intros u o [= <-]. done. }
  destruct parts as [|p0 parts0].
  { intros [= <- <-]. cbn -[view]. split; [by apply same_refl|]. intros u ds _ _ (H & _). done. }
  cbn [fmap list_fmap]. set (parts := p0 :: parts0). set (ps := part_xml p0 :: _).
  assert (ps = part_xml <$> parts) as Eps by done.
  assert (∀ ds, complete_wf (fake_upload up) parts size ds → gather up ps = Some ds ∧
    negb (bool_decide (fu_checksumAlgorithm up = ""))
    && existsb (λ p, bool_decide (checksumForAlgorithm p (fu_checksumAlgorithm up) = "")) ps = false) as Hwf.
  { intros ds (_ & _ & Hf & Ha & _). rewrite Eps. split.
    - apply gather_spec. apply Forall2_fmap_l. eapply Forall2_impl; [exact Hf|]. intros p b (sp & Hsp & _ & <- & _).
      cbn in Hsp. rewrite lookup_fmap in Hsp. cbn. by destruct (fu_parts up !! PartNumber p); simplify_eq/=.
    - destruct Ha as [Ha|Ha]; cbn in Ha; rewrite Ha; [by rewrite bool_decide_eq_true_2|]. apply andb_false_iff. right.
      apply not_true_iff_false. rewrite existsb_exists. intros (x & Hx & Hb).
      apply list_elem_of_In, list_elem_of_fmap in Hx as (p & -> & Hp). apply bool_decide_eq_true_1 in Hb.
      apply list_elem_of_lookup in Hp as [i Hp]. destruct (Forall2_lookup_l _ _ _ _ _ Hf Hp) as (b & _ & sp & _ & _ & _ & Hcrc).
      destruct (Hcrc Ha) as (t & Ht & Hne). change (default "" (ChecksumCRC32 p) = "") in Hb. rewrite Ht in Hb. done. }
  destruct (negb _ && _) eqn:Echk.
  { intros [= <- <-]. cbn -[view]. split; [by apply same_refl|]. intros u ds [= <-] _ [_ H]%Hwf. done. }
  destruct (cond_holds c cur) eqn:Econd; cbn [negb]; last first.
  { intros [= <- <-]. cbn -[view]. split; [by apply same_refl|]. intros. eexists. split; [done|]. by left. }
  destruct (gather up ps) as [ds|] eqn:Eg; last first.
  { intros [= <- <-]. cbn -[view]. split; [by apply same_refl|]. intros u ds [= <-] _ [H _]%Hwf. done. }
  intros [= <- <-]. cbn -[view]. split; [|by eauto].
  exists (fake_upload up), ds, (etagOf md5 (concat ds)). split_and!; try done.
  - apply gather_spec in Eg. rewrite Eps in Eg. apply Forall2_fmap_l in Eg. eapply Forall2_impl; [exact Eg|].
    intros p b Hp. cbn. rewrite lookup_fmap. cbn in Hp. by rewrite Hp.
  - destruct Hok as (Hi & Hf & Hs & Hm). split; [|split; [done|]].
    + split; [done|]. split; [done|]. split; [done|]. cbn. intros i u [_ H%Hm]%lookup_delete_Some. exact H.
    + cbn. by rewrite fmap_insert, fmap_delete.
Qed.

Lemma fake_abort key id f r f' : fake_ok f → fake_issued f id → AbortMultipartUpload fakeBucket key id f = (r, f') →
  match r with
  | Resp _ => shows f f' (mkBucket (b_objs (view f)) (delete id (b_uploads (view f))))
  | SdkErr _ => same f f'
  end ∧ (∀ up, b_uploads (view f) !! id = Some up → up_key up = key → r = Resp ()).
Proof.
  intros Hok Hid. cbn [AbortMultipartUpload the_client fake_client].
  unfold sdk_call. rewrite handle_path by done. cbv zeta beta iota. unfold handle_delete.
  set (rq := mkReq _ _ _ _ _).
  assert (qget rq "uploadId" = id) as -> by (unfold qget, rq; cbn [r_Query]; by rewrite lookup_singleton_eq).
  rewrite bool_decide_eq_false_2 by by eapply issued_nonempty. cbn [negb]. unfold abortMultipartUpload.
  cbn [view fake_view b_uploads]. rewrite lookup_fmap.
  destruct (f_multipart f !! id) as [up|] eqn:Eup; last first.
  { intros [= <- <-]. cbn -[view]. split; [by apply same_refl|done]. }
  case_bool_decide as Hk; cbn [negb]; last first.
  { intros [= <- <-]. cbn -[view]. split; [by apply same_refl|]. intros u [= <-]. done. }
  intros [= <- <-]. cbn -[view]. split; [|done]. destruct Hok as (Hi & Hf & Hs & Hm). split; [|split; [done|]].
  - split; [done|]. split; [done|]. split; [done|]. cbn. intros i u [_ H%Hm]%lookup_delete_Some. exact H.
  - cbn. by rewrite fmap_delete.
Qed.

(** ** Batches and listings *)

Lemma delete_loop_spec errs keys m del es :
  let '(m', del', es') := delete_loop errs false keys m del es in
  del' = (del ++ filter (λ k, k ∉ errs) keys)%list
  ∧ es' = (es ++ ((λ k, (k, "InternalError")) <$> filter (λ k, k ∈ errs) keys))%list
  ∧ ∀ k, m' !! k = if bool_decide (k ∈ filter (λ k, k ∉ errs) keys) then None else m !! k.
Proof.
  revert m del es. induction keys as [|k keys IH]; intros m del es; cbn [delete_loop].
  { rewrite !filter_nil, !app_nil_r. split_and!; try done. }
  case_bool_decide as Hk.
  - specialize (IH m del (es ++ [(k, "InternalError")])%list). destruct (delete_loop _ _ _ _ _ _) as [[m' del'] es'].
    destruct IH as (-> & -> & Hm). rewrite filter_cons_False, filter_cons_True by (done || tauto).
    split_and!; [done|by rewrite <- app_assoc|done].
  - specialize (IH (delete k m) (del ++ [k])%list es). destruct (delete_loop _ _ _ _ _ _) as [[m' del'] es'].
    destruct IH as (-> & -> & Hm). rewrite filter_cons_True, filter_cons_False by (done || tauto).
    split_and!; [by rewrite <- app_assoc|done|]. intros j. rewrite Hm.
    repeat case_bool_decide; rewrite ?elem_of_cons in *; try tauto.
    + destruct (decide (j = k)) as [->|]; [by rewrite lookup_delete_eq|]. tauto.
    + rewrite lookup_delete_ne; [done|]. intros ->. tauto.
Qed.

Lemma fake_delete_objects ks f r f' : fake_ok f → (length ks <= 1000)%nat →
  DeleteObjectsReq fakeBucket ks f = (r, f') →
  ∃ del errs, r = Resp (del, errs)
  ∧ (∀ k, k ∈ ks ↔ k ∈ del ∨ k ∈ errs.*1) ∧ (∀ k, k ∈ errs.*1 → k ∉ del)
  ∧ ∃ m, shows f f' (mkBucket m (b_uploads (view f)))
         ∧ ∀ k, m !! k = if bool_decide (k ∈ del) then None else b_objs (view f) !! k.
Proof.
  intros Hok Hl. cbn [DeleteObjectsReq the_client fake_client]. unfold sdk_call. rewrite handle_bucket by done.
  cbv zeta beta iota. unfold handle_post. cbn [r_Query].
  rewrite (lookup_singleton_ne _ "uploads"), bool_decide_eq_false_2 by (done || by intros [? ?]).
  rewrite lookup_singleton_eq, (bool_decide_eq_true_2 (is_Some _)) by eauto.
  assert (∀ h b, qget (mkReq POST ("/" +:+ fakeBucket) {["delete" := ""]} h b) "uploadId" = "") as -> by done.
  rewrite !bool_decide_eq_true_2 by done. cbn [negb andb]. unfold deleteObjects. cbn [r_Body].
  destruct (Nat.ltb_spec deleteObjectsMaxKeys (length ks)) as [?|_]; [unfold deleteObjectsMaxKeys in *; lia|].
  pose proof (delete_loop_spec (f_batchDeleteErrs f) ks (f_objs f) [] []) as H.
  destruct (delete_loop _ _ _ _ _ _) as [[m del] es]. destruct H as (-> & -> & Hm).
  intros [= <- <-]. eexists _, _. split; [done|].
  assert ((((λ k, (k, "InternalError")) <$> filter (λ k, k ∈ f_batchDeleteErrs f) ks).*1)
          = filter (λ k, k ∈ f_batchDeleteErrs f) ks) as E.
  { rewrite <- list_fmap_compose. apply list_fmap_id. }
  cbn [app]. rewrite E. split_and!.
  - intros k. rewrite !list_elem_of_filter. destruct (decide (k ∈ f_batchDeleteErrs f)); tauto.
  - intros k. rewrite !list_elem_of_filter. tauto.
  - exists (fake_object <$> m). split; [by apply shows_objs|]. intros k. rewrite lookup_fmap, Hm. cbn.
    rewrite lookup_fmap. by case_bool_decide.
Qed.

Definition sorted_keys (f : FakeS3) (prefix : string) : list string :=
  sort_by String.le (filter (λ k, HasPrefix k prefix = true) (map_to_list (f_objs f)).*1).

Lemma keys_from_view f prefix (from : string → bool) :
  keys_from (b_objs (view f)) prefix from = filter (λ k, from k = true) (sorted_keys f prefix).
Proof.
  unfold keys_from, sorted_keys. cbn [view fake_view b_objs]. rewrite map_to_list_fmap.
  replace ((prod_map id fake_object <$> map_to_list (f_objs f)).*1) with ((map_to_list (f_objs f)).*1).
  - apply sort_by_filter.
  - rewrite <- list_fmap_compose. by apply list_fmap_ext.
Qed.

Lemma sorted_keys_sorted f prefix : StronglySorted String.le (sorted_keys f prefix) ∧ NoDup (sorted_keys f prefix).
Proof.
  split; [apply sort_by_sorted; apply _|]. unfold sorted_keys. rewrite sort_by_perm.
  apply NoDup_filter, NoDup_fst_map_to_list.
Qed.

Lemma fake_list p t f r f' : fake_ok f → ListObjectsV2 fakeBucket p t f = (r, f') → same f f' ∧
  ∃ page next, r = Resp (page, next) ∧
    let from := match t with Some t => tok_from t | None => λ _, true end in
    let keys := keys_from (b_objs (view f)) p from in
    match next with
    | None => page = keys
    | Some t' => page = filter (λ k, tok_from t' k = false) keys ∧ page ≠ []
                 ∧ ∀ k, tok_from t' k = true → from k = true
    end.
Proof.
  intros Hok. cbn [ListObjectsV2 the_client fake_client]. unfold sdk_call. rewrite handle_bucket by done.
  cbv zeta beta iota. unfold handle_get. rewrite bool_decide_eq_true_2 by done. cbn [orb]. unfold list_.
  set (rq := mkReq _ _ _ _ _). cbv zeta.
  assert (qget rq "prefix" = p ∧ qget rq "continuation-token" = default "" t) as [-> ->].
  { unfold qget, rq. cbn [r_Query]. destruct t; cbn; by simplify_map_eq. }
  fold (sorted_keys f p). destruct (sorted_keys_sorted f p) as [Hs Hn].
  set (from := match t with Some t => tok_from t | None => λ _, true end).
  assert ((if bool_decide (default "" t = "") then sorted_keys f p
           else drop (SearchStrings (sorted_keys f p) (default "" t)) (sorted_keys f p))
          = keys_from (b_objs (view f)) p from) as ->.
  { rewrite keys_from_view. destruct t as [t|]; cbn [default from_option].
    - case_bool_decide as Ht.
      + symmetry. apply filter_every. intros k _. cbn. apply bool_decide_eq_true_2. cbn in Ht. subst. by destruct k.
      + rewrite SearchStrings_drop by done. cbn.
        apply list_filter_iff. intros k. by rewrite bool_decide_eq_true.
    - rewrite bool_decide_eq_true_2 by done. symmetry. apply filter_every. by intros. }
  assert (StronglySorted String.le (keys_from (b_objs (view f)) p from) ∧ NoDup (keys_from (b_objs (view f)) p from)
          ∧ ∀ k, k ∈ keys_from (b_objs (view f)) p from → from k = true) as (Hs' & Hn' & Hfrom).
  { rewrite keys_from_view. split_and!; [by apply StronglySorted_filter_any|by apply NoDup_filter|].
    intros k [? _]%list_elem_of_filter. done. }
  set (keys := keys_from (b_objs (view f)) p from) in *.
  destruct (keys !! maxKeys) as [next|] eqn:En; intros [= <- <-]; (split; [by apply same_refl|]);
    eexists _, _; (split; [done|]); cbn -[take maxKeys]; [|done].
  assert (next ≠ "") as Hne.
  { intros ->. destruct (keys !! 0%nat) as [k0|] eqn:E0.
    - pose proof (NoDup_lookup keys 0 maxKeys) as Hu. enough (k0 = "") by (subst; by specialize (Hu "" Hn' E0 En)).
      rewrite <- (take_drop_middle _ _ _ En) in Hs'. apply StronglySorted_app in Hs' as (Hx & _).
      apply (anti_symm String.le); [|by destruct k0]. apply Hx; [|constructor].
      apply list_elem_of_lookup. exists 0%nat. rewrite lookup_take_lt; [done|]. unfold maxKeys. lia.
    - apply lookup_ge_None in E0. apply lookup_lt_Some in En. lia. }
  rewrite bool_decide_eq_false_2 by done. cbn -[take maxKeys]. split_and!.
  - rewrite (sorted_split _ _ _ Hs' Hn' En). apply list_filter_iff. intros k. by rewrite bool_decide_eq_false.
  - intros E. apply (f_equal length) in E. rewrite length_take in E. apply lookup_lt_Some in En. unfold maxKeys in *. change (length []) with 0%nat in E. lia.
  - intros k Hk. apply bool_decide_eq_true_1 in Hk. pose proof (Hfrom next) as Hx.
    assert (next ∈ keys) as Hin by (apply list_elem_of_lookup; eauto). specialize (Hx Hin). unfold from in *.
    destruct t as [t|]; [|done]. cbn in *. apply bool_decide_eq_true_1 in Hx. apply bool_decide_eq_true_2. by etrans.
Qed.

Lemma fake_laws : S3Laws FakeS3 fakeBucket.
Proof.
  split.
  - exact etagOf_inj.
  - done.
  - intros f id up (_ & _ & _ & Hm). cbn. rewrite lookup_fmap_Some. intros (u & _ & Hu). by eapply Hm.
  - exact fake_get.
  - exact fake_head.
  - intros k d n c f r f' Hok _. by apply fake_put.
  - exact fake_delete.
  - exact fake_delete_objects.
  - exact fake_list.
  - cbn. intros t k k' H1%bool_decide_eq_true_1 H2. apply bool_decide_eq_true_2. by etrans.
  - intros k src f r f' Hok H%fake_copy; [|done]. destruct (b_objs (view f) !! src); [by intros _|done].
  - exact fake_create.
  - exact fake_upload_part.
  - intros k id n src lo hi f r f' Hok Hid Hn Hlo Hhi H%fake_part_copy; [|done..]. destruct H as [H1 H2].
    split; [done|]. intros. by eapply H2.
  - exact fake_complete.
  - exact fake_abort.
Qed.

(** C39: [FakeS3] behind its client is an S3 service: its handlers keep every law the
    backend relies on. *)
Theorem fake_server_lawful : S3Laws FakeS3 fakeBucket.
Proof. exact fake_laws. Qed.
End lawful.

(** The copy source the backend sends for a key is read back as that key. *)
Lemma copy_source_roundtrip key : decodeCopySource (s3CopySource fakeBucket key) = Ok key.
Proof. exact (decode_copy_source key). Qed.
