(* ===== verification/S3Props.v ===== *)
(** * What each request of the S3 backend does

    A schedule is [lawful] when the other clients move within the service's
    rules ([others]) and no fault of the transport looks like an absent object.
    [called] says what one request can do; [s3_refines_backend]: every operation
    of one request is a call of [Backend] on the objects the bucket encodes. *)
From Stdlib Require Import Ascii String Strings.Byte.
From S2P Require Import Prelude GoStrings Keys GoUrl Refs Backend Files S3Api S3.
Local Open Scope string_scope.

Section s3_props.
Context {V : Type} `{S3Client V} `{S3View V} (s : S3) `{!S3Laws V (s_bucket s)}.

(** ** Lawful schedules *)

(** What may happen between two requests.  Other clients do anything to the
    objects.  An upload of an id once handed out is over and stays over, or
    goes on with the parts it has; and parts may turn up in it, of any bytes,
    that a request sent before and given up by the client (a deadline, a
    cancelled context) had on its way.  Ids are not handed out again. *)
Definition goes_on (up up' : upload) : Prop :=
  up_key up' = up_key up ∧ up_alg up' = up_alg up ∧ up_parts up ⊆ up_parts up'.

Definition others (v v' : V) : Prop :=
  srv_ok v' ∧ (∀ id, issued v id → issued v' id)
  ∧ ∀ id up', issued v id → b_uploads (view v') !! id = Some up' →
      ∃ up, b_uploads (view v) !! id = Some up ∧ goes_on up up'.

Definition fault_ok (f : option (bool * sdkerr)) : Prop :=
  match f with Some (_, e) => isNotFound e = false | None => True end.

(** [Q] is what all the clients keep true of the service. *)
Definition tick_ok (Q : V → Prop) (t : stick V) : Prop :=
  (∀ v, srv_ok v → Q v → others v (st_env t v) ∧ Q (st_env t v)) ∧ fault_ok (st_fault t).

Definition lawful (Q : V → Prop) (w : sworld V) : Prop :=
  srv_ok (sw_srv w) ∧ Q (sw_srv w) ∧ Forall (tick_ok Q) (sw_sched w).

Definition scalm (w : sworld V) : Prop := sw_sched w = [].

Lemma others_refl v : srv_ok v → others v v.
Proof. intros Hv. split; [done|]. split; [done|]. intros id up _ E. by exists up. Qed.

Lemma others_trans v1 v2 v3 : others v1 v2 → others v2 v3 → others v1 v3.
Proof.
  intros (_ & I1 & U1) (Hok & I2 & U2). split; [done|]. split; [auto|]. intros id up3 Hid E.
  destruct (U2 id up3 (I1 id Hid) E) as (up2 & E2 & K2 & A2 & P2).
  destruct (U1 id up2 Hid E2) as (up1 & E1 & K1 & A1 & P1). exists up1. split; [done|].
  split_and!; [congruence..|by etrans].
Qed.

Lemma snext_lawful Q w t w1 : lawful Q w → snext w = (t, w1) →
  lawful Q w1 ∧ others (sw_srv w) (sw_srv w1) ∧ fault_ok (st_fault t) ∧ sw_log w1 = sw_log w
  ∧ (scalm w → scalm w1 ∧ sw_srv w1 = sw_srv w ∧ st_fault t = None).
Proof.
  intros (Hv & HQ & Hs) E. unfold snext in E. destruct (sw_sched w) as [|t0 rest] eqn:Es; simplify_eq/=.
  - split; [by split|]. split; [by apply others_refl|]. done.
  - apply Forall_cons in Hs as [[He Hf] Hs]. destruct (He _ Hv HQ) as [Ho HQ1]. split; [split; [apply Ho|done]|].
    split; [done|]. split; [done|]. split; [done|]. unfold scalm. by rewrite Es.
Qed.

(** ** One request *)

(** The three ways a request can go: answered; executed, the answer lost; not
    executed.  [v1] is the state the others left. *)
Inductive called {A} (Q : V → Prop) (op : V → reply A * V) (w w' : sworld V) : reply A → Prop :=
  | called_ok v1 x : others (sw_srv w) v1 → Q v1 → (scalm w → v1 = sw_srv w) → op v1 = (x, sw_srv w') →
      sw_log w' = mkEntry v1 (sw_srv w') false :: sw_log w → called Q op w w' x
  | called_lost v1 x e : others (sw_srv w) v1 → Q v1 → ¬ scalm w → op v1 = (x, sw_srv w') → isNotFound e = false →
      sw_log w' = mkEntry v1 (sw_srv w') true :: sw_log w → called Q op w w' (SdkErr e)
  | called_not e : others (sw_srv w) (sw_srv w') → Q (sw_srv w') → ¬ scalm w → isNotFound e = false →
      sw_log w' = sw_log w → called Q op w w' (SdkErr e).

Lemma call_called {A} Q (op : V → reply A * V) w r w' : lawful Q w → call op w = (r, w') →
  ∃ x, r = Ok x ∧ called Q op w w' x ∧ Forall (tick_ok Q) (sw_sched w') ∧ (scalm w → scalm w').
Proof.
  intros Hw E. unfold call in E. destruct (snext w) as [t w1] eqn:Et.
  destruct (snext_lawful _ _ _ _ Hw Et) as ((Hv1 & HQ1 & Hs1) & Ho & Hf & Hl & Hc).
  destruct (op (sw_srv w1)) as [x v] eqn:Eo.
  destruct (st_fault t) as [[[|] e]|] eqn:Ef; simplify_eq/=.
  - exists (SdkErr e). split; [done|]. split; [|split; [done|naive_solver]].
    eapply called_lost; simpl; [done|done|naive_solver|done|done|by rewrite Hl].
  - exists (SdkErr e). split; [done|]. split; [|split; [done|naive_solver]].
    eapply called_not; [done|done|naive_solver|done|done].
  - exists x. split; [done|]. split; [|split; [done|naive_solver]].
    eapply called_ok; simpl; [done|done|naive_solver|done|by rewrite Hl].
Qed.

Lemma same_others v v' : same v v' → others v v'.
Proof. intros (Hok & Hi & Hv). split; [done|]. split; [intros; by apply Hi|]. intros id up _. rewrite Hv. by exists up. Qed.

(** ** The store of objects a bucket encodes *)

Context (enc : object → bytes) (cas : string → bool).

(** [cas key]: the objects at this key are stored by single requests, so that
    their ETag is the digest of their content and they fit in one. *)
Definition enc_obj (key : string) (o : object) (so : sobject) : Prop :=
  so_data so = enc o ∧ (cas key = true → so_etag so = digest (enc o) ∧ (blen (enc o) <= single_put_max)%Z).

Definition enc_opt (key : string) (o : option object) (so : option sobject) : Prop :=
  match o, so with
  | Some o, Some so => enc_obj key o so
  | None, None => True
  | _, _ => False
  end.

Definition encodes (v : V) (m : objs) : Prop :=
  ∀ key fk, full s key = Ok fk → enc_opt key (m !! key) (b_objs (view v) !! fk).

(** Every client stores encodings only. *)
Definition encoded (v : V) : Prop := ∃ m, encodes v m.

(** The write a request made, if any, as [Backend] records it. *)
Definition unchanged (e : entry V) : Prop := b_objs (view (en_after e)) = b_objs (view (en_before e)).

Inductive explains (e : entry V) : list write → Prop :=
  | explains_read : unchanged e → explains e []
  | explains_write key fk b o so τ : full s key = Ok fk →
      b_objs (view (en_after e)) = partial_alter (λ _, so) fk (b_objs (view (en_before e))) →
      enc_opt key b (b_objs (view (en_before e)) !! fk) → enc_opt key o so → explains e [mkWrite key b o τ].

(** One of the requests met the objects [m] and made the writes [ws]; the others
    changed nothing. *)
Definition at_one (es : list (entry V)) (m : objs) (ws : list write) : Prop :=
  ∃ es2 e es1, es = (es2 ++ e :: es1)%list ∧ Forall unchanged (es2 ++ es1) ∧ encodes (en_before e) m ∧ explains e ws.

(** The condition of a call, as the S3 backend takes it. *)
Definition tag_str (t : etag) : string :=
  match t with NoTag => "" | TagOf o => digest (enc o) | OtherTag u => u end.

(** Opaque tags are not those of any object. *)
Definition tag_ok (t : etag) : Prop :=
  match t with OtherTag u => u ≠ "" ∧ ∀ b, digest b ≠ u | _ => True end.

(** ** Calls and replies *)

Inductive bcall :=
  | CGet (key : string) | CGetReader (key : string) | CHead (key : string) | CPut (key : string) (o : object) | CPutIf (key : string) (o : object) (t : etag)
  | CDelete (key : string) | CCopy (dst src : string)
  | CPutReader (key : string) (r : reader) (size : Z) (o : object)
  | CPutReaderIf (key : string) (r : reader) (size : Z) (o : object) (t : etag).

Inductive breply := RGet (o : object) (t : etag) | RTag (t : etag) | RUnit.
Inductive sreply := SGet (b : bytes) (t : string) | SHead (t : string) (size : Z) | STag (t : string) | SUnit.

Definition run_backend (c : bcall) : Backend.IO breply :=
  match c with
  | CGet k | CGetReader k | CHead k => '(o, t) ← Backend.Get k; mret (RGet o t)
  | CPut k o => _ ← Backend.Put k o; mret RUnit
  | CPutIf k o t => t ← Backend.PutIf k o t; mret (RTag t)
  | CDelete k => _ ← Backend.Delete k; mret RUnit
  | CCopy d k => _ ← Backend.CopyObject d k; mret RUnit
  | CPutReader k _ _ o => _ ← Backend.Put k o; mret RUnit
  | CPutReaderIf k _ _ o t => t ← Backend.PutIf k o t; mret (RTag t)
  end.

(** The stream is read to its end. *)
Definition run_s3 (lim : limits) (c : bcall) : SIO V sreply :=
  match c with
  | CGet k => '(b, t) ← S3.Get s k; mret (SGet b t)
  | CGetReader k => '(body, t) ← S3.GetReader s k; b ← ReadAll body; mret (SGet b t)
  | CHead k => '(t, n) ← S3.Head s k; mret (SHead t n)
  | CPut k o => _ ← S3.Put s k (enc o); mret SUnit
  | CPutIf k o t => t ← S3.PutIf s k (enc o) (tag_str t); mret (STag t)
  | CDelete k => _ ← S3.Delete s k; mret SUnit
  | CCopy d k => _ ← S3.CopyObject lim s d k; mret SUnit
  | CPutReader k r size _ => _ ← S3.PutReader lim s k r size; mret SUnit
  | CPutReaderIf k r size _ t => t ← S3.PutReaderIf lim s k r size (tag_str t); mret (STag t)
  end.

Definition reply_rel (c : bcall) (x : sreply) (y : breply) : Prop :=
  match c, x, y with
  | CGet k, SGet b t, RGet o t' | CGetReader k, SGet b t, RGet o t' =>
      b = enc o ∧ t' = TagOf o ∧ (cas k = true → t = digest (enc o))
  | CHead k, SHead t n, RGet o t' => n = blen (enc o) ∧ t' = TagOf o ∧ (cas k = true → t = digest (enc o))
  | CPutIf _ _ _, STag t, RTag t' => t = tag_str t'
  | CPutReaderIf k _ _ _ _, STag t, RTag t' => cas k = true → t = tag_str t'
  | CPut _ _, SUnit, RUnit | CDelete _, SUnit, RUnit | CCopy _ _, SUnit, RUnit | CPutReader _ _ _ _, SUnit, RUnit => True
  | _, _, _ => False
  end.

(** The same error; an upload adds to it that it could not clean up. *)
Definition err_rel (c : bcall) (e e' : error) : Prop :=
  match c with
  | CPutReader _ _ _ _ | CPutReaderIf _ _ _ _ _ => e = e' ∨ e = EAbort :: e'
  | _ => e = e'
  end.

Definition result_rel (c : bcall) (r : res sreply) (r' : res breply) : Prop :=
  match r, r' with Ok x, Ok y => reply_rel c x y | Err e, Err e' => err_rel c e e' | _, _ => False end.

(** The reader holds the object and nothing else; what is uploaded in parts goes
    to a key that is never compared. *)
Definition upload_ok (lim : limits) (key : string) (r : reader) (size : Z) (o : object) : Prop :=
  rd_rest r = enc o ∧ size = blen (enc o) ∧ (size <= object_max ∧ Z.of_nat (rd_pos r) + size < 2 ^ 63)%Z
  ∧ (cas key = true → size <= multipartThreshold lim)%Z.

(** Part sizes the service takes. *)
Definition lim_ok (lim : limits) : Prop :=
  (0 < defaultPartSize lim <= single_put_max ∧ 0 <= multipartThreshold lim <= single_put_max)%Z.

(** The keys are keys of the store and what one request sends fits in it.  A
    compare, or a copy, is made of keys whose objects are stored by single
    requests: the ETag of an object stored in parts is not that of its content,
    and a copy in parts reads its source more than once. *)
Definition call_ok (lim : limits) (c : bcall) : Prop :=
  match c with
  | CGet k | CGetReader k | CHead k | CDelete k => is_ok (full s k) = true
  | CPut k o => is_ok (full s k) = true ∧ (blen (enc o) <= single_put_max)%Z
  | CPutIf k o t => is_ok (full s k) = true ∧ (blen (enc o) <= single_put_max)%Z ∧ tag_ok t ∧ (t ≠ NoTag → cas k = true)
  | CCopy d k => is_ok (full s d) = true ∧ is_ok (full s k) = true ∧ cas k = true
                 ∧ (single_put_max <= copyObjectMaxBytes lim)%Z
  | CPutReader k r size o => is_ok (full s k) = true ∧ upload_ok lim k r size o
  | CPutReaderIf k r size o t => is_ok (full s k) = true ∧ upload_ok lim k r size o ∧ tag_ok t ∧ (t ≠ NoTag → cas k = true)
  end.

(** The backend's world with one tick to come. *)
Definition with_tick (t : tick) (b : world) : world :=
  mkWorld (w_objs b) (w_now b) [t] (w_caps b) (w_ids b) (w_nid b) (w_layout2 b) (w_log b).

(** The call of [Backend] that operation [c] amounts to, when it took [w] to [w']
    with result [r]: the same result, the same writes, on the objects one of its
    requests met; without other clients and faults, the call without them. *)
Definition refines (c : bcall) (w w' : sworld V) (r : res sreply) (b : world) : Prop :=
  ∃ t r' b' es ws,
    run_backend c (with_tick t b) = (r', b') ∧ result_rel c r r'
    ∧ sw_log w' = (es ++ sw_log w)%list ∧ w_log b' = (ws ++ w_log b)%list
    ∧ (es = [] ∧ ws = [] ∧ is_ok r = false ∨ at_one es (tk_env t (w_objs b)) ws)
    ∧ (scalm w → tk_fault t = FNone ∧ tk_env t (w_objs b) = w_objs b ∧ encodes (sw_srv w') (w_objs b')).

(** ** Keys and encodings *)

Lemma full_inj k k' fk : full s k = Ok fk → full s k' = Ok fk → k = k'.
Proof.
  unfold full. intros H1 H2. repeat case_match; by simplify_eq.
Qed.

Lemma full_nonempty k fk : full s k = Ok fk → fk ≠ "".
Proof.
  unfold full. intros H1. repeat case_match; simplify_eq; bool_to_prop; try done. by destruct (s_prefix s).
Qed.

Lemma encodes_view v v' m : b_objs (view v') = b_objs (view v) → encodes v m → encodes v' m.
Proof. intros E He key fk Hk. rewrite E. by apply He. Qed.

Lemma encodes_write v v' m key fk o so : full s key = Ok fk → encodes v m → enc_opt key o so →
  b_objs (view v') = partial_alter (λ _, so) fk (b_objs (view v)) → encodes v' (partial_alter (λ _, o) key m).
Proof.
  intros Hk He Ho E key' fk' Hk'. rewrite E. destruct (decide (key' = key)) as [->|Hne].
  - rewrite Hk in Hk'. simplify_eq. by rewrite !lookup_partial_alter_eq.
  - assert (fk ≠ fk') by (intros <-; apply Hne; by eapply full_inj).
    rewrite !lookup_partial_alter_ne by congruence. by apply He.
Qed.

Lemma encoded_at w v1 b : encodes (sw_srv w) (w_objs b) → encoded v1 → (scalm w → v1 = sw_srv w) →
  ∃ m1, encodes v1 m1 ∧ (scalm w → m1 = w_objs b).
Proof.
  intros Hb [m Hm] Hc. destruct (sw_sched w) eqn:E.
  - exists (w_objs b). rewrite Hc by done. done.
  - exists m. split; [done|]. unfold scalm. by rewrite E.
Qed.

(** The tick at which the store is [m]. *)
Definition at_store (m : objs) (f : Backend.fault) : tick := mkTick (λ _, m) 0 f None.

Lemma next_at_store m f b : ∃ w1, next_tick (with_tick (at_store m f) b) = (at_store m f, w1)
  ∧ w_objs w1 = m ∧ w_log w1 = w_log b ∧ w_caps w1 = w_caps b.
Proof. eexists. split; [reflexivity|done]. Qed.

Lemma enc_opt_digest key o d : d = enc o → (blen d <= single_put_max)%Z → enc_opt key (Some o) (Some (mkSObj d (digest d))).
Proof. intros -> Hd. split; done. Qed.

Hypothesis enc_inj : ∀ o o', enc o = enc o' → o = o'.

(** The compare of [Backend] is the condition sent to the service. *)
Lemma precondition_match key fk v m t : full s key = Ok fk → encodes v m → tag_ok t → (t ≠ NoTag → cas key = true) →
  cond_holds (precondition (tag_str t)) (b_objs (view v) !! fk) = kv_match (m !! key) t.
Proof.
  intros Hk He Ht Hc. specialize (He key fk Hk). unfold precondition.
  destruct t as [|o|u]; simpl tag_str.
  - rewrite bool_decide_eq_true_2 by done. unfold cond_holds. simpl.
    destruct (m !! key), (b_objs (view v) !! fk); done.
  - rewrite bool_decide_eq_false_2 by apply digest_nonempty. unfold cond_holds. simpl.
    destruct (m !! key) as [o'|], (b_objs (view v) !! fk) as [so|]; try done. simpl in *.
    destruct He as [_ He]. destruct (He (Hc ltac:(done))) as [-> _]. apply bool_decide_ext.
    split; [intros E%digest_inj%enc_inj; done|by intros ->].
  - destruct Ht as [Hu1 Hu2]. rewrite bool_decide_eq_false_2 by done. unfold cond_holds. simpl.
    destruct (m !! key) as [o'|], (b_objs (view v) !! fk) as [so|]; try done. simpl in *.
    apply bool_decide_eq_false_2. destruct He as [_ He]. destruct (He (Hc ltac:(done))) as [-> _]. apply Hu2.
Qed.

Lemma precondition_noempty t : IfMatch (precondition t) ≠ Some "".
Proof. unfold precondition. case_bool_decide; simpl; congruence. Qed.
(** ** One call, one request *)

(** The world of [Backend] when the store is [m]. *)
Definition at_world (m : objs) (b : world) : world :=
  mkWorld m (w_now b + 0)%Z [] (w_caps b) (w_ids b) (w_nid b) (w_layout2 b) (w_log b).

Lemma at_one_single e m ws : encodes (en_before e) m → explains e ws → at_one [e] m ws.
Proof. intros Hm He. exists [], e, []. by split_and!. Qed.

Lemma refines_write c w w' r b key fk v1 m1 o so lost f r' :
  full s key = Ok fk → encodes v1 m1 → (scalm w → m1 = w_objs b ∧ f = FNone) →
  sw_log w' = mkEntry v1 (sw_srv w') lost :: sw_log w →
  b_objs (view (sw_srv w')) = partial_alter (λ _, so) fk (b_objs (view v1)) → enc_opt key o so →
  run_backend c (with_tick (at_store m1 f) b) = (r', store_at key o (at_world m1 b)) → result_rel c r r' →
  refines c w w' r b.
Proof.
  intros Hk Hm Hc Hl Hv Ho Hr Hres.
  exists (at_store m1 f), r', (store_at key o (at_world m1 b)), [mkEntry v1 (sw_srv w') lost],
    [mkWrite key (m1 !! key) o (w_now b + 0)%Z].
  split_and!; try done.
  - right. apply at_one_single; [done|]. eapply explains_write; [done|done|by apply Hm|done].
  - intros [-> ->]%Hc. split_and!; [done|done|]. cbn. by eapply encodes_write.
Qed.

Lemma refines_read c w w' r b v1 m1 lost f r' :
  encodes v1 m1 → (scalm w → m1 = w_objs b ∧ f = FNone) →
  sw_log w' = mkEntry v1 (sw_srv w') lost :: sw_log w → b_objs (view (sw_srv w')) = b_objs (view v1) →
  run_backend c (with_tick (at_store m1 f) b) = (r', at_world m1 b) → result_rel c r r' → refines c w w' r b.
Proof.
  intros Hm Hc Hl Hv Hr Hres. exists (at_store m1 f), r', (at_world m1 b), [mkEntry v1 (sw_srv w') lost], [].
  split_and!; try done.
  - right. apply at_one_single; [done|]. by constructor.
  - intros [-> ->]%Hc. split_and!; [done|done|]. by eapply encodes_view.
Qed.

Lemma err_rel_refl c e : err_rel c e e.
Proof. destruct c; cbn; auto. Qed.

Lemma refines_none c w w' e b m1 f : encodes (sw_srv w') m1 → ¬ scalm w → sw_log w' = sw_log w →
  run_backend c (with_tick (at_store m1 f) b) = (Err e, at_world m1 b) → refines c w w' (Err e) b.
Proof.
  intros Hm Hc Hl Hr. exists (at_store m1 f), (Err e), (at_world m1 b), [], []. split_and!; try done; [apply err_rel_refl|by left].
Qed.

Lemma cas_error_cond ifMatch cur e : cond_err (precondition ifMatch) cur e → cas_error ifMatch e = [ErrCAS].
Proof.
  unfold cas_error. intros [->|(Hm & _ & ->)]; [done|]. case_match; [done|]. unfold precondition in Hm.
  case_bool_decide as Hi; [by destruct Hm|]. done.
Qed.

Lemma cas_error_transport ifMatch e : isNotFound e = false →
  cas_error ifMatch e = if isPreconditionFailed e then [ErrCAS] else [EIO].
Proof. unfold cas_error. intros ->. by rewrite andb_false_r. Qed.

(** Run the operation's first request. *)
Ltac one_call E Hw :=
  lazymatch type of E with
  | context [call ?op ?w] =>
      let r1 := fresh "r1" in let w1 := fresh "w1" in let Ec := fresh "Ec" in
      destruct (call op w) as [r1 w1] eqn:Ec;
      eapply call_called in Ec as (?x & -> & ?Hc & ?Hs & ?Hcalm); [|exact Hw]
  end.

(** After a write, or a request that wrote nothing, the bucket is still one of
    encodings. *)
Lemma lawful_write (w' : sworld V) key fk v1 m1 o so : full s key = Ok fk → encodes v1 m1 → enc_opt key o so →
  srv_ok (sw_srv w') → Forall (tick_ok encoded) (sw_sched w') →
  b_objs (view (sw_srv w')) = partial_alter (λ _, so) fk (b_objs (view v1)) → lawful encoded w'.
Proof. intros Hk Hm Ho Hok Hs Hv. split; [done|]. split; [|done]. eexists. by eapply encodes_write. Qed.

Lemma lawful_read (w' : sworld V) v1 m1 : encodes v1 m1 → srv_ok (sw_srv w') → Forall (tick_ok encoded) (sw_sched w') →
  b_objs (view (sw_srv w')) = b_objs (view v1) → lawful encoded w'.
Proof. intros Hm Hok Hs Hv. split; [done|]. split; [|done]. exists m1. by eapply encodes_view. Qed.

Ltac calc := cbn; unfold mbind, io_bind, Backend.PutIf, Backend.Put, Backend.Delete, Backend.Get, Backend.CopyObject; cbn.

Lemma refines_as c c' w w' r b : (∀ bw, run_backend c bw = run_backend c' bw) →
  (∀ r', result_rel c r r' → result_rel c' r r') → refines c w w' r b → refines c' w w' r b.
Proof. intros Hrun Hres (t & r' & b' & es & ws & E & Hr & Hx). exists t, r', b', es, ws. rewrite <- Hrun. split; [done|]. split; [auto|done]. Qed.

(** The request of a conditional write; the length may be announced. *)
Lemma put_if_request key fk o t n w r1 w' b : full s key = Ok fk → n = None ∨ n = Some (blen (enc o)) →
  (blen (enc o) <= single_put_max)%Z → tag_ok t → (t ≠ NoTag → cas key = true) → lawful encoded w → encodes (sw_srv w) (w_objs b) →
  call (PutObject (s_bucket s) fk (enc o) n (precondition (tag_str t))) w = (r1, w') →
  ∃ x, r1 = Ok x ∧ lawful encoded w' ∧ refines (CPutIf key o t) w w'
    (match x with SdkErr e => Err (cas_error (tag_str t) e) | Resp u => Ok (STag u) end) b.
Proof.
  intros Ek Hn Hsz Ht Hcas Hw Hb E. eapply call_called in E as (x & -> & Hc & Hs & Hcalm); [|exact Hw].
  exists x. split; [done|]. match goal with |- _ ∧ refines _ _ _ ?r0 _ => remember r0 as r eqn:Er end.
  pose (so := Some (mkSObj (enc o) (digest (enc o)))).
  assert (enc_opt key (Some o) so) as Hso by by apply enc_opt_digest.
  assert (∀ v1 x', others (sw_srv w) v1 → encoded v1 → (scalm w → v1 = sw_srv w) →
    PutObject (s_bucket s) fk (enc o) n (precondition (tag_str t)) v1 = (x', sw_srv w') →
    ∃ m1, encodes v1 m1 ∧ (scalm w → m1 = w_objs b) ∧ srv_ok (sw_srv w')
    ∧ if kv_match (m1 !! key) t then x' = Resp (digest (enc o)) ∧ b_objs (view (sw_srv w')) = partial_alter (λ _, so) fk (b_objs (view v1))
      else b_objs (view (sw_srv w')) = b_objs (view v1) ∧ ∃ e, x' = SdkErr e ∧ cas_error (tag_str t) e = [ErrCAS]) as Hput.
  { intros v1 x' Ho HQ Hv Hop. destruct (encoded_at _ _ _ Hb HQ Hv) as (m1 & Hm1 & Hcm). exists m1.
    assert (srv_ok v1) as Hok1 by apply Ho.
    pose proof (law_put _ _ _ _ _ _ _ Hok1 Hsz (precondition_noempty _) Hop) as Hp.
    rewrite bool_decide_eq_true_2 in Hp by done.
    rewrite (precondition_match key fk v1 m1 t Ek Hm1 Ht Hcas) in Hp. destruct (kv_match (m1 !! key) t).
    - destruct Hp as [-> (Hok & Hi & Hview)]. split_and!; try done. by rewrite Hview.
    - destruct Hp as [(Hok & Hi & Hview) (e & -> & He)]. split_and!; try done; [by rewrite Hview|].
      exists e. split; [done|]. by eapply cas_error_cond. }
  inversion Hc as [v1 x' Ho HQ Hv Hop Hl|v1 x' e Ho HQ Hnc Hop Hnf Hl|e Ho HQ Hnc Hnf Hl]; subst x; clear Hc.
  - destruct (Hput _ _ Ho HQ Hv Hop) as (m1 & Hm1 & Hcm & Hok & Hp). destruct (kv_match (m1 !! key) t) eqn:Ekv.
    + destruct Hp as [-> Hview]. split; [by eapply lawful_write|].
      eapply (refines_write _ _ _ _ _ key fk v1 m1 (Some o) so false FNone); try done; [naive_solver| |].
      * calc. rewrite Ekv. reflexivity.
      * by subst.
    + destruct Hp as [Hview (e & -> & He)]. split; [by eapply lawful_read|].
      eapply (refines_read _ _ _ _ _ v1 m1 false FNone); try done; [naive_solver| |].
      * calc. rewrite Ekv. reflexivity.
      * subst. by rewrite He.
  - rewrite (cas_error_transport _ _ Hnf) in Er.
    destruct (Hput _ _ Ho HQ ltac:(done) Hop) as (m1 & Hm1 & _ & Hok & Hp). destruct (kv_match (m1 !! key) t) eqn:Ekv.
    + destruct Hp as [_ Hview]. split; [by eapply lawful_write|].
      eapply (refines_write _ _ _ _ _ key fk v1 m1 (Some o) so true (if isPreconditionFailed e then FLostCAS else FLost)
        (Err (if isPreconditionFailed e then [ErrCAS] else [EIO]))); try done.
      * calc. rewrite Ekv. destruct (isPreconditionFailed e); reflexivity.
      * subst. by destruct (isPreconditionFailed e).
    + destruct Hp as [Hview _]. split; [by eapply lawful_read|].
      eapply (refines_read _ _ _ _ _ v1 m1 true (if isPreconditionFailed e then FConflict else FErr)
        (Err (if isPreconditionFailed e then [ErrCAS] else [EIO]))); try done.
      * calc. destruct (isPreconditionFailed e); reflexivity.
      * subst. by destruct (isPreconditionFailed e).
  - rewrite (cas_error_transport _ _ Hnf) in Er. destruct HQ as [m1 Hm1]. split; [eapply lawful_read; try done; apply Ho|].
    subst. eapply (refines_none _ _ _ _ _ m1 (if isPreconditionFailed e then FConflict else FErr)); try done.
    calc. destruct (isPreconditionFailed e); reflexivity.
Qed.

Lemma s3_PutIf lim key o t w r w' b : call_ok lim (CPutIf key o t) → lawful encoded w → encodes (sw_srv w) (w_objs b) →
  run_s3 lim (CPutIf key o t) w = (r, w') → lawful encoded w' ∧ refines (CPutIf key o t) w w' r b.
Proof.
  intros (Hk & Hsz & Ht & Hcas) Hw Hb E. destruct (full s key) as [fk|] eqn:Ek; [clear Hk|done].
  cbn [run_s3] in E. unfold S3.PutIf, mbind, sio_bind, mret, sio_ret, slift, sfail in E. rewrite Ek in E. cbv beta iota in E.
  destruct (call _ w) as [r1 w1] eqn:Ec. eapply put_if_request in Ec as (x & -> & H1 & H2); try done; [|by left].
  destruct x; injection E as <- <-; done.
Qed.

(** The request of an unconditional one. *)
Lemma put_request key fk o n w r1 w' b : full s key = Ok fk → n = None ∨ n = Some (blen (enc o)) →
  (blen (enc o) <= single_put_max)%Z → lawful encoded w → encodes (sw_srv w) (w_objs b) →
  call (PutObject (s_bucket s) fk (enc o) n no_conds) w = (r1, w') →
  ∃ x, r1 = Ok x ∧ lawful encoded w' ∧ refines (CPut key o) w w' (match x with SdkErr e => Err [EIO] | Resp u => Ok SUnit end) b.
Proof.
  intros Ek Hn Hsz Hw Hb E. eapply call_called in E as (x & -> & Hc & Hs & Hcalm); [|exact Hw].
  exists x. split; [done|]. match goal with |- _ ∧ refines _ _ _ ?r0 _ => remember r0 as r eqn:Er end.
  pose (so := Some (mkSObj (enc o) (digest (enc o)))).
  assert (enc_opt key (Some o) so) as Hso by by apply enc_opt_digest.
  assert (∀ v1 x', others (sw_srv w) v1 → PutObject (s_bucket s) fk (enc o) n no_conds v1 = (x', sw_srv w') →
    srv_ok (sw_srv w') ∧ x' = Resp (digest (enc o))
    ∧ b_objs (view (sw_srv w')) = partial_alter (λ _, so) fk (b_objs (view v1))) as Hput.
  { intros v1 x' Ho Hop. assert (srv_ok v1) as Hok1 by apply Ho.
    pose proof (law_put fk (enc o) n no_conds v1 x' (sw_srv w') Hok1 Hsz ltac:(done) Hop) as Hp.
    rewrite bool_decide_eq_true_2 in Hp by done. destruct Hp as [-> (Hok & Hi & Hview)].
    split; [done|]. split; [done|]. by rewrite Hview. }
  inversion Hc as [v1 x' Ho HQ Hv Hop Hl|v1 x' e Ho HQ Hnc Hop Hnf Hl|e Ho HQ Hnc Hnf Hl]; subst x; clear Hc.
  - destruct (Hput _ _ Ho Hop) as (Hok & -> & Hview). destruct (encoded_at _ _ _ Hb HQ Hv) as (m1 & Hm1 & Hcm).
    split; [by eapply lawful_write|].
    eapply (refines_write _ _ _ _ _ key fk v1 m1 (Some o) so false FNone (Ok RUnit)); try done; [naive_solver|by subst].
  - destruct (Hput _ _ Ho Hop) as (Hok & -> & Hview). destruct HQ as [m1 Hm1].
    split; [by eapply lawful_write|].
    eapply (refines_write _ _ _ _ _ key fk v1 m1 (Some o) so true FLost (Err [EIO])); try done. by subst.
  - destruct HQ as [m1 Hm1]. split; [eapply lawful_read; try done; apply Ho|].
    subst. by eapply (refines_none _ _ _ _ _ m1 FErr).
Qed.

Lemma s3_Put lim key o w r w' b : call_ok lim (CPut key o) → lawful encoded w → encodes (sw_srv w) (w_objs b) →
  run_s3 lim (CPut key o) w = (r, w') → lawful encoded w' ∧ refines (CPut key o) w w' r b.
Proof.
  intros (Hk & Hsz) Hw Hb E. destruct (full s key) as [fk|] eqn:Ek; [clear Hk|done].
  cbn [run_s3] in E. unfold S3.Put, mbind, sio_bind, mret, sio_ret, slift, sfail in E. rewrite Ek in E. cbv beta iota in E.
  destruct (call _ w) as [r1 w1] eqn:Ec. eapply put_request in Ec as (x & -> & H1 & H2); try done; [|by left].
  destruct x; injection E as <- <-; done.
Qed.

Lemma s3_Delete lim key w r w' b : call_ok lim (CDelete key) → lawful encoded w → encodes (sw_srv w) (w_objs b) →
  run_s3 lim (CDelete key) w = (r, w') → lawful encoded w' ∧ refines (CDelete key) w w' r b.
Proof.
  intros Hk Hw Hb E. cbn in Hk. destruct (full s key) as [fk|] eqn:Ek; [clear Hk|done].
  cbn [run_s3] in E. unfold S3.Delete, mbind, sio_bind, mret, sio_ret, slift, sfail in E. rewrite Ek in E. cbv beta iota in E.
  one_call E Hw.
  assert (w1 = w' ∧ r = match x with SdkErr e => if isNotFound e then Ok SUnit else Err [EIO] | Resp u => Ok SUnit end) as [-> Er]
    by (destruct x as [|e]; [|destruct (isNotFound e)]; simplify_eq/=; done). clear E.
  inversion Hc as [v1 x' Ho HQ Hv Hop Hl|v1 x' e Ho HQ Hn Hop Hnf Hl|e Ho HQ Hn Hnf Hl]; subst x; clear Hc.
  - pose proof (law_delete _ _ _ _ ltac:(apply Ho) Hop) as (-> & Hok & _ & Hview).
    destruct (encoded_at _ _ _ Hb HQ Hv) as (m1 & Hm1 & Hcm).
    assert (b_objs (view (sw_srv w')) = partial_alter (λ _, None) fk (b_objs (view v1))) as Hview' by by rewrite Hview.
    split; [by eapply (lawful_write w' key fk v1 m1 None None)|].
    eapply (refines_write _ _ _ _ _ key fk v1 m1 None None false FNone (Ok RUnit)); try done; [naive_solver|by subst].
  - pose proof (law_delete _ _ _ _ ltac:(apply Ho) Hop) as (-> & Hok & _ & Hview). destruct HQ as [m1 Hm1].
    assert (b_objs (view (sw_srv w')) = partial_alter (λ _, None) fk (b_objs (view v1))) as Hview' by by rewrite Hview.
    split; [by eapply (lawful_write w' key fk v1 m1 None None)|].
    eapply (refines_write _ _ _ _ _ key fk v1 m1 None None true FLost (Err [EIO])); try done. subst. by rewrite Hnf.
  - destruct HQ as [m1 Hm1]. split; [eapply lawful_read; try done; apply Ho|].
    rewrite Hnf in Er. subst. by eapply (refines_none _ _ _ _ _ m1 FErr).
Qed.

(** Reading the body takes time, in which the others move. *)
Lemma ReadAll_lawful Q body w r w' : lawful Q w → ReadAll body w = (r, w') →
  lawful Q w' ∧ sw_log w' = sw_log w ∧ others (sw_srv w) (sw_srv w')
  ∧ (r = Ok body ∨ r = Err [EIO] ∧ ¬ scalm w) ∧ (scalm w → sw_srv w' = sw_srv w ∧ scalm w').
Proof.
  intros Hw E. unfold ReadAll in E. destruct (snext w) as [t w1] eqn:Et.
  destruct (snext_lawful _ _ _ _ Hw Et) as (Hw1 & Ho & Hf & Hl & Hc).
  destruct (st_fault t) eqn:Ef; simplify_eq/=; (split; [done|]; split; [done|]; split; [done|]; split; [|naive_solver]).
  - right. split; [done|]. intros Hs. destruct (Hc Hs) as (_ & _ & ?). congruence.
  - by left.
Qed.

Lemma s3_Get lim key w r w' b : call_ok lim (CGet key) → lawful encoded w → encodes (sw_srv w) (w_objs b) →
  run_s3 lim (CGet key) w = (r, w') → lawful encoded w' ∧ refines (CGet key) w w' r b.
Proof.
  intros Hk Hw Hb E. cbn in Hk. destruct (full s key) as [fk|] eqn:Ek; [clear Hk|done].
  cbn [run_s3] in E. unfold S3.Get, mbind, sio_bind, mret, sio_ret, slift, sfail in E. rewrite Ek in E. cbv beta iota in E.
  one_call E Hw.
  assert (srv_ok (sw_srv w1) ∧ encoded (sw_srv w1)) as Hw1.
  { inversion Hc as [v1 x' Ho HQ Hv Hop Hl|v1 x' e Ho HQ Hn Hop Hnf Hl|e Ho HQ Hn Hnf Hl]; subst; [| |split; [apply Ho|done]];
      destruct (law_get _ _ _ _ ltac:(apply Ho) (full_nonempty _ _ Ek) Hop) as [(Hok & Hi & Hview) _];
      (split; [done|]; destruct HQ as [m1 Hm1]; exists m1; eapply encodes_view; [by rewrite Hview|done]). }
  destruct Hw1 as [Hok1 HQ1].
  inversion Hc as [v1 x' Ho HQ Hv Hop Hl|v1 x' e Ho HQ Hn Hop Hnf Hl|e Ho HQ Hn Hnf Hl]; subst x; clear Hc.
  - destruct (encoded_at _ _ _ Hb HQ Hv) as (m1 & Hm1 & Hcm).
    destruct (law_get _ _ _ _ ltac:(apply Ho) (full_nonempty _ _ Ek) Hop) as [(Hok & Hi & Hview) Hx].
    pose proof (Hm1 key fk Ek) as Hk1.
    destruct (b_objs (view v1) !! fk) as [[d etag]|] eqn:Eo; last first.
    { destruct Hx as (e & -> & He). destruct (m1 !! key) eqn:Em; [done|]. rewrite He in E. simplify_eq/=.
      split; [by split|]. eapply (refines_read _ _ _ _ _ v1 m1 false FNone (Err [ErrNotFound])); try done.
      - naive_solver.
      - by rewrite Hview.
      - calc. unfold kv_get. by rewrite Em. }
    subst x'. destruct (m1 !! key) as [o|] eqn:Em; [|done]. destruct Hk1 as [Hd Het]. cbn in Hd, Het. subst d.
    destruct (ReadAll (enc o) w1) as [r2 w2] eqn:Er.
    destruct (ReadAll_lawful encoded _ _ _ _ ltac:(by split) Er) as (Hw2 & Hl2 & Ho2 & Hr2 & Hc2).
    assert (w2 = w' ∧ r = match r2 with Ok d => Ok (SGet d etag) | Err e => Err e end) as [-> Er'].
    { cbn [so_data so_etag] in E. rewrite Er in E. destruct r2; simplify_eq/=; done. } clear E.
    assert (∀ f r', (scalm w → f = FNone) → run_backend (CGet key) (with_tick (at_store m1 f) b) = (r', at_world m1 b) →
      result_rel (CGet key) r r' → refines (CGet key) w w' r b) as Hfin.
    { intros f r' Hf Hrun Hres. exists (at_store m1 f), r', (at_world m1 b), [mkEntry v1 (sw_srv w1) false], [].
      split_and!; try done; [by rewrite Hl2, Hl|..].
      - right. apply at_one_single; [done|]. constructor. unfold unchanged. cbn. by rewrite Hview.
      - intros Hsc. rewrite (Hf Hsc). destruct (Hc2 (Hcalm Hsc)) as [-> _]. rewrite (Hcm Hsc) in *.
        split_and!; try done. cbn. eapply encodes_view; [|exact Hm1]. by rewrite Hview. }
    split; [done|]. destruct Hr2 as [->|[-> Hn2]]; subst r.
    + apply (Hfin FNone (Ok (RGet o (TagOf o)))); [done| |].
      * calc. unfold kv_get. by rewrite Em.
      * cbn. split_and!; try done. intros Hcas. by apply Het.
    + apply (Hfin FErr (Err [EIO])); [|done|done]. naive_solver.
  - rewrite Hnf in E. simplify_eq/=. destruct HQ as [m1 Hm1].
    destruct (law_get _ _ _ _ ltac:(apply Ho) (full_nonempty _ _ Ek) Hop) as [(Hok & Hi & Hview) _].
    split; [by split|]. eapply (refines_read _ _ _ _ _ v1 m1 true FErr (Err [EIO])); try done. by rewrite Hview.
  - rewrite Hnf in E. simplify_eq/=. destruct HQ as [m1 Hm1].
    split; [by split|]. by eapply (refines_none _ _ _ _ _ m1 FErr).
Qed.

(** [Head] is a [Get] that leaves the bytes. *)
Lemma s3_Head lim key w r w' b : call_ok lim (CHead key) → lawful encoded w → encodes (sw_srv w) (w_objs b) →
  run_s3 lim (CHead key) w = (r, w') → lawful encoded w' ∧ refines (CHead key) w w' r b.
Proof.
  intros Hk Hw Hb E. cbn in Hk. destruct (full s key) as [fk|] eqn:Ek; [clear Hk|done].
  cbn [run_s3] in E. unfold S3.Head, mbind, sio_bind, mret, sio_ret, slift, sfail in E. rewrite Ek in E. cbv beta iota in E.
  one_call E Hw.
  inversion Hc as [v1 x' Ho HQ Hv Hop Hl|v1 x' e Ho HQ Hn Hop Hnf Hl|e Ho HQ Hn Hnf Hl]; subst x; clear Hc.
  - destruct (encoded_at _ _ _ Hb HQ Hv) as (m1 & Hm1 & Hcm).
    destruct (law_head _ _ _ _ ltac:(apply Ho) Hop) as [(Hok & Hi & Hview) Hx]. pose proof (Hm1 key fk Ek) as Hk1.
    assert (lawful encoded w1) as Hw1 by (eapply lawful_read; [done..|by rewrite Hview]).
    destruct (b_objs (view v1) !! fk) as [[d etag]|] eqn:Eo.
    + subst x'. destruct (m1 !! key) as [o|] eqn:Em; [|done]. destruct Hk1 as [Hd Het]. cbn in Hd, Het, E. subst d.
      simplify_eq/=. split; [done|].
      eapply (refines_read _ _ _ _ _ v1 m1 false FNone (Ok (RGet o (TagOf o)))); try done.
      * naive_solver.
      * by rewrite Hview.
      * calc. unfold kv_get. by rewrite Em.
      * cbn. split_and!; try done. intros Hcas. by apply Het.
    + destruct Hx as (e & -> & He). destruct (m1 !! key) eqn:Em; [done|]. rewrite He in E. simplify_eq/=.
      split; [done|]. eapply (refines_read _ _ _ _ _ v1 m1 false FNone (Err [ErrNotFound])); try done.
      * naive_solver.
      * by rewrite Hview.
      * calc. unfold kv_get. by rewrite Em.
  - rewrite Hnf in E. simplify_eq/=. destruct HQ as [m1 Hm1].
    destruct (law_head _ _ _ _ ltac:(apply Ho) Hop) as [(Hok & Hi & Hview) _].
    split; [eapply lawful_read; [done..|by rewrite Hview]|].
    eapply (refines_read _ _ _ _ _ v1 m1 true FErr (Err [EIO])); try done. by rewrite Hview.
  - rewrite Hnf in E. simplify_eq/=. destruct HQ as [m1 Hm1].
    split; [split; [apply Ho|]; split; [by exists m1|done]|]. by eapply (refines_none _ _ _ _ _ m1 FErr).
Qed.

(** Reading the stream to its end is [Get]. *)
Lemma GetReader_Get key w : S3.Get s key w = ('(body, etag) ← S3.GetReader s key; data ← ReadAll body; mret (data, etag)) w.
Proof.
  unfold S3.Get, S3.GetReader, mbind, sio_bind, mret, sio_ret, slift, sfail. destruct (full s key) as [fk|]; [|done].
  by destruct (call (GetObject (s_bucket s) fk) w) as [[[[b e]|e]|e] w1].
Qed.

Lemma s3_GetReader lim key w r w' b : call_ok lim (CGetReader key) → lawful encoded w → encodes (sw_srv w) (w_objs b) →
  run_s3 lim (CGetReader key) w = (r, w') → lawful encoded w' ∧ refines (CGetReader key) w w' r b.
Proof.
  intros Hk Hw Hb E. assert (run_s3 lim (CGet key) w = (r, w')) as E'.
  { rewrite <-E. cbn [run_s3]. unfold mbind at 1, sio_bind at 1. rewrite GetReader_Get.
    unfold mbind, sio_bind, mret, sio_ret. destruct (S3.GetReader s key w) as [[[body t]|e] w1]; [|done].
    by destruct (ReadAll body w1) as [[d|e] w2]. }
  eapply s3_Get in E' as [H1 H2]; [|done..]. split; [done|]. by eapply refines_as; [| |exact H2].
Qed.

(** A call of two requests: the first only reads. *)
Lemma refines_second c w w' r b e1 e2 m2 f r' b' ws :
  sw_log w' = e2 :: e1 :: sw_log w → b_objs (view (en_after e1)) = b_objs (view (en_before e1)) →
  encodes (en_before e2) m2 → (scalm w → m2 = w_objs b ∧ f = FNone ∧ encodes (sw_srv w') (w_objs b')) →
  explains e2 ws → w_log b' = (ws ++ w_log b)%list →
  run_backend c (with_tick (at_store m2 f) b) = (r', b') → result_rel c r r' → refines c w w' r b.
Proof.
  intros Hl He1 Hm Hc Hex Hlb Hr Hres. exists (at_store m2 f), r', b', [e2; e1], ws. split_and!; try done.
  - right. exists [], e2, [e1]. split_and!; try done. by apply Forall_singleton.
  - intros (-> & -> & ?)%Hc. done.
Qed.

Lemma s3_Copy lim dst src w r w' b : call_ok lim (CCopy dst src) → c_copy (w_caps b) = true →
  lawful encoded w → encodes (sw_srv w) (w_objs b) →
  run_s3 lim (CCopy dst src) w = (r, w') → lawful encoded w' ∧ refines (CCopy dst src) w w' r b.
Proof.
  intros (Hkd & Hks & Hcas & Hlim) Hcopy Hw Hb E. destruct (full s dst) as [fd|] eqn:Ed; [clear Hkd|done].
  destruct (full s src) as [fs|] eqn:Es; [clear Hks|done].
  cbn [run_s3] in E. unfold S3.CopyObject, mbind, sio_bind, mret, sio_ret, slift, sfail in E.
  rewrite Es, Ed in E. cbv beta iota in E. one_call E Hw.
  assert (srv_ok (sw_srv w1) ∧ encoded (sw_srv w1)) as Hw1.
  { inversion Hc as [v1 x' Ho HQ Hv Hop Hl|v1 x' e Ho HQ Hn Hop Hnf Hl|e Ho HQ Hn Hnf Hl]; subst; [| |split; [apply Ho|done]];
      destruct (law_head _ _ _ _ ltac:(apply Ho) Hop) as [(Hok & Hi & Hview) _];
      (split; [done|]; destruct HQ as [m1 Hm1]; exists m1; eapply encodes_view; [by rewrite Hview|done]). }
  inversion Hc as [v1 x' Ho HQ Hv Hop Hl|v1 x' e Ho HQ Hn Hop Hnf Hl|e Ho HQ Hn Hnf Hl]; subst x; clear Hc.
  2:{ rewrite Hnf in E. simplify_eq/=. destruct HQ as [m1 Hm1].
    destruct (law_head _ _ _ _ ltac:(apply Ho) Hop) as [(Hok & Hi & Hview) _].
    split; [split; tauto|]. eapply (refines_read _ _ _ _ _ v1 m1 true FErr (Err [EIO])); try done; [by rewrite Hview|].
    calc. by rewrite Hcopy. }
  2:{ rewrite Hnf in E. simplify_eq/=. destruct HQ as [m1 Hm1]. split; [split; tauto|].
    eapply (refines_none _ _ _ _ _ m1 FErr); try done. calc. by rewrite Hcopy. }
  destruct (encoded_at _ _ _ Hb HQ Hv) as (m1 & Hm1 & Hcm). pose proof (Hm1 src fs Es) as Hk1.
  destruct (law_head _ _ _ _ ltac:(apply Ho) Hop) as [(Hok & Hi & Hview) Hx].
  destruct (b_objs (view v1) !! fs) as [[d etag]|] eqn:Eo; last first.
  { destruct Hx as (e & -> & He). destruct (m1 !! src) eqn:Em; [done|]. rewrite He in E. simplify_eq/=.
    split; [split; tauto|]. eapply (refines_read _ _ _ _ _ v1 m1 false FNone (Err [ErrNotFound])); try done.
    - naive_solver.
    - by rewrite Hview.
    - calc. rewrite Hcopy. cbn. by rewrite Em. }
  subst x'. destruct (m1 !! src) as [o|] eqn:Em; [|done]. destruct Hk1 as [Hd Het]. cbn in Hd, Het. subst d.
  destruct (Het Hcas) as [_ Hsz]. cbn [so_data so_etag] in E.
  destruct (Z.ltb_spec s3MaxObjectBytes (blen (enc o))) as [Hbig|_];
    [unfold s3MaxObjectBytes, single_put_max, MiB in *; lia|].
  destruct (Z.ltb_spec (copyObjectMaxBytes lim) (blen (enc o))) as [Hbig|_]; [lia|].
  assert (lawful encoded w1) as Hw1' by (split; tauto). clear Hw1 Hop.
  match type of E with context [call ?op w1] => destruct (call op w1) as [r2 w2] eqn:Ec2 end.
  destruct (call_called _ _ _ _ _ Hw1' Ec2) as (x & -> & Hc & Hs2 & Hcalm2).
  assert (w2 = w' ∧ r = match x with SdkErr e => Err (if isNotFound e then [ErrNotFound] else [EIO]) | Resp u => Ok SUnit end)
    as [-> Er] by (destruct x as [|e]; [|destruct (isNotFound e)]; simplify_eq/=; done). clear E Ec2.
  assert (∀ v2 x', others (sw_srv w1) v2 → encoded v2 → (scalm w → v2 = sw_srv w1) →
    CopyObjectReq (s_bucket s) fd (s3CopySource (s_bucket s) fs) v2 = (x', sw_srv w') →
    ∃ m2, encodes v2 m2 ∧ (scalm w → m2 = w_objs b) ∧ srv_ok (sw_srv w') ∧
    match m2 !! src with
    | Some o2 => x' = Resp () ∧ enc_opt dst (Some o2) (Some (mkSObj (enc o2) (digest (enc o2))))
        ∧ b_objs (view (sw_srv w')) = partial_alter (λ _, Some (mkSObj (enc o2) (digest (enc o2)))) fd (b_objs (view v2))
    | None => b_objs (view (sw_srv w')) = b_objs (view v2) ∧ ∃ e, x' = SdkErr e ∧ isNotFound e = true
    end) as Hcp.
  { intros v2 x' Ho2 [m Hm] Hv2 Hop.
    assert (∃ m2, encodes v2 m2 ∧ (scalm w → m2 = w_objs b)) as (m2 & Hm2 & Hcm2).
    { destruct (sw_sched w) eqn:Esw.
      - exists m1. split; [|done]. eapply encodes_view; [|exact Hm1]. by rewrite (Hv2 Esw), Hview.
      - exists m. split; [done|]. unfold scalm. by rewrite Esw. }
    exists m2. split; [done|]. split; [done|]. pose proof (Hm2 src fs Es) as Hk2.
    pose proof (law_copy _ _ _ _ _ ltac:(apply Ho2) Hop) as Hp. destruct (b_objs (view v2) !! fs) as [[d2 etag2]|].
    - destruct (m2 !! src) as [o2|]; [|done]. destruct Hk2 as [Hd2 Het2]. cbn in Hd2, Het2, Hp. subst d2.
      destruct (Het2 Hcas) as [_ Hsz2]. destruct (Hp Hsz2) as [-> (Hok2 & _ & Hview2)].
      split_and!; [done..|by apply enc_opt_digest|by rewrite Hview2].
    - destruct (m2 !! src); [done|]. destruct Hp as [(Hok2 & _ & Hview2) He]. split_and!; try done. by rewrite Hview2. }
  inversion Hc as [v2 x' Ho2 HQ2 Hv2 Hop Hl2|v2 x' e Ho2 HQ2 Hn Hop Hnf Hl2|e Ho2 HQ2 Hn Hnf Hl2]; subst x; clear Hc; rewrite Hl in Hl2.
  - destruct (Hcp v2 x' Ho2 HQ2 ltac:(auto) Hop) as (m2 & Hm2 & Hcm2 & Hok2 & Hp). destruct (m2 !! src) as [o2|] eqn:Em2.
    + destruct Hp as (-> & Henc & Hview2).
      split; [by apply (lawful_write _ _ _ _ _ _ _ Ed Hm2 Henc Hok2 Hs2 Hview2)|]. subst r.
      eapply (refines_second _ _ _ _ _ _ _ m2 FNone (Ok RUnit) (store_at dst (Some o2) (at_world m2 b)) [_]);
        [exact Hl2|by cbn; rewrite Hview|exact Hm2| | |reflexivity| |done].
      * intros Hsc. rewrite (Hcm2 Hsc) in *. split_and!; try done. cbn. by eapply encodes_write.
      * eapply explains_write; [exact Ed|exact Hview2|by apply Hm2|exact Henc].
      * calc. rewrite Hcopy. cbn. by rewrite Em2.
    + destruct Hp as (Hview2 & e & -> & He). rewrite He in Er. subst r. split; [by eapply lawful_read|].
      eapply (refines_second _ _ _ _ _ _ _ m2 FNone (Err [ErrNotFound]) (at_world m2 b) []);
        [exact Hl2|by cbn; rewrite Hview|exact Hm2| | |done| |done].
      * intros Hsc. rewrite (Hcm2 Hsc) in *. split_and!; try done. cbn. by eapply encodes_view.
      * by constructor.
      * calc. rewrite Hcopy. cbn. by rewrite Em2.
  - rewrite Hnf in Er. subst r. assert (¬ scalm w) as Hn' by auto.
    destruct (Hcp v2 x' Ho2 HQ2 ltac:(done) Hop) as (m2 & Hm2 & _ & Hok2 & Hp). destruct (m2 !! src) as [o2|] eqn:Em2.
    + destruct Hp as (-> & Henc & Hview2).
      split; [by apply (lawful_write _ _ _ _ _ _ _ Ed Hm2 Henc Hok2 Hs2 Hview2)|].
      eapply (refines_second _ _ _ _ _ _ _ m2 FLost (Err [EIO]) (store_at dst (Some o2) (at_world m2 b)) [_]);
        [exact Hl2|by cbn; rewrite Hview|exact Hm2|done| |reflexivity| |done].
      * eapply explains_write; [exact Ed|exact Hview2|by apply Hm2|exact Henc].
      * calc. rewrite Hcopy. cbn. by rewrite Em2.
    + destruct Hp as (Hview2 & _). split; [by eapply lawful_read|].
      eapply (refines_second _ _ _ _ _ _ _ m2 FErr (Err [EIO]) (at_world m2 b) []);
        [exact Hl2|by cbn; rewrite Hview|exact Hm2|done| |done| |done].
      * by constructor.
      * calc. by rewrite Hcopy.
  - rewrite Hnf in Er. subst r. split; [split; [apply Ho2|done]|].
    exists (at_store m1 FErr), (Err [EIO]), (at_world m1 b), [mkEntry v1 (sw_srv w1) false], []. split_and!; try done.
    + calc. by rewrite Hcopy.
    + right. apply at_one_single; [done|]. constructor. unfold unchanged. cbn. by rewrite Hview.
    + intros Hsc. by destruct (Hn (Hcalm Hsc)).
Qed.
End s3_props.

(** ** The parts of an upload

    [part_plan]: the parts the S3 backend cuts an object into are what the service
    accepts, and no computation of a size or a number wraps; [concat_parts]: put
    together they are the object. *)
Local Open Scope Z_scope.

Lemma i64_small z : - 2 ^ 63 <= z < 2 ^ 63 → i64 z = z.
Proof. intros Hz. unfold i64. rewrite Z.mod_small; [lia|]. change (2 ^ 64) with (2 ^ 63 + 2 ^ 63). lia. Qed.

Lemma i32_small z : - 2 ^ 31 <= z < 2 ^ 31 → i32 z = z.
Proof. intros Hz. unfold i32. rewrite Z.mod_small; [lia|]. change (2 ^ 32) with (2 ^ 31 + 2 ^ 31). lia. Qed.

Ltac sizes := unfold object_max, single_put_max, part_min, minPartSize, maxParts, MiB in *.

(** No size in play comes near the ends of [int64]. *)
Lemma i64_size z : - (2 * object_max) <= z <= 2 * object_max → i64 z = z.
Proof. intros Hz. apply i64_small. sizes. lia. Qed.

Section parts.
Context (lim : limits) (size : Z).
Hypothesis Hlim : lim_ok lim.
Hypothesis Hsize : 0 < size <= object_max.

Abbreviation ps := (partSizeFor lim size).
Abbreviation num := (numParts size ps).

Lemma partSizeFor_spec : minPartSize <= ps <= single_put_max ∧ size <= maxParts * ps.
Proof.
  unfold partSizeFor. destruct Hlim as [Hd _]. rewrite (i64_size (size + maxParts)), i64_size by (sizes; lia).
  rewrite Z.quot_div_nonneg by (sizes; lia).
  pose proof (Z.div_mod (size + maxParts - 1) maxParts ltac:(done)) as Hm.
  pose proof (Z.mod_pos_bound (size + maxParts - 1) maxParts ltac:(done)) as Hb.
  assert ((size + maxParts - 1) / maxParts <= single_put_max) by (apply Z.div_le_upper_bound; sizes; lia).
  revert Hm Hb H. generalize ((size + maxParts - 1) / maxParts). intros q.
  generalize ((size + maxParts - 1) mod maxParts). intros m Hm Hb H.
  destruct (Z.ltb_spec (defaultPartSize lim) q); [destruct (Z.ltb_spec q minPartSize)|
    destruct (Z.ltb_spec (defaultPartSize lim) minPartSize)]; sizes; lia.
Qed.

Lemma numParts_spec : 1 <= num <= maxParts ∧ (num - 1) * ps < size <= num * ps.
Proof.
  destruct partSizeFor_spec as [Hps Hmax]. unfold numParts. revert Hps Hmax. generalize ps. intros p Hps Hmax.
  rewrite (i64_size (size + p)), i64_size by (sizes; lia). rewrite Z.quot_div_nonneg by (sizes; lia).
  pose proof (Z.div_mod (size + p - 1) p ltac:(sizes; lia)) as Hm.
  pose proof (Z.mod_pos_bound (size + p - 1) p ltac:(sizes; lia)) as Hb.
  assert (1 <= (size + p - 1) / p) by (apply Z.div_le_lower_bound; sizes; lia).
  assert ((size + p - 1) / p < maxParts + 1) by (apply Z.div_lt_upper_bound; sizes; lia).
  revert Hm Hb H H0. generalize ((size + p - 1) / p). intros q. generalize ((size + p - 1) mod p). intros m Hm Hb H H0.
  rewrite i32_small by (sizes; lia). nia.
Qed.

Lemma partLen_spec i : 1 <= i <= num →
  partLen size ((i - 1) * ps) ps = if (i <? num)%Z then ps else size - (num - 1) * ps.
Proof.
  intros Hi. destruct partSizeFor_spec as [Hps Hmax]. destruct numParts_spec as [Hn Hs]. revert Hps Hmax Hn Hs Hi.
  generalize num. generalize ps. intros p n Hps Hmax Hn Hs Hi. unfold partLen.
  assert (0 <= (i - 1) * p < size) by nia. rewrite i64_size by (sizes; lia).
  destruct (Z.ltb_spec i n).
  - destruct (Z.ltb_spec (size - (i - 1) * p) p); [nia|done].
  - assert (i = n) as -> by lia. destruct (Z.ltb_spec (size - (n - 1) * p) p); lia.
Qed.

Lemma offset_spec i : 1 <= i <= num → i64 ((i - 1) * ps) = (i - 1) * ps ∧ 0 <= (i - 1) * ps < size.
Proof.
  intros Hi. destruct partSizeFor_spec as [Hps _]. destruct numParts_spec as [Hn Hs]. revert Hps Hn Hs Hi.
  generalize num. generalize ps. intros p n Hps Hn Hs Hi. assert (0 <= (i - 1) * p < size) by nia.
  split; [|done]. apply i64_size. sizes. lia.
Qed.

(** C40: Every object the service can hold is cut into at most 10,000 parts, all but
    the last of the same size, from 5 MiB to 5 GiB; the parts cover the object. *)
Theorem part_plan :
  5 * MiB <= ps <= 5 * 1024 * MiB ∧ 1 <= num <= 10000
  ∧ (∀ i, 1 <= i < num → partLen size (i64 ((i - 1) * ps)) ps = ps)
  ∧ 0 < partLen size (i64 ((num - 1) * ps)) ps <= ps
  ∧ (num - 1) * ps + partLen size (i64 ((num - 1) * ps)) ps = size.
Proof.
  destruct partSizeFor_spec as [Hps _]. destruct numParts_spec as [Hn Hs]. split; [exact Hps|]. split; [exact Hn|].
  split.
  - intros i Hi. destruct (offset_spec i) as [-> _]; [lia|]. rewrite partLen_spec by lia.
    destruct (Z.ltb_spec i num); [done|lia].
  - destruct (offset_spec num) as [-> _]; [lia|]. rewrite partLen_spec by lia. rewrite Z.ltb_irrefl. lia.
Qed.

(** The [n]-th part of the bytes from [base] on. *)
Definition part_at (data : bytes) (base n : Z) : bytes :=
  section data (base + (n - 1) * ps) (partLen size ((n - 1) * ps) ps).

Lemma part_len data base n : 0 <= base → base + size <= blen data → 1 <= n <= num →
  blen (part_at data base n) = partLen size ((n - 1) * ps) ps.
Proof.
  intros Hb Hd Hn. pose proof (partLen_spec n Hn) as Hp. destruct (offset_spec n Hn) as [_ Ho].
  destruct partSizeFor_spec as [Hps _]. destruct numParts_spec as [_ Hs].
  assert (0 <= partLen size ((n - 1) * ps) ps ∧ (n - 1) * ps + partLen size ((n - 1) * ps) ps <= size) as Hl.
  { rewrite Hp. revert Hps Hs Hn Ho. generalize num. generalize ps. intros p k Hps Hs Hn Ho.
    destruct (Z.ltb_spec n k); [sizes; nia|]. assert (n = k) as -> by lia. lia. }
  unfold part_at, section, blen in *. rewrite length_take, length_drop. lia.
Qed.

(** The first [n] parts, put together. *)
Lemma concat_first data base n : 0 <= base → (n <= Z.to_nat num)%nat →
  concat (part_at data base <$> seqZ 1 (Z.of_nat n)) = section data base (Z.min size (Z.of_nat n * ps)).
Proof.
  intros Hb. induction n as [|n IH]; intros Hn.
  { rewrite seqZ_nil by lia. unfold section. rewrite Z.min_r by (destruct Hsize; lia). done. }
  replace (Z.of_nat (S n)) with (Z.of_nat n + 1) by lia. rewrite seqZ_app by lia. rewrite fmap_app, concat_app, IH by lia.
  rewrite (seqZ_cons _ 1) by lia. rewrite (seqZ_nil _ (Z.pred 1)) by lia. cbn [fmap list_fmap concat]. rewrite app_nil_r.
  unfold part_at. set (k := 1 + Z.of_nat n). assert (1 <= k <= num) as Hk by lia.
  rewrite (partLen_spec k Hk). destruct (offset_spec k Hk) as [_ Ho].
  destruct partSizeFor_spec as [Hps _]. destruct numParts_spec as [_ Hs].
  replace (Z.of_nat n) with (k - 1) by lia. revert Hps Hs Hk Ho. generalize num. generalize ps. intros p q Hps Hs Hk Ho.
  rewrite (Z.min_r size ((k - 1) * p)) by lia.
  assert (Z.min size ((k - 1 + 1) * p) = (k - 1) * p + (if k <? q then p else size - (q - 1) * p)) as ->.
  { destruct (Z.ltb_spec k q); [rewrite Z.min_r; nia|]. assert (k = q) as -> by lia. rewrite Z.min_l; nia. }
  assert (0 <= (if k <? q then p else size - (q - 1) * p)) as Hl by (destruct (Z.ltb_spec k q); sizes; lia).
  revert Hl. generalize (if k <? q then p else size - (q - 1) * p). intros l Hl.
  unfold section. rewrite (Z2Nat.inj_add base), (Z2Nat.inj_add _ l) by lia.
  rewrite <- drop_drop. apply take_take_drop.
Qed.

Lemma concat_parts data base : 0 <= base →
  concat (part_at data base <$> seqZ 1 num) = section data base size.
Proof.
  intros Hb. destruct numParts_spec as [Hn Hs]. pose proof (concat_first data base (Z.to_nat num) Hb ltac:(lia)) as H.
  rewrite Z2Nat.id in H by lia. rewrite H. f_equal. lia.
Qed.
End parts.
