(* ===== verification/S3Multipart.v ===== *)
(** * Multipart uploads: one request at a time

    [up_inv]: the parts an upload has acknowledged are in it, with the bytes they
    should have.  It is kept by the other clients and by every part uploaded or
    copied, in any order; the loops that upload the parts end with all of them. *)
From Stdlib Require Import Ascii String Strings.Byte.
From S2P Require Import Prelude GoStrings Keys GoUrl Refs Backend Files S3Api S3 S3Props.
Local Open Scope Z_scope.

Section multipart.
Context {V : Type} `{S3Client V} `{S3View V} (s : S3) `{!S3Laws V (s_bucket s)}.

(** What all clients keep true speaks of objects only. *)
Context (Q : V → Prop).
Hypothesis Q_objs : ∀ v v', b_objs (view v') = b_objs (view v) → Q v → Q v'.

(** ** Requests that change no object *)

Definition quiet_entry (e : entry V) : Prop :=
  b_objs (view (en_after e)) = b_objs (view (en_before e)) ∧ Q (en_before e)
  ∧ ∀ i, b_uploads (view (en_before e)) !! i = None → b_uploads (view (en_after e)) !! i = None.

(** The objects are those of [v]. *)
Definition met (v : V) (e : entry V) : Prop := b_objs (view (en_before e)) = b_objs (view v).

(** From [w] to [w'] the program made only requests that are [P], none of which
    changed an object. *)
Definition went (P : entry V → Prop) (w w' : sworld V) : Prop :=
  lawful Q w' ∧ (∀ i, issued (sw_srv w) i → issued (sw_srv w') i)
  ∧ ∃ es, sw_log w' = (es ++ sw_log w)%list ∧ Forall P es
    ∧ (scalm w → scalm w' ∧ b_objs (view (sw_srv w')) = b_objs (view (sw_srv w)) ∧ Forall (met (sw_srv w)) es).

Abbreviation inner := (went quiet_entry).

Lemma inner_refl P w : lawful Q w → went P w w.
Proof. intros Hw. split; [done|]. split; [done|]. by exists []. Qed.

Lemma inner_trans P w1 w2 w3 : went P w1 w2 → went P w2 w3 → went P w1 w3.
Proof.
  intros (L1 & I1 & (es1 & E1 & F1 & C1)) (L2 & I2 & (es2 & E2 & F2 & C2)). split; [done|]. split; [auto|].
  exists (es2 ++ es1)%list. rewrite E2, E1, app_assoc. split; [done|]. split; [by apply Forall_app|].
  intros (Hc & E & M1)%C1. destruct (C2 Hc) as (? & E' & M2). split; [done|]. split; [congruence|].
  apply Forall_app. split; [|done]. eapply Forall_impl; [exact M2|]. unfold met. intros. congruence.
Qed.

Lemma inner_calm P w w' : went P w w' → scalm w → scalm w' ∧ b_objs (view (sw_srv w')) = b_objs (view (sw_srv w)).
Proof. intros (_ & _ & es & _ & _ & Hc) Hs. destruct (Hc Hs) as (? & ? & _). done. Qed.

Lemma went_weaken (P P' : entry V → Prop) w w' : (∀ e, P e → P' e) → went P w w' → went P' w w'.
Proof.
  intros HP (L & I & es & E & F & C). split; [done|]. split; [done|]. exists es. split; [done|]. split; [|done].
  by eapply Forall_impl.
Qed.

(** The invariant of upload [id] of key [fk], created with algorithm [alg]. *)
Section upload.
Context (fk id alg : string) (f : Z → bytes).

Definition up_inv (cps : list CompletedPart) (v : V) : Prop :=
  issued v id ∧ ∀ up, b_uploads (view v) !! id = Some up →
    up_key up = fk ∧ up_alg up = alg ∧ Forall (λ cp, part_named up cp (f (PartNumber cp))) cps.

(** Nobody has aborted it. *)
Definition pending (v : V) : Prop := is_Some (b_uploads (view v) !! id).

Lemma up_inv_others v v' cps : others v v' → up_inv cps v → up_inv cps v'.
Proof.
  intros (_ & Hi & Hu) [Hid Hup]. split; [auto|]. intros up' Hl. destruct (Hu id up' Hid Hl) as (up & E & Ek & Ea & Hp).
  destruct (Hup up E) as (Hk & Ha & Hf). split; [congruence|]. split; [congruence|].
  eapply Forall_impl; [exact Hf|]. intros cp (sp & Hsp & H1 & H2 & H3). exists sp.
  split; [by eapply lookup_weaken|]. rewrite Ea. done.
Qed.

Lemma up_inv_same v v' cps : same v v' → up_inv cps v → up_inv cps v'.
Proof. intros Hs. apply up_inv_others. by apply same_others. Qed.

Lemma part_named_other up n sp cp b : PartNumber cp ≠ n →
  part_named up cp b → part_named (mkUp (up_key up) (up_alg up) (<[n := sp]> (up_parts up))) cp b.
Proof.
  intros Hn (sp' & Hl & He & Hd & Hc). exists sp'. cbn. rewrite lookup_insert_ne by congruence. done.
Qed.

(** A part that lands keeps the others, and is there. *)
Lemma up_inv_part v v' cps up n sp : up_inv cps v → b_uploads (view v) !! id = Some up →
  n ∉ PartNumber <$> cps →
  shows v v' (mkBucket (b_objs (view v)) (<[id := mkUp (up_key up) (up_alg up) (<[n := sp]> (up_parts up))]> (b_uploads (view v)))) →
  up_inv cps v' ∧ pending v' ∧ ∀ ck, pc_etag ck = Some (sp_etag sp) → sp_data sp = f n →
    (alg = "CRC32"%string → ∃ c, pc_crc32 ck = Some c ∧ c ≠ ""%string) → up_inv (completedPart n ck :: cps) v'.
Proof.
  intros [Hid Hup] Hu Hn (_ & Hi & Hview). destruct (Hup _ Hu) as (Hk & Ha & Hf).
  set (up' := mkUp (up_key up) (up_alg up) (<[n := sp]> (up_parts up))) in *.
  assert (b_uploads (view v') !! id = Some up') as Hu' by (rewrite Hview; apply lookup_insert_eq).
  assert (Forall (λ cp, part_named up' cp (f (PartNumber cp))) cps) as Hf'.
  { apply Forall_forall. intros cp Hcp. apply part_named_other.
    - intros <-. apply Hn. by apply list_elem_of_fmap_2.
    - rewrite Forall_forall in Hf. by apply Hf. }
  split; [|split].
  - split; [by apply Hi|]. intros up2 E. rewrite Hu' in E. injection E as <-. done.
  - by eexists.
  - intros ck Het Hd Hc. split; [by apply Hi|]. intros up2 E. rewrite Hu' in E. injection E as <-. split; [done|]. split; [done|].
    constructor; [|done]. exists sp. cbn. rewrite lookup_insert_eq. rewrite Ha. done.
Qed.

(** ** One part *)

(** What a request for part [n] does, whichever way the part gets there. *)
Definition part_done (n : Z) (cps : list CompletedPart) (w w' : sworld V) (x : option partChecksums) : Prop :=
  inner w w' ∧ (scalm w → pending (sw_srv w) → is_Some x ∧ pending (sw_srv w'))
  ∧ match x with
    | Some ck => up_inv (completedPart n ck :: cps) (sw_srv w')
    | None => up_inv cps (sw_srv w')
    end.

Lemma quiet_part v v' up n sp : Q v → b_uploads (view v) !! id = Some up →
  view v' = mkBucket (b_objs (view v)) (<[id := mkUp (up_key up) (up_alg up) (<[n := sp]> (up_parts up))]> (b_uploads (view v))) →
  ∀ l, quiet_entry (mkEntry v v' l).
Proof.
  intros HQ Hu Hv l. split; cbn; rewrite Hv; [done|]. split; [done|]. cbn. intros i Hi.
  rewrite lookup_insert_ne; [done|]. congruence.
Qed.

Lemma quiet_same v v' l : Q v → same v v' → quiet_entry (mkEntry v v' l).
Proof. intros HQ (_ & _ & Hv). split; cbn; by rewrite Hv. Qed.

(** A request that changed no object, after the others moved. *)
Lemma inner_entry (P : entry V → Prop) w w' v1 l : lawful Q w → others (sw_srv w) v1 → Q v1 → srv_ok (sw_srv w') →
  (∀ i, issued v1 i → issued (sw_srv w') i) → Forall (tick_ok Q) (sw_sched w') →
  sw_log w' = mkEntry v1 (sw_srv w') l :: sw_log w → b_objs (view (sw_srv w')) = b_objs (view v1) →
  P (mkEntry v1 (sw_srv w') l) → (scalm w → v1 = sw_srv w ∧ scalm w') → went P w w'.
Proof.
  intros Hw Ho HQ Hok Hi Hs Hl Hv Hq Hc. split_and!.
  - split; [done|]. split; [|done]. by eapply Q_objs.
  - intros i Hii. apply Hi. by apply Ho.
  - eexists [_]. split; [exact Hl|]. split; [by apply Forall_singleton|]. intros [-> ?]%Hc. split; [done|].
    split; [done|]. by apply Forall_singleton.
Qed.

Lemma inner_not P w w' : lawful Q w → others (sw_srv w) (sw_srv w') → Q (sw_srv w') → Forall (tick_ok Q) (sw_sched w') →
  sw_log w' = sw_log w → ¬ scalm w → went P w w'.
Proof.
  intros Hw Ho HQ Hs Hl Hn. split_and!.
  - split; [apply Ho|done].
  - apply Ho.
  - by exists [].
Qed.

Lemma upload_part_done n cps w r w' len : lawful Q w → up_inv cps (sw_srv w) → part_no n → n ∉ PartNumber <$> cps →
  call (UploadPart (s_bucket s) fk id n (f n) len alg) w = (r, w') → len = blen (f n) → blen (f n) <= single_put_max →
  ∃ x, r = Ok x ∧ part_done n cps w w' (match x with Resp ck => Some ck | SdkErr _ => None end).
Proof.
  intros Hw Hinv Hpn Hn Ec Hlen Hmax. destruct (call_called _ _ _ _ _ Hw Ec) as (x & -> & Hc & Hs & Hcalm).
  exists x. split; [done|].
  assert (∀ v1 y l, others (sw_srv w) v1 → Q v1 → (scalm w → v1 = sw_srv w) →
    UploadPart (s_bucket s) fk id n (f n) len alg v1 = (y, sw_srv w') →
    sw_log w' = mkEntry v1 (sw_srv w') l :: sw_log w →
    inner w w' ∧ up_inv cps (sw_srv w') ∧ (scalm w → pending (sw_srv w) → ∃ ck, y = Resp ck)
    ∧ match y with Resp ck => pending (sw_srv w') ∧ up_inv (completedPart n ck :: cps) (sw_srv w') | SdkErr _ => True end) as Hup.
  { intros v1 y l Ho HQ Hv Hop Hl. assert (srv_ok v1) as Hok1 by apply Ho.
    pose proof (up_inv_others _ _ _ Ho Hinv) as Hinv1.
    destruct (law_upload_part _ _ _ _ _ _ _ _ _ Hok1 (proj1 Hinv1) Hpn Hop) as [Hsafe Hprog].
    assert (scalm w → pending (sw_srv w) → ∃ ck, y = Resp ck) as Hp.
    { intros Hsc [up Hu]. rewrite <- (Hv Hsc) in Hu. eapply Hprog; try done. by destruct (proj2 Hinv1 _ Hu). }
    destruct y as [ck|e].
    - destruct Hsafe as (up & et & Hu & Hk & _ & Het & Hcrc & Hsh). destruct (up_inv_part _ _ _ _ _ _ Hinv1 Hu Hn Hsh) as (H1 & H2 & H3).
      split; [|split; [done|]; split; [done|]; split; [done|by apply H3]].
      eapply inner_entry; try done; [apply Hsh|intros i; apply Hsh|by rewrite (proj2 (proj2 Hsh))|eapply quiet_part; [done|done|apply Hsh]|auto].
    - split; [|split; [by eapply up_inv_same|done]].
      eapply inner_entry; try done; [apply Hsafe|intros i; apply Hsafe|by rewrite (proj2 (proj2 Hsafe))|by apply quiet_same|auto]. }
  inversion Hc as [v1 x' Ho HQ Hv Hop Hl|v1 x' e Ho HQ Hnc Hop Hnf Hl|e Ho HQ Hnc Hnf Hl]; subst; clear Hc.
  - destruct (Hup _ _ _ Ho HQ Hv Hop Hl) as (H1 & H2 & H3 & H4). split; [done|]. split.
    + intros Hsc Hp. destruct (H3 Hsc Hp) as [ck ->]. destruct H4. split; [by eexists|done].
    + destruct x; [apply H4|done].
  - destruct (Hup _ _ _ Ho HQ ltac:(done) Hop Hl) as (H1 & H2 & _). split; [done|]. split; [done|done].
  - split; [by apply inner_not|]. split; [done|]. by eapply up_inv_others.
Qed.

(** The same for a part copied from the source's bytes, which nobody changes. *)
Lemma part_copy_done n cps w r w' src data lo hi : lawful Q w → up_inv cps (sw_srv w) → part_no n →
  n ∉ PartNumber <$> cps → alg = ""%string →
  (∀ v, Q v → ∃ o, b_objs (view v) !! src = Some o ∧ so_data o = data) →
  0 <= lo <= hi → hi < blen data → hi < object_max → part_min < blen data → hi - lo + 1 <= single_put_max →
  f n = range_of data lo hi →
  call (UploadPartCopy (s_bucket s) fk id n (s3CopySource (s_bucket s) src) (copy_range lo hi)) w = (r, w') →
  ∃ x, r = Ok x ∧ part_done n cps w w' (match x with Resp (Some ck) => Some ck | _ => None end).
Proof.
  intros Hw Hinv Hpn Hn Halg Hsrc Hlo Hhi Hmax Hmin Hlen Hf Ec.
  destruct (call_called _ _ _ _ _ Hw Ec) as (x & -> & Hc & Hs & Hcalm). exists x. split; [done|].
  assert (∀ v1 y l, others (sw_srv w) v1 → Q v1 → (scalm w → v1 = sw_srv w) →
    UploadPartCopy (s_bucket s) fk id n (s3CopySource (s_bucket s) src) (copy_range lo hi) v1 = (y, sw_srv w') →
    sw_log w' = mkEntry v1 (sw_srv w') l :: sw_log w →
    inner w w' ∧ up_inv cps (sw_srv w') ∧ (scalm w → pending (sw_srv w) → ∃ ck, y = Resp (Some ck))
    ∧ match y with Resp (Some ck) => pending (sw_srv w') ∧ up_inv (completedPart n ck :: cps) (sw_srv w') | _ => True end) as Hup.
  { intros v1 y l Ho HQ Hv Hop Hl. assert (srv_ok v1) as Hok1 by apply Ho.
    pose proof (up_inv_others _ _ _ Ho Hinv) as Hinv1. destruct (Hsrc _ HQ) as (so & Hso & Hd).
    destruct (law_part_copy _ _ _ _ _ _ _ _ _ Hok1 (proj1 Hinv1) Hpn Hlo Hmax Hop) as [Hsafe Hprog].
    assert (scalm w → pending (sw_srv w) → ∃ ck, y = Resp (Some ck)) as Hp.
    { intros Hsc [up Hu]. rewrite <- (Hv Hsc) in Hu. eapply Hprog; try done; [by destruct (proj2 Hinv1 _ Hu)|by subst..]. }
    destruct y as [[ck|]|e].
    - destruct Hsafe as (up & et & o' & Hu & Hk & Ho' & _ & Het & Hsh). rewrite Hso in Ho'. simplify_eq.
      destruct (up_inv_part _ _ _ _ _ _ Hinv1 Hu Hn Hsh) as (H1 & H2 & H3).
      split; [|split; [done|]; split; [done|]; split; [done|apply H3; [done|by rewrite Hf|congruence]]].
      eapply inner_entry; try done; [apply Hsh|intros i; apply Hsh|by rewrite (proj2 (proj2 Hsh))|eapply quiet_part; [done|done|apply Hsh]|auto].
    - split; [|split; [by eapply up_inv_same|done]].
      eapply inner_entry; try done; [apply Hsafe|intros i; apply Hsafe|by rewrite (proj2 (proj2 Hsafe))|by apply quiet_same|auto].
    - split; [|split; [by eapply up_inv_same|done]].
      eapply inner_entry; try done; [apply Hsafe|intros i; apply Hsafe|by rewrite (proj2 (proj2 Hsafe))|by apply quiet_same|auto]. }
  inversion Hc as [v1 x' Ho HQ Hv Hop Hl|v1 x' e Ho HQ Hnc Hop Hnf Hl|e Ho HQ Hnc Hnf Hl]; subst x; clear Hc.
  - destruct (Hup _ _ _ Ho HQ Hv Hop Hl) as (H1 & H2 & H3 & H4). split; [done|]. split.
    + intros Hsc Hp. destruct (H3 Hsc Hp) as [ck ->]. destruct H4. split; [by eexists|done].
    + destruct x' as [[ck|]|]; [apply H4|done|done].
  - destruct (Hup _ _ _ Ho HQ ltac:(done) Hop Hl) as (H1 & H2 & _). split; [done|]. split; [done|done].
  - split; [by apply inner_not|]. split; [done|]. by eapply up_inv_others.
Qed.

(** ** The worker pool *)

(** All parts, in order, acknowledged and in the upload. *)
Definition assembled (num : Z) (parts : list CompletedPart) (v : V) : Prop :=
  up_inv parts v ∧ PartNumber <$> parts = seqZ 1 num.

(** What uploading the parts amounts to: all of them are there, or an error, which
    is not possible when nobody interferes. *)
Definition parts_done (num : Z) (w w' : sworld V) (r : res (list CompletedPart)) : Prop :=
  inner w w' ∧ (r = Err [EIO] ∨ ∃ parts, r = Ok parts ∧ assembled num parts (sw_srv w'))
  ∧ (scalm w → pending (sw_srv w) → is_ok r = true ∧ pending (sw_srv w')).

Lemma up_inv_subset cps cps' v : (∀ cp, cp ∈ cps' → cp ∈ cps) → up_inv cps v → up_inv cps' v.
Proof.
  intros Hs [Hid Hup]. split; [done|]. intros up Hu. destruct (Hup _ Hu) as (Hk & Ha & Hf). split; [done|]. split; [done|].
  rewrite Forall_forall in Hf |- *. auto.
Qed.

Record pool_inv (num : Z) (p : pool) (cps : list CompletedPart) (v : V) : Prop := {
  pi_next : 1 <= p_next p <= num + 1;
  pi_nodup : NoDup (p_inflight p);
  pi_fly : ∀ n, n ∈ p_inflight p → 1 <= n < p_next p;
  pi_len : length (p_parts p) = Z.to_nat num;
  pi_cps : ∀ cp, cp ∈ cps → 1 <= PartNumber cp < p_next p ∧ PartNumber cp ∉ p_inflight p;
  pi_parts : ∀ n, 1 <= n < p_next p → n ∈ p_inflight p ∨ is_Some (p_err p)
    ∨ ∃ cp, cp ∈ cps ∧ PartNumber cp = n ∧ p_parts p !! Z.to_nat (n - 1) = Some cp;
  pi_open : p_open p = false → is_Some (p_err p);
  pi_err : ∀ e, p_err p = Some e → e = [EIO];
  pi_up : up_inv cps v }.

(** The moves left: two for a part not handed out, one for a part on its way, one
    for the producer to stop. *)
Definition pool_measure (num : Z) (p : pool) : nat :=
  2 * Z.to_nat (num + 1 - p_next p) + length (p_inflight p) + (if p_open p then 1 else 0).

Lemma enabled_elem workers num p ev : ev ∈ enabled workers num p →
  (ev = Assign ∧ p_open p = true ∧ p_next p <= num)
  ∨ (ev = Stop ∧ p_open p = true ∧ is_Some (p_err p)) ∨ ∃ n, ev = Finish n ∧ n ∈ p_inflight p.
Proof.
  unfold enabled. rewrite !elem_of_app. intros [Hx|[Hx|Hx]].
  - case_match eqn:Eb; [|by apply not_elem_of_nil in Hx]. apply list_elem_of_singleton in Hx as ->. left. bool_to_prop. by split_and!.
  - case_match eqn:Eb; [|by apply not_elem_of_nil in Hx]. apply list_elem_of_singleton in Hx as ->. right; left. bool_to_prop. by split_and!.
  - apply list_elem_of_fmap in Hx as (n & -> & Hn). eauto.
Qed.

Lemma enabled_nil workers num p : 1 <= workers → enabled workers num p = [] →
  p_inflight p = [] ∧ (p_open p = false ∨ num < p_next p).
Proof.
  unfold enabled. intros Hw Hx. apply app_eq_nil in Hx as [H1 Hx]. apply app_eq_nil in Hx as [H2 H3].
  apply fmap_nil_inv in H3. split; [done|]. rewrite H3 in H1. destruct (p_open p); [right|by left]. cbn in H1. revert H1.
  destruct (Z.leb_spec (p_next p) num); [|by intros]. change (Z.of_nat 0) with 0. destruct (Z.ltb_spec 0 workers); [done|lia].
Qed.

Lemma leave_length n l : NoDup l → n ∈ l → S (length (filter (λ m : Z, m ≠ n) l)) = length l.
Proof.
  induction 1 as [|m l Hm Hl IH]; [by intros ?%not_elem_of_nil|]. rewrite elem_of_cons. intros Hn.
  destruct (decide (m = n)) as [->|Hne].
  - rewrite filter_cons_False by tauto. rewrite filter_every; [done|]. intros x Hx ->. done.
  - rewrite filter_cons_True by done. cbn. rewrite IH; [done|]. destruct Hn; [congruence|done].
Qed.

Lemma leave_elem n m (l : list Z) : m ∈ filter (λ m : Z, m ≠ n) l ↔ m ≠ n ∧ m ∈ l.
Proof. by rewrite list_elem_of_filter. Qed.

(** Handing out a part, and stopping, keep the invariant. *)
Lemma pool_inv_assign num p cps v : pool_inv num p cps v → p_next p <= num →
  pool_inv num (mkPool (p_next p + 1) (p_open p) (p_inflight p ++ [p_next p]) (p_parts p) (p_err p)) cps v.
Proof.
  intros [] Hn. constructor; cbn; try done; [lia| | | |].
  - apply NoDup_app. split; [done|]. split; [|apply NoDup_singleton]. intros n Hin%pi_fly0 ->%list_elem_of_singleton. lia.
  - intros n [Hin%pi_fly0| ->%list_elem_of_singleton]%elem_of_app; lia.
  - intros cp Hcp. destruct (pi_cps0 _ Hcp) as [Hr Hf]. split; [lia|]. rewrite elem_of_app, list_elem_of_singleton. intros [?|E]; [done|lia].
  - intros n Hr. destruct (decide (n = p_next p)) as [->|]; [left; apply elem_of_app; right; by apply list_elem_of_singleton|].
    destruct (pi_parts0 n) as [?|?]; [lia|left; by apply elem_of_app; left|by right].
Qed.

Lemma pool_inv_stop num p cps v : pool_inv num p cps v → is_Some (p_err p) →
  pool_inv num (mkPool (p_next p) false (p_inflight p) (p_parts p) (p_err p)) cps v.
Proof. intros [] He. by constructor. Qed.

(** A worker is done with part [n]: it failed, or it is there. *)
Lemma pool_inv_fail num p cps v n : pool_inv num p cps v → pool_inv num (leave n (recordErr [EIO] p)) cps v.
Proof.
  intros []. constructor; cbn; try done.
  - by apply NoDup_filter.
  - intros m [_ Hm]%leave_elem. auto.
  - intros cp Hcp. destruct (pi_cps0 _ Hcp) as [Hr Hf]. split; [done|]. rewrite leave_elem. tauto.
  - intros m Hm. right; left. by destruct (p_err p).
  - intros _. by destruct (p_err p).
  - intros e. destruct (p_err p) eqn:E; [by apply pi_err0|congruence].
Qed.

Lemma pool_inv_filled num p cps v n ck : pool_inv num p cps v → n ∈ p_inflight p →
  up_inv (completedPart n ck :: cps) v → pool_inv num (leave n (filled n (completedPart n ck) p)) (completedPart n ck :: cps) v.
Proof.
  intros [] Hn Hup. pose proof (pi_fly0 n Hn) as Hnr. constructor; cbn; try done.
  - by apply NoDup_filter.
  - intros m [_ Hm]%leave_elem. auto.
  - by rewrite length_insert.
  - intros cp [->|Hcp]%elem_of_cons; [split; [done|]; rewrite leave_elem; cbn; tauto|].
    destruct (pi_cps0 _ Hcp) as [Hr Hf]. split; [done|]. rewrite leave_elem. tauto.
  - intros m Hm. destruct (decide (m = n)) as [->|Hne].
    + right; right. exists (completedPart n ck). split; [constructor|]. split; [done|]. apply list_lookup_insert_eq. lia.
    + destruct (pi_parts0 m Hm) as [Hf|[He|(cp & Hcp & Hpn & Hl)]]; [left; by apply leave_elem|by right; left|].
      right; right. exists cp. split; [by constructor|]. split; [done|]. rewrite list_lookup_insert_ne; [done|]. lia.
Qed.

Section pool.
Context (data : bytes) (base size ps num : Z).
Hypothesis Hnum : 1 <= num <= 10000.
Hypothesis Halg : alg = "CRC32"%string.
Hypothesis Hparts : ∀ n, 1 <= n <= num →
  section data (i64 (base + i64 ((n - 1) * ps))) (partLen size (i64 ((n - 1) * ps)) ps) = f n
  ∧ partLen size (i64 ((n - 1) * ps)) ps = blen (f n) ∧ blen (f n) <= single_put_max.

Lemma pick_inner w n r w' : lawful Q w → pick n w = (r, w') →
  inner w w' ∧ sw_srv w' = sw_srv w ∧ r = Ok (match sw_picks w with [] => 0 | i :: _ => i end mod n)%nat.
Proof.
  intros Hw E. unfold pick in E. destruct (sw_picks w) eqn:Ep; simplify_eq/=; (split; [|done]);
    (split; [done|]); (split; [done|]); by exists [].
Qed.

(** What one move keeps, and that it is one of the moves left. *)
Lemma pool_step_spec p cps ev workers w r w' : lawful Q w → pool_inv num p cps (sw_srv w) → ev ∈ enabled workers num p →
  pool_step s fk id data base size ps ev p w = (r, w') →
  ∃ p' cps', r = Ok p' ∧ pool_inv num p' cps' (sw_srv w') ∧ inner w w'
  ∧ (pool_measure num p' < pool_measure num p)%nat
  ∧ (scalm w → pending (sw_srv w) → p_err p = None → p_err p' = None ∧ pending (sw_srv w')).
Proof.
  intros Hw Hp Hev E. destruct (enabled_elem _ _ _ _ Hev) as [(-> & Ho & Hn)|[(-> & Ho & He)|(n & -> & Hn)]].
  - unfold pool_step, mret, sio_ret in E. simplify_eq. eexists _, cps. split; [done|]. split; [by apply pool_inv_assign|].
    split; [by apply inner_refl|]. split; [|done]. unfold pool_measure. cbn. rewrite length_app, Ho. cbn. lia.
  - unfold pool_step, mret, sio_ret in E. simplify_eq. eexists _, cps. split; [done|]. split; [by apply pool_inv_stop|].
    split; [by apply inner_refl|]. split; [|done]. unfold pool_measure. cbn. rewrite Ho. lia.
  - pose proof (pi_fly _ _ _ _ Hp n Hn) as Hnr. pose proof (pi_next _ _ _ _ Hp) as Hnx.
    destruct (Hparts n) as (Hsec & Hlen & Hmax); [lia|]. unfold pool_step in E. rewrite Hsec in E.
    unfold mbind, sio_bind, mret, sio_ret in E.
    match type of E with context [call ?op w] => destruct (call op w) as [r1 w1] eqn:Ec end. rewrite <- Halg in Ec.
    assert (n ∉ PartNumber <$> cps) as Hnc.
    { intros (cp & -> & Hcp)%list_elem_of_fmap. by destruct (pi_cps _ _ _ _ Hp cp Hcp). }
    destruct (upload_part_done n cps _ _ _ _ Hw (pi_up _ _ _ _ Hp) ltac:(unfold part_no; lia) Hnc Ec Hlen Hmax)
      as (x & -> & Hin & Hprog & Hx).
    assert (w1 = w' ∧ r = Ok (leave n (match x with SdkErr _ => recordErr [EIO] p | Resp ck => filled n (completedPart n ck) p end)))
      as [-> ->] by (by simplify_eq). clear E.
    assert (∀ q, p_inflight q = p_inflight p → p_next q = p_next p → p_open q = p_open p →
      (pool_measure num (leave n q) < pool_measure num p)%nat) as Hm.
    { intros q Hq1 Hq2 Hq3. unfold pool_measure. cbn. rewrite Hq1, Hq2, Hq3.
      pose proof (leave_length n _ (pi_nodup _ _ _ _ Hp) Hn). lia. }
    assert (∀ v c, pool_inv num p c (sw_srv w) → up_inv c v → pool_inv num p c v) as Hmove by (intros ? ? [] ?; by constructor).
    destruct x as [ck|e].
    + eexists _, (completedPart n ck :: cps). split; [done|]. split; [|split; [done|split; [by apply Hm|]]].
      * apply pool_inv_filled; [|done|done]. apply Hmove; [done|]. eapply up_inv_subset; [|exact Hx]. intros. by constructor.
      * intros Hsc Hpe He. destruct (Hprog Hsc Hpe) as [_ ?]. by cbn.
    + eexists _, cps. split; [done|]. split; [|split; [done|split; [by apply Hm|]]].
      * apply pool_inv_fail. by apply Hmove.
      * intros Hsc Hpe He. by destruct (Hprog Hsc Hpe) as [[? ?] _].
Qed.

Lemma pool_run_spec fuel p cps workers w r w' : 1 <= workers → (pool_measure num p < fuel)%nat → lawful Q w →
  pool_inv num p cps (sw_srv w) → pool_run s fuel workers num fk id data base size ps p w = (r, w') →
  ∃ p' cps', r = Ok p' ∧ pool_inv num p' cps' (sw_srv w') ∧ inner w w'
  ∧ p_inflight p' = [] ∧ (p_open p' = false ∨ num < p_next p')
  ∧ (scalm w → pending (sw_srv w) → p_err p = None → p_err p' = None ∧ pending (sw_srv w')).
Proof.
  intros Hwk. revert p cps w. induction fuel as [|fuel IH]; intros p cps w Hm Hw Hp E; [lia|]. cbn [pool_run] in E.
  destruct (enabled workers num p) as [|ev evs] eqn:Een.
  - unfold mret, sio_ret in E. simplify_eq. exists p, cps. destruct (enabled_nil _ _ _ Hwk Een).
    split_and!; try done. by apply inner_refl.
  - set (all := ev :: evs) in *. unfold mbind, sio_bind in E. destruct (pick (length all) w) as [r1 w1] eqn:Epk.
    destruct (pick_inner _ _ _ _ Hw Epk) as (Hin1 & Hsrv & ->). set (i := (_ mod _)%nat) in E.
    destruct (all !! i) as [ev'|] eqn:Ei; last first.
    { apply lookup_ge_None in Ei. unfold i in Ei. pose proof (Nat.mod_upper_bound
        (match sw_picks w with [] => 0 | i :: _ => i end)%nat (length all) ltac:(done)). lia. }
    rewrite ?Ei in E. cbn [default from_option] in E. change (Datatypes.id ev') with ev' in E.
    destruct (pool_step s fk id data base size ps ev' p w1) as [r2 w2] eqn:Es.
    assert (ev' ∈ enabled workers num p) as Hev by (rewrite Een; apply list_elem_of_lookup; eauto).
    rewrite <- Hsrv in Hp.
    destruct (pool_step_spec _ _ _ _ _ _ _ (proj1 Hin1) Hp Hev Es) as (p2 & cps2 & -> & Hp2 & Hin2 & Hm2 & Hc2).
    destruct (IH p2 cps2 w2 ltac:(lia) (proj1 Hin2) Hp2 E) as (p' & cps' & -> & Hp' & Hin3 & Hfl & Hop & Hc3).
    exists p', cps'. split_and!; try done; [by eapply inner_trans, inner_trans|].
    intros Hsc Hpe He. destruct (inner_calm _ _ _ Hin1 Hsc) as [Hs1 _]. rewrite <- Hsrv in Hpe.
    destruct (Hc2 Hs1 Hpe He) as [He2 Hpe2]. destruct (inner_calm _ _ _ Hin2 Hs1) as [Hs2 _]. auto.
Qed.

(** Whatever order the workers and the producer move in, the pool ends with every
    part in its place, or with an error. *)
Lemma pool_assembled lim w r w' : lawful Q w → up_inv [] (sw_srv w) →
  concurrentPartUpload lim s fk id data base size ps num w = (r, w') → parts_done num w w' r.
Proof.
  intros Hw Hup E. unfold concurrentPartUpload in E.
  set (workers := if (num <? _)%Z then num else _) in E.
  assert (1 <= workers) as Hwk.
  { unfold workers. destruct (Z.ltb_spec (multipartConcurrency lim) 1); case_match; lia. }
  unfold mbind, sio_bind in E. set (p0 := mkPool 1 true [] (replicate (Z.to_nat num) zeroPart) None) in E.
  destruct (pool_run s (2 * Z.to_nat num + 2) workers num fk id data base size ps p0 w) as [r1 w1] eqn:Er.
  assert (pool_inv num p0 [] (sw_srv w)) as Hp0.
  { constructor; cbn; [lia|apply NoDup_nil_2|by intros n ?%not_elem_of_nil|by rewrite length_replicate|
      by intros cp ?%not_elem_of_nil|intros n Hr; lia|done|done|done]. }
  assert (pool_measure num p0 < 2 * Z.to_nat num + 2)%nat as Hm0.
  { unfold pool_measure, p0. cbn [p_next p_inflight p_open length]. replace (num + 1 - 1) with num by lia. lia. }
  destruct (pool_run_spec _ p0 [] workers w _ _ Hwk Hm0 Hw Hp0 Er)
    as (p & cps & -> & Hp & Hin & Hfl & Hop & Hc).
  assert (w1 = w' ∧ r = match p_err p with None => Ok (p_parts p) | Some e => Err e end) as [-> ->].
  { unfold mret, sio_ret, sfail in E. by destruct (p_err p); simplify_eq. }
  clear E. destruct Hp as [Hnx _ _ Hlen Hcps Hparts' Hopen Herr Hup']. split; [done|]. split.
  - destruct (p_err p) as [e|] eqn:Ee; [left; by rewrite (Herr e)|]. right. exists (p_parts p). split; [done|].
    assert (num < p_next p) as Hnx' by (destruct Hop as [Hf|?]; [by destruct (Hopen Hf)|done]).
    assert (∀ i, (i < Z.to_nat num)%nat → ∃ cp, cp ∈ cps ∧ PartNumber cp = Z.of_nat i + 1 ∧ p_parts p !! i = Some cp) as Hall.
    { intros i Hi. destruct (Hparts' (Z.of_nat i + 1)) as [Hf|[[? ?]|(cp & Hcp & Hpn & Hl)]]; [lia| |done|].
      - rewrite Hfl in Hf. by apply not_elem_of_nil in Hf.
      - exists cp. split; [done|]. split; [done|]. by replace (Z.to_nat (Z.of_nat i + 1 - 1)) with i in Hl by lia. }
    split.
    + eapply up_inv_subset; [|exact Hup']. intros cp [i Hi]%list_elem_of_lookup. pose proof (lookup_lt_Some _ _ _ Hi).
      destruct (Hall i) as (cp' & Hcp' & _ & Hl); [lia|]. congruence.
    + apply list_eq. intros i. rewrite list_lookup_fmap. destruct (decide (i < Z.to_nat num)%nat) as [Hi|Hi].
      * destruct (Hall i Hi) as (cp & _ & Hpn & ->). rewrite lookup_seqZ_lt by lia. cbn. f_equal. lia.
      * rewrite lookup_seqZ_ge by lia. rewrite (lookup_ge_None_2 (p_parts p)) by lia. done.
  - intros Hsc Hpe. destruct (Hc Hsc Hpe ltac:(done)) as [-> ?]. done.
Qed.
End pool.

End upload.
End multipart.
