(* ===== verification/S3Upload.v ===== *)
(** * Multipart uploads: from the parts to the object

    The loops that upload or copy the parts one after the other end, as the
    worker pool does, with all of them ([parts_done]); [put_outcome] is what an
    upload as a whole can do. *)
From Stdlib Require Import Ascii String Strings.Byte.
From stdpp Require Import sorting.
From S2P Require Import Prelude GoStrings Keys GoUrl Refs Backend Files S3Api S3 S3Props S3Multipart.
Local Open Scope Z_scope.

Section s3_upload.
Context {V : Type} `{S3Client V} `{S3View V} (s : S3) `{!S3Laws V (s_bucket s)}.
Context (Q : V → Prop).
Hypothesis Q_objs : ∀ v v', b_objs (view v') = b_objs (view v) → Q v → Q v'.

Abbreviation inner := (went Q (quiet_entry Q)).

Section plan.
Context (lim : limits) (size : Z) (fk id : string).
Hypothesis Hlim : lim_ok lim.
Hypothesis Hsize : 0 < size <= object_max.

Abbreviation ps := (partSizeFor lim size).
Abbreviation num := (numParts size ps).

(** ** One part after the other *)

Lemma parts_snoc alg f n acc ck (v : V) : 1 <= n → PartNumber <$> acc = seqZ 1 (n - 1) →
  up_inv fk id alg f (completedPart n ck :: acc) v →
  PartNumber <$> (acc ++ [completedPart n ck]) = seqZ 1 (n + 1 - 1) ∧ up_inv fk id alg f (acc ++ [completedPart n ck]) v.
Proof.
  intros Hn Ha Hup. split.
  - rewrite fmap_app, Ha. replace (n + 1 - 1) with (n - 1 + 1) by lia. rewrite seqZ_app by lia.
    f_equal. by replace (1 + (n - 1)) with n by lia.
  - eapply up_inv_subset; [|exact Hup]. intros cp. rewrite elem_of_app, list_elem_of_singleton, elem_of_cons. tauto.
Qed.

Lemma part_fresh n (acc : list CompletedPart) : PartNumber <$> acc = seqZ 1 (n - 1) → n ∉ PartNumber <$> acc.
Proof. intros ->. rewrite elem_of_seqZ. lia. Qed.

(** The place of part [n]. *)
Lemma plan_at n : 1 <= n <= num →
  let len := partLen size ((n - 1) * ps) ps in
  ((n - 1) * ps <? size) = true ∧ 0 < len <= single_put_max ∧ (n - 1) * ps + len <= size
  ∧ (n < num → len = ps) ∧ i64 ((n - 1) * ps + ps) = (n + 1 - 1) * ps ∧ i32 (n + 1) = n + 1 ∧ part_no n.
Proof.
  intros Hn len. unfold len. rewrite (partLen_spec lim size Hlim Hsize n Hn).
  destruct (offset_spec lim size Hlim Hsize n Hn) as [_ Ho].
  destruct (partSizeFor_spec lim size Hlim Hsize) as [Hps _]. destruct (numParts_spec lim size Hlim Hsize) as [Hnum Hs].
  revert Hps Hs Hnum Hn Ho. generalize num. generalize ps. intros p q Hps Hs Hnum Hn Ho.
  split; [apply Z.ltb_lt; lia|]. rewrite i64_size by (sizes; lia). rewrite i32_small by (sizes; lia). unfold part_no.
  destruct (Z.ltb_spec n q); sizes; split_and!; try lia; nia.
Qed.

Lemma plan_end : (((num + 1) - 1) * ps <? size) = false.
Proof. destruct (numParts_spec lim size Hlim Hsize) as [_ Hs]. apply Z.ltb_ge. lia. Qed.

Lemma parts_done_end alg f acc w : lawful Q w → up_inv fk id alg f acc (sw_srv w) →
  PartNumber <$> acc = seqZ 1 (num + 1 - 1) → parts_done Q fk id alg f num w w (Ok acc).
Proof.
  intros Hw Hup Ha. split; [by apply inner_refl|]. split; [|done]. right. exists acc. split; [done|]. split; [done|].
  by replace (num + 1 - 1) with num in Ha by lia.
Qed.

Lemma parts_done_fail alg f n cps w w' : part_done Q fk id alg f n cps w w' None →
  parts_done Q fk id alg f num w w' (Err [EIO]).
Proof.
  intros (Hin & Hc & _). split; [done|]. split; [by left|]. intros Hs Hp. by destruct (Hc Hs Hp) as [[? ?] _].
Qed.

Lemma parts_done_next alg f n cps ck w w1 w' r : part_done Q fk id alg f n cps w w1 (Some ck) →
  parts_done Q fk id alg f num w1 w' r → parts_done Q fk id alg f num w w' r.
Proof.
  intros (Hin & Hc & _) (Hin2 & Hr & Hc2). split; [by eapply inner_trans|]. split; [done|]. intros Hs Hp.
  destruct (Hc Hs Hp) as [_ Hp1]. destruct (inner_calm _ _ _ _ Hin Hs) as [Hs1 _]. auto.
Qed.

(** Through one buffer. *)
Lemma sequential_done rest0 : size <= blen rest0 → ∀ fuel n rest acc w r w',
  (Z.to_nat (num + 1 - n) < fuel)%nat → 1 <= n <= num + 1 → PartNumber <$> acc = seqZ 1 (n - 1) →
  (n <= num → rest = drop (Z.to_nat ((n - 1) * ps)) rest0) → lawful Q w →
  up_inv fk id "CRC32" (part_at lim size rest0 0) acc (sw_srv w) →
  sequential_parts s fuel fk id rest size ps ((n - 1) * ps) n acc w = (r, w') →
  parts_done Q fk id "CRC32" (part_at lim size rest0 0) num w w' r.
Proof.
  intros Hlen0. induction fuel as [|fuel IH]; intros n rest acc w r w' Hf Hn Ha Hrest Hw Hup E; [lia|].
  cbn [sequential_parts] in E. destruct (decide (n = num + 1)) as [->|Hne].
  { rewrite plan_end in E. unfold mret, sio_ret in E. injection E as <- <-. by apply parts_done_end. }
  assert (1 <= n <= num) as Hn' by lia. destruct (plan_at n Hn') as (Hlt & Hl & Hle & Hnext & Hi & Hi32 & Hpn).
  rewrite Hlt, Hi, Hi32 in E. rewrite (Hrest ltac:(lia)) in E. clear Hrest rest.
  assert (0 <= (n - 1) * ps) as Ho by (apply (offset_spec lim size Hlim Hsize n Hn')).
  unfold mbind, sio_bind, mret, sio_ret, slift, sfail, read_full in E.
  match type of E with context [(?l <=? ?m)%Z] => destruct (Z.leb_spec l m) as [_|Hbad] end.
  2:{ exfalso. unfold blen in Hbad, Hlen0. rewrite length_drop in Hbad. lia. }
  cbv beta iota in E.
  assert (take (Z.to_nat (partLen size ((n - 1) * ps) ps)) (drop (Z.to_nat ((n - 1) * ps)) rest0)
    = part_at lim size rest0 0 n) as Hpart by done.
  rewrite Hpart in E. match type of E with context [call ?op w] => destruct (call op w) as [r1 w1] eqn:Ec end.
  eapply (upload_part_done s Q Q_objs fk id "CRC32" (part_at lim size rest0 0) n acc) in Ec as (x & -> & Hd);
    [|done|done|done|by apply part_fresh|by rewrite part_len by (done || lia)|rewrite part_len by (done || lia); lia].
  destruct x as [ck|e].
  - eapply parts_done_next; [exact Hd|]. destruct Hd as (Hin & _ & Hup1).
    destruct (parts_snoc _ _ _ _ _ _ (proj1 Hn) Ha Hup1) as [Ha1 Hup1'].
    eapply IH; [| |exact Ha1| |apply Hin|exact Hup1'|exact E]; [lia|lia|].
    intros Hn1. rewrite drop_drop. f_equal. rewrite (Hnext ltac:(lia)). rewrite <- Z2Nat.inj_add; [f_equal; lia|lia|].
    destruct (partSizeFor_spec lim size Hlim Hsize) as [Hps _]. sizes. lia.
  - simplify_eq. by eapply parts_done_fail.
Qed.

(** By ranges of an object that nobody changes. *)
Lemma copy_done src data : size = blen data → part_min < size →
  (∀ v, Q v → ∃ o, b_objs (view v) !! src = Some o ∧ so_data o = data) → ∀ fuel n acc w r w',
  (Z.to_nat (num + 1 - n) < fuel)%nat → 1 <= n <= num + 1 → PartNumber <$> acc = seqZ 1 (n - 1) → lawful Q w →
  up_inv fk id "" (part_at lim size data 0) acc (sw_srv w) →
  copy_parts s fuel fk id (s3CopySource (s_bucket s) src) size ps ((n - 1) * ps) n acc w = (r, w') →
  parts_done Q fk id "" (part_at lim size data 0) num w w' r.
Proof.
  intros Hlen0 Hmin Hsrc. induction fuel as [|fuel IH]; intros n acc w r w' Hf Hn Ha Hw Hup E; [lia|].
  cbn [copy_parts] in E. destruct (decide (n = num + 1)) as [->|Hne].
  { rewrite plan_end in E. unfold mret, sio_ret in E. injection E as <- <-. by apply parts_done_end. }
  assert (1 <= n <= num) as Hn' by lia. destruct (plan_at n Hn') as (Hlt & Hl & Hle & Hnext & Hi & Hi32 & Hpn).
  rewrite Hlt, Hi, Hi32 in E.
  assert (0 <= (n - 1) * ps) as Ho by (apply (offset_spec lim size Hlim Hsize n Hn')).
  rewrite (i64_size (i64 _ - 1)) in E by (rewrite i64_size by (sizes; lia); sizes; lia).
  rewrite (i64_size ((n - 1) * ps + _)) in E by (sizes; lia).
  unfold mbind, sio_bind, mret, sio_ret, slift, sfail in E.
  match type of E with context [call ?op w] => destruct (call op w) as [r1 w1] eqn:Ec end.
  eapply (part_copy_done s Q Q_objs fk id "" (part_at lim size data 0) n acc) with (data := data) in Ec as (x & -> & Hd);
    [|done|done|done|by apply part_fresh|done|exact Hsrc|lia|lia|sizes; lia|lia|lia|].
  2:{ unfold part_at, section, range_of. rewrite Z.add_0_l. do 2 f_equal. lia. }
  assert (part_done Q fk id "" (part_at lim size data 0) n acc w w1 None → (Err [EIO], w1) = (r, w') →
    parts_done Q fk id "" (part_at lim size data 0) num w w' r) as Hfail.
  { intros Hd' E'. injection E' as <- <-. by eapply parts_done_fail. }
  destruct x as [[ck|]|e]; [|by apply Hfail..].
  eapply parts_done_next; [exact Hd|]. destruct Hd as (Hin & _ & Hup1).
  destruct (parts_snoc _ _ _ _ _ _ (proj1 Hn) Ha Hup1) as [Ha1 Hup1'].
  eapply IH; [| |exact Ha1|apply Hin|exact Hup1'|exact E]; lia.
Qed.

(** ** Either path *)

Lemma upload_parts_done r w x w' : size <= blen (rd_rest r) → Z.of_nat (rd_pos r) + size < 2 ^ 63 → lawful Q w →
  up_inv fk id "CRC32" (part_at lim size (rd_rest r) 0) [] (sw_srv w) →
  upload_parts lim s fk id r size w = (x, w') →
  parts_done Q fk id "CRC32" (part_at lim size (rd_rest r) 0) num w w' x.
Proof.
  intros Hlen Hpos Hw Hup E. destruct (numParts_spec lim size Hlim Hsize) as [Hnum _]. unfold upload_parts in E. case_match.
  - eapply (pool_assembled s Q Q_objs); [exact Hnum|done| |exact Hw|exact Hup|exact E].
    intros n Hn. destruct (offset_spec lim size Hlim Hsize n Hn) as [-> Ho].
    rewrite part_len by (done || lia). destruct (plan_at n Hn) as (_ & Hl & Hle & _).
    rewrite (i64_small (Z.of_nat (rd_pos r) + _)) by lia. split; [|by split; [|lia]].
    unfold part_at, section, rd_rest. rewrite drop_drop. f_equal. f_equal. lia.
  - change 0 with ((1 - 1) * ps) in E. eapply sequential_done; [exact Hlen| | | | |exact Hw|exact Hup|exact E]; [lia|lia|done|].
    intros _. rewrite Z.sub_diag, Z.mul_0_l. done.
Qed.

Lemma seqZ_sorted m n : StronglySorted Z.lt (seqZ m n).
Proof.
  destruct (Z.leb_spec 0 n) as [Hn|Hn]; [|rewrite seqZ_nil by lia; constructor].
  revert m. pattern n. apply Z_lt_induction; [|done]. clear. intros n IH m.
  destruct (Z.ltb_spec 0 n); [|rewrite seqZ_nil by lia; constructor].
  rewrite seqZ_cons by lia. constructor; [apply IH; lia|]. apply Forall_seqZ. lia.
Qed.

(** What [law_complete] asks of the parts. *)
Lemma plan_wf alg data up parts : size <= blen data → alg = ""%string ∨ alg = "CRC32"%string → up_alg up = alg →
  PartNumber <$> parts = seqZ 1 num → Forall (λ cp, part_named up cp (part_at lim size data 0 (PartNumber cp))) parts →
  complete_wf up parts size (part_at lim size data 0 <$> seqZ 1 num).
Proof.
  intros Hlen Halg <- Hp Hf. destruct (numParts_spec lim size Hlim Hsize) as [Hnum _].
  destruct (partSizeFor_spec lim size Hlim Hsize) as [Hps _]. split_and!.
  - intros ->. rewrite seqZ_cons in Hp by lia. done.
  - rewrite Hp. apply seqZ_sorted.
  - rewrite <- Hp, <- list_fmap_compose. apply Forall2_fmap_r. by apply Forall_Forall2_diag.
  - done.
  - rewrite concat_parts by (done || lia). unfold section, blen in *. rewrite length_take, drop_0. lia.
  - lia.
  - intros i b Hi. rewrite length_fmap, length_seqZ in Hi. rewrite list_lookup_fmap, lookup_seqZ_lt by lia.
    cbn. intros [= <-]. rewrite part_len, partLen_spec by (done || lia). destruct (Z.ltb_spec (1 + Z.of_nat i) num); [sizes; lia|lia].
  - apply Forall_fmap, Forall_forall. intros n [Hn1 Hn2]%elem_of_seqZ. cbn.
    rewrite part_len by (done || lia). apply plan_at. lia.
Qed.

Lemma plan_data data : size = blen data → concat (part_at lim size data 0 <$> seqZ 1 num) = data.
Proof.
  intros Hlen. rewrite concat_parts by (done || lia). unfold section, blen in *. rewrite drop_0. apply take_ge. lia.
Qed.
End plan.

(** ** Completing an upload, and cleaning up *)

Section whole.
Context (fk : string) (conditional : bool) (ifMatch : string) (d : bytes).
Hypothesis Q_put : ∀ v v' t, Q v → b_objs (view v') = <[fk := mkSObj d t]> (b_objs (view v)) → Q v'.

Abbreviation c := (if conditional then precondition ifMatch else no_conds).

Lemma c_noempty : IfMatch c ≠ Some ""%string.
Proof. destruct conditional; [apply precondition_noempty|done]. Qed.

(** Requests that change no object; an upload may appear. *)
Definition reads_entry (e : entry V) : Prop := b_objs (view (en_after e)) = b_objs (view (en_before e)) ∧ Q (en_before e).

(** No upload appears: none of id [i], none at all. *)
Definition none_at (i : string) (e : entry V) : Prop :=
  b_uploads (view (en_before e)) !! i = None → b_uploads (view (en_after e)) !! i = None.
Definition none_new (e : entry V) : Prop := ∀ i, none_at i e.

(** The request that stores the object: its condition holds then. *)
Definition committed (e : entry V) : Prop :=
  Q (en_before e) ∧ cond_holds c (b_objs (view (en_before e)) !! fk) = true ∧ none_new e
  ∧ ∃ t, b_objs (view (en_after e)) = <[fk := mkSObj d t]> (b_objs (view (en_before e))).

Definition commits (lost : bool) (w w' : sworld V) : Prop :=
  lawful Q w' ∧ (∀ i, issued (sw_srv w) i → issued (sw_srv w') i)
  ∧ ∃ v1, sw_log w' = mkEntry v1 (sw_srv w') lost :: sw_log w ∧ committed (mkEntry v1 (sw_srv w') lost)
          ∧ (scalm w → scalm w' ∧ v1 = sw_srv w).

(** The request that is refused: its condition does not hold. *)
Definition refused (w w' : sworld V) : Prop :=
  inner w w' ∧ ∃ e, sw_log w' = e :: sw_log w ∧ cond_holds c (b_objs (view (en_before e)) !! fk) = false
                      ∧ quiet_entry Q e ∧ (scalm w → met (sw_srv w) e).

(** The upload is there, and it is one of [fk]. *)
Definition keyed (id : string) (v : V) : Prop := ∃ up, b_uploads (view v) !! id = Some up ∧ up_key up = fk.

(** The errors of an upload, and with them what a failed abort adds. *)
Definition put_err (e : error) : Prop := e = [EIO] ∨ conditional = true ∧ e = [ErrCAS].
Definition or_abort (e e' : error) : Prop := e' = e ∨ e' = EAbort :: e.

Lemma fail_put_err e : put_err (if conditional then cas_error ifMatch e else [EIO]).
Proof. unfold put_err, cas_error. destruct conditional; [|by left]. repeat case_match; auto. Qed.

Section completing.
Context (id alg : string) (f : Z → bytes) (num size : Z).
Hypothesis Hdata : concat (f <$> seqZ 1 num) = d.
Hypothesis Hwf : ∀ up parts, up_alg up = alg → PartNumber <$> parts = seqZ 1 num →
  Forall (λ cp, part_named up cp (f (PartNumber cp))) parts → complete_wf up parts size (f <$> seqZ 1 num).

Lemma named_data up parts ds : Forall (λ cp, part_named up cp (f (PartNumber cp))) parts →
  PartNumber <$> parts = seqZ 1 num → Forall2 (λ p b, sp_data <$> up_parts up !! PartNumber p = Some b) parts ds → concat ds = d.
Proof.
  intros Hf Hp H2. rewrite <- Hdata, <- Hp, <- list_fmap_compose. f_equal. clear Hp.
  induction H2 as [|p b parts ds Hb H2 IH]; [done|]. apply Forall_cons in Hf as [(sp & Hl & _ & Hd & _) Hf].
  rewrite Hl in Hb. cbn in Hb. injection Hb as <-. cbn [fmap list_fmap]. rewrite (IH Hf). cbn. by rewrite Hd.
Qed.

Lemma complete_request parts w x w' : lawful Q w → assembled fk id alg f num parts (sw_srv w) →
  call (CompleteMultipartUpload (s_bucket s) fk id parts size c) w = (x, w') →
  ∃ y, x = Ok y ∧
  ((∃ t, y = Resp t ∧ commits false w w' ∧ b_uploads (view (sw_srv w')) !! id = None)
   ∨ (∃ e, y = SdkErr e ∧ commits true w w' ∧ ¬ scalm w)
   ∨ (∃ e cur, y = SdkErr e ∧ refused w w' ∧ cond_err c cur e ∧ keyed id (sw_srv w'))
   ∨ (∃ e, y = SdkErr e ∧ inner w w' ∧ ¬ (scalm w ∧ pending id (sw_srv w)))).
Proof.
  intros Hw [Hup Hp] Ec. destruct (call_called _ _ _ _ _ Hw Ec) as (y & -> & Hc & Hs & Hcalm). exists y. split; [done|].
  assert (∀ v1 y l, others (sw_srv w) v1 → Q v1 → (scalm w → v1 = sw_srv w) →
    CompleteMultipartUpload (s_bucket s) fk id parts size c v1 = (y, sw_srv w') →
    sw_log w' = mkEntry v1 (sw_srv w') l :: sw_log w →
    match y with
    | Resp _ => commits l w w' ∧ b_uploads (view (sw_srv w')) !! id = None
    | SdkErr e => inner w w' ∧ (pending id v1 → ∃ cur, cond_err c cur e ∧ refused w w')
                  ∧ (pending id v1 → keyed id (sw_srv w'))
    end) as Hop.
  { intros v1 y' l Ho HQ Hv Hop Hl. assert (srv_ok v1) as Hok1 by apply Ho.
    pose proof (up_inv_others _ _ _ _ _ _ _ Ho Hup) as Hup1.
    destruct (law_complete _ _ _ _ _ _ _ _ Hok1 (proj1 Hup1) c_noempty Hop) as [Hsafe Hprog]. destruct y' as [t|e].
    - destruct Hsafe as (up & ds & t' & Hu & Hk & Hds & Hcond & Hok & Hi & Hview). destruct (proj2 Hup1 _ Hu) as (_ & _ & Hf).
      rewrite (named_data _ _ _ Hf Hp Hds) in Hview. split; [|rewrite Hview; apply lookup_delete_eq].
      split; [|split; [intros i Hii; apply Hi; by apply Ho|]].
      + split; [done|]. split; [|done]. eapply Q_put; [exact HQ|by rewrite Hview].
      + exists v1. split; [done|]. split; [|auto]. split; [done|]. split; [done|]. split; [|exists t'; by cbn; rewrite Hview].
        intros i Hi'. cbn in *. rewrite Hview. cbn. destruct (decide (i = id)) as [->|Hne]; [apply lookup_delete_eq|].
        by rewrite lookup_delete_ne by congruence.
    - assert (inner w w') as Hin.
      { eapply inner_entry; try done; [apply Hsafe|intros i; apply Hsafe|by rewrite (proj2 (proj2 Hsafe))|by apply quiet_same|auto]. }
      split; [done|]. split; [|intros [up Hu]; exists up; rewrite (proj2 (proj2 Hsafe)); split; [done|by destruct (proj2 Hup1 _ Hu)]].
      intros [up Hu]. destruct (proj2 Hup1 _ Hu) as (Hk & Ha & Hf).
      specialize (Hprog up _ Hu Hk (Hwf _ _ Ha Hp Hf)). destruct (cond_holds c (b_objs (view v1) !! fk)) eqn:Ecn.
      { by destruct Hprog. }
      destruct Hprog as (e' & [= <-] & He). eexists. split; [exact He|]. split; [done|]. eexists. split; [exact Hl|].
      split; [done|]. split; [by apply quiet_same|]. intros Hsc. unfold met. cbn. by rewrite (Hv Hsc). }
  inversion Hc as [v1 x' Ho HQ Hv Hreq Hl|v1 x' e Ho HQ Hnc Hreq Hnf Hl|e Ho HQ Hnc Hnf Hl]; subst y; clear Hc.
  - pose proof (Hop _ _ _ Ho HQ Hv Hreq Hl) as Hx. destruct x' as [t|e].
    + left. exists t. by destruct Hx.
    + destruct Hx as (Hin & Hr & Hpd). right; right. destruct (b_uploads (view v1) !! id) as [up|] eqn:Eu.
      * left. destruct (Hr ltac:(by eexists)) as (cur & Hcur & Href). exists e, cur. split_and!; try done. apply Hpd. by eexists.
      * right. exists e. split; [done|]. split; [done|]. intros [Hsc [up Hpe]]. rewrite (Hv Hsc) in Eu. congruence.
  - pose proof (Hop _ _ _ Ho HQ ltac:(done) Hreq Hl) as Hx. destruct x' as [t|e'].
    + right; left. exists e. by destruct Hx.
    + right; right; right. exists e. split; [done|]. split; [apply Hx|tauto].
  - right; right; right. exists e. split; [done|]. split; [by apply inner_not|tauto].
Qed.

(** The parts and the completion. *)
Inductive body_outcome (w w' : sworld V) : res string → Prop :=
  | body_stored t w1 : inner w w1 → commits false w1 w' → b_uploads (view (sw_srv w')) !! id = None → body_outcome w w' (Ok t)
  | body_lost e w1 : inner w w1 → commits true w1 w' → ¬ scalm w → put_err e → body_outcome w w' (Err e)
  | body_refused w1 : inner w w1 → refused w1 w' → keyed id (sw_srv w') → body_outcome w w' (Err [ErrCAS])
  | body_failed e : inner w w' → ¬ (scalm w ∧ pending id (sw_srv w)) → put_err e → body_outcome w w' (Err e).

Lemma body_done P w r w' : (∀ rp w1, P w = (rp, w1) → parts_done Q fk id alg f num w w1 rp) →
  (parts ← P; complete_upload s fk id parts size ifMatch conditional) w = (r, w') → body_outcome w w' r.
Proof.
  intros HP E. unfold mbind, sio_bind in E. destruct (P w) as [rp w1] eqn:EP. destruct (HP _ _ eq_refl) as (Hin & Hr & Hcalm).
  destruct Hr as [->|(parts & -> & Has)].
  { injection E as <- <-. apply body_failed; [done| |by left]. intros [Hs Hp]. by destruct (Hcalm Hs Hp). }
  unfold complete_upload, mbind, sio_bind, mret, sio_ret, sfail in E.
  destruct (call _ w1) as [r1 w2] eqn:Ec. eapply complete_request in Ec as (y & -> & Hy); [|apply Hin|exact Has].
  destruct Hy as [(t & -> & Hy & Hgone)|[(e & -> & Hy & Hn)|[(e & cur & -> & Hy & Hce & Hk)|(e & -> & Hy & Hn)]]];
    injection E as <- <-.
  - by eapply body_stored.
  - eapply body_lost; [done|done| |apply fail_put_err]. intros Hs. apply Hn. by eapply inner_calm.
  - assert (conditional = true) as Hcd.
    { destruct Hy as (_ & e' & _ & Hf & _). revert Hf. by destruct conditional. }
    rewrite Hcd in Hce |- *. rewrite (cas_error_cond _ _ _ Hce). by eapply body_refused.
  - apply body_failed; [by eapply inner_trans| |apply fail_put_err]. intros [Hs Hp]. apply Hn.
    split; [by eapply inner_calm|]. by apply Hcalm.
Qed.
End completing.

(** The deferred abort. *)
Lemma abort_done {A} id (body : SIO V A) w r w' : abortUnlessCompleted s fk id body w = (r, w') →
  ∃ r0 w0, body w = (r0, w0) ∧
  match r0 with
  | Ok a => r = Ok a ∧ w' = w0
  | Err e => lawful Q w0 → issued (sw_srv w0) id → inner w0 w'
      ∧ ((r = Err e ∧ b_uploads (view (sw_srv w')) !! id = None) ∨ (r = Err (EAbort :: e) ∧ ¬ (scalm w0 ∧ keyed id (sw_srv w0))))
  end.
Proof.
  intros E. unfold abortUnlessCompleted, mbind, sio_bind, stry in E. destruct (body w) as [r0 w0]. exists r0, w0.
  split; [done|]. destruct r0 as [a|e]; [unfold mret, sio_ret in E; by simplify_eq|]. intros Hw Hid. unfold sfail in E.
  destruct (call _ w0) as [r1 w1] eqn:Ec. destruct (call_called _ _ _ _ _ Hw Ec) as (x & -> & Hc & Hs & Hcalm).
  assert (w1 = w' ∧ r = match x with Resp _ => Err e | SdkErr _ => Err (EAbort :: e) end) as [-> ->] by (by destruct x; simplify_eq). clear E.
  assert (∀ v1 y l, others (sw_srv w0) v1 → Q v1 → (scalm w0 → v1 = sw_srv w0) →
    AbortMultipartUpload (s_bucket s) fk id v1 = (y, sw_srv w') → sw_log w' = mkEntry v1 (sw_srv w') l :: sw_log w0 →
    inner w0 w' ∧ match y with
                  | Resp _ => b_uploads (view (sw_srv w')) !! id = None
                  | SdkErr _ => ¬ (scalm w0 ∧ keyed id (sw_srv w0))
                  end) as Hop.
  { intros v1 y l Ho HQ Hv Hop Hl. assert (srv_ok v1) as Hok1 by apply Ho. assert (issued v1 id) as Hid1 by by apply Ho.
    destruct (law_abort _ _ _ _ _ Hok1 Hid1 Hop) as [Hsafe Hprog]. destruct y as [u|e'].
    - destruct Hsafe as (Hok & Hi & Hview). split; [|rewrite Hview; apply lookup_delete_eq].
      eapply inner_entry; try done; [intros i; apply Hi|by rewrite Hview| |auto].
      split; [cbn; by rewrite Hview|]. split; [done|]. cbn. intros i Hn. rewrite Hview. cbn.
      destruct (decide (i = id)) as [->|Hne]; [apply lookup_delete_eq|by rewrite lookup_delete_ne by congruence].
    - split; [|intros (Hsc & up & Hu & Hk); rewrite <- (Hv Hsc) in Hu; by specialize (Hprog _ Hu Hk)].
      eapply inner_entry; try done; [apply Hsafe|intros i; apply Hsafe|by rewrite (proj2 (proj2 Hsafe))|by apply quiet_same|auto]. }
  inversion Hc as [v1 x' Ho HQ Hv Hreq Hl|v1 x' e' Ho HQ Hnc Hreq Hnf Hl|e' Ho HQ Hnc Hnf Hl]; subst x; clear Hc.
  - destruct (Hop _ _ _ Ho HQ Hv Hreq Hl) as [Hin Hx]. split; [done|]. destruct x'; [by left|by right].
  - destruct (Hop _ _ _ Ho HQ ltac:(done) Hreq Hl) as [Hin _]. split; [done|]. right. split; [done|tauto].
  - split; [by apply inner_not|]. right. split; [done|tauto].
Qed.

(** ** The whole upload *)

Abbreviation read := (went Q reads_entry).

Inductive put_outcome (w w' : sworld V) : res string → Prop :=
  | put_stored t w1 : read w w1 → commits false w1 w' → put_outcome w w' (Ok t)
  | put_lost e e' w1 w2 : read w w1 → commits true w1 w2 → read w2 w' → ¬ scalm w → put_err e → or_abort e e' →
      put_outcome w w' (Err e')
  | put_refused e' w1 w2 : read w w1 → refused w1 w2 → read w2 w' → or_abort [ErrCAS] e' → (scalm w → e' = [ErrCAS]) →
      put_outcome w w' (Err e')
  | put_failed e e' : read w w' → ¬ scalm w → put_err e → or_abort e e' → put_outcome w w' (Err e').

Lemma inner_read w w' : inner w w' → read w w'.
Proof. apply went_weaken. intros e (H1 & H2 & _). done. Qed.

(** Of the requests since [w], those answered made no upload appear that is still
    in progress, unless the error says that it could not be aborted. *)
Definition leaves_none_open (w w' : sworld V) {A} (r : res A) : Prop :=
  ∃ es, sw_log w' = (es ++ sw_log w)%list ∧ ∀ e id, e ∈ es → en_lost e = false →
    b_uploads (view (en_before e)) !! id = None → b_uploads (view (en_after e)) !! id ≠ None →
    b_uploads (view (sw_srv w')) !! id = None ∨ ∃ err, r = Err (EAbort :: err).

Definition adds_none (w w' : sworld V) : Prop := ∃ es, sw_log w' = (es ++ sw_log w)%list ∧ Forall none_new es.

Lemma adds_none_trans w1 w2 w3 : adds_none w1 w2 → adds_none w2 w3 → adds_none w1 w3.
Proof.
  intros (es1 & E1 & F1) (es2 & E2 & F2). exists (es2 ++ es1)%list. rewrite E2, E1, app_assoc. split; [done|by apply Forall_app].
Qed.

Lemma inner_adds_none w w' : inner w w' → adds_none w w'.
Proof. intros (_ & _ & es & E & F & _). exists es. split; [done|]. eapply Forall_impl; [exact F|]. by intros e (_ & _ & ?). Qed.

Lemma commits_adds_none l w w' : commits l w w' → adds_none w w'.
Proof. intros (_ & _ & v1 & E & (_ & _ & Hn & _) & _). exists [mkEntry v1 (sw_srv w') l]. split; [done|by apply Forall_singleton]. Qed.

(** The one upload that may be there. *)
Lemma leaves_after {A} w w1 w' (r : res A) e id : sw_log w1 = e :: sw_log w → adds_none w1 w' →
  (∀ i, i ≠ id → none_at i e) → (en_lost e = false → b_uploads (view (sw_srv w')) !! id = None ∨ ∃ err, r = Err (EAbort :: err)) →
  leaves_none_open w w' r.
Proof.
  intros E1 (es & E & F) Hi Hgone. exists (es ++ [e])%list. rewrite E, E1, <- app_assoc. split; [done|].
  intros e' i Hin Hl Hb Ha. apply elem_of_app in Hin as [Hin| ->%list_elem_of_singleton].
  - rewrite Forall_forall in F. by destruct (F _ Hin i Hb).
  - destruct (decide (i = id)) as [->|Hne]; [by apply Hgone|]. by destruct (Hi i Hne Hb).
Qed.

(** The upload, once it has been created. *)
Lemma uploaded id alg f num size P w r w' :
  concat (f <$> seqZ 1 num) = d →
  (∀ up parts, up_alg up = alg → PartNumber <$> parts = seqZ 1 num →
     Forall (λ cp, part_named up cp (f (PartNumber cp))) parts → complete_wf up parts size (f <$> seqZ 1 num)) →
  (∀ rp w1, P w = (rp, w1) → parts_done Q fk id alg f num w w1 rp) →
  lawful Q w → issued (sw_srv w) id → pending id (sw_srv w) →
  abortUnlessCompleted s fk id (parts ← P; complete_upload s fk id parts size ifMatch conditional) w = (r, w') →
  put_outcome w w' r ∧ adds_none w w' ∧ (b_uploads (view (sw_srv w')) !! id = None ∨ ∃ err, r = Err (EAbort :: err)).
Proof.
  intros Hdata Hwf HP Hw Hid Hpe E. apply abort_done in E as (r0 & w0 & E & Ha).
  eapply body_done in E; [|exact Hdata|exact Hwf|exact HP].
  assert (∀ e, r0 = Err e → lawful Q w0 → issued (sw_srv w0) id → inner w0 w' ∧ ∃ e', r = Err e' ∧ or_abort e e'
    ∧ (b_uploads (view (sw_srv w')) !! id = None ∨ ∃ err, e' = EAbort :: err) ∧ (scalm w0 → keyed id (sw_srv w0) → e' = e)) as Herr.
  { intros e -> Hw0 Hid0. destruct (Ha Hw0 Hid0) as [Hin [[-> Hg]|[-> Hn]]]; (split; [done|]); eexists; (split; [done|]).
    - split; [by left|]. split; [by left|done].
    - split; [by right|]. split; [right; by eexists|]. intros Hs Hk. by destruct Hn. }
  assert (∀ e', (b_uploads (view (sw_srv w')) !! id = None ∨ ∃ err, e' = EAbort :: err) → r = Err e' →
    b_uploads (view (sw_srv w')) !! id = None ∨ ∃ err, r = Err (EAbort :: err)) as Hlast.
  { intros e' [?|[err ->]] ->; [by left|right; by eexists]. }
  destruct E as [t w1 H1 H2 Hg|e w1 H1 H2 Hn He|w1 H1 H2 Hk|e H1 Hn He].
  - destruct Ha as [-> ->]. split; [eapply put_stored; [by apply inner_read|done]|]. split; [|by left].
    eapply adds_none_trans; [by apply inner_adds_none|by eapply commits_adds_none].
  - destruct (Herr e eq_refl) as (Hin & e' & -> & Hor & Hg & _); [apply H2|apply H2; by apply H1|].
    split; [eapply put_lost; [by apply inner_read|done|by apply inner_read|done|done|done]|]. split; [|by apply (Hlast e')].
    eapply adds_none_trans; [by apply inner_adds_none|]. eapply adds_none_trans; [by eapply commits_adds_none|by apply inner_adds_none].
  - destruct (Herr _ eq_refl) as (Hin & e' & -> & Hor & Hg & Hc); [apply H2|apply H2; by apply H1|].
    pose proof (proj1 H2) as Hin2. split; [|split; [|by apply (Hlast e')]].
    + eapply put_refused; [by apply inner_read|exact H2|by apply inner_read|done|]. intros Hs. apply Hc; [|done].
      eapply inner_calm; [exact Hin2|]. by eapply inner_calm.
    + eapply adds_none_trans; [by apply inner_adds_none|]. eapply adds_none_trans; by apply inner_adds_none.
  - destruct (Herr e eq_refl) as (Hin & e' & -> & Hor & Hg & _); [apply H1|by apply H1|].
    split; [eapply put_failed; [apply inner_read; by eapply inner_trans| |done|done]|]; [tauto|]. split; [|by apply (Hlast e')].
    eapply adds_none_trans; by apply inner_adds_none.
Qed.

(** Created, and uploaded. *)
Lemma whole_done alg f num size P w r w' :
  concat (f <$> seqZ 1 num) = d →
  (∀ up parts, up_alg up = alg → PartNumber <$> parts = seqZ 1 num →
     Forall (λ cp, part_named up cp (f (PartNumber cp))) parts → complete_wf up parts size (f <$> seqZ 1 num)) →
  (∀ id w1, lawful Q w1 → up_inv fk id alg f [] (sw_srv w1) → ∀ rp w2, P id w1 = (rp, w2) → parts_done Q fk id alg f num w1 w2 rp) →
  lawful Q w →
  (created ← call (CreateMultipartUpload (s_bucket s) fk alg);
   match created with
   | SdkErr _ => sfail [EIO]
   | Resp id => abortUnlessCompleted s fk id (parts ← P id; complete_upload s fk id parts size ifMatch conditional)
   end) w = (r, w') → put_outcome w w' r ∧ leaves_none_open w w' r.
Proof.
  intros Hdata Hwf HP Hw E. unfold mbind at 1, sio_bind at 1 in E. unfold sfail in E.
  destruct (call _ w) as [r1 w1] eqn:Ec. destruct (call_called _ _ _ _ _ Hw Ec) as (x & -> & Hc & Hs & Hcalm). clear Ec.
  assert (∀ v1 y l, others (sw_srv w) v1 → Q v1 → (scalm w → v1 = sw_srv w) →
    CreateMultipartUpload (s_bucket s) fk alg v1 = (y, sw_srv w1) → sw_log w1 = mkEntry v1 (sw_srv w1) l :: sw_log w →
    read w w1 ∧ ∃ id, y = Resp id ∧ issued (sw_srv w1) id ∧ b_uploads (view (sw_srv w1)) !! id = Some (mkUp fk alg ∅)
    ∧ ∀ i, i ≠ id → none_at i (mkEntry v1 (sw_srv w1) l)) as Hop.
  { intros v1 y l Ho HQ Hv Hop Hl. assert (srv_ok v1) as Hok1 by apply Ho.
    destruct (law_create _ _ _ _ _ Hok1 Hop) as (id & -> & _ & Hok & Hi & Hview). split.
    - eapply inner_entry; try done; [intros i Hii; apply Hi; by right|by rewrite Hview| |auto].
      split; [cbn; by rewrite Hview|done].
    - exists id. split; [done|]. split; [apply Hi; by left|]. split; [rewrite Hview; apply lookup_insert_eq|].
      intros i Hne Hb. cbn in *. rewrite Hview. cbn. by rewrite lookup_insert_ne by congruence. }
  inversion Hc as [v1 x' Ho HQ Hv Hreq Hl|v1 x' e Ho HQ Hnc Hreq Hnf Hl|e Ho HQ Hnc Hnf Hl]; subst x; clear Hc.
  - destruct (Hop _ _ _ Ho HQ Hv Hreq Hl) as (Hrd & id & -> & Hid & Hu & Hne).
    eapply uploaded in E as (Hout & Hnone & Hg); [|exact Hdata|exact Hwf| |apply Hrd|exact Hid|by eexists].
    2:{ apply HP; [apply Hrd|]. split; [done|]. intros up. rewrite Hu. by intros [= <-]. }
    split; [|by eapply leaves_after].
    assert (scalm w → scalm w1) as Hsc by (intros Hsc; by eapply inner_calm).
    destruct Hout as [t w2 H1 H2|e e' w2 w3 H1 H2 H3 Hn He Hor|e' w2 w3 H1 H2 H3 Hor Hcl|e e' H1 Hn He Hor].
    + eapply put_stored; [by eapply inner_trans|done].
    + eapply put_lost; [by eapply inner_trans|done|done|tauto|done|done].
    + eapply put_refused; [by eapply inner_trans|done|done|done|tauto].
    + eapply put_failed; [by eapply inner_trans|tauto|done|done].
  - injection E as <- <-. destruct (Hop _ _ _ Ho HQ ltac:(done) Hreq Hl) as (Hrd & id & -> & Hid & Hu & Hne). split.
    + eapply put_failed; [done|done|by left|by left].
    + eapply (leaves_after _ _ _ _ _ id); [exact Hl|by exists []|exact Hne|done].
  - injection E as <- <-. split.
    + eapply put_failed; [by apply inner_not|done|by left|by left].
    + exists []. split; [done|]. intros e' i ?%not_elem_of_nil. done.
Qed.
End whole.
End s3_upload.

(** ** What the callers see

    [s3_refines_backend]: each operation is one call of [Backend];
    [multipart_settles_upload]: no upload is left in progress without an error
    that says so; [copy_object_exact]: a copy stores the source's bytes. *)

Section s3_upload_props.
Context {V : Type} `{S3Client V} `{S3View V} (s : S3) `{!S3Laws V (s_bucket s)}.

Section outcome.
Context (Q : V → Prop).
Hypothesis Q_objs : ∀ v v', b_objs (view v') = b_objs (view v) → Q v → Q v'.

Abbreviation inner := (went Q (quiet_entry Q)).
Abbreviation read := (went Q (reads_entry Q)).

Lemma reads_before fk c i d w w1 w' x : read w w1 → put_outcome Q fk c i d w1 w' x → put_outcome Q fk c i d w w' x.
Proof.
  intros Hrd Hout. assert (scalm w → scalm w1) as Hsc by (intros Hs; by eapply inner_calm).
  destruct Hout as [t w2 H1 H2|e e' w2 w3 H1 H2 H3 Hn He Hor|e' w2 w3 H1 H2 H3 Hor Hcl|e e' H1 Hn He Hor].
  - eapply put_stored; [by eapply inner_trans|done].
  - eapply put_lost; [by eapply inner_trans|done|done|tauto|done|done].
  - eapply put_refused; [by eapply inner_trans|done|done|done|tauto].
  - eapply put_failed; [by eapply inner_trans|tauto|done|done].
Qed.

Lemma leaves_before {A} w w1 w' (x : res A) : adds_none w w1 → leaves_none_open w1 w' x → leaves_none_open w w' x.
Proof.
  intros (es1 & E1 & F1) (es2 & E2 & F2). exists (es2 ++ es1)%list. rewrite E2, E1, app_assoc. split; [done|].
  intros e id [Hin|Hin]%elem_of_app Hl Hb Ha; [by eapply F2|]. rewrite Forall_forall in F1. by destruct (F1 _ Hin id Hb).
Qed.

Lemma leaves_map {A B} w w' (x : res A) (y : res B) : (∀ e, x = Err e → y = Err e) → leaves_none_open w w' x → leaves_none_open w w' y.
Proof.
  intros Hxy (es & E & F). exists es. split; [done|]. intros e id Hin Hl Hb Ha.
  destruct (F e id Hin Hl Hb Ha) as [?|[err Hx]]; [by left|right; exists err; by apply Hxy].
Qed.

(** The create-only preflight. *)
Lemma preflight_done fk ifMatch conditional w x w1 : lawful Q w →
  preflight s fk ifMatch conditional w = (x, w1) →
  inner w w1 ∧ ∃ b, x = Ok b ∧ (b = true → conditional = true ∧ refused Q fk conditional ifMatch w w1).
Proof.
  intros Hw E. unfold preflight in E. destruct (conditional && bool_decide (ifMatch = ""%string)) eqn:Eb; last first.
  { injection E as <- <-. split; [by apply inner_refl|]. by exists false. }
  apply andb_true_iff in Eb as [-> ->%bool_decide_eq_true]. unfold mbind, sio_bind, mret, sio_ret in E.
  destruct (call _ w) as [r1 w2] eqn:Ec. destruct (call_called _ _ _ _ _ Hw Ec) as (y & -> & Hc & Hs & Hcalm).
  assert (w2 = w1 ∧ x = Ok (match y with Resp _ => true | SdkErr _ => false end)) as [-> ->] by (by simplify_eq). clear E.
  assert (∀ v1 y' l, others (sw_srv w) v1 → Q v1 → (scalm w → v1 = sw_srv w) →
    HeadObject (s_bucket s) fk v1 = (y', sw_srv w1) → sw_log w1 = mkEntry v1 (sw_srv w1) l :: sw_log w →
    inner w w1 ∧ (∀ a, y' = Resp a → refused Q fk true "" w w1)) as Hop.
  { intros v1 y' l Ho HQ Hv Hop Hl. destruct (law_head _ _ _ _ ltac:(apply Ho) Hop) as [Hsame Hx].
    assert (inner w w1) as Hin.
    { eapply inner_entry; try done; [apply Hsame|intros i; apply Hsame|by rewrite (proj2 (proj2 Hsame))|by apply quiet_same|auto]. }
    split; [done|]. intros a ->. split; [done|]. eexists. split; [exact Hl|]. cbn.
    destruct (b_objs (view v1) !! fk) as [so|]; [|by destruct Hx as (? & ? & ?)].
    split; [done|]. split; [by apply quiet_same|]. intros Hsc. unfold met. cbn. by rewrite (Hv Hsc). }
  inversion Hc as [v1 x' Ho HQ Hv Hreq Hl|v1 x' e' Ho HQ Hnc Hreq Hnf Hl|e' Ho HQ Hnc Hnf Hl]; subst y; clear Hc.
  - destruct (Hop _ _ _ Ho HQ Hv Hreq Hl) as [Hin Hx]. split; [done|]. eexists. split; [done|]. destruct x'; [|done]. by eauto.
  - destruct (Hop _ _ _ Ho HQ ltac:(done) Hreq Hl) as [Hin Hx]. split; [done|]. by eexists.
  - split; [by apply inner_not|]. by eexists.
Qed.

Context (lim : limits) (size : Z).
Hypothesis Hlim : lim_ok lim.
Hypothesis Hsize : 0 < size <= object_max.

Lemma putMultipart_done key fk r ifMatch conditional w x w' :
  (∀ v v' t, Q v → b_objs (view v') = <[fk := mkSObj (rd_rest r) t]> (b_objs (view v)) → Q v') →
  full s key = Ok fk → size = blen (rd_rest r) → Z.of_nat (rd_pos r) + size < 2 ^ 63 → lawful Q w →
  putMultipart lim s key r size ifMatch conditional w = (x, w') →
  put_outcome Q fk conditional ifMatch (rd_rest r) w w' x ∧ leaves_none_open w w' x.
Proof.
  intros Q_put Ek Hd Hpos Hw E. unfold putMultipart in E. unfold mbind at 1, sio_bind at 1, slift in E. rewrite Ek in E.
  unfold mbind at 1, sio_bind at 1 in E. destruct (preflight s fk ifMatch conditional w) as [rp w1] eqn:Ep.
  destruct (preflight_done _ _ _ _ _ _ Hw Ep) as (Hin & ex & -> & Hex). destruct ex.
  - injection E as <- <-. destruct (Hex eq_refl) as [Hcd Href]. split.
    + eapply put_refused; [by apply inner_refl|exact Href|apply inner_refl, Hin|by left|done].
    + destruct (inner_adds_none _ _ _ Hin) as (es & El & Hf). exists es. split; [done|]. intros e id Hin' _ Hb Ha.
      rewrite Forall_forall in Hf. by destruct (Hf _ Hin' id Hb).
  - eapply (whole_done s Q Q_objs fk conditional ifMatch (rd_rest r) Q_put "CRC32" (part_at lim size (rd_rest r) 0)
      (numParts size (partSizeFor lim size)) size (λ id, upload_parts lim s fk id r size)) in E as [Hout Hleft].
    + split; [eapply reads_before; [by apply inner_read|done]|]. eapply leaves_before; [by eapply inner_adds_none|done].
    + by apply plan_data.
    + intros up parts Hup Hp Hf. eapply plan_wf; try done; [lia|by right].
    + intros id w2 Hw2 Hup rp w3 E3. eapply upload_parts_done; try done. lia.
    + apply Hin.
Qed.

Definition forget {A} (r : res A) : res unit := match r with Ok _ => Ok () | Err e => Err e end.

Lemma abort_forget {A} fk id (m : SIO V A) (m' : SIO V unit) w : m' w = (let '(r, w') := m w in (forget r, w')) →
  abortUnlessCompleted s fk id m' w = (let '(r, w') := abortUnlessCompleted s fk id m w in (forget r, w')).
Proof.
  intros E. unfold abortUnlessCompleted, stry, mbind, sio_bind, mret, sio_ret, sfail. rewrite E. destruct (m w) as [[a|e] w1]; [done|].
  cbn. by destruct (call _ w1) as [[[[]|]|] w2].
Qed.

(** A copy in parts, of an object that nobody changes. *)
Lemma copyMultipart_done fsrc fdst data w x w' :
  (∀ v v' t, Q v → b_objs (view v') = <[fdst := mkSObj data t]> (b_objs (view v)) → Q v') →
  (∀ v, Q v → ∃ o, b_objs (view v) !! fsrc = Some o ∧ so_data o = data) → size = blen data → part_min < size → lawful Q w →
  copyObjectMultipart lim s fsrc fdst size w = (x, w') →
  ∃ y, x = forget y ∧ put_outcome Q fdst false "" data w w' y ∧ leaves_none_open w w' x.
Proof.
  intros Q_put Hsrc Hd Hmin Hw E. pose (ps := partSizeFor lim size).
  pose (P := λ id, copy_parts s (S (Z.to_nat (numParts size ps))) fdst id (s3CopySource (s_bucket s) fsrc) size ps 0 1 []).
  pose (prog := (created ← call (CreateMultipartUpload (s_bucket s) fdst "");
    match created with
    | SdkErr _ => sfail [EIO]
    | Resp id => abortUnlessCompleted s fdst id (parts ← P id; complete_upload s fdst id parts size "" false)
    end) : SIO V string).
  destruct (prog w) as [y w1] eqn:Ey.
  assert (x = forget y ∧ w1 = w') as [-> ->].
  { unfold copyObjectMultipart, prog in *. unfold mbind at 1, sio_bind at 1 in E. unfold mbind at 1, sio_bind at 1 in Ey.
    destruct (call _ w) as [[[id|e]|e] w2]; [|unfold sfail in *; by simplify_eq..].
    rewrite (abort_forget _ _ (parts ← P id; complete_upload s fdst id parts size "" false)) in E; [rewrite Ey in E; by simplify_eq|].
    unfold mbind, sio_bind, mret, sio_ret. fold ps. fold (P id). destruct (P id w2) as [[parts|e] w3]; [|done].
    by destruct (complete_upload s fdst id parts size "" false w3) as [[?|?] ?]. }
  exists y. split; [done|].
  eapply (whole_done s Q Q_objs fdst false "" data Q_put "" (part_at lim size data 0) (numParts size ps) size P) in Ey as [Hout Hleft].
  - split; [done|]. eapply leaves_map; [|exact Hleft]. by intros e ->.
  - by apply plan_data.
  - intros up parts Hup Hp Hf. eapply plan_wf; try done; [lia|by left].
  - intros id w2 Hw2 Hup rp w3 E3. unfold P in E3. change 0 with ((1 - 1) * ps) in E3.
    eapply (copy_done s Q Q_objs lim size fdst id Hlim Hsize fsrc data Hd Hmin Hsrc) in E3; [exact E3|fold ps; lia|fold ps|done..].
    destruct (numParts_spec lim size Hlim Hsize) as [Hn _]. fold ps in Hn. lia.
  - done.
Qed.
End outcome.

(** ** No upload left in progress *)

(** C19: An upload in parts settles what it started.  Of the uploads that its
    answered requests created, its last request left none in progress: each was
    completed, or aborted by a request the service acknowledged, or the error
    says that the abort failed ([EAbort]).  This holds whatever other clients
    and the transport do, and though parts whose requests were given up may
    reach an upload at any later moment while it is in progress.  What the
    service goes on storing of an upload that is over, such as a part that was
    on its way when the abort was acknowledged, is not spoken of; nor is an
    upload whose creation was never answered. *)
Theorem multipart_settles_upload lim key r size ifMatch conditional w x w' : lim_ok lim → 0 < size <= object_max →
  size = blen (rd_rest r) → Z.of_nat (rd_pos r) + size < 2 ^ 63 → lawful (λ _, True) w →
  putMultipart lim s key r size ifMatch conditional w = (x, w') → leaves_none_open w w' x.
Proof.
  intros Hlim Hsize Hd Hpos Hw E. destruct (full s key) as [fk|e] eqn:Ek.
  - by eapply (putMultipart_done (λ _, True) ltac:(done) lim size Hlim Hsize key fk) in E as [_ ?].
  - unfold putMultipart, mbind, sio_bind, slift in E. rewrite Ek in E. injection E as <- <-. exists []. split; [done|].
    by intros ? ? ?%not_elem_of_nil.
Qed.

(** ** Copies *)

(** Every client leaves the source as it is. *)
Definition stable (fsrc : string) (data : bytes) (v : V) : Prop := ∃ o, b_objs (view v) !! fsrc = Some o ∧ so_data o = data.

(** One of the requests stored [data] at [fdst], the others nothing. *)
Definition wrote (fdst : string) (data : bytes) (lost : bool) (es : list (entry V)) : Prop :=
  ∃ es2 e es1 t, es = (es2 ++ e :: es1)%list ∧ Forall unchanged (es2 ++ es1) ∧ en_lost e = lost
  ∧ b_objs (view (en_after e)) = <[fdst := mkSObj data t]> (b_objs (view (en_before e))).

Definition copied (fdst : string) (data : bytes) (w w' : sworld V) (x : res unit) : Prop :=
  ∃ es, sw_log w' = (es ++ sw_log w)%list ∧
  match x with
  | Ok _ => wrote fdst data false es
  | Err e => ¬ scalm w ∧ or_abort [EIO] e ∧ (Forall unchanged es ∨ wrote fdst data true es)
  end.

Lemma unchanged_read Q es : Forall (reads_entry Q) es → Forall unchanged es.
Proof. intros Hf. eapply Forall_impl; [exact Hf|]. by intros e [? _]. Qed.

Lemma put_outcome_copied Q fdst data w w' y : put_outcome Q fdst false "" data w w' y → copied fdst data w w' (forget y).
Proof.
  intros Hout. destruct Hout as [t w1 H1 H2|e e' w1 w2 H1 H2 H3 Hn He Hor|e' w1 w2 H1 H2 H3 Hor Hcl|e e' H1 Hn He Hor].
  - destruct H1 as (_ & _ & es1 & E1 & F1 & _). destruct H2 as (_ & _ & v1 & E2 & (_ & _ & _ & t' & Hv) & _).
    eexists (_ :: es1). split; [by rewrite E2, E1|]. exists [], (mkEntry v1 (sw_srv w') false), es1, t'.
    split_and!; [done|by eapply unchanged_read|done|done].
  - destruct H1 as (_ & _ & es1 & E1 & F1 & _). destruct H2 as (_ & _ & v1 & E2 & (_ & _ & _ & t' & Hv) & _).
    destruct H3 as (_ & _ & es3 & E3 & F3 & _). exists (es3 ++ mkEntry v1 (sw_srv w2) true :: es1)%list.
    split; [by rewrite E3, E2, E1, <- app_assoc|]. destruct He as [->|[? _]]; [|done]. split; [done|]. split; [done|]. right.
    exists es3, (mkEntry v1 (sw_srv w2) true), es1, t'. split_and!; try done. apply Forall_app. split; by eapply unchanged_read.
  - destruct H2 as (_ & e & _ & Hf & _). revert Hf. unfold cond_holds. cbn. done.
  - destruct H1 as (_ & _ & es1 & E1 & F1 & _). exists es1. split; [done|]. destruct He as [->|[? _]]; [|done].
    split; [done|]. split; [done|]. left. by eapply unchanged_read.
Qed.

Lemma copied_after Q fdst data w w1 w' x : went Q (reads_entry Q) w w1 → copied fdst data w1 w' x → copied fdst data w w' x.
Proof.
  intros (_ & _ & es1 & E1 & F1 & C1) (es & E & Hx). exists (es ++ es1)%list. rewrite E, E1, <- app_assoc. split; [done|].
  apply unchanged_read in F1. assert (∀ l, wrote fdst data l es → wrote fdst data l (es ++ es1)) as Hw.
  { intros l (es2 & e' & es0 & t & -> & Hf & Hl & Hv). exists es2, e', (es0 ++ es1)%list, t. rewrite <- app_assoc.
    split_and!; try done. rewrite app_assoc. by apply Forall_app. }
  destruct x as [u|er]; [by apply Hw|]. destruct Hx as (Hn & Hor & Hx). split; [naive_solver|]. split; [done|].
  destruct Hx as [Hx|Hx]; [left; by apply Forall_app|right; by apply Hw].
Qed.

Lemma copied_none Q fdst data w w' : went Q (reads_entry Q) w w' → ¬ scalm w → copied fdst data w w' (Err [EIO]).
Proof.
  intros (_ & _ & es & E & F & _) Hn. exists es. split; [done|]. split; [done|]. split; [by left|]. left. by eapply unchanged_read.
Qed.

Section stable_source.
Context (fdst fsrc : string) (data : bytes).
Hypothesis Hne : fdst ≠ fsrc.

Lemma stable_objs v v' : b_objs (view v') = b_objs (view v) → stable fsrc data v → stable fsrc data v'.
Proof. intros E (o & Ho & Hd). exists o. by rewrite E. Qed.

Lemma stable_put v v' t : stable fsrc data v → b_objs (view v') = <[fdst := mkSObj data t]> (b_objs (view v)) → stable fsrc data v'.
Proof. intros (o & Ho & Hd) E. exists o. by rewrite E, lookup_insert_ne. Qed.

Abbreviation inner := (went (stable fsrc data) (quiet_entry (stable fsrc data))).

Lemma stable_head w r w1 : lawful (stable fsrc data) w → call (HeadObject (s_bucket s) fsrc) w = (r, w1) →
  inner w w1 ∧ ((∃ t, r = Ok (Resp (t, blen data))) ∨ ∃ e, r = Ok (SdkErr e) ∧ isNotFound e = false ∧ ¬ scalm w).
Proof.
  intros Hw Ec. destruct (call_called _ _ _ _ _ Hw Ec) as (y & -> & Hc & Hs & Hcalm).
  assert (∀ v1 y' l, others (sw_srv w) v1 → stable fsrc data v1 → (scalm w → v1 = sw_srv w) →
    HeadObject (s_bucket s) fsrc v1 = (y', sw_srv w1) → sw_log w1 = mkEntry v1 (sw_srv w1) l :: sw_log w →
    inner w w1 ∧ ∃ t, y' = Resp (t, blen data)) as Hop.
  { intros v1 y' l Ho HQ Hv Hop Hl. destruct (law_head _ _ _ _ ltac:(apply Ho) Hop) as [Hsame Hx]. split.
    - eapply inner_entry; try done; [exact stable_objs|apply Hsame|intros i; apply Hsame|by rewrite (proj2 (proj2 Hsame))|by apply quiet_same|auto].
    - destruct HQ as (so & Hso & Hd). rewrite Hso in Hx. rewrite Hx, Hd. by eexists. }
  inversion Hc as [v1 x' Ho HQ Hv Hreq Hl|v1 x' e' Ho HQ Hnc Hreq Hnf Hl|e' Ho HQ Hnc Hnf Hl]; subst y; clear Hc.
  - destruct (Hop _ _ _ Ho HQ Hv Hreq Hl) as [Hin [t ->]]. split; [done|]. left. by eexists.
  - destruct (Hop _ _ _ Ho HQ ltac:(done) Hreq Hl) as [Hin _]. split; [done|]. right. by eexists.
  - split; [by apply inner_not|]. right. by eexists.
Qed.

Lemma stable_copy w r w1 : lawful (stable fsrc data) w → blen data <= single_put_max →
  call (CopyObjectReq (s_bucket s) fdst (s3CopySource (s_bucket s) fsrc)) w = (r, w1) →
  ∃ y, r = Ok y ∧ adds_none w w1 ∧
    copied fdst data w w1 (match y with Resp _ => Ok () | SdkErr e => Err (if isNotFound e then [ErrNotFound] else [EIO]) end).
Proof.
  intros Hw Hsz Ec. destruct (call_called _ _ _ _ _ Hw Ec) as (y & -> & Hc & Hs & Hcalm). exists y. split; [done|].
  assert (∀ v1 y' l, others (sw_srv w) v1 → stable fsrc data v1 →
    CopyObjectReq (s_bucket s) fdst (s3CopySource (s_bucket s) fsrc) v1 = (y', sw_srv w1) →
    sw_log w1 = mkEntry v1 (sw_srv w1) l :: sw_log w →
    y' = Resp () ∧ adds_none w w1 ∧ ∃ es, sw_log w1 = (es ++ sw_log w)%list ∧ wrote fdst data l es) as Hop.
  { intros v1 y' l Ho (so & Hso & Hd) Hop Hl. pose proof (law_copy _ _ _ _ _ ltac:(apply Ho) Hop) as Hx. rewrite Hso, Hd in Hx.
    destruct (Hx Hsz) as (-> & _ & _ & Hview). split; [done|]. split.
    - exists [mkEntry v1 (sw_srv w1) l]. split; [done|]. apply Forall_singleton. intros i Hi. cbn in *. by rewrite Hview.
    - exists [mkEntry v1 (sw_srv w1) l]. split; [done|]. exists [], (mkEntry v1 (sw_srv w1) l), [], (digest data).
      split_and!; try done. cbn. by rewrite Hview. }
  inversion Hc as [v1 x' Ho HQ Hv Hreq Hl|v1 x' e' Ho HQ Hnc Hreq Hnf Hl|e' Ho HQ Hnc Hnf Hl]; subst y; clear Hc.
  - destruct (Hop _ _ _ Ho HQ Hreq Hl) as (-> & Hn & es & Hes & Hwr). split; [done|]. by exists es.
  - destruct (Hop _ _ _ Ho HQ Hreq Hl) as (_ & Hn & es & Hes & Hwr). split; [done|]. rewrite Hnf. exists es. split; [done|].
    split; [done|]. split; [by left|by right].
  - split; [by exists []|]. rewrite Hnf. eapply (copied_none (stable fsrc data)); [|done]. by apply inner_not.
Qed.
End stable_source.

(** C37: A copy of an object of up to 5 TiB that nobody changes stores exactly its
    bytes, in one request or in parts, or fails; without other clients and faults
    it succeeds. *)
Theorem copy_object_exact lim dst src fdst fsrc data w x w' : lim_ok lim →
  part_min <= copyObjectMaxBytes lim <= single_put_max → blen data <= object_max →
  full s dst = Ok fdst → full s src = Ok fsrc → dst ≠ src → lawful (stable fsrc data) w →
  CopyObject lim s dst src w = (x, w') → copied fdst data w w' x ∧ leaves_none_open w w' x.
Proof.
  intros Hlim Hcopy Hmax Hd Hs Hne Hw E. assert (fdst ≠ fsrc) as Hnef by (intros ->; apply Hne; by eapply full_inj).
  unfold CopyObject in E. unfold mbind at 1 2 3, sio_bind at 1 2 3, slift in E. rewrite Hs, Hd in E.
  destruct (call _ w) as [r1 w1] eqn:Eh. destruct (stable_head _ _ _ _ _ Hw Eh) as [Hin Hr]. clear Eh.
  assert (went (stable fsrc data) (reads_entry (stable fsrc data)) w w1) as Hrd.
  { eapply went_weaken; [|exact Hin]. by intros e (? & ? & _). }
  assert (adds_none w w1) as Hnone by by eapply inner_adds_none.
  assert (∀ y : res unit, adds_none w w' → leaves_none_open w w' y) as Hleft.
  { intros y (es & El & Hf). exists es. split; [done|]. intros e id Hin' _ Hb Ha. rewrite Forall_forall in Hf. by destruct (Hf _ Hin' id Hb). }
  destruct Hr as [[t ->]|(e & -> & He & Hn)].
  2:{ unfold sfail in E. rewrite He in E. injection E as <- <-. split; [by eapply copied_none|by apply Hleft]. }
  destruct (Z.ltb_spec s3MaxObjectBytes (blen data)) as [Hb|_]; [unfold s3MaxObjectBytes in *; sizes; lia|].
  destruct (Z.ltb_spec (copyObjectMaxBytes lim) (blen data)) as [Hbig|Hsmall].
  - eapply (copyMultipart_done (stable fsrc data) (stable_objs fsrc data) lim (blen data) Hlim) in E as (y & -> & Hout & Hl);
      [|sizes; lia|intros v v' t'; by apply stable_put|by intros v Hv|done|lia|apply Hin].
    split; [eapply copied_after; [exact Hrd|by eapply put_outcome_copied]|by eapply leaves_before].
  - unfold mbind, sio_bind, mret, sio_ret, sfail in E. destruct (call _ w1) as [r2 w2] eqn:Ec.
    eapply (stable_copy fdst fsrc data) in Ec as (y & -> & Hn2 & Hc); [|apply Hin|lia].
    assert (w2 = w' ∧ x = match y with Resp _ => Ok () | SdkErr e => Err (if isNotFound e then [ErrNotFound] else [EIO]) end) as [-> ->]
      by (destruct y; by simplify_eq).
    split; [by eapply copied_after|]. apply Hleft. by eapply adds_none_trans.
Qed.

(** ** One atomic write *)

Section refinement.
Context (enc : object → bytes) (cas : string → bool).
Hypothesis enc_inj : ∀ o o', enc o = enc o' → o = o'.

Abbreviation encoded := (encoded s enc cas).
Abbreviation encodes := (encodes s enc cas).
Abbreviation refines := (refines s enc cas).

Definition put_call (conditional : bool) (key : string) (r : reader) (size : Z) (o : object) : bcall :=
  if conditional then CPutReaderIf key r size o NoTag else CPutReader key r size o.

Definition may_store (conditional : bool) (cur : option object) : bool := if conditional then kv_match cur NoTag else true.

Lemma may_store_cond (conditional : bool) key fk v m : full s key = Ok fk → encodes v m →
  cond_holds (if conditional then precondition "" else no_conds) (b_objs (view v) !! fk) = may_store conditional (m !! key).
Proof. intros Hk He. destruct conditional; [|done]. by eapply (precondition_match s enc cas enc_inj key fk v m NoTag). Qed.

Section backend.
Context (conditional : bool) (key : string) (r : reader) (size : Z) (o : object) (b : world).
Abbreviation run m f := (run_backend (put_call conditional key r size o) (with_tick (at_store m f) b)).

Lemma put_call_none m : run m FNone =
  if may_store conditional (m !! key) then (Ok (if conditional then RTag (TagOf o) else RUnit), store_at key (Some o) (at_world m b))
  else (Err [ErrCAS], at_world m b).
Proof. destruct conditional; cbn; unfold mbind, io_bind, Backend.PutIf, Backend.Put; cbn; by destruct (m !! key). Qed.

Lemma put_call_lost e : put_err conditional e → ∃ f, ∀ m, may_store conditional (m !! key) = true →
  run m f = (Err e, store_at key (Some o) (at_world m b)).
Proof.
  unfold put_err, may_store, put_call. intros [->|[-> ->]]; [exists FLost|exists FLostCAS]; intros m;
    [destruct conditional|]; cbn; unfold mbind, io_bind, Backend.PutIf, Backend.Put; cbn; by destruct (m !! key).
Qed.

Lemma put_call_fail m e : put_err conditional e → ∃ f, run m f = (Err e, at_world m b).
Proof.
  unfold put_err, put_call. intros [->|[-> ->]]; [exists FErr|exists FConflict];
    [destruct conditional|]; cbn; unfold mbind, io_bind, Backend.PutIf, Backend.Put; cbn; done.
Qed.
End backend.

Lemma unchanged_reads es : Forall (reads_entry encoded) es → Forall unchanged es.
Proof. intros Hf. eapply Forall_impl; [exact Hf|]. by intros e [? _]. Qed.

Lemma put_call_err conditional key r size o e e' : or_abort e e' → err_rel (put_call conditional key r size o) e' e.
Proof. unfold or_abort, put_call. destruct conditional; cbn; intros [->| ->]; auto. Qed.

Lemma encoded_met w v1 b : encodes (sw_srv w) (w_objs b) → encoded v1 →
  (scalm w → b_objs (view v1) = b_objs (view (sw_srv w))) → ∃ m1, encodes v1 m1 ∧ (scalm w → m1 = w_objs b).
Proof.
  intros Hb [m Hm] Hc. destruct (sw_sched w) eqn:E.
  - exists (w_objs b). split; [|done]. eapply encodes_view; [by apply Hc|done].
  - exists m. split; [done|]. unfold scalm. by rewrite E.
Qed.

Section stored.
Context (conditional : bool) (key fk : string) (r : reader) (size : Z) (o : object).
Hypothesis Hk : full s key = Ok fk.
Hypothesis Hcas : cas key = false.

Abbreviation c := (put_call conditional key r size o).
Abbreviation reply_of x := (match x with Ok t => Ok (if conditional then STag t else SUnit) | Err e => Err e end).

Lemma stored_refines w w1 w2 w' b lost (x : res string) y f :
  went encoded (reads_entry encoded) w w1 → commits encoded fk conditional "" (enc o) lost w1 w2 →
  went encoded (reads_entry encoded) w2 w' → encodes (sw_srv w) (w_objs b) → (scalm w → f = FNone) →
  (∀ m, may_store conditional (m !! key) = true →
     run_backend c (with_tick (at_store m f) b) = (y, store_at key (Some o) (at_world m b))) →
  result_rel enc cas c (reply_of x) y → refines c w w' (reply_of x) b.
Proof.
  intros (_ & _ & es1 & E1 & F1 & C1) (_ & _ & v1 & E2 & Hcom & C2) (_ & _ & es3 & E3 & F3 & C3) Hb Hf Hrun Hres.
  destruct Hcom as (HQ & Hcond & _ & t & Hobjs). cbn in HQ, Hcond, Hobjs.
  destruct (encoded_met w v1 b Hb HQ) as (m & Hm & Hcm).
  { intros Hs. destruct (C1 Hs) as (Hs1 & Ho & _). destruct (C2 Hs1) as [_ ->]. done. }
  rewrite (may_store_cond _ _ _ _ _ Hk Hm) in Hcond. specialize (Hrun m Hcond).
  exists (at_store m f), y, (store_at key (Some o) (at_world m b)),
    (es3 ++ mkEntry v1 (sw_srv w2) lost :: es1)%list, [mkWrite key (m !! key) (Some o) (w_now b + 0)%Z].
  assert (enc_opt enc cas key (Some o) (Some (mkSObj (enc o) t))) as Henc by (split; [done|congruence]).
  split_and!; try done.
  - by rewrite E3, E2, E1, <- app_assoc.
  - right. exists es3, (mkEntry v1 (sw_srv w2) lost), es1. split_and!; [done| |done|].
    + apply Forall_app. split; by apply unchanged_reads.
    + eapply explains_write; [exact Hk|exact Hobjs|by apply Hm|exact Henc].
  - intros Hs. destruct (C1 Hs) as (Hs1 & Ho & _). destruct (C2 Hs1) as [Hs2 _]. destruct (C3 Hs2) as (_ & Ho3 & _).
    rewrite (Hcm Hs) in *. split; [by apply Hf|]. split; [done|]. cbn. eapply encodes_view; [exact Ho3|]. by eapply encodes_write.
Qed.

Lemma unstored_refines w w' b (x : res string) es m1 e y f :
  sw_log w' = (es ++ sw_log w)%list → Forall (reads_entry encoded) es →
  (es = [] ∨ ∃ en, en ∈ es ∧ encodes (en_before en) m1) →
  (scalm w → m1 = w_objs b ∧ f = FNone ∧ b_objs (view (sw_srv w')) = b_objs (view (sw_srv w))) →
  encodes (sw_srv w) (w_objs b) → x = Err e → run_backend c (with_tick (at_store m1 f) b) = (Err y, at_world m1 b) →
  err_rel c e y → refines c w w' (reply_of x) b.
Proof.
  intros Hl Hf Hpt Hc Hb -> Hrun Herr. exists (at_store m1 f), (Err y), (at_world m1 b), es, []. split_and!; try done.
  - destruct Hpt as [->|(en & (es2 & es1 & ->)%list_elem_of_split & Hm)]; [by left|right].
    apply unchanged_reads in Hf. rewrite Forall_app, Forall_cons in Hf. destruct Hf as (H2 & He & H1).
    exists es2, en, es1. split_and!; [done|by apply Forall_app|done|by constructor].
  - intros Hs. destruct (Hc Hs) as (-> & -> & Ho). split_and!; try done. by eapply encodes_view.
Qed.

(** A point at which a call that stored nothing can be placed. *)
Lemma unstored_point w w' b es : sw_log w' = (es ++ sw_log w)%list → Forall (reads_entry encoded) es → encodes (sw_srv w) (w_objs b) →
  ∃ m1, es = [] ∨ ∃ en, en ∈ es ∧ encodes (en_before en) m1.
Proof.
  intros _ Hf _. destruct es as [|en es]; [exists ∅; by left|]. apply Forall_cons in Hf as [[_ [m Hm]] _]. exists m. right.
  exists en. split; [constructor|done].
Qed.

Lemma put_outcome_refines w w' b x : encodes (sw_srv w) (w_objs b) →
  put_outcome encoded fk conditional "" (enc o) w w' x → lawful encoded w' ∧ refines c w w' (reply_of x) b.
Proof.
  intros Hb Hout. destruct Hout as [t w1 H1 H2|e e' w1 w2 H1 H2 H3 Hn He Hor|e' w1 w2 H1 H2 H3 Hor Hcl|e e' H1 Hn He Hor].
  - split; [apply H2|]. eapply (stored_refines w w1 w' w' b false (Ok t) _ FNone); [done|done| |done|done| |].
    + apply inner_refl, H2.
    + intros m Hm. rewrite put_call_none, Hm. reflexivity.
    + unfold put_call. destruct conditional; cbn; [congruence|done].
  - split; [apply H3|]. destruct (put_call_lost conditional key r size o b e He) as [f Hf].
    eapply (stored_refines w w1 w2 w' b true (Err e') (Err e) f); try done. by apply put_call_err.
  - split; [apply H3|]. destruct H1 as (_ & _ & es1 & E1 & F1 & C1). destruct H2 as ((_ & _ & esx & _ & _ & Cx) & en & E2 & Hcond & (Hq1 & Hq2 & _) & Hmet).
    destruct H3 as (_ & _ & es3 & E3 & F3 & C3).
    destruct (encoded_met w (en_before en) b Hb Hq2) as (m & Hm & Hcm).
    { intros Hs. destruct (C1 Hs) as (Hs1 & Ho & _). rewrite <- Ho. by apply Hmet. }
    rewrite (may_store_cond _ _ _ _ _ Hk Hm) in Hcond.
    eapply (unstored_refines w w' b (Err e') (es3 ++ en :: es1) m e' [ErrCAS] FNone).
    + by rewrite E3, E2, E1, <- app_assoc.
    + apply Forall_app. split; [done|]. by constructor.
    + right. exists en. split; [|done]. apply elem_of_app. right. constructor.
    + intros Hs. destruct (C1 Hs) as (Hs1 & Ho & _). destruct (Cx Hs1) as (Hs2 & Ho2 & _). destruct (C3 Hs2) as (_ & Ho3 & _).
      split; [by apply Hcm|]. split; [done|congruence].
    + done.
    + done.
    + by rewrite put_call_none, Hcond.
    + by apply put_call_err.
  - split; [apply H1|]. destruct H1 as (_ & _ & es & E & F & C). destruct (unstored_point _ _ _ _ E F Hb) as [m Hm].
    destruct (put_call_fail conditional key r size o b m e He) as [f Hf].
    eapply (unstored_refines w w' b (Err e') es m e' e f); try done. by apply put_call_err.
Qed.
End stored.

Lemma encoded_objs v v' : b_objs (view v') = b_objs (view v) → encoded v → encoded v'.
Proof. intros E [m Hm]. exists m. by eapply encodes_view. Qed.

(** An upload in parts. *)
Lemma multipart_refines lim conditional key fk r size o w x w' b : lim_ok lim → full s key = Ok fk →
  upload_ok enc cas lim key r size o → (multipartThreshold lim < size)%Z → lawful encoded w → encodes (sw_srv w) (w_objs b) →
  putMultipart lim s key r size "" conditional w = (x, w') →
  lawful encoded w' ∧ refines (put_call conditional key r size o) w w'
    (match x with Ok t => Ok (if conditional then STag t else SUnit) | Err e => Err e end) b.
Proof.
  intros Hlim Hk (Hd & Hsz & [Hmax Hpos] & Hcas) Hbig Hw Hb E.
  assert (cas key = false) as Hc by (destruct (cas key); [specialize (Hcas eq_refl); lia|done]).
  assert (0 < size <= object_max) as Hsize by (destruct Hlim as [_ [? _]]; lia).
  eapply (putMultipart_done encoded encoded_objs lim size Hlim Hsize) in E as [Hout _]; [|..|done|by rewrite Hd|done|done]; last first.
  - intros v v' t [m Hm] Hv. rewrite Hd in Hv. eexists. eapply (encodes_write s enc cas v v' m key fk (Some o)); [exact Hk|exact Hm| |exact Hv].
    split; [done|congruence].
  - rewrite Hd in Hout. by eapply put_outcome_refines.
Qed.

Lemma upload_refines lim c w r w' b : lim_ok lim → call_ok s enc cas lim c →
  match c with CPutReader _ _ _ _ | CPutReaderIf _ _ _ _ _ => True | _ => False end →
  lawful encoded w → encodes (sw_srv w) (w_objs b) → run_s3 s enc lim c w = (r, w') →
  lawful encoded w' ∧ refines c w w' r b.
Proof.
  intros Hlim Hok Hup Hw Hb E. destruct c as [| | |?|?|?|?|k rd size o|k rd size o t]; [done..| |]; clear Hup.
  - destruct Hok as [Hk Hu]. destruct (full s k) as [fk|] eqn:Ek; [clear Hk|done]. cbn [run_s3] in E. unfold PutReader in E.
    destruct (Z.ltb_spec (multipartThreshold lim) size) as [Hbig|Hsmall].
    + unfold mbind, sio_bind, mret, sio_ret in E. destruct (putMultipart lim s k rd size "" false w) as [x w1] eqn:Ep.
      eapply (multipart_refines lim false) in Ep as [H1 H2]; try done. destruct x; injection E as <- <-; done.
    + destruct Hu as (Hd & Hsz & _ & _). rewrite Hd in E. unfold mbind, sio_bind, mret, sio_ret, slift, sfail in E. rewrite Ek in E. cbv beta iota in E.
      destruct (call _ w) as [r1 w1] eqn:Ec. eapply put_request in Ec as (x & -> & H1 & H2); try done; [| |destruct Hlim as [_ [? ?]]; lia].
      2:{ right. by f_equal. }
      assert (lawful encoded w1 ∧ refines (CPutReader k rd size o) w w1 (match x with SdkErr e => Err [EIO] | Resp u => Ok SUnit end) b) as Hfin.
      { split; [done|]. eapply refines_as; [| |exact H2]; [done|]. destruct x; [done|]. intros [|]; cbn; auto. }
      destruct x; injection E as <- <-; done.
  - destruct Hok as (Hk & Hu & Ht & Hcas). destruct (full s k) as [fk|] eqn:Ek; [clear Hk|done]. cbn [run_s3] in E. unfold PutReaderIf in E.
    destruct (Z.ltb_spec (multipartThreshold lim) size) as [Hbig|Hsmall].
    + assert (t = NoTag) as ->.
      { destruct (decide (t = NoTag)) as [|Hne]; [done|]. destruct Hu as (_ & _ & _ & Hu). specialize (Hu (Hcas Hne)). lia. }
      unfold mbind, sio_bind, mret, sio_ret in E. cbn [tag_str] in E. destruct (putMultipart lim s k rd size "" true w) as [x w1] eqn:Ep.
      eapply (multipart_refines lim true) in Ep as [H1 H2]; try done. destruct x; injection E as <- <-; done.
    + destruct Hu as (Hd & Hsz & _ & _). rewrite Hd in E. unfold mbind, sio_bind, mret, sio_ret, slift, sfail in E. rewrite Ek in E. cbv beta iota in E.
      destruct (call _ w) as [r1 w1] eqn:Ec.
      eapply (put_if_request s enc cas enc_inj) in Ec as (x & -> & H1 & H2); [|exact Ek|right; by f_equal|destruct Hlim as [_ [? ?]]; lia|done..].
      assert (lawful encoded w1 ∧ refines (CPutReaderIf k rd size o t) w w1
        (match x with SdkErr e => Err (cas_error (tag_str enc t) e) | Resp u => Ok (STag u) end) b) as Hfin.
      { split; [done|]. eapply refines_as; [| |exact H2]; [done|]. destruct x; intros [[]|]; cbn; auto. }
      destruct x; injection E as <- <-; done.
Qed.

(** C18: The operations of the S3 backend on one object are atomic.  [Get],
    [GetReader] with its stream read to the end, [Head], [Put], [PutIf],
    [Delete], [CopyObject] in one request, and [PutReader] and [PutReaderIf] in
    one request or in parts: each, over any service that keeps the laws and with
    any other clients and faults of the transport, is one call of [Backend],
    with the same result and the same writes, on the objects one of its
    requests met; an upload in parts may add to the error that it could not
    abort.  [call_ok] says which calls: the key is a valid one, what is sent
    fits (5 GiB in one request, 5 TiB in parts), a compare against an ETag
    ([PutIf], [PutReaderIf]) and the source of a copy are of keys whose objects
    are stored by single requests ([cas]), and an upload to such a key is not
    in parts, so that an If-Match upload in parts, a compare on an object stored
    in parts and a copy in parts are not calls of it ([copy_object_exact] is
    about copies in parts). *)
Theorem s3_refines_backend lim c w r w' b : lim_ok lim → call_ok s enc cas lim c → c_copy (w_caps b) = true →
  lawful encoded w → encodes (sw_srv w) (w_objs b) → run_s3 s enc lim c w = (r, w') →
  lawful encoded w' ∧ refines c w w' r b.
Proof.
  intros Hlim Hok Hcopy Hw Hb E. destruct c as [k|k|k|k o|k o t|k|d k|k rd size o|k rd size o t].
  - by eapply s3_Get.
  - by eapply s3_GetReader.
  - by eapply s3_Head.
  - by eapply s3_Put.
  - by eapply s3_PutIf.
  - by eapply s3_Delete.
  - by eapply s3_Copy.
  - by eapply upload_refines.
  - by eapply upload_refines.
Qed.
End refinement.
End s3_upload_props.
