(* ===== verification/S3List.v ===== *)
(** * Listing and deleting many objects

    [list_under_concurrency]: what a listing in pages shows when others write
    between the pages, and that it ends; [delete_objects_exact]: which keys a bulk
    delete in batches may report as deleted. *)
From Stdlib Require Import Ascii String Strings.Byte.
From S2P Require Import Prelude GoStrings Keys GoUrl Refs Backend Files S3Api S3 S3Props.
Local Open Scope string_scope.

Section s3_list.
Context {V : Type} `{S3Client V} `{S3View V} (s : S3) `{!S3Laws V (s_bucket s)}.

(** ** Keys of the bucket *)

Definition bucket_key (k : string) : string := if bool_decide (s_prefix s = "") then k else s_prefix s +:+ "/" +:+ k.

Lemma full_bucket_key k fk : full s k = Ok fk → fk = bucket_key k.
Proof. unfold full, bucket_key. intros E. repeat case_match; by simplify_eq. Qed.

Lemma bucket_key_app k t : bucket_key (k +:+ t) = bucket_key k +:+ t.
Proof. unfold bucket_key. case_bool_decide; [done|]. by rewrite !string_app_assoc. Qed.

Lemma strip_bucket_key k : strip s (bucket_key k) = k.
Proof. unfold strip, bucket_key. case_bool_decide; [done|]. rewrite <- string_app_assoc. apply TrimPrefix_app. Qed.

Lemma bucket_key_inj k k' : bucket_key k = bucket_key k' → k = k'.
Proof. intros E. rewrite <- (strip_bucket_key k), E. apply strip_bucket_key. Qed.

Lemma bucket_key_prefix fk prefix : HasPrefix fk (bucket_key prefix) = true ↔ ∃ k, fk = bucket_key k ∧ HasPrefix k prefix = true.
Proof.
  rewrite HasPrefix_spec. split.
  - intros [t ->]. exists (prefix +:+ t). rewrite bucket_key_app. split; [done|]. apply HasPrefix_app.
  - intros (k & -> & [t ->]%HasPrefix_spec). exists t. apply bucket_key_app.
Qed.

(** ** Pages *)

Section pages.
Context (Q : V → Prop).
Hypothesis Q_objs : ∀ v v', b_objs (view v') = b_objs (view v) → Q v → Q v'.

Definition listed_at (fk : string) (e : entry V) : Prop := is_Some (b_objs (view (en_before e)) !! fk).

(** The keys still to come. *)
Definition from_of (tok : option string) : string → bool := match tok with Some t => tok_from t | None => λ _, true end.

Lemma keys_from_spec m fp from k : k ∈ keys_from m fp from ↔ HasPrefix k fp = true ∧ from k = true ∧ is_Some (m !! k).
Proof.
  unfold keys_from. rewrite elem_of_sort_by, list_elem_of_filter, list_elem_of_fmap. split.
  - intros [[? ?] ([k' o] & -> & Hin)]. apply elem_of_map_to_list in Hin. split_and!; [done|done|by exists o].
  - intros (Hp & Hf & [o Ho]). split; [done|]. exists (k, o). split; [done|]. by apply elem_of_map_to_list.
Qed.

Lemma keys_from_NoDup m fp from : NoDup (keys_from m fp from).
Proof. unfold keys_from. rewrite sort_by_perm. apply NoDup_filter, NoDup_fst_map_to_list. Qed.

(** Nobody changes the objects in the bucket while a page is read. *)
Lemma list_call fp tok w r w1 : lawful Q w → call (ListObjectsV2 (s_bucket s) fp tok) w = (r, w1) →
  lawful Q w1 ∧ ∃ es, sw_log w1 = (es ++ sw_log w)%list ∧ Forall unchanged es ∧ Forall (λ e, Q (en_before e)) es
  ∧ (scalm w → scalm w1 ∧ b_objs (view (sw_srv w1)) = b_objs (view (sw_srv w))
       ∧ Forall (λ e, b_objs (view (en_before e)) = b_objs (view (sw_srv w))) es)
  ∧ ((∃ e, r = Ok (SdkErr e) ∧ ¬ scalm w) ∨ ∃ e page next, r = Ok (Resp (page, next)) ∧ es = [e]
     ∧ let keys := keys_from (b_objs (view (en_before e))) fp (from_of tok) in
       match next with
       | None => page = keys
       | Some t => page = filter (λ k, tok_from t k = false) keys ∧ page ≠ [] ∧ ∀ k, tok_from t k = true → from_of tok k = true
       end).
Proof.
  intros Hw Ec. destruct (call_called _ _ _ _ _ Hw Ec) as (y & -> & Hc & Hs & Hcalm).
  assert (∀ v1 y' l, others (sw_srv w) v1 → Q v1 → (scalm w → v1 = sw_srv w) →
    ListObjectsV2 (s_bucket s) fp tok v1 = (y', sw_srv w1) → sw_log w1 = mkEntry v1 (sw_srv w1) l :: sw_log w →
    lawful Q w1 ∧ unchanged (mkEntry v1 (sw_srv w1) l)
    ∧ (scalm w → scalm w1 ∧ b_objs (view (sw_srv w1)) = b_objs (view (sw_srv w)) ∧ b_objs (view v1) = b_objs (view (sw_srv w)))) as Hop.
  { intros v1 y' l Ho HQ Hv Hop Hl. destruct (law_list _ _ _ _ _ ltac:(apply Ho) Hop) as [(Hok & _ & Hview) _].
    assert (b_objs (view (sw_srv w1)) = b_objs (view v1)) as Hsame by by rewrite Hview.
    split; [split; [done|]; split; [by eapply Q_objs|done]|]. split; [done|]. intros Hsc. rewrite Hsame, (Hv Hsc). auto. }
  inversion Hc as [v1 x' Ho HQ Hv Hreq Hl|v1 x' e Ho HQ Hnc Hreq Hnf Hl|e Ho HQ Hnc Hnf Hl]; subst y; clear Hc.
  - destruct (Hop _ _ _ Ho HQ Hv Hreq Hl) as (Hw1 & Hu & Hsc). split; [done|]. exists [mkEntry v1 (sw_srv w1) false].
    split; [done|]. split; [by apply Forall_singleton|]. split; [by apply Forall_singleton|].
    split; [intros (? & ? & ?)%Hsc; split_and!; [done|done|by apply Forall_singleton]|]. right.
    destruct (law_list _ _ _ _ _ ltac:(apply Ho) Hreq) as (_ & page & next & -> & Hp). by exists (mkEntry v1 (sw_srv w1) false), page, next.
  - destruct (Hop _ _ _ Ho HQ ltac:(done) Hreq Hl) as (Hw1 & Hu & Hsc). split; [done|]. exists [mkEntry v1 (sw_srv w1) true].
    split; [done|]. split; [by apply Forall_singleton|]. split; [by apply Forall_singleton|]. split; [done|]. left. by exists e.
  - split; [split; [apply Ho|done]|]. exists []. split_and!; try done. left. by exists e.
Qed.

Lemma list_pages_spec fp fuel : ∀ tok acc w r w', lawful Q w → list_pages s fuel fp tok acc w = (r, w') →
  lawful Q w' ∧ ∃ es, sw_log w' = (es ++ sw_log w)%list ∧ Forall unchanged es ∧ Forall (λ e, Q (en_before e)) es
  ∧ (scalm w → Forall (λ e, b_objs (view (en_before e)) = b_objs (view (sw_srv w))) es)
  ∧ match r with
    | Ok keys => ∃ ks, keys = (acc ++ (strip s <$> ks))%list ∧ NoDup ks
        ∧ (∀ k, k ∈ ks → HasPrefix k fp = true ∧ from_of tok k = true ∧ ∃ e, e ∈ es ∧ listed_at k e)
        ∧ (∀ k, HasPrefix k fp = true → from_of tok k = true → (∀ e, e ∈ es → listed_at k e) → k ∈ ks)
    | Err e => e = [EFuel] ∨ e = [EIO] ∧ ¬ scalm w
    end
  ∧ ∀ K : gset string, (∀ v, Q v → ∀ k, is_Some (b_objs (view v) !! k) → k ∈ K) →
      (size (filter (λ k, from_of tok k = true) K) < fuel)%nat → r ≠ Err [EFuel].
Proof.
  induction fuel as [|fuel IH]; intros tok acc w r w' Hw E.
  { injection E as <- <-. split; [done|]. exists []. split; [done|]. split; [done|]. split; [done|]. split; [done|]. split; [by left|]. intros K _ HK. lia. }
  cbn [list_pages] in E. unfold mbind, sio_bind, mret, sio_ret, sfail in E. destruct (call _ w) as [r1 w1] eqn:Ec.
  destruct (list_call _ _ _ _ _ Hw Ec) as (Hw1 & es1 & E1 & U1 & Q1 & C1 & Hr). clear Ec.
  destruct Hr as [(e & -> & Hn)|(e & page & next & -> & -> & Hpage)].
  { injection E as <- <-. split; [done|]. exists es1. split; [done|]. split; [done|]. split; [done|]. split; [tauto|]. split; [by right|done]. }
  cbv zeta beta iota in E, Hpage. set (keys := keys_from _ fp _) in Hpage.
  assert (∀ k, k ∈ keys ↔ HasPrefix k fp = true ∧ from_of tok k = true ∧ listed_at k e) as Hkeys by (intros k; apply keys_from_spec).
  pose proof (keys_from_NoDup (b_objs (view (en_before e))) fp (from_of tok) : NoDup keys) as Hnd.
  destruct next as [t|].
  - destruct Hpage as (-> & Hne & Hmono).
    destruct (IH _ _ _ _ _ Hw1 E) as (Hw' & es2 & E2 & U2 & Q2 & C2 & Hr & Hfuel). split; [done|].
    exists (es2 ++ [e])%list. split; [by rewrite E2, E1, <- app_assoc|]. split; [by apply Forall_app|]. split; [by apply Forall_app|].
    split; [|split].
    + intros Hs. destruct (C1 Hs) as (Hs1 & Ho & F1). apply Forall_app. split; [|done]. rewrite <- Ho. by apply C2.
    + destruct r as [ks|er]; [|destruct Hr as [?|[? Hn]]; [by left|right; split; [done|naive_solver]]].
      destruct Hr as (ks' & -> & Hnd' & Hin & Hall). exists (filter (λ k, tok_from t k = false) keys ++ ks')%list. split_and!.
      * by rewrite fmap_app, app_assoc.
      * apply NoDup_app. split; [by apply NoDup_filter|]. split; [|done]. intros k [Hf _]%list_elem_of_filter Hk.
        destruct (Hin k Hk) as (_ & Ht & _). cbn in Ht. congruence.
      * intros k [[Ht Hk]%list_elem_of_filter|Hk]%elem_of_app.
        -- apply Hkeys in Hk as (Hp & Hf & Hl). split_and!; [done|done|]. exists e. split; [|done]. apply elem_of_app. right. constructor.
        -- destruct (Hin k Hk) as (Hp & Hf & e' & He' & Hl). split; [done|]. split; [by apply Hmono|]. exists e'.
           split; [apply elem_of_app; by left|done].
      * intros k Hp Hf Hl. apply elem_of_app. destruct (tok_from t k) eqn:Et.
        -- right. apply Hall; [done|done|]. intros e' He'. apply Hl. apply elem_of_app. by left.
        -- left. apply list_elem_of_filter. split; [done|]. apply Hkeys. split_and!; [done|done|]. apply Hl. apply elem_of_app. right. constructor.
    + intros K HK Hlt. apply (Hfuel K HK). rewrite Forall_singleton in Q1.
      destruct (filter (λ k, tok_from t k = false) keys) as [|k0 rest] eqn:Ef; [done|].
      assert (k0 ∈ filter (λ k, tok_from t k = false) keys) as [Ht0 Hk0]%list_elem_of_filter by (rewrite Ef; constructor).
      apply Hkeys in Hk0 as (_ & Hf0 & Hl0).
      assert (filter (λ k, from_of (Some t) k = true) K ⊂ filter (λ k, from_of tok k = true) K) as Hsub%subset_size; [|lia].
      split.
      * intros k. rewrite !elem_of_filter. cbn. intros [Hk ?]. split; [by apply Hmono|done].
      * intros Hsup. assert (k0 ∈ filter (λ k, from_of (Some t) k = true) K) as [Hk0 _]%elem_of_filter; [|cbn in Hk0; congruence].
        apply Hsup, elem_of_filter. split; [done|]. apply (HK (en_before e)); [exact Q1|exact Hl0].
  - subst page. injection E as <- <-. split; [done|]. exists [e]. split; [done|]. split; [done|]. split; [done|].
    split; [intros Hs; apply C1, Hs|]. split; [|done]. exists keys. split_and!; [done|done| |].
    + intros k (Hp & Hf & Hl)%Hkeys. split_and!; [done|done|]. exists e. split; [constructor|done].
    + intros k Hp Hf Hl. apply Hkeys. split_and!; [done|done|]. apply Hl. constructor.
Qed.

(** A listing whose pages are read while others write: sorted, without
    repetitions; it has every key that was there at every page, and only keys
    that were there at some page.  If all clients together use a bounded set of
    keys it ends within that many pages.  It fails only by a failed request. *)
Lemma list_under_concurrency fuel prefix fp w r w' : full s (prefix +:+ "x") = Ok fp → lawful Q w →
  S3.List s fuel prefix w = (r, w') →
  lawful Q w' ∧ ∃ es, sw_log w' = (es ++ sw_log w)%list ∧ Forall unchanged es
  ∧ (scalm w → Forall (λ e, b_objs (view (en_before e)) = b_objs (view (sw_srv w))) es)
  ∧ match r with
    | Ok keys => StronglySorted String.le keys ∧ NoDup keys
        ∧ (∀ k, k ∈ keys → HasPrefix k prefix = true ∧ ∃ e, e ∈ es ∧ listed_at (bucket_key k) e)
        ∧ (∀ k, HasPrefix k prefix = true → (∀ e, e ∈ es → listed_at (bucket_key k) e) → k ∈ keys)
    | Err e => e = [EFuel] ∨ e = [EIO] ∧ ¬ scalm w
    end
  ∧ ∀ K : gset string, (∀ v, Q v → ∀ k, is_Some (b_objs (view v) !! k) → k ∈ K) → (size K < fuel)%nat → r ≠ Err [EFuel].
Proof.
  intros Hfp Hw E. unfold S3.List in E. unfold mbind, sio_bind, mret, sio_ret, slift in E. rewrite Hfp in E.
  apply full_bucket_key in Hfp as ->. rewrite bucket_key_app, TrimSuffix_app in E.
  destruct (list_pages s fuel (bucket_key prefix) None [] w) as [r1 w1] eqn:Ep.
  destruct (list_pages_spec _ _ _ _ _ _ _ Hw Ep) as (Hw1 & es & El & U & _ & C & Hr & Hfuel).
  assert (w1 = w') as -> by (by destruct r1; simplify_eq). split; [done|]. exists es. split; [done|]. split; [done|]. split; [done|].
  split.
  - destruct r1 as [keys|e]; injection E as <-; [|done]. destruct Hr as (ks & -> & Hnd & Hin & Hall). cbn [app].
    assert (∀ k, k ∈ strip s <$> ks → HasPrefix k prefix = true ∧ bucket_key k ∈ ks) as Hst.
    { intros k (fk & -> & Hk)%list_elem_of_fmap. destruct (Hin _ Hk) as (Hp & _). apply bucket_key_prefix in Hp as (k & -> & Hp).
      rewrite strip_bucket_key. done. }
    split; [apply sort_by_sorted; apply _|]. split; [rewrite sort_by_perm|split].
    + apply NoDup_fmap_2_strong; [|done]. intros a b Ha Hb. destruct (Hin _ Ha) as (Hpa & _). destruct (Hin _ Hb) as (Hpb & _).
      apply bucket_key_prefix in Hpa as (ka & -> & _). apply bucket_key_prefix in Hpb as (kb & -> & _).
      rewrite !strip_bucket_key. by intros ->.
    + intros k Hk. rewrite elem_of_sort_by in Hk. destruct (Hst _ Hk) as [Hp Hb]. split; [done|]. by apply Hin.
    + intros k Hp Hl. rewrite elem_of_sort_by. apply list_elem_of_fmap. exists (bucket_key k). rewrite strip_bucket_key. split; [done|].
      apply Hall; [apply bucket_key_prefix; by exists k|done|done].
  - intros K HK Hlt. assert (r1 ≠ Err [EFuel]) as Hne.
    { apply (Hfuel K HK). eapply Nat.le_lt_trans; [|exact Hlt]. apply subseteq_size. intros k. rewrite elem_of_filter. tauto. }
    destruct r1; injection E as <-; [done|]. congruence.
Qed.
End pages.

(** ** Bulk deletes *)

Abbreviation any := (λ _ : V, True).

(** The request deleted keys among [fks], nothing else. *)
Definition only_deletes (fks : list string) (e : entry V) : Prop :=
  ∀ k, b_objs (view (en_after e)) !! k = b_objs (view (en_before e)) !! k ∨ k ∈ fks ∧ b_objs (view (en_after e)) !! k = None.

Definition gone_at (fk : string) (e : entry V) : Prop := b_objs (view (en_after e)) !! fk = None.

Lemma delete_call fks w r w1 : (length fks <= 1000)%nat → lawful any w →
  call (DeleteObjectsReq (s_bucket s) fks) w = (r, w1) →
  lawful any w1 ∧ ∃ es, sw_log w1 = (es ++ sw_log w)%list ∧ Forall (only_deletes fks) es
  ∧ ((∃ e, r = Ok (SdkErr e) ∧ ¬ scalm w) ∨ ∃ e del errs, r = Ok (Resp (del, errs)) ∧ es = [e]
     ∧ (∀ k, k ∈ fks ↔ k ∈ del ∨ k ∈ errs.*1) ∧ (∀ k, k ∈ errs.*1 → k ∉ del) ∧ ∀ k, k ∈ del → gone_at k e)
  ∧ (scalm w → scalm w1).
Proof.
  intros Hlen Hw Ec. destruct (call_called _ _ _ _ _ Hw Ec) as (y & -> & Hc & Hs & Hcalm).
  assert (∀ v1 y' l, others (sw_srv w) v1 → DeleteObjectsReq (s_bucket s) fks v1 = (y', sw_srv w1) →
    lawful any w1 ∧ only_deletes fks (mkEntry v1 (sw_srv w1) l) ∧ ∃ del errs, y' = Resp (del, errs)
     ∧ (∀ k, k ∈ fks ↔ k ∈ del ∨ k ∈ errs.*1) ∧ (∀ k, k ∈ errs.*1 → k ∉ del) ∧ ∀ k, k ∈ del → gone_at k (mkEntry v1 (sw_srv w1) l)) as Hop.
  { intros v1 y' l Ho Hop. destruct (law_delete_objects _ _ _ _ ltac:(apply Ho) Hlen Hop) as (del & errs & -> & Hks & Hd & m & (Hok & _ & Hview) & Hm).
    split; [by split|]. split.
    - intros k. cbn. rewrite Hview. cbn. rewrite Hm. case_bool_decide as Hk; [right; split; [apply Hks; by left|done]|by left].
    - exists del, errs. split_and!; try done. intros k Hk. unfold gone_at. cbn. rewrite Hview. cbn. rewrite Hm. by rewrite bool_decide_eq_true_2. }
  inversion Hc as [v1 x' Ho HQ Hv Hreq Hl|v1 x' e Ho HQ Hnc Hreq Hnf Hl|e Ho HQ Hnc Hnf Hl]; subst y; clear Hc.
  - destruct (Hop _ _ false Ho Hreq) as (Hw1 & Hu & del & errs & -> & Hx). split; [done|]. exists [mkEntry v1 (sw_srv w1) false].
    split; [done|]. split; [by apply Forall_singleton|]. split; [|done]. right. by exists (mkEntry v1 (sw_srv w1) false), del, errs.
  - destruct (Hop _ _ true Ho Hreq) as (Hw1 & Hu & _). split; [done|]. exists [mkEntry v1 (sw_srv w1) true].
    split; [done|]. split; [by apply Forall_singleton|]. split; [|done]. left. by exists e.
  - split; [split; [apply Ho|done]|]. exists []. split_and!; try done. left. by exists e.
Qed.

Lemma only_deletes_subset fks fks' e : (∀ k, k ∈ fks → k ∈ fks') → only_deletes fks e → only_deletes fks' e.
Proof. intros Hs He k. destruct (He k) as [?|[? ?]]; [by left|right; auto]. Qed.

(** What the batches do, and report. *)
Lemma delete_batches_spec orig fuel : ∀ fks del fl w r w', lawful any w → (length fks < fuel)%nat →
  delete_batches s fuel orig fks del fl w = (r, w') →
  lawful any w' ∧ ∃ es ds err, sw_log w' = (es ++ sw_log w)%list ∧ Forall (only_deletes fks) es
  ∧ r = Ok ((del ++ ds)%list, err)
  ∧ (∀ k, k ∈ ds → ∃ fk e, fk ∈ fks ∧ orig !! fk = Some k ∧ e ∈ es ∧ gone_at fk e)
  ∧ (err = None → fl = [] ∧ ∀ fk k, fk ∈ fks → orig !! fk = Some k → k ∈ ds)
  ∧ (err = None ∨ err = Some [EIO]).
Proof.
  induction fuel as [|fuel IH]; intros fks del fl w r w' Hw Hf E; [lia|]. cbn [delete_batches] in E.
  destruct fks as [|k0 rest] eqn:Efks.
  { injection E as <- <-. split; [done|]. exists [], [], (match fl with [] => None | _ => Some [EIO] end). rewrite app_nil_r.
    split_and!; try done; [by intros k ?%not_elem_of_nil| |by destruct fl; [left|right]].
    intros Hfl. split; [by destruct fl|]. by intros fk k ?%not_elem_of_nil. }
  rewrite <- Efks in *. unfold mbind, sio_bind, mret, sio_ret in E. set (batch := take s3DeleteObjectsMaxKeys fks) in *.
  destruct (call _ w) as [r1 w1] eqn:Ec.
  assert (∀ k, k ∈ batch → k ∈ fks) as Hsub by (intros k Hk; rewrite <- (take_drop s3DeleteObjectsMaxKeys fks); apply elem_of_app; by left).
  destruct (delete_call batch w r1 w1) as (Hw1 & es1 & E1 & O1 & Hr & _); [unfold batch; rewrite length_take; unfold s3DeleteObjectsMaxKeys; lia|done|done|].
  assert (Forall (only_deletes fks) es1) as O1' by (eapply Forall_impl; [exact O1|]; intros; by eapply only_deletes_subset).
  destruct Hr as [(e & -> & Hn)|(e & dl & errs & -> & -> & Hks & Hd & Hg)].
  { injection E as <- <-. split; [done|]. exists es1, [], (Some [EIO]). rewrite app_nil_r.
    split_and!; try done; [by intros k ?%not_elem_of_nil|by right]. }
  apply IH in E as (Hw' & es2 & ds & err & E2 & O2 & -> & Hds & Herr & Hkind); [|done|].
  2:{ rewrite length_drop. unfold s3DeleteObjectsMaxKeys. rewrite Efks. rewrite Efks in Hf. cbn in *. lia. }
  split; [done|]. exists (es2 ++ [e])%list, (omap (λ k, orig !! k) dl ++ ds)%list, err.
  assert (∀ k, k ∈ drop s3DeleteObjectsMaxKeys fks → k ∈ fks) as Hsub2.
  { intros k Hk. rewrite <- (take_drop s3DeleteObjectsMaxKeys fks). apply elem_of_app. by right. }
  split; [by rewrite E2, E1, <- app_assoc|]. split; [apply Forall_app; split; [|done]; eapply Forall_impl; [exact O2|]; intros; by eapply only_deletes_subset|].
  split; [by rewrite app_assoc|]. split; [|split; [|done]].
  - intros k [(fk & Hfk & Ho)%list_elem_of_omap|Hk]%elem_of_app.
    + exists fk, e. split_and!; [apply Hsub, Hks; by left|done|apply elem_of_app; right; constructor|by apply Hg].
    + destruct (Hds k Hk) as (fk & e' & H1 & H2 & H3 & H4). exists fk, e'. split_and!; [by apply Hsub2|done|apply elem_of_app; by left|done].
  - intros Hnone. destruct (Herr Hnone) as [Hfl Hall]. apply app_eq_nil in Hfl as [-> Herrs%fmap_nil_inv]. split; [done|].
    intros fk k Hfk Ho. apply elem_of_app. rewrite <- (take_drop s3DeleteObjectsMaxKeys fks) in Hfk. apply elem_of_app in Hfk as [Hfk|Hfk].
    + left. apply list_elem_of_omap. exists fk. split; [|done]. apply Hks in Hfk as [?|Hfk]; [done|]. rewrite Herrs in Hfk. by apply not_elem_of_nil in Hfk.
    + right. by eapply Hall.
Qed.

Lemma full_keys_spec keys fks : full_keys s keys = Ok fks → fks = bucket_key <$> keys.
Proof.
  revert fks. induction keys as [|k keys IH]; intros fks E; cbn in E; unfold mbind, res_bind in E; [by injection E as <-|].
  destruct (full s k) as [fk|] eqn:Ek; [|done]. destruct (full_keys s keys) as [fks'|]; [|done]. injection E as <-.
  cbn. f_equal; [by apply full_bucket_key|by apply IH].
Qed.

Lemma orig_spec keys (m : gmap string string) : (∀ fk k, m !! fk = Some k → fk = bucket_key k) →
  let m' := foldl (λ m p, <[p.1 := p.2]> m) m (zip (bucket_key <$> keys) keys) in
  (∀ fk k, m' !! fk = Some k → fk = bucket_key k)
  ∧ ∀ k, k ∈ keys ∨ m !! bucket_key k = Some k → m' !! bucket_key k = Some k.
Proof.
  revert m. induction keys as [|k0 keys IH]; intros m Hm; cbn.
  { split; [done|]. by intros k [?%not_elem_of_nil|?]. }
  destruct (IH (<[bucket_key k0 := k0]> m)) as [H1 H2].
  - intros fk k. destruct (decide (fk = bucket_key k0)) as [->|Hne].
    + rewrite lookup_insert_eq. by intros [= ->].
    + rewrite lookup_insert_ne by congruence. apply Hm.
  - split; [done|]. intros k Hk. apply H2. destruct (decide (k = k0)) as [->|Hne].
    + right. by rewrite lookup_insert_eq.
    + destruct Hk as [Hk|Hk]; [left; by apply elem_of_cons in Hk as [?|?]|right].
      rewrite lookup_insert_ne; [done|]. by intros ?%bucket_key_inj.
Qed.

(** C38: A bulk delete checks every key first.  Its requests delete the named keys and
    nothing else; a key is reported deleted only if a request left it absent, and
    all of them are when there is no error. *)
Theorem delete_objects_exact keys w r w' : keys ≠ [] → lawful any w → S3.DeleteObjects s keys w = (r, w') →
  match full_keys s keys with
  | Err e => r = Ok ([], Some e) ∧ w' = w
  | Ok fks => lawful any w' ∧ ∃ es ds err, r = Ok (ds, err)
      ∧ sw_log w' = (es ++ sw_log w)%list ∧ Forall (only_deletes fks) es
      ∧ (∀ k, k ∈ ds → k ∈ keys ∧ ∃ e, e ∈ es ∧ gone_at (bucket_key k) e)
      ∧ (err = None ∧ (∀ k, k ∈ keys → k ∈ ds) ∨ err = Some [EIO])
  end.
Proof.
  intros Hne Hw E. unfold S3.DeleteObjects in E. destruct keys as [|k0 ks] eqn:Ek; [done|]. rewrite <- Ek in *. clear k0 ks Ek Hne.
  destruct (full_keys s keys) as [fks|e] eqn:Ef; [|injection E as <- <-; done]. apply full_keys_spec in Ef as ->.
  destruct (orig_spec keys ∅) as [Ho1 Ho2]; [by intros fk k|].
  eapply delete_batches_spec in E as (Hw' & es & ds & err & El & Hon & -> & Hds & Herr & Hkind); [|done|lia].
  split; [done|]. exists es, ds, err. split; [done|]. split; [done|]. split; [done|]. split.
  - intros k Hk. destruct (Hds k Hk) as (fk & e & Hfk & Horig & He & Hg). apply Ho1 in Horig as ->.
    apply list_elem_of_fmap in Hfk as (k' & ->%bucket_key_inj & Hk'). split; [done|]. by exists e.
  - destruct Hkind as [->|?]; [left|by right]. split; [done|]. intros k Hk. destruct (Herr eq_refl) as [_ Hall].
    apply (Hall (bucket_key k)); [by apply list_elem_of_fmap_2|]. apply Ho2. by left.
Qed.
End s3_list.
