(* ===== verification/S3Probe.v ===== *)
(** * The conditional-write probe

    [probe_accepts]: on a service that keeps the laws, [ProbeCAS] succeeds and
    leaves the bucket as it was. *)
From Stdlib Require Import Ascii String Strings.Byte.
From S2P Require Import Prelude GoStrings Keys GoUrl Refs Backend Files S3Api S3 S3Props.
Local Open Scope string_scope.

Section s3_probe.
Context {V : Type} `{S3Client V} `{S3View V} (s : S3) `{!S3Laws V (s_bucket s)}.

(** Nobody else, no faults: a request does what the service does. *)
Definition quiet_at (v : V) (w : sworld V) : Prop := scalm w ∧ sw_srv w = v ∧ srv_ok v.

Lemma calm_call {A} (op : V → reply A * V) v w : quiet_at v w →
  ∃ w', call op w = (Ok (op v).1, w') ∧ scalm w' ∧ sw_srv w' = (op v).2.
Proof.
  intros (Hs & Hv & Hok). unfold call, snext. rewrite Hs. cbn. rewrite Hv. destruct (op v) as [r v'] eqn:E. by eexists.
Qed.

Lemma calm_PutIf key fk d ifMatch v w : full s key = Ok fk → (blen d <= single_put_max)%Z → quiet_at v w →
  ∃ v' w', quiet_at v' w' ∧
  if cond_holds (precondition ifMatch) (b_objs (view v) !! fk)
  then S3.PutIf s key d ifMatch w = (Ok (digest d), w')
       ∧ view v' = mkBucket (<[fk := mkSObj d (digest d)]> (b_objs (view v))) (b_uploads (view v))
  else S3.PutIf s key d ifMatch w = (Err [ErrCAS], w') ∧ view v' = view v.
Proof.
  intros Hk Hd Hq. unfold S3.PutIf, mbind, sio_bind, mret, sio_ret, slift, sfail. rewrite Hk.
  destruct (calm_call (PutObject (s_bucket s) fk d None (precondition ifMatch)) _ _ Hq) as (w' & -> & Hs' & Hv').
  destruct (PutObject (s_bucket s) fk d None (precondition ifMatch) v) as [x v'] eqn:E. cbn in Hv' |- *. exists v', w'.
  pose proof (law_put _ _ _ _ _ _ _ (proj2 (proj2 Hq)) Hd (precondition_noempty ifMatch) E) as Hp.
  rewrite bool_decide_eq_true_2 in Hp by by left. destruct (cond_holds _ _).
  - destruct Hp as [-> (Hok & _ & Hview)]. split; [by split|]. done.
  - destruct Hp as [(Hok & _ & Hview) (e & -> & He)]. split; [by split|]. by rewrite (cas_error_cond _ _ _ He).
Qed.

Lemma calm_Get key fk o v w : full s key = Ok fk → b_objs (view v) !! fk = Some o → quiet_at v w →
  ∃ v' w', quiet_at v' w' ∧ S3.Get s key w = (Ok (so_data o, so_etag o), w') ∧ view v' = view v.
Proof.
  intros Hk Ho Hq. unfold S3.Get, mbind, sio_bind, mret, sio_ret, slift, sfail. rewrite Hk.
  destruct (calm_call (GetObject (s_bucket s) fk) _ _ Hq) as (w' & -> & Hs' & Hv').
  destruct (GetObject (s_bucket s) fk v) as [x v'] eqn:E. cbn in Hv' |- *.
  destruct (law_get _ _ _ _ (proj2 (proj2 Hq)) (full_nonempty _ _ _ Hk) E) as [(Hok & _ & Hview) Hx]. rewrite Ho in Hx. subst x.
  unfold ReadAll, snext. rewrite Hs'. cbn. exists v', (mkSWorld (sw_srv w') [] (sw_picks w') (sw_log w')).
  split; [by split|]. done.
Qed.

Lemma calm_Delete key fk v w : full s key = Ok fk → quiet_at v w →
  ∃ v' w', quiet_at v' w' ∧ S3.Delete s key w = (Ok (), w')
    ∧ view v' = mkBucket (delete fk (b_objs (view v))) (b_uploads (view v)).
Proof.
  intros Hk Hq. unfold S3.Delete, mbind, sio_bind, mret, sio_ret, slift, sfail. rewrite Hk.
  destruct (calm_call (DeleteObject (s_bucket s) fk) _ _ Hq) as (w' & -> & Hs' & Hv').
  destruct (DeleteObject (s_bucket s) fk v) as [x v'] eqn:E. cbn in Hv' |- *.
  destruct (law_delete _ _ _ _ (proj2 (proj2 Hq)) E) as [-> (Hok & _ & Hview)]. exists v', w'. split; [by split|]. done.
Qed.

Lemma calm_content key fk o v w : full s key = Ok fk → b_objs (view v) !! fk = Some o → quiet_at v w →
  ∃ v' w', quiet_at v' w' ∧ probeContentIs s key (so_data o) w = (Ok (), w') ∧ view v' = view v.
Proof.
  intros Hk Ho Hq. destruct (calm_Get _ _ _ _ _ Hk Ho Hq) as (v' & w' & Hq' & E & Hv). exists v', w'. split; [done|]. split; [|done].
  unfold probeContentIs, stry, mbind, sio_bind, mret, sio_ret, sfail. rewrite E. by rewrite bool_decide_eq_true_2.
Qed.

Lemma calm_refused key fk o data ifMatch v w : full s key = Ok fk → b_objs (view v) !! fk = Some o → (blen data <= single_put_max)%Z →
  so_etag o ≠ ifMatch → quiet_at v w →
  ∃ v' w', quiet_at v' w' ∧ probe_refused s key data (so_data o) ifMatch w = (Ok (), w') ∧ view v' = view v.
Proof.
  intros Hk Ho Hd Ht Hq. destruct (calm_PutIf _ _ data ifMatch _ _ Hk Hd Hq) as (v1 & w1 & Hq1 & E).
  assert (cond_holds (precondition ifMatch) (b_objs (view v) !! fk) = false) as Hc.
  { rewrite Ho. unfold precondition, cond_holds. case_bool_decide; cbn; [by rewrite bool_decide_eq_true_2|by apply bool_decide_eq_false_2]. }
  rewrite Hc in E. destruct E as [E Hv1]. rewrite <- Hv1 in Ho.
  destruct (calm_content _ _ _ _ _ Hk Ho Hq1) as (v' & w' & Hq' & E' & Hv'). exists v', w'. split; [done|]. split; [|congruence].
  unfold probe_refused, stry, mbind, sio_bind. by rewrite E.
Qed.

(** On a fresh key of a service that keeps the laws the probe succeeds, and the
    bucket is as it was. *)
Theorem probe_accepts key fk w : full s key = Ok fk → b_objs (view (sw_srv w)) !! fk = None →
  scalm w → srv_ok (sw_srv w) →
  digest (String.list_byte_of_string "offshoot-probe-1") ≠ "offshoot-probe-not-a-real-etag" →
  ∃ w', ProbeCAS s key w = (Ok (), w') ∧ view (sw_srv w') = view (sw_srv w) ∧ scalm w'.
Proof.
  intros Hk Hnone Hs Hok Htag. unfold ProbeCAS.
  assert (∀ l, l = "offshoot-probe-1" ∨ l = "offshoot-probe-2" → (blen (String.list_byte_of_string l) <= single_put_max)%Z) as Hlen
    by (intros l [-> | ->]; vm_compute; done).
  set (d1 := String.list_byte_of_string "offshoot-probe-1") in *. set (d2 := String.list_byte_of_string "offshoot-probe-2").
  assert ((blen d1 <= single_put_max)%Z) as H1 by (apply Hlen; by left).
  assert ((blen d2 <= single_put_max)%Z) as H2 by (apply Hlen; by right). clearbody d1 d2. clear Hlen.
  destruct (calm_PutIf key fk d1 "" (sw_srv w) w Hk H1) as (v1 & w1 & Hq1 & E1); [by split|].
  rewrite Hnone in E1. destruct E1 as [E1 Hv1].
  assert (b_objs (view v1) !! fk = Some (mkSObj d1 (digest d1))) as Ho1 by (rewrite Hv1; apply lookup_insert_eq).
  destruct (calm_refused key fk _ d2 "" v1 w1 Hk Ho1 H2) as (v2 & w2 & Hq2 & E2 & Hv2); [apply digest_nonempty|done|].
  rewrite <- Hv2 in Ho1.
  destruct (calm_refused key fk _ d2 "offshoot-probe-not-a-real-etag" v2 w2 Hk Ho1 H2) as (v3 & w3 & Hq3 & E3 & Hv3); [done|done|].
  rewrite <- Hv3 in Ho1.
  destruct (calm_PutIf key fk d2 (digest d1) v3 w3 Hk H2 Hq3) as (v4 & w4 & Hq4 & E4).
  assert (cond_holds (precondition (digest d1)) (b_objs (view v3) !! fk) = true) as Hc.
  { rewrite Ho1. unfold precondition, cond_holds. rewrite bool_decide_eq_false_2 by apply digest_nonempty. cbn. by apply bool_decide_eq_true_2. }
  rewrite Hc in E4. destruct E4 as [E4 Hv4].
  assert (b_objs (view v4) !! fk = Some (mkSObj d2 (digest d2))) as Ho4 by (rewrite Hv4; apply lookup_insert_eq).
  destruct (calm_content key fk _ v4 w4 Hk Ho4 Hq4) as (v5 & w5 & Hq5 & E5 & Hv5).
  destruct (calm_Delete key fk v5 w5 Hk Hq5) as (v6 & w6 & Hq6 & E6 & Hv6).
  exists w6. destruct Hq6 as (Hs6 & Hsv6 & _). split; [|split; [|done]].
  - unfold probe_body, stry, mbind, sio_bind, slift. cbn in E2, E3, E5. by rewrite E1, E2, E3, E4, E5, E6.
  - rewrite Hsv6, Hv6, Hv5, Hv4, Hv3, Hv2, Hv1. cbn. destruct (view (sw_srv w)) as [m u]. cbn in *. f_equal.
    rewrite insert_insert_eq. by apply delete_insert_id.
Qed.
End s3_probe.
