(* ===== verification/Ltx.v ===== *)
(** * LTX snapshots and segments

    [internal/ltxio/segment.go] and [internal/ltxio/ltxio.go]: the rolling
    database checksum and its incremental update, [EncodeSegment],
    [EncodeSnapshot], [checkGrowth], [applySegments], [ApplySegments],
    [MaterializeChain] and [StreamChecksum].

    The LTX container format and its page checksum (CRC-64) belong to
    [github.com/superfly/ltx].  They are the class [LtxLib]: the constant and
    functions the code calls, and the documented laws of the codec (an
    encoder's output decodes to what was encoded; the encoder accepts a
    well-formed file).  Of the checksum only that its flag is not zero is
    assumed, of [LockPgno] nothing.  A database file is its bytes ([Files]). *)
From Stdlib Require Import Strings.Byte.
From S2P Require Import Prelude Files.
Local Open Scope N_scope.

Record Page := mkPage { pg_no : N; pg_data : bytes }.

(** The fields of an LTX header the code reads. *)
Record ltx_header := mkLtxHeader {
  lh_page_size : N; lh_commit : N; lh_min : N; lh_max : N; lh_pre : N }.

Definition IsSnapshot (h : ltx_header) : bool := lh_min h =? 1.

(** The page numbers [lo .. hi]. *)
Definition range (lo hi : N) : list N :=
  N.of_nat <$> seq (N.to_nat lo) (N.to_nat hi + 1 - N.to_nat lo).

Definition IsValidPageSize (ps : N) : bool :=
  (512 <=? ps) && (ps <=? 65536) && (N.land ps (ps - 1) =? 0).

(** What the encoder accepts: page numbers strictly increasing, within the
    commit size, never the lock page, and pages of the declared size; a
    non-snapshot declares a pre-apply checksum; checksums carry the flag. *)
Record ltx_valid (flag lock : N) (h : ltx_header) (pages : list Page) (post : N) : Prop := mk_ltx_valid {
  lv_sorted : StronglySorted (λ p q, pg_no p < pg_no q) pages;
  lv_pages : Forall (λ p, 1 <= pg_no p ∧ pg_no p <= lh_commit h ∧ pg_no p ≠ lock ∧
                          length (pg_data p) = N.to_nat (lh_page_size h)) pages;
  lv_commit : 1 <= lh_commit h ∧ lh_commit h < u32_size - 1;
  lv_txids : 1 <= lh_min h ∧ lh_min h <= lh_max h ∧ lh_max h < u64_size;
  lv_pre : (lh_min h = 1 ∧ lh_pre h = 0) ∨ (lh_min h ≠ 1 ∧ N.lor flag (lh_pre h) = lh_pre h);
  lv_post : N.lor flag post = post;
  lv_page_size : IsValidPageSize (lh_page_size h) = true;
  (* a snapshot holds every page of the database *)
  lv_full : lh_min h = 1 → (pg_no <$> pages) = filter (λ n, n ≠ lock) (range 1 (lh_commit h)) }.

(** The database file a snapshot's pages form; the lock page reads as zeros. *)
Definition snapshot_file (h : ltx_header) (pages : list Page) (f : bytes) : Prop :=
  length f = N.to_nat (lh_commit h * lh_page_size h) ∧
  ∀ p, p ∈ pages → page f (lh_page_size h) (pg_no p) = pg_data p.

(** The rolling checksum of a run of pages: an XOR of page checksums under the
    flag bit. *)
Definition fold_sum (flag : N) (cp : N → bytes → N) (chksum : N) (pages : list Page) : N :=
  foldl (λ c p, N.lor flag (N.lxor c (cp (pg_no p) (pg_data p)))) chksum pages.

Class LtxLib := {
  ChecksumFlag : N;
  ChecksumFlag_set : ChecksumFlag ≠ 0;
  ltx_ChecksumPage : N → bytes → N;
  ltx_LockPgno : N → N;
  (** [NewEncoder], [EncodeHeader], [EncodePage]s, [SetPostApplyChecksum], [Close]. *)
  ltx_encode : ltx_header → list Page → N → res bytes;
  (** [DecodeHeader]. *)
  ltx_decode_header : bytes → res ltx_header;
  (** The [DecodePage] loop and [Close]: the pages and the trailer's checksum. *)
  ltx_decode_body : bytes → res (list Page * N);
  (** [DecodeDatabaseTo]: header, file contents, the trailer's checksum. *)
  ltx_DecodeDatabaseTo : bytes → res (ltx_header * bytes * N);
  ltx_accepts : ∀ h pages post, ltx_valid ChecksumFlag (ltx_LockPgno (lh_page_size h)) h pages post →
    ∃ b, ltx_encode h pages post = Ok b;
  ltx_decodes : ∀ h pages post b, ltx_encode h pages post = Ok b → lh_min h ≠ 1 →
    ltx_decode_header b = Ok h ∧ ltx_decode_body b = Ok (pages, post);
  ltx_decodes_database : ∀ h pages post b, ltx_encode h pages post = Ok b → lh_min h = 1 →
    ltx_valid ChecksumFlag (ltx_LockPgno (lh_page_size h)) h pages post →
    post = fold_sum ChecksumFlag ltx_ChecksumPage ChecksumFlag pages →
    ∃ f, ltx_DecodeDatabaseTo b = Ok (h, f, post) ∧ snapshot_file h pages f }.

Section ltxio.
  Context `{LtxLib}.

(** ** Checksums *)

Definition ChecksumPage (pgno : N) (data : bytes) : N := ltx_ChecksumPage pgno data.
Definition LockPgno (ps : N) : N := ltx_LockPgno ps.

(** [nil] is the empty slice. *)
Definition UpdateChecksum (running pgno : N) (oldData newData : bytes) : N :=
  let c := if (0 <? N.of_nat (length oldData)) then N.lxor running (ChecksumPage pgno oldData) else running in
  let c := if (0 <? N.of_nat (length newData)) then N.lxor c (ChecksumPage pgno newData) else c in
  N.lor ChecksumFlag c.

Fixpoint checksum_pages (src : bytes) (ps lock : N) (pgnos : list N) (chksum : N) : res N :=
  match pgnos with
  | [] => Ok chksum
  | pgno :: pgnos =>
      if pgno =? lock then checksum_pages src ps lock pgnos chksum
      else match ReadAt src (page_off ps pgno) ps with
      | None => Err [EIO]
      | Some buf =>
          checksum_pages src ps lock pgnos (N.lor ChecksumFlag (N.lxor chksum (ChecksumPage pgno buf)))
      end
  end.

Definition checksumPages (src : bytes) (ps nPages : N) : res N :=
  checksum_pages src ps (LockPgno ps) (range 1 nPages) ChecksumFlag.

(** ** Encoding a segment *)

Fixpoint check_segment_pages (ps : N) (prev : option N) (pages : list Page) : res unit :=
  match pages with
  | [] => Ok tt
  | p :: pages =>
      if negb (N.of_nat (length (pg_data p)) =? ps) then Err [EPageSize]
      else if match prev with Some q => pg_no p <=? q | None => false end then Err [EUnsorted]
      else check_segment_pages ps (Some (pg_no p)) pages
  end.

Definition EncodeSegment (ps commit minTXID maxTXID pre post : N) (pages : list Page) : res bytes :=
  if (minTXID =? 0) || (maxTXID <? minTXID) then Err [ERange]
  else if minTXID =? 1 then Err [ERange]
  else
    _ ← check_segment_pages ps None pages;
    if pre =? 0 then Err [EPreApply]
    else if post =? 0 then Err [EPostApply]
    else ltx_encode (mkLtxHeader ps commit minTXID maxTXID pre)
           (filter (λ p, pg_no p ≠ LockPgno ps) pages) post.

(** ** Applying segments *)

Definition checkGrowth (commit prevCommit lock : N) (carried : gset N) : res unit :=
  if commit <=? prevCommit then Ok tt
  else
    let need := commit - prevCommit in
    let need := if (prevCommit <? lock) && (lock <=? commit) then need - 1 else need in
    let have := N.of_nat (size (filter (λ n, prevCommit < n ∧ n <= commit ∧ n ≠ lock) carried)) in
    if negb (have =? need) then Err [EGrowth] else Ok tt.

Definition CheckGrowth (commit prevCommit ps : N) (carried : gset N) : res unit :=
  checkGrowth commit prevCommit (LockPgno ps) carried.

Definition read_page (f : bytes) (ps pgno : N) : res bytes :=
  match ReadAt f (page_off ps pgno) ps with Some b => Ok b | None => Err [EIO] end.

(** The page loop: each page's old contribution out, its new one in. *)
Fixpoint apply_pages (ps prevCommit commit lock : N) (pages : list Page) (f : bytes) (running : N)
    : res (bytes * N) :=
  match pages with
  | [] => Ok (f, running)
  | p :: pages =>
      let pgno := pg_no p in
      oldData ← (if (pgno <=? prevCommit) && negb (pgno =? lock) then read_page f ps pgno else Ok []);
      let f := WriteAt f (page_off ps pgno) (pg_data p) in
      let newData := if (pgno <=? commit) && negb (pgno =? lock) then pg_data p else [] in
      apply_pages ps prevCommit commit lock pages f (UpdateChecksum running pgno oldData newData)
  end.

(** The pages a shrinking commit drops. *)
Fixpoint drop_pages (f : bytes) (ps lock : N) (touched : gset N) (pgnos : list N) (running : N) : res N :=
  match pgnos with
  | [] => Ok running
  | pgno :: pgnos =>
      if (pgno =? lock) || bool_decide (pgno ∈ touched) then drop_pages f ps lock touched pgnos running
      else
        old ← read_page f ps pgno;
        drop_pages f ps lock touched pgnos (UpdateChecksum running pgno old [])
  end.

(** One segment, once its header passed the checks. *)
Definition apply_segment (ps commit prevCommit : N) (pages : list Page) (post : N) (f : bytes) (running : N)
    : res (bytes * N) :=
  let lock := LockPgno ps in
  '(f, running) ← apply_pages ps prevCommit commit lock pages f running;
  let touched := list_to_set (pg_no <$> pages) in
  _ ← checkGrowth commit prevCommit lock touched;
  running ← (if commit <? prevCommit
             then drop_pages f ps lock touched (range (commit + 1) prevCommit) running else Ok running);
  let f := Truncate f (commit * ps) in
  if negb (running =? post) then Err [EPostApply] else Ok (f, post).

(** The result is the file, the last segment's MaxTXID and the checksum. *)
Fixpoint applySegments (first : bool) (f : bytes) (ps prevMaxTXID prevCommit running : N) (segments : list bytes)
    : res (bytes * N * N) :=
  match segments with
  | [] => Ok (f, prevMaxTXID, running)
  | seg :: segments =>
      shdr ← ltx_decode_header seg;
      if IsSnapshot shdr then Err [ERange]
      else if negb (lh_page_size shdr =? ps) then Err [EPageSize]
      else
        let prevMaxTXID := if first && (prevMaxTXID =? 0) then add64 (lh_min shdr) (u64_size - 1) else prevMaxTXID in
        if negb (lh_min shdr =? add64 prevMaxTXID 1) then Err [EHole]
        else if negb (lh_pre shdr =? running) then Err [EPreApply]
        else
          '(pages, post) ← ltx_decode_body seg;
          '(f, running) ← apply_segment ps (lh_commit shdr) prevCommit pages post f running;
          applySegments false f ps (lh_max shdr) (lh_commit shdr) running segments
  end.

(** [MaterializeChain], up to the rename into place: the database formed by a
    snapshot and its segments. *)
Definition MaterializeChain (snapshot : bytes) (segments : list bytes) : res (bytes * N * N) :=
  '(hdr, f, post) ← ltx_DecodeDatabaseTo snapshot;
  applySegments true f (lh_page_size hdr) (lh_max hdr) (lh_commit hdr) post segments.

(** ** The database header *)

Definition dbHeaderSize : N := 100.
Definition dbHeaderMagic : bytes :=
  [x53; x51; x4c; x69; x74; x65; x20; x66; x6f; x72; x6d; x61; x74; x20; x33; x00].

Definition checkDBHeader (hdr : bytes) (ps : N) : res unit :=
  if negb (bool_decide (take (length dbHeaderMagic) hdr = dbHeaderMagic)) then Err [EHeader]
  else if (ps <? 512) || (65536 <? ps) || negb (N.land ps (ps - 1) =? 0) then Err [EHeader]
  else Ok tt.

(** Page size and page count of a database, from its first 100 bytes. *)
Definition readDBHeader (f : bytes) : res (N * N) :=
  match ReadAt f 0 dbHeaderSize with
  | None => Err [EShort]
  | Some hdr =>
      let ps := Uint16BE (slice hdr 16 18) in
      let ps := if ps =? 1 then 65536 else ps in
      _ ← checkDBHeader hdr ps;
      Ok (ps, Uint32 BigEndian (slice hdr 28 32))
  end.

Definition ChecksumDatabase (f : bytes) : res N :=
  '(ps, nPages) ← readDBHeader f;
  checksumPages f ps nPages.

(** ** Checksumming a stream *)

(** XOR of the page checksums of [block]'s pages with indexes [from, to), index
    [i] holding page [firstPgno + (i - from)]; each carries the flag bit. *)
Definition foldPages (block : bytes) (ps firstPgno lock : N) (from to : nat) : N :=
  foldl (λ acc i,
    let pgno := add32 firstPgno (N.of_nat (i - from)) in
    if pgno =? lock then acc
    else N.lxor acc (ChecksumPage pgno (take (N.to_nat ps) (drop (i * N.to_nat ps) block))))
    0 (seq from (to - from)).

(** The fold of one block: its pages within the header's count, in two halves
    the code runs concurrently.  The state is checksum, bytes folded, bytes
    seen. *)
Definition stream_block (ps nPages : N) (block : bytes) (st : N * N * N) : N * N * N :=
  let '(chksum, folded, seen) := st in
  let n := N.of_nat (length block) in
  let k := N.min (n / ps) ((nPages * ps - seen) / ps) in
  let '(chksum, folded) :=
    if 0 <? k then
      let firstPgno := add32 ((seen / ps) mod u32_size) 1 in
      let mid := k / 2 in
      let upper := foldPages block ps (add32 firstPgno mid) (LockPgno ps) (N.to_nat mid) (N.to_nat k) in
      let lower := foldPages block ps firstPgno (LockPgno ps) 0 (N.to_nat mid) in
      (N.lor ChecksumFlag (N.lxor (N.lxor chksum lower) upper), folded + k * ps)
    else (chksum, folded) in
  (chksum, folded, seen + n).

(** The read loop: a block shorter than [B] is the last. *)
Fixpoint stream_blocks (fuel : nat) (B : nat) (ps nPages : N) (r : bytes) (st : N * N * N) : N * N * N :=
  match fuel with
  | O => st
  | S fuel =>
      let block := take B r in
      let st := if bool_decide (block = []) then st else stream_block ps nPages block st in
      if (length block <? B)%nat then st else stream_blocks fuel B ps nPages (drop B r) st
  end.

(** [StreamChecksum] over a reader of the bytes [r], with blocks of [B] bytes. *)
Definition StreamChecksum (B : nat) (r : bytes) : res N :=
  match readDBHeader (take B r) with
  | Err e => Err e
  | Ok (ps, nPages) =>
      let '(chksum, folded, _) := stream_blocks (S (length r)) B ps nPages r (ChecksumFlag, 0, 0) in
      if folded <? nPages * ps then Err [EShort] else Ok chksum
  end.

(** The pages a snapshot encodes and the checksum folded on the way. *)
Fixpoint snapshot_pages (f : bytes) (ps lock : N) (pgnos : list N) (chksum : N) : res (list Page * N) :=
  match pgnos with
  | [] => Ok ([], chksum)
  | pgno :: pgnos =>
      if pgno =? lock then snapshot_pages f ps lock pgnos chksum
      else
        buf ← read_page f ps pgno;
        '(pages, chksum) ← snapshot_pages f ps lock pgnos
                             (N.lor ChecksumFlag (N.lxor chksum (ChecksumPage pgno buf)));
        Ok (mkPage pgno buf :: pages, chksum)
  end.

(** [EncodeSnapshot] of a quiesced database: the object and its checksum. *)
Definition EncodeSnapshot (f : bytes) (txid : N) : res (bytes * N) :=
  '(ps, nPages) ← readDBHeader f;
  '(pages, chksum) ← snapshot_pages f ps (LockPgno ps) (range 1 nPages) ChecksumFlag;
  b ← ltx_encode (mkLtxHeader ps nPages 1 txid 0) pages chksum;
  Ok (b, chksum).

(** [ApplySegments] from a plain database file of checksum [startChecksum]. *)
Definition ApplySegments (start : bytes) (startChecksum : N) (segments : list bytes) : res (bytes * N * N) :=
  if bool_decide (segments = []) then Err [EBadArgs]
  else
    '(ps, nPages) ← readDBHeader start;
    applySegments true start ps 0 nPages startChecksum segments.
End ltxio.
