(* ===== verification/LtxProps.v ===== *)
(** * Segments reproduce databases

    The incremental checksum equals a full rescan; a segment is accepted
    exactly when it grows the database only by pages it carries and its
    declared post-apply checksum is the checksum of the database it produces;
    and what it produces is the old database with its pages overlaid. *)
From Stdlib Require Import Strings.Byte.
From S2P Require Import Prelude Files Ltx.
Local Open Scope N_scope.

(** ** Page ranges *)

Lemma elem_of_range lo hi n : n ∈ range lo hi ↔ lo <= n ∧ n <= hi.
Proof.
  unfold range. rewrite list_elem_of_fmap. split.
  - intros (k & -> & Hk%elem_of_seq). lia.
  - intros [H1 H2]. exists (N.to_nat n). rewrite elem_of_seq. lia.
Qed.

Lemma NoDup_range lo hi : NoDup (range lo hi).
Proof. unfold range. apply NoDup_fmap_2; [intros x y; lia|apply NoDup_seq]. Qed.

Lemma range_split lo mid hi : lo <= mid + 1 → mid <= hi → range lo hi = (range lo mid ++ range (mid + 1) hi)%list.
Proof.
  intros. unfold range. rewrite <-fmap_app.
  replace (N.to_nat (mid + 1)) with (N.to_nat lo + (N.to_nat mid + 1 - N.to_nat lo))%nat by lia.
  rewrite <-seq_app. do 2 f_equal. lia.
Qed.

Lemma range_nil lo hi : hi < lo → range lo hi = [].
Proof. intros. unfold range. replace (N.to_nat hi + 1 - N.to_nat lo)%nat with O by lia. done. Qed.

Lemma length_range lo hi : length (range lo hi) = (N.to_nat hi + 1 - N.to_nat lo)%nat.
Proof. unfold range. by rewrite length_fmap, length_seq. Qed.

Lemma StronglySorted_range lo hi : StronglySorted N.lt (range lo hi).
Proof.
  unfold range. generalize (N.to_nat hi + 1 - N.to_nat lo)%nat as k. generalize (N.to_nat lo) as a.
  intros a k. revert a. induction k as [|k IH]; intros a; cbn [seq]; rewrite ?fmap_cons; constructor; [done|].
  rewrite Forall_fmap, Forall_forall. intros n [? ?]%elem_of_seq. cbn. lia.
Qed.

(** ** XOR sums *)

Definition xorsum (c : N → N) (L : list N) : N := foldr (λ n a, N.lxor (c n) a) 0 L.

Lemma xorsum_ext c d L : (∀ n, n ∈ L → c n = d n) → xorsum c L = xorsum d L.
Proof.
  induction L as [|n L IH]; simpl; [done|]. intros Hext. rewrite (Hext n) by set_solver.
  f_equal. apply IH. set_solver.
Qed.

Lemma xorsum_app c L1 L2 : xorsum c (L1 ++ L2) = N.lxor (xorsum c L1) (xorsum c L2).
Proof. induction L1 as [|n L IH]; simpl; [done|]. by rewrite IH, N.lxor_assoc. Qed.

Lemma xorsum_zero c L : (∀ n, n ∈ L → c n = 0) → xorsum c L = 0.
Proof.
  induction L as [|n L IH]; simpl; [done|]. intros Hz. rewrite (Hz n), IH by set_solver. done.
Qed.

(** Change one summand. *)
Definition upd (c : N → N) (n v : N) : N → N := λ k, if decide (k = n) then v else c k.

Lemma xorsum_upd c L n v :
  NoDup L → n ∈ L → xorsum (upd c n v) L = N.lxor (N.lxor (xorsum c L) (c n)) v.
Proof.
  induction L as [|k L IH]; intros Hnd Hin; [set_solver|].
  apply NoDup_cons in Hnd as [Hk Hnd]. cbn [xorsum foldr]. fold (xorsum c L) (xorsum (upd c n v) L).
  unfold upd at 1. destruct (decide (k = n)) as [->|Hne].
  - rewrite (xorsum_ext (upd c n v) c) by (intros j Hj; unfold upd; rewrite decide_False; congruence).
    apply N.bits_inj. intros b. rewrite !N.lxor_spec. by destruct (N.testbit (c n) b), (N.testbit (xorsum c L) b), (N.testbit v b).
  - rewrite IH by set_solver. by rewrite !N.lxor_assoc.
Qed.

Lemma lor_lxor_flag F a b : N.lor F (N.lxor (N.lor F a) b) = N.lor F (N.lxor a b).
Proof.
  apply N.bits_inj. intros i. rewrite !N.lor_spec, !N.lxor_spec, !N.lor_spec.
  by destruct (N.testbit F i), (N.testbit a i), (N.testbit b i).
Qed.

Section props.
  Context `{LtxLib} (ps : N) (Hps : 0 < ps).
  Implicit Types (f g : bytes) (c : N → N) (pages : list Page).
  Local Abbreviation lock := (LockPgno ps).

(** The checksum a page contributes to a database of [commit] pages. *)
Definition contrib f (commit n : N) : N :=
  if (1 <=? n) && (n <=? commit) && negb (n =? lock) then ChecksumPage n (page f ps n) else 0.

(** The checksum of a database: what a full rescan computes. *)
Definition db_sum f (commit : N) : N := N.lor ChecksumFlag (xorsum (contrib f commit) (range 1 commit)).

Definition old_part n (d : bytes) : N := if (0 <? N.of_nat (length d)) then ChecksumPage n d else 0.

Lemma UpdateChecksum_xor running n d e :
  UpdateChecksum running n d e = N.lor ChecksumFlag (N.lxor (N.lxor running (old_part n d)) (old_part n e)).
Proof.
  unfold UpdateChecksum, old_part.
  destruct (0 <? N.of_nat (length d)), (0 <? N.of_nat (length e)); rewrite ?N.lxor_0_r; done.
Qed.

Lemma UpdateChecksum_sum L c n running d e v :
  NoDup L → n ∈ L → running = N.lor ChecksumFlag (xorsum c L) →
  old_part n d = c n → old_part n e = v →
  UpdateChecksum running n d e = N.lor ChecksumFlag (xorsum (upd c n v) L).
Proof.
  intros Hnd Hn -> Hd He. rewrite UpdateChecksum_xor, xorsum_upd, Hd, He by done.
  rewrite !N.lxor_assoc. apply lor_lxor_flag.
Qed.

Lemma old_part_page n d : length d = N.to_nat ps → old_part n d = ChecksumPage n d.
Proof. intros Hl. unfold old_part. rewrite Hl, N2Nat.id. by destruct (N.ltb_spec 0 ps); [|lia]. Qed.

Lemma old_part_nil n : old_part n [] = 0.
Proof. done. Qed.

Lemma has_page_commit f commit n :
  commit < u32_size → commit * ps <= N.of_nat (length f) → 1 <= n → n <= commit → has_page f ps n.
Proof. intros. split_and!; [lia..|nia]. Qed.

Lemma contrib_old_part f commit n (b : bytes) :
  1 <= n → n <= commit → n ≠ lock → has_page f ps n → b = page f ps n →
  old_part n b = contrib f commit n.
Proof.
  intros H1 H2 H3 Hp ->. rewrite old_part_page by (by apply length_page). unfold contrib.
  by rewrite (proj2 (N.leb_le 1 n)), (proj2 (N.leb_le n commit)), (proj2 (N.eqb_neq n lock)) by done.
Qed.

Lemma contrib_lock f commit : contrib f commit lock = 0.
Proof. unfold contrib. rewrite N.eqb_refl. by rewrite andb_false_r. Qed.

Lemma contrib_above f commit n : commit < n → contrib f commit n = 0.
Proof. intros. unfold contrib. rewrite (proj2 (N.leb_gt n commit)) by done. by rewrite andb_false_r. Qed.

(** The sum may be taken over any longer range. *)
Lemma xorsum_contrib f commit M :
  commit <= M → xorsum (contrib f commit) (range 1 M) = xorsum (contrib f commit) (range 1 commit).
Proof.
  intros HM. rewrite (range_split 1 commit M), xorsum_app by lia.
  rewrite (xorsum_zero _ (range (commit + 1) M)), N.lxor_0_r; [done|].
  intros n [? ?]%elem_of_range. apply contrib_above. lia.
Qed.

(** A full scan computes [db_sum]. *)
Lemma checksum_pages_sum f commit L x :
  (∀ n, n ∈ L → 1 <= n ∧ n <= commit ∧ has_page f ps n) →
  checksum_pages f ps lock L (N.lor ChecksumFlag x) =
    Ok (N.lor ChecksumFlag (N.lxor x (xorsum (contrib f commit) L))).
Proof.
  revert x. induction L as [|n L IH]; intros x HL; cbn [checksum_pages xorsum foldr].
  - by rewrite N.lxor_0_r.
  - fold (xorsum (contrib f commit) L). destruct (HL n) as (H1 & H2 & Hp); [by left|].
    assert (∀ k, k ∈ L → 1 <= k ∧ k <= commit ∧ has_page f ps k) as HL' by (intros; apply HL; by right).
    destruct (N.eqb_spec n lock) as [->|Hne].
    + rewrite contrib_lock, N.lxor_0_l. by apply IH.
    + rewrite ReadAt_page by done. rewrite lor_lxor_flag, IH by done.
      rewrite <-(contrib_old_part f commit n (page f ps n)), old_part_page by (done || by apply length_page).
      by rewrite N.lxor_assoc.
Qed.

Lemma checksumPages_sum f commit :
  commit < u32_size → commit * ps <= N.of_nat (length f) →
  checksumPages f ps commit = Ok (db_sum f commit).
Proof.
  intros Hc Hl. unfold checksumPages. rewrite <-(N.lor_0_r ChecksumFlag).
  rewrite (checksum_pages_sum f commit).
  - by rewrite N.lxor_0_l.
  - intros n [? ?]%elem_of_range. split_and!; [done..|]. by apply (has_page_commit f commit).
Qed.

(** ** Applying one segment *)

Definition pmap pages : gmap N bytes := list_to_map ((λ p, (pg_no p, pg_data p)) <$> pages).

Definition pages_ok pages : Prop :=
  NoDup (pg_no <$> pages) ∧
  Forall (λ p, 1 <= pg_no p ∧ pg_no p < u32_size ∧ length (pg_data p) = N.to_nat ps) pages.

Lemma pmap_cons p pages : pmap (p :: pages) = <[pg_no p := pg_data p]> (pmap pages).
Proof. done. Qed.

Lemma pmap_Some pages n d : pmap pages !! n = Some d → ∃ p, p ∈ pages ∧ pg_no p = n ∧ pg_data p = d.
Proof.
  unfold pmap. intros Hl%elem_of_list_to_map_2. apply list_elem_of_fmap in Hl as (p & [= -> ->] & Hp). eauto.
Qed.

Lemma pmap_None pages n : pmap pages !! n = None ↔ n ∉ pg_no <$> pages.
Proof. unfold pmap. rewrite <-not_elem_of_list_to_map, <-list_fmap_compose. done. Qed.

Lemma has_page_mono f g n : (length f <= length g)%nat → has_page f ps n → has_page g ps n.
Proof. intros Hl (? & ? & ?). split_and!; [done..|lia]. Qed.

(** The summands after a segment's pages are folded in. *)
Definition seg_contrib c (m : gmap N bytes) (commit n : N) : N :=
  match m !! n with
  | Some d => if (n <=? commit) && negb (n =? lock) then ChecksumPage n d else 0
  | None => c n
  end.

Lemma read_old f prev n :
  prev < u32_size → prev * ps <= N.of_nat (length f) → 1 <= n →
  ∃ d, (if (n <=? prev) && negb (n =? lock) then read_page f ps n else Ok []) = Ok d ∧
    old_part n d = contrib f prev n.
Proof.
  intros Hp Hl H1. destruct (N.leb_spec n prev) as [H2|H2]; cbn [andb].
  - destruct (N.eqb_spec n lock) as [->|Hne]; cbn [negb].
    + exists []. split; [done|]. by rewrite contrib_lock.
    + assert (has_page f ps n) as Hpg by (by apply (has_page_commit f prev)).
      exists (page f ps n). split; [|by apply contrib_old_part].
      unfold read_page. by rewrite ReadAt_page.
  - exists []. split; [done|]. by rewrite contrib_above.
Qed.

Lemma contrib_WriteAt f prev k d n :
  prev < u32_size → prev * ps <= N.of_nat (length f) → 1 <= k → k < u32_size →
  length d = N.to_nat ps → n ≠ k → contrib (WriteAt f (page_off ps k) d) prev n = contrib f prev n.
Proof.
  intros Hp Hl H1 H2 Hd Hne. unfold contrib.
  destruct ((1 <=? n) && (n <=? prev) && negb (n =? lock)) eqn:E; [|done]. bool_to_prop.
  rewrite page_WriteAt_ne; [done|done| |done..]. by apply (has_page_commit f prev).
Qed.

Lemma apply_pages_ok pages prev commit L :
  pages_ok pages → prev < u32_size → NoDup L → (∀ p, p ∈ pages → pg_no p ∈ L) →
  ∀ f running c, prev * ps <= N.of_nat (length f) →
  (∀ p, p ∈ pages → c (pg_no p) = contrib f prev (pg_no p)) →
  running = N.lor ChecksumFlag (xorsum c L) →
  ∃ f' running', apply_pages ps prev commit lock pages f running = Ok (f', running') ∧
    running' = N.lor ChecksumFlag (xorsum (seg_contrib c (pmap pages) commit) L) ∧
    (length f <= length f')%nat ∧
    (∀ n d, pmap pages !! n = Some d → has_page f' ps n ∧ page f' ps n = d) ∧
    (∀ n, pmap pages !! n = None → has_page f ps n → page f' ps n = page f ps n).
Proof.
  intros Hok Hprev HL. induction pages as [|p pages IH]; intros HinL f running c Hl Hc Hr.
  { exists f, running. split_and!; [done|done|done|by intros ??|done]. }
  destruct Hok as [Hnd [(H1 & H2 & Hlen) Hok]%Forall_cons].
  rewrite fmap_cons in Hnd. apply NoDup_cons in Hnd as [Hnp Hnd].
  assert (∀ q, q ∈ pages → pg_no q ≠ pg_no p) as Hne.
  { intros q Hq Heq. apply Hnp. rewrite <-Heq. by apply list_elem_of_fmap_2. }
  cbn [apply_pages]. destruct (read_old f prev (pg_no p) Hprev Hl H1) as (d & Hd & Hold).
  rewrite Hd. cbn [mbind res_bind].
  set (f1 := WriteAt f (page_off ps (pg_no p)) (pg_data p)).
  set (new := if (pg_no p <=? commit) && negb (pg_no p =? lock) then pg_data p else []).
  set (v := if (pg_no p <=? commit) && negb (pg_no p =? lock) then ChecksumPage (pg_no p) (pg_data p) else 0).
  assert (length f <= length f1)%nat as Hl1.
  { unfold f1. rewrite length_WriteAt; [lia|]. intros Hnil. rewrite Hnil in Hlen. simpl in Hlen. lia. }
  edestruct (IH) with (f := f1) (c := upd c (pg_no p) v) (running := UpdateChecksum running (pg_no p) d new)
    as (f' & running' & Ha & Hr' & Hl' & Hs & Hn).
  - by split.
  - intros q Hq. apply HinL. by right.
  - lia.
  - intros q Hq. unfold upd. rewrite decide_False by auto. rewrite Hc by (by right).
    symmetry. apply contrib_WriteAt; auto.
  - eapply UpdateChecksum_sum; [done|apply HinL; by left|done| |].
    + rewrite Hold. symmetry. apply Hc. by left.
    + unfold new, v. destruct ((pg_no p <=? commit) && negb (pg_no p =? lock)); [by apply old_part_page|done].
  - exists f', running'. split_and!; [done| |lia| |].
    + rewrite Hr'. f_equal. apply xorsum_ext. intros n _. unfold seg_contrib, upd. rewrite pmap_cons.
      destruct (decide (n = pg_no p)) as [->|Hnn].
      * rewrite lookup_insert_eq. by rewrite (proj2 (pmap_None _ _) Hnp).
      * by rewrite lookup_insert_ne.
    + intros n e. rewrite pmap_cons. destruct (decide (n = pg_no p)) as [->|Hnn].
      * rewrite lookup_insert_eq. intros [= <-].
        assert (has_page f1 ps (pg_no p)) as Hp1 by (by apply has_page_WriteAt_eq).
        split; [by apply (has_page_mono f1)|]. rewrite Hn; [by apply page_WriteAt_eq| |done].
        by apply pmap_None.
      * rewrite lookup_insert_ne by done. apply Hs.
    + intros n. rewrite pmap_cons. destruct (decide (n = pg_no p)) as [->|Hnn].
      * by rewrite lookup_insert_eq.
      * rewrite lookup_insert_ne by done. intros Hnone Hp.
        rewrite Hn; [by apply page_WriteAt_ne|done|by apply has_page_WriteAt].
Qed.

Lemma drop_pages_ok f touched L pgnos :
  NoDup L → ∀ running c, NoDup pgnos → (∀ n, n ∈ pgnos → n ∈ L ∧ has_page f ps n) →
  (∀ n, n ∈ pgnos → n ≠ lock → n ∉ touched → c n = old_part n (page f ps n)) →
  running = N.lor ChecksumFlag (xorsum c L) →
  drop_pages f ps lock touched pgnos running =
    Ok (N.lor ChecksumFlag
          (xorsum (λ n, if decide (n ∈ pgnos ∧ n ≠ lock ∧ n ∉ touched) then 0 else c n) L)).
Proof.
  intros HL. induction pgnos as [|k pgnos IH]; intros running c Hnd Hin Hc Hr; cbn [drop_pages].
  - by rewrite Hr.
  - apply NoDup_cons in Hnd as [Hk Hnd]. destruct (Hin k) as [HkL Hkp]; [by left|].
    destruct ((k =? lock) || bool_decide (k ∈ touched)) eqn:Hskip.
    + rewrite (IH running c); [|done|intros; apply Hin; by right|intros; apply Hc; [by right|done..]|done].
      do 2 f_equal. apply xorsum_ext. intros n _. apply orb_true_iff in Hskip.
      rewrite N.eqb_eq, bool_decide_eq_true in Hskip.
      apply decide_ext. rewrite elem_of_cons. split; [tauto|].
      intros ([->|Hn] & Hnl & Hnt); [by destruct Hskip|auto].
    + apply orb_false_iff in Hskip as [Hkl%N.eqb_neq Hkt%bool_decide_eq_false_1].
      unfold read_page. rewrite ReadAt_page by done. cbn [mbind res_bind].
      rewrite (IH _ (upd c k 0)).
      * do 2 f_equal. apply xorsum_ext. intros n _. unfold upd.
        destruct (decide (n = k)) as [->|Hnk].
        -- rewrite (decide_True (P := k ∈ k :: pgnos ∧ _)) by (split; [by left|done]).
           by destruct (decide _).
        -- apply decide_ext. rewrite elem_of_cons. naive_solver.
      * done.
      * intros. apply Hin. by right.
      * intros n Hn Hnl Hnt. unfold upd. rewrite decide_False by congruence.
        apply Hc; [by right|done..].
      * eapply UpdateChecksum_sum; [done|done|done| |done].
        symmetry. apply Hc; [by left|done..].
Qed.

(** Every page a growing commit adds, the lock page apart, is carried. *)
Definition grown (commit prev : N) (carried : gset N) : Prop :=
  ∀ n, prev < n → n <= commit → n ≠ lock → n ∈ carried.

Lemma checkGrowth_grown commit prev (carried : gset N) :
  (grown commit prev carried ∧ checkGrowth commit prev lock carried = Ok tt) ∨
  (¬ grown commit prev carried ∧ checkGrowth commit prev lock carried = Err [EGrowth]).
Proof.
  unfold checkGrowth. destruct (N.leb_spec commit prev) as [Hle|Hlt].
  { left. split; [intros n ???; lia|done]. }
  set (S := filter (λ n, prev < n ∧ n <= commit ∧ n ≠ lock) carried).
  set (R := (list_to_set (range (prev + 1) commit) : gset N) ∖ {[lock]}).
  assert (∀ n, n ∈ R ↔ prev < n ∧ n <= commit ∧ n ≠ lock) as HR.
  { intros n. unfold R. rewrite elem_of_difference, elem_of_list_to_set, elem_of_range, elem_of_singleton. lia. }
  assert (∀ n, n ∈ S ↔ n ∈ R ∧ n ∈ carried) as HS.
  { intros n. unfold S. rewrite elem_of_filter, HR. done. }
  assert (N.of_nat (size R) =
    (if (prev <? lock) && (lock <=? commit) then commit - prev - 1 else commit - prev)) as Hsize.
  { assert (size (list_to_set (range (prev + 1) commit) : gset N) = N.to_nat (commit - prev)) as Hs.
    { rewrite size_list_to_set by apply NoDup_range. rewrite length_range. lia. }
    unfold R. destruct ((prev <? lock) && (lock <=? commit)) eqn:E; bool_to_prop.
    - rewrite size_difference, size_singleton, Hs; [lia|].
      apply singleton_subseteq_l, elem_of_list_to_set, elem_of_range. lia.
    - replace ((list_to_set (range (prev + 1) commit) : gset N) ∖ {[lock]})
        with (list_to_set (range (prev + 1) commit) : gset N); [rewrite Hs; lia|].
      apply set_eq. intros n. rewrite elem_of_difference, elem_of_list_to_set, elem_of_range, elem_of_singleton.
      apply andb_false_iff in E. rewrite N.ltb_ge, N.leb_gt in E. split; [|tauto]. intros. split; [done|lia]. }
  rewrite <-Hsize. assert (S ⊆ R) as Hsub by (intros n; rewrite HS; tauto).
  destruct (N.eqb_spec (N.of_nat (size S)) (N.of_nat (size R))) as [Heq|Hne]; cbn [negb].
  - left. split; [|done]. intros n ???.
    assert (S = R) as HSR. { apply set_subseteq_size_eq; [done|lia]. }
    assert (n ∈ S) as Hn by (rewrite HSR; by apply HR). by apply HS in Hn as [_ Hn].
  - right. split; [|done]. intros Hg. apply Hne. do 2 f_equal. apply set_eq. intros n.
    rewrite HS. split; [tauto|]. intros HnR. split; [done|]. apply HR in HnR as (? & ? & ?). by apply Hg.
Qed.

(** [g] is the database of [commit] pages with the pages of [m] overlaid on
    [f]; the lock page holds no data and is left out. *)
Definition overlay (m : gmap N bytes) f (commit : N) g : Prop :=
  length g = N.to_nat (commit * ps) ∧
  ∀ n, 1 <= n → n <= commit → n ≠ lock → page g ps n = default (page f ps n) (m !! n).

Lemma elem_of_dom_pmap pages n : n ∈ (list_to_set (pg_no <$> pages) : gset N) ↔ n ∈ dom (pmap pages).
Proof.
  rewrite elem_of_list_to_set, elem_of_dom, <-not_eq_None_Some, pmap_None.
  split; [auto|]. intros Hn. destruct (decide (n ∈ pg_no <$> pages)); [done|by destruct Hn].
Qed.

Lemma dom_pmap pages : list_to_set (pg_no <$> pages) = dom (pmap pages).
Proof. apply set_eq. apply elem_of_dom_pmap. Qed.

(** With the dropped pages taken out, the summands are those of the result. *)
Lemma seg_contrib_overlay (m : gmap N bytes) f g commit prev n :
  overlay m f commit g → 1 <= n → grown commit prev (dom m) →
  (if decide (n ∈ range (commit + 1) prev ∧ n ≠ lock ∧ n ∉ dom m)
   then 0 else seg_contrib (contrib f prev) m commit n) = contrib g commit n.
Proof.
  intros [_ Hg] H1 Hgrow. unfold seg_contrib.
  destruct (decide _) as [(Hr & _)|Hd].
  { apply elem_of_range in Hr. rewrite contrib_above by lia. done. }
  destruct (m !! n) as [d|] eqn:Hm.
  - unfold contrib. rewrite (proj2 (N.leb_le 1 n)) by done. cbn [andb].
    destruct ((n <=? commit) && negb (n =? lock)) eqn:E; [|done]. bool_to_prop.
    by rewrite Hg, Hm by done.
  - apply not_elem_of_dom in Hm as Hn. rewrite elem_of_range in Hd.
    destruct (decide (n = lock)) as [->|Hnl]; [by rewrite !contrib_lock|].
    destruct (decide (n <= commit)) as [Hc|Hc].
    + destruct (decide (n <= prev)) as [Hp|Hp].
      * unfold contrib. rewrite (proj2 (N.leb_le 1 n)), (proj2 (N.leb_le n commit)), (proj2 (N.leb_le n prev)) by done.
        by rewrite (proj2 (N.eqb_neq n lock)), Hg, Hm by done.
      * exfalso. apply Hn, Hgrow; lia || done.
    + rewrite !contrib_above; [done|lia|]. destruct (decide (prev < n)); [done|]. exfalso. apply Hd.
      split_and!; [lia..|done|done].
Qed.

(** The checksum after the page loop, [c1], once the drops are folded out. *)
Lemma drop_fold_sum (m : gmap N bytes) f f1 g commit prev running1 :
  prev < u32_size → commit < u32_size → prev * ps <= N.of_nat (length f) → (length f <= length f1)%nat →
  (∀ n, m !! n = None → has_page f ps n → page f1 ps n = page f ps n) →
  grown commit prev (dom m) → overlay m f commit g →
  running1 = N.lor ChecksumFlag (xorsum (seg_contrib (contrib f prev) m commit) (range 1 u32_size)) →
  (if commit <? prev then drop_pages f1 ps lock (dom m) (range (commit + 1) prev) running1 else Ok running1)
    = Ok (db_sum g commit).
Proof.
  intros Hp Hc Hl Hl1 Hn Hg Hov Hr. set (M := u32_size) in *. set (L := range 1 M) in *.
  transitivity (Ok (N.lor ChecksumFlag (xorsum (λ n,
      if decide (n ∈ range (commit + 1) prev ∧ n ≠ lock ∧ n ∉ dom m)
      then 0 else seg_contrib (contrib f prev) m commit n) L))).
  - destruct (N.ltb_spec commit prev) as [Hlt|Hge].
    + apply drop_pages_ok; [apply NoDup_range|apply NoDup_range| | |done].
      * intros n [? ?]%elem_of_range. split; [apply elem_of_range; lia|].
        apply (has_page_mono f); [done|]. apply (has_page_commit f prev); lia.
      * intros n [? ?]%elem_of_range Hnl Hnt. unfold seg_contrib. apply not_elem_of_dom in Hnt as Hm.
        assert (has_page f ps n) as Hhp by (apply (has_page_commit f prev); lia).
        rewrite Hm, Hn by done. symmetry. apply contrib_old_part; done || lia.
    + rewrite Hr. by rewrite range_nil by lia.
  - unfold db_sum. do 2 f_equal. rewrite <-(xorsum_contrib g commit M) by lia.
    apply xorsum_ext. intros n [? ?]%elem_of_range. by apply seg_contrib_overlay.
Qed.

Lemma apply_segment_spec pages f prev commit :
  pages_ok pages → prev < u32_size → commit < u32_size → prev * ps <= N.of_nat (length f) →
  (grown commit prev (dom (pmap pages)) ∧
   ∃ g, overlay (pmap pages) f commit g ∧ ∀ post,
     apply_segment ps commit prev pages post f (db_sum f prev) =
       if db_sum g commit =? post then Ok (g, post) else Err [EPostApply]) ∨
  (¬ grown commit prev (dom (pmap pages)) ∧ ∀ post,
     apply_segment ps commit prev pages post f (db_sum f prev) = Err [EGrowth]).
Proof.
  intros Hok Hp Hc Hl.
  assert (∀ p, p ∈ pages → pg_no p ∈ range 1 u32_size) as HinL.
  { intros p Hin. destruct Hok as [_ Hf]. rewrite Forall_forall in Hf.
    apply elem_of_range. destruct (Hf p Hin) as (? & ? & ?). lia. }
  edestruct (apply_pages_ok pages prev commit _ Hok Hp (NoDup_range 1 _) HinL f (db_sum f prev) (contrib f prev) Hl)
    as (f1 & running1 & Ha & Hr & Hl1 & Hs & Hn); [done|unfold db_sum; by rewrite (xorsum_contrib f prev u32_size) by lia|].
  unfold apply_segment. rewrite Ha. cbn [mbind res_bind]. rewrite dom_pmap.
  destruct (checkGrowth_grown commit prev (dom (pmap pages))) as [[Hg Hcg]|[Hg Hcg]]; rewrite Hcg; [left|by right].
  split; [done|]. set (g := Truncate f1 (commit * ps)).
  assert (overlay (pmap pages) f commit g) as Hov.
  { split; [apply length_Truncate|]. intros n H1 H2 Hnl. unfold g.
    destruct (pmap pages !! n) as [d|] eqn:Hm; cbn [default].
    - destruct (Hs n d Hm) as [Hh <-]. by rewrite page_Truncate.
    - assert (n <= prev) as Hnp.
      { destruct (decide (n <= prev)); [done|]. apply not_elem_of_dom in Hm. exfalso. apply Hm, Hg; lia || done. }
      assert (has_page f ps n) as Hhp by (apply (has_page_commit f prev); done).
      rewrite page_Truncate; [by apply Hn|done|by apply (has_page_mono f)|done]. }
  exists g. split; [done|]. intros post. cbn [mbind res_bind].
  rewrite (drop_fold_sum (pmap pages) f f1 g commit prev running1) by done.
  cbn [mbind res_bind]. fold g. by destruct (N.eqb_spec (db_sum g commit) post).
Qed.

(** C31: Applying a segment is exact.  On a database whose running checksum is
    the one a full scan computes, a segment is refused when its commit size
    grows the database past the pages it carries; otherwise the result is the
    old database with the segment's pages overlaid, cut or extended to the
    commit size, and it is accepted precisely when the post-apply checksum it
    declares is the one a full scan of that result computes, although the
    code only folds in the pages that changed. *)
Theorem segment_apply_exact pages f prev commit running :
  pages_ok pages → prev < u32_size → commit < u32_size → prev * ps <= N.of_nat (length f) →
  checksumPages f ps prev = Ok running →
  (grown commit prev (dom (pmap pages)) ∧
   ∃ g sum, overlay (pmap pages) f commit g ∧ checksumPages g ps commit = Ok sum ∧ ∀ post,
     apply_segment ps commit prev pages post f running = if sum =? post then Ok (g, post) else Err [EPostApply]) ∨
  (¬ grown commit prev (dom (pmap pages)) ∧ ∀ post,
     apply_segment ps commit prev pages post f running = Err [EGrowth]).
Proof.
  intros Hok Hp Hc Hl Hr. rewrite checksumPages_sum in Hr by done. injection Hr as <-.
  destruct (apply_segment_spec pages f prev commit Hok Hp Hc Hl) as [(Hg & g & Hov & Ha)|Hng]; [left|by right].
  split; [done|]. exists g, (db_sum g commit). split_and!; [done| |done].
  apply checksumPages_sum; [done|]. destruct Hov as [-> _]. lia.
Qed.
End props.
