(* ===== verification/LtxModel.v ===== *)
(** * A model of the LTX library

    A concrete instance of [LtxLib], which shows its laws consistent and lets
    the theorems about segments and sessions be evaluated.  It is not the LTX
    wire format: an object is a self-delimiting encoding of its header, pages
    and checksum.  The lock page is the one of SQLite's PENDING_BYTE, the page
    checksum a polynomial over the page number and bytes. *)
From Stdlib Require Import Strings.Byte.
From stdpp Require Import countable.
From S2P Require Import Prelude Files Ltx LtxProps.
Local Open Scope N_scope.

#[global] Instance byte_countable : Countable byte.
Proof.
  apply (inj_countable to_N of_N). intros b. apply Byte.of_to_N.
Defined.

#[global] Instance Page_eq_dec : EqDecision Page.
Proof. solve_decision. Defined.
#[global] Instance ltx_header_eq_dec : EqDecision ltx_header.
Proof. solve_decision. Defined.

#[global] Instance Page_countable : Countable Page.
Proof.
  apply (inj_countable' (λ p, (pg_no p, pg_data p)) (λ '(n, d), mkPage n d)). by intros [].
Defined.

#[global] Instance ltx_header_countable : Countable ltx_header.
Proof.
  apply (inj_countable' (λ h, (lh_page_size h, lh_commit h, lh_min h, lh_max h, lh_pre h))
    (λ '(a, b, c, d, e), mkLtxHeader a b c d e)). by intros [].
Defined.

(** Bits as bytes. *)
Fixpoint pos_bytes (p : positive) : bytes :=
  match p with xH => [] | xO p => x00 :: pos_bytes p | xI p => x01 :: pos_bytes p end.
Fixpoint bytes_pos (b : bytes) : positive :=
  match b with [] => xH | x00 :: b => xO (bytes_pos b) | _ :: b => xI (bytes_pos b) end.

Lemma bytes_pos_bytes p : bytes_pos (pos_bytes p) = p.
Proof. induction p; simpl; congruence. Qed.

Definition ltx_obj : Type := (ltx_header * list Page * N)%type.

Definition obj_bytes (o : ltx_obj) : bytes := pos_bytes (encode o).
Definition bytes_obj (b : bytes) : res ltx_obj :=
  match decode (bytes_pos b) with Some o => Ok o | None => Err [ECorrupt] end.

Lemma bytes_obj_bytes o : bytes_obj (obj_bytes o) = Ok o.
Proof. unfold bytes_obj, obj_bytes. by rewrite bytes_pos_bytes, decode_encode. Qed.

Definition model_flag : N := 9223372036854775808.
Definition model_lock (ps : N) : N := 1073741824 / ps + 1.
Definition model_sum (pgno : N) (d : bytes) : N :=
  N.lor model_flag (foldl (λ a b, (a * 131 + to_N b + 1) mod model_flag) pgno d).

Definition page_pair (p : Page) : N * bytes := (pg_no p, pg_data p).

Definition model_database (h : ltx_header) (pages : list Page) : bytes :=
  Truncate (write_pages (lh_page_size h) (page_pair <$> pages) []) (lh_commit h * lh_page_size h).

Lemma last_writes_NoDup l k (d : bytes) : NoDup (l.*1) → (k, d) ∈ l → last_writes l ∅ !! k = Some d.
Proof.
  induction l as [|[k' e] l IH] using rev_ind; intros Hnd Hin; [by apply not_elem_of_nil in Hin|].
  rewrite fmap_app in Hnd. apply NoDup_app in Hnd as (Hnd & Hdisj & _).
  unfold last_writes in *. rewrite foldl_app. cbn [foldl].
  apply elem_of_app in Hin as [Hin|Hin%list_elem_of_singleton].
  - rewrite lookup_insert_ne; [auto|]. intros ->. eapply Hdisj; [apply list_elem_of_fmap; eauto|].
    by left.
  - simplify_eq. by rewrite lookup_insert_eq.
Qed.

Lemma valid_page_size_pos ps : IsValidPageSize ps = true → 0 < ps.
Proof. unfold IsValidPageSize. intros. bool_to_prop. lia. Qed.

Lemma model_database_ok flag lock h pages post :
  ltx_valid flag lock h pages post → snapshot_file h pages (model_database h pages).
Proof.
  intros Hv. pose proof (valid_page_size_pos _ (lv_page_size _ _ _ _ _ Hv)) as Hps.
  destruct Hv as [Hs Hp Hc _ _ _ _ _].
  assert (Forall (λ w, 1 <= w.1 ∧ w.1 < u32_size ∧ length w.2 = N.to_nat (lh_page_size h)) (page_pair <$> pages)) as Hw.
  { rewrite Forall_fmap. eapply Forall_impl; [exact Hp|]. cbn. intros p (? & ? & ? & ?). split_and!; [done|lia|done]. }
  destruct (write_pages_spec _ Hps _ [] Hw) as (_ & Hset & _).
  split; [apply length_Truncate|]. intros p Hin.
  destruct (Hset (pg_no p) (pg_data p)) as [Hh Hpage].
  - apply last_writes_NoDup; [|by apply (list_elem_of_fmap_2 page_pair)].
    rewrite <-list_fmap_compose. clear -Hs. induction Hs as [|q l Hs IH Hf]; [constructor|].
    rewrite fmap_cons. constructor; [|done]. intros (q' & Heq & Hq)%list_elem_of_fmap.
    rewrite Forall_forall in Hf. specialize (Hf _ Hq). cbn in Heq. lia.
  - unfold model_database. rewrite Forall_forall in Hp. destruct (Hp p Hin) as (? & ? & ? & ?).
    by rewrite page_Truncate.
Qed.

Definition model_encode (h : ltx_header) (pages : list Page) (post : N) : res bytes :=
  Ok (obj_bytes (h, pages, post)).
Definition model_header (b : bytes) : res ltx_header := (λ o, o.1.1) <$> bytes_obj b.
Definition model_body (b : bytes) : res (list Page * N) := (λ o, (o.1.2, o.2)) <$> bytes_obj b.
Definition model_decode (b : bytes) : res (ltx_header * bytes * N) :=
  (λ o, (o.1.1, model_database o.1.1 o.1.2, o.2)) <$> bytes_obj b.

Lemma model_accepts h pages post :
  ltx_valid model_flag (model_lock (lh_page_size h)) h pages post → ∃ b, model_encode h pages post = Ok b.
Proof. unfold model_encode. eauto. Qed.

Lemma model_decodes h pages post b :
  model_encode h pages post = Ok b → lh_min h ≠ 1 → model_header b = Ok h ∧ model_body b = Ok (pages, post).
Proof. intros [= <-] _. unfold model_header, model_body. by rewrite bytes_obj_bytes. Qed.

Lemma model_decodes_database h pages post b :
  model_encode h pages post = Ok b → lh_min h = 1 →
  ltx_valid model_flag (model_lock (lh_page_size h)) h pages post →
  post = fold_sum model_flag model_sum model_flag pages →
  ∃ f, model_decode b = Ok (h, f, post) ∧ snapshot_file h pages f.
Proof.
  intros [= <-] _ Hv _. exists (model_database h pages). split; [|by eapply model_database_ok].
  unfold model_decode. by rewrite bytes_obj_bytes.
Qed.

Lemma model_flag_set : model_flag ≠ 0.
Proof. done. Qed.

(** A definition and not an instance: the theorems stay about every library. *)
Definition model_lib : LtxLib :=
  Build_LtxLib model_flag model_flag_set model_sum model_lock model_encode model_header model_body model_decode
    model_accepts model_decodes model_decodes_database.
