(* ===== verification/S3Examples.v ===== *)
(** * The S3 backend on the server of the tests

    [FakeS3] with the identity for MD5 is a service that keeps the laws, so the
    theorems about the backend can be evaluated on it. *)
From Stdlib Require Import Ascii String Strings.Byte.
From stdpp Require Import countable.
From S2P Require Import Prelude GoStrings Keys GoUrl Refs Backend Files S3Api S3 FakeS3 FakeS3Props S3Props S3Multipart S3Upload S3List S3Probe LtxModel.
Local Open Scope string_scope.

(** ** An encoding of the store's objects *)

#[local] Instance stamp_countable : Countable stamp.
Proof.
  apply (inj_countable' (λ s, match s with NoStamp => inl () | At t => inr (inl t) | BadStamp s => inr (inr s) end)
    (λ x, match x with inl _ => NoStamp | inr (inl t) => At t | inr (inr s) => BadStamp s end)). by intros [].
Defined.

#[local] Instance ttl_countable : Countable ttl.
Proof.
  apply (inj_countable' (λ s, match s with NoTTL => inl () | TTLof t => inr (inl t) | BadTTL s => inr (inr s) end)
    (λ x, match x with inl _ => NoTTL | inr (inl t) => TTLof t | inr (inr s) => BadTTL s end)). by intros [].
Defined.

#[local] Instance Checkpoint_countable : Countable Checkpoint.
Proof.
  apply (inj_countable' (λ c, (cp_txid c, cp_epoch c, cp_created c, cp_meta c, cp_kind c))
    (λ '(a, b, c, d, e), mkCheckpoint a b c d e)). by intros [].
Defined.

#[local] Instance BasePointer_countable : Countable BasePointer.
Proof. apply (inj_countable' (λ b, (bp_lineage b, bp_txid b)) (λ '(a, b), mkBase a b)). by intros []. Defined.

#[local] Instance rawCheckpoint_countable : Countable rawCheckpoint.
Proof.
  apply (inj_countable' (λ r, match r with RawNull => inl () | RawObject c => inr (inl c) | RawNumber n => inr (inr (inl n)) | RawOther => inr (inr (inr ())) end)
    (λ x, match x with inl _ => RawNull | inr (inl c) => RawObject c | inr (inr (inl n)) => RawNumber n | inr (inr (inr _)) => RawOther end)).
  by intros [].
Defined.

#[local] Instance refWire_countable : Countable refWire.
Proof.
  apply (inj_countable' (λ w, ((w_schema w, w_lineage w, w_epoch w, w_head_txid w, w_head_epoch w, w_checkpoints w, w_parent w, w_protected w),
      (w_lease_holder w, w_lease_expiry w, w_ttl w, w_touched_at w, w_reaping w, w_deleting w, w_deleting_at w, w_meta w, w_base w)))
    (λ '((a, b, c, d, e, f, g, h), (i, j, k, l, m, n, o, p, q)), mkWire a b c d e f g h i j k l m n o p q)). by intros [].
Defined.

#[local] Instance object_countable : Countable object.
Proof.
  apply (inj_countable' (λ o, match o with OManifest l c => inl (l, c) | ORef w => inr (inl w) | OBase b => inr (inr (inl b))
      | OStones m => inr (inr (inr (inl m))) | OBytes s => inr (inr (inr (inr s))) end)
    (λ x, match x with inl (l, c) => OManifest l c | inr (inl w) => ORef w | inr (inr (inl b)) => OBase b
      | inr (inr (inr (inl m))) => OStones m | inr (inr (inr (inr s))) => OBytes s end)). by intros [].
Defined.

Definition xb (o : object) : bytes := pos_bytes (encode o).

Lemma xb_inj o o' : xb o = xb o' → o = o'.
Proof. unfold xb. intros E. apply (inj encode). by rewrite <- (bytes_pos_bytes (encode o)), E, bytes_pos_bytes. Qed.

(** ** The server *)

Definition x_md5 (b : bytes) : bytes := b.
Definition x_crc32 (b : bytes) : string := "crc".

#[local] Instance x_client : S3Client FakeS3 := fake_client x_md5 x_crc32.
#[local] Instance x_view : S3View FakeS3 := fake_view x_md5.

Lemma x_md5_inj b b' : x_md5 b = x_md5 b' → b = b'.
Proof. done. Qed.
Lemma x_crc32_some b : x_crc32 b ≠ "".
Proof. done. Qed.

#[local] Instance x_laws : S3Laws FakeS3 fakeBucket := fake_laws x_md5 x_crc32 x_md5_inj x_crc32_some.

Lemma fake_server_lawful_witness : (∀ b b', x_md5 b = x_md5 b' → b = b') ∧ (∀ b, x_crc32 b ≠ "") ∧ S3Laws FakeS3 fakeBucket.
Proof.
  split; [intros b b' E; exact E|]. split; [intros b E; discriminate|].
  apply (fake_server_lawful x_md5 x_crc32); [intros b b' E; exact E|intros b E; discriminate].
Defined.

(** A store under a prefix, and a client whose objects are uploaded in parts. *)
Definition x_s3 : S3 := mkS3 fakeBucket "p".
Definition x_lim : limits := mkLimits 1 4 0 (5 * 1024 * MiB).

Lemma x_lim_ok : lim_ok x_lim.
Proof. unfold lim_ok. cbn. unfold single_put_max, MiB. lia. Qed.

(** Requests that are answered; one whose answer is lost; one that gets lost. *)
Definition x_lost : stick FakeS3 := mkSTick id (Some (true, mkSdk None 500)).
Definition x_not : stick FakeS3 := mkSTick id (Some (false, mkSdk None 500)).
(** Another client stores [data] at [key] first. *)
Definition x_other (key : string) (data : bytes) : stick FakeS3 := mkSTick (Seed key data) None.

Lemma x_quiet_ok Q : tick_ok Q (squiet : stick FakeS3).
Proof. split; [|done]. intros v Hv HQ. split; [by apply others_refl|done]. Qed.
Lemma x_lost_ok Q : tick_ok Q x_lost.
Proof. split; [|done]. intros v Hv HQ. split; [by apply others_refl|done]. Qed.
Lemma x_not_ok Q : tick_ok Q x_not.
Proof. split; [|done]. intros v Hv HQ. split; [by apply others_refl|done]. Qed.

Lemma x_other_ok key data : tick_ok (λ _, True) (x_other key data).
Proof.
  split; [|done]. intros v (H1 & H2 & H3 & H4) _. split; [|done]. split; [by split_and!|]. split; [done|]. intros id0 up _ E. by exists up.
Qed.

Definition x_world (f : FakeS3) (sched : list (stick FakeS3)) (picks : list nat) : sworld FakeS3 := mkSWorld f sched picks [].

Lemma x_new_ok : fake_ok NewFakeS3.
Proof. split; [done|]. split; [done|]. split; [done|]. intros id up. cbn. by rewrite lookup_empty. Qed.

Lemma x_seed_ok f key data : fake_ok f → fake_ok (Seed key data f).
Proof. intros (H1 & H2 & H3 & H4). by split_and!. Qed.

(** ** An upload in parts whose last answer is lost

    The object is stored; the answer to the completion is lost, and the abort
    that follows finds no upload. *)
Definition x_obj : object := OBytes "abc".
Definition x_body : bytes := xb x_obj.
Definition x_reader : reader := mkReader x_body 0 true true true.
Definition x_put : bcall := CPutReaderIf "db/x" x_reader (blen x_body) x_obj NoTag.
Definition x_cas (key : string) : bool := false.
Definition x_start : sworld FakeS3 := x_world NewFakeS3 [squiet; squiet; squiet; x_lost] [].
Definition x_store : world := mkWorld ∅ 0 [] (mkCaps false false true true) (λ _, "") 0 true [].
Definition x_run := run_s3 x_s3 xb x_lim x_put x_start.

Lemma x_blen : blen x_body = 28%Z.
Proof. vm_compute. reflexivity. Qed.
Lemma x_put_ok : call_ok x_s3 xb x_cas x_lim x_put.
Proof.
  split; [done|]. split; [|done]. split; [done|]. split; [done|]. rewrite x_blen. split; [|done]. cbn. unfold object_max, MiB. lia.
Qed.

Lemma x_start_lawful : lawful (encoded x_s3 xb x_cas) x_start.
Proof.
  split; [exact x_new_ok|]. split.
  - exists ∅. intros key fk _. cbn. by rewrite fmap_empty, !lookup_empty.
  - repeat (apply Forall_cons; split; [first [apply x_quiet_ok|apply x_lost_ok]|]). constructor.
Qed.

Lemma x_start_encodes : encodes x_s3 xb x_cas (sw_srv x_start) (w_objs x_store).
Proof. intros key fk _. cbn. by rewrite fmap_empty, !lookup_empty. Qed.

Lemma s3_refines_backend_witness : x_run.1 = Err [EAbort; EIO] ∧ f_objs (sw_srv x_run.2) = {["p/db/x" := x_body]}
  ∧ refines x_s3 xb x_cas x_put x_start x_run.2 x_run.1 x_store.
Proof.
  split; [vm_compute; reflexivity|]. split; [vm_compute; reflexivity|].
  apply (s3_refines_backend x_s3 xb x_cas xb_inj x_lim x_put x_start x_run.1 x_run.2 x_store).
  - exact x_lim_ok.
  - exact x_put_ok.
  - reflexivity.
  - exact x_start_lawful.
  - exact x_start_encodes.
  - unfold x_run. destruct (run_s3 x_s3 xb x_lim x_put x_start). reflexivity.
Defined.

(** ** An upload that fails at a part and is aborted *)

(** The request of the part is given up; the part turns up in the upload just
    before the abort. *)
Definition with_part (n : Z) (b : bytes) (up : fakeMultipartUpload) : fakeMultipartUpload :=
  mkFakeUpload (fu_key up) (fu_parts up ∪ {[n := b]}) (fu_checksumAlgorithm up).
Definition late_part (n : Z) (b : bytes) (f : FakeS3) : FakeS3 :=
  mkFakeS3 (f_objs f) (f_ignore f) (f_fault f) (f_sizeOverrides f) (f_batchDeleteErrs f)
    (with_part n b <$> f_multipart f) (f_nextUploadID f)
    (f_multipartCreates f) (f_multipartUploadParts f) (f_multipartCompletes f) (f_multipartAborts f).
Definition x_late : stick FakeS3 := mkSTick (late_part 1 x_body) None.

Lemma x_late_ok : tick_ok (λ _, True) x_late.
Proof.
  split; [|done]. intros v (H1 & H2 & H3 & H4) _. split; [|done]. split; [|split; [done|]].
  - split_and!; [done..|]. intros id up. cbn. rewrite lookup_fmap. destruct (f_multipart v !! id) eqn:E; [|done].
    intros _. by eapply H4.
  - intros id up' _. cbn. rewrite !lookup_fmap. destruct (f_multipart v !! id) as [u|] eqn:E; [|done]. cbn.
    intros [= <-]. eexists. split; [done|]. split; [done|]. split; [done|]. cbn.
    apply map_fmap_mono, map_union_subseteq_l.
Qed.

Definition x_failing : sworld FakeS3 := x_world NewFakeS3 [squiet; squiet; x_not; x_late] [].
Definition x_failed := putMultipart x_lim x_s3 "db/x" x_reader (blen x_body) "" true x_failing.

Lemma multipart_settles_upload_witness : x_failed.1 = Err [EIO] ∧ f_multipartCreates (sw_srv x_failed.2) = 1%N
  ∧ f_multipart (sw_srv x_failed.2) = ∅ ∧ leaves_none_open x_failing x_failed.2 x_failed.1.
Proof.
  split; [vm_compute; reflexivity|]. split; [vm_compute; reflexivity|]. split; [vm_compute; reflexivity|].
  apply (multipart_settles_upload x_s3 x_lim "db/x" x_reader (blen x_body) "" true x_failing).
  - exact x_lim_ok.
  - rewrite x_blen. unfold object_max, MiB. lia.
  - reflexivity.
  - rewrite x_blen. simpl. lia.
  - split; [exact x_new_ok|]. split; [exact I|].
    repeat (apply Forall_cons; split; [first [apply x_quiet_ok|apply x_not_ok|apply x_late_ok]|]). constructor.
  - unfold x_failed. destruct (putMultipart x_lim x_s3 "db/x" x_reader (blen x_body) "" true x_failing). reflexivity.
Defined.

(** ** A copy *)

Definition x_copied := CopyObject production x_s3 "db/y" "db/x" (x_world (Seed "p/db/x" x_body NewFakeS3) [squiet; x_not] []).
Definition x_copy_calm := CopyObject production x_s3 "db/y" "db/x" (x_world (Seed "p/db/x" x_body NewFakeS3) [] []).

Lemma x_stable sched : Forall (tick_ok (stable "p/db/x" x_body)) sched →
  lawful (stable "p/db/x" x_body) (x_world (Seed "p/db/x" x_body NewFakeS3) sched []).
Proof.
  intros Hs. split; [apply x_seed_ok, x_new_ok|]. split; [|done]. exists (fake_object x_md5 x_body). split; [|done].
  cbn. rewrite lookup_fmap, lookup_insert_eq. done.
Qed.

Lemma copy_object_exact_witness : x_copy_calm.1 = Ok () ∧ f_objs (sw_srv x_copy_calm.2) !! "p/db/y" = Some x_body
  ∧ x_copied.1 = Err [EIO]
  ∧ copied "p/db/y" x_body (x_world (Seed "p/db/x" x_body NewFakeS3) [squiet; x_not] []) x_copied.2 x_copied.1.
Proof.
  split; [vm_compute; reflexivity|]. split; [vm_compute; reflexivity|]. split; [vm_compute; reflexivity|].
  apply (copy_object_exact x_s3 production "db/y" "db/x" "p/db/y" "p/db/x" x_body
    (x_world (Seed "p/db/x" x_body NewFakeS3) [squiet; x_not] []) x_copied.1 x_copied.2).
  - split; unfold production; simpl; unfold single_put_max, MiB; lia.
  - unfold production, part_min, single_put_max, MiB; simpl; lia.
  - rewrite x_blen. unfold object_max, MiB. lia.
  - reflexivity.
  - reflexivity.
  - discriminate.
  - apply x_stable. apply Forall_cons; split; [apply x_quiet_ok|]. apply Forall_cons; split; [apply x_not_ok|]. constructor.
  - unfold x_copied. destruct (CopyObject production x_s3 "db/y" "db/x" (x_world (Seed "p/db/x" x_body NewFakeS3) [squiet; x_not] [])). reflexivity.
Defined.

(** ** A listing and a bulk delete while another client writes *)

Definition x_listing : sworld FakeS3 := x_world (Seed "p/db/x" x_body NewFakeS3) [x_other "p/db/z" x_body] [].
Definition x_listed := S3.List x_s3 3 "db/" x_listing.

Lemma x_listing_lawful : lawful (λ _, True) x_listing.
Proof.
  split; [apply x_seed_ok, x_new_ok|]. split; [exact I|]. apply Forall_cons; split; [apply x_other_ok|]. constructor.
Qed.

Lemma list_under_concurrency_witness : x_listed.1 = Ok ["db/x"; "db/z"] ∧
  ∃ es, sw_log x_listed.2 = es ∧ Forall unchanged es ∧ (∀ e, e ∈ es → listed_at "p/db/x" e).
Proof.
  split; [vm_compute; reflexivity|].
  destruct (list_under_concurrency x_s3 (λ _, True) (λ v v' _ _, I) 3 "db/" "p/db/x" x_listing x_listed.1 x_listed.2)
    as (_ & es & Hl & Hu & _).
  - reflexivity.
  - exact x_listing_lawful.
  - unfold x_listed. destruct (S3.List x_s3 3 "db/" x_listing). reflexivity.
  - exists (sw_log x_listed.2). split; [reflexivity|].
    assert (sw_log x_listed.2 = es) as E by (rewrite Hl; apply app_nil_r). split; [rewrite E; exact Hu|].
    intros e He. assert (e ∈ [mkEntry (Seed "p/db/z" x_body (Seed "p/db/x" x_body NewFakeS3)) (Seed "p/db/z" x_body (Seed "p/db/x" x_body NewFakeS3)) false]) as Hin.
    { revert He. vm_compute. exact id. }
    apply list_elem_of_singleton in Hin as ->. vm_compute. eexists. reflexivity.
Defined.

Definition x_deleting : sworld FakeS3 :=
  x_world (SetBatchDeleteError "p/db/z" (Seed "p/db/z" x_body (Seed "p/db/x" x_body NewFakeS3))) [] [].
Definition x_deleted := S3.DeleteObjects x_s3 ["db/x"; "db/z"] x_deleting.

Lemma delete_objects_exact_witness : x_deleted.1 = Ok (["db/x"], Some [EIO])
  ∧ lawful (λ _, True) x_deleted.2 ∧ dom (f_objs (sw_srv x_deleted.2)) = {["p/db/z"]}.
Proof.
  split; [vm_compute; reflexivity|]. split; [|vm_compute; reflexivity].
  refine (proj1 (delete_objects_exact x_s3 ["db/x"; "db/z"] x_deleting x_deleted.1 x_deleted.2 _ _ _)).
  - discriminate.
  - split; [apply x_seed_ok, x_seed_ok, x_new_ok|]. split; [exact I|constructor].
  - unfold x_deleted. destruct (S3.DeleteObjects x_s3 ["db/x"; "db/z"] x_deleting). reflexivity.
Defined.

(** ** The probe *)

Definition x_probe (f : FakeS3) := ProbeCAS x_s3 "probe/1" (x_world f [] []).

Lemma probe_accepts_witness : ∃ w', x_probe NewFakeS3 = (Ok (), w') ∧ f_objs (sw_srv w') = ∅.
Proof.
  destruct (probe_accepts x_s3 "probe/1" "p/probe/1" (x_world NewFakeS3 [] [])) as (w' & E & Hv & _).
  - reflexivity.
  - vm_compute. reflexivity.
  - reflexivity.
  - exact x_new_ok.
  - vm_compute. discriminate.
  - exists w'. split; [exact E|]. apply (f_equal b_objs) in Hv. cbn in Hv. rewrite fmap_empty in Hv. apply fmap_empty_inv in Hv. exact Hv.
Defined.

(** A service that ignores preconditions is found out, and the key removed. *)
Example probe_rejects : x_probe (IgnorePreconditions true NewFakeS3) =
  (Err [ErrNoCAS], (x_probe (IgnorePreconditions true NewFakeS3)).2)
  ∧ f_objs (sw_srv (x_probe (IgnorePreconditions true NewFakeS3)).2) = ∅.
Proof. split; vm_compute; reflexivity. Qed.

Lemma part_plan_witness : numParts (100 * 1024 * MiB) (partSizeFor production (100 * 1024 * MiB)) = 1600%Z
  ∧ (1 <= numParts (object_max) (partSizeFor production object_max) <= 10000)%Z.
Proof.
  split; [vm_compute; reflexivity|]. refine (proj1 (proj2 (part_plan production object_max _ _))).
  - split; unfold production; simpl; unfold single_put_max, MiB; lia.
  - unfold object_max, MiB. lia.
Defined.
