(* ===== verification/StreamProps.v ===== *)
(** * The streamed checksum is the scanned one

    [StreamChecksum] reads a database in fixed blocks and folds each block in
    two halves; [checksumPages] scans page by page.  They agree on every file
    that holds all the pages its header declares, and [StreamChecksum] refuses
    every other. *)
From Stdlib Require Import Strings.Byte.
From S2P Require Import Prelude Files Ltx LtxProps LtxModel.
Local Open Scope N_scope.

(** [x & (x-1) == 0] is the test for a power of two. *)
Lemma land_pred_pow2 x : 0 < x → N.land x (x - 1) = 0 → x = 2 ^ N.log2 x.
Proof.
  intros Hx Hl. pose proof (N.log2_spec x Hx) as [Hlo Hhi].
  destruct (decide (x = 2 ^ N.log2 x)) as [|Hne]; [done|]. exfalso.
  assert (N.log2 (x - 1) = N.log2 x) as Hlog by (apply N.log2_unique; lia).
  assert (0 < 2 ^ N.log2 x) by (apply N.neq_0_lt_0, N.pow_nonzero; lia).
  assert (N.testbit (N.land x (x - 1)) (N.log2 x) = true) as Hb.
  { rewrite N.land_spec, N.bit_log2 by lia. rewrite <-Hlog at 1. by rewrite N.bit_log2 by lia. }
  rewrite Hl in Hb. by rewrite N.bits_0 in Hb.
Qed.

(** A legal page size divides the block unit. *)
Lemma page_size_divides ps : IsValidPageSize ps = true → 65536 mod ps = 0.
Proof.
  unfold IsValidPageSize. intros Hv. bool_to_prop.
  rewrite (land_pred_pow2 ps) by (done || lia).
  assert (N.log2 ps <= 16) as Hk.
  { change 16 with (N.log2 65536). apply N.log2_le_mono. done. }
  change 65536 with (2 ^ 16). replace 16 with (16 - N.log2 ps + N.log2 ps) by lia.
  rewrite N.pow_add_r. apply N.Div0.mod_mul.
Qed.

Lemma readDBHeader_valid f ps n : readDBHeader f = Ok (ps, n) → IsValidPageSize ps = true ∧ n < u32_size.
Proof.
  unfold readDBHeader. destruct (ReadAt f 0 dbHeaderSize) as [hdr|]; [|done].
  intros ([] & Hc & [= <- <-])%res_bind_ok. split; [|apply Uint32_u32].
  unfold checkDBHeader in Hc. revert Hc. generalize (Uint16BE (slice hdr 16 18)) as p. intros p Hc.
  set (q := if p =? 1 then 65536 else p) in *. destruct (negb (bool_decide _)); [done|].
  destruct ((q <? 512) || (65536 <? q) || negb (N.land q (q - 1) =? 0)) eqn:E; [done|]. bool_to_prop.
  unfold IsValidPageSize. rewrite (proj2 (N.leb_le 512 q)), (proj2 (N.leb_le q 65536)) by done. by apply N.eqb_eq.
Qed.

(** The header is in the first block. *)
Lemma readDBHeader_take f (B : nat) : (100 <= B)%nat → readDBHeader (take B f) = readDBHeader f.
Proof.
  intros HB. unfold readDBHeader, ReadAt. cbn [N.to_nat]. rewrite !drop_0, take_take.
  replace (Nat.min (N.to_nat dbHeaderSize) B) with (N.to_nat dbHeaderSize); [done|].
  change (N.to_nat dbHeaderSize) with 100%nat. lia.
Qed.

Section stream.
  Context `{LtxLib} (ps nPages : N) (Hps : 0 < ps) (Hn : nPages < u32_size) (r : bytes).
  Local Abbreviation lock := (LockPgno ps).
  Local Abbreviation c := (contrib ps r nPages).

Lemma range_snoc lo hi : lo <= hi + 1 → range lo (hi + 1) = (range lo hi ++ [hi + 1])%list.
Proof.
  intros. rewrite (range_split lo hi (hi + 1)) by lia. f_equal. unfold range.
  replace (N.to_nat (hi + 1) + 1 - N.to_nat (hi + 1))%nat with 1%nat by lia. cbn. f_equal. lia.
Qed.

(** Page [q + i + 1] of the file is page [i] of the block that starts after
    [q] pages. *)
Lemma block_page (q : N) (i B : nat) :
  N.of_nat i * ps + ps <= N.of_nat (length (take B (drop (N.to_nat (q * ps)) r))) → q + N.of_nat i + 1 < u32_size →
  take (N.to_nat ps) (drop (i * N.to_nat ps) (take B (drop (N.to_nat (q * ps)) r))) = page r ps (q + N.of_nat i + 1).
Proof.
  intros Hl Hq. unfold page. rewrite page_off_eq by lia.
  rewrite length_take, length_drop in Hl.
  rewrite take_drop_commute, take_take. rewrite Nat.min_l by nia.
  rewrite <-take_drop_commute, drop_drop. do 2 f_equal.
  replace (q + N.of_nat i + 1 - 1) with (q + N.of_nat i) by lia. lia.
Qed.

Lemma foldPages_sum (q : N) (B a m : nat) :
  let block := take B (drop (N.to_nat (q * ps)) r) in
  N.of_nat (a + m) * ps <= N.of_nat (length block) → q + N.of_nat (a + m) <= nPages →
  foldPages block ps (q + N.of_nat a + 1) lock a (a + m) =
    xorsum c (range (q + N.of_nat a + 1) (q + N.of_nat (a + m))).
Proof.
  intros block. unfold foldPages. replace (a + m - a)%nat with m by lia.
  induction m as [|m IH]; intros Hl Hq.
  { rewrite range_nil by lia. done. }
  rewrite seq_S, foldl_app, IH by lia. cbn [foldl].
  replace (q + N.of_nat (a + S m)) with (q + N.of_nat (a + m) + 1) by lia.
  rewrite range_snoc, xorsum_app by lia. cbn [xorsum foldr]. rewrite N.lxor_0_r.
  replace (a + m - a)%nat with m by lia. rewrite add32_small by lia.
  replace (q + N.of_nat a + 1 + N.of_nat m) with (q + N.of_nat (a + m) + 1) by lia.
  destruct (N.eqb_spec (q + N.of_nat (a + m) + 1) lock) as [Hlk|Hlk].
  - rewrite Hlk, contrib_lock. by rewrite N.lxor_0_r.
  - unfold block in *. rewrite block_page by lia. f_equal. unfold contrib.
    rewrite (proj2 (N.leb_le 1 _)), (proj2 (N.leb_le _ nPages)), (proj2 (N.eqb_neq _ lock)) by (done || lia). done.
Qed.

(** The state after the first [q] pages. *)
Definition stream_at (q seen : N) : N * N * N :=
  (N.lor ChecksumFlag (xorsum c (range 1 (N.min nPages q))), N.min nPages q * ps, seen).

Lemma stream_block_at (q : N) (B : nat) :
  let block := take B (drop (N.to_nat (q * ps)) r) in
  let n := N.of_nat (length block) in
  stream_block ps nPages block (stream_at q (q * ps)) = stream_at (q + n / ps) (q * ps + n).
Proof.
  intros block n. unfold stream_block, stream_at. fold n.
  rewrite <-N.mul_sub_distr_r, N.div_mul by lia. set (k := N.min (n / ps) (nPages - q)).
  assert (k * ps <= n) as Hk. { pose proof (N.Div0.mul_div_le n ps). unfold k. nia. }
  destruct (N.ltb_spec 0 k) as [Hpos|Hzero].
  - assert (q < nPages) as Hq by lia. rewrite N.div_mul, (N.mod_small q) by lia.
    rewrite (add32_small q 1) by lia. set (mid := k / 2).
    assert (mid < k) as Hmid by (apply N.div_lt; lia).
    rewrite (add32_small (q + 1) mid) by lia.
    replace (N.min nPages q) with q by lia. replace (N.min nPages (q + n / ps)) with (q + k) by lia.
    pose proof (foldPages_sum q B (N.to_nat mid) (N.to_nat (k - mid))) as Hup.
    pose proof (foldPages_sum q B 0 (N.to_nat mid)) as Hlow. fold block n in Hup, Hlow. cbv zeta in Hup, Hlow.
    replace (N.to_nat mid + N.to_nat (k - mid))%nat with (N.to_nat k) in Hup by lia.
    cbn [plus N.of_nat] in Hlow. rewrite N.add_0_r in Hlow. rewrite !N2Nat.id in Hlow.
    rewrite (N2Nat.id mid), (N2Nat.id k) in Hup.
    replace (q + 1 + mid) with (q + mid + 1) by lia.
    rewrite Hup, Hlow by (unfold k in *; nia).
    f_equal. f_equal; [|lia]. rewrite N.lxor_assoc, lor_lxor_flag. f_equal.
    rewrite (range_split 1 q (q + k)), xorsum_app by lia. f_equal.
    rewrite (range_split (q + 1) (q + mid) (q + k)), xorsum_app by lia. done.
  - replace (N.min nPages (q + n / ps)) with (N.min nPages q) by lia. done.
Qed.

Lemma stream_blocks_at (B : nat) (b : N) : N.of_nat B = b * ps → 0 < b → ∀ fuel q,
  q * ps <= N.of_nat (length r) → (length r < N.to_nat (q * ps) + fuel)%nat →
  stream_blocks fuel B ps nPages (drop (N.to_nat (q * ps)) r) (stream_at q (q * ps)) =
    stream_at (N.of_nat (length r) / ps) (N.of_nat (length r)).
Proof.
  intros HB Hb. induction fuel as [|fuel IH]; intros q Hq Hf; [lia|]. cbn [stream_blocks].
  set (block := take B (drop (N.to_nat (q * ps)) r)).
  assert (length block = Nat.min B (length r - N.to_nat (q * ps))) as Hlb
    by (unfold block; by rewrite length_take, length_drop).
  assert ((if bool_decide (block = []) then stream_at q (q * ps)
           else stream_block ps nPages block (stream_at q (q * ps)))
    = stream_at (q + N.of_nat (length block) / ps) (q * ps + N.of_nat (length block))) as ->.
  { case_bool_decide as Hnil; [|apply stream_block_at].
    rewrite Hnil. cbn [length]. rewrite N.Div0.div_0_l. f_equal; lia. }
  destruct (Nat.ltb_spec (length block) B) as [Hlt|Hge].
  - assert (q * ps + N.of_nat (length block) = N.of_nat (length r)) as Hend by lia.
    rewrite Hend. f_equal. rewrite <-Hend, (N.add_comm (q * ps)), N.div_add by lia. lia.
  - replace (length block) with B by lia. rewrite HB, N.div_mul by lia.
    replace (q * ps + b * ps) with ((q + b) * ps) by lia.
    rewrite drop_drop. replace (N.to_nat (q * ps) + B)%nat with (N.to_nat ((q + b) * ps)) by lia.
    apply IH; nia.
Qed.
End stream.

(** [StreamChecksum] accepts a stream exactly when it has a valid database
    header and holds every page the header declares, and then returns what
    the page-by-page scan [ChecksumDatabase] performs computes, for every
    block size that is a positive multiple of 65536: blocks never split a
    page, the two half folds recombine, and the loop consumes the stream. *)
Theorem stream_checksum_exact `{LtxLib} (blocks : N) (r : bytes) (sum : N) :
  0 < blocks →
  StreamChecksum (N.to_nat (blocks * 65536)) r = Ok sum ↔
  ∃ ps n, readDBHeader r = Ok (ps, n) ∧ n * ps <= N.of_nat (length r) ∧ checksumPages r ps n = Ok sum.
Proof.
  intros Hb. unfold StreamChecksum. rewrite readDBHeader_take by lia.
  destruct (readDBHeader r) as [[ps n]|e] eqn:Hh.
  2: { split; [done|]. by intros (? & ? & ? & _). }
  destruct (readDBHeader_valid _ _ _ Hh) as [Hv Hn]. pose proof (valid_page_size_pos ps Hv) as Hps.
  pose proof (page_size_divides ps Hv) as Hdiv.
  pose proof (stream_blocks_at ps n Hps Hn r (N.to_nat (blocks * 65536)) (blocks * (65536 / ps))) as Hs.
  pose proof (N.Div0.div_exact 65536 ps) as [_ Hex]. specialize (Hex Hdiv).
  specialize (Hs ltac:(nia) ltac:(nia) (S (length r)) 0 ltac:(lia) ltac:(lia)).
  rewrite N.mul_0_l in Hs. cbn [N.to_nat] in Hs. rewrite drop_0 in Hs.
  unfold stream_at in Hs. rewrite N.min_0_r, range_nil, N.lor_0_r, N.mul_0_l in Hs by lia.
  rewrite Hs.
  assert (N.of_nat (length r) / ps < n ↔ N.of_nat (length r) < n * ps) as Hiff.
  { split; intros Hlt.
    - pose proof (N.mul_succ_div_gt (N.of_nat (length r)) ps). nia.
    - apply N.Div0.div_lt_upper_bound. lia. }
  split.
  - destruct (N.ltb_spec (N.min n (N.of_nat (length r) / ps) * ps) (n * ps)) as [Hlt|Hge]; [done|].
    assert (n * ps <= N.of_nat (length r)) as Hle by nia. intros [= <-].
    exists ps, n. split_and!; [done..|]. rewrite (checksumPages_sum ps Hps) by done.
    unfold db_sum. replace (N.min n _) with n by nia. done.
  - intros (ps' & n' & [= <- <-] & Hle & Hsum). rewrite (checksumPages_sum ps Hps) in Hsum by done.
    injection Hsum as <-. rewrite (proj2 (N.ltb_ge _ _)) by nia.
    unfold db_sum. replace (N.min n _) with n by nia. done.
Qed.
