(* ===== verification/Session.v ===== *)
(** * The live session: replica, pending pages, flush

    [internal/replay/replay.go] ([Replica.Apply], [Rebase]),
    [internal/session/pages.go] ([pageSet]), [internal/session/session.go]
    ([replicaSink], [recordApply], [rebaseline]) and the part of
    [internal/session/flush.go] that runs under [replicaMu]: the choice
    between snapshot and segment with its encode, and the bookkeeping after
    the ref write landed.  The replica is its file contents; local file errors
    other than short reads are not modelled.  The ref protocol of a flush is
    in [Flush]. *)
From Stdlib Require Import Strings.Byte.
From S2P Require Import Prelude Files Wal Ltx.
Local Open Scope N_scope.

(** ** Replica *)

Definition frame_write (fr : Frame) : N * bytes := (fh_pgno (fr_header fr), fr_data fr).

(** The commit size of a transaction: its last frame's. *)
Definition commit_of (frames : list Frame) : N :=
  match last frames with Some fr => fh_commit (fr_header fr) | None => 0 end.

(** [Replica.Apply]. *)
Definition ReplicaApply (ps : N) (frames : list Frame) (f : bytes) : res bytes :=
  if bool_decide (frames = []) then Err [EEmptyTxn]
  else if commit_of frames =? 0 then Err [ENoCommit]
  else Ok (Truncate (write_pages ps (frame_write <$> frames) f) (commit_of frames * ps)).

(** ** The pending pages *)

Definition pageSet : Type := gmap N bytes.

Definition record (frames : list Frame) (p : pageSet) : pageSet := last_writes (frame_write <$> frames) p.

Definition dropAbove (commit : N) (p : pageSet) : pageSet := filter (λ kv, kv.1 <= commit) p.

Definition pgno_le (p q : Page) : Prop := pg_no p <= pg_no q.
#[global] Instance pgno_le_dec : RelDecision pgno_le.
Proof. intros p q. unfold pgno_le. apply _. Defined.

(** The pages sorted by number, and the emptied set. *)
Definition drain (p : pageSet) : list Page * pageSet :=
  (sort_by pgno_le ((λ kv, mkPage kv.1 kv.2) <$> map_to_list p), ∅).

(** ** Capture state *)

Record capState := mkCap {
  cs_replica : bytes;
  cs_pages : pageSet;
  cs_checksum : N;
  cs_flushChecksum : N;
  cs_commit : N;
  cs_pageSize : N;
  cs_forceSnapshot : bool;
  cs_rebaseGen : N;
  cs_flushedRebaseGen : N;
  cs_appliedGen : N;
  cs_flushedGen : N;
  cs_flushesSinceSnapshot : Z;
  cs_cleanAtOpen : bool;
  cs_headPostApply : option N }.   (* headPostApplyChecksum, when valid *)

Definition set_replica (f : bytes) (s : capState) : capState :=
  mkCap f (cs_pages s) (cs_checksum s) (cs_flushChecksum s) (cs_commit s) (cs_pageSize s)
    (cs_forceSnapshot s) (cs_rebaseGen s) (cs_flushedRebaseGen s) (cs_appliedGen s) (cs_flushedGen s)
    (cs_flushesSinceSnapshot s) (cs_cleanAtOpen s) (cs_headPostApply s).

(** The page numbers of a transaction, each once, in the order first written. *)
Fixpoint first_touched (seen : gset N) (frames : list Frame) : list N :=
  match frames with
  | [] => []
  | fr :: frames =>
      let n := fh_pgno (fr_header fr) in
      if decide (n ∈ seen) then first_touched seen frames
      else n :: first_touched ({[n]} ∪ seen) frames
  end.

Section session.
  Context `{LtxLib}.

(** The loop over touched pages: old content from the replica file, still
    unmodified, out of the checksum; new content in. *)
Fixpoint fold_touched (f : bytes) (ps prevCommit newCommit lock : N) (latest : gmap N bytes)
    (touched : list N) (running : N) : res N :=
  match touched with
  | [] => Ok running
  | n :: touched =>
      if n =? lock then fold_touched f ps prevCommit newCommit lock latest touched running
      else
        oldData ← (if n <=? prevCommit then read_page f ps n else Ok []);
        let newData := if n <=? newCommit then default [] (latest !! n) else [] in
        fold_touched f ps prevCommit newCommit lock latest touched (UpdateChecksum running n oldData newData)
  end.

Definition recordApply (ps : N) (frames : list Frame) (s : capState) : res capState :=
  if bool_decide (frames = []) then Ok s
  else
    let f := cs_replica s in
    let prevCommit := (N.of_nat (length f) / ps) mod u32_size in
    let newCommit := commit_of frames in
    let lock := LockPgno ps in
    let latest := last_writes (frame_write <$> frames) ∅ in
    let touched := first_touched ∅ frames in
    let seen := list_to_set touched in
    running ← fold_touched f ps prevCommit newCommit lock latest touched (cs_checksum s);
    running ← (if newCommit <? prevCommit
               then drop_pages f ps lock seen (range (newCommit + 1) prevCommit) running else Ok running);
    _ ← CheckGrowth newCommit prevCommit ps seen;
    Ok (mkCap f (dropAbove newCommit (record frames (cs_pages s))) running (cs_flushChecksum s)
          newCommit ps (cs_forceSnapshot s) (cs_rebaseGen s) (cs_flushedRebaseGen s)
          (cs_appliedGen s + 1) (cs_flushedGen s) (cs_flushesSinceSnapshot s)
          (cs_cleanAtOpen s) (cs_headPostApply s)).

Definition sink_Apply (ps : N) (frames : list Frame) (s : capState) : res capState :=
  s ← recordApply ps frames s;
  f ← ReplicaApply ps frames (cs_replica s);
  Ok (set_replica f s).

Definition rebaseline (s : capState) : res capState :=
  sum ← ChecksumDatabase (cs_replica s);
  let gen := cs_rebaseGen s + 1 in
  let suppressed := (cs_rebaseGen s =? 0) && cs_cleanAtOpen s && bool_decide (cs_headPostApply s = Some sum) in
  Ok (mkCap (cs_replica s) ∅ sum sum (cs_commit s) (cs_pageSize s)
        (negb suppressed) gen (if suppressed then gen else cs_flushedRebaseGen s)
        (cs_appliedGen s) (cs_flushedGen s) (cs_flushesSinceSnapshot s)
        (cs_cleanAtOpen s) (cs_headPostApply s)).

Definition sink_Rebase (snapshot : bytes) (s : capState) : res capState :=
  rebaseline (set_replica snapshot s).

(** ** Flush: the encode under [replicaMu] *)

Definition minPagesForFractionCheck : N := 64.

(** What one attempt captured. *)
Record flushAttempt := mkAttempt {
  fa_txid : N;
  fa_snapshot : bool;
  fa_object : bytes;
  fa_checksum : N;
  fa_gen : N;
  fa_appliedGen : N }.

(** [pageFrac >= largeSegmentFraction] is [2 * pages >= commit] in the 53-bit
    floats the code divides with, both counts being below 2^32. *)
Definition wants_snapshot (snapshotEvery : Z) (txid : N) (s : capState) : bool :=
  (txid =? 1)
  || (snapshotEvery - 1 <=? cs_flushesSinceSnapshot s)%Z
  || cs_forceSnapshot s
  || ((minPagesForFractionCheck <=? cs_commit s) && (cs_commit s <=? 2 * N.of_nat (size (cs_pages s))))
  || (cs_pageSize s =? 0).

(** The pages are drained and [forceSnapshot] set whether or not the encode
    then succeeds. *)
Definition flush_encode (snapshotEvery : Z) (txid : N) (s : capState) : res flushAttempt * capState :=
  let snapshot := wants_snapshot snapshotEvery txid s in
  let '(pages, rest) := drain (cs_pages s) in
  let s' := mkCap (cs_replica s) rest (cs_checksum s) (cs_flushChecksum s) (cs_commit s) (cs_pageSize s)
              true (cs_rebaseGen s) (cs_flushedRebaseGen s) (cs_appliedGen s) (cs_flushedGen s)
              (cs_flushesSinceSnapshot s) (cs_cleanAtOpen s) (cs_headPostApply s) in
  let object :=
    if snapshot then fst <$> EncodeSnapshot (cs_replica s) txid
    else EncodeSegment (cs_pageSize s) (cs_commit s) txid txid (cs_flushChecksum s) (cs_checksum s) pages in
  ((λ obj, mkAttempt txid snapshot obj (cs_checksum s) (cs_rebaseGen s) (cs_appliedGen s)) <$> object, s').

(** The bookkeeping once the ref write landed; a rebase that raced the upload
    keeps its own baseline. *)
Definition flush_done (a : flushAttempt) (s : capState) : capState :=
  let same := cs_rebaseGen s =? fa_gen a in
  mkCap (cs_replica s) (cs_pages s) (cs_checksum s)
    (if same then fa_checksum a else cs_flushChecksum s) (cs_commit s) (cs_pageSize s)
    (if same then false else cs_forceSnapshot s) (cs_rebaseGen s)
    (if same then fa_gen a else cs_flushedRebaseGen s) (cs_appliedGen s) (fa_appliedGen a)
    (if fa_snapshot a then 0 else cs_flushesSinceSnapshot s + 1)%Z
    (cs_cleanAtOpen s) (cs_headPostApply s).

(** [autoFlushPending]. *)
Definition autoFlushPending (s : capState) : bool :=
  negb (cs_appliedGen s =? cs_flushedGen s) || negb (cs_rebaseGen s =? cs_flushedRebaseGen s).
End session.
