(* ===== verification/SessionProps.v ===== *)
(** * The pending pages always turn the durable database into the replica

    [recordApply]'s incremental checksum equals a rescan of the replica after
    the transaction; the pending pages of a session are exactly what a segment
    needs; and, over every interleaving of captured transactions, rebases and
    flushes, the durable chain materializes to the replica as it stood when
    the last committed flush encoded it. *)
From Stdlib Require Import Strings.Byte.
From S2P Require Import Prelude Files Wal Ltx LtxProps Session.
Local Open Scope N_scope.

(** ** Touched pages *)

Lemma elem_of_first_touched frames : ∀ seen n,
  n ∈ first_touched seen frames ↔ n ∉ seen ∧ n ∈ (frame_write <$> frames).*1.
Proof.
  induction frames as [|fr frames IH]; intros seen n; cbn [first_touched].
  { rewrite elem_of_nil. split; [done|]. intros [_ Hn]. by apply not_elem_of_nil in Hn. }
  rewrite !fmap_cons. cbn [frame_write fst]. rewrite elem_of_cons.
  destruct (decide _) as [Hs|Hs].
  - rewrite IH. split; [tauto|]. intros [Hn [->|?]]; done.
  - rewrite elem_of_cons, IH, not_elem_of_union, not_elem_of_singleton.
    destruct (decide (n = fh_pgno (fr_header fr))) as [->|]; tauto.
Qed.

Lemma NoDup_first_touched frames : ∀ seen, NoDup (first_touched seen frames).
Proof.
  induction frames as [|fr frames IH]; intros seen; cbn [first_touched]; [constructor|].
  destruct (decide _); [apply IH|]. constructor; [|apply IH].
  rewrite elem_of_first_touched. set_solver.
Qed.

Section props.
  Context `{LtxLib} (ps : N) (Hps : 0 < ps).
  Implicit Types (f g : bytes) (m : gmap N bytes).
  Local Abbreviation lock := (LockPgno ps).
  Local Abbreviation db_sum := (db_sum ps).

Lemma fold_touched_ok f prev commit m L touched :
  prev < u32_size → prev * ps <= N.of_nat (length f) → NoDup L →
  ∀ running c, NoDup touched →
  (∀ n, n ∈ touched → 1 <= n ∧ n ∈ L ∧ ∃ d, m !! n = Some d ∧ length d = N.to_nat ps) →
  (∀ n, n ∈ touched → c n = contrib ps f prev n) →
  running = N.lor ChecksumFlag (xorsum c L) →
  fold_touched f ps prev commit lock m touched running =
    Ok (N.lor ChecksumFlag (xorsum (λ n, if decide (n ∈ touched) then seg_contrib ps c m commit n else c n) L)).
Proof.
  intros Hp Hl HL. induction touched as [|k touched IH]; intros running c Hnd Hin Hc Hr; cbn [fold_touched].
  { by rewrite Hr. }
  apply NoDup_cons in Hnd as [Hk Hnd].
  destruct (Hin k) as (H1 & HkL & d & Hd & Hlen); [by left|].
  assert (∀ n, n ∈ touched → 1 <= n ∧ n ∈ L ∧ ∃ d, m !! n = Some d ∧ length d = N.to_nat ps) as Hin'
    by (intros; apply Hin; by right).
  destruct (N.eqb_spec k lock) as [Hlk|Hlk].
  - rewrite (IH running c); [|done|done|intros; apply Hc; by right|done].
    do 2 f_equal. apply xorsum_ext. intros n _.
    destruct (decide (n = k)) as [->|Hnk].
    + rewrite decide_False by done. rewrite decide_True by (by left). unfold seg_contrib. rewrite Hd, Hc by (by left).
      rewrite Hlk, contrib_lock, N.eqb_refl. by rewrite andb_false_r.
    + f_equal. apply decide_ext. rewrite elem_of_cons. tauto.
  - destruct (read_old ps Hps f prev k Hp Hl H1) as (old & Hold & Hpart).
    apply N.eqb_neq in Hlk as Hlk'. rewrite Hlk', andb_true_r in Hold. rewrite Hold. cbn [mbind res_bind].
    rewrite Hd. cbn [default].
    set (v := seg_contrib ps c m commit k).
    rewrite (IH _ (upd c k v)).
    + do 2 f_equal. apply xorsum_ext. intros n _. unfold upd, seg_contrib.
      destruct (decide (n = k)) as [->|Hnk].
      * rewrite (decide_False (P := k ∈ touched)) by done. rewrite decide_True by (by left). done.
      * destruct (decide (n ∈ touched)), (decide (n ∈ k :: touched)) as [Hx|Hx]; try done.
        -- exfalso. apply Hx. by right.
        -- apply elem_of_cons in Hx. naive_solver.
    + done.
    + done.
    + intros n Hn. unfold upd. rewrite decide_False by congruence. apply Hc. by right.
    + eapply UpdateChecksum_sum; [done|done|done|rewrite Hpart; symmetry; apply Hc; by left|].
      unfold v, seg_contrib. rewrite Hd, Hlk'. cbn [negb]. rewrite andb_true_r.
      destruct (k <=? commit); [by apply (old_part_page ps Hps)|done].
Qed.

(** ** One captured transaction *)

(** A file of exactly [c] pages. *)
Definition db_len f (c : N) : Prop := length f = N.to_nat (c * ps) ∧ c < u32_size.

Lemma db_len_commit f c : db_len f c → (N.of_nat (length f) / ps) mod u32_size = c.
Proof. intros [-> Hc]. rewrite N2Nat.id, N.div_mul by lia. by apply N.mod_small. Qed.

Lemma db_len_le f c : db_len f c → c * ps <= N.of_nat (length f).
Proof. intros [-> _]. lia. Qed.

(** What SQLite guarantees of a transaction's frames: pages of the page size,
    numbered from 1. *)
Definition frames_ok (frames : list Frame) : Prop :=
  Forall (λ fr, 1 <= fh_pgno (fr_header fr) ∧ fh_pgno (fr_header fr) < u32_size ∧
                length (fr_data fr) = N.to_nat ps) frames ∧ commit_of frames < u32_size.

Definition latest (frames : list Frame) : gmap N bytes := last_writes (frame_write <$> frames) ∅.

Lemma latest_ok frames n d : frames_ok frames → latest frames !! n = Some d →
  1 <= n ∧ n < u32_size ∧ length d = N.to_nat ps.
Proof.
  intros [Hf _] Hn%last_writes_Some. apply list_elem_of_fmap in Hn as (fr & [= -> ->] & Hin).
  rewrite Forall_forall in Hf. by apply Hf.
Qed.

Lemma touched_dom frames : (list_to_set (first_touched ∅ frames) : gset N) = dom (latest frames).
Proof.
  apply set_eq. intros n. rewrite elem_of_list_to_set, elem_of_first_touched, elem_of_dom.
  unfold latest. rewrite elem_of_last_writes. split; [by intros [_ ?]|]. intros. split; [apply not_elem_of_empty|done].
Qed.

Lemma writes_ok frames : frames_ok frames →
  Forall (λ w, 1 <= w.1 ∧ w.1 < u32_size ∧ length w.2 = N.to_nat ps) (frame_write <$> frames).
Proof. intros [Hf _]. rewrite Forall_fmap. eapply Forall_impl; [exact Hf|]. done. Qed.

(** The replica after the transaction is the old one with its pages overlaid. *)
Lemma ReplicaApply_overlay frames f c g :
  frames_ok frames → db_len f c → grown ps (commit_of frames) c (dom (latest frames)) →
  ReplicaApply ps frames f = Ok g → overlay ps (latest frames) f (commit_of frames) g.
Proof.
  intros Hok Hlen Hg. unfold ReplicaApply. repeat case_match; try done. intros [= <-].
  destruct (write_pages_spec ps Hps _ f (writes_ok frames Hok)) as (Hl & Hs & Hn).
  split; [apply length_Truncate|]. intros n Hn1 Hn2 Hnl.
  destruct (latest frames !! n) as [d|] eqn:Hm; cbn [default].
  - destruct (Hs n d Hm) as [Hh <-]. by rewrite page_Truncate.
  - assert (n <= c) as Hnc.
    { destruct (decide (n <= c)); [done|]. apply not_elem_of_dom in Hm. exfalso. apply Hm, Hg; lia || done. }
    assert (has_page f ps n) as Hh.
    { destruct Hlen as [? ?]. apply (has_page_commit ps Hps f c); done || lia. }
    rewrite page_Truncate; [by apply Hn|done| |done].
    eapply has_page_mono; [exact Hps|exact Hl|done].
Qed.

(** The state [recordApply] leaves, and when it refuses. *)
Lemma recordApply_spec frames s c g :
  frames ≠ [] → frames_ok frames → db_len (cs_replica s) c →
  cs_checksum s = db_sum (cs_replica s) c →
  ReplicaApply ps frames (cs_replica s) = Ok g →
  let c' := commit_of frames in
  (grown ps c' c (dom (latest frames)) ∧
   recordApply ps frames s = Ok (mkCap (cs_replica s) (dropAbove c' (record frames (cs_pages s)))
     (db_sum g c') (cs_flushChecksum s) c' ps (cs_forceSnapshot s) (cs_rebaseGen s) (cs_flushedRebaseGen s)
     (cs_appliedGen s + 1) (cs_flushedGen s) (cs_flushesSinceSnapshot s) (cs_cleanAtOpen s) (cs_headPostApply s))) ∨
  (¬ grown ps c' c (dom (latest frames)) ∧ recordApply ps frames s = Err [EGrowth]).
Proof.
  intros Hne Hok Hlen Hsum Hg c'. pose proof (db_len_le _ _ Hlen) as Hle.
  unfold recordApply. rewrite bool_decide_eq_false_2 by done.
  rewrite (db_len_commit _ _ Hlen), touched_dom. fold (latest frames) c'.
  set (L := range 1 u32_size).
  assert (∀ n, n ∈ first_touched ∅ frames → 1 <= n ∧ n ∈ L ∧
    ∃ d, latest frames !! n = Some d ∧ length d = N.to_nat ps) as Htouched.
  { intros n Hn. rewrite <-(elem_of_list_to_set (C := gset N)), touched_dom, elem_of_dom in Hn.
    destruct Hn as [d Hd]. destruct (latest_ok frames n d Hok Hd) as (? & ? & ?).
    split_and!; [done|apply elem_of_range; lia|eauto]. }
  rewrite (fold_touched_ok (cs_replica s) c c' (latest frames) L _ ltac:(apply Hlen) Hle (NoDup_range _ _)
    _ (contrib ps (cs_replica s) c) (NoDup_first_touched _ _) Htouched ltac:(done)).
  2: { rewrite Hsum. unfold LtxProps.db_sum, L.
       rewrite (xorsum_contrib ps Hps (cs_replica s) c u32_size); [done|]. destruct Hlen. lia. }
  cbn [mbind res_bind].
  set (running1 := N.lor ChecksumFlag _).
  assert (running1 = N.lor ChecksumFlag
    (xorsum (seg_contrib ps (contrib ps (cs_replica s) c) (latest frames) c') L)) as Hr.
  { unfold running1. f_equal. apply xorsum_ext. intros n _.
    destruct (decide (n ∈ first_touched ∅ frames)) as [|Hn]; [done|].
    rewrite <-(elem_of_list_to_set (C := gset N)), touched_dom, not_elem_of_dom in Hn.
    unfold seg_contrib. by rewrite Hn. }
  assert (∃ r, (if c' <? c then drop_pages (cs_replica s) ps lock (dom (latest frames)) (range (c' + 1) c) running1
    else Ok running1) = Ok r) as [r0 Hr0].
  { destruct (c' <? c) eqn:Hlt; [|eauto]. eexists.
    apply (drop_pages_ok ps (cs_replica s) (dom (latest frames)) L) with (c := seg_contrib ps (contrib ps (cs_replica s) c) (latest frames) c').
    - apply NoDup_range.
    - apply NoDup_range.
    - bool_to_prop. intros n [? ?]%elem_of_range. destruct Hlen.
      split; [apply elem_of_range; lia|apply (has_page_commit ps Hps _ c); done || lia].
    - bool_to_prop. intros n [? ?]%elem_of_range Hnl Hnt. apply not_elem_of_dom in Hnt. unfold seg_contrib.
      rewrite Hnt. symmetry. destruct Hlen. apply contrib_old_part; try done || lia.
      apply (has_page_commit ps Hps _ c); done || lia.
    - exact Hr. }
  unfold CheckGrowth.
  destruct (checkGrowth_grown ps Hps c' c (dom (latest frames))) as [[Hgr Hcg]|[Hgr Hcg]].
  - left. split; [done|].
    rewrite (drop_fold_sum ps Hps (latest frames) (cs_replica s) (cs_replica s) g c' c running1).
    + cbn [mbind res_bind]. by rewrite Hcg.
    + apply Hlen.
    + apply Hok.
    + done.
    + done.
    + done.
    + done.
    + by apply (ReplicaApply_overlay frames (cs_replica s) c).
    + done.
  - right. split; [done|]. rewrite Hr0. cbn [mbind res_bind]. by rewrite Hcg.
Qed.

(** ** Equality of databases *)

(** Same pages but for the lock page, which holds no data. *)
Definition same_db f g (c : N) : Prop :=
  db_len f c ∧ db_len g c ∧ ∀ n, 1 <= n → n <= c → n ≠ lock → page f ps n = page g ps n.

Lemma same_db_refl f c : db_len f c → same_db f f c.
Proof. by intros ?. Qed.

Lemma same_db_sym f g c : same_db f g c → same_db g f c.
Proof. intros (? & ? & Hp). split_and!; [done..|]. intros. symmetry. auto. Qed.

Lemma same_db_trans f g h c : same_db f g c → same_db g h c → same_db f h c.
Proof. intros (? & ? & Hp) (? & ? & Hq). split_and!; [done..|]. intros. rewrite Hp by done. auto. Qed.

Lemma db_sum_same f g c : same_db f g c → db_sum f c = db_sum g c.
Proof.
  intros (_ & _ & Hp). unfold LtxProps.db_sum. f_equal. apply xorsum_ext. intros n [? ?]%elem_of_range.
  unfold contrib. destruct ((1 <=? n) && (n <=? c) && negb (n =? lock)) eqn:E; [|done]. bool_to_prop.
  by rewrite Hp.
Qed.

(** ** Pending pages *)

(** [m] turns the database [f] of [c] pages into [g] of [c'] pages. *)
Definition delta m f (c : N) g (c' : N) : Prop :=
  overlay ps m f c' g ∧ grown ps c' c (dom m) ∧
  ∀ n d, m !! n = Some d → 1 <= n ∧ n <= c' ∧ length d = N.to_nat ps.

Lemma delta_refl g c : db_len g c → delta ∅ g c g c.
Proof.
  intros [Hl _]. split_and!; [|intros n ???; lia|by intros ??]. split; [done|]. intros. by rewrite lookup_empty.
Qed.

Lemma lookup_dropAbove_record frames m c n :
  dropAbove c (record frames m) !! n = if decide (n <= c) then (latest frames ∪ m) !! n else None.
Proof.
  unfold dropAbove, record, pageSet. rewrite map_lookup_filter, last_writes_union. fold (latest frames).
  destruct ((latest frames ∪ m) !! n) as [d|]; simpl; [|by destruct (decide _)].
  by destruct (decide (n <= c)); case_guard.
Qed.

Lemma delta_apply m f c g c1 h frames :
  frames_ok frames → delta m f c g c1 →
  grown ps (commit_of frames) c1 (dom (latest frames)) →
  overlay ps (latest frames) g (commit_of frames) h →
  delta (dropAbove (commit_of frames) (record frames m)) f c h (commit_of frames).
Proof.
  intros Hok ([_ Hov] & Hgr & Hm) Hgr2 [Hl Hov2]. set (c2 := commit_of frames) in *.
  assert (∀ n, n <= c2 → n ≠ lock → latest frames !! n = None → n <= c1) as Hle.
  { intros n Hn Hnl Hnone. destruct (decide (n <= c1)); [done|].
    apply not_elem_of_dom in Hnone. exfalso. apply Hnone, Hgr2; done || lia. }
  split_and!.
  - split; [done|]. intros n H1 H2 Hnl. rewrite Hov2, lookup_dropAbove_record, decide_True by done.
    rewrite lookup_union. destruct (latest frames !! n) as [d|] eqn:E; cbn [default].
    + by destruct (m !! n).
    + rewrite Hov by auto. by destruct (m !! n).
  - intros n Hc Hn Hnl. apply elem_of_dom. rewrite lookup_dropAbove_record, decide_True by done.
    rewrite lookup_union_is_Some. destruct (latest frames !! n) as [d|] eqn:E; [left; eauto|].
    right. apply elem_of_dom, Hgr; auto.
  - intros n d. rewrite lookup_dropAbove_record. destruct (decide (n <= c2)); [|done].
    rewrite lookup_union_Some_raw. intros [Hd|[_ Hd]].
    + destruct (latest_ok frames n d Hok Hd) as (? & ? & ?). auto.
    + destruct (Hm n d Hd) as (? & ? & ?). auto.
Qed.

(** ** Draining *)

Lemma pmap_drain m : pmap (drain m).1 = m.
Proof.
  unfold pmap, drain. cbn [fst].
  transitivity (list_to_map ((λ p, (pg_no p, pg_data p)) <$> ((λ kv, mkPage kv.1 kv.2) <$> map_to_list m)) : gmap N bytes).
  - apply list_to_map_proper; [|by rewrite sort_by_perm].
    rewrite <-list_fmap_compose. rewrite sort_by_perm, <-list_fmap_compose.
    erewrite list_fmap_ext; [apply NoDup_fst_map_to_list|done].
  - rewrite <-list_fmap_compose. erewrite list_fmap_ext; [rewrite list_fmap_id; apply list_to_map_to_list|].
    by intros ? [k d] _.
Qed.

#[local] Instance pgno_le_trans : Transitive pgno_le.
Proof. intros p q r. unfold pgno_le. lia. Qed.
#[local] Instance pgno_le_total : Total pgno_le.
Proof. intros p q. unfold pgno_le. lia. Qed.

Lemma drain_NoDup m : NoDup (pg_no <$> (drain m).1).
Proof.
  unfold drain. cbn [fst]. rewrite sort_by_perm, <-list_fmap_compose.
  erewrite list_fmap_ext; [apply NoDup_fst_map_to_list|done].
Qed.

Lemma sorted_strict (l : list Page) :
  StronglySorted pgno_le l → NoDup (pg_no <$> l) → StronglySorted (λ p q, pg_no p < pg_no q) l.
Proof.
  induction l as [|p l IH]; intros Hs Hnd; [constructor|].
  apply StronglySorted_inv in Hs as [Hs Hf]. rewrite fmap_cons in Hnd. apply NoDup_cons in Hnd as [Hp Hnd].
  constructor; [auto|]. rewrite Forall_forall in Hf |- *. intros q Hq.
  specialize (Hf q Hq). unfold pgno_le in Hf.
  assert (pg_no q ≠ pg_no p) by (intros Heq; apply Hp; rewrite <-Heq; by apply list_elem_of_fmap_2). lia.
Qed.

Lemma drain_sorted m : StronglySorted (λ p q, pg_no p < pg_no q) (drain m).1.
Proof. apply sorted_strict; [apply sort_by_sorted; apply _|apply drain_NoDup]. Qed.

Lemma elem_of_drain m p : p ∈ (drain m).1 ↔ m !! pg_no p = Some (pg_data p).
Proof.
  unfold drain. cbn [fst]. rewrite elem_of_sort_by, list_elem_of_fmap. split.
  - intros ([k d] & -> & Hin). by apply elem_of_map_to_list in Hin.
  - intros Hl. exists (pg_no p, pg_data p). split; [by destruct p|by apply elem_of_map_to_list].
Qed.

Lemma check_segment_pages_ok (l : list Page) : ∀ prev,
  StronglySorted (λ p q, pg_no p < pg_no q) l →
  Forall (λ p, match prev with Some q => q < pg_no p | None => True end) l →
  Forall (λ p, length (pg_data p) = N.to_nat ps) l →
  check_segment_pages ps prev l = Ok tt.
Proof.
  induction l as [|p l IH]; intros prev Hs Hprev Hlen; cbn [check_segment_pages]; [done|].
  apply StronglySorted_inv in Hs as [Hs Hf]. apply Forall_cons in Hprev as [Hp _].
  apply Forall_cons in Hlen as [Hl Hlen]. rewrite Hl, N2Nat.id, N.eqb_refl. cbn [negb].
  assert (match prev with Some q => pg_no p <=? q | None => false end = false) as ->.
  { destruct prev; [by apply N.leb_gt|done]. }
  by apply IH.
Qed.

Lemma StronglySorted_filter {A} (R : relation A) (P : A → Prop) `{!∀ x, Decision (P x)} (l : list A) :
  StronglySorted R l → StronglySorted R (filter P l).
Proof.
  induction 1 as [|x l Hs IH Hf]; [constructor|]. rewrite filter_cons. destruct (decide (P x)); [|done].
  constructor; [done|]. by apply Forall_filter_any.
Qed.

(** What a segment of the pending pages carries. *)
Definition carried m : list Page := filter (λ p, pg_no p ≠ lock) (drain m).1.

Lemma carried_NoDup m : NoDup (pg_no <$> carried m).
Proof. eapply sublist_NoDup; [apply (drain_NoDup m)|]. apply fmap_sublist, sublist_filter. Qed.

Lemma lookup_carried m n : pmap (carried m) !! n = if decide (n = lock) then None else m !! n.
Proof.
  pose proof (carried_NoDup m) as Hnd.
  apply option_eq. intros d. split.
  - intros (p & Hp & <- & <-)%pmap_Some. apply list_elem_of_filter in Hp as [Hl Hp%elem_of_drain].
    by rewrite decide_False.
  - destruct (decide (n = lock)); [done|]. intros Hd. unfold pmap.
    apply elem_of_list_to_map_1; [by rewrite <-list_fmap_compose|].
    apply list_elem_of_fmap. exists (mkPage n d). split; [done|].
    apply list_elem_of_filter. split; [done|]. by apply elem_of_drain.
Qed.

(** Limits of the format: the page size is a legal one, a database has
    between 1 and [maxCommit] pages, a TXID fits 64 bits. *)
Definition db_ok f (c : N) : Prop := db_len f c ∧ 1 <= c ∧ c < u32_size - 1.

Lemma carried_pages_ok m f c g c' : delta m f c g c' → c' < u32_size → pages_ok ps (carried m).
Proof.
  intros (_ & _ & Hm) Hc. split.
  - apply carried_NoDup.
  - apply Forall_filter_any, Forall_forall. intros p Hp%elem_of_drain.
    destruct (Hm _ _ Hp) as (? & ? & ?). split_and!; [done|lia|done].
Qed.

Lemma db_sum_flag f c : N.lor ChecksumFlag (db_sum f c) = db_sum f c.
Proof. unfold LtxProps.db_sum. by rewrite N.lor_assoc, N.lor_diag. Qed.

Lemma db_sum_nonzero f c : db_sum f c ≠ 0.
Proof. unfold LtxProps.db_sum. intros [Hf _]%N.lor_eq_0_iff. by apply ChecksumFlag_set. Qed.

Lemma EncodeSegment_ok m f c g c' txid :
  IsValidPageSize ps = true → delta m f c g c' → db_ok g c' → 2 <= txid → txid < u64_size →
  ∃ obj, EncodeSegment ps c' txid txid (db_sum f c) (db_sum g c') (drain m).1 = Ok obj ∧
    ltx_decode_header obj = Ok (mkLtxHeader ps c' txid txid (db_sum f c)) ∧
    ltx_decode_body obj = Ok (carried m, db_sum g c').
Proof.
  intros Hv Hd (Hlen & Hc1 & Hc2) Ht1 Ht2. pose proof Hd as (_ & _ & Hm).
  assert (∀ p, p ∈ (drain m).1 → 1 <= pg_no p ∧ pg_no p <= c' ∧ length (pg_data p) = N.to_nat ps) as Hpg.
  { intros p Hp%elem_of_drain. by apply Hm in Hp. }
  unfold EncodeSegment.
  rewrite (proj2 (N.eqb_neq txid 0)), (proj2 (N.ltb_ge txid txid)), (proj2 (N.eqb_neq txid 1)) by lia.
  cbn [orb]. rewrite check_segment_pages_ok; [|apply drain_sorted|by apply Forall_true|].
  2: { apply Forall_forall. intros p Hp. by apply Hpg. }
  cbn [mbind res_bind]. rewrite !(proj2 (N.eqb_neq _ 0)) by apply db_sum_nonzero. fold (carried m).
  edestruct (ltx_accepts (mkLtxHeader ps c' txid txid (db_sum f c)) (carried m) (db_sum g c')) as [obj Hobj].
  { split; cbn [lh_page_size lh_commit lh_min lh_max lh_pre].
    - apply StronglySorted_filter, drain_sorted.
    - apply Forall_forall. intros p [Hl Hp]%list_elem_of_filter. destruct (Hpg p Hp) as (? & ? & ?). done.
    - lia.
    - lia.
    - right. split; [lia|apply db_sum_flag].
    - apply db_sum_flag.
    - done.
    - lia. }
  exists obj. split; [done|]. eapply ltx_decodes; [exact Hobj|]. cbn [lh_min]. lia.
Qed.

(** A segment of the pending pages, applied to any copy of the old database,
    is accepted and produces the new one. *)
Lemma segment_applies m f c g c' txid f1 obj first :
  IsValidPageSize ps = true → delta m f c g c' → db_ok g c' → 2 <= txid → txid < u64_size → same_db f1 f c →
  ltx_decode_header obj = Ok (mkLtxHeader ps c' txid txid (db_sum f c)) →
  ltx_decode_body obj = Ok (carried m, db_sum g c') →
  ∃ g1, applySegments first f1 ps (txid - 1) c (db_sum f c) [obj] = Ok (g1, txid, db_sum g c') ∧ same_db g1 g c'.
Proof.
  intros Hv Hd (Hlen & Hc1 & Hc2) Ht1 Ht2 Hsame Hh Hb. cbn [applySegments]. rewrite Hh. cbn [mbind res_bind].
  unfold IsSnapshot. cbn [lh_page_size lh_commit lh_min lh_max lh_pre].
  rewrite (proj2 (N.eqb_neq txid 1)), N.eqb_refl by lia. cbn [negb].
  rewrite (proj2 (N.eqb_neq (txid - 1) 0)), andb_false_r by lia.
  rewrite add64_small by lia. replace (txid - 1 + 1) with txid by lia. rewrite !N.eqb_refl. cbn [negb].
  rewrite Hb. cbn [mbind res_bind].
  pose proof Hsame as (Hf1 & Hf & Hpages). rewrite <-(db_sum_same _ _ _ Hsame).
  pose proof Hd as ([Hgl Hov] & Hgr & Hm).
  destruct (apply_segment_spec ps Hps (carried m) f1 c c') as [(_ & g1 & [Hl1 Hov1] & Ha)|[Hng _]].
  - eapply carried_pages_ok; [done|]. apply Hlen.
  - apply Hf1.
  - apply Hlen.
  - by apply db_len_le.
  - assert (same_db g1 g c') as Hs.
    { split_and!; [split; [done|apply Hlen]|done|]. intros n Hn1 Hn2 Hnl.
      rewrite Hov1, Hov, lookup_carried, decide_False by done.
      destruct (m !! n) as [d|] eqn:E; [done|]. cbn [default]. apply Hpages; [done| |done].
      destruct (decide (n <= c)); [done|]. apply not_elem_of_dom in E. exfalso. apply E, Hgr; done || lia. }
    exists g1. rewrite Ha, (db_sum_same _ _ _ Hs), N.eqb_refl. cbn [mbind res_bind applySegments]. done.
  - exfalso. apply Hng. intros n Hn1 Hn2 Hnl. apply elem_of_dom. rewrite lookup_carried, decide_False by done.
    by apply elem_of_dom, Hgr.
Qed.

Lemma applySegments_app segs1 segs2 : ∀ first f p prevMax prevCommit running f1 t1 c1 r1,
  (segs1 ≠ [] ∨ prevMax ≠ 0 ∨ first = false) →
  applySegments first f p prevMax prevCommit running segs1 = Ok (f1, t1, r1) →
  (segs1 = [] → c1 = prevCommit) →
  (∀ s h, last segs1 = Some s → ltx_decode_header s = Ok h → lh_commit h = c1) →
  applySegments first f p prevMax prevCommit running (segs1 ++ segs2) =
    applySegments false f1 p t1 c1 r1 segs2.
Proof.
  induction segs1 as [|s segs1 IH]; intros first f p prevMax prevCommit running f1 t1 c1 r1 Hne Ha Hc0 Hc1.
  - cbn [applySegments] in Ha. simplify_eq. rewrite Hc0 by done. cbn [app].
    destruct segs2 as [|s2 segs2]; cbn [applySegments]; [done|].
    destruct (ltx_decode_header s2); [|done]. cbn [mbind res_bind].
    destruct first; [|done]. destruct Hne as [?|[Hz|?]]; [done| |done].
    apply N.eqb_neq in Hz. by rewrite Hz.
  - cbn [app applySegments] in Ha |- *.
    destruct (ltx_decode_header s) as [h|] eqn:Hh; [|done]. cbn [mbind res_bind] in Ha |- *.
    destruct (IsSnapshot h); [done|]. destruct (negb (lh_page_size h =? p)); [done|].
    destruct (negb (lh_min h =? _)); [done|]. destruct (negb (lh_pre h =? running)); [done|].
    destruct (ltx_decode_body s) as [[pages post]|]; [|done]. cbn [mbind res_bind] in Ha |- *.
    destruct (apply_segment _ _ _ _ _ _ _) as [[f2 r2]|]; [|done]. cbn [mbind res_bind] in Ha |- *.
    eapply IH; [by right; right|exact Ha| |].
    + intros ->. symmetry. by eapply Hc1.
    + intros s' h' Hl Hs'. eapply Hc1; [|exact Hs']. by rewrite last_cons, Hl.
Qed.
End props.
