(* ===== verification/SessionRun.v ===== *)
(** * Runs of a session

    The transition system of a session's capture side: captured transactions
    ([sink_Apply]), rebases ([sink_Rebase]), and flush attempts that encode
    under the lock, upload without it, and then land or fail while
    transactions and rebases go on.  Every reachable state's durable chain
    materializes to the replica as it stood at the encode of the last flush
    that landed ([flush_durable]), and when nothing is pending it is the
    replica as it stands ([idle_is_durable]).  [stale_commit_unreadable] shows
    the run that the freshness condition on segment encodes rules out. *)
From Stdlib Require Import Strings.Byte.
From S2P Require Import Prelude Files Wal Ltx LtxProps Session SessionProps.
Local Open Scope N_scope.

Section run.
  Context `{LtxLib} (ps : N) (Hps : 0 < ps) (Hvalid : IsValidPageSize ps = true) (snapshotEvery : Z).
  Implicit Types (f g : bytes) (m : gmap N bytes).
  Local Abbreviation lock := (LockPgno ps).
  Local Abbreviation db_sum := (db_sum ps).
  Local Abbreviation same_db := (same_db ps).
  Local Abbreviation delta := (delta ps).

(** A well-formed database file: its header gives the page size and the
    number of pages it has. *)
Definition db_file f (c : N) : Prop := readDBHeader f = Ok (ps, c) ∧ db_ok ps f c.

(** ** Snapshots *)

Lemma snapshot_pages_sum f c L x :
  (∀ n, n ∈ L → 1 <= n ∧ n <= c ∧ has_page f ps n) →
  let pages := (λ n, mkPage n (page f ps n)) <$> filter (λ n, n ≠ lock) L in
  snapshot_pages f ps lock L (N.lor ChecksumFlag x) =
    Ok (pages, N.lor ChecksumFlag (N.lxor x (xorsum (contrib ps f c) L))) ∧
  fold_sum ChecksumFlag ltx_ChecksumPage (N.lor ChecksumFlag x) pages =
    N.lor ChecksumFlag (N.lxor x (xorsum (contrib ps f c) L)).
Proof.
  revert x. induction L as [|n L IH]; intros x HL; cbn [snapshot_pages xorsum foldr].
  { by rewrite N.lxor_0_r. }
  fold (xorsum (contrib ps f c) L). destruct (HL n) as (H1 & H2 & Hp); [by left|].
  assert (∀ k, k ∈ L → 1 <= k ∧ k <= c ∧ has_page f ps k) as HL' by (intros; apply HL; by right).
  rewrite filter_cons. destruct (N.eqb_spec n lock) as [->|Hne].
  - rewrite decide_False by auto. rewrite contrib_lock, N.lxor_0_l. by apply IH.
  - rewrite decide_True by done. unfold read_page. rewrite ReadAt_page by done. cbn [mbind res_bind].
    rewrite lor_lxor_flag. destruct (IH (N.lxor x (ChecksumPage n (page f ps n))) HL') as [-> Hfold].
    cbn [mbind res_bind]. rewrite fmap_cons. cbn [fold_sum foldl pg_no pg_data].
    rewrite lor_lxor_flag. unfold fold_sum in Hfold. unfold ChecksumPage in Hfold. rewrite Hfold.
    rewrite <-(contrib_old_part ps Hps f c n (page f ps n)), (old_part_page ps Hps) by (done || by apply length_page).
    unfold ChecksumPage. by rewrite N.lxor_assoc.
Qed.

(** A snapshot of a well-formed database decodes to that database. *)
Lemma EncodeSnapshot_ok f c txid :
  db_file f c → 1 <= txid → txid < u64_size →
  ∃ obj g, EncodeSnapshot f txid = Ok (obj, db_sum f c) ∧ same_db g f c ∧
    ltx_DecodeDatabaseTo obj = Ok (mkLtxHeader ps c 1 txid 0, g, db_sum f c).
Proof.
  intros [Hh (Hlen & Hc1 & Hc2)] Ht1 Ht2.
  assert (∀ n, n ∈ range 1 c → 1 <= n ∧ n <= c ∧ has_page f ps n) as Hin.
  { intros n [? ?]%elem_of_range. split_and!; [done..|]. apply (has_page_commit ps Hps f c); [apply Hlen|by apply db_len_le|done..]. }
  destruct (snapshot_pages_sum f c (range 1 c) 0 Hin) as [Hs Hfold].
  rewrite N.lor_0_r, N.lxor_0_l in Hs, Hfold. fold (db_sum f c) in Hs, Hfold.
  set (pages := (λ n, mkPage n (page f ps n)) <$> filter (λ n, n ≠ lock) (range 1 c)) in *.
  assert (ltx_valid ChecksumFlag lock (mkLtxHeader ps c 1 txid 0) pages (db_sum f c)) as Hv.
  { split; cbn [lh_page_size lh_commit lh_min lh_max lh_pre].
    - unfold pages. eapply StronglySorted_fmap; [|apply StronglySorted_filter, StronglySorted_range]. done.
    - unfold pages. rewrite Forall_fmap. apply Forall_forall. intros n [Hnl Hn]%list_elem_of_filter.
      destruct (Hin n Hn) as (? & ? & ?). cbn. split_and!; [done..|by apply length_page].
    - lia.
    - lia.
    - by left.
    - apply db_sum_flag.
    - done.
    - intros _. unfold pages. rewrite <-list_fmap_compose. erewrite list_fmap_ext; [by rewrite list_fmap_id|done]. }
  destruct (ltx_accepts (mkLtxHeader ps c 1 txid 0) pages (db_sum f c) Hv) as [obj Hobj].
  destruct (ltx_decodes_database (mkLtxHeader ps c 1 txid 0) pages (db_sum f c) obj Hobj eq_refl Hv (eq_sym Hfold)) as (g & Hg & Hgl & Hgp).
  exists obj, g. split_and!; [| |done].
  - unfold EncodeSnapshot. rewrite Hh. cbn [mbind res_bind]. fold lock. rewrite Hs. cbn [mbind res_bind].
    fold lock in Hobj. by rewrite Hobj.
  - split_and!; [|done|].
    + split; [done|apply Hlen].
    + intros n Hn1 Hn2 Hnl. apply (Hgp (mkPage n (page f ps n))). unfold pages.
      apply list_elem_of_fmap. exists n. split; [done|]. apply list_elem_of_filter. split; [done|].
      by apply elem_of_range.
Qed.

(** ** The transition system *)

(** [sy_chain] is the chain of objects the branch head resolves to, a
    snapshot and its segments; [sy_db], a history variable, is the replica as
    it stood when the last landed flush encoded it, with its page count.
    [sy_flight] is the attempt between its encode and its outcome, with the
    same of the replica it encoded. *)
Record sys := mkSys {
  sy_cap : capState;
  sy_chain : option (bytes * list bytes);
  sy_head : N;
  sy_db : bytes * N;
  sy_flight : option (flushAttempt * (bytes * N)) }.

(** The cadence counter as a flush finds it: a session's first flush that may
    be a segment sets it from the branch's durable chain
    ([Flush.seed_divergence]). *)
Definition seeded (n : Z) (s : capState) : capState :=
  mkCap (cs_replica s) (cs_pages s) (cs_checksum s) (cs_flushChecksum s) (cs_commit s) (cs_pageSize s)
    (cs_forceSnapshot s) (cs_rebaseGen s) (cs_flushedRebaseGen s) (cs_appliedGen s) (cs_flushedGen s) n
    (cs_cleanAtOpen s) (cs_headPostApply s).

Definition with_cap (s : capState) (y : sys) : sys := mkSys s (sy_chain y) (sy_head y) (sy_db y) (sy_flight y).

(** What the head resolves to once the attempt's object is the head's. *)
Definition landed_chain (a : flushAttempt) (chain : option (bytes * list bytes)) : option (bytes * list bytes) :=
  if fa_snapshot a then Some (fa_object a, [])
  else (λ '(snap, segs), (snap, segs ++ [fa_object a])) <$> chain.

(** With [strict], a segment is encoded only while [s.commit] is the replica's
    page count, which [rebaseline] alone does not establish. *)
Inductive step (strict : Prop) : sys → sys → Prop :=
  | st_apply y frames s' :
      frames_ok ps frames → sink_Apply ps frames (sy_cap y) = Ok s' →
      db_file (cs_replica s') (commit_of frames) →
      step strict y (with_cap s' y)
  | st_rebase y file c s' :
      db_file file c → sink_Rebase file (sy_cap y) = Ok s' →
      step strict y (with_cap s' y)
  | st_seed y n : step strict y (with_cap (seeded n (sy_cap y)) y)
  | st_encode y a s' c :
      sy_flight y = None → sy_head y + 1 < u64_size → db_len ps (cs_replica (sy_cap y)) c →
      (strict → wants_snapshot snapshotEvery (sy_head y + 1) (sy_cap y) = false → cs_commit (sy_cap y) = c) →
      flush_encode snapshotEvery (sy_head y + 1) (sy_cap y) = (Ok a, s') →
      step strict y (mkSys s' (sy_chain y) (sy_head y) (sy_db y) (Some (a, (cs_replica (sy_cap y), c))))
  | st_encode_fail y e s' :
      sy_flight y = None → flush_encode snapshotEvery (sy_head y + 1) (sy_cap y) = (Err e, s') →
      step strict y (with_cap s' y)
  | st_land y a db :
      sy_flight y = Some (a, db) →
      step strict y (mkSys (flush_done a (sy_cap y)) (landed_chain a (sy_chain y)) (fa_txid a) db None)
  | st_fail y a db :
      sy_flight y = Some (a, db) →
      step strict y (mkSys (sy_cap y) (sy_chain y) (sy_head y) (sy_db y) None).

(** [snap] and [segs] materialize, at TXID [head], to a copy of [db]. *)
Definition chain_is (snap : bytes) (segs : list bytes) (head : N) (db : bytes * N) : Prop :=
  ∃ h f0 post g, ltx_DecodeDatabaseTo snap = Ok (h, f0, post) ∧ lh_page_size h = ps ∧ lh_max h ≠ 0 ∧
    MaterializeChain snap segs = Ok (g, head, db_sum db.1 db.2) ∧ same_db g db.1 db.2 ∧
    (segs = [] → lh_commit h = db.2) ∧
    (∀ s hs, last segs = Some s → ltx_decode_header s = Ok hs → lh_commit hs = db.2).

Definition chain_ok (chain : option (bytes * list bytes)) (head : N) (db : bytes * N) : Prop :=
  match chain with
  | None => head = 0
  | Some (snap, segs) => 1 <= head ∧ chain_is snap segs head db
  end.

(** A session as it opens: the capture engine's startup rebase of the
    checkout onto the zero state.  When the sidecar's recorded checksum is the
    checkout's, the checkout is the durable head (checksums identify content
    here). *)
Definition init (y : sys) : Prop :=
  ∃ s0 file c, db_file file c ∧ sink_Rebase file s0 = Ok (sy_cap y) ∧ sy_flight y = None ∧
    chain_ok (sy_chain y) (sy_head y) (sy_db y) ∧
    cs_pageSize s0 = 0 ∧ cs_rebaseGen s0 = 0 ∧ cs_flushedRebaseGen s0 = 0 ∧ cs_appliedGen s0 = 0 ∧ cs_flushedGen s0 = 0 ∧
    (cs_cleanAtOpen s0 = true → cs_headPostApply s0 = Some (db_sum file c) →
     is_Some (sy_chain y) ∧ same_db (sy_db y).1 file c ∧ (sy_db y).2 = c).

Inductive reachable (strict : Prop) : sys → Prop :=
  | reach_init y : init y → reachable strict y
  | reach_step y y' : reachable strict y → step strict y y' → reachable strict y'.

(** ** The invariant *)

Record inv (y : sys) (c : N) : Prop := mk_inv {
  iv_file : db_file (cs_replica (sy_cap y)) c;
  iv_sum : cs_checksum (sy_cap y) = db_sum (cs_replica (sy_cap y)) c;
  iv_ps : cs_pageSize (sy_cap y) = 0 ∨ cs_pageSize (sy_cap y) = ps;
  iv_gen : 1 <= cs_rebaseGen (sy_cap y) ∧ cs_flushedGen (sy_cap y) <= cs_appliedGen (sy_cap y) ∧
           cs_flushedRebaseGen (sy_cap y) <= cs_rebaseGen (sy_cap y);
  iv_chain : chain_ok (sy_chain y) (sy_head y) (sy_db y);
  iv_delta : cs_forceSnapshot (sy_cap y) = false → is_Some (sy_chain y) ∧
    cs_flushChecksum (sy_cap y) = db_sum (sy_db y).1 (sy_db y).2 ∧
    delta (cs_pages (sy_cap y)) (sy_db y).1 (sy_db y).2 (cs_replica (sy_cap y)) c;
  iv_idle : autoFlushPending (sy_cap y) = false → is_Some (sy_chain y) ∧
    same_db (sy_db y).1 (cs_replica (sy_cap y)) c ∧ (sy_db y).2 = c;
  iv_flight : ∀ a E ec, sy_flight y = Some (a, (E, ec)) →
    cs_forceSnapshot (sy_cap y) = true ∧ db_file E ec ∧ fa_txid a = sy_head y + 1 ∧
    fa_gen a <= cs_rebaseGen (sy_cap y) ∧ fa_appliedGen a <= cs_appliedGen (sy_cap y) ∧
    cs_flushedGen (sy_cap y) <= fa_appliedGen a ∧ cs_flushedRebaseGen (sy_cap y) <= fa_gen a ∧
    is_Some (landed_chain a (sy_chain y)) ∧
    chain_ok (landed_chain a (sy_chain y)) (fa_txid a) (E, ec) ∧
    (cs_rebaseGen (sy_cap y) = fa_gen a →
       fa_checksum a = db_sum E ec ∧ delta (cs_pages (sy_cap y)) E ec (cs_replica (sy_cap y)) c ∧
       (cs_appliedGen (sy_cap y) = fa_appliedGen a → cs_replica (sy_cap y) = E ∧ c = ec)) }.

(** ** Each step keeps it *)

Lemma recordApply_replica frames s s1 : recordApply ps frames s = Ok s1 → cs_replica s1 = cs_replica s.
Proof.
  unfold recordApply. destruct (bool_decide (frames = [])); [by intros [= ->]|].
  intros (r1 & _ & Hr)%res_bind_ok. apply res_bind_ok in Hr as (r2 & _ & Hr).
  by apply res_bind_ok in Hr as (u & _ & [= <-]).
Qed.

Lemma sink_Apply_spec frames s c s' :
  frames_ok ps frames → db_len ps (cs_replica s) c → cs_checksum s = db_sum (cs_replica s) c →
  sink_Apply ps frames s = Ok s' →
  let c' := commit_of frames in let g := cs_replica s' in
  grown ps c' c (dom (latest frames)) ∧ overlay ps (latest frames) (cs_replica s) c' g ∧
  s' = mkCap g (dropAbove c' (record frames (cs_pages s))) (db_sum g c') (cs_flushChecksum s) c' ps
         (cs_forceSnapshot s) (cs_rebaseGen s) (cs_flushedRebaseGen s) (cs_appliedGen s + 1) (cs_flushedGen s)
         (cs_flushesSinceSnapshot s) (cs_cleanAtOpen s) (cs_headPostApply s).
Proof.
  intros Hok Hlen Hsum Hsink. unfold sink_Apply in Hsink.
  apply res_bind_ok in Hsink as (s1 & Hrec & Hsink). apply res_bind_ok in Hsink as (g & Hg & [= <-]).
  rewrite (recordApply_replica _ _ _ Hrec) in Hg. cbn [set_replica cs_replica].
  assert (frames ≠ []) as Hne by (intros ->; discriminate).
  destruct (recordApply_spec ps Hps frames s c g Hne Hok Hlen Hsum Hg) as [[Hgr Hr]|[_ Hr]]; [|congruence].
  rewrite Hrec in Hr. simplify_eq. split_and!; [done| |done].
  by apply (ReplicaApply_overlay ps Hps frames (cs_replica s) c).
Qed.

Lemma ChecksumDatabase_sum f c : db_file f c → ChecksumDatabase f = Ok (db_sum f c).
Proof.
  intros [Hh (Hlen & _ & _)]. unfold ChecksumDatabase. rewrite Hh. cbn [mbind res_bind].
  apply checksumPages_sum; [done|apply Hlen|by apply db_len_le].
Qed.

Lemma inv_apply y c frames s' :
  inv y c → frames_ok ps frames → sink_Apply ps frames (sy_cap y) = Ok s' →
  db_file (cs_replica s') (commit_of frames) → inv (with_cap s' y) (commit_of frames).
Proof.
  intros [[Hh Hdb] Hsum Hp Hg Hc Hd Hi Hf] Hok Hs Hfile.
  destruct (sink_Apply_spec frames (sy_cap y) c s' Hok (proj1 Hdb) Hsum Hs) as (Hgr & Hov & ->).
  cbn [cs_replica] in *. set (g := cs_replica s') in *. set (c' := commit_of frames) in *.
  split; cbn [with_cap sy_cap sy_chain sy_head sy_db sy_flight cs_replica cs_checksum cs_pageSize cs_rebaseGen
              cs_flushedGen cs_appliedGen cs_flushedRebaseGen cs_forceSnapshot cs_flushChecksum cs_pages]; try done.
  - by right.
  - destruct Hg as (? & ? & ?). split_and!; [done|lia|done].
  - intros (? & ? & Hdl)%Hd. split_and!; [done..|]. eapply delta_apply; eauto.
  - unfold autoFlushPending. cbn. intros Hidle. exfalso. destruct Hg as (? & ? & ?). bool_to_prop. lia.
  - intros a E ec (? & ? & ? & ? & ? & ? & ? & ? & ? & Hdl)%Hf. split_and!; [done..|lia|done|done|done|done|].
    intros (? & Hdl' & _)%Hdl. split_and!; [done|eapply delta_apply; eauto|]. intros. lia.
Qed.

Lemma sink_Rebase_spec file c s s' :
  db_file file c → sink_Rebase file s = Ok s' →
  let suppressed := (cs_rebaseGen s =? 0) && cs_cleanAtOpen s && bool_decide (cs_headPostApply s = Some (db_sum file c)) in
  s' = mkCap file ∅ (db_sum file c) (db_sum file c) (cs_commit s) (cs_pageSize s)
        (negb suppressed) (cs_rebaseGen s + 1) (if suppressed then cs_rebaseGen s + 1 else cs_flushedRebaseGen s)
        (cs_appliedGen s) (cs_flushedGen s) (cs_flushesSinceSnapshot s) (cs_cleanAtOpen s) (cs_headPostApply s).
Proof.
  intros Hf. unfold sink_Rebase, rebaseline. cbn [set_replica cs_replica].
  rewrite (ChecksumDatabase_sum file c Hf). cbn. by intros [= <-].
Qed.

Lemma inv_rebase y c file c' s' :
  inv y c → db_file file c' → sink_Rebase file (sy_cap y) = Ok s' → inv (with_cap s' y) c'.
Proof.
  intros [_ _ Hp Hg Hc _ _ Hf] Hfile Hs. apply (sink_Rebase_spec file c') in Hs; [|done].
  destruct Hg as (Hg1 & Hg2 & Hg3). rewrite (proj2 (N.eqb_neq _ 0)) in Hs by lia. cbn [andb negb] in Hs. subst s'.
  split; cbn [with_cap sy_cap sy_chain sy_head sy_db sy_flight cs_replica cs_checksum cs_pageSize cs_rebaseGen
              cs_flushedGen cs_appliedGen cs_flushedRebaseGen cs_forceSnapshot cs_flushChecksum cs_pages]; try done.
  - split_and!; lia.
  - unfold autoFlushPending. cbn. intros Hidle. exfalso. bool_to_prop. lia.
  - intros a E ec (? & ? & ? & ? & ? & ? & ? & ? & ? & _)%Hf. split_and!; [done..|lia|done|done|done|done|done|].
    intros. lia.
Qed.

Lemma inv_init y : init y → ∃ c, inv y c.
Proof.
  intros (s0 & file & c & Hfile & Hs & Hfl & Hc & Hp & Hr & Hfr & Ha & Hfg & Hsup).
  apply (sink_Rebase_spec file c) in Hs; [|done]. rewrite Hr, Hfr, Ha, Hfg in Hs. cbn [N.eqb andb] in Hs.
  exists c. destruct y as [s chain head [D dc] flight]. cbn [sy_cap sy_chain sy_head sy_db sy_flight fst snd] in *.
  subst flight s.
  split; cbn [sy_cap sy_chain sy_head sy_db sy_flight cs_replica cs_checksum cs_pageSize cs_rebaseGen
              cs_flushedGen cs_appliedGen cs_flushedRebaseGen cs_forceSnapshot cs_flushChecksum cs_pages fst snd]; try done.
  - by left.
  - destruct (_ && _); split_and!; lia.
  - intros Hforce. bool_to_prop. destruct Hsup as (Hch & Hsame & ->); [done..|]. split_and!; [done| |].
    + symmetry. by apply db_sum_same.
    + destruct Hsame as (Hl1 & Hl2 & Hpg). split_and!; [split; [apply Hl2|]|intros n ???; lia|by intros ??].
      intros n ???. unfold pageSet; rewrite lookup_empty. cbn. symmetry. by apply Hpg.
  - unfold autoFlushPending. cbn. intros Hidle. destruct (_ && _) eqn:E; [|done].
    bool_to_prop. by apply Hsup.
Qed.

Lemma chain_snapshot f c txid :
  db_file f c → 1 <= txid → txid < u64_size →
  ∃ obj, fst <$> EncodeSnapshot f txid = Ok obj ∧ chain_is obj [] txid (f, c).
Proof.
  intros Hf Ht1 Ht2. destruct (EncodeSnapshot_ok f c txid Hf Ht1 Ht2) as (obj & g & He & Hs & Hd).
  exists obj. split; [by rewrite He|].
  exists (mkLtxHeader ps c 1 txid 0), g, (db_sum f c), g. cbn [lh_page_size lh_max lh_commit fst snd].
  split_and!; [done|done|lia| |done|done|done]. unfold MaterializeChain. by rewrite Hd.
Qed.

Lemma chain_segment m f c snap segs head g c' :
  chain_is snap segs head (f, c) → 1 <= head → head + 1 < u64_size → delta m f c g c' → db_ok ps g c' →
  ∃ obj, EncodeSegment ps c' (head + 1) (head + 1) (db_sum f c) (db_sum g c') (drain m).1 = Ok obj ∧
    chain_is snap (segs ++ [obj]) (head + 1) (g, c').
Proof.
  intros (h & f0 & post & f1 & Hdec & Hpsz & Hmax & Hmat & Hsame & Hc0 & Hc1) Hh1 Hh2 Hd Hok.
  cbn [fst snd] in *.
  destruct (EncodeSegment_ok ps Hps m f c g c' (head + 1) Hvalid Hd Hok) as (obj & He & Hoh & Hob); [lia..|].
  destruct (segment_applies ps Hps m f c g c' (head + 1) f1 obj false Hvalid Hd Hok) as (g1 & Hg1 & Hsame1);
    [lia|lia|done..|].
  exists obj. split; [done|]. exists h, f0, post, g1. cbn [fst snd].
  split_and!; [done..| |done| |].
  - unfold MaterializeChain in *. rewrite Hdec in Hmat |- *. cbn [mbind res_bind] in *. rewrite Hpsz in *.
    erewrite applySegments_app; [|by right; left|exact Hmat|intros; symmetry; by apply Hc0|exact Hc1].
    by replace (head + 1 - 1) with head in Hg1 by lia.
  - intros Hnil. by apply app_nil in Hnil as [_ ?].
  - intros s hs Hl Hs. rewrite last_snoc in Hl. injection Hl as <-. rewrite Hoh in Hs. by injection Hs as <-.
Qed.

Lemma db_len_inj f c c' : db_len ps f c → db_len ps f c' → c = c'.
Proof. intros H1 H2. rewrite <-(db_len_commit ps Hps f c H1). by apply db_len_commit. Qed.

(** The object an attempt encodes extends the durable chain to the replica. *)
Lemma encode_lands y c0 a s' c :
  inv y c0 → sy_head y + 1 < u64_size → db_len ps (cs_replica (sy_cap y)) c →
  (wants_snapshot snapshotEvery (sy_head y + 1) (sy_cap y) = false → cs_commit (sy_cap y) = c) →
  flush_encode snapshotEvery (sy_head y + 1) (sy_cap y) = (Ok a, s') →
  is_Some (landed_chain a (sy_chain y)) ∧
  chain_ok (landed_chain a (sy_chain y)) (fa_txid a) (cs_replica (sy_cap y), c).
Proof.
  intros [[Hh Hdb] Hsum Hp _ Hc Hd _ _] Hlt Hlen Hfresh.
  assert (c0 = c) as -> by (eapply db_len_inj; [apply Hdb|done]).
  unfold flush_encode. destruct (wants_snapshot _ _ _) eqn:Hw; cbn [drain].
  - destruct (chain_snapshot (cs_replica (sy_cap y)) c (sy_head y + 1)) as (obj & -> & Hci); [by split|lia|lia|].
    intros [= <- <-]. unfold landed_chain. cbn. split; [eauto|]. split; [lia|done].
  - unfold wants_snapshot in Hw. bool_to_prop. rewrite Hfresh by done.
    destruct Hd as ([[snap segs] Hchain] & Hsumf & Hdelta); [done|].
    rewrite Hsumf, Hsum. rewrite Hchain in Hc |- *. destruct Hc as [Hhead Hci].
    destruct (sy_db y) as [D dc]. cbn [fst snd] in *. destruct Hp as [Hp|Hp]; [done|]. rewrite Hp.
    destruct (chain_segment _ _ _ _ _ _ _ _ Hci Hhead Hlt Hdelta Hdb) as (obj & Hobj & Hci').
    unfold drain in Hobj. cbn [fst] in Hobj. rewrite Hobj. intros [= <- <-]. unfold landed_chain. cbn.
    split; [eauto|]. split; [lia|done].
Qed.

Lemma flush_encode_state txid s r s' :
  flush_encode snapshotEvery txid s = (r, s') →
  s' = mkCap (cs_replica s) ∅ (cs_checksum s) (cs_flushChecksum s) (cs_commit s) (cs_pageSize s)
         true (cs_rebaseGen s) (cs_flushedRebaseGen s) (cs_appliedGen s) (cs_flushedGen s)
         (cs_flushesSinceSnapshot s) (cs_cleanAtOpen s) (cs_headPostApply s) ∧
  ∀ a, r = Ok a → fa_txid a = txid ∧ fa_checksum a = cs_checksum s ∧ fa_gen a = cs_rebaseGen s ∧
    fa_appliedGen a = cs_appliedGen s.
Proof.
  unfold flush_encode. cbn [drain]. intros [= <- <-]. split; [done|].
  intros a. destruct (if wants_snapshot _ _ _ then _ else _); [|done]. by intros [= <-].
Qed.

Lemma inv_seed y c n : inv y c → inv (with_cap (seeded n (sy_cap y)) y) c.
Proof. by intros [Hfile Hsum Hp Hg Hc Hd Hi Hf]. Qed.

Lemma inv_encode y c0 a s' c :
  inv y c0 → sy_flight y = None → sy_head y + 1 < u64_size → db_len ps (cs_replica (sy_cap y)) c →
  (wants_snapshot snapshotEvery (sy_head y + 1) (sy_cap y) = false → cs_commit (sy_cap y) = c) →
  flush_encode snapshotEvery (sy_head y + 1) (sy_cap y) = (Ok a, s') →
  inv (mkSys s' (sy_chain y) (sy_head y) (sy_db y) (Some (a, (cs_replica (sy_cap y), c)))) c.
Proof.
  intros Hinv Hfl Hlt Hlen Hfresh He.
  pose proof (encode_lands _ _ _ _ _ Hinv Hlt Hlen Hfresh He) as [Hsome Hland].
  destruct (flush_encode_state _ _ _ _ He) as [-> Ha]. destruct (Ha a eq_refl) as (Ht & HsumA & Hgen & Happ).
  destruct Hinv as [Hfile Hsum Hp (Hg1 & Hg2 & Hg3) Hc Hd Hi _].
  assert (c0 = c) as -> by (eapply db_len_inj; [apply Hfile|done]).
  split; cbn [sy_cap sy_chain sy_head sy_db sy_flight cs_replica cs_checksum cs_pageSize cs_rebaseGen
              cs_flushedGen cs_appliedGen cs_flushedRebaseGen cs_forceSnapshot cs_flushChecksum cs_pages]; try done.
  intros ? ? ? [= <- <- <-]. rewrite Hgen, Happ.
  split_and!; [done|done|done|lia|lia|done|done|done|done|]. intros _. split_and!; [congruence| |done].
  by apply delta_refl.
Qed.

Lemma inv_encode_fail y c e s' :
  inv y c → sy_flight y = None → flush_encode snapshotEvery (sy_head y + 1) (sy_cap y) = (Err e, s') →
  inv (with_cap s' y) c.
Proof.
  intros Hinv Hfl He. destruct (flush_encode_state _ _ _ _ He) as [-> _].
  destruct Hinv as [Hfile Hsum Hp Hg Hc Hd Hi _].
  split; cbn [with_cap sy_cap sy_chain sy_head sy_db sy_flight cs_replica cs_checksum cs_pageSize cs_rebaseGen
              cs_flushedGen cs_appliedGen cs_flushedRebaseGen cs_forceSnapshot cs_flushChecksum cs_pages]; try done.
  rewrite Hfl. by intros.
Qed.

Lemma inv_land y c a db :
  inv y c → sy_flight y = Some (a, db) →
  inv (mkSys (flush_done a (sy_cap y)) (landed_chain a (sy_chain y)) (fa_txid a) db None) c.
Proof.
  intros [Hfile Hsum Hp (Hg1 & Hg2 & Hg3) Hc Hd Hi Hf] Hfl. destruct db as [E ec].
  destruct (Hf a E ec Hfl) as (Hforce & HE & Ht & H1 & H2 & H3 & H4 & Hsome & Hland & Hsame).
  split; unfold flush_done; cbn [sy_cap sy_chain sy_head sy_db sy_flight cs_replica cs_checksum cs_pageSize cs_rebaseGen
              cs_flushedGen cs_appliedGen cs_flushedRebaseGen cs_forceSnapshot cs_flushChecksum cs_pages fst snd]; try done.
  - split_and!; [done|done|]. destruct (_ =? _) eqn:Eg; bool_to_prop; lia.
  - destruct (N.eqb_spec (cs_rebaseGen (sy_cap y)) (fa_gen a)) as [Eg|Eg]; [|congruence].
    intros _. destruct (Hsame Eg) as (? & ? & _). done.
  - unfold autoFlushPending. cbn. destruct (N.eqb_spec (cs_rebaseGen (sy_cap y)) (fa_gen a)) as [Eg|Eg]; intros Hidle.
    + bool_to_prop. split; [done|]. destruct (Hsame Eg) as (_ & _ & [-> ->]); [done|].
      split; [apply same_db_refl, HE|done].
    + exfalso. bool_to_prop. lia.
Qed.

Lemma inv_fail y c a db :
  inv y c → sy_flight y = Some (a, db) →
  inv (mkSys (sy_cap y) (sy_chain y) (sy_head y) (sy_db y) None) c.
Proof. by intros [Hfile Hsum Hp Hg Hc Hd Hi Hf] Hfl. Qed.

Lemma inv_reachable y : reachable True y → ∃ c, inv y c.
Proof.
  induction 1 as [y Hy|y y' _ [c Hinv] Hs]; [by apply inv_init|].
  destruct Hs; eexists.
  - by eapply inv_apply.
  - by eapply inv_rebase.
  - by apply inv_seed.
  - eapply inv_encode; eauto.
  - by eapply inv_encode_fail.
  - by eapply inv_land.
  - by eapply inv_fail.
Qed.

(** C3: What a flush makes durable can be read back.  The runs ([reachable
    True]) are those in which every segment was encoded while the session's
    commit size was its replica's page count; the others, which a rebase that
    changes the page count and a second flush before any transaction lead to,
    are no small matter, and SessionExamples shows that the chain is then lost.
    In these runs, over every interleaving of captured transactions, rebases,
    seedings of the cadence counter and flush attempts, whether they land or
    fail, and with transactions and rebases racing an upload, the chain the
    branch head resolves to materializes: no member is refused, its TXID is the
    head's, its checksum is the one tracked, and its content is the replica as
    it stood when the flush that wrote the head encoded it (the lock page, which
    holds no data, apart). *)
Theorem flush_durable (y : sys) (snap : bytes) (segs : list bytes) :
  reachable True y → sy_chain y = Some (snap, segs) →
  ∃ g, MaterializeChain snap segs = Ok (g, sy_head y, db_sum (sy_db y).1 (sy_db y).2) ∧
    same_db g (sy_db y).1 (sy_db y).2.
Proof.
  intros [c Hinv]%inv_reachable Hch. pose proof (iv_chain _ _ Hinv) as Hc. rewrite Hch in Hc.
  destruct Hc as (_ & h & f0 & post & g & _ & _ & _ & Hm & Hs & _). eauto.
Qed.

(** When the flush loop finds nothing pending, everything captured is
    durable: the branch has a chain and it materializes to the replica as it
    stands now, with the session's running checksum.  In particular a rebase
    that raced an upload, or a flush that failed after draining the pending
    pages, is never mistaken for flushed. *)
Theorem idle_is_durable (y : sys) :
  reachable True y → autoFlushPending (sy_cap y) = false →
  ∃ snap segs g c, sy_chain y = Some (snap, segs) ∧ db_file (cs_replica (sy_cap y)) c ∧
    MaterializeChain snap segs = Ok (g, sy_head y, cs_checksum (sy_cap y)) ∧
    same_db g (cs_replica (sy_cap y)) c.
Proof.
  intros [c Hinv]%inv_reachable Hidle. destruct (iv_idle _ _ Hinv Hidle) as ([[snap segs] Hch] & Hsame & Hdc).
  pose proof (iv_chain _ _ Hinv) as Hc. rewrite Hch in Hc.
  destruct Hc as (_ & h & f0 & post & g & _ & _ & _ & Hm & Hs & _). rewrite Hdc in Hm, Hs.
  exists snap, segs, g, c. split_and!; [done|apply (iv_file _ _ Hinv)| |by eapply same_db_trans].
  by rewrite Hm, (iv_sum _ _ Hinv), (db_sum_same ps _ _ _ Hsame).
Qed.

(** Folding a captured transaction is exact.  The session accepts it
    precisely when it carries every page it adds, the rule by which a reader
    accepts the segment that will hold it; and then the checksum updated from
    the touched and dropped pages alone is the one a full scan of the new
    replica computes. *)
Theorem record_apply_exact (s : capState) (c : N) (frames : list Frame) :
  db_len ps (cs_replica s) c → checksumPages (cs_replica s) ps c = Ok (cs_checksum s) →
  frames_ok ps frames → 0 < commit_of frames → frames ≠ [] →
  (grown ps (commit_of frames) c (dom (latest frames)) ∧
   ∃ s', sink_Apply ps frames s = Ok s' ∧ db_len ps (cs_replica s') (commit_of frames) ∧
     checksumPages (cs_replica s') ps (commit_of frames) = Ok (cs_checksum s')) ∨
  (¬ grown ps (commit_of frames) c (dom (latest frames)) ∧ sink_Apply ps frames s = Err [EGrowth]).
Proof.
  intros Hlen Hsum Hok Hc Hne.
  rewrite (checksumPages_sum ps Hps) in Hsum by (apply Hlen || by apply db_len_le).
  injection Hsum as Hsum. symmetry in Hsum.
  assert (∃ g, ReplicaApply ps frames (cs_replica s) = Ok g) as [g Hg].
  { unfold ReplicaApply. rewrite bool_decide_eq_false_2 by done. rewrite (proj2 (N.eqb_neq _ 0)) by lia. eauto. }
  destruct (recordApply_spec ps Hps frames s c g Hne Hok Hlen Hsum Hg) as [[Hgr Hr]|[Hgr Hr]].
  - left. split; [done|]. eexists. unfold sink_Apply. rewrite Hr. cbn [mbind res_bind cs_replica]. rewrite Hg.
    cbn [mbind res_bind]. split; [done|]. cbn [set_replica cs_replica cs_checksum].
    assert (db_len ps g (commit_of frames)) as Hl.
    { destruct (ReplicaApply_overlay ps Hps frames _ c g Hok Hlen Hgr Hg) as [Hl _]. split; [done|apply Hok]. }
    split; [done|]. apply checksumPages_sum; [done|apply Hl|by apply db_len_le].
  - right. split; [done|]. unfold sink_Apply. by rewrite Hr.
Qed.
End run.
