(* ===== verification/Content.v ===== *)
(** * What a branch's head holds

    A head names a lineage and a transaction; the store resolves them to a chain
    of member keys ([Chain]), whose objects, a snapshot and its segments, form
    a database ([MaterializeChain]).  [head_is] puts the three together: it is
    what a checkout of the branch is given.  The lemmas say which writes leave
    it alone and how one member written above the head moves it. *)
From Stdlib Require Import Ascii String Strings.Byte.
From S2P Require Import Prelude GoStrings Keys Refs Backend Chain ChainFacts ChainProps ChainGrow Store Rely Files Ltx LtxProps SessionProps SessionRun.
Local Open Scope N_scope.

(** An LTX object's bytes, as the store holds them. *)
Definition obj_of (data : bytes) : object := OBytes (string_of_list_byte data).

(** The objects at the members' keys. *)
Definition fetched (m : objs) (ms : list ChainMember) (datas : list bytes) : Prop :=
  Forall2 (λ x b, m !! m_key x = Some (obj_of b)) ms datas.

Section content.
  Context `{LtxLib} (ps : N).

Definition chain_content (m : objs) (ms : list ChainMember) (t : N) (db : bytes * N) : Prop :=
  ∃ snap segs, fetched m ms (snap :: segs) ∧ chain_is ps snap segs t db.

(** The lineage [L] holds the database [db] at transaction [t]. *)
Definition lineage_is (m : objs) (L : string) (t : N) (db : bytes * N) : Prop :=
  ∃ ms, Chain (view_of m) L t = Ok ms ∧ chain_content m ms t db.

Definition head_is (m : objs) (r : Ref) (db : bytes * N) : Prop := lineage_is m (r_lineage r) (r_head_txid r) db.

(** ** Writes elsewhere *)

Lemma kv_list_insert_out' m p k o : HasPrefix k p = false → kv_list (<[k:=o]> m) p = kv_list m p.
Proof.
  intros Hp. apply (StronglySorted_unique String.le); [unfold kv_list; apply sort_by_sorted; apply _..|].
  apply NoDup_Permutation; [apply kv_list_NoDup..|]. intros x. rewrite !elem_of_kv_list.
  destruct (decide (x = k)) as [->|]; [rewrite Hp; by split; intros [_ ?]|]. by rewrite lookup_insert_ne.
Qed.

Lemma Chain_insert_other m k o L t :
  (∀ L', k ≠ BaseKey L') → (∀ L', HasPrefix k (LineagePrefix L') = false) →
  Chain (view_of (<[k:=o]> m)) L t = Chain (view_of m) L t.
Proof.
  intros Hb Hp. apply (Chain_ext (λ _, True)); [apply view_of_ok..| |done]. intros L' _.
  rewrite lineageBase_insert by done. split_and!; [done| |done].
  unfold listMembers. simpl. by rewrite kv_list_insert_out'.
Qed.

Lemma RefKey_other db branch : (∀ L, RefKey db branch ≠ BaseKey L) ∧ ∀ L, HasPrefix (RefKey db branch) (LineagePrefix L) = false.
Proof.
  split; intros L; unfold RefKey, BaseKey, LineagePrefix; [done|].
  apply not_true_is_false. rewrite HasPrefix_spec. intros [s Hs]. done.
Qed.

Lemma Chain_insert_ref m db branch o L t :
  Chain (view_of (<[RefKey db branch := o]> m)) L t = Chain (view_of m) L t.
Proof. destruct (RefKey_other db branch). by apply Chain_insert_other. Qed.

Lemma members_insert_ref m db branch o L :
  members (view_of (<[RefKey db branch := o]> m)) L = members (view_of m) L.
Proof. unfold members. simpl. rewrite kv_list_insert_out'; [done|]. apply RefKey_other. Qed.

Lemma wf_store_insert_ref m db branch o : wf_store m → wf_store (<[RefKey db branch := o]> m).
Proof.
  intros [Hb Hm]. split.
  - intros L b. rewrite lookup_insert_ne by (apply RefKey_other). apply Hb.
  - intros k o' x. rewrite lookup_insert_Some. intros [[<- _]|[_ Ho]] Hx; [by rewrite ParseMemberKey_RefKey in Hx|].
    by eapply Hm.
Qed.

Lemma acyclic_insert_ref m db branch o L bs :
  acyclic (view_of m) L bs → acyclic (view_of (<[RefKey db branch := o]> m)) L bs.
Proof. intros [Hs Hn]. split; [|done]. apply spine_of_insert; [apply RefKey_other|done]. Qed.

(** Removing a ref. *)
Lemma Chain_delete_ref m db branch L t :
  Chain (view_of (delete (RefKey db branch) m)) L t = Chain (view_of m) L t.
Proof.
  destruct (m !! RefKey db branch) as [o|] eqn:E; [|by rewrite delete_id].
  rewrite <-(insert_delete_id m _ o E) at 2. by rewrite Chain_insert_ref.
Qed.

Lemma wf_store_delete m k : wf_store m → wf_store (delete k m).
Proof.
  intros [Hb Hm]. split.
  - intros L b [_ Ho]%lookup_delete_Some. by eapply Hb.
  - intros k' o x [_ Ho]%lookup_delete_Some Hx. by eapply Hm.
Qed.

Lemma acyclic_delete_ref m db branch L bs :
  acyclic (view_of m) L bs → acyclic (view_of (delete (RefKey db branch) m)) L bs.
Proof.
  intros [Hs Hn]. split; [|done]. clear Hn.
  assert (∀ L, lineageBase (view_of (delete (RefKey db branch) m)) L = lineageBase (view_of m) L) as E.
  { intros L'. rewrite !lineageBase_view_of, lookup_delete_ne by (apply RefKey_other). done. }
  induction Hs; [apply spine_root|eapply spine_step]; rewrite ?E; done.
Qed.

Lemma fetched_delete m ms datas k :
  (∀ x, x ∈ ms → m_key x ≠ k) → fetched m ms datas → fetched (delete k m) ms datas.
Proof.
  intros Hk Hf. apply Forall2_same_length_lookup. split; [by eapply Forall2_length|].
  intros i x b Hx Hb. pose proof (Forall2_lookup_lr _ _ _ _ _ _ Hf Hx Hb) as Hm. cbn beta in Hm.
  rewrite lookup_delete_ne; [done|]. intros E. apply (Hk x); [by eapply list_elem_of_lookup_2|done].
Qed.

Lemma fetched_insert m ms datas k o :
  (∀ x, x ∈ ms → m_key x ≠ k) → fetched m ms datas → fetched (<[k:=o]> m) ms datas.
Proof.
  intros Hk Hf. apply Forall2_same_length_lookup. split; [by eapply Forall2_length|].
  intros i x b Hx Hb. pose proof (Forall2_lookup_lr _ _ _ _ _ _ Hf Hx Hb) as Hm. cbn beta in Hm.
  rewrite lookup_insert_ne; [done|]. intros E. apply (Hk x); [by eapply list_elem_of_lookup_2|done].
Qed.

(** The members of a chain are objects of the store under member keys. *)
Lemma Chain_members m L t ms x :
  wf_store m → ∀ bs, acyclic (view_of m) L bs → u64 t → Chain (view_of m) L t = Ok ms → x ∈ ms →
  is_Some (m !! m_key x) ∧ ParseMemberKey (m_key x) = Some x.
Proof.
  intros Hwf bs Ha Hu Hc Hx. apply (Chain_exact_lemma m L bs) in Hc; [|done..].
  assert (∃ L', x ∈ members (view_of m) L') as [L' Hin].
  { clear Ha. revert L t Hu ms Hc Hx. induction bs as [|b bs IH]; intros L t Hu ms Hc Hx; simpl in Hc.
    - destruct Hc as (? & ? & -> & _ & _ & Hsub). exists L. by apply keepHighestEpoch_subseteq, Hsub.
    - destruct (N.leb_spec t (bp_txid b)); [by eapply IH|].
      destruct Hc as [(? & ? & -> & _ & _ & Hsub)|(_ & parent & run & -> & Hr & _ & Hsub)].
      + exists L. by apply keepHighestEpoch_subseteq, Hsub.
      + apply elem_of_app in Hx as [Hx|Hx]; [|exists L; by apply keepHighestEpoch_subseteq, Hsub].
        eapply (IH _ (bp_txid b)); [|done..]. unfold u64 in *. lia. }
  apply members_view_of_elem in Hin as (k & Hk & _ & Hp). by rewrite (ParseMemberKey_key _ _ Hp).
Qed.

(** ** Writing the next member *)

Section next.
  Context (m : objs) (L k : string) (x : ChainMember) (t : N) (data : bytes) (bs : list BasePointer) (db : bytes * N).
  Context (Hwf : wf_store m) (HL : lineage_ok L = true) (Ha : acyclic (view_of m) L bs) (Hu : u64 (t + 1))
    (Hk : m !! k = None) (Hp : HasPrefix k (LineagePrefix L) = true) (Hx : ParseMemberKey k = Some x)
    (Hw : wf_member x) (Hmax : m_max x = t + 1)
    (Hfresh : ∀ y, y ∈ members (view_of m) L → m_max y = t + 1 → m_epoch y < m_epoch x)
    (Hb : ∀ b bs', bs = b :: bs' → bp_txid b <= t ∧ Forall (λ y, bp_txid b < m_max y) (members (view_of m) L)).
  Local Abbreviation m' := (<[k := obj_of data]> m).

Lemma lineage_snapshot :
  m_snapshot x = true → chain_is ps data [] (t + 1) db → lineage_is m' L (t + 1) db.
Proof.
  intros Hs Hc. exists [x]. split.
  - eapply (Chain_snapshot_at m k) with (bs := bs); try done. intros b bs' E. by destruct (Hb b bs' E).
  - exists data, []. split; [|done]. apply Forall2_cons. split; [|constructor].
    by rewrite (ParseMemberKey_key _ _ Hx), lookup_insert_eq.
Qed.

Lemma lineage_segment db0 :
  m_snapshot x = false → lineage_is m L t db0 →
  (∀ snap segs, chain_is ps snap segs t db0 → chain_is ps snap (segs ++ [data]) (t + 1) db) →
  lineage_is m' L (t + 1) db.
Proof.
  intros Hs (ms & Hms & snap & segs & Hf & Hc) Hnext. exists (ms ++ [x])%list. split.
  - by apply (Chain_advance m k (obj_of data) x L t Hwf HL Hk Hp Hx Hw Hmax Hfresh bs ms).
  - exists snap, (segs ++ [data])%list. split; [|by apply Hnext]. rewrite app_comm_cons. apply Forall2_app.
    + apply fetched_insert; [|done]. intros y Hy <-. destruct (Chain_members m L t ms y Hwf bs Ha) as [[? ?] _];
        [unfold u64 in *; lia|done|done|]. congruence.
    + apply Forall2_cons. split; [|constructor]. by rewrite (ParseMemberKey_key _ _ Hx), lookup_insert_eq.
Qed.
End next.

(** Writing a ref leaves every lineage as it is. *)
Lemma lineage_is_ref m dbn branch o L t db :
  wf_store m → ∀ bs, acyclic (view_of m) L bs → u64 t →
  lineage_is m L t db → lineage_is (<[RefKey dbn branch := o]> m) L t db.
Proof.
  intros Hwf bs Ha Hu (ms & Hms & snap & segs & Hf & Hc). exists ms. rewrite Chain_insert_ref. split; [done|].
  exists snap, segs. split; [|done]. apply fetched_insert; [|done]. intros y Hy E.
  destruct (Chain_members m L t ms y Hwf bs Ha Hu Hms Hy) as [_ Hp]. by rewrite E, ParseMemberKey_RefKey in Hp.
Qed.

Lemma lineage_is_delete_ref m dbn branch L t db :
  wf_store m → ∀ bs, acyclic (view_of m) L bs → u64 t →
  lineage_is m L t db → lineage_is (delete (RefKey dbn branch) m) L t db.
Proof.
  intros Hwf bs Ha Hu (ms & Hms & snap & segs & Hf & Hc). exists ms. rewrite Chain_delete_ref. split; [done|].
  exists snap, segs. split; [|done]. apply fetched_delete; [|done]. intros y Hy E.
  destruct (Chain_members m L t ms y Hwf bs Ha Hu Hms Hy) as [_ Hp]. by rewrite E, ParseMemberKey_RefKey in Hp.
Qed.
End content.
