(* ===== verification/SessionExamples.v ===== *)
(** * Session runs, evaluated

    Concrete runs of the session transition system over [LtxModel]: the
    instances at which the theorems of [SessionRun] are applied, and the run
    in which a flush that follows a rebase writes a segment no reader
    accepts. *)
From Stdlib Require Import Strings.Byte.
From S2P Require Import Prelude Files Wal Ltx LtxProps LtxModel StreamProps Session SessionProps SessionRun.
Local Open Scope N_scope.

#[local] Existing Instance model_lib.

Definition ex_ps : N := 512.

(** A database of [n] pages: a header page, then pages of [b]. *)
Definition ex_page1 (n : N) (b : byte) : bytes :=
  (dbHeaderMagic ++ [x02; x00] ++ replicate 10 x00 ++ PutUint32 n ++ replicate 480 b)%list.
Definition ex_db (n : nat) (b : byte) : bytes :=
  (ex_page1 (N.of_nat n) b ++ replicate (512 * (n - 1)) b)%list.

Definition ex_frame (pgno commit : N) (d : bytes) : Frame := mkFrame (mkFrameHeader pgno commit 0 0 0 0) d.

Definition ex_zero : capState := mkCap [] ∅ 0 0 0 0 false 0 0 0 0 0 false None.

Definition get_ok {A} (d : A) (r : res A) : A := match r with Ok a => a | Err _ => d end.

Lemma ex_db_file (n : nat) b :
  readDBHeader (ex_db n b) = Ok (ex_ps, N.of_nat n) → length (ex_db n b) = N.to_nat (N.of_nat n * ex_ps) →
  1 <= N.of_nat n → N.of_nat n < u32_size - 1 → db_file ex_ps (ex_db n b) (N.of_nat n).
Proof. intros. split; [done|]. split_and!; [split; [done|lia]|done|done]. Qed.

(** ** A run: open, flush, a growing transaction, flush *)

Definition ex_s1 : capState := get_ok ex_zero (sink_Rebase (ex_db 1 x00) ex_zero).
Definition ex_att0 : flushAttempt := mkAttempt 0 false [] 0 0 0.
Definition ex_y1 : sys := mkSys ex_s1 None 0 ([], 0) None.

(** Encode an attempt and let it land. *)
Definition ex_encode (y : sys) : res flushAttempt * capState := flush_encode 16 (sy_head y + 1) (sy_cap y).
Definition ex_attempt (y : sys) : flushAttempt := get_ok ex_att0 (ex_encode y).1.
Definition ex_flight (c : N) (y : sys) : sys :=
  mkSys (ex_encode y).2 (sy_chain y) (sy_head y) (sy_db y) (Some (ex_attempt y, (cs_replica (sy_cap y), c))).
Definition ex_land (c : N) (y : sys) : sys :=
  mkSys (flush_done (ex_attempt y) (sy_cap (ex_flight c y))) (landed_chain (ex_attempt y) (sy_chain (ex_flight c y)))
    (fa_txid (ex_attempt y)) (cs_replica (sy_cap y), c) None.

Definition ex_y2 : sys := ex_land 1 ex_y1.
Definition ex_tx : list Frame := [ex_frame 1 0 (ex_page1 2 x01); ex_frame 2 2 (replicate 512 x07)].
Definition ex_s3 : capState := get_ok ex_zero (sink_Apply ex_ps ex_tx (sy_cap ex_y2)).
Definition ex_y3 : sys := with_cap ex_s3 ex_y2.
Definition ex_y4 : sys := ex_land 2 ex_y3.

Lemma ex_init : init ex_ps ex_y1.
Proof.
  exists ex_zero, (ex_db 1 x00), 1.
  split_and!; [apply (ex_db_file 1 x00); by vm_compute|by vm_compute|done|done|done|done|done|done|done|done].
Qed.

Lemma ex_reach_land strict y c :
  reachable ex_ps 16 strict y → sy_flight y = None → sy_head y + 1 < u64_size →
  db_len ex_ps (cs_replica (sy_cap y)) c →
  (strict → wants_snapshot 16 (sy_head y + 1) (sy_cap y) = false → cs_commit (sy_cap y) = c) →
  is_ok (ex_encode y).1 = true → reachable ex_ps 16 strict (ex_land c y).
Proof.
  intros Hr Hf Hlt Hl Hfresh Hok. eapply reach_step; [eapply reach_step; [exact Hr|]|].
  - apply (st_encode ex_ps 16 strict y (ex_attempt y) (ex_encode y).2 c Hf Hlt Hl Hfresh).
    unfold ex_attempt. fold (ex_encode y). destruct (ex_encode y) as [[a|e] s]; done.
  - apply (st_land ex_ps 16 strict (ex_flight c y) (ex_attempt y) (cs_replica (sy_cap y), c)). done.
Qed.

Lemma ex_chain_snapshot c y :
  fa_snapshot (ex_attempt y) = true → sy_chain (ex_land c y) = Some (fa_object (ex_attempt y), []).
Proof. intros Hs. unfold ex_land, landed_chain. cbn [sy_chain]. by rewrite Hs. Qed.

Lemma ex_chain_segment c y snap segs :
  fa_snapshot (ex_attempt y) = false → sy_chain y = Some (snap, segs) →
  sy_chain (ex_land c y) = Some (snap, (segs ++ [fa_object (ex_attempt y)])%list).
Proof. intros Hs Hc. unfold ex_land, landed_chain. cbn [sy_chain ex_flight]. by rewrite Hs, Hc. Qed.

Lemma ex_reach_y2 strict : reachable ex_ps 16 strict ex_y2.
Proof.
  apply ex_reach_land; [apply reach_init, ex_init|done|done|split; by vm_compute| |by vm_compute].
  intros _ Hw. by vm_compute in Hw.
Qed.

Lemma ex_tx_ok : frames_ok ex_ps ex_tx.
Proof. split; [|done]. repeat constructor; by vm_compute. Qed.

Lemma ex_reach_y3 : reachable ex_ps 16 True ex_y3.
Proof.
  eapply reach_step; [apply ex_reach_y2|].
  apply (st_apply ex_ps 16 True ex_y2 ex_tx ex_s3); [apply ex_tx_ok|by vm_compute|].
  split; [by vm_compute|]. split_and!; [split; by vm_compute|by vm_compute|by vm_compute].
Qed.

Lemma ex_reach_y4 : reachable ex_ps 16 True ex_y4.
Proof.
  apply ex_reach_land; [apply ex_reach_y3|by vm_compute|by vm_compute|split; by vm_compute| |by vm_compute].
  intros _ _. by vm_compute.
Qed.

Lemma ex_valid : 0 < ex_ps ∧ IsValidPageSize ex_ps = true.
Proof. done. Qed.

Definition ex_snap : bytes := fa_object (ex_attempt ex_y1).
Definition ex_seg : bytes := fa_object (ex_attempt ex_y3).

Lemma flush_durable_witness :
  fa_snapshot (ex_attempt ex_y3) = false ∧
  ∃ g, MaterializeChain ex_snap [ex_seg] =
         Ok (g, sy_head ex_y4, db_sum ex_ps (sy_db ex_y4).1 (sy_db ex_y4).2) ∧
       same_db ex_ps g (sy_db ex_y4).1 (sy_db ex_y4).2.
Proof.
  split; [by vm_compute|].
  apply (flush_durable ex_ps (proj1 ex_valid) (proj2 ex_valid) 16 ex_y4 ex_snap [ex_seg]).
  - apply ex_reach_y4.
  - apply (ex_chain_segment 2 ex_y3 ex_snap []); [by vm_compute|].
    apply (ex_chain_snapshot 1 ex_y1). by vm_compute.
Defined.

Lemma idle_is_durable_witness :
  ∃ snap segs g c, sy_chain ex_y4 = Some (snap, segs) ∧ db_file ex_ps (cs_replica (sy_cap ex_y4)) c ∧
    MaterializeChain snap segs = Ok (g, sy_head ex_y4, cs_checksum (sy_cap ex_y4)) ∧
    same_db ex_ps g (cs_replica (sy_cap ex_y4)) c.
Proof.
  apply (idle_is_durable ex_ps (proj1 ex_valid) (proj2 ex_valid) 16 ex_y4).
  - apply ex_reach_y4.
  - by vm_compute.
Defined.

Lemma record_apply_exact_witness :
  (grown ex_ps 2 1 (dom (latest ex_tx)) ∧
   ∃ s', sink_Apply ex_ps ex_tx (sy_cap ex_y2) = Ok s' ∧ db_len ex_ps (cs_replica s') 2 ∧
     checksumPages (cs_replica s') ex_ps 2 = Ok (cs_checksum s')) ∨
  (¬ grown ex_ps 2 1 (dom (latest ex_tx)) ∧ sink_Apply ex_ps ex_tx (sy_cap ex_y2) = Err [EGrowth]).
Proof.
  apply (record_apply_exact ex_ps (proj1 ex_valid) (sy_cap ex_y2) 1 ex_tx).
  - split; by vm_compute.
  - by vm_compute.
  - apply ex_tx_ok.
  - by vm_compute.
  - done.
Defined.

(** ** A flush after a rebase *)

(** A transaction of one page sets the commit size to 1; a rebase then brings
    a replica of two pages. *)
Definition ex_tx1 : list Frame := [ex_frame 1 1 (ex_page1 1 x02)].
Definition ex_z3 : sys := with_cap (get_ok ex_zero (sink_Apply ex_ps ex_tx1 (sy_cap ex_y2))) ex_y2.
Definition ex_z4 : sys := with_cap (get_ok ex_zero (sink_Rebase (ex_db 2 x03) (sy_cap ex_z3))) ex_z3.
Definition ex_z5 : sys := ex_land 2 ex_z4.
Definition ex_z6 : sys := ex_land 2 ex_z5.

Lemma ex_reach_z4 strict : reachable ex_ps 16 strict ex_z4.
Proof.
  eapply reach_step; [eapply reach_step; [apply ex_reach_y2|]|].
  - eapply (st_apply ex_ps 16 strict ex_y2 ex_tx1); [split; [repeat constructor; by vm_compute|done]|by vm_compute|].
    split; [by vm_compute|]. split_and!; [split; by vm_compute|by vm_compute|by vm_compute].
  - apply (st_rebase ex_ps 16 strict ex_z3 (ex_db 2 x03) 2); [apply (ex_db_file 2 x03); by vm_compute|by vm_compute].
Qed.

Lemma ex_reach_z6 : reachable ex_ps 16 False ex_z6.
Proof.
  apply (ex_reach_land False ex_z5 2); [|by vm_compute|by vm_compute|split; by vm_compute|intros []|by vm_compute].
  apply (ex_reach_land False ex_z4 2); [apply ex_reach_z4|by vm_compute|by vm_compute|split; by vm_compute|intros []|by vm_compute].
Qed.

(** C35: A flush that follows a mid-session rebase with no transaction in
    between can leave the branch unreadable.  [rebaseline] leaves [s.commit]
    as the last transaction set it; the flush that follows it is a snapshot
    and clears [forceSnapshot]; a second flush is then a segment that declares
    the stale commit size, and when the rebase changed the page count the
    reader refuses it: the chain of the branch head does not materialize. *)
Theorem stale_commit_unreadable :
  ∃ y snap segs, reachable ex_ps 16 False y ∧ sy_chain y = Some (snap, segs) ∧
    MaterializeChain snap segs = Err [EPostApply].
Proof.
  exists ex_z6, (fa_object (ex_attempt ex_z4)), [fa_object (ex_attempt ex_z5)].
  split_and!; [apply ex_reach_z6| |by vm_compute].
  apply (ex_chain_segment 2 ex_z5 _ []); [by vm_compute|]. apply (ex_chain_snapshot 2 ex_z4). by vm_compute.
Qed.

(** ** Segments and checksums *)

Lemma stream_checksum_exact_witness :
  ∃ sum, checksumPages (ex_db 2 x03) ex_ps 2 = Ok sum ∧ StreamChecksum (N.to_nat (1 * 65536)) (ex_db 2 x03) = Ok sum.
Proof.
  eexists. split; [vm_compute; reflexivity|].
  apply (stream_checksum_exact 1 (ex_db 2 x03)); [done|].
  exists ex_ps, 2. split_and!; by vm_compute.
Defined.

(** A segment that shrinks two pages to one, and one that grows past what it
    carries. *)
Lemma segment_apply_exact_witness :
  ∃ sum, checksumPages (ex_db 2 x03) ex_ps 2 = Ok sum ∧
    ((grown ex_ps 1 2 (dom (pmap [mkPage 1 (ex_page1 1 x05)])) ∧
      ∃ g sum', overlay ex_ps (pmap [mkPage 1 (ex_page1 1 x05)]) (ex_db 2 x03) 1 g ∧
        checksumPages g ex_ps 1 = Ok sum' ∧ ∀ post,
        apply_segment ex_ps 1 2 [mkPage 1 (ex_page1 1 x05)] post (ex_db 2 x03) sum =
          if sum' =? post then Ok (g, post) else Err [EPostApply]) ∨
     (¬ grown ex_ps 1 2 (dom (pmap [mkPage 1 (ex_page1 1 x05)])) ∧ ∀ post,
        apply_segment ex_ps 1 2 [mkPage 1 (ex_page1 1 x05)] post (ex_db 2 x03) sum = Err [EGrowth])).
Proof.
  eexists. split; [vm_compute; reflexivity|].
  apply (segment_apply_exact ex_ps (proj1 ex_valid)).
  - split; [apply NoDup_singleton|]. repeat constructor; by vm_compute.
  - done.
  - done.
  - by vm_compute.
  - vm_compute. reflexivity.
Defined.
