(* ===== verification/Delta.v ===== *)
(** * The checkout's sidecar and the at-rest delta

    [internal/ops/sidecar.go]: [sumRecord], [fingerprint], [fingerprintMatches],
    [stampSumWithFingerprint], [stampCheckpoint], [checkoutState],
    [setSidecarShadow], [dropShadow] and [refreshShadow];
    [internal/ops/chain_cache.go]: [cachedChain] and [chainKeys];
    [internal/ops/checkpoint_delta.go]: [segmentShadow], [diffPages] and
    [planSegment].

    A checkout is the files of one branch's working copy: the database, its
    shadow and the parsed sidecar (absent when it does not decode).  Local file
    operations other than reading an absent file succeed; a function that
    reads the live database several times takes what each read sees, since a
    writer may run in between. *)
From Stdlib Require Import Ascii String Strings.Byte.
From S2P Require Import Prelude GoStrings Keys Refs Files Ltx LtxProps SessionProps.
Local Open Scope N_scope.

(** ** Data *)

Record fingerprint := mkFP {
  fp_size : N;
  fp_mtime : Z;
  fp_change_counter : N;
  fp_wal_mode : bool }.

#[global] Instance fingerprint_eq_dec : EqDecision fingerprint.
Proof. solve_decision. Defined.

Record sumRecord := mkSum {
  sr_hash : string;
  sr_lineage : string;
  sr_epoch : N;
  sr_txid : N;
  sr_checksum : N;
  sr_chain_id : string;
  sr_size : N;
  sr_mtime : Z;
  sr_change_counter : N;
  sr_stamped : Z;
  sr_shadow : bool;
  sr_chain : list string }.

Record checkout := mkCheckout {
  co_file : option bytes;
  co_sidecar : option sumRecord;
  co_shadow : option bytes }.

(** [CheckpointOptions] of [internal/ops/ops.go]. *)
Record CheckpointOptions := mkOptions {
  opt_Snapshot : bool;
  opt_Force : bool;
  opt_LeaseTTL : Z;
  opt_RenewEvery : Z }.

(** The database file as one read sees it, with its modification time. *)
Record live := mkLive { lv_bytes : bytes; lv_mtime : Z }.

(** ** Fingerprints and stamps *)

Definition stampFingerprint (l : live) : fingerprint :=
  let b := lv_bytes l in
  let size := N.of_nat (length b) in
  if 28 <=? size then
    mkFP size (lv_mtime l) (Uint32 BigEndian (slice b 24 28))
      (bool_decide (slice b 18 20 = [x02; x02]))
  else mkFP size (lv_mtime l) 0 false.

Definition fingerprintSafetyMargin : Z := second.

Definition fingerprintMatches (rec : sumRecord) (fp : fingerprint) : bool :=
  if negb (fp_size fp =? sr_size rec) || negb (fp_mtime fp =? sr_mtime rec)%Z then false
  else if negb (fp_wal_mode fp) && negb (fp_change_counter fp =? sr_change_counter rec) then false
  else (sr_mtime rec <? sr_stamped rec - fingerprintSafetyMargin)%Z.

(** [ok] is [Some (fp, stampedNS)] when the caller vouches for a fingerprint. *)
Definition stampSumWithFingerprint (hash lineage : string) (epoch txid checksum : N) (chainID : string)
    (ok : option (fingerprint * Z)) (shadow : bool) (chain : list string) : sumRecord :=
  match ok with
  | Some (fp, ns) =>
      mkSum hash lineage epoch txid checksum chainID (fp_size fp) (fp_mtime fp) (fp_change_counter fp) ns shadow chain
  | None => mkSum hash lineage epoch txid checksum chainID 0 0 0 0 shadow chain
  end.

Definition StampSumHashOnly (hash lineage : string) (epoch txid checksum : N) (chainID : string) : sumRecord :=
  stampSumWithFingerprint hash lineage epoch txid checksum chainID None false [].

Definition untrustedHash (txid : N) : string := ("untrusted:" +:+ fmt_d txid)%string.

(** The fingerprint both stats agree on, with the time before the first. *)
Definition sandwich (before after : option live) (beforeNS : Z) : option (fingerprint * Z) :=
  match before, after with
  | Some a, Some b =>
      if bool_decide (stampFingerprint a = stampFingerprint b) then Some (stampFingerprint b, beforeNS) else None
  | _, _ => None
  end.

(** ** The shadow *)

Definition set_sidecar (r : option sumRecord) (co : checkout) : checkout :=
  mkCheckout (co_file co) r (co_shadow co).

Definition with_shadow (on : bool) (r : sumRecord) : sumRecord :=
  mkSum (sr_hash r) (sr_lineage r) (sr_epoch r) (sr_txid r) (sr_checksum r) (sr_chain_id r) (sr_size r)
    (sr_mtime r) (sr_change_counter r) (sr_stamped r) on (sr_chain r).

Definition setSidecarShadow (on : bool) (co : checkout) : res checkout :=
  match co_sidecar co with
  | None => if on then Err [ECheckout] else Ok co
  | Some rec => if Bool.eqb (sr_shadow rec) on then Ok co else Ok (set_sidecar (Some (with_shadow on rec)) co)
  end.

Definition dropShadow (co : checkout) : checkout :=
  match setSidecarShadow false co with
  | Ok co' => mkCheckout (co_file co') (co_sidecar co') None
  | Err _ => mkCheckout (co_file co) (co_sidecar co) None
  end.

(** [reflink] says whether the file system can clone. *)
Definition refreshShadow (reflink : bool) (co : checkout) : checkout :=
  match co_file co with
  | Some f =>
      if reflink then
        let co1 := mkCheckout (co_file co) (co_sidecar co) (Some f) in
        match setSidecarShadow true co1 with
        | Ok co2 => co2
        | Err _ => dropShadow co1
        end
      else dropShadow co
  | None => dropShadow co
  end.

(** ** The recorded chain *)

(** The loop over the recorded keys: the members, and the index of the first
    key under [own], once an own key was seen nothing else may follow. *)
Fixpoint cached_members (own : string) (keys : list string) (i : nat) (seam : option nat)
    : option (list ChainMember * option nat) :=
  match keys with
  | [] => Some ([], seam)
  | key :: keys =>
      match ParseMemberKey key with
      | None => None
      | Some m =>
          let here := HasPrefix key own in
          match here, seam with
          | false, Some _ => None
          | _, _ =>
              let seam := match seam with None => if here then Some i else None | Some s => Some s end in
              '(ms, seam) ← cached_members own keys (S i) seam;
              Some (m :: ms, seam)
          end
      end
  end.

Fixpoint contiguous_segments (prev : ChainMember) (ms : list ChainMember) : bool :=
  match ms with
  | [] => true
  | m :: ms =>
      negb (m_snapshot m) && (m_min m =? add64 (m_max prev) 1) && contiguous_segments m ms
  end.

(** The conditions where the base spine's half of the chain meets the
    lineage's own, at index [seam]. *)
Definition seam_recorded (ref : Ref) (keys : list string) (ms : list ChainMember) (seam : nat) : bool :=
  match seam with
  | O => true
  | S below =>
      match r_base ref, ms !! below, ms !! seam, keys !! below with
      | Some b, Some lo, Some hi, Some key =>
          (m_max lo =? bp_txid b) && (m_min hi =? add64 (bp_txid b) 1)
          && HasPrefix key (LineagePrefix (bp_lineage b)) && negb (m_snapshot hi)
      | _, _, _, _ => false
      end
  end.

Definition cachedChain (side : option sumRecord) (ref : Ref) : option (list ChainMember) :=
  match side with
  | None => None
  | Some rec =>
      if negb (bool_decide (sr_lineage rec = r_lineage ref)) || negb (sr_epoch rec =? r_head_epoch ref)
         || negb (sr_txid rec =? r_head_txid ref) || bool_decide (sr_chain rec = []) then None
      else
        match cached_members (LineagePrefix (r_lineage ref)) (sr_chain rec) 0 None with
        | Some (m :: ms, Some seam) =>
            if seam_recorded ref (sr_chain rec) (m :: ms) seam
               && m_snapshot m
               && (m_max (List.last ms m) =? r_head_txid ref)
               && (m_epoch (List.last ms m) =? r_head_epoch ref)
               && contiguous_segments m ms
            then Some (m :: ms) else None
        | _ => None
        end
  end.

Definition chainKeys (members : list ChainMember) (extra : string) : list string :=
  ((m_key <$> members) ++ [extra])%list.

(** ** The delta *)

Definition segmentShadow (co : checkout) (ref : Ref) (opts : CheckpointOptions) : option (sumRecord * bytes) :=
  if opt_Snapshot opts || (add64 (r_head_txid ref) 1 <=? 1) then None
  else match co_sidecar co with
  | None => None
  | Some rec =>
      if negb (sr_shadow rec) || (sr_checksum rec =? 0)
         || negb (bool_decide (sr_lineage rec = r_lineage ref))
         || negb (sr_epoch rec =? r_head_epoch ref) || negb (sr_txid rec =? r_head_txid ref) then None
      else match co_shadow co with
      | Some shadow => Some (rec, shadow)
      | None => None
      end
  end.

Record segmentDelta := mkDelta {
  sd_pages : list Page;
  sd_commit : N;
  sd_page_size : N;
  sd_pre : N;
  sd_post : N }.

Definition ForkShareMaxDepth : nat := 16.

Section delta.
  Context `{LtxLib}.

Definition read_upto (f : bytes) (ps commit pgno : N) : res (option bytes) :=
  if pgno <=? commit then b ← read_page f ps pgno; Ok (Some b) else Ok None.

(** One page; the state is the pages to carry, [post] and [shadowSum]. *)
Definition diff_page (lock pgno : N) (curPage oldPage : option bytes) (st : list Page * N * N)
    : list Page * N * N :=
  let '(pages, post, shadowSum) := st in
  if pgno =? lock then st
  else
    let shadowSum := match oldPage with
                     | Some o => UpdateChecksum shadowSum pgno [] o
                     | None => shadowSum
                     end in
    match curPage with
    | None => (pages, UpdateChecksum post pgno (default [] oldPage) [], shadowSum)
    | Some c =>
        if bool_decide (oldPage = Some c) then (pages, post, shadowSum)
        else ((pages ++ [mkPage pgno c])%list, UpdateChecksum post pgno (default [] oldPage) c, shadowSum)
    end.

Fixpoint diff_loop (cur shadow : bytes) (ps lock commit shadowCommit : N) (pgnos : list N)
    (st : list Page * N * N) : res (list Page * N * N) :=
  match pgnos with
  | [] => Ok st
  | pgno :: pgnos =>
      curPage ← read_upto cur ps commit pgno;
      oldPage ← read_upto shadow ps shadowCommit pgno;
      diff_loop cur shadow ps lock commit shadowCommit pgnos (diff_page lock pgno curPage oldPage st)
  end.

(** The pages, the commit size, the page size, [max(commit, shadowCommit)] (of
    which [len(pages)] is the changed fraction) and the checksum after. *)
Definition diffPages (cur shadow : bytes) (pre : N) : res (list Page * N * N * N * N) :=
  '(ps, commit) ← readDBHeader cur;
  '(shadowSize, shadowCommit) ← readDBHeader shadow;
  if negb (shadowSize =? ps) then Err [EPageSizeChanged]
  else
    '(pages, post, shadowSum) ←
      diff_loop cur shadow ps (LockPgno ps) commit shadowCommit (range 1 (N.max commit shadowCommit)) ([], pre, 0);
    if negb (shadowSum =? pre) then Err [EShadowDiverged]
    else Ok (pages, commit, ps, N.max commit shadowCommit, post).

(** [changedFrac >= largeSegmentFraction] is [2 * len(pages) >= total]: both
    counts are below 2^32, so the quotient's rounding does not cross one half. *)
Definition planSegment (snapshotEvery : Z) (co : checkout) (ref : Ref) (members : list ChainMember)
    (opts : CheckpointOptions) : option segmentDelta :=
  match segmentShadow co ref opts, co_file co with
  | Some (rec, shadow), Some cur =>
      let bound := if (snapshotEvery <=? 0)%Z then Z.of_nat ForkShareMaxDepth else snapshotEvery in
      if bool_decide (members = []) || (bound <=? Z.of_nat (length members))%Z then None
      else match diffPages cur shadow (sr_checksum rec) with
      | Err _ => None
      | Ok (pages, commit, ps, total, post) =>
          if (64 <=? commit) && (total <=? 2 * N.of_nat (length pages)) then None
          else Some (mkDelta pages commit ps (sr_checksum rec) post)
      end
  | _, _ => None
  end.

(** ** Stamping a checkpoint, and the state of a checkout *)

Section hashed.
  (** [hex(sha256(_))] of the standard library. *)
  Context (sha256 : bytes → string).

(** What [stampCheckpoint] reads: the file at the first stat, at the hash, at
    the second stat, and whether a non-empty WAL sits beside it. *)
Record stampReads := mkReads {
  rd_before : option live;
  rd_hashed : live;
  rd_after : option live;
  rd_wal : bool;
  rd_ns : Z }.

(** [StreamChecksum]'s only errors on a readable file say that it is not a
    whole database. *)
Definition stampCheckpoint (B : nat) (lineage : string) (epoch txid headSum : N) (headKnown : bool)
    (chain : list string) (rd : stampReads) : bool * sumRecord :=
  let file := lv_bytes (rd_hashed rd) in
  let liveSum := match StreamChecksum B file with Ok s => if rd_wal rd then None else Some s | Err _ => None end in
  match sandwich (rd_before rd) (rd_after rd) (rd_ns rd), liveSum with
  | Some ok, Some s =>
      if headKnown && (s =? headSum) then
        (true, stampSumWithFingerprint (sha256 file) lineage epoch txid headSum "" (Some ok) false chain)
      else (false, StampSumHashOnly (untrustedHash txid) lineage epoch txid 0 "")
  | _, _ => (false, StampSumHashOnly (untrustedHash txid) lineage epoch txid 0 "")
  end.

Inductive coState := Clean | Modified | Stale | Unknown.

(** [checkoutState]: the verdict, the checksum vouched for, and the sidecar as
    it is left. *)
Definition checkoutState (side : option sumRecord) (ref : Ref) (before hashed after : option live) (ns : Z)
    : coState * N * option sumRecord :=
  match side with
  | None => (Unknown, 0, side)
  | Some rec =>
      if negb (bool_decide (sr_lineage rec = r_lineage ref)) || negb (sr_epoch rec =? r_head_epoch ref)
         || negb (sr_txid rec =? r_head_txid ref) then (Stale, 0, side)
      else if match before with Some l => fingerprintMatches rec (stampFingerprint l) | None => false end
      then (Clean, sr_checksum rec, side)
      else match hashed with
      | None => (Unknown, 0, side)
      | Some h =>
          let got := sha256 (lv_bytes h) in
          if negb (bool_decide (got = sr_hash rec)) then (Modified, 0, side)
          else (Clean, sr_checksum rec,
                Some (stampSumWithFingerprint got (r_lineage ref) (r_head_epoch ref) (r_head_txid ref)
                        (sr_checksum rec) (sr_chain_id rec) (sandwich before after ns) (sr_shadow rec) (sr_chain rec)))
      end
  end.
End hashed.
End delta.
