(* ===== verification/DeltaProps.v ===== *)
(** * The at-rest delta is exact

    [diffPages] carries exactly the pages that differ, declares the checksums a
    full scan computes, and the segment encoded from it turns any copy of the
    shadow into the checkout; the chain taken from the sidecar has the shape a
    resolved chain has. *)
From Stdlib Require Import Ascii String Strings.Byte.
From S2P Require Import Prelude GoStrings Keys Refs Files Ltx LtxProps LtxModel StreamProps Session SessionProps Delta.
Local Open Scope N_scope.

Section diff.
  Context `{LtxLib} (ps : N) (Hps : 0 < ps).
  Implicit Types (f g cur shadow : bytes).
  Local Abbreviation lock := (LockPgno ps).
  Local Abbreviation contrib := (contrib ps).
  Local Abbreviation F := ChecksumFlag.

(** [y] is [x] with [v] folded in; only a step that did something sets the flag. *)
Definition folded (x v y : N) : Prop := N.lor F y = N.lor F (N.lxor x v) ∧ ((y = x ∧ v = 0) ∨ N.lor F y = y).

Lemma folded_refl x : folded x 0 x.
Proof. split; [by rewrite N.lxor_0_r|by left]. Qed.

Lemma folded_step x v y w z : folded x v y → z = N.lor F (N.lxor y w) → folded x (N.lxor v w) z.
Proof.
  intros [Hy _] ->. split; [|right; by rewrite N.lor_assoc, N.lor_diag].
  rewrite N.lor_assoc, N.lor_diag, <-(lor_lxor_flag F y), Hy, lor_lxor_flag. by rewrite N.lxor_assoc.
Qed.

Lemma folded_trans x v y w z : folded x v y → folded y w z → folded x (N.lxor v w) z.
Proof.
  intros [Hy Hxy] [Hz Hyz]. split.
  - rewrite Hz, <-(lor_lxor_flag F y), Hy, lor_lxor_flag. by rewrite N.lxor_assoc.
  - destruct Hyz as [[-> ->]|?]; [|by right]. destruct Hxy as [[-> ->]|?]; [by left|by right].
Qed.

(** The pages a delta carries. *)
Definition changed cur shadow (commit sc n : N) : Prop :=
  n ≠ lock ∧ n <= commit ∧ (sc < n ∨ page cur ps n ≠ page shadow ps n).

#[local] Instance changed_dec cur shadow commit sc n : Decision (changed cur shadow commit sc n).
Proof. unfold changed. apply _. Defined.

Definition diff_list cur shadow (commit sc : N) (L : list N) : list Page :=
  (λ n, mkPage n (page cur ps n)) <$> filter (changed cur shadow commit sc) L.

Lemma read_upto_ok f c n :
  c < u32_size → c * ps <= N.of_nat (length f) → 1 <= n →
  read_upto f ps c n = Ok (if n <=? c then Some (page f ps n) else None)
  ∧ (n <= c → length (page f ps n) = N.to_nat ps).
Proof.
  intros Hc Hl Hn. unfold read_upto. destruct (N.leb_spec n c) as [Hle|Hle]; [|split; [done|lia]].
  assert (has_page f ps n) as Hp by (apply (has_page_commit ps Hps f c); lia).
  unfold read_page. rewrite ReadAt_page by done. split; [done|]. intros _. by apply length_page.
Qed.

Lemma contrib_page f c n : 1 <= n → n <= c → n ≠ lock → contrib f c n = ChecksumPage n (page f ps n).
Proof.
  intros ? ? ?. unfold LtxProps.contrib.
  rewrite (proj2 (N.leb_le 1 n)), (proj2 (N.leb_le n c)), (proj2 (N.eqb_neq n lock)) by done. done.
Qed.

Lemma xorsum_snoc c L n : xorsum c (n :: L) = N.lxor (c n) (xorsum c L).
Proof. done. Qed.

Definition upto f (c n : N) : option bytes := if n <=? c then Some (page f ps n) else None.

Lemma old_part_upto f c n :
  c < u32_size → c * ps <= N.of_nat (length f) → 1 <= n → n ≠ lock →
  old_part n (default [] (upto f c n)) = contrib f c n.
Proof.
  intros Hc Hl Hn Hlk. destruct (read_upto_ok f c n Hc Hl Hn) as [_ Hlen]. unfold upto.
  destruct (N.leb_spec n c); cbn [default].
  - rewrite (old_part_page ps Hps) by auto. by rewrite contrib_page.
  - by rewrite contrib_above, old_part_nil.
Qed.

Lemma folded_update x n d e : folded x (N.lxor (old_part n d) (old_part n e)) (UpdateChecksum x n d e).
Proof.
  rewrite UpdateChecksum_xor, N.lxor_assoc, <-(N.lxor_0_l (N.lxor _ _)).
  eapply folded_step; [apply folded_refl|]. by rewrite N.lxor_0_l.
Qed.

Lemma diff_page_ok cur shadow commit sc n pages post ssum :
  commit < u32_size → sc < u32_size → commit * ps <= N.of_nat (length cur) → sc * ps <= N.of_nat (length shadow) →
  1 <= n → n <= N.max commit sc →
  ∃ post' ssum',
    diff_page lock n (upto cur commit n) (upto shadow sc n) (pages, post, ssum)
      = ((pages ++ diff_list cur shadow commit sc [n])%list, post', ssum')
    ∧ folded post (N.lxor (contrib shadow sc n) (contrib cur commit n)) post'
    ∧ folded ssum (contrib shadow sc n) ssum'.
Proof.
  intros Hc Hs Hlc Hls Hn1 Hn2. unfold diff_page, diff_list. rewrite filter_cons, filter_nil.
  destruct (N.eqb_spec n lock) as [Elk|Elk].
  { exists post, ssum. rewrite decide_False by (intros [? _]; done). subst n.
    rewrite !contrib_lock, app_nil_r. split_and!; [done| |]; apply folded_refl. }
  assert (folded ssum (contrib shadow sc n)
    (match upto shadow sc n with Some o => UpdateChecksum ssum n [] o | None => ssum end)) as Hs1.
  { rewrite <-(old_part_upto shadow sc n) by done. destruct (upto shadow sc n) as [o|]; cbn [default].
    - pose proof (folded_update ssum n [] o) as Hu. by rewrite old_part_nil, N.lxor_0_l in Hu.
    - rewrite old_part_nil. apply folded_refl. }
  rewrite <-(old_part_upto shadow sc n) in Hs1 |- * by done. rewrite <-(old_part_upto cur commit n) by done.
  destruct (upto cur commit n) as [c|] eqn:Ec; unfold upto in Ec.
  2: { destruct (N.leb_spec n commit); [done|]. eexists _, _. split_and!; [|apply folded_update|exact Hs1].
       rewrite decide_False by (intros (_ & ? & _); lia). by rewrite app_nil_r. }
  destruct (N.leb_spec n commit); [|done]. injection Ec as <-. case_bool_decide as Eq.
  - rewrite Eq. cbn [default]. rewrite N.lxor_nilpotent. eexists _, _. split_and!; [|apply folded_refl|rewrite Eq in Hs1; exact Hs1].
    unfold upto in Eq. destruct (N.leb_spec n sc); [|done]. injection Eq as Eq.
    rewrite decide_False by (intros (_ & _ & [?|?]); [lia|congruence]). by rewrite app_nil_r.
  - eexists _, _. split_and!; [|apply folded_update|exact Hs1].
    rewrite decide_True; [done|]. split_and!; [done..|]. unfold upto in Eq.
    destruct (N.leb_spec n sc); [right; congruence|by left].
Qed.

Lemma lxor_swap a b c d : N.lxor (N.lxor a b) (N.lxor c d) = N.lxor (N.lxor a c) (N.lxor b d).
Proof. rewrite !N.lxor_assoc. f_equal. rewrite <-!N.lxor_assoc. f_equal. apply N.lxor_comm. Qed.

Lemma diff_loop_ok cur shadow commit sc L : ∀ pages post ssum,
  commit < u32_size → sc < u32_size → commit * ps <= N.of_nat (length cur) → sc * ps <= N.of_nat (length shadow) →
  (∀ n, n ∈ L → 1 <= n ∧ n <= N.max commit sc) →
  ∃ post' ssum',
    diff_loop cur shadow ps lock commit sc L (pages, post, ssum)
      = Ok ((pages ++ diff_list cur shadow commit sc L)%list, post', ssum')
    ∧ folded post (N.lxor (xorsum (contrib shadow sc) L) (xorsum (contrib cur commit) L)) post'
    ∧ folded ssum (xorsum (contrib shadow sc) L) ssum'.
Proof.
  induction L as [|n L IH]; intros pages post ssum Hc Hs Hlc Hls HL.
  { exists post, ssum. simpl. rewrite app_nil_r. split_and!; [done|..]; apply folded_refl. }
  destruct (HL n ltac:(left)) as [Hn1 Hn2]. cbn [diff_loop].
  destruct (read_upto_ok cur commit n Hc Hlc Hn1) as [-> _].
  destruct (read_upto_ok shadow sc n Hs Hls Hn1) as [-> _]. cbn [mbind res_bind].
  destruct (diff_page_ok cur shadow commit sc n pages post ssum) as (post1 & ssum1 & Ep & Hpost & Hsum); [done..|].
  unfold upto in Ep. rewrite Ep.
  destruct (IH (pages ++ diff_list cur shadow commit sc [n])%list post1 ssum1) as (post' & ssum' & E & Hp & Hs');
    [done..|intros; apply HL; by right|].
  exists post', ssum'. rewrite !xorsum_snoc. split_and!.
  - rewrite E. unfold diff_list. rewrite <-app_assoc, <-fmap_app, <-filter_app. done.
  - rewrite lxor_swap. by eapply folded_trans.
  - by eapply folded_trans.
Qed.

(** ** The delta as a map *)

Lemma pmap_diff cur shadow commit sc L n :
  NoDup L → pmap (diff_list cur shadow commit sc L) !! n =
    if decide (n ∈ L ∧ changed cur shadow commit sc n) then Some (page cur ps n) else None.
Proof.
  intros Hnd. apply option_eq. intros d. split.
  - intros (p & Hp & <- & <-)%pmap_Some. apply list_elem_of_fmap in Hp as (k & -> & Hk).
    apply list_elem_of_filter in Hk as [? ?]. cbn [pg_no pg_data]. by rewrite decide_True.
  - destruct (decide _) as [[Hin Hch]|]; [|done]. intros [= <-]. unfold pmap, diff_list.
    apply elem_of_list_to_map_1.
    + rewrite <-!list_fmap_compose. erewrite list_fmap_ext; [rewrite list_fmap_id|done]. by apply list.NoDup_filter.
    + rewrite <-list_fmap_compose. apply list_elem_of_fmap. exists n. split; [done|]. by apply list_elem_of_filter.
Qed.

Lemma diff_delta cur shadow commit sc :
  db_len ps cur commit → db_len ps shadow sc →
  let L := range 1 (N.max commit sc) in
  delta ps (pmap (diff_list cur shadow commit sc L)) shadow sc cur commit.
Proof.
  intros [Hl Hc] [Hls Hsc] L. assert (NoDup L) as Hnd by apply NoDup_range. split_and!.
  - split; [done|]. intros n H1 H2 Hnl. rewrite pmap_diff by done.
    destruct (decide _) as [|Hn]; [done|]. cbn [default].
    destruct (decide (page cur ps n = page shadow ps n)) as [|Hne]; [done|]. destruct Hn.
    split; [apply elem_of_range; lia|]. split_and!; [done..|by right].
  - intros n H1 H2 Hnl. apply elem_of_dom. rewrite pmap_diff by done. rewrite decide_True; [done|].
    split; [apply elem_of_range; lia|]. split_and!; [done..|by left].
  - intros n d. rewrite pmap_diff by done. destruct (decide _) as [[Hin (_ & ? & _)]|]; [|done]. intros [= <-].
    apply elem_of_range in Hin as [? _]. split_and!; [done..|]. apply length_page, (has_page_commit ps Hps cur commit); lia.
Qed.

Lemma diff_list_sorted cur shadow commit sc M :
  StronglySorted (λ p q, pg_no p < pg_no q) (diff_list cur shadow commit sc (range 1 M)).
Proof.
  unfold diff_list. pose proof (StronglySorted_filter N.lt (changed cur shadow commit sc) _ (StronglySorted_range 1 M)) as Hs.
  induction Hs as [|n l Hs IH Hf]; [constructor|]. rewrite fmap_cons. constructor; [done|].
  apply Forall_fmap. eapply Forall_impl; [exact Hf|]. by intros.
Qed.

#[local] Instance pgno_le_trans : Transitive pgno_le.
Proof. intros p q r. unfold pgno_le. lia. Qed.
#[local] Instance pgno_le_total : Total pgno_le.
Proof. intros p q. unfold pgno_le. lia. Qed.

(** Draining a map of sorted pages gives the pages back. *)
Lemma drain_pmap (l : list Page) :
  StronglySorted (λ p q, pg_no p < pg_no q) l → (drain (pmap l)).1 = l.
Proof.
  intros Hs.
  assert (∀ p q, p ∈ l → q ∈ l → pg_no p = pg_no q → p = q) as Hinj.
  { clear -Hs. induction Hs as [|x l Hs IH Hf]; [by intros ?? ?%elem_of_nil|]. rewrite Forall_forall in Hf.
    intros p q [->|Hp]%elem_of_cons [->|Hq]%elem_of_cons E; [done|..].
    - specialize (Hf q Hq). simpl in Hf. lia.
    - specialize (Hf p Hp). simpl in Hf. lia.
    - auto. }
  assert (NoDup (pg_no <$> l)) as Hnd.
  { clear -Hs. induction Hs as [|x l Hs IH Hf]; [constructor|]. rewrite fmap_cons. apply NoDup_cons. split; [|done].
    intros (q & Eq & Hq)%list_elem_of_fmap. rewrite Forall_forall in Hf. specialize (Hf q Hq). simpl in Hf. lia. }
  unfold drain. cbn [fst]. apply (StronglySorted_unique_strong pgno_le).
  - intros p q Hp Hq Hpq Hqp. rewrite elem_of_sort_by in Hp. apply list_elem_of_fmap in Hp as ([k d] & -> & Hp).
    apply elem_of_map_to_list in Hp. apply pmap_Some in Hp as (p' & Hp' & <- & <-).
    apply Hinj; [by destruct p'|done|]. unfold pgno_le in *. simpl in *. lia.
  - apply sort_by_sorted; apply _.
  - clear -Hs. induction Hs as [|x l Hs IH Hf]; constructor; [done|]. eapply Forall_impl; [exact Hf|].
    intros y Hy. unfold pgno_le. simpl in Hy. lia.
  - rewrite sort_by_perm. unfold pmap, pageSet.
    rewrite map_to_list_to_map by by rewrite <-list_fmap_compose.
    rewrite <-list_fmap_compose. erewrite list_fmap_ext; [by rewrite list_fmap_id|]. by intros ? [] ?.
Qed.
End diff.

(** ** The checksums a delta declares *)

Section plan.
  Context `{LtxLib}.
  Implicit Types (cur shadow : bytes).

Lemma readDBHeader_page_size (f : bytes) ps c : readDBHeader f = Ok (ps, c) → IsValidPageSize ps = true ∧ 0 < ps ∧ u32 c.
Proof. intros [Hv Hn]%readDBHeader_valid. split_and!; [done|by apply valid_page_size_pos|done]. Qed.

Lemma diffPages_ok cur shadow pre pages commit ps total post c :
  diffPages cur shadow pre = Ok (pages, commit, ps, total, post) → pre ≠ 0 →
  readDBHeader shadow = Ok (ps, c) → db_len ps cur commit → db_len ps shadow c →
  pages = diff_list ps cur shadow commit c (range 1 (N.max commit c)) ∧ total = N.max commit c
  ∧ readDBHeader cur = Ok (ps, commit)
  ∧ pre = db_sum ps shadow c ∧ post = db_sum ps cur commit.
Proof.
  unfold diffPages. intros Hd Hpre Hsh Hlc Hls.
  destruct (readDBHeader cur) as [[ps' commit']|] eqn:Hcur; [|done]. rewrite Hsh in Hd. cbn [mbind res_bind] in Hd.
  destruct (N.eqb_spec ps ps') as [<-|]; [|done]. cbn [negb] in Hd.
  destruct (readDBHeader_page_size _ _ _ Hsh) as (_ & Hps & _).
  destruct (diff_loop cur shadow ps (LockPgno ps) commit' c _ _) as [[[pages' post'] ssum]|] eqn:El; [|done].
  cbn [mbind res_bind] in Hd. destruct (N.eqb_spec ssum pre) as [->|]; [|done]. cbn [negb] in Hd. simplify_eq.
  destruct Hlc as [Hlc Hc], Hls as [Hls Hsc].
  destruct (diff_loop_ok ps Hps cur shadow commit c (range 1 (N.max commit c)) [] pre 0)
    as (post1 & ssum1 & E & Hpost & Hsum); [done|done|rewrite Hlc; lia|rewrite Hls; lia|by intros n ?%elem_of_range|].
  rewrite El in E. simplify_eq.
  destruct Hsum as [Hs1 [[-> _]|Hs2]]; [done|]. rewrite N.lxor_0_l, xorsum_contrib, Hs2 in Hs1 by lia. fold (db_sum ps shadow c) in Hs1.
  destruct Hpost as [Hp1 Hp2]. split_and!; try done.
  assert (N.lor ChecksumFlag post1 = post1) as Hf.
  { destruct Hp2 as [[-> _]|?]; [|done]. done. }
  rewrite Hf in Hp1. rewrite Hp1, Hs1. unfold db_sum.
  rewrite lor_lxor_flag, (xorsum_contrib ps Hps shadow c (N.max commit c)), (xorsum_contrib ps Hps cur commit (N.max commit c)), <-N.lxor_assoc, N.lxor_nilpotent, N.lxor_0_l by lia. done.
Qed.

(** C32: The at-rest delta round trips.  When [diffPages] of a checkout against a
    shadow succeeds for a recorded checksum, the pages it returns are exactly
    those that differ or lie past the shadow's end (the lock page apart), both
    checksums are the ones a full scan computes, the segment encodes, and
    applying it to any copy of the shadow is accepted and yields the checkout. *)
Theorem delta_roundtrip cur shadow pre pages commit ps total post c txid f1 :
  diffPages cur shadow pre = Ok (pages, commit, ps, total, post) → pre ≠ 0 →
  readDBHeader shadow = Ok (ps, c) → db_ok ps cur commit → db_len ps shadow c →
  2 <= txid → txid < u64_size → same_db ps f1 shadow c →
  checksumPages shadow ps c = Ok pre ∧ checksumPages cur ps commit = Ok post
  ∧ (∀ n, n ∈ pg_no <$> pages ↔
       1 <= n ∧ n <= commit ∧ n ≠ LockPgno ps ∧ (c < n ∨ page cur ps n ≠ page shadow ps n))
  ∧ ∃ obj g, EncodeSegment ps commit txid txid pre post pages = Ok obj
      ∧ applySegments true f1 ps (txid - 1) c pre [obj] = Ok (g, txid, post)
      ∧ same_db ps g cur commit.
Proof.
  intros Hd Hpre Hsh Hok Hls Ht1 Ht2 Hsame. pose proof Hok as (Hlc & Hc1 & Hc2).
  destruct (readDBHeader_page_size _ _ _ Hsh) as (Hv & Hps & _).
  destruct (diffPages_ok _ _ _ _ _ _ _ _ _ Hd Hpre Hsh Hlc Hls) as (-> & _ & _ & -> & ->).
  assert (delta ps (pmap (diff_list ps cur shadow commit c (range 1 (N.max commit c)))) shadow c cur commit) as Hdl
    by by apply diff_delta.
  split_and!.
  - apply checksumPages_sum; [done|apply Hls|rewrite (proj1 Hls); lia].
  - apply checksumPages_sum; [done|apply Hlc|rewrite (proj1 Hlc); lia].
  - intros n. unfold diff_list. rewrite <-list_fmap_compose. erewrite list_fmap_ext; [rewrite list_fmap_id|done].
    rewrite list_elem_of_filter, elem_of_range. unfold changed. split; [intros ((? & ? & ?) & ? & ?)|intros (? & ? & ? & ?)];
      split_and!; done || lia.
  - destruct (EncodeSegment_ok ps Hps _ _ _ _ _ txid Hv Hdl Hok Ht1 Ht2) as (obj & He & Hh & Hb).
    rewrite (drain_pmap ps Hps) in He by by apply diff_list_sorted.
    destruct (segment_applies ps Hps _ _ _ _ _ txid f1 obj true Hv Hdl Hok Ht1 Ht2 Hsame Hh Hb) as (g & Ha & Hg).
    by exists obj, g.
Qed.
End plan.

(** ** The recorded chain *)

(** A contiguous run that starts right after [prev]. *)
Lemma contiguous_segments_spec ms : ∀ prev,
  contiguous_segments prev ms = true →
  ∀ i m, ms !! i = Some m → m_snapshot m = false
    ∧ ∃ p, (prev :: ms) !! i = Some p ∧ m_min m = add64 (m_max p) 1.
Proof.
  induction ms as [|x ms IH]; intros prev Hc i m Hi; [done|]. cbn [contiguous_segments] in Hc.
  bool_to_prop. destruct i as [|i]; simpl in *; [simplify_eq; split; [done|by exists prev]|]. by eapply IH.
Qed.
