(* ===== verification/Checkpoint.v ===== *)
(** * At-rest checkpoints: the lease, the upload and the head write

    [internal/ops/checkpoint_lease.go] and [Workspace.CheckpointWith],
    [checkpointLeased], [verifyOwnObject] of [internal/ops/ops.go].

    The renewals run in a goroutine of their own: as one of the processes the
    schedule's ticks stand for, by [renew_tick] below.  What the checkpoint
    itself learns of them is the cancel cause at its two checks, [rn_lost] and
    [rn_stop] of [checkpointEnv], which also carries what the call reads of its
    machine: the nonce, the result of SQLite's quiesce, the file at the stamp. *)
From Stdlib Require Import Ascii String Strings.Byte.
From S2P Require Import Prelude GoStrings Keys Refs Backend Chain Store Lease Files Ltx Content Delta.
Local Open Scope string_scope.

(** ** Options and results *)

Definition DefaultLeaseTTL : Z := 30 * second.

Definition leaseTTL (o : CheckpointOptions) : Z :=
  if (0 <? opt_LeaseTTL o)%Z then opt_LeaseTTL o else DefaultLeaseTTL.

Definition renewEvery (o : CheckpointOptions) (ttl : Z) : Z :=
  if (0 <? opt_RenewEvery o)%Z then opt_RenewEvery o
  else if (0 <? Z.quot ttl 3)%Z then Z.quot ttl 3 else 1000000.

Record CheckpointResult := mkResult {
  res_TXID : N;
  res_Kind : string;
  res_Pages : nat;
  res_Bytes : nat }.

Definition newCheckpointHolder (host_pid nonce : string) : string := newHolder "checkpoint" host_pid nonce.

(** ** Preconditions *)

Definition checkpointPreconditions (name : string) (co : checkout) (ref : Ref) (opts : CheckpointOptions) : res unit :=
  match r_checkpoints ref !! name with
  | Some _ => Err [EExists]
  | None =>
      match co_file co with
      | None => Err [ECheckout]
      | Some _ =>
          match co_sidecar co with
          | Some rec =>
              if negb (bool_decide (sr_lineage rec = r_lineage ref)) && negb (opt_Force opts)
              then Err [ErrDetachedCheckout] else Ok tt
          | None => Ok tt
          end
      end
  end.

(** [CheckpointWith]'s check of the ref its acquire reads, at instant [t]. *)
Definition checkpoint_check (holder name : string) (co : checkout) (opts : CheckpointOptions) (t : Z) (ref : Ref)
    : res unit :=
  let guard := if bool_decide (r_lease_holder ref = holder)
               then set_lease_expiry NoStamp (set_lease_holder "" ref) else ref in
  _ ← refuseIfHeld guard "checkpoint" false t;
  checkpointPreconditions name co ref opts.

(** ** The lease *)

(** The zero [time.Time], in nanoseconds from the Unix epoch. *)
Definition zero_time : Z := -62135596800 * second.

Definition leaseOn (db branch holder : string) (ref : Ref) : Lease :=
  mkLease db branch holder (r_epoch ref) (default zero_time (parse_stamp (r_lease_expiry ref))).

(** The lease when adopted, and the ref re-read. *)
Definition SettleAcquire (db branch holder : string) : IO (option Lease * Ref) :=
  '(ref, _) ← GetRef db branch;
  if bool_decide (r_lease_holder ref = holder) then mret (Some (leaseOn db branch holder ref), ref)
  else mret (None, ref).

Fixpoint release_attempts (n : nat) (l : Lease) : IO unit :=
  match n with
  | O => mret tt
  | S n =>
      g ← try (GetRef (l_db l) (l_branch l));
      let again (l : Lease) :=
        r ← try (ReleaseLease l);
        match r with
        | Ok _ => mret tt
        | Err e => if errors_Is e ErrCAS then release_attempts n l else mret tt
        end in
      match g with
      | Ok (ref, _) =>
          if r_deleting ref || r_reaping ref then mret tt
          else again (if bool_decide (r_lease_holder ref = l_holder l) && (r_epoch ref =? l_epoch l)%N
                      then match parse_stamp (r_lease_expiry ref) with
                           | Some t => mkLease (l_db l) (l_branch l) (l_holder l) (l_epoch l) t
                           | None => l
                           end
                      else l)
      | Err _ => again l
      end
  end.

Definition releaseCheckpointLease (l : Lease) : IO unit := release_attempts 3 l.

(** [AcquireLeaseRefIf] with what its check was called on and answered, as the
    closure [checked] records them. *)
Definition acquire_checked (db branch holder : string) (ttl now : Z) (check : Z → Ref → res unit)
    : IO (option (Ref * res unit) * res (Lease * Ref * etag)) :=
  if bool_decide (holder = "") then mret (None, Err [EHolderEmpty]) else
  g ← try (GetRef db branch);
  match g with
  | Err e => mret (None, Err e)
  | Ok (ref, tag) =>
      t ← Backend.now;
      match check t ref with
      | Err e => mret (Some (ref, Err e), Err e)
      | Ok _ =>
          r ← try (acquire_write db branch holder ttl now ref tag);
          mret (Some (ref, Ok tt), r)
      end
  end.

Definition checkpointAcquireAttempts : nat := 2.

(** [retries] attempts may follow this one. *)
Fixpoint acquire_attempts (retries : nat) (db branch holder : string) (ttl : Z) (check : Z → Ref → res unit)
    : IO (Lease * Ref) :=
  t0 ← now;
  '(seen, result) ← acquire_checked db branch holder ttl t0 check;
  match result with
  | Ok (lease, ref, _) => mret (lease, ref)
  | Err aerr =>
      match seen with
      | Some (read, Err refused) =>
          _ ← (if bool_decide (r_lease_holder read = holder)
               then releaseCheckpointLease (leaseOn db branch holder read) else mret tt);
          fail refused
      | None => fail aerr
      | Some (read, Ok _) =>
          s ← try (SettleAcquire db branch holder);
          match s with
          | Err _ => fail aerr
          | Ok (Some adopted, cur) =>
              t ← now;
              match check t cur with
              | Err cerr => _ ← releaseCheckpointLease adopted; fail cerr
              | Ok _ => mret (adopted, cur)
              end
          | Ok (None, cur) =>
              t ← now;
              _ ← lift (refuseIfHeld cur "checkpoint" false t);
              if errors_Is aerr ErrLeaseHeld
                 && (negb (r_epoch cur =? r_epoch read)%N || negb (bool_decide (r_lineage cur = r_lineage read)))
              then fail [ErrLeaseHeld]
              else if errors_Is aerr ErrLeaseHeld then
                match retries with
                | S retries => acquire_attempts retries db branch holder ttl check
                | O => fail aerr
                end
              else fail aerr
          end
      end
  end.

Definition acquireCheckpointLease (db branch holder : string) (ttl : Z) (check : Z → Ref → res unit) : IO (Lease * Ref) :=
  acquire_attempts (checkpointAcquireAttempts - 1) db branch holder ttl check.

(** ** Renewals *)

Definition renewErrTerminal (e : error) : bool := errors_Is e ErrLeaseLost || errors_Is e ErrNotFound.

(** One tick of the renewer: the lease to renew next, or the terminal error it
    cancels the checkpoint with. *)
Definition renew_tick (l : Lease) (ttl : Z) : IO (res Lease) :=
  t ← now;
  r ← try (RenewLease l ttl t);
  match r with
  | Ok next => mret (Ok next)
  | Err e => if renewErrTerminal e then mret (Err e) else mret (Ok l)
  end.

(** ** The head write *)

Record checkpointCommit := mkCommit {
  c_db : string;
  c_branch : string;
  c_name : string;
  c_meta : gmap string string;
  c_kind : string;
  c_lease : Lease;
  c_lineage : string;
  c_txid : N }.

Section commit.
  Context (c : checkpointCommit).

Definition ours (cur : Ref) : bool :=
  bool_decide (r_lease_holder cur = l_holder (c_lease c)) && (r_epoch cur =? l_epoch (c_lease c))%N
  && bool_decide (r_lineage cur = c_lineage c) && (r_head_txid cur =? sub64 (c_txid c) 1)%N.

Definition premise (cur : Ref) : bool := ours cur && negb (r_deleting cur) && negb (r_reaping cur).

Definition headUnderOurEpoch (cur : Ref) : bool :=
  bool_decide (r_lineage cur = c_lineage c) && (r_head_epoch cur =? l_epoch (c_lease c))%N
  && (c_txid c <=? r_head_txid cur)%N.

Definition advance (t : Z) (cur : Ref) : Ref :=
  Touch t (set_lease_expiry NoStamp (set_lease_holder ""
    (SetCheckpoint (c_name c) (mkCheckpoint (c_txid c) (l_epoch (c_lease c)) (nowStamp t) (c_meta c) (c_kind c))
      (set_head_epoch (l_epoch (c_lease c)) (set_head_txid (c_txid c) cur))))).

Definition lostTo (cur : Ref) : error :=
  if r_deleting cur then [ErrDeleting]
  else if r_reaping cur then [ErrReaping]
  else [ErrLeaseLost].

Definition claimedAfterWrite (cur : Ref) (writeErr : error) : error :=
  (EMayHaveCommitted :: writeErr ++ [if r_deleting cur then ErrDeleting else ErrReaping])%list.

Definition mayHaveCommitted (e : error) : error := EMayHaveCommitted :: e.

Definition landed (cur : Ref) : bool :=
  match r_checkpoints cur !! c_name c with
  | Some cp => bool_decide (r_lineage cur = c_lineage c) && (cp_txid cp =? c_txid c)%N
               && (cp_epoch cp =? l_epoch (c_lease c))%N
  | None => false
  end.

Definition unreferenced (cur : Ref) : bool :=
  bool_decide (r_lineage cur = c_lineage c) && (r_head_txid cur <? c_txid c)%N.

Definition checkpointCommitAttempts : nat := 3.

(** [n] head writes may still be sent, [last] is the error of the last one
    sent and [unsettled] of the last one refused without a conflict.  The
    answer is [deletable] and the ref committed or the error. *)
Fixpoint commit_attempts (n : nat) (last : option error) (unsettled : option error) : IO (bool * res Ref) :=
  g ← try (GetRef (c_db c) (c_branch c));
  match g with
  | Err gerr =>
      match last with
      | None => mret (true, Err gerr)
      | Some _ => if errors_Is gerr ErrNotFound then mret (false, Err gerr) else mret (false, Err (mayHaveCommitted gerr))
      end
  | Ok (cur, tag) =>
      if bool_decide (is_Some last) && landed cur then mret (false, Ok cur)
      else if negb (premise cur) then
        match last with
        | None => if headUnderOurEpoch cur then mret (false, Err (lostTo cur)) else mret (true, Err (lostTo cur))
        | Some lastErr =>
            if ours cur then mret (false, Err (claimedAfterWrite cur lastErr))
            else if unreferenced cur then mret (true, Err (lostTo cur))
            else mret (false, Err (mayHaveCommitted lastErr))
        end
      else
        match n with
        | O => mret (false, Err (match unsettled with Some u => mayHaveCommitted u | None => default [] last end))
        | S n =>
            t ← now;
            let next := advance t cur in
            p ← try (PutRef (c_db c) (c_branch c) next tag);
            match p with
            | Ok _ => mret (false, Ok next)
            | Err perr =>
                commit_attempts n (Some perr) (if errors_Is perr ErrCAS then unsettled else Some perr)
            end
        end
  end.

Definition commitCheckpoint : IO (bool * res Ref) := commit_attempts checkpointCommitAttempts None None.
End commit.

(** ** The object *)

Definition bestEffortDelete (key : string) : IO unit := _ ← try (Delete key); mret tt.

Definition putCheckpointObject (key : string) (data : bytes) : IO etag :=
  r ← try (PutIf key (obj_of data) NoTag);
  match r with
  | Ok tag => mret tag
  | Err e =>
      if negb (errors_Is e ErrCAS) then _ ← bestEffortDelete key; fail e
      else
        g ← try (Get key);
        match g with
        | Ok (got, gotTag) => if bool_decide (got = obj_of data) then mret gotTag else fail e
        | Err gerr => if errors_Is gerr ErrNotFound then fail e else fail (e ++ gerr)%list
        end
  end.

Definition same_etag (a b : etag) : bool :=
  match a, b with
  | OtherTag s, OtherTag t => bool_decide (NormalizeETag s = NormalizeETag t)
  | _, _ => bool_decide (a = b)
  end.

Section checkpoint.
  Context `{LtxLib}.

Definition TrailerPostApplyChecksum (data : bytes) : res N :=
  _ ← ltx_decode_header data;
  '(_, post) ← ltx_decode_body data;
  Ok post.

Definition objectChecksum (got : res (object * etag)) : option N :=
  match got with
  | Err _ => None
  | Ok (OBytes s, _) => match TrailerPostApplyChecksum (list_byte_of_string s) with Ok sum => Some sum | Err _ => None end
  | Ok _ => None
  end.

Definition verifyOwnObject (key : string) (ownEtag : etag) (checksum : N) : IO (option N) :=
  h ← try (Head key);
  match h with
  | Err _ => mret (Some checksum)
  | Ok tag =>
      if negb (bool_decide (ownEtag = NoTag)) && same_etag tag ownEtag then mret (Some checksum)
      else g ← try (Get key); mret (objectChecksum g)
  end.

(** ** The checkpoint *)

Record checkpointEnv := mkEnv {
  en_host_pid : string;
  en_nonce : string;
  en_quiesce : res bytes;       (* SQLite's wal_checkpoint(TRUNCATE): the file it leaves *)
  rn_lost : option error;       (* the renewer's terminal error before the upload *)
  rn_stop : option error;       (* and when it is joined *)
  en_stamp : stampReads;
  en_reflink : bool;
  en_block : nat;               (* StreamChecksum's block size *)
  en_snapshotEvery : Z;
  en_sha256 : bytes → string }.

(** The head's chain: the recorded one, or the one the store resolves. *)
Definition headChain (side : option sumRecord) (ref : Ref) : IO (list ChainMember) :=
  match cachedChain side ref with
  | Some members => mret members
  | None => reads (λ v, Chain v (r_lineage ref) (r_head_txid ref))
  end.

(** What a checkpoint uploads. *)
Record encoded := mkEncoded {
  e_key : string;
  e_data : bytes;
  e_checksum : N;
  e_kind : string;
  e_pages : nat;
  e_chain : list string }.

(** The segment [planSegment] allows, else a snapshot. *)
Definition encode_checkpoint (snapshotEvery : Z) (co : checkout) (file : bytes) (ref : Ref)
    (members : list ChainMember) (opts : CheckpointOptions) (epoch txid : N) : res encoded :=
  match planSegment snapshotEvery co ref members opts with
  | Some d =>
      data ← EncodeSegment (sd_page_size d) (sd_commit d) txid txid (sd_pre d) (sd_post d) (sd_pages d);
      let key := SegmentKey (r_lineage ref) epoch txid txid in
      Ok (mkEncoded key data (sd_post d) "segment" (length (sd_pages d)) (chainKeys members key))
  | None =>
      '(data, checksum) ← EncodeSnapshot file txid;
      let key := SnapshotKey (r_lineage ref) epoch txid in
      Ok (mkEncoded key data checksum "snapshot" 0 [key])
  end.

(** The stamp after the head write: the checkout as it is left. *)
Definition stamp_checkout (en : checkpointEnv) (ref : Ref) (epoch txid : N) (head : option N)
    (chain : list string) (co : checkout) : checkout :=
  let '(trusted, rec) := stampCheckpoint (en_sha256 en) (en_block en) (r_lineage ref) epoch txid (default 0%N head)
                           (bool_decide (is_Some head)) chain (en_stamp en) in
  let co := set_sidecar (Some rec) co in
  if trusted then refreshShadow (en_reflink en) co else dropShadow co.

Definition checkpointLeased (en : checkpointEnv) (db branch name : string) (meta : gmap string string)
    (opts : CheckpointOptions) (co : checkout) (lease : Lease) (ref : Ref) : IO (CheckpointResult * checkout) :=
  file ← lift (en_quiesce en);
  let co := mkCheckout (Some file) (co_sidecar co) (co_shadow co) in
  let txid := add64 (r_head_txid ref) 1 in
  let epoch := l_epoch lease in
  members ← (match segmentShadow co ref opts with
             | Some _ => r ← try (headChain (co_sidecar co) ref); mret (match r with Ok ms => ms | Err _ => [] end)
             | None => mret []
             end);
  e ← lift (encode_checkpoint (en_snapshotEvery en) co file ref members opts epoch txid);
  let c := mkCommit db branch name meta (e_kind e) lease (r_lineage ref) txid in
  match rn_lost en with
  | Some err => fail err
  | None =>
      ownEtag ← putCheckpointObject (e_key e) (e_data e);
      match rn_stop en with
      | Some err => _ ← bestEffortDelete (e_key e); fail err
      | None =>
          '(deletable, committed) ← commitCheckpoint c;
          match committed with
          | Err err => _ ← (if deletable : bool then bestEffortDelete (e_key e) else mret tt); fail err
          | Ok _ =>
              head ← verifyOwnObject (e_key e) ownEtag (e_checksum e);
              mret (mkResult txid (e_kind e) (e_pages e) (length (e_data e)),
                    stamp_checkout en ref epoch txid head (e_chain e) co)
          end
      end
  end.

Definition CheckpointWith (en : checkpointEnv) (db branch name : string) (meta : gmap string string)
    (opts : CheckpointOptions) (co : checkout) : IO (CheckpointResult * checkout) :=
  _ ← lift (ValidateName db);
  _ ← lift (ValidateName branch);
  _ ← lift (ValidateName name);
  _ ← lift (ValidateMeta meta);
  let holder := newCheckpointHolder (en_host_pid en) (en_nonce en) in
  '(lease, ref) ← acquireCheckpointLease db branch holder (leaseTTL opts) (checkpoint_check holder name co opts);
  r ← try (checkpointLeased en db branch name meta opts co lease ref);
  match r with
  | Err err => _ ← releaseCheckpointLease lease; fail err
  | Ok out => mret out
  end.
End checkpoint.
