(* ===== verification/CheckpointProps.v ===== *)
(** * What an at-rest checkpoint commits

    Over every schedule: the head write lands at most once and its verdicts are
    right about it, and every ref write a checkpoint makes keeps [ref_guar]. *)
From Stdlib Require Import Ascii String Strings.Byte.
From S2P Require Import Prelude GoStrings Keys Refs Backend Chain Store Rely Lease Files Ltx Content Delta Checkpoint.
Local Open Scope string_scope.

(** ** The head write *)

Section commit.
  Context (c : checkpointCommit).
  Local Abbreviation key := (RefKey (c_db c) (c_branch c)).

(** The branch has left the head this checkpoint planned from: on its lineage
    the head is at its txid or past it. *)
Definition past (m : objs) : Prop :=
  ∀ r, ref_at key m r → r_lineage r = c_lineage c → (c_txid c <= r_head_txid r)%N.

(** The ref does not record this checkpoint. *)
Definition unmarked (m : objs) : Prop := ∀ r, ref_at key m r → landed c r = false.

(** The commit's own write: [advance] of a ref that met the premise. *)
Definition commit_write (x : write) : Prop :=
  ∃ wire cur t τ, decodeRef wire = Ok cur ∧ premise c cur = true
    ∧ x = mkWrite key (Some (ORef wire)) (Some (ORef (encodeRef (advance c t cur)))) τ.

(** The writes made so far. *)
Definition commit_inv (l : list write) (m : objs) : Prop :=
  (l = [] ∧ unmarked m) ∨ (∃ x, l = [x] ∧ commit_write x ∧ past m).

Definition commit_rely (w : world) : Prop := stable past w ∧ stable unmarked w.

Lemma commit_inv_reads l w w' :
  read_only w w' → commit_rely w → commit_inv l (w_objs w) → commit_rely w' ∧ commit_inv l (w_objs w').
Proof.
  intros [_ Hr] [H1 H2] Hi. destruct (Hr _ H1) as [H1' Hp], (Hr _ H2) as [H2' Hu].
  split; [done|]. destruct Hi as [[-> ?]|(x & -> & ? & ?)]; [left; auto|right; eauto].
Qed.

Lemma premise_inv cur : premise c cur = true →
  r_lineage cur = c_lineage c ∧ r_head_txid cur = sub64 (c_txid c) 1 ∧ ours c cur = true.
Proof. unfold premise, ours. intros Hp. bool_to_prop. split_and!; try done. by rewrite !andb_true_iff, !bool_decide_eq_true, !N.eqb_eq. Qed.

Lemma ours_inv cur : ours c cur = true → r_lineage cur = c_lineage c ∧ r_head_txid cur = sub64 (c_txid c) 1.
Proof. unfold ours. intros Hp. by bool_to_prop. Qed.

Lemma sub64_lt n : (n ≠ 0)%N → u64 n → (sub64 n 1 < n)%N.
Proof.
  unfold u64, sub64. intros. replace (n + u64_size - 1)%N with (n - 1 + 1 * u64_size)%N by lia.
  rewrite N.Div0.mod_add, N.mod_small; lia.
Qed.

Context (Htxid : (c_txid c ≠ 0)%N) (Hu64 : u64 (c_txid c)).

Lemma past_not_ours m cur : past m → ref_at key m cur → ours c cur = false ∧ premise c cur = false ∧ unreferenced c cur = false.
Proof.
  intros Hp Hr. pose proof (sub64_lt _ Htxid Hu64) as Hlt.
  assert (ours c cur = false) as Ho.
  { apply not_true_is_false. intros [El Eh]%ours_inv. specialize (Hp cur Hr El). lia. }
  split_and!; [done|unfold premise; by rewrite Ho|].
  apply not_true_is_false. unfold unreferenced. intros Hx. bool_to_prop. specialize (Hp cur Hr). specialize (Hp H). lia.
Qed.

Lemma advance_past t cur m : premise c cur = true → past (<[key := ORef (encodeRef (advance c t cur))]> m).
Proof.
  intros _ r (wire & Hw & Hd) _. rewrite lookup_insert_eq in Hw. simplify_eq.
  apply decode_encode_inv in Hd as ->. done.
Qed.

Lemma store_at_insert k o w : w_objs (store_at k (Some o) w) = <[k := o]> (w_objs w).
Proof. apply map_eq. intros i. simpl. destruct (decide (i = k)) as [->|];
  rewrite ?lookup_partial_alter_eq, ?lookup_insert_eq, ?lookup_partial_alter_ne, ?lookup_insert_ne by done; done. Qed.

(** What a verdict means for the writes made. *)
Definition commit_verdict (l : list write) (del : bool) (r : res Ref) : Prop :=
  (l = [] ∨ ∃ x, l = [x] ∧ commit_write x)
  ∧ (is_ok r = true → l ≠ [])
  ∧ (del = true → l = [] ∧ is_ok r = false).

Lemma commit_attempts_ok n : ∀ lst uns w del r w' l l0,
  commit_attempts c n lst uns w = (Ok (del, r), w') →
  w_log w = (l ++ l0)%list → commit_rely w → commit_inv l (w_objs w) → (lst = None → l = []) →
  ∃ l', w_log w' = (l' ++ l0)%list ∧ commit_verdict l' del r.
Proof.
  induction n as [|n IH]; intros lst uns w del r w' l l0 E Hlog Hrely Hinv Hlst;
    cbn [commit_attempts] in E; rewrite io_bind_eq in E; unfold try in E;
    destruct (GetRef _ _ w) as [g w1] eqn:Eg;
    apply GetRef_cases in Eg as [Hro Hg];
    destruct (commit_inv_reads l w w1 Hro Hrely Hinv) as [Hrely1 Hinv1];
    rewrite <-(proj1 Hro) in Hlog.
  all: assert (∀ d x, (Ok (d, x), w1) = (Ok (del, r), w') → commit_verdict l d x →
    ∃ l', w_log w' = (l' ++ l0)%list ∧ commit_verdict l' del r) as Hret
    by (intros d x [= <- <- <-] Hv; eauto).
  all: assert (l = [] ∨ ∃ x, l = [x] ∧ commit_write x) as Hl
    by (destruct Hinv1 as [[-> _]|(x & -> & ? & _)]; [by left|by right; eauto]).
  all: destruct g as [[cur tag]|gerr];
    [|destruct lst as [le|]; [destruct (errors_Is gerr ErrNotFound)|]; rewrite io_ret_eq in E; apply (Hret _ _ E);
      split_and!; try done; by rewrite Hlst].
  all: destruct (Hg _ _ eq_refl) as (wire & -> & Hd & Hat);
    assert (ref_at key (w_objs w1) cur) as Hra by (by exists wire).
  all: destruct (bool_decide (is_Some lst) && landed c cur) eqn:Eland;
    [rewrite io_ret_eq in E; apply (Hret _ _ E); split_and!; [done| |done]; intros _ ->;
     destruct Hinv1 as [[_ Hun]|(? & ? & _)]; [|done]; specialize (Hun cur Hra); bool_to_prop; congruence|].
  all: destruct (premise c cur) eqn:Epr; cbn [negb] in E;
    [|destruct lst as [le|];
      [destruct (ours c cur) eqn:Eo; [|destruct (unreferenced c cur) eqn:Eu]
      |destruct (headUnderOurEpoch c cur)]; rewrite io_ret_eq in E; apply (Hret _ _ E);
      split_and!; try done; try (by rewrite Hlst);
      intros _; split; [|done]; destruct Hinv1 as [[-> _]|(x & -> & _ & Hp)]; [done|];
      destruct (past_not_ours _ _ Hp Hra) as (_ & _ & ?); congruence].
  - rewrite io_ret_eq in E. apply (Hret _ _ E). split_and!; done.
  - destruct Hinv1 as [[-> Hun]|(x & -> & _ & Hp)].
    2: { destruct (past_not_ours _ _ Hp Hra) as (_ & ? & _); congruence. }
    rewrite io_bind_eq, now_eq, io_bind_eq in E. unfold try in E.
    destruct (PutRef _ _ _ _ w1) as [p w2] eqn:Ep.
    apply PutRef_cases in Ep as (w3 & Hro3 & Hcase).
    destruct (commit_inv_reads [] w1 w3 Hro3 Hrely1) as [Hrely3 Hinv3]; [by left|].
    rewrite <-(proj1 Hro3) in Hlog.
    destruct Hcase as [[-> Hpe]|[Hm ->]].
    + destruct p as [|perr]; [done|]. eapply IH; [exact E|exact Hlog|done|done|done].
    + apply kv_match_before in Hm as [[? _]|(o & [= <-] & Hbefore)]; [done|].
      set (x := mkWrite key (Some (ORef wire)) (Some (ORef (encodeRef (advance c (w_now w1) cur)))) (w_now w3)).
      assert (commit_write x) as Hx by (exists wire, cur, (w_now w1), (w_now w3); done).
      assert (w_log (store_at key (Some (ORef (encodeRef (advance c (w_now w1) cur)))) w3) = ([x] ++ l0)%list) as Hlog'.
      { simpl. by rewrite Hbefore, Hlog. }
      destruct p as [t|perr].
      * rewrite io_ret_eq in E. simplify_eq. exists [x]. split; [done|]. split_and!; [right; eauto|done|done].
      * eapply IH; [exact E|exact Hlog'|done| |done].
        right. exists x. split_and!; [done..|]. rewrite store_at_insert. by apply advance_past.
Qed.
End commit.

Lemma commit_attempts_total c n : ∀ lst uns w, ∃ del r w', commit_attempts c n lst uns w = (Ok (del, r), w').
Proof.
  induction n as [|n IH]; intros lst uns w; cbn [commit_attempts]; rewrite io_bind_eq; unfold try;
    destruct (GetRef _ _ w) as [[[cur tag]|gerr] w1].
  all: repeat (break_match_goal; rewrite ?io_ret_eq; eauto).
  rewrite io_bind_eq, now_eq, io_bind_eq. destruct (PutRef _ _ _ _ w1) as [[?|?] ?]; rewrite ?io_ret_eq; eauto.
Qed.

(** C6: The head write of an at-rest checkpoint, on every schedule in which the
    other processes keep a lineage's head from going back and do not forge
    this checkpoint's entry.  It always answers.  It lands at most once, and
    what lands replaces a ref that still carried the checkpoint's lease, lineage
    and head and no delete or reap claim.  When it reports success it landed,
    though the reply of the write itself may have been lost; when it reports
    the object deletable it did not, so no ref names the object. *)
Theorem commit_exactly_once c w :
  (c_txid c ≠ 0)%N → u64 (c_txid c) → commit_rely c w → unmarked c (w_objs w) →
  ∃ del r w' l, commitCheckpoint c w = (Ok (del, r), w')
    ∧ w_log w' = (l ++ w_log w)%list ∧ commit_verdict c l del r.
Proof.
  intros Ht Hu Hr Hun. destruct (commit_attempts_total c checkpointCommitAttempts None None w) as (del & r & w' & E).
  destruct (commit_attempts_ok c Ht Hu _ _ _ _ _ _ _ [] (w_log w) E eq_refl Hr) as (l & Hl & Hv); [by left|done|].
  by exists del, r, w', l.
Qed.

(** The branch [app@main] under a checkpoint's lease, and a schedule in which
    the head write lands but the client library's retry reports a conflict. *)
Definition ex_holder : string := newCheckpointHolder "host/1" "0a0b0c0d".
Definition ex_cp_ref : Ref := acquired ex_ref ex_holder 30 (100 * second).
Definition ex_commit : checkpointCommit :=
  mkCommit "app" "main" "v1" ∅ "snapshot" (mkLease "app" "main" ex_holder 3 (100 * second + 30)) "a" 4.
Definition ex_lost_reply : list tick := [quiet; mkTick id 0 FLostCAS None].
Definition ex_cp_world : world := ex_world {[RefKey "app" "main" := ORef (encodeRef ex_cp_ref)]} ex_lost_reply.

Lemma commit_exactly_once_witness :
  ∃ del r w' l, commitCheckpoint ex_commit ex_cp_world = (Ok (del, r), w')
    ∧ w_log w' = (l ++ w_log ex_cp_world)%list ∧ commit_verdict ex_commit l del r ∧ is_ok r = true.
Proof.
  destruct (commit_exactly_once ex_commit ex_cp_world) as (del & r & w' & l & E & Hl & Hv).
  - done.
  - done.
  - split; repeat constructor; done.
  - intros r (wire & Hw & Hd). vm_compute in Hw. injection Hw as <-. vm_compute in Hd. injection Hd as <-. reflexivity.
  - exists del, r, w', l. split; [exact E|]. split; [exact Hl|]. split; [exact Hv|].
    assert (match (commitCheckpoint ex_commit ex_cp_world).1 with Ok (_, x) => is_ok x | Err _ => false end = true) as Hx
      by (vm_compute; reflexivity).
    rewrite E in Hx. exact Hx.
Defined.

(** ** The checkpoint's writes keep the guarantee on refs *)

Lemma spec_releaseCheckpointLease l : spec ref_guar (λ _, True) (releaseCheckpointLease l).
Proof.
  unfold releaseCheckpointLease. generalize 3%nat as n. intros n. revert l.
  induction n as [|n IH]; intros l; [by apply spec_ret|]. cbn [release_attempts].
  assert (∀ l, spec ref_guar (λ _, True)
    (r ← try (ReleaseLease l); match r with Ok _ => mret tt | Err e => if errors_Is e ErrCAS then release_attempts n l else mret tt end)) as Ha.
  { intros l'. eapply spec_bind; [apply spec_try, spec_ReleaseLease|]. intros [?|e] _; [by apply spec_ret|].
    destruct (errors_Is e ErrCAS); [apply IH|by apply spec_ret]. }
  eapply spec_bind; [apply spec_try, spec_GetRef|]. intros [[ref tag]|e] _; [|apply Ha].
  destruct (r_deleting ref || r_reaping ref); [by apply spec_ret|apply Ha].
Qed.

Lemma spec_acquire_checked db branch holder ttl t check :
  spec ref_guar (λ _, True) (acquire_checked db branch holder ttl t check).
Proof.
  unfold acquire_checked. spec_step; [by apply spec_ret|].
  eapply spec_bind; [apply spec_try, spec_GetRef|]. intros [[ref tag]|e] Hr; [|by apply spec_ret].
  eapply spec_bind; [apply spec_now|]. intros t' _. destruct (check t' ref); [|by apply spec_ret].
  eapply spec_bind; [apply spec_try, spec_acquire_write; by apply Hr|]. intros. by apply spec_ret.
Qed.

(** [acquire_checked] is [AcquireLeaseRefIf] with its callback observed. *)
Lemma acquire_checked_is db branch holder ttl t check w :
  (let '(r, w') := acquire_checked db branch holder ttl t check w in (snd <$> r, w'))
  = (let '(r, w') := AcquireLeaseRefIf db branch holder ttl t check w in (Ok r, w')).
Proof.
  unfold acquire_checked, AcquireLeaseRefIf. destruct (bool_decide (holder = "")); [done|].
  rewrite !io_bind_eq. unfold try. destruct (GetRef db branch w) as [[[ref tag]|e] w1]; [|done].
  rewrite !io_bind_eq, !now_eq. destruct (check (w_now w1) ref); rewrite ?io_bind_eq; unfold lift; [|done].
  unfold try. by destruct (acquire_write _ _ _ _ _ _ _ w1) as [[?|?] ?].
Qed.

Lemma spec_SettleAcquire db branch holder : spec ref_guar (λ _, True) (SettleAcquire db branch holder).
Proof.
  unfold SettleAcquire. eapply spec_bind; [apply spec_GetRef|]. intros [ref tag] _.
  destruct (bool_decide _); by apply spec_ret.
Qed.

Lemma spec_acquireCheckpointLease db branch holder ttl check :
  spec ref_guar (λ _, True) (acquireCheckpointLease db branch holder ttl check).
Proof.
  unfold acquireCheckpointLease. generalize (checkpointAcquireAttempts - 1)%nat as n. intros n.
  induction n as [|n IH]; cbn [acquire_attempts]; (eapply spec_bind; [apply spec_now|]); intros t0 _;
    (eapply spec_bind; [apply spec_acquire_checked|]); intros [seen [[[l r] tag]|aerr]] _; try (by apply spec_ret);
    (destruct seen as [[rd [[]|refused]]|]; [|eapply spec_bind; [|intros; apply spec_fail];
       destruct (bool_decide _); [apply spec_releaseCheckpointLease|by apply spec_ret]|apply spec_fail]);
    (eapply spec_bind; [apply spec_try, spec_SettleAcquire|]); intros [[[ad|] cur]|e] _; try apply spec_fail;
    (eapply spec_bind; [apply spec_now|]); intros t _;
    try (destruct (check t cur); [by apply spec_ret|];
         eapply spec_bind; [apply spec_releaseCheckpointLease|intros; apply spec_fail]);
    (eapply spec_bind; [by apply spec_lift with (Q := λ _, True)|]); intros _ _;
    repeat (spec_step; try apply spec_fail); done.
Qed.

Lemma advance_guar c t cur : wire_trans (encodeRef cur) (encodeRef (advance c t cur)).
Proof. apply wire_trans_same; [done|done|by right]. Qed.

Lemma spec_commitCheckpoint c : spec ref_guar (λ _, True) (commitCheckpoint c).
Proof.
  unfold commitCheckpoint.
  cut (∀ n lst uns, spec ref_guar (λ _, True) (commit_attempts c n lst uns)); [by intros Hc|].
  induction n as [|n IH]; intros lst uns; cbn [commit_attempts];
    (eapply spec_bind; [apply spec_try, spec_GetRef|]); intros [[cur tag]|gerr] Hr;
    try (by repeat spec_step); (spec_step; [by apply spec_ret|]); spec_step; try (by repeat spec_step).
  eapply spec_bind; [apply spec_now|]. intros t _.
  eapply spec_bind; [apply spec_try, (spec_update _ _ cur tag); [by apply Hr|apply advance_guar]|].
  intros [tag'|perr] _; [by apply spec_ret|apply IH].
Qed.

Lemma spec_bestEffortDelete key : spec ref_guar (λ _, True) (bestEffortDelete key).
Proof.
  unfold bestEffortDelete. eapply spec_bind; [apply spec_try, spec_Delete; intros [[]|] τ; done|].
  intros. by apply spec_ret.
Qed.

Lemma ref_guar_object key b data τ : ref_guar (mkWrite key b (Some (obj_of data)) τ).
Proof. by destruct b as [[]|]. Qed.

Lemma spec_putCheckpointObject key data : spec ref_guar (λ _, True) (putCheckpointObject key data).
Proof.
  unfold putCheckpointObject. eapply spec_bind; [apply spec_try, spec_PutIf; intros; apply ref_guar_object|].
  intros [tag|e] _; [by apply spec_ret|]. spec_step.
  - eapply spec_bind; [apply spec_bestEffortDelete|intros; apply spec_fail].
  - eapply spec_bind; [apply spec_try, spec_Get|]. intros [[got gt]|ge] _;
      repeat (spec_step; try apply spec_fail); done.
Qed.

Section checkpoint.
  Context `{LtxLib}.

Lemma spec_verifyOwnObject key tag sum : spec ref_guar (λ _, True) (verifyOwnObject key tag sum).
Proof.
  unfold verifyOwnObject, Head. eapply spec_bind.
  { apply spec_try with (Q := λ _, True). eapply spec_bind; [apply spec_Get|]. intros [o t] _. by apply spec_ret. }
  intros [t|e] _; [|by apply spec_ret]. spec_step; [by apply spec_ret|].
  eapply spec_bind; [apply spec_try, spec_Get|]. intros. by apply spec_ret.
Qed.

Lemma spec_headChain side ref : spec ref_guar (λ _, True) (headChain side ref).
Proof.
  unfold headChain. destruct (cachedChain side ref); [by apply spec_ret|].
  eapply spec_weaken; [|apply spec_reads]. done.
Qed.

Lemma spec_checkpointLeased en db branch name meta opts co lease ref :
  spec ref_guar (λ _, True) (checkpointLeased en db branch name meta opts co lease ref).
Proof.
  unfold checkpointLeased. eapply spec_bind; [by apply spec_lift with (Q := λ _, True)|]. intros file _.
  eapply spec_bind with (Q := λ _, True).
  { destruct (segmentShadow _ _ _); [|by apply spec_ret].
    eapply spec_bind; [apply spec_try, spec_headChain|]. intros. by apply spec_ret. }
  intros members _. eapply spec_bind; [by apply spec_lift with (Q := λ _, True)|]. intros e _.
  spec_step; [apply spec_fail|]. eapply spec_bind; [apply spec_putCheckpointObject|]. intros tag _.
  spec_step; [eapply spec_bind; [apply spec_bestEffortDelete|intros; apply spec_fail]|].
  eapply spec_bind; [apply spec_commitCheckpoint|]. intros [del [cur|err]] _.
  - eapply spec_bind; [apply spec_verifyOwnObject|]. intros. by apply spec_ret.
  - eapply spec_bind with (Q := λ _, True); [|intros; apply spec_fail].
    destruct del; [apply spec_bestEffortDelete|by apply spec_ret].
Qed.

Lemma spec_CheckpointWith en db branch name meta opts co :
  spec ref_guar (λ _, True) (CheckpointWith en db branch name meta opts co).
Proof.
  unfold CheckpointWith. do 4 (eapply spec_bind; [by apply spec_lift with (Q := λ _, True)|]; intros _ _).
  eapply spec_bind; [apply spec_acquireCheckpointLease|]. intros [lease ref] _.
  eapply spec_bind; [apply spec_try, spec_checkpointLeased|]. intros [out|err] _; [by apply spec_ret|].
  eapply spec_bind; [apply spec_releaseCheckpointLease|intros; apply spec_fail].
Qed.
End checkpoint.
