(* ===== verification/CheckpointRun.v ===== *)
(** * A checkpoint records the checkout

    The whole of [CheckpointWith], from the acquire to the stamp, on a store
    nothing else writes meanwhile: the branch's head then resolves to objects
    that materialize to the checkout, whichever of a segment and a snapshot was
    written. *)
From Stdlib Require Import Ascii String Strings.Byte.
From S2P Require Import Prelude GoStrings Keys Refs Backend Chain ChainFacts ChainProps Store Rely Lease Files Ltx LtxProps Session SessionProps SessionRun Content Delta DeltaProps Checkpoint CheckpointProps.
Local Open Scope N_scope.

Section content.
  Context `{LtxLib}.

(** What [encode_checkpoint] uploads makes the head's chain hold the file: a
    snapshot on its own, a segment on top of any chain that holds the shadow. *)
Definition encodes_file (ps : N) (co : checkout) (ref : Ref) (opts : CheckpointOptions) (txid : N) (file : bytes)
    (commit : N) (e : encoded) : Prop :=
  (e_kind e = "snapshot"%string ∧ e_key e = SnapshotKey (r_lineage ref) (r_epoch ref) txid
   ∧ chain_is ps (e_data e) [] txid (file, commit))
  ∨ (e_kind e = "segment"%string ∧ e_key e = SegmentKey (r_lineage ref) (r_epoch ref) txid txid
     ∧ ∃ rec shadow c, segmentShadow co ref opts = Some (rec, shadow) ∧ readDBHeader shadow = Ok (ps, c)
       ∧ ∀ snap segs, chain_is ps snap segs (r_head_txid ref) (shadow, c) →
         chain_is ps snap (segs ++ [e_data e]) txid (file, commit)).

Lemma segmentShadow_head co ref opts p :
  r_head_txid ref + 1 < u64_size → segmentShadow co ref opts = Some p → 1 <= r_head_txid ref ∧ sr_checksum p.1 ≠ 0.
Proof.
  unfold segmentShadow. intros Hu. rewrite add64_small by done. destruct (opt_Snapshot opts); [done|]. cbn [orb].
  destruct (N.leb_spec (r_head_txid ref + 1) 1); [done|]. destruct (co_sidecar co) as [rec|]; [|done].
  destruct (negb (sr_shadow rec)); [done|]. cbn [orb]. destruct (N.eqb_spec (sr_checksum rec) 0); [done|]. cbn [orb].
  destruct (_ || _ || _); [done|]. destruct (co_shadow co); [|done]. intros [= <-]. split; [lia|done].
Qed.

Lemma segmentShadow_shadow co ref opts rec shadow :
  segmentShadow co ref opts = Some (rec, shadow) → co_shadow co = Some shadow.
Proof.
  unfold segmentShadow. destruct (_ || _); [done|]. destruct (co_sidecar co); [|done].
  destruct (_ || _); [done|]. destruct (co_shadow co); [|done]. by intros [= _ <-].
Qed.

Lemma encode_checkpoint_ok ps file commit every co ref members opts :
  IsValidPageSize ps = true → db_file ps file commit → co_file co = Some file → r_head_txid ref + 1 < u64_size →
  (∀ rec shadow, segmentShadow co ref opts = Some (rec, shadow) →
     ∃ ps' c, readDBHeader shadow = Ok (ps', c) ∧ db_len ps' shadow c) →
  ∃ e, encode_checkpoint every co file ref members opts (r_epoch ref) (r_head_txid ref + 1) = Ok e
    ∧ e_checksum e = db_sum ps file commit
    ∧ encodes_file ps co ref opts (r_head_txid ref + 1) file commit e.
Proof.
  intros Hv Hf Hco Hu Hsh. pose proof Hf as [Hhdr Hok].
  assert (0 < ps) as Hps by by apply (readDBHeader_page_size file ps commit).
  unfold encode_checkpoint. destruct (planSegment every co ref members opts) as [d|] eqn:Hplan.
  - unfold planSegment in Hplan. rewrite Hco in Hplan.
    destruct (segmentShadow co ref opts) as [[rec shadow]|] eqn:Hss; [|done].
    destruct (Hsh rec shadow eq_refl) as (ps' & c & Hshdr & Hslen).
    destruct (segmentShadow_head _ _ _ _ Hu Hss) as [Hh1 Hpre]. cbn [fst] in Hpre.
    destruct (bool_decide (members = []) || _); [done|].
    destruct (diffPages file shadow (sr_checksum rec)) as [[[[[pages c1] ps1] total] post]|] eqn:Hd; [|done].
    destruct (_ && _); [done|]. injection Hplan as <-. cbn [sd_pages sd_commit sd_page_size sd_pre sd_post].
    assert (ps1 = ps ∧ c1 = commit ∧ ps' = ps) as (-> & -> & ->).
    { unfold diffPages in Hd. rewrite Hhdr, Hshdr in Hd. cbn [mbind res_bind] in Hd.
      destruct (N.eqb_spec ps' ps) as [->|]; [|done]. cbn [negb] in Hd.
      destruct (diff_loop _ _ _ _ _ _ _ _) as [[[? ?] ?]|]; [|done]. cbn [mbind res_bind] in Hd.
      destruct (negb _); [done|]. by simplify_eq. }
    destruct (diffPages_ok _ _ _ _ _ _ _ _ _ Hd Hpre Hshdr (proj1 Hok) Hslen) as (-> & _ & _ & Epre & ->).
    pose proof (diff_delta ps Hps file shadow commit c (proj1 Hok) Hslen) as Hdl. cbn zeta in Hdl.
    destruct (EncodeSegment_ok ps Hps _ _ _ _ _ (r_head_txid ref + 1) Hv Hdl Hok ltac:(lia) Hu) as (obj & He & _).
    rewrite (drain_pmap ps Hps) in He by by apply diff_list_sorted. rewrite Epre, He. cbn [mbind res_bind].
    eexists. split; [done|]. split; [done|]. right. cbn [e_kind e_key e_data]. split; [done|]. split; [done|].
    exists rec, shadow, c. split_and!; [done..|]. intros snap segs Hch.
    destruct (chain_segment ps Hps Hv _ _ _ _ _ _ _ _ Hch Hh1 Hu Hdl Hok) as (obj' & He' & Hch').
    rewrite (drain_pmap ps Hps) in He' by by apply diff_list_sorted. rewrite He in He'. by injection He' as <-.
  - destruct (chain_snapshot ps Hps Hv file commit (r_head_txid ref + 1) Hf ltac:(lia) Hu) as (obj & He & Hch).
    destruct (EncodeSnapshot_ok ps Hps Hv file commit (r_head_txid ref + 1) Hf ltac:(lia) Hu) as (obj' & g & He' & _).
    rewrite He' in He |- *. injection He as ->. cbn [mbind res_bind].
    eexists. split; [done|]. split; [done|]. by left.
Qed.

(** ** The run *)

Lemma refuse_checkpoint_ok g t : refuseIfHeld g "checkpoint" false t = Ok tt →
  r_deleting g = false ∧ r_reaping g = false ∧ LeaseLive g t = false.
Proof.
  unfold refuseIfHeld. destruct (r_deleting g); [done|]. destruct (r_reaping g); [done|].
  destruct (LeaseLive g t); [|done]. cbn [negb]. by destruct (IsCheckpointHolder _).
Qed.

Lemma check_ok holder name co opts t r :
  r_lease_holder r ≠ holder → checkpoint_check holder name co opts t r = Ok tt →
  r_deleting r = false ∧ r_reaping r = false ∧ LeaseLive r t = false ∧ r_checkpoints r !! name = None.
Proof.
  intros Hh. unfold checkpoint_check. rewrite bool_decide_eq_false_2 by done.
  destruct (refuseIfHeld r "checkpoint" false t) as [[]|] eqn:E; [|done]. cbn [mbind res_bind].
  apply refuse_checkpoint_ok in E as (? & ? & ?). unfold checkpointPreconditions.
  destruct (r_checkpoints r !! name); [done|]. done.
Qed.

(** The ref a checkpoint's acquire leaves. *)
Definition leased (r : Ref) (holder : string) (ttl now : Z) : Ref :=
  set_lease_expiry (At (now + ttl)) (set_lease_holder holder (set_epoch (r_epoch r + 1) r)).

Lemma acquire_calm db branch holder ttl check w wire r :
  calm w → ValidateName db = Ok tt → ValidateName branch = Ok tt → holder ≠ ""%string →
  w_objs w !! RefKey db branch = Some (ORef wire) → decodeRef wire = Ok r →
  check (w_now w) r = Ok tt → r_deleting r = false → r_reaping r = false → LeaseLive r (w_now w) = false →
  r_epoch r + 1 < u64_size → r_head_epoch r ≠ 0 →
  acquireCheckpointLease db branch holder ttl check w
  = (Ok (mkLease db branch holder (r_epoch r + 1) (w_now w + ttl), leased r holder ttl (w_now w)),
     store_at (RefKey db branch) (Some (ORef (encodeRef (leased r holder ttl (w_now w))))) w).
Proof.
  intros Hc Hdb Hbr Hh Ho Hd Hck Hdel Hrp Hl Hu He.
  unfold acquireCheckpointLease. cbn [checkpointAcquireAttempts Nat.sub acquire_attempts].
  rewrite io_bind_eq, now_eq, io_bind_eq. unfold acquire_checked.
  rewrite bool_decide_eq_false_2 by done. rewrite io_bind_eq. unfold try.
  rewrite (GetRef_calm _ _ _ wire r) by done. rewrite io_bind_eq, now_eq, Hck, io_bind_eq.
  unfold acquire_write. rewrite Hrp, Hdel, Hl. cbn [andb]. rewrite io_bind_eq. unfold try.
  rewrite PutRef_calm by (done || by rewrite Ho, kv_match_self). rewrite !io_ret_eq.
  rewrite add64_small by done. fold (leased r holder ttl (w_now w)). do 3 f_equal.
  apply normalizeRef_normal. destruct (decodeRef_ok _ _ Hd) as (_ & _ & [Hs _] & _). split; [done|]. intros Hz. by destruct He.
Qed.

Section leased.
  Context (en : checkpointEnv) (db branch name : string) (meta : gmap string string) (opts : CheckpointOptions)
    (co : checkout) (lease : Lease) (r1 : Ref) (w1 : world) (file : bytes) (e : encoded).
  Local Abbreviation txid := (r_head_txid r1 + 1).
  Local Abbreviation c := (mkCommit db branch name meta (e_kind e) lease (r_lineage r1) txid).
  Local Abbreviation co1 := (mkCheckout (Some file) (co_sidecar co) (co_shadow co)).
  Context (Hc : calm w1) (Hdb : ValidateName db = Ok tt) (Hbr : ValidateName branch = Ok tt)
    (Ho : w_objs w1 !! RefKey db branch = Some (ORef (encodeRef r1))) (Hd : decodeRef (encodeRef r1) = Ok r1)
    (Hq : en_quiesce en = Ok file) (Hlost : rn_lost en = None) (Hstop : rn_stop en = None)
    (Hu : txid < u64_size)
    (Hkey : w_objs w1 !! e_key e = None) (Hne : e_key e ≠ RefKey db branch) (Hp : premise c r1 = true).

(** The objects a committed checkpoint leaves. *)
Definition committed_objs (t : Z) : objs :=
  <[RefKey db branch := ORef (encodeRef (advance c t r1))]> (<[e_key e := obj_of (e_data e)]> (w_objs w1)).

Lemma committed_key t : committed_objs t !! e_key e = Some (obj_of (e_data e)).
Proof. unfold committed_objs. rewrite lookup_insert_ne by congruence. by rewrite lookup_insert_eq. Qed.

Lemma upload_and_commit_calm :
  ∃ w', (ownEtag ← putCheckpointObject (e_key e) (e_data e);
         '(del, committed) ← commitCheckpoint c;
         match committed with
         | Err err => _ ← (if del : bool then bestEffortDelete (e_key e) else mret tt); fail err
         | Ok _ => head ← verifyOwnObject (e_key e) ownEtag (e_checksum e); mret head
         end) w1 = (Ok (Some (e_checksum e)), w')
    ∧ calm w' ∧ w_objs w' = committed_objs (w_now w1).
Proof.
  unfold putCheckpointObject. rewrite !io_bind_eq. unfold try. rewrite PutIf_calm by done. rewrite Hkey. cbn [kv_match].
  rewrite io_ret_eq. set (w2 := store_at (e_key e) (Some (obj_of (e_data e))) w1).
  assert (calm w2) as Hc2 by done.
  assert (w_objs w2 !! RefKey db branch = Some (ORef (encodeRef r1))) as Ho2 by (unfold w2; by rewrite store_at_lookup_ne).
  unfold commitCheckpoint, checkpointCommitAttempts. cbn [commit_attempts]. rewrite io_bind_eq, io_bind_eq. unfold try.
  cbn [c_db c_branch]. rewrite (GetRef_calm _ _ _ (encodeRef r1) r1) by done.
  rewrite bool_decide_eq_false_2 by (intros [? ?]; done). cbn [andb]. rewrite Hp. cbn [negb].
  rewrite io_bind_eq, now_eq, io_bind_eq. unfold try. cbn [c_db c_branch].
  rewrite PutRef_calm by (done || by rewrite Ho2, kv_match_self). rewrite io_ret_eq.
  set (w3 := store_at (RefKey db branch) _ w2).
  assert (w_objs w3 = committed_objs (w_now w1)) as Ho3.
  { unfold w3, w2. by rewrite !store_at_insert. }
  unfold verifyOwnObject, Head. rewrite !io_bind_eq. unfold try. rewrite io_bind_eq, Get_calm by done. unfold kv_get.
  rewrite Ho3, committed_key, io_ret_eq. cbn [same_etag]. rewrite bool_decide_eq_false_2, bool_decide_eq_true_2 by done.
  cbn [negb andb]. rewrite io_ret_eq. exists w3. split_and!; done.
Qed.

Lemma checkpointLeased_calm members :
  (match segmentShadow co1 r1 opts with
   | Some _ => r ← try (headChain (co_sidecar co) r1); mret (match r with Ok ms => ms | Err _ => [] end)
   | None => mret []
   end) w1 = (Ok members, w1) →
  encode_checkpoint (en_snapshotEvery en) co1 file r1 members opts (l_epoch lease) txid = Ok e →
  ∃ w', checkpointLeased en db branch name meta opts co lease r1 w1
        = (Ok (mkResult txid (e_kind e) (e_pages e) (length (e_data e)),
               stamp_checkout en r1 (l_epoch lease) txid (Some (e_checksum e)) (e_chain e) co1), w')
    ∧ calm w' ∧ w_objs w' = committed_objs (w_now w1).
Proof.
  intros Hm He. destruct upload_and_commit_calm as (w' & E & Hc' & Ho'). exists w'. split; [|done].
  unfold checkpointLeased. rewrite io_bind_eq. unfold lift. rewrite Hq, io_bind_eq. cbn [co_sidecar]. rewrite Hm.
  rewrite io_bind_eq, add64_small, He, Hlost, io_bind_eq by done. rewrite io_bind_eq in E.
  destruct (putCheckpointObject _ _ w1) as [[tag|err] w2]; [|done]. rewrite Hstop.
  rewrite io_bind_eq in E. rewrite io_bind_eq.
  destruct (commitCheckpoint c w2) as [[[del [cur|err]]|err] w3]; [| |done].
  - rewrite io_bind_eq in E. rewrite io_bind_eq. destruct (verifyOwnObject _ _ _ w3) as [[head|err] w4]; [|done].
    rewrite io_ret_eq in E. rewrite io_ret_eq. by simplify_eq.
  - exfalso. rewrite io_bind_eq in E. destruct ((if del then bestEffortDelete (e_key e) else mret tt) w3) as [[?|?] ?]; done.
Qed.
End leased.

Lemma members_calm co r opts w :
  calm w → ∃ members,
  (match segmentShadow co r opts with
   | Some _ => x ← try (headChain (co_sidecar co) r); mret (match x with Ok ms => ms | Err _ => [] end)
   | None => mret []
   end) w = (Ok members, w).
Proof.
  intros Hc. destruct (segmentShadow co r opts); [|by exists []]. rewrite io_bind_eq. unfold try, headChain.
  destruct (cachedChain _ r) as [ms|]; [by exists ms|]. rewrite reads_calm by done. eauto.
Qed.

(** ** The theorem *)

(** The keys a checkpoint may write. *)
Lemma checkpoint_key L ep t (snapshot : bool) :
  lineage_ok L = true → u64 ep → u64 t →
  let k := if snapshot then SnapshotKey L ep t else SegmentKey L ep t t in
  ∃ x, ParseMemberKey k = Some x ∧ m_max x = t ∧ m_epoch x = ep ∧ m_snapshot x = snapshot
    ∧ wf_member x ∧ HasPrefix k (LineagePrefix L) = true.
Proof.
  intros HL He Ht. destruct snapshot.
  - eexists. split; [by apply ParseMemberKey_SnapshotKey|]. split_and!; try done. apply HasPrefix_SnapshotKey.
  - eexists. split; [by apply ParseMemberKey_SegmentKey|]. split_and!; try done. apply HasPrefix_SegmentKey.
Qed.

Lemma segmentShadow_ext co r r1 opts :
  r_lineage r1 = r_lineage r → r_head_txid r1 = r_head_txid r → r_head_epoch r1 = r_head_epoch r →
  segmentShadow co r1 opts = segmentShadow co r opts.
Proof. unfold segmentShadow. by intros -> -> ->. Qed.

Section durable.
  Context (ps : N) (en : checkpointEnv) (db branch name : string) (meta : gmap string string) (opts : CheckpointOptions)
    (co : checkout) (w : world) (wire : refWire) (r : Ref) (bs : list BasePointer) (file : bytes) (commit : N).
  Local Abbreviation holder := (newCheckpointHolder (en_host_pid en) (en_nonce en)).
  Local Abbreviation co1 := (mkCheckout (Some file) (co_sidecar co) (co_shadow co)).
  Local Abbreviation m := (w_objs w).

(** The store a checkpoint starts from: the branch's ref, chains of well-formed
    members, nothing at the next transaction under an epoch the ref has not
    reached, and room in the counters. *)
Record store_ready : Prop := mk_ready {
  sr_ref : m !! RefKey db branch = Some (ORef wire) ∧ decodeRef wire = Ok r;
  sr_cps : cps_nonzero (r_checkpoints r);
  sr_wf : wf_store m ∧ lineage_ok (r_lineage r) = true ∧ acyclic (view_of m) (r_lineage r) bs;
  sr_base : ∀ b bs', bs = b :: bs' →
    bp_txid b <= r_head_txid r ∧ Forall (λ y, bp_txid b < m_max y) (members (view_of m) (r_lineage r));
  sr_fenced : ∀ y, y ∈ members (view_of m) (r_lineage r) → m_max y = r_head_txid r + 1 → m_epoch y <= r_epoch r;
  sr_room : r_head_txid r + 1 < u64_size ∧ r_epoch r + 1 < u64_size ∧ r_head_epoch r ≠ 0 }.

(** The checkout: a whole database once quiesced, whose shadow, when the sidecar
    vouches for one, is the head's content. *)
Record checkout_ready : Prop := mk_co_ready {
  cr_file : en_quiesce en = Ok file ∧ IsValidPageSize ps = true ∧ db_file ps file commit;
  cr_shadow : ∀ rec shadow, segmentShadow co1 r opts = Some (rec, shadow) →
    ∃ ps' c, readDBHeader shadow = Ok (ps', c) ∧ db_len ps' shadow c ∧ head_is ps' m r (shadow, c) }.

(** The member a checkpoint writes. *)
Lemma encoded_member co0 r1 e :
  lineage_ok (r_lineage r1) = true → u64 (r_epoch r1) → u64 (r_head_txid r1 + 1) →
  encodes_file ps co0 r1 opts (r_head_txid r1 + 1) file commit e →
  ∃ x, ParseMemberKey (e_key e) = Some x ∧ m_max x = r_head_txid r1 + 1 ∧ m_epoch x = r_epoch r1
    ∧ wf_member x ∧ HasPrefix (e_key e) (LineagePrefix (r_lineage r1)) = true
    ∧ m_snapshot x = bool_decide (e_kind e = "snapshot"%string).
Proof.
  intros HL He Ht [(-> & -> & _)|(-> & -> & _)].
  - by destruct (checkpoint_key (r_lineage r1) (r_epoch r1) (r_head_txid r1 + 1) true) as (x & ?&?&?&?&?&?); eauto 10.
  - by destruct (checkpoint_key (r_lineage r1) (r_epoch r1) (r_head_txid r1 + 1) false) as (x & ?&?&?&?&?&?); eauto 10.
Qed.

Lemma committed_lineage e ttl o o' :
  store_ready → checkout_ready →
  encodes_file ps co1 (leased r holder ttl (w_now w)) opts (r_head_txid r + 1) file commit e →
  m !! e_key e = None
  ∧ lineage_is ps (<[RefKey db branch := o']> (<[e_key e := obj_of (e_data e)]> (<[RefKey db branch := o]> m)))
      (r_lineage r) (r_head_txid r + 1) (file, commit).
Proof.
  intros [_ _ (Hwf & HL & Ha) Hb Hf (Hu1 & Hu2 & _)] [_ Hsh] Henc.
  destruct (encoded_member co1 (leased r holder ttl (w_now w)) e HL Hu2 Hu1 Henc) as (x & Hx & Hmax & Hep & Hwfx & Hp & Hsn).
  cbn [leased r_lineage r_epoch r_head_txid set_lease_expiry set_lease_holder set_epoch] in *.
  assert (m !! e_key e = None) as Hk.
  { apply eq_None_not_Some. intros Hs. assert (x ∈ members (view_of m) (r_lineage r)) as Hin.
    { apply members_view_of_elem. by exists (e_key e). }
    specialize (Hf x Hin Hmax). lia. }
  split; [done|]. set (m1 := <[RefKey db branch := o]> m).
  assert (m1 !! e_key e = None) as Hk1.
  { unfold m1. rewrite lookup_insert_ne; [done|]. intros E. by rewrite <-E, ParseMemberKey_RefKey in Hx. }
  assert (wf_store m1) as Hwf1 by by apply wf_store_insert_ref.
  assert (acyclic (view_of m1) (r_lineage r) bs) as Ha1 by by apply acyclic_insert_ref.
  assert (∀ y, y ∈ members (view_of m1) (r_lineage r) → m_max y = r_head_txid r + 1 → m_epoch y < m_epoch x) as Hf1.
  { intros y. unfold m1. rewrite members_insert_ref. intros Hy Ey. specialize (Hf y Hy Ey). lia. }
  assert (∀ b bs', bs = b :: bs' →
    bp_txid b <= r_head_txid r ∧ Forall (λ y, bp_txid b < m_max y) (members (view_of m1) (r_lineage r))) as Hb1.
  { unfold m1. by rewrite members_insert_ref. }
  pose proof (λ L', member_not_base _ _ L' Hx) as Hnb.
  eapply lineage_is_ref; [by eapply wf_store_insert_member|split; [apply spine_of_insert, Ha1; done|apply Ha1]|done|].
  destruct Henc as [(Ek & _ & Hch)|(Ek & _ & rec & shadow & c & Hss & Hsr & Hch)]; rewrite Ek in Hsn.
  - eapply lineage_snapshot; done.
  - rewrite (segmentShadow_ext _ r) in Hss by done. destruct (Hsh rec shadow Hss) as (ps' & c' & Hsr' & _ & Hhead).
    rewrite Hsr in Hsr'. injection Hsr' as <- <-.
    eapply lineage_segment; try done. eapply lineage_is_ref; [done|exact Ha|unfold u64 in *; lia|exact Hhead].
Qed.

(** C5: A checkpoint records the checkout.  On a store that nothing else writes
    meanwhile, [CheckpointWith] of a branch its checks admit succeeds; the ref
    then names the next transaction as its head, under the epoch the
    checkpoint's lease minted, records the checkpoint by name and carries no
    lease; and the new head's chain, a snapshot or the old chain and a segment of
    the changed pages, materializes to the checkout as it was quiesced. *)
Theorem checkpoint_durable :
  calm w → ValidateName db = Ok tt → ValidateName branch = Ok tt → ValidateName name = Ok tt →
  ValidateMeta meta = Ok tt → store_ready → checkout_ready →
  r_lease_holder r ≠ holder → checkpoint_check holder name co opts (w_now w) r = Ok tt →
  rn_lost en = None → rn_stop en = None →
  ∃ result co' w' r', CheckpointWith en db branch name meta opts co w = (Ok (result, co'), w')
    ∧ ref_at (RefKey db branch) (w_objs w') r'
    ∧ r_lineage r' = r_lineage r ∧ r_head_txid r' = r_head_txid r + 1 ∧ r_head_epoch r' = r_epoch r + 1
    ∧ r_lease_holder r' = ""%string ∧ cp_txid <$> r_checkpoints r' !! name = Some (r_head_txid r + 1)
    ∧ head_is ps (w_objs w') r' (file, commit).
Proof.
  intros Hc Hdb Hbr Hnm Hme Hst Hco Hnh Hck Hlost Hstop.
  pose proof Hst as [(Ho & Hd) Hcps _ _ _ (Hu1 & Hu2 & Hhe)]. pose proof Hco as [(Hq & Hv & Hfile) Hsh].
  destruct (check_ok _ _ _ _ _ _ Hnh Hck) as (Hdel & Hrp & Hl & Hfree).
  set (r1 := leased r holder (leaseTTL opts) (w_now w)).
  destruct (decodeRef_ok _ _ Hd) as (_ & _ & [Hsch _] & _).
  assert (decodeRef (encodeRef r1) = Ok r1) as Hd1.
  { rewrite decodeRef_encodeRef by done. f_equal. apply normalizeRef_normal. split; [done|]. intros. by destruct Hhe. }
  set (w1 := store_at (RefKey db branch) (Some (ORef (encodeRef r1))) w).
  destruct (members_calm co1 r1 opts w1) as [members Hm]; [done|].
  destruct (encode_checkpoint_ok ps file commit (en_snapshotEvery en) co1 r1 members opts) as (e & He & _ & Henc); try done.
  { intros rec shadow. rewrite (segmentShadow_ext _ r) by done. intros Hss.
    destruct (Hsh _ _ Hss) as (ps' & c & ? & ? & _). eauto. }
  destruct (committed_lineage e (leaseTTL opts) (ORef (encodeRef r1)) (ORef (encodeRef
    (advance (mkCommit db branch name meta (e_kind e) (mkLease db branch holder (r_epoch r + 1) (w_now w + leaseTTL opts))
      (r_lineage r1) (r_head_txid r1 + 1)) (w_now w1) r1))) Hst Hco Henc) as [Hk Hlin].
  assert (e_key e ≠ RefKey db branch) as Hne by (intros E; by rewrite E, Ho in Hk).
  edestruct (checkpointLeased_calm en db branch name meta opts co
    (mkLease db branch holder (r_epoch r + 1) (w_now w + leaseTTL opts)) r1 w1 file e) as (w' & E & Hc' & Ho');
    [done|done|done|unfold w1; by rewrite store_at_lookup|done|done|done|done|done|unfold w1; by rewrite store_at_lookup_ne|done| |exact Hm|exact He|].
  { unfold premise, ours. cbn [c_lease c_lineage c_txid l_holder l_epoch].
    replace (sub64 (r_head_txid r1 + 1) 1) with (r_head_txid r1).
    - rewrite !bool_decide_eq_true_2, !N.eqb_refl by done. unfold r1. cbn. by rewrite Hdel, Hrp.
    - rewrite <-(add64_small (r_head_txid r1) 1) by done. symmetry. apply sub64_add64. unfold u64. cbn. lia. }
  eexists _, _, w', _. split_and!.
  - unfold CheckpointWith. rewrite io_bind_eq. unfold lift. rewrite Hdb, io_bind_eq, Hbr, io_bind_eq, Hnm, io_bind_eq, Hme.
    rewrite io_bind_eq. rewrite (acquire_calm _ _ _ _ _ w wire r) by done. fold r1. fold w1.
    rewrite io_bind_eq. unfold try. rewrite E. done.
  - exists (encodeRef (advance (mkCommit db branch name meta (e_kind e) (mkLease db branch holder (r_epoch r + 1) (w_now w + leaseTTL opts))
      (r_lineage r1) (r_head_txid r1 + 1)) (w_now w1) r1)).
    split; [rewrite Ho'; unfold committed_objs; by rewrite lookup_insert_eq|]. apply decodeRef_encodeRef.
    unfold cps_nonzero. cbn. apply map_Forall_insert_2; [cbn; lia|done].
  - done.
  - done.
  - cbn. by rewrite (proj2 (N.eqb_neq _ 0)) by lia.
  - done.
  - cbn. by rewrite lookup_insert_eq.
  - unfold head_is. rewrite Ho'. unfold committed_objs, w1. rewrite store_at_insert. exact Hlin.
Qed.
End durable.
End content.
