(* ===== verification/CheckpointExamples.v ===== *)
(** * Checkpoints, evaluated

    Concrete instances of the theorems on at-rest checkpoints over [LtxModel]:
    the branch [app@main], whose lineage ["a"] holds one snapshot, and a checkout
    that grew by a page since. *)
From Stdlib Require Import Ascii String Strings.Byte.
From S2P Require Import Prelude GoStrings Keys Refs Backend Chain ChainFacts ChainProps Store Rely Lease Files Ltx LtxProps LtxModel Session SessionProps SessionRun SessionExamples Content Delta DeltaProps Checkpoint CheckpointProps CheckpointRun.
Local Open Scope N_scope.

#[local] Existing Instance model_lib.

Definition cx_shadow : bytes := ex_db 1 x00.
Definition cx_file : bytes := ex_db 2 x07.
Definition cx_sum : N := get_ok 0 (checksumPages cx_shadow ex_ps 1).

Lemma cx_shadow_file : db_file ex_ps cx_shadow 1.
Proof. apply (ex_db_file 1 x00); by vm_compute. Qed.
Lemma cx_file_file : db_file ex_ps cx_file 2.
Proof. apply (ex_db_file 2 x07); by vm_compute. Qed.

Local Abbreviation cx_diff := (diffPages cx_file cx_shadow cx_sum).

Lemma delta_roundtrip_witness :
  ∃ pages total post obj g, cx_diff = Ok (pages, 2, ex_ps, total, post)
    ∧ EncodeSegment ex_ps 2 2 2 cx_sum post pages = Ok obj
    ∧ applySegments true cx_shadow ex_ps (2 - 1) 1 cx_sum [obj] = Ok (g, 2, post) ∧ same_db ex_ps g cx_file 2.
Proof.
  assert (is_ok cx_diff = true) as Hok by (vm_compute; reflexivity).
  assert (cx_sum =? 0 = false) as Hpre%N.eqb_neq by (vm_compute; reflexivity).
  assert ((λ x, (x.1.1.1.2, x.1.1.2)) <$> cx_diff = Ok (2, ex_ps)) as Hx by (vm_compute; reflexivity).
  destruct cx_diff as [[[[[pages c] ps] total] post]|] eqn:Hd; [|done].
  injection Hx as -> ->. destruct cx_shadow_file as [Hsh [Hsl _]].
  destruct (delta_roundtrip cx_file cx_shadow cx_sum pages 2 ex_ps total post 1 2 cx_shadow Hd)
    as (_ & _ & _ & obj & g & He & Ha & Hg); [exact Hpre|exact Hsh|apply cx_file_file|exact Hsl|done|done|by apply same_db_refl|].
  exists pages, total, post, obj, g. split; [reflexivity|]. split; [exact He|]. split; [exact Ha|exact Hg].
Defined.

(** ** A checkpoint of a grown checkout *)

Definition cx_snap : bytes := get_ok [] (fst <$> EncodeSnapshot cx_shadow 1).
Definition cx_ref : Ref :=
  mkRef 2 "a" 1 1 1 {["init" := mkCheckpoint 1 1 "" ∅ "snapshot"]} "" false "" NoStamp NoTTL NoStamp false false NoStamp ∅ None.
Definition cx_store (o : object) : objs :=
  <[RefKey "app" "main" := ORef (encodeRef cx_ref)]> {[SnapshotKey "a" 1 1 := o]}.
Local Abbreviation cx_objs := (cx_store (obj_of cx_snap)).
Definition cx_side : sumRecord := mkSum "h" "a" 1 1 cx_sum "" 0 0 0 0 true [].
Definition cx_co : checkout := mkCheckout (Some cx_file) (Some cx_side) (Some cx_shadow).
Definition cx_env : checkpointEnv :=
  mkEnv "host/1" "0a0b0c0d" (Ok cx_file) None None (mkReads None (mkLive cx_file 0) None false 0) true 1048576 0 (λ _, "hash"%string).
Definition cx_opts : CheckpointOptions := mkOptions false false 0 0.
Definition cx_world : world := ex_world cx_objs [].

Lemma cx_keys_ne : RefKey "app" "main" ≠ SnapshotKey "a" 1 1.
Proof. done. Qed.

Lemma cx_head : head_is ex_ps cx_objs cx_ref (cx_shadow, 1).
Proof.
  exists [mkMember (SnapshotKey "a" 1 1) true 0 1 1]. split; [by vm_compute|].
  destruct (chain_snapshot ex_ps (proj1 ex_valid) (proj2 ex_valid) cx_shadow 1 1 cx_shadow_file) as (obj & He & Hc); [done|done|].
  exists obj, []. split; [|done]. apply Forall2_cons. split; [|constructor].
  assert (cx_objs !! SnapshotKey "a" 1 1 = Some (obj_of cx_snap)) as Ho.
  { exact (eq_trans (lookup_insert_ne _ _ _ _ cx_keys_ne) (lookup_singleton_eq _ _)). }
  assert (cx_snap = obj) as <- by (unfold cx_snap; by rewrite He). exact Ho.
Qed.

Lemma cx_store_ready : store_ready "app" "main" cx_world (encodeRef cx_ref) cx_ref [].
Proof.
  split.
  - split; [|by vm_compute]. apply lookup_insert_eq.
  - intros n cp Hn. cbn [cx_ref r_checkpoints] in Hn. apply lookup_singleton_Some in Hn as [_ <-]. done.
  - split_and!; [apply wf_store_check; by vm_compute|done|split; [|apply NoDup_singleton]]. apply spine_root. by vm_compute.
  - done.
  - intros y Hy. assert (members (view_of (w_objs cx_world)) (r_lineage cx_ref) = [mkMember (SnapshotKey "a" 1 1) true 0 1 1]) as E
      by by vm_compute.
    rewrite E in Hy. apply list_elem_of_singleton in Hy as ->. done.
  - done.
Qed.

Lemma cx_checkout_ready : checkout_ready ex_ps cx_env cx_opts cx_co cx_world cx_ref cx_file 2.
Proof.
  split; [split_and!; [done|apply ex_valid|apply cx_file_file]|].
  intros rec shadow [= <-]%segmentShadow_shadow.
  exists ex_ps, 1. destruct cx_shadow_file as [Hsh [Hsl _]]. split; [exact Hsh|]. split; [exact Hsl|apply cx_head].
Qed.

Lemma checkpoint_durable_witness :
  ∃ result co' w' r', CheckpointWith cx_env "app" "main" "v1" ∅ cx_opts cx_co cx_world = (Ok (result, co'), w')
    ∧ r_head_txid r' = 2 ∧ head_is ex_ps (w_objs w') r' (cx_file, 2).
Proof.
  destruct (checkpoint_durable ex_ps cx_env "app" "main" "v1" ∅ cx_opts cx_co cx_world (encodeRef cx_ref) cx_ref [] cx_file 2)
    as (result & co' & w' & r' & E & _ & _ & Hh & _ & _ & _ & Hd);
    [reflexivity|reflexivity|reflexivity|reflexivity|reflexivity|exact cx_store_ready|exact cx_checkout_ready
    |discriminate|reflexivity|reflexivity|reflexivity|].
  exists result, co', w', r'. split; [exact E|]. split; [exact Hh|exact Hd].
Defined.
