(* ===== verification/Repoint.v ===== *)
(** * Creating, forking and repointing branches

    [internal/ops/ops.go]: [createFromQuiesced], [Fork], [RollbackWith],
    [PromoteWith], [CompactWith], the safety forks, the share-or-copy decision
    [newLineageAt] and its copy paths, and [settleRepoint], which tells whether
    a ref write that reported failure landed; [internal/ops/materialize.go]:
    [materializeMembersAtBuffered].

    Modelled up to and including the ref write and its settling; the refresh of
    the local checkout that follows a repoint changes nothing in the store and
    is left out.  [every] is [Workspace.SnapshotEvery]; [side] is the sidecar of
    the checkout [headChain] consults; a checkout in Destroy's way is passed
    through to it. *)
From Stdlib Require Import Ascii String Strings.Byte.
From S2P Require Import Prelude GoStrings Keys Refs Backend Chain Store Lease Gc Claims Files Ltx Content Delta Checkpoint.
Local Open Scope string_scope.

(** ** Settling a ref write *)

Inductive repointVerdict := repointNotLanded | repointLanded | repointUnknown.

#[global] Instance repointVerdict_eq_dec : EqDecision repointVerdict.
Proof. solve_decision. Defined.

Definition settleRepoint (db branch lineage prevLineage : string) (putErr : error) : IO repointVerdict :=
  g ← try (GetRef db branch);
  match g with
  | Err gerr => if errors_Is gerr ErrNotFound then mret repointUnknown else fail putErr
  | Ok (ref, _) =>
      if bool_decide (r_lineage ref = lineage) then mret repointLanded
      else if negb (bool_decide (prevLineage = "")) && bool_decide (r_lineage ref = prevLineage) then mret repointNotLanded
      else mret repointUnknown
  end.

Section repoint.
  Context `{LtxLib} (every : Z).

(** ** Copying a state into a lineage *)

Fixpoint fetch_members (members : list ChainMember) : IO (list bytes) :=
  match members with
  | [] => mret []
  | m :: members =>
      '(o, _) ← Get (m_key m);
      match o with
      | OBytes s =>
          rest ← fetch_members members;
          mret (list_byte_of_string s :: rest)
      | _ => fail [ECorrupt]
      end
  end.

(** [materializeMembersAtBuffered]: the file and its checksum. *)
Definition materializeMembersAt (members : list ChainMember) : IO (bytes * N) :=
  datas ← fetch_members members;
  match datas with
  | snap :: segs =>
      '(f, _, checksum) ← lift (MaterializeChain snap segs);
      mret (f, checksum)
  | [] => fail [EBadArgs]
  end.

(** The temporary file's name takes a random id too. *)
Definition copySnapshotIntoLineageFromChain (members : list ChainMember) (txid : N) (dst : string) : IO string :=
  _ ← NewLineageID;
  '(f, _) ← materializeMembersAt members;
  '(data, _) ← lift (EncodeSnapshot f txid);
  let key := SnapshotKey dst 1 txid in
  _ ← PutIf key (obj_of data) NoTag;
  mret key.

Definition copySnapshotIntoLineage (src : Ref) (cp : Checkpoint) (lineage : string) : IO string :=
  members ← reads (λ v, Chain v (r_lineage src) (cp_txid cp));
  copySnapshotIntoLineageFromChain members (cp_txid cp) lineage.

Definition tryFastForkCopy (members : list ChainMember) (txid : N) (lineage : string) : IO bool :=
  match members with
  | [m] =>
      if m_snapshot m then
        let dstKey := SnapshotKey lineage 1 txid in
        r ← try (CopyObject dstKey (m_key m));
        match r with
        | Err e => if errors_Is e ErrCopyUnsupported then mret false else fail e
        | Ok _ =>
            _ ← reads (λ v, Chain v lineage txid);
            mret true
        end
      else mret false
  | _ => mret false
  end.

Definition copySnapshotToNewLineageFromChain (txid : N) (members : list ChainMember) : IO (string * bool) :=
  lineage ← NewLineageID;
  ok ← tryFastForkCopy members txid lineage;
  if ok : bool then mret (lineage, true)
  else _ ← copySnapshotIntoLineageFromChain members txid lineage; mret (lineage, false).

Definition copySnapshotToNewLineage (src : Ref) (cp : Checkpoint) : IO (string * bool) :=
  members ← reads (λ v, Chain v (r_lineage src) (cp_txid cp));
  copySnapshotToNewLineageFromChain (cp_txid cp) members.

(** ** Share or materialize *)

Definition shareBound : Z := if (0 <? every)%Z then every else Z.of_nat ForkShareMaxDepth.

Definition materializes (members : list ChainMember) (materialize : bool) : bool :=
  materialize || (shareBound <=? Z.of_nat (length members))%Z.

Definition newLineageAt (src : Ref) (cp : Checkpoint) (members : list ChainMember) (materialize : bool)
    : IO (string * option BasePointer) :=
  if materializes members materialize then
    '(lineage, _) ← copySnapshotToNewLineageFromChain (cp_txid cp) members;
    mret (lineage, None)
  else
    baseLineage ← reads (λ v, CollapseBase v (r_lineage src) (cp_txid cp));
    lineage ← NewLineageID;
    _ ← EnsureLayoutV2;
    let bp := mkBase baseLineage (cp_txid cp) in
    _ ← WriteLineageBase lineage bp;
    mret (lineage, Some bp).

(** The chain at [cp]: the head's may be the recorded one. *)
Definition chainAt (side : option sumRecord) (src : Ref) (cp : Checkpoint) : IO (list ChainMember) :=
  if (cp_txid cp =? r_head_txid src)%N then headChain side src
  else reads (λ v, Chain v (r_lineage src) (cp_txid cp)).

(** ** Create *)

Definition snapshotTo (file : bytes) (txid : N) : IO string :=
  lineage ← NewLineageID;
  '(data, _) ← lift (EncodeSnapshot file txid);
  _ ← PutIf (SnapshotKey lineage 1 txid) (obj_of data) NoTag;
  mret lineage.

Definition created_ref (lineage : string) (t : Z) : Ref :=
  SetCheckpoint "init" (mkCheckpoint 1 1 (nowStamp t) ∅ "snapshot")
    (mkRef 0 lineage 1 1 0 ∅ "" true "" NoStamp NoTTL NoStamp false false NoStamp ∅ None).

(** [PutRef] of a ref no earlier one is replaced by, settled. *)
Definition put_new_ref (db branch : string) (ref : Ref) : IO unit :=
  p ← try (PutRef db branch ref NoTag);
  match p with
  | Ok _ => mret tt
  | Err e =>
      verdict ← settleRepoint db branch (r_lineage ref) "" e;
      match verdict with
      | repointLanded => mret tt
      | _ => if errors_Is e ErrCAS then fail [EExists] else fail e
      end
  end.

Definition createFromQuiesced (db : string) (file : bytes) : IO unit :=
  keys ← ListKeys (RefKey db "");
  if negb (bool_decide (keys = [])) then fail [EExists] else
  lineage ← snapshotTo file 1;
  t ← now;
  put_new_ref db "main" (created_ref lineage t).

(** ** Fork *)

Definition parentOf (db branch : string) (txid : N) : string :=
  db +:+ "@" +:+ branch +:+ "@" +:+ fmt_d txid.

Definition fork_ref (db srcBranch lineage : string) (txid : N) (ttl : Z) (meta : gmap string string)
    (base : option BasePointer) (t : Z) : Ref :=
  SetCheckpoint "fork" (mkCheckpoint txid 1 (nowStamp t) ∅ "")
    (mkRef 0 lineage 1 txid 1 ∅ (parentOf db srcBranch txid) false "" NoStamp
       (if (0 <? ttl)%Z then TTLof ttl else NoTTL) (At t) false false NoStamp meta base).

Definition forkWith (side : option sumRecord) (db srcBranch newBranch at_ : string) (ttl : Z)
    (meta : gmap string string) : IO N :=
  if (ttl <? 0)%Z then fail [EBadArgs] else
  _ ← lift (ValidateName newBranch);
  _ ← lift (ValidateMeta meta);
  '(src, _) ← GetRef db srcBranch;
  cp ← (if negb (bool_decide (at_ = "")) then
          _ ← lift (ValidateName at_);
          match r_checkpoints src !! at_ with
          | Some c => mret c
          | None => fail [ENoCheckpoint]
          end
        else mret (headCheckpoint src));
  baseMembers ← chainAt side src cp;
  _ ← (if materializes baseMembers false then
         g ← try (Get (RefKey db newBranch));
         match g with
         | Ok _ => fail [EExists]
         | Err e => if errors_Is e ErrNotFound then mret tt else fail e
         end
       else mret tt);
  '(lineage, base) ← newLineageAt src cp baseMembers false;
  t ← now;
  _ ← put_new_ref db newBranch (fork_ref db srcBranch lineage (cp_txid cp) ttl meta base t);
  mret (cp_txid cp).

Definition Fork (side : option sumRecord) (db srcBranch newBranch at_ : string) (ttl : Z) (meta : gmap string string) : IO N :=
  forkWith side db srcBranch newBranch at_ ttl meta.

(** ** Safety forks *)

Definition DefaultPromoteBackupTTL : Z := 24 * 3600 * second.

Definition safetyFork (side : option sumRecord) (old : option (N * res unit)) (db branch suffix metaKey : string) (ttl : Z)
    : IO string :=
  let name := branch +:+ suffix in
  _ ← lift (ValidateName name);
  let ttl := if (ttl <=? 0)%Z then DefaultPromoteBackupTTL else ttl in
  g ← try (GetRef db name);
  _ ← match g with
      | Ok (existing, _) =>
          if negb (bool_decide (default "" (r_meta existing !! metaKey) = branch)) then fail [EExists]
          else Destroy db name false old
      | Err e => if errors_Is e ErrNotFound then mret tt else fail e
      end;
  _ ← forkWith side db branch name "" ttl {[metaKey := branch]};
  mret name.

(** ** Repointing *)

(** The ref write of a repoint over [tag], settled; [cleanup] removes the new
    lineage's objects, once the write is known not to have landed. *)
Definition put_repoint (db branch : string) (next : Ref) (prevLineage : string) (tag : etag) (cleanup : IO unit) : IO unit :=
  p ← try (PutRef db branch next tag);
  match p with
  | Ok _ => mret tt
  | Err e =>
      verdict ← settleRepoint db branch (r_lineage next) prevLineage e;
      match verdict with
      | repointLanded => mret tt
      | repointNotLanded => _ ← cleanup; fail e
      | repointUnknown => fail e
      end
  end.

Fixpoint delete_all (keys : list string) : IO unit :=
  match keys with
  | [] => mret tt
  | k :: keys => _ ← bestEffortDelete k; delete_all keys
  end.

(** The copies of the checkpoints beside the one already copied: one per
    transaction, in some order of the map; the keys copied, and on a failed copy
    they are removed again. *)
Fixpoint copy_kept (src : Ref) (lineage : string) (cps : list Checkpoint) (seen : gset N) (copied : list string)
    : IO (list string) :=
  match cps with
  | [] => mret copied
  | c :: cps =>
      if bool_decide (cp_txid c ∈ seen) then copy_kept src lineage cps seen copied
      else
        r ← try (copySnapshotIntoLineage src c lineage);
        match r with
        | Err e => _ ← delete_all copied; fail e
        | Ok key => copy_kept src lineage cps ({[cp_txid c]} ∪ seen) (copied ++ [key])%list
        end
  end.

(** A checkpoint whose snapshot was copied into a fresh lineage. *)
Definition relocated (c : Checkpoint) : Checkpoint :=
  mkCheckpoint (cp_txid c) 1 (cp_created c) (cp_meta c) "snapshot".

(** [next] of a repoint to [lineage] at [txid]: a fresh lineage starts at epoch
    1, and the old lease does not carry over. *)
Definition repointed (lineage : string) (txid : N) (cps : gmap string Checkpoint) (base : option BasePointer) (t : Z)
    (ref : Ref) : Ref :=
  Touch t (set_lease_expiry NoStamp (set_lease_holder ""
    (set_base base (set_checkpoints cps (set_head_epoch 1 (set_head_txid txid (set_epoch 1 (set_lineage lineage ref)))))))).

Record RollbackOptions := mkRollback {
  ro_Force : bool;
  ro_NoBackup : bool;
  ro_BackupTTL : Z;
  ro_Materialize : bool }.

Record RollbackResult := mkRollbackResult {
  rr_Backup : string;
  rr_Shared : bool;
  rr_BackupIsTarget : bool;
  rr_AbandonedFrom : N;
  rr_AbandonedTo : N }.

(** The checkpoints at or before the target. *)
Definition kept_at (txid : N) (cps : gmap string Checkpoint) : gmap string Checkpoint :=
  filter (λ '(_, c), (cp_txid c <= txid)%N) cps.

Definition RollbackWith (side : option sumRecord) (old : option (N * res unit)) (db branch to : string) (opts : RollbackOptions)
    : IO RollbackResult :=
  _ ← lift (ValidateName db);
  _ ← lift (ValidateName branch);
  _ ← lift (ValidateName to);
  '(ref, tag) ← GetRef db branch;
  t ← now;
  _ ← lift (refuseIfHeld ref "rollback" (ro_Force opts) t);
  match r_checkpoints ref !! to with
  | None => fail [ENoCheckpoint]
  | Some cp =>
      let txid := cp_txid cp in
      let '(from, upto) := if (txid <? r_head_txid ref)%N then (add64 txid 1, r_head_txid ref) else (0%N, 0%N) in
      backup ← (if ro_NoBackup opts then mret ""
                else safetyFork side old db branch "-pre-rollback" "offshoot.pre-rollback" (ro_BackupTTL opts));
      members ← chainAt side ref cp;
      '(lineage, base) ← newLineageAt ref cp members (ro_Materialize opts);
      let kept := kept_at txid (r_checkpoints ref) in
      '(kept, copied) ← match base with
                        | Some _ => mret (kept, [BaseKey lineage])
                        | None =>
                            copied ← copy_kept ref lineage (map_to_list kept).*2 {[txid]} [SnapshotKey lineage 1 txid];
                            mret (relocated <$> kept, copied)
                        end;
      t ← now;
      _ ← put_repoint db branch (repointed lineage txid kept base t ref) (r_lineage ref) tag (delete_all copied);
      mret (mkRollbackResult backup (bool_decide (is_Some base)) (r_head_txid ref =? txid)%N from upto)
  end.

Record PromoteOptions := mkPromote {
  po_Force : bool;
  po_NoBackup : bool;
  po_BackupTTL : Z;
  po_Materialize : bool }.

Record PromoteResult := mkPromoteResult {
  pr_TXID : N;
  pr_Backup : string;
  pr_Shared : bool }.

(** [sideT] is the target checkout's sidecar, for the safety fork of the target. *)
Definition PromoteWith (side sideT : option sumRecord) (old : option (N * res unit)) (db source target : string)
    (opts : PromoteOptions) : IO PromoteResult :=
  if bool_decide (source = target) then fail [EBadArgs] else
  _ ← lift (ValidateName db);
  _ ← lift (ValidateName source);
  _ ← lift (ValidateName target);
  '(src, _) ← GetRef db source;
  '(tgt, tgtTag) ← GetRef db target;
  t ← now;
  _ ← lift (refuseIfHeld tgt "promote onto" (po_Force opts) t);
  if r_protected tgt && negb (po_Force opts) then fail [EProtected] else
  backup ← (if negb (po_NoBackup opts)
               && negb (bool_decide (source = target +:+ "-pre-promote")
                        && bool_decide (default "" (r_meta src !! "offshoot.pre-promote") = target))
            then safetyFork sideT old db target "-pre-promote" "offshoot.pre-promote" (po_BackupTTL opts)
            else mret "");
  let cp := headCheckpoint src in
  let txid := cp_txid cp in
  members ← headChain side src;
  '(lineage, base) ← newLineageAt src cp members (po_Materialize opts);
  t ← now;
  let next := set_parent (parentOf db source txid)
    (repointed lineage txid {["promote" := mkCheckpoint txid 1 (nowStamp t) ∅ ""]} base t tgt) in
  let orphan := match base with Some _ => BaseKey lineage | None => SnapshotKey lineage 1 txid end in
  _ ← put_repoint db target next (r_lineage tgt) tgtTag (bestEffortDelete orphan);
  mret (mkPromoteResult txid backup (bool_decide (is_Some base))).

(** The checkpoints of a compacted branch: every one relocated, and the head
    named when the name is free. *)
Definition compacted (txid : N) (t : Z) (cps : gmap string Checkpoint) : gmap string Checkpoint :=
  let kept := relocated <$> cps in
  match kept !! "compact" with
  | Some _ => kept
  | None => <["compact" := mkCheckpoint txid 1 (nowStamp t) ∅ "snapshot"]> kept
  end.

Definition CompactWith (db branch : string) (force : bool) : IO N :=
  _ ← lift (ValidateName db);
  _ ← lift (ValidateName branch);
  '(ref, tag) ← GetRef db branch;
  t ← now;
  _ ← lift (refuseIfHeld ref "compact" force t);
  spine ← reads (λ v, BaseSpine v (r_lineage ref));
  if bool_decide (spine = []) then mret (r_head_txid ref) else
  let cp := headCheckpoint ref in
  let txid := cp_txid cp in
  '(lineage, _) ← copySnapshotToNewLineage ref cp;
  copied ← copy_kept ref lineage (map_to_list (r_checkpoints ref)).*2 {[txid]} [SnapshotKey lineage 1 txid];
  t ← now;
  let next := repointed lineage txid (compacted txid t (r_checkpoints ref)) None t ref in
  _ ← put_repoint db branch next (r_lineage ref) tag (delete_all copied);
  mret txid.
End repoint.
