(* ===== verification/RepointProps.v ===== *)
(** * Repoints: the guarantee and the settling of lost replies

    Every ref write of create, fork, rollback, promote and compact keeps
    [ref_guar] or moves the branch, unleased, to a lineage minted by the call
    ([minted]); and a repoint never both lands and removes its objects. *)
From Stdlib Require Import Ascii String Strings.Byte.
From S2P Require Import Prelude GoStrings Keys Refs Backend Chain Store Rely Lease Gc Claims ClaimsProps Files Ltx Content Delta Checkpoint CheckpointProps Repoint.
Local Open Scope string_scope.

(** ** The guarantee *)

Definition minted (ids : nat → string) (x : write) : Prop :=
  ref_guar x ∨ ∃ n b, wr_after x = Some (ORef b) ∧ w_lineage b = ids n ∧ w_lease_holder b = "".

Lemma spec_minted {A} ids (Q : A → Prop) (m : IO A) : spec ref_guar Q m → ispec ids (minted ids) Q m.
Proof. intros Hm. apply ispec_spec. eapply spec_mono; [|exact Hm]. by left. Qed.

Lemma spec_settleRepoint db branch lineage prev e : spec ref_guar (λ _, True) (settleRepoint db branch lineage prev e).
Proof.
  unfold settleRepoint. eapply spec_bind; [apply spec_try, spec_GetRef|]. intros [[ref tag]|ge] _;
    repeat (spec_step; try apply spec_fail); done.
Qed.

Lemma spec_PutIf_object key data t : spec ref_guar (λ _, True) (PutIf key (obj_of data) t).
Proof. eapply spec_weaken; [|apply spec_PutIf]; [done|]. intros. apply ref_guar_object. Qed.

Lemma spec_EnsureLayoutV2 : spec ref_guar (λ _, True) EnsureLayoutV2.
Proof.
  unfold EnsureLayoutV2. eapply spec_bind; [apply spec_layout2|]. intros [] _; [by apply spec_ret|].
  apply spec_loop. eapply spec_bind; [apply spec_Get|]. intros [o tag] Hr. destruct o; try apply spec_fail.
  spec_step; [eapply spec_bind; [apply spec_set_layout2|intros; by apply spec_ret]|].
  eapply spec_bind; [apply spec_try, spec_PutIf; intros b τ _; by destruct b as [[]|]|]. intros [t|e] _.
  - eapply spec_bind; [apply spec_set_layout2|intros; by apply spec_ret].
  - spec_step; [by apply spec_ret|apply spec_fail].
Qed.

Lemma spec_WriteLineageBase L b : spec ref_guar (λ _, True) (WriteLineageBase L b).
Proof.
  unfold WriteLineageBase. spec_step; [apply spec_fail|].
  eapply spec_bind; [apply spec_PutIf; intros x τ _; by destruct x as [[]|]|]. intros. by apply spec_ret.
Qed.

Lemma spec_delete_all keys : spec ref_guar (λ _, True) (delete_all keys).
Proof.
  induction keys as [|k keys IH]; [by apply spec_ret|]. cbn [delete_all].
  eapply spec_bind; [apply spec_bestEffortDelete|done].
Qed.

Section guarantee.
  Context `{LtxLib} (every : Z) (ids : nat → string).
  Local Abbreviation Any := (λ _, True).

Lemma spec_fetch_members ms : spec ref_guar Any (fetch_members ms).
Proof.
  induction ms as [|x ms IH]; [by apply spec_ret|]. cbn [fetch_members].
  eapply spec_bind; [apply spec_Get|]. intros [o t] _. destruct o; try apply spec_fail.
  eapply spec_bind; [apply IH|]. intros. by apply spec_ret.
Qed.

Lemma spec_copyFromChain ms txid dst : spec ref_guar Any (copySnapshotIntoLineageFromChain ms txid dst).
Proof.
  unfold copySnapshotIntoLineageFromChain, materializeMembersAt. eapply spec_bind; [apply spec_NewLineageID|]. intros _ _.
  eapply spec_bind with (Q := Any).
  { eapply spec_bind; [apply spec_fetch_members|]. intros [|snap segs] _; [apply spec_fail|].
    eapply spec_bind; [by apply spec_lift with (Q := Any)|]. intros [[f t] sum] _. by apply spec_ret. }
  intros [f sum] _. eapply spec_bind; [by apply spec_lift with (Q := Any)|]. intros [data s] _.
  eapply spec_bind; [apply spec_PutIf_object|]. intros. by apply spec_ret.
Qed.

Lemma spec_copySnapshotIntoLineage src cp L : spec ref_guar Any (copySnapshotIntoLineage src cp L).
Proof.
  unfold copySnapshotIntoLineage. eapply spec_bind; [apply spec_reads|]. intros. apply spec_copyFromChain.
Qed.

Lemma spec_copy_kept src L cps : ∀ seen copied, spec ref_guar Any (copy_kept src L cps seen copied).
Proof.
  induction cps as [|c cps IH]; intros seen copied; [by apply spec_ret|]. cbn [copy_kept].
  spec_step; [apply IH|]. eapply spec_bind; [apply spec_try, spec_copySnapshotIntoLineage|]. intros [k|e] _; [apply IH|].
  eapply spec_bind; [apply spec_delete_all|intros; apply spec_fail].
Qed.


Definition owned (x : write) : Prop := minted ids x ∨ ∃ L txid, wr_key x = SnapshotKey L 1 txid.

Lemma spec_owned {A} (Q : A → Prop) (m : IO A) : spec ref_guar Q m → ispec ids owned Q m.
Proof. intros Hm. apply ispec_spec. eapply spec_mono; [|exact Hm]. intros x Hx. left. by left. Qed.

Lemma ispec_tryFastForkCopy ms txid L : ispec ids owned Any (tryFastForkCopy ms txid L).
Proof.
  unfold tryFastForkCopy. destruct ms as [|x [|]]; try (by apply ispec_spec, spec_ret).
  destruct (m_snapshot x); [|by apply ispec_spec, spec_ret].
  eapply ispec_bind; [apply ispec_try, ispec_spec, spec_CopyObject; intros; right; by exists L, txid|].
  intros [u|e] _.
  - eapply ispec_bind; [apply ispec_spec, spec_reads|]. intros. by apply ispec_spec, spec_ret.
  - destruct (errors_Is e ErrCopyUnsupported); apply ispec_spec; [by apply spec_ret|apply spec_fail].
Qed.

Lemma ispec_copyToNew txid ms : ispec ids owned (λ p, ∃ n, p.1 = ids n) (copySnapshotToNewLineageFromChain txid ms).
Proof.
  unfold copySnapshotToNewLineageFromChain. eapply ispec_bind; [apply ispec_NewLineageID|]. intros L HL.
  eapply ispec_bind; [apply ispec_tryFastForkCopy|]. intros [] _; [by apply ispec_spec, spec_ret|].
  eapply ispec_bind; [apply spec_owned, spec_copyFromChain|]. intros. by apply ispec_spec, spec_ret.
Qed.

Lemma ispec_newLineageAt src cp ms mat : ispec ids owned (λ p, ∃ n, p.1 = ids n) (newLineageAt every src cp ms mat).
Proof.
  unfold newLineageAt. destruct (materializes every ms mat).
  - eapply ispec_bind; [apply ispec_copyToNew|]. intros [L fast] HL. by apply ispec_spec, spec_ret.
  - eapply ispec_bind; [apply ispec_spec, spec_reads|]. intros base _.
    eapply ispec_bind; [apply ispec_NewLineageID|]. intros L HL.
    eapply ispec_bind; [apply spec_owned, spec_EnsureLayoutV2|]. intros _ _.
    eapply ispec_bind; [apply spec_owned, spec_WriteLineageBase|]. intros. by apply ispec_spec, spec_ret.
Qed.

(** A ref write that moves the branch, unleased, to a minted lineage. *)
Lemma ispec_PutRef_minted db branch r tag :
  (∃ n, r_lineage r = ids n) → r_lease_holder r = "" → ispec ids owned Any (PutRef db branch r tag).
Proof.
  intros [n Hn] Hh. apply ispec_spec. eapply spec_weaken; [|apply spec_PutRef]; [done|].
  intros b τ _ _ _. left. right. exists n, (encodeRef r). done.
Qed.

Lemma ispec_put_new_ref db branch r :
  (∃ n, r_lineage r = ids n) → r_lease_holder r = "" → ispec ids owned Any (put_new_ref db branch r).
Proof.
  intros Hn Hh. unfold put_new_ref. eapply ispec_bind; [by apply ispec_try, ispec_PutRef_minted|].
  intros [t|e] _; [by apply ispec_spec, spec_ret|].
  eapply ispec_bind; [apply spec_owned, spec_settleRepoint|]. intros [] _; apply ispec_spec;
    repeat (spec_step; try apply spec_fail); done.
Qed.

Lemma ispec_put_repoint db branch r prev tag cleanup :
  (∃ n, r_lineage r = ids n) → r_lease_holder r = "" → spec ref_guar Any cleanup →
  ispec ids owned Any (put_repoint db branch r prev tag cleanup).
Proof.
  intros Hn Hh Hc. unfold put_repoint. eapply ispec_bind; [by apply ispec_try, ispec_PutRef_minted|].
  intros [t|e] _; [by apply ispec_spec, spec_ret|].
  eapply ispec_bind; [apply spec_owned, spec_settleRepoint|]. intros [] _.
  - eapply ispec_bind; [apply spec_owned, Hc|]. intros. apply ispec_spec, spec_fail.
  - by apply ispec_spec, spec_ret.
  - apply ispec_spec, spec_fail.
Qed.

Lemma spec_chainAt side src cp : spec ref_guar Any (chainAt side src cp).
Proof.
  unfold chainAt. spec_step; [apply spec_headChain|]. eapply spec_weaken; [|apply spec_reads]. done.
Qed.

Lemma ispec_createFromQuiesced db file : ispec ids owned Any (createFromQuiesced db file).
Proof.
  unfold createFromQuiesced, snapshotTo. eapply ispec_bind; [apply ispec_spec, spec_ListKeys|]. intros keys _.
  destruct (negb _); [apply ispec_spec, spec_fail|].
  eapply ispec_bind with (Q := λ L, ∃ n, L = ids n).
  { eapply ispec_bind; [apply ispec_NewLineageID|]. intros L HL.
    eapply ispec_bind; [by apply ispec_spec, spec_lift with (Q := Any)|]. intros [data s] _.
    eapply ispec_bind; [apply spec_owned, spec_PutIf_object|]. intros. by apply ispec_spec, spec_ret. }
  intros L HL. eapply ispec_bind; [apply ispec_spec, spec_now|]. intros t _. by apply ispec_put_new_ref.
Qed.

Lemma ispec_forkWith side db src new at_ ttl meta : ispec ids owned Any (forkWith every side db src new at_ ttl meta).
Proof.
  unfold forkWith. destruct (ttl <? 0)%Z; [apply ispec_spec, spec_fail|].
  do 2 (eapply ispec_bind; [by apply ispec_spec, spec_lift with (Q := Any)|]; intros _ _).
  eapply ispec_bind; [apply ispec_spec, spec_GetRef|]. intros [s tag] _.
  eapply ispec_bind with (Q := Any).
  { apply ispec_spec. spec_step; [|by apply spec_ret].
    eapply spec_bind; [by apply spec_lift with (Q := Any)|]. intros _ _. spec_step; [by apply spec_ret|apply spec_fail]. }
  intros cp _. eapply ispec_bind; [apply spec_owned, spec_chainAt|]. intros ms _.
  eapply ispec_bind with (Q := Any).
  { apply ispec_spec. spec_step; [|by apply spec_ret].
    eapply spec_bind; [apply spec_try, spec_Get|]. intros [p|e] _; repeat (spec_step; try apply spec_fail); done. }
  intros _ _. eapply ispec_bind; [apply ispec_newLineageAt|]. intros [L base] HL. cbn [fst] in HL.
  eapply ispec_bind; [apply ispec_spec, spec_now|]. intros t _.
  eapply ispec_bind; [by apply ispec_put_new_ref|]. intros. by apply ispec_spec, spec_ret.
Qed.

Lemma ispec_safetyFork side old db branch suffix key ttl : ispec ids owned Any (safetyFork every side old db branch suffix key ttl).
Proof.
  unfold safetyFork. eapply ispec_bind; [by apply ispec_spec, spec_lift with (Q := Any)|]. intros _ _.
  eapply ispec_bind; [apply ispec_spec, spec_try, spec_GetRef|]. intros g _.
  eapply ispec_bind with (Q := Any).
  { apply spec_owned. destruct g as [[ex tag]|e].
    - spec_step; [apply spec_fail|apply spec_Destroy].
    - spec_step; [by apply spec_ret|apply spec_fail]. }
  intros _ _. eapply ispec_bind; [apply ispec_forkWith|]. intros. by apply ispec_spec, spec_ret.
Qed.

Lemma ispec_RollbackWith side old db branch to opts : ispec ids owned Any (RollbackWith every side old db branch to opts).
Proof.
  unfold RollbackWith. do 3 (eapply ispec_bind; [by apply ispec_spec, spec_lift with (Q := Any)|]; intros _ _).
  eapply ispec_bind; [apply ispec_spec, spec_GetRef|]. intros [ref tag] _.
  eapply ispec_bind; [apply ispec_spec, spec_now|]. intros t _.
  eapply ispec_bind; [by apply ispec_spec, spec_lift with (Q := Any)|]. intros _ _.
  destruct (r_checkpoints ref !! to) as [cp|]; [|apply ispec_spec, spec_fail].
  destruct (if (cp_txid cp <? r_head_txid ref)%N then _ else _) as [from upto].
  eapply ispec_bind with (Q := Any).
  { destruct (ro_NoBackup opts); [by apply ispec_spec, spec_ret|apply ispec_safetyFork]. }
  intros backup _. eapply ispec_bind; [apply spec_owned, spec_chainAt|]. intros ms _.
  eapply ispec_bind; [apply ispec_newLineageAt|]. intros [L base] HL. cbn [fst] in HL.
  eapply ispec_bind with (Q := Any).
  { apply spec_owned. destruct base; [by apply spec_ret|].
    eapply spec_bind; [apply spec_copy_kept|]. intros. by apply spec_ret. }
  intros [kept copied] _. eapply ispec_bind; [apply ispec_spec, spec_now|]. intros t' _.
  eapply ispec_bind; [apply ispec_put_repoint; [done|done|apply spec_delete_all]|]. intros. by apply ispec_spec, spec_ret.
Qed.

Lemma ispec_PromoteWith side sideT old db source target opts :
  ispec ids owned Any (PromoteWith every side sideT old db source target opts).
Proof.
  unfold PromoteWith. destruct (bool_decide (source = target)); [apply ispec_spec, spec_fail|].
  do 3 (eapply ispec_bind; [by apply ispec_spec, spec_lift with (Q := Any)|]; intros _ _).
  eapply ispec_bind; [apply ispec_spec, spec_GetRef|]. intros [src stag] _.
  eapply ispec_bind; [apply ispec_spec, spec_GetRef|]. intros [tgt tag] _.
  eapply ispec_bind; [apply ispec_spec, spec_now|]. intros t _.
  eapply ispec_bind; [by apply ispec_spec, spec_lift with (Q := Any)|]. intros _ _.
  destruct (_ && _); [apply ispec_spec, spec_fail|].
  eapply ispec_bind with (Q := Any).
  { destruct (_ && _); [apply ispec_safetyFork|by apply ispec_spec, spec_ret]. }
  intros backup _. eapply ispec_bind; [apply spec_owned, spec_headChain|]. intros ms _.
  eapply ispec_bind; [apply ispec_newLineageAt|]. intros [L base] HL. cbn [fst] in HL.
  eapply ispec_bind; [apply ispec_spec, spec_now|]. intros t' _.
  eapply ispec_bind; [apply ispec_put_repoint; [done|done|apply spec_bestEffortDelete]|].
  intros. by apply ispec_spec, spec_ret.
Qed.

Lemma ispec_CompactWith db branch force : ispec ids owned Any (CompactWith db branch force).
Proof.
  unfold CompactWith. do 2 (eapply ispec_bind; [by apply ispec_spec, spec_lift with (Q := Any)|]; intros _ _).
  eapply ispec_bind; [apply ispec_spec, spec_GetRef|]. intros [ref tag] _.
  eapply ispec_bind; [apply ispec_spec, spec_now|]. intros t _.
  eapply ispec_bind; [by apply ispec_spec, spec_lift with (Q := Any)|]. intros _ _.
  eapply ispec_bind; [apply ispec_spec, spec_reads|]. intros spine _.
  destruct (bool_decide (spine = [])); [by apply ispec_spec, spec_ret|].
  eapply ispec_bind with (Q := λ p, ∃ n, p.1 = ids n).
  { unfold copySnapshotToNewLineage. eapply ispec_bind; [apply ispec_spec, spec_reads|]. intros. apply ispec_copyToNew. }
  intros [L fast] HL. cbn [fst] in HL. eapply ispec_bind; [apply spec_owned, spec_copy_kept|]. intros copied _.
  eapply ispec_bind; [apply ispec_spec, spec_now|]. intros t' _.
  eapply ispec_bind; [apply ispec_put_repoint; [done|done|apply spec_delete_all]|].
  intros. by apply ispec_spec, spec_ret.
Qed.
End guarantee.

(** ** Settling *)

Section settled.
  Context (db branch : string) (next : Ref) (prev : string) (tag : etag) (keys : list string).
  Local Abbreviation key := (RefKey db branch).

(** The branch is not on the lineage [L]. *)
Definition off_lineage (L : string) (m : objs) : Prop := ∀ r, ref_at key m r → r_lineage r ≠ L.

(** The other processes neither move the branch to a lineage they did not mint
    nor bring it back to one it has left. *)
Definition repoint_rely (w : world) : Prop :=
  stable (off_lineage (r_lineage next)) w ∧ stable (off_lineage prev) w.

(** The ref write of the repoint, over the ref the tag was read with. *)
Definition repoint_write (x : write) : Prop :=
  ∃ before τ, kv_match before tag = true ∧ x = mkWrite key before (Some (ORef (encodeRef next))) τ.

Definition removes (x : write) : Prop := wr_key x ∈ keys ∧ wr_after x = None.

Lemma spec_delete_all_keys ks : ks ⊆ keys → spec removes (λ _, True) (delete_all ks).
Proof.
  induction ks as [|k ks IH]; intros Hk; [by apply spec_ret|]. cbn [delete_all]. unfold bestEffortDelete.
  eapply spec_bind with (Q := λ _, True).
  - eapply spec_bind; [apply spec_try, spec_Delete|intros; by apply spec_ret].
    intros b τ. split; [|done]. apply Hk. by left.
  - intros _ _. apply IH. intros x Hx. apply Hk. by right.
Qed.

Lemma put_repoint_ok w r w' :
  prev ≠ "" → r_lineage next ≠ prev → repoint_rely w → off_lineage (r_lineage next) (w_objs w) →
  put_repoint db branch next prev tag (delete_all keys) w = (r, w') →
  ∃ l, w_log w' = (l ++ w_log w)%list
    ∧ ((∃ x, l = [x] ∧ repoint_write x) ∨ (Forall removes l ∧ is_ok r = false)).
Proof.
  intros Hprev Hne [Hs1 Hs2] Hoff E. unfold put_repoint in E. rewrite io_bind_eq in E. unfold try in E.
  destruct (PutRef _ _ _ _ w) as [p w2] eqn:Ep. apply PutRef_cases in Ep as (w1 & [Hlog1 Hro] & Hcase).
  destruct (Hro _ Hs1) as [Hs1' Hoff1]. specialize (Hoff1 Hoff). destruct (Hro _ Hs2) as [Hs2' _].
  set (x := mkWrite key (w_objs w1 !! key) (Some (ORef (encodeRef next))) (w_now w1)).
  assert (Hone : repoint_write x → ∃ l, (x :: w_log w1 = l ++ w_log w)%list
    ∧ ((∃ x, l = [x] ∧ repoint_write x) ∨ (Forall removes l ∧ is_ok r = false))).
  { intros Hx. exists [x]. rewrite Hlog1. split; [done|]. left. eauto. }
  destruct p as [t|e].
  { rewrite io_ret_eq in E. simplify_eq. destruct Hcase as [[_ ?]|[Hm ->]]; [done|].
    apply Hone. exists (w_objs w1 !! key), (w_now w1). done. }
  rewrite io_bind_eq in E. unfold settleRepoint in E. rewrite io_bind_eq in E. unfold try in E.
  destruct (GetRef _ _ w2) as [g w3] eqn:Eg. apply GetRef_cases in Eg as [[Hlog3 Hro3] Hg].
  destruct Hcase as [[-> _]|[Hm ->]].
  - destruct (Hro3 _ Hs1') as [_ Hoff3]. specialize (Hoff3 Hoff1).
    assert (∀ rr, (rr, w3) = (r, w') → is_ok rr = false → ∃ l, w_log w' = (l ++ w_log w)%list
      ∧ ((∃ x, l = [x] ∧ repoint_write x) ∨ (Forall removes l ∧ is_ok r = false))) as Hno.
    { intros rr [= <- <-] Hrr. exists []. split; [simpl; congruence|]. right. split; [constructor|done]. }
    destruct g as [[cur tg]|ge].
    2: { destruct (errors_Is ge ErrNotFound); rewrite ?io_ret_eq in E; unfold fail in E; by apply (Hno _ E). }
    destruct (Hg _ _ eq_refl) as (wire & _ & Hd & Hat).
    assert (r_lineage cur ≠ r_lineage next) as Hcur by (apply Hoff3; by exists wire).
    rewrite bool_decide_eq_false_2 in E by done.
    destruct (_ && _); rewrite io_ret_eq in E; [|unfold fail in E; by apply (Hno _ E)].
    rewrite io_bind_eq in E. destruct (delete_all keys w3) as [d w4] eqn:Ed.
    apply (spec_delete_all_keys keys) in Ed as [(l & Hl & Hall & _) _]; [|done].
    exists l. assert (w_log w' = w_log w4 ∧ is_ok r = false) as [-> Hr] by (destruct d; unfold fail in E; by simplify_eq).
    split; [congruence|]. by right.
  - assert (repoint_write x) as Hx by (by exists (w_objs w1 !! key), (w_now w1)).
    assert (w_log w3 = x :: w_log w1) as Hl3 by (rewrite Hlog3; done).
    assert (∀ (rr : res unit), (rr, w3) = (r, w') → ∃ l, w_log w' = (l ++ w_log w)%list
      ∧ ((∃ x, l = [x] ∧ repoint_write x) ∨ (Forall removes l ∧ is_ok r = false))) as Hyes.
    { intros rr [= <- <-]. rewrite Hl3. by apply Hone. }
    assert (off_lineage prev (w_objs w3)) as Hoff3.
    { apply (Hro3 (off_lineage prev)); [done|]. intros r0 (wire & Hw & Hd). rewrite store_at_insert, lookup_insert_eq in Hw.
      simplify_eq. apply decode_encode_inv in Hd as ->. done. }
    destruct g as [[cur tg]|ge].
    2: { destruct (errors_Is ge ErrNotFound); rewrite ?io_ret_eq in E; unfold fail in E; by apply (Hyes _ E). }
    destruct (Hg _ _ eq_refl) as (wire & _ & Hd & Hat).
    assert (r_lineage cur ≠ prev) as Hcur by (apply Hoff3; by exists wire).
    destruct (bool_decide (r_lineage cur = _)); rewrite ?io_ret_eq in E; [by apply (Hyes _ E)|].
    rewrite (bool_decide_eq_false_2 (r_lineage cur = prev)), andb_false_r in E by done. rewrite io_ret_eq in E.
    unfold fail in E. by apply (Hyes _ E).
Qed.
End settled.

(** C16: The ref write that repoints a branch (rollback, promote, compact), with
    its settling and its cleanup, on every schedule in which the other
    processes do not move the branch to the call's own fresh lineage or back to
    the one it left.  Either the write landed, exactly once and over the very
    ref the call had read, and then nothing of the new lineage is removed,
    whatever the reply was; or it did not, and then the call reports an error and
    at most removes the objects it made.  In particular success means the write
    landed. *)
Theorem repoint_settled db branch next prev tag keys w :
  prev ≠ "" → r_lineage next ≠ prev → repoint_rely db branch next prev w →
  off_lineage db branch (r_lineage next) (w_objs w) →
  ∃ r w' l, put_repoint db branch next prev tag (delete_all keys) w = (r, w')
    ∧ w_log w' = (l ++ w_log w)%list
    ∧ ((∃ x, l = [x] ∧ repoint_write db branch next tag x) ∨ (Forall (removes keys) l ∧ is_ok r = false)).
Proof.
  intros Hp Hne Hr Ho. destruct (put_repoint db branch next prev tag (delete_all keys) w) as [r w'] eqn:E.
  destruct (put_repoint_ok _ _ _ _ _ _ _ _ _ Hp Hne Hr Ho E) as (l & Hl & Hv). by exists r, w', l.
Qed.

(** A rollback of [app@main] to the lineage [f]: the write lands, but the client
    library's retry of it reports a conflict. *)
Lemma repoint_settled_witness :
  ∃ r w' l, put_repoint "app" "main" (repointed "f" 3 ∅ None (100 * second) ex_ref) "a" (TagOf (ORef (encodeRef ex_ref)))
      (delete_all [SnapshotKey "f" 1 3]) (ex_world {[RefKey "app" "main" := ORef (encodeRef ex_ref)]} [mkTick id 0 FLostCAS None])
      = (r, w')
    ∧ w_log w' = (l ++ [])%list
    ∧ ((∃ x, l = [x] ∧ repoint_write "app" "main" (repointed "f" 3 ∅ None (100 * second) ex_ref) (TagOf (ORef (encodeRef ex_ref))) x)
       ∨ (Forall (removes [SnapshotKey "f" 1 3]) l ∧ is_ok r = false)).
Proof.
  apply (repoint_settled "app" "main" (repointed "f" 3 ∅ None (100 * second) ex_ref) "a").
  - done.
  - done.
  - split; repeat constructor; done.
  - intros r (wire & Hw & Hd). vm_compute in Hw. injection Hw as <-. vm_compute in Hd. injection Hd as <-. done.
Defined.
