(* ===== verification/NewLineage.v ===== *)
(** * What a fresh lineage holds

    Fork, rollback, promote and compact give a branch a lineage of its own at a
    chosen transaction, by naming the source as its base, by copying the source's
    one snapshot, or by materializing and encoding it anew.  Whichever it is, the
    new lineage holds what the source holds there, and no other lineage
    changes. *)
From Stdlib Require Import Ascii String Strings.Byte.
From S2P Require Import Prelude GoStrings Keys Refs Backend Chain ChainFacts ChainProps ChainGrow Store Rely Lease Files Ltx LtxProps LtxModel StreamProps Session SessionProps SessionRun Content Delta DeltaProps Checkpoint CheckpointProps CheckpointRun Repoint.
Local Open Scope N_scope.

(** ** Fresh lineages *)

(** No lineage is based on [L]. *)
Record own_id (m : objs) (L : string) : Prop := mk_own {
  oi_ok : lineage_ok L = true;
  oi_unnamed : ∀ L' b, m !! BaseKey L' = Some (OBase b) → bp_lineage b ≠ L }.

(** Nor is anything stored under it. *)
Record fresh_id (m : objs) (L : string) : Prop := mk_fresh {
  fi_own : own_id m L;
  fi_empty : ∀ k, is_Some (m !! k) → HasPrefix k (LineagePrefix L) = false }.

Definition has_manifest (m : objs) : Prop := ∃ v c, m !! manifestKey = Some (OManifest v c).

(** [m'] is [m] with objects of the lineage [L] (and the manifest's layout) on
    top: every other lineage resolves as before, to the same objects. *)
Record grown (m m' : objs) (L : string) : Prop := mk_grown {
  gr_chain : ∀ L' t, L' ≠ L → lineage_ok L' = true → Chain (view_of m') L' t = Chain (view_of m) L' t;
  gr_kept : ∀ k, HasPrefix k (LineagePrefix L) = false → k ≠ manifestKey → m' !! k = m !! k;
  gr_wf : wf_store m → wf_store m';
  gr_fresh : ∀ L', L' ≠ L → fresh_id m L' → fresh_id m' L';
  gr_manifest : has_manifest m → has_manifest m' }.

Lemma grown_refl m L : grown m m L.
Proof. split; done. Qed.

Lemma grown_trans m1 m2 m3 L : grown m1 m2 L → grown m2 m3 L → grown m1 m3 L.
Proof.
  intros [Hc1 Hk1 Hw1] [Hc2 Hk2 Hw2]. split.
  - intros L' t Hne Hok. by rewrite Hc2, Hc1.
  - intros k Hp Hm. by rewrite Hk2, Hk1.
  - auto.
  - auto.
  - auto.
Qed.

Lemma fresh_no_key m L k : fresh_id m L → HasPrefix k (LineagePrefix L) = true → m !! k = None.
Proof. intros [_ He] Hp. apply eq_None_not_Some. intros Hs. by rewrite He in Hp. Qed.

Lemma fresh_members m L : fresh_id m L → members (view_of m) L = [].
Proof.
  intros Hf. destruct (members (view_of m) L) as [|x l] eqn:E; [done|].
  assert (x ∈ members (view_of m) L) as Hx by (rewrite E; by left).
  apply members_view_of_elem in Hx as (k & [o Ho] & Hp & _). by rewrite (fresh_no_key _ _ _ Hf Hp) in Ho.
Qed.

Lemma fresh_acyclic m L : fresh_id m L → acyclic (view_of m) L [].
Proof.
  intros Hf. split; [|simpl; apply NoDup_singleton]. apply spine_root. rewrite lineageBase_view_of.
  by rewrite (fresh_no_key _ _ _ Hf (HasPrefix_BaseKey L)).
Qed.

(** The manifest is no part of any lineage. *)
Lemma manifest_other : (∀ L, manifestKey ≠ BaseKey L) ∧ ∀ L, HasPrefix manifestKey (LineagePrefix L) = false.
Proof.
  split; intros L; [done|]. apply not_true_is_false. rewrite HasPrefix_spec. intros [s Hs]. done.
Qed.

Lemma own_insert m L k o : (∀ b, o ≠ OBase b) → own_id m L → own_id (<[k:=o]> m) L.
Proof.
  intros Ho [Hok Hu]. split; [done|]. intros L' b. rewrite lookup_insert_Some. intros [[_ E]|[_ E]]; [by destruct (Ho b)|].
  by eapply Hu.
Qed.

Lemma fresh_manifest m L v c : fresh_id m L → fresh_id (<[manifestKey := OManifest v c]> m) L.
Proof.
  intros [Hok He]. split; [by apply own_insert|].
  intros k [o' Ho]. apply lookup_insert_Some in Ho as [[<- _]|[_ Ho]]; [apply manifest_other|]. by apply He.
Qed.

Lemma grown_manifest m v c L : grown m (<[manifestKey := OManifest v c]> m) L.
Proof.
  destruct manifest_other as [Hb Hp]. split.
  - intros L' t _ _. by apply Chain_insert_other.
  - intros k _ Hk. by rewrite lookup_insert_ne.
  - intros [Hw1 Hw2]. split.
    + intros L' b. rewrite lookup_insert_ne by done. apply Hw1.
    + intros k o' x. rewrite lookup_insert_Some. intros [[<- _]|[_ Ho]] Hx; [done|]. by eapply Hw2.
  - intros L' _. apply fresh_manifest.
  - intros _. exists v, c. by rewrite lookup_insert_eq.
Qed.

(** An object of a lineage no other is based on leaves the others alone. *)
Lemma Chain_insert_own m L k o L' t :
  wf_store m → own_id m L → HasPrefix k (LineagePrefix L) = true → L' ≠ L → lineage_ok L' = true →
  Chain (view_of (<[k:=o]> m)) L' t = Chain (view_of m) L' t.
Proof.
  intros Hwf Hf Hp Hne Hok.
  apply (Chain_ext (λ l, l ≠ L ∧ lineage_ok l = true)); [apply view_of_ok..| |done].
  intros l [Hl Hlok]. assert (HasPrefix k (LineagePrefix l) = false) as Hpl.
  { apply not_true_is_false. intros E. apply Hl. eapply LineagePrefix_inj; [done|apply Hf|done|done]. }
  assert (k ≠ BaseKey l) as Hkb by (intros ->; by rewrite HasPrefix_BaseKey in Hpl).
  rewrite lineageBase_insert by done. split_and!; [done| |].
  - unfold listMembers. simpl. by rewrite kv_list_insert_out'.
  - intros b Hb. split; [|by eapply wf_store_base].
    rewrite lineageBase_view_of in Hb. destruct (m !! BaseKey l) as [[]|] eqn:E; simplify_eq. by eapply oi_unnamed.
Qed.

Lemma grown_insert m L k o :
  wf_store m → own_id m L → HasPrefix k (LineagePrefix L) = true → wf_store (<[k:=o]> m) →
  (∀ b, o = OBase b → ¬ fresh_id m (bp_lineage b)) → grown m (<[k:=o]> m) L.
Proof.
  intros Hwf Hf Hp Hw Ho. split.
  - intros L' t Hne Hok. by eapply Chain_insert_own.
  - intros k' Hp' _. rewrite lookup_insert_ne; [done|]. intros ->. congruence.
  - done.
  - intros L' Hne [[Hok Hu] He]. split; [split; [done|]|].
    + intros l b. rewrite lookup_insert_Some. intros [[_ ->]|[_ E]]; [|by eapply Hu].
      intros E. apply (Ho b eq_refl). by rewrite E.
    + intros k' [o' E]. apply lookup_insert_Some in E as [[<- _]|[_ E]]; [|by apply He].
      apply not_true_is_false. intros E. apply Hne. eapply LineagePrefix_inj; [done|apply Hf|done|done].
  - intros (v & c & E). exists v, c. rewrite lookup_insert_ne; [done|]. intros ->. by rewrite (proj2 manifest_other) in Hp.
Qed.

(** The spine of another lineage is kept. *)
Lemma grown_spine m m' L S bs :
  wf_store m → own_id m L → grown m m' L → lineage_ok S = true → S ≠ L →
  spine_of (view_of m) S bs → spine_of (view_of m') S bs.
Proof.
  intros Hwf Ho Hg HS HSL Hsp. induction Hsp as [S Hb|S b bs Hb Hsp IH].
  all: assert (lineageBase (view_of m') S = lineageBase (view_of m) S) as E.
  1,3: rewrite !lineageBase_view_of, (gr_kept _ _ _ Hg); [done| |done]; apply not_true_is_false; intros E; apply HSL;
    eapply LineagePrefix_inj; [done|apply Ho|apply HasPrefix_BaseKey|done].
  - apply spine_root. congruence.
  - apply spine_step; [congruence|]. apply IH; [by eapply wf_store_base|].
    rewrite lineageBase_view_of in Hb. destruct (m !! BaseKey S) as [[]|] eqn:Es; simplify_eq. by eapply oi_unnamed.
Qed.

Lemma grown_acyclic m m' L S bs :
  wf_store m → own_id m L → grown m m' L → lineage_ok S = true → S ≠ L →
  acyclic (view_of m) S bs → acyclic (view_of m') S bs.
Proof. intros ????? [Hs Hn]. split; [|done]. by eapply grown_spine. Qed.

(** A lineage that resolves is not a fresh one. *)
Lemma fresh_not_resolved m L t ms : wf_store m → u64 t → Chain (view_of m) L t = Ok ms → ¬ fresh_id m L.
Proof.
  intros Hwf Hu Hc Hf. apply (Chain_exact_lemma m L []) in Hc; [|done|by apply fresh_acyclic|done].
  destruct Hc as (s & run & -> & _ & _ & Hsub). rewrite fresh_members in Hsub by done.
  assert (s ∈ keepHighestEpoch []) as Hs%keepHighestEpoch_subseteq by (apply Hsub; by left). by apply elem_of_nil in Hs.
Qed.

(** ** Sharing: the new lineage is based on the owner of the transaction *)

Section share.
  Context (m : objs) (L S : string) (t : N) (bs : list BasePointer).
  Context (Hwf : wf_store m) (Hf : fresh_id m L) (Ha : acyclic (view_of m) S bs) (HSL : S ≠ L) (Hu : u64 t)
    (HSok : lineage_ok S = true).
  Local Abbreviation L0 := (collapse_ref S bs t).1.
  Local Abbreviation bs0 := (collapse_ref S bs t).2.
  Local Abbreviation m' := (<[BaseKey L := OBase (mkBase L0 t)]> m).

Lemma collapse_acyclic : acyclic (view_of m) L0 bs0.
Proof. eapply collapse_ref_acyclic; [exact Ha|]. apply surjective_pairing. Qed.

Lemma collapse_in : L0 ∈ S :: (bp_lineage <$> bs).
Proof.
  clear. generalize S. induction bs as [|b l IH]; intros s; simpl; [by left|].
  destruct (bp_txid b <? t); [by left|]. right. apply IH.
Qed.

Lemma spine_not_fresh s l : spine_of (view_of m) s l → L ∉ bp_lineage <$> l.
Proof.
  induction 1 as [s Hb|s b l Hb Hs IH]; [by intros ?%elem_of_nil|].
  rewrite fmap_cons, elem_of_cons. intros [E|E]; [|done].
  rewrite lineageBase_view_of in Hb. destruct (m !! BaseKey s) as [[]|] eqn:Es; simplify_eq. by eapply (oi_unnamed _ _ (fi_own _ _ Hf) s).
Qed.

Lemma collapse_ok : lineage_ok L0 = true ∧ L0 ≠ L.
Proof.
  pose proof (spine_lineages_ok m S bs Hwf (proj1 Ha)) as Hoks. pose proof (spine_not_fresh _ _ (proj1 Ha)) as Hnf.
  rewrite Forall_forall in Hoks. pose proof collapse_in as [->|Hin]%elem_of_cons; [done|].
  split; [by apply Hoks|]. intros E. by rewrite E in Hin.
Qed.

Lemma share_wf : wf_store m'.
Proof.
  destruct Hwf as [Hb Hm]. split.
  - intros L' b. rewrite lookup_insert_Some. intros [[_ [= <-]]|[_ Ho]]; [split; [apply collapse_ok|done]|by eapply Hb].
  - intros k o x. rewrite lookup_insert_Some. intros [[<- _]|[_ Ho]] Hx; [|by eapply Hm].
    by apply member_not_base with (L := L) in Hx.
Qed.

Lemma share_spine s l : spine_of (view_of m) s l → s ≠ L → spine_of (view_of m') s l.
Proof.
  induction 1 as [s Hb|s b l Hb Hs IH]; intros Hne.
  - apply spine_root. rewrite lineageBase_insert; [done|]. intros E. apply Hne.
    eapply (f_equal lineage_of_base) in E. by rewrite !lineage_of_BaseKey in E.
  - assert (bp_lineage b ≠ L) as Hbl.
    { rewrite lineageBase_view_of in Hb. destruct (m !! BaseKey s) as [[]|] eqn:Es; simplify_eq. by apply (oi_unnamed _ _ (fi_own _ _ Hf) s). }
    apply spine_step; [|by apply IH]. rewrite lineageBase_insert; [done|]. intros E. apply Hne.
    eapply (f_equal lineage_of_base) in E. by rewrite !lineage_of_BaseKey in E.
Qed.

Lemma share_acyclic : acyclic (view_of m') L (mkBase L0 t :: bs0).
Proof.
  destruct collapse_acyclic as [Hs Hn], collapse_ok as [_ Hne]. split.
  - apply spine_step; [by rewrite lineageBase_view_of, lookup_insert_eq|]. by apply share_spine.
  - rewrite fmap_cons. cbn [bp_lineage]. apply NoDup_cons. split; [|done].
    rewrite elem_of_cons. intros [E|E]; [congruence|]. by apply (spine_not_fresh _ _ Hs).
Qed.

(** Below the fork point the new lineage resolves as the source does. *)
Lemma chain_ref_collapse_le v t' : t' <= t → chain_ref v S bs t' = chain_ref v L0 bs0 t'.
Proof.
  intros Ht. clear -Ht. generalize S. induction bs as [|b l IH]; intros s; cbn [collapse_ref]; [done|].
  destruct (N.ltb_spec (bp_txid b) t); [done|]. cbn [chain_ref]. destruct (N.leb_spec t' (bp_txid b)); [|lia]. apply IH.
Qed.

Lemma Chain_share t' : t' <= t → Chain (view_of m') L t' = Chain (view_of m) S t'.
Proof.
  intros Ht. rewrite (Chain_ref (view_of m') L (mkBase L0 t :: bs0)) by (apply view_of_ok || apply share_acyclic).
  cbn [chain_ref bp_txid bp_lineage]. destruct (N.leb_spec t' t); [|lia].
  pose proof share_acyclic as Hsa. apply acyclic_tail in Hsa. cbn [bp_lineage] in Hsa.
  rewrite <-(Chain_ref (view_of m') L0 bs0) by (apply view_of_ok || done). destruct collapse_ok as [Hok Hne].
  rewrite (Chain_insert_own m L) by (done || apply HasPrefix_BaseKey || apply Hf).
  rewrite (Chain_ref _ S bs), (Chain_ref _ L0 bs0) by (apply view_of_ok || done || apply collapse_acyclic).
  symmetry. by apply chain_ref_collapse_le.
Qed.

Lemma share_grown ms : Chain (view_of m) S t = Ok ms → grown m m' L.
Proof.
  intros Hms. apply grown_insert; [done|apply Hf|apply HasPrefix_BaseKey|apply share_wf|]. intros b [= <-].
  apply (fresh_not_resolved m _ t ms); [done..|]. cbn [bp_lineage].
  rewrite (Chain_ref _ L0 bs0), <-chain_ref_collapse_le, <-(Chain_ref _ S bs) by (apply view_of_ok || apply collapse_acyclic || done || lia).
  done.
Qed.

Lemma CollapseBase_calm : CollapseBase (view_of m) S t = Ok L0.
Proof.
  unfold CollapseBase. pose proof (acyclic_bound _ _ _ (view_of_ok m) Ha).
  by rewrite (CollapseBase_loop_ref _ _ _ _ _ bs) by (done || lia || by apply (acyclic_seen (view_of m))).
Qed.
End share.

Section content.
  Context `{LtxLib} (ps : N).

(** An object of a member key of the source is an object of the grown store. *)
Lemma fetched_grown m m' L ms datas :
  grown m m' L → (∀ x, x ∈ ms → HasPrefix (m_key x) (LineagePrefix L) = false ∧ m_key x ≠ manifestKey) →
  fetched m ms datas → fetched m' ms datas.
Proof.
  intros Hg Hk Hf. apply Forall2_same_length_lookup. split; [by eapply Forall2_length|].
  intros i x b Hx Hb. pose proof (Forall2_lookup_lr _ _ _ _ _ _ Hf Hx Hb) as Hm. cbn beta in Hm.
  rewrite <-Hm. destruct (Hk x) as [? ?]; [by eapply list_elem_of_lookup_2|]. by apply Hg.
Qed.

Lemma lineage_grown m m' L S t bs db :
  wf_store m → fresh_id m L → acyclic (view_of m) S bs → u64 t → S ≠ L → lineage_ok S = true → grown m m' L →
  lineage_is ps m S t db → lineage_is ps m' S t db.
Proof.
  intros Hwf Hf Ha Hu Hne Hok Hg (ms & Hms & snap & segs & Hfe & Hc). exists ms. split; [by rewrite (gr_chain _ _ _ Hg)|].
  exists snap, segs. split; [|done]. eapply fetched_grown; [exact Hg| |exact Hfe]. intros x Hx.
  destruct (Chain_members m S t ms x Hwf bs Ha Hu Hms Hx) as [Hs Hp]. split; [by apply (fi_empty _ _ Hf)|].
  intros E. rewrite E in Hp. done.
Qed.

Lemma lineage_share m L S t bs db t' :
  wf_store m → fresh_id m L → acyclic (view_of m) S bs → S ≠ L → lineage_ok S = true → u64 t → t' <= t →
  grown m (<[BaseKey L := OBase (mkBase (collapse_ref S bs t).1 t)]> m) L → lineage_is ps m S t' db →
  lineage_is ps (<[BaseKey L := OBase (mkBase (collapse_ref S bs t).1 t)]> m) L t' db.
Proof.
  intros Hwf Hf Ha Hne Hok Hu Ht Hg Hl. assert (u64 t') as Hu' by (unfold u64 in *; lia).
  pose proof Hl as (ms & Hms & Hc).
  destruct (lineage_grown _ _ L S t' bs db Hwf Hf Ha Hu' Hne Hok Hg Hl) as (ms' & Hms' & Hc').
  exists ms'. split; [|done]. rewrite (gr_chain _ _ _ Hg) in Hms' by done.
  by rewrite Chain_share.
Qed.

(** ** Copying: the new lineage holds snapshots of its own *)

Definition snap_member (L : string) (t : N) : ChainMember := mkMember (SnapshotKey L 1 t) true 0 t 1.

(** The lineage has no base and holds at most snapshots of the first epoch. *)
Definition snaps_only (m : objs) (L : string) : Prop :=
  m !! BaseKey L = None ∧ ∀ x, x ∈ members (view_of m) L → x = snap_member L (m_max x).

Lemma fresh_snaps m L : fresh_id m L → snaps_only m L.
Proof.
  intros Hf. split; [apply (fresh_no_key _ _ _ Hf), HasPrefix_BaseKey|]. rewrite fresh_members by done. by intros x ?%elem_of_nil.
Qed.

Lemma SnapshotKey_member L t : lineage_ok L = true → u64 t → ParseMemberKey (SnapshotKey L 1 t) = Some (snap_member L t).
Proof. intros. by apply ParseMemberKey_SnapshotKey. Qed.

Lemma SnapshotKey_inj L t t' : lineage_ok L = true → u64 t → u64 t' → SnapshotKey L 1 t = SnapshotKey L 1 t' → t = t'.
Proof.
  intros HL Hu Hu' E. pose proof (SnapshotKey_member L t HL Hu) as H1. rewrite E, SnapshotKey_member in H1 by done.
  by injection H1.
Qed.

Lemma snap_insert_wf m L t data : wf_store m → lineage_ok L = true → u64 t → wf_store (<[SnapshotKey L 1 t := obj_of data]> m).
Proof.
  intros Hwf HL Hu. eapply wf_store_insert_member; [done|by apply SnapshotKey_member|by split|].
  intros L'. eapply member_not_base. by apply SnapshotKey_member.
Qed.

Lemma snaps_insert m L t data :
  lineage_ok L = true → u64 t → m !! SnapshotKey L 1 t = None → snaps_only m L →
  snaps_only (<[SnapshotKey L 1 t := obj_of data]> m) L.
Proof.
  intros HL Hu Hk [Hb Hm]. split.
  - rewrite lookup_insert_ne; [done|]. apply (member_not_base _ (snap_member L t)). by apply SnapshotKey_member.
  - destruct (members_insert m (SnapshotKey L 1 t) (obj_of data) L (snap_member L t) Hk (HasPrefix_SnapshotKey _ _ _)
      (SnapshotKey_member _ _ HL Hu)) as (l1 & l2 & E1 & E2).
    intros x. rewrite E2, elem_of_app, elem_of_cons. intros Hx.
    destruct (decide (x = snap_member L t)) as [->|Hne]; [done|]. apply Hm. rewrite E1, elem_of_app. naive_solver.
Qed.

(** A snapshot of such a lineage is the chain at its transaction. *)
Lemma Chain_snaps m L t :
  wf_store m → lineage_ok L = true → u64 t → snaps_only m L → is_Some (m !! SnapshotKey L 1 t) →
  Chain (view_of m) L t = Ok [snap_member L t].
Proof.
  intros Hwf HL Hu [Hb Hm] Hk. assert (snap_member L t ∈ members (view_of m) L) as Hin.
  { apply members_view_of_elem. exists (SnapshotKey L 1 t).
    split_and!; [done|apply HasPrefix_SnapshotKey|by apply SnapshotKey_member]. }
  apply (Chain_exact_lemma m L []); [done| |done|].
  { split; [|simpl; apply NoDup_singleton]. apply spine_root. by rewrite lineageBase_view_of, Hb. }
  exists (snap_member L t), []. split_and!; [done|done|done|]. intros y ->%list_elem_of_singleton.
  destruct (keepHighestEpoch_covers _ _ Hin) as (b & Hb' & (_ & Et & _) & _).
  assert (b = snap_member L t) as <-; [|done].
  rewrite (Hm b) by by apply keepHighestEpoch_subseteq. by rewrite <-Et.
Qed.

(** ** What a materialized copy holds *)

Lemma chain_is_same snap segs t f g c : same_db ps f g c → chain_is ps snap segs t (f, c) → chain_is ps snap segs t (g, c).
Proof.
  intros Hs (h & f0 & post & f1 & H1 & H2 & H3 & H4 & H5 & H6). exists h, f0, post, f1. cbn [fst snd] in *.
  rewrite <-(db_sum_same ps f g c Hs). split_and!; try done; [by eapply same_db_trans|apply H6..].
Qed.

(** Page 1 carries the database header; it is not the lock page. *)
Lemma header_same f g c :
  IsValidPageSize ps = true → LockPgno ps ≠ 1 → 1 <= c → same_db ps f g c → readDBHeader f = readDBHeader g.
Proof.
  intros Hv Hl Hc ((Hf & Hcb) & (Hg & _) & Hp). pose proof (Hp 1 ltac:(lia) Hc ltac:(done)) as E.
  assert (512 <= ps) as Hps by (unfold IsValidPageSize in Hv; by bool_to_prop).
  unfold readDBHeader, ReadAt. unfold page in E. rewrite page_off_eq in E by (done || lia).
  replace ((1 - 1) * ps) with 0 in E by lia. cbn [N.to_nat] in *. rewrite !drop_0 in *.
  assert (take (N.to_nat dbHeaderSize) f = take (N.to_nat dbHeaderSize) g) as ->; [|done].
  assert (N.to_nat dbHeaderSize ≤ N.to_nat ps)%nat as Hle by (unfold dbHeaderSize; lia).
  rewrite <-(Nat.min_l _ _ Hle), <-!take_take. by rewrite E.
Qed.

(** Copying a chain of a database re-encodes it as one snapshot. *)
Lemma snapshot_of_chain snap segs t f c :
  IsValidPageSize ps = true → LockPgno ps ≠ 1 → db_file ps f c → 1 <= t → t < u64_size → chain_is ps snap segs t (f, c) →
  ∃ g sum data chk, MaterializeChain snap segs = Ok (g, t, sum) ∧ EncodeSnapshot g t = Ok (data, chk)
    ∧ chain_is ps data [] t (f, c).
Proof.
  intros Hv Hl [Hh Hok] Ht1 Ht2 (h & f0 & post & g & _ & _ & _ & Hm & Hs & _). cbn [fst snd] in *.
  assert (0 < ps) as Hps by by apply valid_page_size_pos.
  assert (db_file ps g c) as Hg.
  { split; [rewrite (header_same g f c) by (done || apply Hok); done|]. split; [apply Hs|apply Hok]. }
  destruct (chain_snapshot ps Hps Hv g c t Hg Ht1 Ht2) as (data & He & Hc).
  destruct (EncodeSnapshot g t) as [[data' chk]|] eqn:Ee; [|done]. cbn in He. injection He as ->.
  exists g, (db_sum ps f c), data, chk. split_and!; [done..|]. by eapply chain_is_same.
Qed.
End content.
