(* ===== verification/ForkRun.v ===== *)
(** * Forks preserve content

    The share-or-copy decision and [Fork] on a store nothing else writes
    meanwhile: the new branch holds exactly what its source held at the chosen
    transaction, whichever of the three ways made its lineage. *)
From Stdlib Require Import Ascii String Strings.Byte.
From S2P Require Import Prelude GoStrings Keys Refs Backend Chain ChainFacts ChainProps ChainGrow Store Rely Lease Gc Claims Files Ltx LtxProps LtxModel StreamProps Session SessionProps SessionRun Content Delta DeltaProps Checkpoint CheckpointProps CheckpointRun Repoint NewLineage.
Local Open Scope N_scope.

Local Ltac ran := split; first [done|cbn in *; first [done|lia|congruence]].

(** [w'] follows [w] in a sequential run, with the objects [m']. *)
Record ran (w w' : world) (m' : objs) : Prop := mk_ran {
  ran_calm : calm w';
  ran_objs : w_objs w' = m';
  ran_caps : w_caps w' = w_caps w;
  ran_ids : w_ids w' = w_ids w;
  ran_nid : (w_nid w ≤ w_nid w')%nat }.

Lemma ran_refl w : calm w → ran w w (w_objs w).
Proof. by split. Qed.

Lemma ran_store w k o : calm w → ran w (store_at k (Some o) w) (<[k := o]> (w_objs w)).
Proof. intros Hc. split; [done|apply store_at_insert|done..]. Qed.

Lemma ran_trans w1 w2 w3 m2 m3 : ran w1 w2 m2 → ran w2 w3 m3 → ran w1 w3 m3.
Proof. intros [] []. split; congruence || lia. Qed.

Lemma EnsureLayoutV2_calm w v c :
  calm w → w_objs w !! manifestKey = Some (OManifest v c) →
  ∃ w', EnsureLayoutV2 w = (Ok tt, w') ∧ w_nid w' = w_nid w
    ∧ (ran w w' (w_objs w) ∨ ran w w' (<[manifestKey := OManifest LayoutVersion c]> (w_objs w))).
Proof.
  intros Hc Hm. unfold EnsureLayoutV2. rewrite io_bind_eq. unfold get_layout2.
  destruct (w_layout2 w); [rewrite io_ret_eq; exists w; split_and!; [done..|left; by apply ran_refl]|].
  unfold loop. cbn [retry]. rewrite !io_bind_eq, Get_calm by done. unfold kv_get. rewrite Hm.
  destruct (LayoutVersion <=? v)%Z.
  - rewrite io_bind_eq. unfold set_layout2. rewrite io_ret_eq. eexists. split; [done|]. split; [done|]. left. ran.
  - rewrite io_bind_eq. unfold try. rewrite PutIf_calm by done. rewrite Hm, kv_match_self, io_bind_eq.
    unfold set_layout2. rewrite io_ret_eq. eexists. split; [done|]. split; [done|]. right.
    destruct (ran_store w manifestKey (OManifest LayoutVersion c) Hc). ran.
Qed.

Section content.
  Context `{LtxLib} (ps : N).

Lemma fetch_members_calm w ms datas :
  calm w → fetched (w_objs w) ms datas → fetch_members ms w = (Ok datas, w).
Proof.
  intros Hc. revert datas. induction ms as [|x ms IH]; intros datas Hf; cbn [fetch_members].
  - apply Forall2_nil_inv_l in Hf as ->. done.
  - apply Forall2_cons_inv_l in Hf as (b & l & Hb & Hf & ->).
    rewrite io_bind_eq, Get_calm by done. unfold kv_get. rewrite Hb. unfold obj_of.
    rewrite io_bind_eq, (IH l Hf), io_ret_eq. by rewrite list_byte_of_string_of_list_byte.
Qed.

Section copy.
  Context (f : bytes) (c t : N).
  Context (Hv : IsValidPageSize ps = true) (Hlock : LockPgno ps ≠ 1) (Hdb : db_file ps f c) (Ht1 : 1 <= t) (Ht2 : t < u64_size).

(** The slow copy. *)
Lemma copyFromChain_calm w ms dst :
  calm w → chain_content ps (w_objs w) ms t (f, c) → w_objs w !! SnapshotKey dst 1 t = None →
  ∃ data w', copySnapshotIntoLineageFromChain ms t dst w = (Ok (SnapshotKey dst 1 t), w')
    ∧ ran w w' (<[SnapshotKey dst 1 t := obj_of data]> (w_objs w)) ∧ chain_is ps data [] t (f, c).
Proof.
  intros Hc (snap & segs & Hf & Hch) Hk.
  destruct (snapshot_of_chain ps snap segs t f c Hv Hlock Hdb Ht1 Ht2 Hch) as (g & sum & data & chk & Hm & He & Hch').
  exists data. unfold copySnapshotIntoLineageFromChain, materializeMembersAt. rewrite io_bind_eq. unfold NewLineageID.
  set (w1 := mkWorld _ _ _ _ _ _ _ _). assert (calm w1) as Hc1 by done.
  rewrite io_bind_eq, io_bind_eq, (fetch_members_calm w1 ms (snap :: segs)) by done.
  rewrite io_bind_eq. unfold lift. rewrite Hm, io_ret_eq, io_bind_eq, He, io_bind_eq, PutIf_calm by done.
  cbn [w_objs w1]. rewrite Hk. cbn [kv_match]. rewrite io_ret_eq. eexists. split; [done|]. split; [|done].
  destruct (ran_store w1 (SnapshotKey dst 1 t) (obj_of data) Hc1). ran.
Qed.

(** A lineage that holds the database at [t] as one snapshot. *)
Lemma snapshot_lineage m L data :
  wf_store m → own_id m L → snaps_only m L → m !! SnapshotKey L 1 t = None → chain_is ps data [] t (f, c) →
  let m' := <[SnapshotKey L 1 t := obj_of data]> m in
  grown m m' L ∧ own_id m' L ∧ snaps_only m' L ∧ Chain (view_of m') L t = Ok [snap_member L t]
  ∧ lineage_is ps m' L t (f, c).
Proof.
  intros Hwf Hf Hs Hk Hch m'. assert (lineage_ok L = true) as HL by apply Hf.
  assert (wf_store m') as Hwf' by by apply snap_insert_wf.
  assert (snaps_only m' L) as Hs' by by apply snaps_insert.
  assert (Chain (view_of m') L t = Ok [snap_member L t]) as Hc.
  { apply Chain_snaps; [done..|]. unfold m'. by rewrite lookup_insert_eq. }
  split_and!; [apply grown_insert; [done|done|apply HasPrefix_SnapshotKey|done|done]|by apply own_insert|done|done|].
  exists [snap_member L t]. split; [done|]. exists data, []. split; [|done].
  apply Forall2_cons. split; [|constructor]. cbn [snap_member m_key]. unfold m'. by rewrite lookup_insert_eq.
Qed.

(** The state a fresh lineage was given. *)
Definition new_lineage (w w' : world) (L : string) : Prop :=
  ran w w' (w_objs w') ∧ (w_nid w < w_nid w')%nat ∧ grown (w_objs w) (w_objs w') L ∧ wf_store (w_objs w') ∧ own_id (w_objs w') L
  ∧ lineage_is ps (w_objs w') L t (f, c).

Lemma copyToNew_calm w ms :
  calm w → wf_store (w_objs w) → fresh_id (w_objs w) (w_ids w (w_nid w)) →
  chain_content ps (w_objs w) ms t (f, c) →
  ∃ fast w', copySnapshotToNewLineageFromChain t ms w = (Ok (w_ids w (w_nid w), fast), w')
    ∧ new_lineage w w' (w_ids w (w_nid w)) ∧ snaps_only (w_objs w') (w_ids w (w_nid w))
    ∧ ∀ u, u64 u → is_Some (w_objs w' !! SnapshotKey (w_ids w (w_nid w)) 1 u) ↔ u = t.
Proof.
  intros Hc Hwf Hf Hcc. set (L := w_ids w (w_nid w)) in *.
  assert (w_objs w !! SnapshotKey L 1 t = None) as Hk by apply (fresh_no_key _ _ _ Hf), HasPrefix_SnapshotKey.
  pose proof (fresh_snaps _ _ Hf) as Hs. unfold copySnapshotToNewLineageFromChain. rewrite io_bind_eq. unfold NewLineageID.
  fold L. set (w1 := mkWorld _ _ _ _ _ _ _ _). assert (calm w1) as Hc1 by done.
  assert (∀ data w', ran w1 w' (<[SnapshotKey L 1 t := obj_of data]> (w_objs w1)) → chain_is ps data [] t (f, c) →
    new_lineage w w' L ∧ snaps_only (w_objs w') L ∧ ∀ u, u64 u → is_Some (w_objs w' !! SnapshotKey L 1 u) ↔ u = t) as Hdone.
  { intros data w' [R1 R2 R3 R4 R5] Hch. cbn [w_objs w1 w_caps w_ids w_nid] in *.
    destruct (snapshot_lineage (w_objs w) L data) as (?&?&?&?&?); [done|apply Hf|done..|].
    unfold new_lineage. rewrite R2. split; [|split; [done|]]; cycle 1.
    { intros u Hu. split; [|intros ->; rewrite lookup_insert_eq; eauto]. intros [o Ho].
      apply lookup_insert_Some in Ho as [[E _]|[_ Ho]]; [symmetry; eapply SnapshotKey_inj; [apply Hf|done..]|].
      by rewrite (fresh_no_key _ _ _ Hf (HasPrefix_SnapshotKey _ _ _)) in Ho. }
    split_and!; [ran|lia|done|by eapply gr_wf|done|done]. }
  assert (∃ w', (_ ← copySnapshotIntoLineageFromChain ms t L; mret (L, false)) w1 = (Ok (L, false), w')
    ∧ new_lineage w w' L ∧ snaps_only (w_objs w') L ∧ ∀ u, u64 u → is_Some (w_objs w' !! SnapshotKey L 1 u) ↔ u = t) as (ws & Es & Hws).
  { destruct (copyFromChain_calm w1 ms L Hc1 Hcc Hk) as (data & w' & E & Hr & Hch).
    exists w'. rewrite io_bind_eq, E, io_ret_eq. split; [done|]. by eapply Hdone. }
  rewrite io_bind_eq. unfold tryFastForkCopy.
  destruct ms as [|x [|y ms]]; try (rewrite io_ret_eq; by exists false, ws).
  destruct (m_snapshot x); [|rewrite io_ret_eq; by exists false, ws].
  rewrite io_bind_eq. unfold try, CopyObject. rewrite next_tick_calm by done.
  destruct (c_copy (w_caps w1)) eqn:Ecap; cbn [negb]; [|by exists false, ws].
  destruct Hcc as (snap & segs & Hfe & Hch). apply Forall2_cons_inv_l in Hfe as (b & l & Hb & Hfe & [= <- <-]).
  apply Forall2_nil_inv_l in Hfe as ->. cbn [w_objs w1 tk_fault quiet]. rewrite Hb.
  destruct (snapshot_lineage (w_objs w) L snap) as (_&_&_&HC&_); [done|apply Hf|done..|].
  pose proof (ran_store w1 (SnapshotKey L 1 t) (obj_of snap) Hc1) as Hr.
  rewrite io_bind_eq, reads_calm by done. rewrite (ran_objs _ _ _ Hr). cbn [w_objs w1]. rewrite HC, !io_ret_eq.
  exists true. eexists. split; [done|]. by eapply Hdone.
Qed.

(** ** The share-or-copy decision *)

(** The source lineage, resolvable at [t] to the database. *)
Record source_at (m : objs) (S : string) (bs : list BasePointer) : Prop := mk_source {
  so_wf : wf_store m;
  so_ok : lineage_ok S = true;
  so_spine : acyclic (view_of m) S bs;
  so_is : lineage_is ps m S t (f, c) }.

(** What the two kinds of new lineage hold beside the state at [t]: a copy its
    one snapshot, a share everything the source holds below. *)
Definition lineage_kind (m m' : objs) (S L : string) (base : option BasePointer) : Prop :=
  match base with
  | None => snaps_only m' L ∧ ∀ u, u64 u → is_Some (m' !! SnapshotKey L 1 u) ↔ u = t
  | Some b => bp_txid b = t ∧ ∃ bs', acyclic (view_of m') L bs'
      ∧ ∀ ps' t' db, t' <= t → lineage_is ps' m S t' db → lineage_is ps' m' L t' db
  end.

Lemma share_calm w S bs v0 c0 :
  let L := w_ids w (w_nid w) in
  calm w → w_objs w !! manifestKey = Some (OManifest v0 c0) → source_at (w_objs w) S bs →
  fresh_id (w_objs w) L → S ≠ L →
  ∃ b w', (baseLineage ← reads (λ v, CollapseBase v S t);
           lineage ← NewLineageID;
           _ ← EnsureLayoutV2;
           _ ← WriteLineageBase lineage (mkBase baseLineage t);
           mret (lineage, Some (mkBase baseLineage t))) w = (Ok (L, Some b), w')
    ∧ new_lineage w w' L ∧ lineage_kind (w_objs w) (w_objs w') S L (Some b).
Proof.
  intros L Hc Hman [Hwf Hok Ha Hl] Hf Hne. assert (u64 t) as Hu by (unfold u64; lia).
  rewrite io_bind_eq, reads_calm, (CollapseBase_calm _ _ _ bs) by done. set (L0 := (collapse_ref S bs t).1).
  rewrite io_bind_eq. unfold NewLineageID. fold L. set (w1 := mkWorld _ _ _ _ _ _ _ _).
  destruct (EnsureLayoutV2_calm w1 v0 c0) as (w2 & E2 & Hn2 & Hr2); [done|done|].
  assert (∃ m2, ran w w2 m2 ∧ grown (w_objs w) m2 L ∧ acyclic (view_of m2) S bs ∧ fresh_id m2 L) as (m2 & R2 & G2 & A2 & F2).
  { destruct Hr2 as [[]|[]].
    - exists (w_objs w). split_and!; [ran|apply grown_refl|done|done].
    - eexists. split_and!; [ran|apply grown_manifest| |by apply fresh_manifest].
      split; [apply spine_of_insert, Ha; apply manifest_other|apply Ha]. }
  assert (wf_store m2) as Hwf2 by by apply (gr_wf _ _ _ G2).
  destruct Hl as (ms & Hms & Hcc). assert (Chain (view_of m2) S t = Ok ms) as Hms2 by by rewrite (gr_chain _ _ _ G2).
  pose proof (share_grown m2 L S t bs Hwf2 F2 A2 Hne Hu Hok ms Hms2) as G3.
  destruct (collapse_ok m2 L S t bs Hwf2 F2 A2 Hne Hok) as [HL0 HL0n]. fold L0 in HL0, HL0n.
  rewrite io_bind_eq, E2, io_bind_eq. unfold WriteLineageBase. cbn [bp_lineage].
  rewrite bool_decide_eq_false_2 by done. rewrite io_bind_eq, PutIf_calm by apply R2.
  rewrite (ran_objs _ _ _ R2), (fresh_no_key _ _ _ F2 (HasPrefix_BaseKey L)). cbn [kv_match].
  rewrite !io_ret_eq. set (w3 := store_at _ _ w2).
  pose proof (ran_trans _ _ _ _ _ R2 (ran_store w2 (BaseKey L) (OBase (mkBase L0 t)) (ran_calm _ _ _ R2))) as R3.
  rewrite (ran_objs _ _ _ R2) in R3. fold w3 in R3.
  assert (∀ ps' t' db, t' <= t → lineage_is ps' (w_objs w) S t' db → lineage_is ps' (w_objs w3) L t' db) as Hbelow.
  { intros ps' t' db Ht' Hl'. rewrite (ran_objs _ _ _ R3). apply (lineage_share ps' m2 L S t bs); try done.
    eapply lineage_grown; [exact Hwf|exact Hf|exact Ha|unfold u64 in *; lia|done|done|exact G2|done]. }
  exists (mkBase L0 t), w3. split; [done|]. split.
  - unfold new_lineage. rewrite (ran_objs _ _ _ R3) in Hbelow. rewrite (ran_objs _ _ _ R3). split_and!; [exact R3|unfold w3; cbn in *; lia| | | |].
    + by eapply grown_trans.
    + by apply (gr_wf _ _ _ G3).
    + split; [apply F2|]. intros L' b. rewrite lookup_insert_Some.
      intros [[_ [= <-]]|[_ Hb]]; [done|]. by eapply (oi_unnamed _ _ (fi_own _ _ F2)).
    + apply (Hbelow ps t); [done|]. by exists ms.
  - split; [done|]. exists (mkBase L0 t :: (collapse_ref S bs t).2). split; [|done].
    rewrite (ran_objs _ _ _ R3). by apply share_acyclic.
Qed.

Lemma newLineageAt_calm every w src cp bs ms mat v0 c0 :
  let L := w_ids w (w_nid w) in
  calm w → w_objs w !! manifestKey = Some (OManifest v0 c0) → source_at (w_objs w) (r_lineage src) bs → cp_txid cp = t →
  fresh_id (w_objs w) L → Chain (view_of (w_objs w)) (r_lineage src) t = Ok ms →
  ∃ base w', newLineageAt every src cp ms mat w = (Ok (L, base), w')
    ∧ new_lineage w w' L ∧ lineage_kind (w_objs w) (w_objs w') (r_lineage src) L base.
Proof.
  intros L Hc Hman Hso Ecp Hf Hms. assert (r_lineage src ≠ L) as Hne.
  { intros E. rewrite E in Hms. by apply (fresh_not_resolved _ _ _ _ (so_wf _ _ _ Hso) Ht2 Hms). }
  pose proof Hso as [Hwf Hok Ha (ms' & Hms' & Hcc)].
  rewrite Hms in Hms'. injection Hms' as <-. unfold newLineageAt. rewrite Ecp. destruct (materializes every ms mat).
  - destruct (copyToNew_calm w ms Hc Hwf Hf Hcc) as (fast & w' & E & Hn & Hs & Hk).
    exists None, w'. rewrite io_bind_eq, E, io_ret_eq. done.
  - destruct (share_calm w (r_lineage src) bs v0 c0) as (b & w' & E & Hn & Hk); [done..|]. exists (Some b), w'. done.
Qed.

(** The new lineage is acyclic, either way. *)
Lemma lineage_kind_acyclic m m' S L base : lineage_kind m m' S L base → ∃ bs', acyclic (view_of m') L bs'.
Proof.
  destruct base as [b|]; [intros (_ & bs' & ? & _); eauto|]. intros [[Hb _] _]. exists [].
  split; [|simpl; apply NoDup_singleton]. apply spine_root. by rewrite lineageBase_view_of, Hb.
Qed.

(** Writing a ref on top of it changes no lineage. *)
Lemma new_lineage_ref w w' m0 S L base db br o :
  new_lineage w w' L → lineage_kind m0 (w_objs w') S L base →
  lineage_is ps (<[RefKey db br := o]> (w_objs w')) L t (f, c).
Proof.
  intros (_ & _ & _ & Hwf & _ & Hl) Hk. destruct (lineage_kind_acyclic _ _ _ _ _ Hk) as [bs' Ha].
  by eapply lineage_is_ref.
Qed.
End copy.

(** ** The ids still to be drawn *)

Record fresh_ids (w : world) : Prop := mk_fresh_ids {
  fs_inj : ∀ i j, (w_nid w ≤ i)%nat → (w_nid w ≤ j)%nat → w_ids w i = w_ids w j → i = j;
  fs_fresh : ∀ i, (w_nid w ≤ i)%nat → fresh_id (w_objs w) (w_ids w i) }.

Lemma fresh_id_ref m L db br o : (∀ b, o ≠ OBase b) → fresh_id m L → fresh_id (<[RefKey db br := o]> m) L.
Proof.
  intros Ho [Hok He]. split; [by apply own_insert|].
  intros k [o' Hk]. apply lookup_insert_Some in Hk as [[<- _]|[_ Hk]]; [apply RefKey_other|]. by apply He.
Qed.

(** ** Fork *)

Section fork.
  Context (every : Z) (side : option sumRecord) (db srcBranch newBranch at_ : string) (ttl : Z) (meta : gmap string string)
    (w : world) (wire : refWire) (src : Ref) (cp : Checkpoint) (bs : list BasePointer) (v0 : Z) (c0 : string)
    (f : bytes) (c : N).
  Local Abbreviation m := (w_objs w).
  Local Abbreviation L := (w_ids w (w_nid w)).
  Local Abbreviation t := (cp_txid cp).

(** The fork point: the head, or the named checkpoint. *)
Definition fork_point : Prop :=
  (at_ = ""%string ∧ cp = headCheckpoint src)
  ∨ (at_ ≠ ""%string ∧ ValidateName at_ = Ok tt ∧ r_checkpoints src !! at_ = Some cp).

(** The sidecar's record of the head's chain, when there is one, is right. *)
Definition side_right (r : Ref) (m0 : objs) : Prop :=
  ∀ ms, cachedChain side r = Some ms → Chain (view_of m0) (r_lineage r) (r_head_txid r) = Ok ms.

(** A sequential store with the source branch, at a state that materializes. *)
Record fork_ready : Prop := mk_fork_ready {
  fr_calm : calm w;
  fr_manifest : m !! manifestKey = Some (OManifest v0 c0);
  fr_ref : m !! RefKey db srcBranch = Some (ORef wire) ∧ decodeRef wire = Ok src;
  fr_side : side_right src m;
  fr_source : source_at f c t m (r_lineage src) bs;
  fr_db : IsValidPageSize ps = true ∧ LockPgno ps ≠ 1 ∧ db_file ps f c;
  fr_txid : 1 <= t ∧ t < u64_size;
  fr_ids : fresh_ids w }.

Lemma chainAt_calm r cp0 w0 ms :
  calm w0 → side_right r (w_objs w0) → Chain (view_of (w_objs w0)) (r_lineage r) (cp_txid cp0) = Ok ms →
  chainAt side r cp0 w0 = (Ok ms, w0).
Proof.
  intros Hc Hs Hms. unfold chainAt, headChain. destruct (N.eqb_spec (cp_txid cp0) (r_head_txid r)) as [E|E].
  - rewrite E in Hms. destruct (cachedChain side r) as [ms'|] eqn:Ec.
    + rewrite (Hs _ Ec) in Hms. by simplify_eq.
    + by rewrite reads_calm, Hms.
  - by rewrite reads_calm, Hms.
Qed.

(** What a fork leaves: the new branch, unleased, at the fork point. *)
Definition forked (w' : world) (child : Ref) : Prop :=
  ref_at (RefKey db newBranch) (w_objs w') child
  ∧ r_lineage child = L ∧ r_head_txid child = t ∧ r_epoch child = 1 ∧ r_lease_holder child = ""%string
  ∧ r_parent child = parentOf db srcBranch t ∧ r_meta child = meta
  ∧ head_is ps (w_objs w') child (f, c).

(** The store behind it: the new lineage's objects and the new ref. *)
Definition fork_store (w' : world) : Prop :=
  ∃ m1 o bs', grown m m1 L ∧ w_objs w' = <[RefKey db newBranch := ORef o]> m1 ∧ acyclic (view_of m1) L bs'
    ∧ ran w w' (w_objs w') ∧ wf_store m1 ∧ fresh_ids w'.

Lemma fork_calm :
  fork_ready → fork_point → ValidateName db = Ok tt → ValidateName newBranch = Ok tt → ValidateMeta meta = Ok tt →
  (0 <= ttl)%Z → m !! RefKey db newBranch = None →
  ∃ w' child, forkWith every side db srcBranch newBranch at_ ttl meta w = (Ok t, w')
    ∧ forked w' child ∧ fork_store w'.
Proof.
  intros [Hc Hman [Ho Hd] Hside Hso (Hv & Hl & Hdb) (Ht1 & Ht2) [Hinj Hfresh]] Hpt Hndb Hnb Hme Httl Hno.
  pose proof (so_is _ _ _ _ _ _ Hso) as (ms & Hms & _).
  unfold forkWith. destruct (Z.ltb_spec ttl 0); [lia|]. rewrite !io_bind_eq. unfold lift.
  rewrite Hnb, io_bind_eq, Hme, io_bind_eq, (GetRef_calm _ _ _ wire src) by done.
  assert ((if negb (bool_decide (at_ = ""%string))
           then _ ← lift (ValidateName at_); match r_checkpoints src !! at_ with Some c1 => mret c1 | None => fail [ENoCheckpoint] end
           else mret (headCheckpoint src)) w = (Ok cp, w)) as Hcp.
  { destruct Hpt as [[-> ->]|(Hne & Hva & Hcp)]; [done|]. rewrite bool_decide_eq_false_2 by done. cbn [negb].
    rewrite io_bind_eq. unfold lift. by rewrite Hva, Hcp. }
  rewrite io_bind_eq. unfold lift in Hcp. rewrite Hcp, io_bind_eq, (chainAt_calm src cp w ms) by done.
  assert ((if materializes every ms false
           then g ← try (Get (RefKey db newBranch));
                match g with Ok _ => fail [EExists] | Err e => if errors_Is e ErrNotFound then mret tt else fail e end
           else mret tt) w = (Ok tt, w)) as Hpre.
  { destruct (materializes every ms false); [|done]. rewrite io_bind_eq. unfold try. rewrite Get_calm by done.
    unfold kv_get. by rewrite Hno. }
  rewrite io_bind_eq, Hpre, io_bind_eq.
  destruct (newLineageAt_calm f c t Hv Hl Hdb Ht1 Ht2 every w src cp bs ms false v0 c0) as (base & w1 & E1 & Hn & Hk);
    [done..|by apply Hfresh|done|]. rewrite E1. cbn [fst snd].
  pose proof Hn as (R1 & Hnid & G1 & Hwf1 & Hown & Hlin).
  rewrite io_bind_eq, now_eq, io_bind_eq. set (child := fork_ref _ _ _ _ _ _ _ _).
  assert (w_objs w1 !! RefKey db newBranch = None) as Hno1.
  { rewrite (gr_kept _ _ _ G1) by (apply RefKey_other || done). done. }
  unfold put_new_ref. rewrite io_bind_eq. unfold try. rewrite PutRef_calm by (apply R1 || done || by rewrite Hno1).
  rewrite !io_ret_eq. set (w2 := store_at _ _ w1). exists w2, (normalizeRef child). split; [done|].
  assert (w_objs w2 = <[RefKey db newBranch := ORef (encodeRef child)]> (w_objs w1)) as Ho2 by apply store_at_insert.
  assert (ran w w2 (w_objs w2)) as R2.
  { eapply ran_trans; [exact R1|]. rewrite Ho2. apply ran_store, R1. }
  split; [unfold forked; split_and!; try done|].
  - exists (encodeRef child). rewrite Ho2, lookup_insert_eq. split; [done|]. apply decodeRef_encodeRef.
    intros n x Hx. cbn in Hx. apply lookup_insert_Some in Hx as [[_ <-]|[_ Hx]]; [cbn; lia|]. by rewrite lookup_empty in Hx.
  - unfold head_is. cbn [r_lineage r_head_txid normalizeRef child fork_ref SetCheckpoint set_checkpoints set_schema set_head_epoch].
    rewrite Ho2. by eapply new_lineage_ref.
  - destruct (lineage_kind_acyclic _ _ _ _ _ _ Hk) as [bs' Ha'].
    exists (w_objs w1), (encodeRef child), bs'. split_and!; try done.
    pose proof (ran_nid _ _ _ R2) as Hle. split; rewrite (ran_ids _ _ _ R2).
    + intros i j Hi Hj. apply Hinj; lia.
    + intros i Hi. rewrite Ho2. apply fresh_id_ref; [done|].
      apply (gr_fresh _ _ _ G1); [|apply Hfresh; lia]. intros E. apply Hinj in E; [|lia|lia]. cbn in Hi. lia.
Qed.

End fork.
End content.
