(* ===== verification/RollbackRun.v ===== *)
(** * Safety forks, and rollback, preserve content

    [safetyFork] and [RollbackWith] on a store nothing else writes meanwhile: the
    branch then holds the chosen state, every kept checkpoint still holds its own,
    and the safety branch holds the head that was replaced. *)
From Stdlib Require Import Ascii String Strings.Byte.
From S2P Require Import Prelude GoStrings Keys Refs Backend Chain ChainFacts ChainProps ChainGrow Store Rely Lease Gc Claims ClaimsProps Files Ltx LtxProps LtxModel StreamProps Session SessionProps SessionRun Content Delta DeltaProps Checkpoint CheckpointProps CheckpointRun Repoint NewLineage ForkRun.
Local Open Scope N_scope.

Section content.
  Context `{LtxLib} (ps : N).

(** ** Copies of the kept checkpoints *)

(** [L]'s snapshot of [t] holds the database. *)
Definition holds (m : objs) (L : string) (t : N) (db : bytes * N) : Prop :=
  ∃ data, m !! SnapshotKey L 1 t = Some (obj_of data) ∧ chain_is ps data [] t db.

Lemma holds_lineage m L t db :
  wf_store m → lineage_ok L = true → u64 t → snaps_only m L → holds m L t db → lineage_is ps m L t db.
Proof.
  intros Hwf HL Hu Hs (data & Hk & Hc). exists [snap_member L t]. split; [apply Chain_snaps; eauto|].
  exists data, []. split; [|done]. apply Forall2_cons. split; [done|constructor].
Qed.

Lemma lineage_holds m L t db :
  wf_store m → lineage_ok L = true → u64 t → snaps_only m L → is_Some (m !! SnapshotKey L 1 t) →
  lineage_is ps m L t db → holds m L t db.
Proof.
  intros Hwf HL Hu Hs Hk (ms & Hms & snap & segs & Hf & Hc). rewrite Chain_snaps in Hms by done. injection Hms as <-.
  apply Forall2_cons_inv_l in Hf as (b & l & Hb & Hf & [= <- <-]). apply Forall2_nil_inv_l in Hf as ->.
  by exists snap.
Qed.

Lemma holds_insert m L t t' data db :
  lineage_ok L = true → u64 t → u64 t' → t ≠ t' → holds m L t db → holds (<[SnapshotKey L 1 t' := obj_of data]> m) L t db.
Proof.
  intros HL Hu Hu' Hne (d & Hk & Hc). exists d. split; [|done]. rewrite lookup_insert_ne; [done|].
  intros E. apply Hne. by eapply SnapshotKey_inj.
Qed.

Section kept.
  Context (src : Ref) (L : string) (bs : list BasePointer) (m0 : objs) (content : N → bytes * N).
  Local Abbreviation S := (r_lineage src).
  Context (Hv : IsValidPageSize ps = true) (Hlock : LockPgno ps ≠ 1) (Hok0 : lineage_ok S = true) (HSL : S ≠ L)
    (Hwf0 : wf_store m0) (Hf0 : fresh_id m0 L) (Ha0 : acyclic (view_of m0) S bs).

(** The checkpoint's state resolves on the source, to a database. *)
Definition resolvable (t : N) : Prop :=
  1 <= t ∧ t < u64_size ∧ lineage_is ps m0 S t (content t) ∧ db_file ps (content t).1 (content t).2.

(** The copies made so far. *)
Record copies (m : objs) (seen : gset N) : Prop := mk_copies {
  co_grown : grown m0 m L;
  co_own : own_id m L;
  co_snaps : snaps_only m L;
  co_holds : ∀ t, t ∈ seen → holds m L t (content t);
  co_seen : ∀ t, u64 t → is_Some (m !! SnapshotKey L 1 t) → t ∈ seen;
  co_u64 : ∀ t, t ∈ seen → u64 t }.

Lemma copy_kept_calm cps : ∀ seen copied w,
  calm w → copies (w_objs w) seen → (∀ cp, cp ∈ cps → resolvable (cp_txid cp)) →
  ∃ copied' w', copy_kept src L cps seen copied w = (Ok copied', w')
    ∧ ran w w' (w_objs w') ∧ copies (w_objs w') (list_to_set (cp_txid <$> cps) ∪ seen).
Proof.
  induction cps as [|cp cps IH]; intros seen copied w Hc Hco Hres; cbn [copy_kept].
  { exists copied, w. split; [done|]. split; [by apply ran_refl|]. by rewrite fmap_nil, list_to_set_nil, union_empty_l_L. }
  rewrite fmap_cons, list_to_set_cons. destruct (decide (cp_txid cp ∈ seen)) as [Hin|Hnin].
  - rewrite bool_decide_eq_true_2 by done. destruct (IH seen copied w Hc Hco) as (k & w' & E & R & Hco'); [set_solver|].
    exists k, w'. split_and!; [done..|]. replace ({[cp_txid cp]} ∪ list_to_set (cp_txid <$> cps) ∪ seen)
      with (list_to_set (cp_txid <$> cps) ∪ seen) by set_solver. done.
  - rewrite bool_decide_eq_false_2 by done. destruct (Hres cp ltac:(by left)) as (Ht1 & Ht2 & Hl & Hdb).
    pose proof Hco as [Hg Hown Hs Hh Hseen Hu]. set (t := cp_txid cp) in *.
    destruct (content t) as [f c] eqn:Ect. cbn [fst snd] in Hdb.
    assert (wf_store (w_objs w)) as Hwf by by apply (gr_wf _ _ _ Hg).
    pose proof (lineage_grown ps m0 (w_objs w) L S t bs (f, c) Hwf0 Hf0 Ha0 Ht2 HSL Hok0 Hg Hl) as (ms & Hms & Hcc).
    assert (w_objs w !! SnapshotKey L 1 t = None) as Hk.
    { apply eq_None_not_Some. intros Hx. by apply Hnin, Hseen. }
    destruct (copyFromChain_calm ps f c t Hv Hlock Hdb Ht1 Ht2 w ms L Hc Hcc Hk) as (data & w1 & E1 & R1 & Hch).
    destruct (snapshot_lineage ps f c t Ht2 (w_objs w) L data) as (G1 & O1 & S1 & _ & _); [done..|].
    assert (copies (w_objs w1) ({[t]} ∪ seen)) as Hco1.
    { rewrite (ran_objs _ _ _ R1). split; [by eapply grown_trans|done|done| | |].
      - intros t' [->%elem_of_singleton|Ht']%elem_of_union.
        + exists data. rewrite lookup_insert_eq, Ect. done.
        + apply holds_insert; [apply Hown|by apply Hu|done| |by apply Hh]. intros ->. done.
      - intros t' Hu' [o Ho]. destruct (decide (t' = t)) as [->|Hne]; [set_solver|].
        rewrite lookup_insert_ne in Ho; [apply elem_of_union_r, Hseen; eauto|]. intros E. apply Hne. symmetry.
        eapply SnapshotKey_inj; [apply Hown|done..].
      - intros t' [->%elem_of_singleton|Ht']%elem_of_union; [done|by apply Hu]. }
    destruct (IH ({[t]} ∪ seen) (copied ++ [SnapshotKey L 1 t])%list w1 (ran_calm _ _ _ R1) Hco1) as (k & w2 & E2 & R2 & Hco2); [set_solver|].
    exists k, w2. split_and!.
    + rewrite io_bind_eq. unfold try, copySnapshotIntoLineage. rewrite io_bind_eq, reads_calm by done.
      fold t. by rewrite Hms, E1.
    + eapply ran_trans; [exact R1|]. by rewrite <-(ran_objs _ _ _ R1) || done.
    + replace ({[t]} ∪ list_to_set (cp_txid <$> cps) ∪ seen) with (list_to_set (cp_txid <$> cps) ∪ ({[t]} ∪ seen)) by set_solver.
      done.
Qed.
(** A lineage that was just given its first copy. *)
Lemma copies_start w w' t f c :
  u64 t → content t = (f, c) → m0 = w_objs w → new_lineage ps f c t w w' L → snaps_only (w_objs w') L →
  (∀ u, u64 u → is_Some (w_objs w' !! SnapshotKey L 1 u) ↔ u = t) → copies (w_objs w') {[t]}.
Proof.
  intros Hu Ect Em (_ & _ & G & W & O & Hl) Hs Hseen. split; [by rewrite Em|done|done| | |].
  - intros u ->%elem_of_singleton. rewrite Ect. apply (lineage_holds _ _ _ _ W (oi_ok _ _ O) Hu Hs); [by apply Hseen|done].
  - intros u Hu' Hx. apply elem_of_singleton. by apply Hseen.
  - by intros u ->%elem_of_singleton.
Qed.

(** What the finished copies are good for. *)
Lemma copies_done m seen t : copies m seen → t ∈ seen → u64 t ∧ lineage_is ps m L t (content t).
Proof.
  intros [G O Hs Hh _ Hu] Ht. split; [by apply Hu|]. apply holds_lineage; [by apply (gr_wf _ _ _ G)|apply O|by apply Hu|done|by apply Hh].
Qed.

Lemma copies_acyclic m seen : copies m seen → acyclic (view_of m) L [].
Proof. intros [_ _ Hs _ _ _]. split; [|simpl; apply NoDup_singleton]. apply spine_root. by rewrite lineageBase_view_of, (proj1 Hs). Qed.

Lemma elem_of_kept (cps : gmap string Checkpoint) (seen : gset N) n cp :
  cps !! n = Some cp → cp_txid cp ∈ (list_to_set (cp_txid <$> (map_to_list cps).*2) ∪ seen : gset N).
Proof.
  intros Hc. apply elem_of_union_l, elem_of_list_to_set, list_elem_of_fmap. exists cp. split; [done|].
  apply list_elem_of_fmap. exists (n, cp). by rewrite elem_of_map_to_list.
Qed.
End kept.

(** ** The safety fork *)

Lemma GetRef_missing db branch w : calm w → w_objs w !! RefKey db branch = None → GetRef db branch w = (Err [ErrNotFound], w).
Proof.
  intros Hc Ho. unfold GetRef. rewrite io_bind_eq. unfold try. rewrite Get_calm by done. unfold kv_get. rewrite Ho.
  unfold describeMissingRef. change (errors_Is [ErrNotFound] ErrNotFound) with true. cbn match.
  rewrite !io_bind_eq. unfold try. by rewrite ListKeys_calm.
Qed.

(** The label of a safety fork is a valid one. *)
Lemma safety_meta_ok key branch suffix :
  (String.length key <= MaxMetaKeyLen)%nat → ValidateName (branch +:+ suffix)%string = Ok tt →
  ValidateMeta {[key := branch]} = Ok tt.
Proof.
  intros Hk Hn. assert (String.length branch <= maxNameLen)%nat as Hb.
  { unfold ValidateName in Hn. destruct (Nat.ltb_spec maxNameLen (String.length (branch +:+ suffix)%string)) as [|Hl].
    - by rewrite orb_true_r in Hn.
    - rewrite string_app_length in Hl. lia. }
  unfold ValidateMeta. rewrite map_size_singleton. cbn [Nat.ltb Nat.leb MaxMetaKeys]. rewrite decide_True; [done|].
  apply map_Forall_singleton. split; [done|]. unfold maxNameLen, MaxMetaValueLen in *. lia.
Qed.

(** [w1] follows [w] with one more branch, at [key], and what it needs: every
    other ref stays, and every lineage that holds a state still holds it. *)
Record preserves (w w1 : world) (key : string) : Prop := mk_preserves {
  pv_ran : ran w w1 (w_objs w1);
  pv_refs : ∀ db br, RefKey db br ≠ key → w_objs w1 !! RefKey db br = w_objs w !! RefKey db br;
  pv_manifest : has_manifest (w_objs w1);
  pv_wf : wf_store (w_objs w1);
  pv_ids : fresh_ids w1;
  pv_lineage : ∀ S bs u x, lineage_ok S = true → acyclic (view_of (w_objs w)) S bs → u64 u → lineage_is ps (w_objs w) S u x →
    acyclic (view_of (w_objs w1)) S bs ∧ (∀ t, Chain (view_of (w_objs w1)) S t = Chain (view_of (w_objs w)) S t)
    ∧ lineage_is ps (w_objs w1) S u x }.

Lemma preserves_refl w key : calm w → has_manifest (w_objs w) → wf_store (w_objs w) → fresh_ids w → preserves w w key.
Proof. intros. by split. Qed.

(** The branch at [key] is [b], whose head materializes to [x]. *)
Definition branch_is (m : objs) (key : string) (b : Ref) (x : bytes * N) : Prop :=
  ∃ bs, ref_at key m b ∧ head_is ps m b x ∧ acyclic (view_of m) (r_lineage b) bs
    ∧ lineage_ok (r_lineage b) = true ∧ u64 (r_head_txid b).

(** It outlives a fresh lineage and the repoint of another branch to it. *)
Lemma branch_survives m m' L db br o db' br' b x :
  wf_store m → fresh_id m L → grown m m' L → RefKey db' br' ≠ RefKey db br → branch_is m (RefKey db' br') b x →
  branch_is (<[RefKey db br := o]> m') (RefKey db' br') b x.
Proof.
  intros Hwf Hfr G Hne (bs & (wb & Hwb & Hdb) & Hh & Ha & Hok & Hu). exists bs.
  assert (r_lineage b ≠ L) as Hbl.
  { intros E. destruct Hh as (ms & Hms & _). rewrite E in Hms. by apply (fresh_not_resolved _ _ _ _ Hwf Hu Hms). }
  assert (acyclic (view_of m') (r_lineage b) bs) as Ha' by by apply (grown_acyclic m m' L); [|apply Hfr|..].
  split_and!; [|unfold head_is; eapply lineage_is_ref; [by apply (gr_wf _ _ _ G)|exact Ha'|done|]|by apply acyclic_insert_ref|done|done].
  - exists wb. split; [|done]. rewrite lookup_insert_ne by done. rewrite (gr_kept _ _ _ G); [done|apply RefKey_other|done].
  - by apply (lineage_grown ps m m' L _ _ bs).
Qed.

Lemma branch_preserved w w1 key db br b x :
  preserves w w1 key → RefKey db br ≠ key → branch_is (w_objs w) (RefKey db br) b x → branch_is (w_objs w1) (RefKey db br) b x.
Proof.
  intros Hp Hne (bs & (wb & Hwb & Hdb) & Hh & Ha & Hok & Hu). destruct (pv_lineage _ _ _ Hp _ _ _ _ Hok Ha Hu Hh) as (Ha1 & _ & Hh1).
  exists bs. split_and!; try done. exists wb. split; [|done]. by rewrite (pv_refs _ _ _ Hp).
Qed.

(** ** What is at the backup's name *)

(** Nothing, or a branch that reads back. *)
Definition taken_at (m : objs) (key : string) (taken : option Ref) : Prop :=
  match taken with None => m !! key = None | Some r => ref_at key m r end.

(** Why a backup is refused: the name is taken by a branch that is not [branch]'s
    own earlier backup, or that one may not be destroyed. *)
Definition backup_refusal (metaKey branch : string) (now : Z) (taken : option Ref) : option error :=
  match taken with
  | None => None
  | Some r =>
      if negb (bool_decide (default ""%string (r_meta r !! metaKey) = branch)) then Some [EExists]
      else destroy_refusal r false now
  end.

Lemma fresh_id_delete m L k : fresh_id m L → fresh_id (delete k m) L.
Proof.
  intros [[Hok Hu] He]. split; [split; [done|]|].
  - intros L' b [_ Hb]%lookup_delete_Some. by eapply Hu.
  - intros k' [o [_ Ho]%lookup_delete_Some]. apply He. eauto.
Qed.

(** Destroying a branch takes nothing from the others. *)
Lemma destroyed_preserves w w' db br :
  calm w → has_manifest (w_objs w) → wf_store (w_objs w) → fresh_ids w → destroyed w w' (RefKey db br) →
  preserves w w' (RefKey db br).
Proof.
  intros Hc [v [c Hman]] Hwf [Hinj Hf] [Ho Hc' Hcap [Hids Hnid]]. split.
  - split; congruence || lia || done.
  - intros db' br' Hne. by rewrite Ho, lookup_delete_ne.
  - exists v, c. by rewrite Ho, lookup_delete_ne.
  - rewrite Ho. by apply wf_store_delete.
  - split; rewrite Hids, Hnid; [done|]. intros i Hi. rewrite Ho. by apply fresh_id_delete, Hf.
  - intros S bs u x Hok Ha Hu Hl. rewrite Ho. split_and!; [by apply acyclic_delete_ref|intros t; apply Chain_delete_ref|].
    by eapply lineage_is_delete_ref.
Qed.

Lemma preserves_trans w1 w2 w3 key : preserves w1 w2 key → preserves w2 w3 key → preserves w1 w3 key.
Proof.
  intros [R1 K1 M1 W1 I1 L1] [R2 K2 M2 W2 I2 L2]. split; try done.
  - by eapply ran_trans.
  - intros db br Hne. by rewrite K2, K1.
  - intros S bs u x Hok Ha Hu Hl. destruct (L1 S bs u x Hok Ha Hu Hl) as (Ha1 & Hc1 & Hl1).
    destruct (L2 S bs u x Hok Ha1 Hu Hl1) as (Ha2 & Hc2 & Hl2). split_and!; try done. intros t. by rewrite Hc2, Hc1.
Qed.

Lemma app_suffix_ne (s x : string) : x ≠ ""%string → (s +:+ x)%string ≠ s.
Proof.
  intros Hx E. apply (f_equal String.length) in E. rewrite string_app_length in E. destruct x; [done|]. simpl in E. lia.
Qed.

(** A backup is not its branch. *)
Lemma backup_key_ne db branch suffix :
  ValidateName db = Ok tt → suffix ≠ ""%string → RefKey db branch ≠ RefKey db (branch +:+ suffix)%string.
Proof. intros Hn Hs E. apply RefKey_inj in E as [_ E]; [|done..]. by apply (app_suffix_ne branch suffix Hs). Qed.

Section safety.
  Context (every : Z) (side : option sumRecord) (old : option (N * res unit)) (db branch suffix metaKey : string) (ttl0 : Z)
    (w : world) (wire : refWire) (ref : Ref) (bs : list BasePointer) (f : bytes) (c : N) (taken : option Ref).
  Local Abbreviation m := (w_objs w).
  Local Abbreviation S := (r_lineage ref).
  Local Abbreviation name := (branch +:+ suffix)%string.
  Context (Hc : calm w) (Hndb : ValidateName db = Ok tt) (Hvb : ValidateName name = Ok tt) (Hold : checkout_quiesces old)
    (Hslot : taken_at m (RefKey db name) taken).

(** The name is freed, or the backup refused with the store untouched. *)
Lemma free_slot :
  match backup_refusal metaKey branch (w_now w) taken with
  | Some e => safetyFork every side old db branch suffix metaKey ttl0 w = (Err e, w)
  | None => ∃ w0, (w0 = w ∧ taken = None ∨ destroyed w w0 (RefKey db name))
      ∧ safetyFork every side old db branch suffix metaKey ttl0 w
        = (_ ← forkWith every side db branch name "" (if (ttl0 <=? 0)%Z then DefaultPromoteBackupTTL else ttl0) {[metaKey := branch]};
           mret name) w0
  end.
Proof.
  unfold backup_refusal, safetyFork. rewrite !io_bind_eq. unfold lift. rewrite Hvb, io_bind_eq. unfold try.
  destruct taken as [r|]; simpl in Hslot; cycle 1.
  { rewrite GetRef_missing by done. change (errors_Is [ErrNotFound] ErrNotFound) with true. cbn match.
    exists w. split; [by left|]. by rewrite io_bind_eq, io_ret_eq. }
  destruct Hslot as (wr & Hwr & Hdr). rewrite (GetRef_calm _ _ _ wr r) by done.
  destruct (negb _); [by rewrite io_bind_eq|].
  pose proof (destroy_outcome db name false old w wr r Hc Hndb Hvb Hold Hwr Hdr) as HD.
  destruct (destroy_refusal r false (w_now w)) as [e|]; [by rewrite io_bind_eq, HD|].
  destruct HD as (w0 & E & Hd). exists w0. split; [by right|]. by rewrite io_bind_eq, E.
Qed.

(** The fork that makes a backup, once its name is free. *)
Lemma backup_fork ttl w0 :
  calm w0 → has_manifest (w_objs w0) → ref_at (RefKey db branch) (w_objs w0) ref → side_right side ref (w_objs w0) →
  wf_store (w_objs w0) → lineage_ok S = true → acyclic (view_of (w_objs w0)) S bs → IsValidPageSize ps = true → LockPgno ps ≠ 1 →
  fresh_ids w0 → w_objs w0 !! RefKey db name = None → (String.length metaKey <= MaxMetaKeyLen)%nat → (0 <= ttl)%Z →
  1 <= r_head_txid ref → r_head_txid ref < u64_size → head_is ps (w_objs w0) ref (f, c) → db_file ps f c →
  ∃ w1, (_ ← forkWith every side db branch name "" ttl {[metaKey := branch]}; mret name) w0 = (Ok name, w1)
    ∧ preserves w0 w1 (RefKey db name) ∧ ∃ b, branch_is (w_objs w1) (RefKey db name) b (f, c).
Proof.
  intros Hc0 [v0 [c0 Hman]] [wr [Ho Hd]] Hside Hwf Hok Ha Hv Hl Hids Hno Hmk Httl Ht1 Ht2 Hlin Hdb.
  destruct (fork_calm ps every side db branch name "" ttl {[metaKey := branch]} w0 wr ref (headCheckpoint ref) bs
    v0 c0 f c) as (w1 & child & E & (Hr & HL & Ht & _ & _ & _ & _ & Hhd) & m1 & o & bs' & G & Ho1 & A1 & R1 & W1 & I1);
    [by split|by left|done|done|by eapply safety_meta_ok|done|done|].
  assert (fresh_id (w_objs w0) (w_ids w0 (w_nid w0))) as Hfr by (apply (fs_fresh _ Hids); lia).
  exists w1. split; [by rewrite io_bind_eq, E|]. split.
  - split; [done| | | |done|].
    + intros db' br' Hne. rewrite Ho1, lookup_insert_ne by done. rewrite (gr_kept _ _ _ G); [done|apply RefKey_other|done].
    + destruct (gr_manifest _ _ _ G) as (v & c1 & Hm1); [by exists v0, c0|]. exists v, c1. rewrite Ho1, lookup_insert_ne by done. done.
    + rewrite Ho1. by apply wf_store_insert_ref.
    + intros S' bs1 u x Hok' Ha' Hu Hx. assert (S' ≠ w_ids w0 (w_nid w0)) as HSL.
      { intros E'. destruct Hx as (ms & Hms & _). rewrite E' in Hms. by apply (fresh_not_resolved _ _ _ _ Hwf Hu Hms). }
      assert (acyclic (view_of m1) S' bs1) as Ha1 by by apply (grown_acyclic (w_objs w0) m1 (w_ids w0 (w_nid w0))); [|apply Hfr|..].
      rewrite Ho1. split_and!; [by apply acyclic_insert_ref|intros t; rewrite Chain_insert_ref; by apply (gr_chain _ _ _ G)|].
      eapply lineage_is_ref; [exact W1|exact Ha1|done|]. by apply (lineage_grown ps (w_objs w0) m1 (w_ids w0 (w_nid w0)) S' u bs1).
  - exists child, bs'. split_and!; [done|done|rewrite HL, Ho1; by apply acyclic_insert_ref|rewrite HL; apply Hfr|by rewrite Ht].
Qed.

Lemma safetyFork_calm :
  has_manifest m → ref_at (RefKey db branch) m ref → side_right side ref m → wf_store m → lineage_ok S = true →
  acyclic (view_of m) S bs → IsValidPageSize ps = true → LockPgno ps ≠ 1 → fresh_ids w →
  (String.length metaKey <= MaxMetaKeyLen)%nat → suffix ≠ ""%string →
  1 <= r_head_txid ref → r_head_txid ref < u64_size → head_is ps m ref (f, c) → db_file ps f c →
  backup_refusal metaKey branch (w_now w) taken = None →
  ∃ w1, safetyFork every side old db branch suffix metaKey ttl0 w = (Ok name, w1)
    ∧ preserves w w1 (RefKey db name) ∧ ∃ b, branch_is (w_objs w1) (RefKey db name) b (f, c).
Proof.
  intros Hman [wr [Ho Hd]] Hside Hwf Hok Ha Hv Hl Hids Hmk Hsx Ht1 Ht2 Hlin Hdb Hnone.
  pose proof free_slot as Hf. rewrite Hnone in Hf. destruct Hf as (w0 & Hw0 & ->).
  assert (preserves w w0 (RefKey db name)) as Hp0.
  { destruct Hw0 as [[-> _]|Hd0]; [by apply preserves_refl|by apply destroyed_preserves]. }
  assert (w_objs w0 !! RefKey db name = None) as Hno0.
  { destruct Hw0 as [[-> Et]|Hd0]; [by rewrite Et in Hslot|by rewrite (dd_objs _ _ _ Hd0), lookup_delete_eq]. }
  destruct (pv_lineage _ _ _ Hp0 S bs _ _ Hok Ha Ht2 Hlin) as (Ha0 & Hch0 & Hlin0).
  destruct (backup_fork (if (ttl0 <=? 0)%Z then DefaultPromoteBackupTTL else ttl0) w0) as (w1 & E & Hp & Hb); try done; try apply Hp0.
  - exists wr. split; [|done]. rewrite (pv_refs _ _ _ Hp0); [done|]. by apply backup_key_ne.
  - intros ms Hms. rewrite Hch0. by apply Hside.
  - destruct (Z.leb_spec ttl0 0); [|lia]. unfold DefaultPromoteBackupTTL, second. lia.
  - exists w1. split_and!; [exact E|by eapply preserves_trans|exact Hb].
Qed.
End safety.

Section rollback.
  Context (every : Z) (side : option sumRecord) (old : option (N * res unit)) (db branch to : string) (opts : RollbackOptions)
    (w : world) (wire : refWire) (ref : Ref) (cp : Checkpoint) (bs : list BasePointer) (content : N → bytes * N)
    (taken : option Ref).
  Local Abbreviation m := (w_objs w).
  Local Abbreviation S := (r_lineage ref).
  Local Abbreviation t := (cp_txid cp).
  Local Abbreviation backup := (branch +:+ "-pre-rollback")%string.
  Local Abbreviation backed := (RefKey db backup).

(** A sequential store with the branch, whose states at the target, at every
    checkpoint below it and, for the backup, at the head materialize.  At the
    backup's name there may be a branch ([taken]) and a checkout of it. *)
Record rollback_ready : Prop := mk_rollback_ready {
  rk_calm : calm w;
  rk_manifest : has_manifest m;
  rk_ref : m !! RefKey db branch = Some (ORef wire) ∧ decodeRef wire = Ok ref;
  rk_side : side_right side ref m;
  rk_wf : wf_store m ∧ lineage_ok S = true ∧ acyclic (view_of m) S bs;
  rk_ps : IsValidPageSize ps = true ∧ LockPgno ps ≠ 1;
  rk_ids : fresh_ids w;
  rk_target : r_checkpoints ref !! to = Some cp;
  rk_states : ∀ n c, r_checkpoints ref !! n = Some c → cp_txid c <= t → resolvable ref m content (cp_txid c);
  rk_backup : ro_NoBackup opts = false →
    ValidateName backup = Ok tt ∧ taken_at m backed taken ∧ checkout_quiesces old
    ∧ resolvable ref m content (r_head_txid ref) }.

(** Why the backup, when one is asked for, is refused. *)
Definition rollback_refusal : option error :=
  if ro_NoBackup opts then None else backup_refusal "offshoot.pre-rollback" branch (w_now w) taken.

(** The store the repoint then starts from. *)
Record backed_up (w1 : world) : Prop := mk_backed_up {
  bu_kept : preserves w w1 backed;
  bu_ref : w_objs w1 !! RefKey db branch = Some (ORef wire);
  bu_spine : acyclic (view_of (w_objs w1)) S bs;
  bu_chain : ∀ u, Chain (view_of (w_objs w1)) S u = Chain (view_of m) S u;
  bu_states : ∀ u, resolvable ref m content u → resolvable ref (w_objs w1) content u;
  bu_backup : ro_NoBackup opts = false → ∃ b, branch_is (w_objs w1) backed b (content (r_head_txid ref)) }.

Lemma backup_calm :
  rollback_ready → ValidateName db = Ok tt → rollback_refusal = None →
  ∃ b w1, (if ro_NoBackup opts then mret ""%string
           else safetyFork every side old db branch "-pre-rollback" "offshoot.pre-rollback" (ro_BackupTTL opts)) w = (Ok b, w1)
    ∧ backed_up w1.
Proof.
  intros [Hc Hman [Ho Hd] Hside (Hwf & Hok & Ha) [Hv Hl] Hids Hto Hst Hbk] Hndb Href.
  assert (∃ b w1, (if ro_NoBackup opts then mret ""%string
           else safetyFork every side old db branch "-pre-rollback" "offshoot.pre-rollback" (ro_BackupTTL opts)) w = (Ok b, w1)
    ∧ preserves w w1 backed ∧ w_objs w1 !! RefKey db branch = Some (ORef wire)
    ∧ (ro_NoBackup opts = false → ∃ b, branch_is (w_objs w1) backed b (content (r_head_txid ref)))) as (b & w1 & E & Hp & Hr & Hb).
  { unfold rollback_refusal in Href. destruct (ro_NoBackup opts) eqn:Enb; [exists ""%string, w; split_and!; try done; by apply preserves_refl|].
    destruct (Hbk eq_refl) as (Hvb & Hslot & Hold & Ht1 & Ht2 & Hlin & Hdb). destruct (content (r_head_txid ref)) as [f c].
    destruct (safetyFork_calm every side old db branch "-pre-rollback" "offshoot.pre-rollback" (ro_BackupTTL opts) w ref bs f c taken)
      as (w1 & E & Hp & Hb); try done; [by exists wire|vm_compute; lia|].
    exists backup, w1. split_and!; try done. rewrite (pv_refs _ _ _ Hp); [done|]. by apply backup_key_ne. }
  destruct (Hst _ _ Hto ltac:(done)) as (_ & Hu & Hlin & _).
  destruct (pv_lineage _ _ _ Hp S bs _ _ Hok Ha Hu Hlin) as (Ha1 & Hch & _).
  exists b, w1. split; [done|]. split; try done. intros u (Hu1 & Hu2 & Hul & Hud). split_and!; try done.
  by apply (pv_lineage _ _ _ Hp S bs _ _ Hok Ha Hu2 Hul).
Qed.

(** ** The new lineage and its checkpoints *)

(** The checkpoints of the repointed branch. *)
Definition kept_of (base : option BasePointer) : gmap string Checkpoint :=
  match base with
  | Some _ => kept_at t (r_checkpoints ref)
  | None => relocated <$> kept_at t (r_checkpoints ref)
  end.

Lemma kept_of_txid base n : cp_txid <$> kept_of base !! n = cp_txid <$> kept_at t (r_checkpoints ref) !! n.
Proof. destruct base; cbn [kept_of]; [done|]. rewrite lookup_fmap. by destruct (kept_at _ _ !! n). Qed.

Lemma kept_at_Some n c0 : kept_at t (r_checkpoints ref) !! n = Some c0 → r_checkpoints ref !! n = Some c0 ∧ cp_txid c0 <= t.
Proof. unfold kept_at. by intros [? ?]%map_lookup_filter_Some. Qed.

Lemma kept_of_Some base n c0 :
  kept_of base !! n = Some c0 → ∃ c1, kept_at t (r_checkpoints ref) !! n = Some c1 ∧ cp_txid c1 = cp_txid c0.
Proof.
  intros Hc. pose proof (kept_of_txid base n) as E. rewrite Hc in E.
  destruct (kept_at t (r_checkpoints ref) !! n) as [c1|]; simpl in E; [|done]. injection E as E. eauto.
Qed.

Lemma lineage_calm w1 :
  rollback_ready → backed_up w1 →
  let L := w_ids w1 (w_nid w1) in
  ∃ base copied w3,
    (members ← chainAt side ref cp;
     '(lineage, base) ← newLineageAt every ref cp members (ro_Materialize opts);
     '(kept, copied) ← match base with
                       | Some _ => mret (kept_at t (r_checkpoints ref), [BaseKey lineage])
                       | None =>
                           copied ← copy_kept ref lineage (map_to_list (kept_at t (r_checkpoints ref))).*2 {[t]} [SnapshotKey lineage 1 t];
                           mret (relocated <$> kept_at t (r_checkpoints ref), copied)
                       end;
     mret (lineage, base, kept, copied)) w1 = (Ok (L, base, kept_of base, copied), w3)
    ∧ ran w1 w3 (w_objs w3) ∧ grown (w_objs w1) (w_objs w3) L ∧ wf_store (w_objs w3)
    ∧ (∃ bs', acyclic (view_of (w_objs w3)) L bs')
    ∧ ∀ u, u = t ∨ (∃ n c0, kept_at t (r_checkpoints ref) !! n = Some c0 ∧ cp_txid c0 = u) →
        u64 u ∧ lineage_is ps (w_objs w3) L u (content u).
Proof.
  intros [_ _ _ Hside (_ & Hok & _) [Hv Hl] _ Hto Hst _] [[R1 _ [v0 [c0 Hman]] Hwf1 I1 _] Ho1 Ha1 Hch1 Hst1 _] L.
  destruct (Hst1 t (Hst _ _ Hto ltac:(done))) as (Ht1 & Ht2 & Hlin & Hdb).
  destruct (content t) as [f c] eqn:Ect. cbn [fst snd] in Hdb. pose proof Hlin as (ms & Hms & Hcc).
  assert (fresh_id (w_objs w1) L) as Hfr by (apply (fs_fresh _ I1); lia).
  assert (S ≠ L) as HSL by (intros E; rewrite E in Hms; by apply (fresh_not_resolved _ _ _ _ Hwf1 Ht2 Hms)).
  assert (side_right side ref (w_objs w1)) as Hside1 by (intros ms' Hms'; rewrite Hch1; by apply Hside).
  rewrite io_bind_eq, (chainAt_calm side ref cp w1 ms) by (apply R1 || done).
  destruct (newLineageAt_calm ps f c t Hv Hl Hdb Ht1 Ht2 every w1 ref cp bs ms (ro_Materialize opts) v0 c0)
    as (base & w2 & E2 & Hn & Hk); [apply R1|done|by split|done|done|done|].
  rewrite io_bind_eq, E2. fold L in Hn, Hk |- *. pose proof Hn as (R2 & _ & G2 & W2 & O2 & Hl2).
  destruct (lineage_kind_acyclic _ _ _ _ _ _ Hk) as [bs' Ha2]. destruct base as [b|].
  - rewrite io_bind_eq, !io_ret_eq. exists (Some b), [BaseKey L], w2. split; [done|]. split_and!; try done; [by exists bs'|].
    destruct Hk as (_ & _ & _ & Hbelow). intros u [->|(n & c1 & [Hc1 Hle]%kept_at_Some & <-)]; [by rewrite Ect|].
    destruct (Hst1 _ (Hst _ _ Hc1 Hle)) as (_ & ? & Hu & _). split; [done|]. by apply Hbelow.
  - destruct Hk as [Hs Hseen]. rewrite io_bind_eq, io_bind_eq.
    assert (copies L (w_objs w1) content (w_objs w2) {[t]}) as Hco by (eapply copies_start; done).
    destruct (copy_kept_calm ref L bs (w_objs w1) content Hv Hl Hok HSL Hwf1 Hfr Ha1
      (map_to_list (kept_at t (r_checkpoints ref))).*2 {[t]} [SnapshotKey L 1 t] w2 (ran_calm _ _ _ R2) Hco) as (copied & w3 & E3 & R3 & Hco3).
    { intros c1 Hc1. apply list_elem_of_fmap in Hc1 as ([n c2] & -> & Hc1). apply elem_of_map_to_list, kept_at_Some in Hc1 as [Hc1 Hle].
      by apply Hst1, (Hst n). }
    rewrite E3, !io_ret_eq. pose proof (co_grown _ _ _ _ _ Hco3) as G3.
    exists None, copied, w3. split; [done|]. split_and!; [by eapply ran_trans|done|by apply (gr_wf _ _ _ G3)|exists []; by eapply copies_acyclic|].
    intros u Hu. eapply copies_done; [exact Hwf1|exact Hco3|]. destruct Hu as [->|(n & c1 & Hc1 & <-)]; [set_solver|by eapply elem_of_kept].
Qed.

(** What a rollback leaves. *)
Definition rolled_back (w' : world) (r' : Ref) : Prop :=
  ref_at (RefKey db branch) (w_objs w') r'
  ∧ r_head_txid r' = t ∧ r_lease_holder r' = ""%string ∧ head_is ps (w_objs w') r' (content t)
  ∧ (∀ n, cp_txid <$> r_checkpoints r' !! n = cp_txid <$> kept_at t (r_checkpoints ref) !! n)
  ∧ (∀ n c0, r_checkpoints r' !! n = Some c0 →
       lineage_is ps (w_objs w') (r_lineage r') (cp_txid c0) (content (cp_txid c0)))
  ∧ (ro_NoBackup opts = false →
       ∃ b, ref_at backed (w_objs w') b ∧ head_is ps (w_objs w') b (content (r_head_txid ref))).

Lemma rollback_refused e :
  rollback_ready → ValidateName db = Ok tt → ValidateName branch = Ok tt → ValidateName to = Ok tt →
  refuseIfHeld ref "rollback" (ro_Force opts) (w_now w) = Ok tt → rollback_refusal = Some e →
  RollbackWith every side old db branch to opts w = (Err e, w).
Proof.
  intros [Hc _ [Ho Hd] _ _ _ _ Hto _ Hbk] Hndb Hnb Hnt Hheld Href. unfold rollback_refusal in Href.
  unfold RollbackWith. rewrite !io_bind_eq. unfold lift. rewrite Hndb, io_bind_eq, Hnb, io_bind_eq, Hnt, io_bind_eq.
  rewrite (GetRef_calm _ _ _ wire ref) by done. rewrite io_bind_eq, now_eq, io_bind_eq, Hheld, Hto.
  destruct (if t <? r_head_txid ref then _ else _) as [from upto]. rewrite io_bind_eq.
  destruct (ro_NoBackup opts); [done|]. destruct (Hbk eq_refl) as (Hvb & Hslot & Hold & _).
  pose proof (free_slot every side old db branch "-pre-rollback" "offshoot.pre-rollback" (ro_BackupTTL opts) w taken
    Hc Hndb Hvb Hold Hslot) as Hf. rewrite Href in Hf. by rewrite Hf.
Qed.

(** C13: Rolling back restores the checkpoint and loses nothing.  On a store
    nothing else writes meanwhile ([calm]), for a branch not being removed or
    reaped and with no live lease (a force overrides a lease), whose checkpoint
    to go back to, those below it and, for the backup, its head all materialize
    ([rollback_ready]): when the name
    [-pre-rollback] is taken by a branch that is not this one's earlier backup,
    or by a backup that is protected, leased or being deleted, [RollbackWith] is
    refused and the store is untouched.  Otherwise it succeeds, an earlier
    backup being replaced.  The branch's head is then the checkpoint's
    transaction and materializes to the checkpoint's database; the checkpoints
    at or before it are kept, and each still materializes to its own database,
    whether the new lineage is shared or copied; and unless the backup was
    declined, the branch [-pre-rollback] holds the head that was given up. *)
Theorem rollback_content :
  rollback_ready → ValidateName db = Ok tt → ValidateName branch = Ok tt → ValidateName to = Ok tt →
  refuseIfHeld ref "rollback" (ro_Force opts) (w_now w) = Ok tt →
  match rollback_refusal with
  | Some e => RollbackWith every side old db branch to opts w = (Err e, w)
  | None => ∃ result w' r', RollbackWith every side old db branch to opts w = (Ok result, w') ∧ rolled_back w' r'
  end.
Proof.
  intros Hr Hndb Hnb Hnt Hheld. pose proof Hr as [Hc _ [Ho Hd] _ _ _ _ Hto Hst Hbk].
  destruct rollback_refusal as [e|] eqn:Href; [by apply rollback_refused|].
  destruct (backup_calm Hr Hndb Href) as (bk & w1 & E1 & Hbu). destruct (lineage_calm w1 Hr Hbu) as (base & copied & w3 & E3 & R3 & G3 & W3 & [bs' A3] & Hlin).
  set (L := w_ids w1 (w_nid w1)) in *. pose proof Hbu as [[R1 _ _ W1 I1 _] Ho1 _ _ _ Hbk1].
  assert (w_objs w3 !! RefKey db branch = Some (ORef wire)) as Ho3.
  { rewrite (gr_kept _ _ _ G3); [done|apply RefKey_other|done]. }
  set (next := repointed L t (kept_of base) base (w_now w3) ref).
  assert (∃ result, RollbackWith every side old db branch to opts w
    = (Ok result, store_at (RefKey db branch) (Some (ORef (encodeRef next))) w3)) as [result E].
  { unfold RollbackWith. rewrite !io_bind_eq. unfold lift. rewrite Hndb, io_bind_eq, Hnb, io_bind_eq, Hnt, io_bind_eq.
    rewrite (GetRef_calm _ _ _ wire ref) by done. rewrite io_bind_eq, now_eq, io_bind_eq, Hheld, Hto.
    destruct (if t <? r_head_txid ref then _ else _) as [from upto]. rewrite io_bind_eq, E1.
    rewrite io_bind_eq in E3. rewrite io_bind_eq. destruct (chainAt side ref cp w1) as [[ms|] w2]; [|done].
    rewrite io_bind_eq in E3. rewrite io_bind_eq. destruct (newLineageAt _ _ _ _ _ w2) as [[[lin bp]|] w2']; [|done].
    rewrite io_bind_eq in E3. rewrite io_bind_eq.
    match type of E3 with context [?k w2'] => destruct (k w2') as [[[kept cop]|] w2'']; [|done] end.
    rewrite io_ret_eq in E3. injection E3 as -> -> -> -> ->.
    rewrite io_bind_eq, now_eq, io_bind_eq. unfold put_repoint. rewrite io_bind_eq. unfold try.
    rewrite PutRef_calm by (apply R3 || done || by rewrite Ho3, kv_match_self).
    rewrite !io_ret_eq. eexists. done. }
  exists result, (store_at (RefKey db branch) (Some (ORef (encodeRef next))) w3), next. split; [exact E|].
  unfold rolled_back. rewrite store_at_insert. destruct (decodeRef_ok _ _ Hd) as (_ & _ & [Hsch _] & _).
  assert (∀ u, u = t ∨ (∃ n c0, kept_at t (r_checkpoints ref) !! n = Some c0 ∧ cp_txid c0 = u) →
    lineage_is ps (<[RefKey db branch := ORef (encodeRef next)]> (w_objs w3)) L u (content u)) as Hlin'.
  { intros u Hu. destruct (Hlin u Hu) as [Hu64 Hl]. by eapply lineage_is_ref. }
  split_and!.
  - exists (encodeRef next). rewrite lookup_insert_eq. split; [done|]. rewrite decodeRef_encodeRef.
    + rewrite normalizeRef_normal; [reflexivity|]. split; [exact Hsch|discriminate].
    + intros n c1 Hc1. destruct (kept_of_Some base n c1 Hc1) as (c2 & [Hc2 Hle]%kept_at_Some & <-).
      destruct (Hst _ _ Hc2 Hle). lia.
  - done.
  - done.
  - apply Hlin'. by left.
  - apply kept_of_txid.
  - intros n c1 Hc1. destruct (kept_of_Some base n c1 Hc1) as (c2 & Hc2 & <-). apply Hlin'. right. eauto.
  - intros Enb.
    assert (fresh_id (w_objs w1) L) as Hfr by (apply (fs_fresh _ I1); lia).
    destruct (Hbk1 Enb) as [b Hb].
    destruct (branch_survives (w_objs w1) (w_objs w3) L db branch (ORef (encodeRef next)) db backup b (content (r_head_txid ref)) W1 Hfr G3)
      as (_ & Hb' & Hhb & _); [by apply not_eq_sym, backup_key_ne|done|]. by exists b.
Qed.
End rollback.
End content.
