(* ===== verification/PromoteRun.v ===== *)
(** * Promote and compact preserve content

    [PromoteWith] and [CompactWith] on a store nothing else writes meanwhile: a
    promoted branch holds its source's head and its backup the head it gave up; a
    compacted branch holds what it held, at its head and at every checkpoint, and
    rests on no other lineage. *)
From Stdlib Require Import Ascii String Strings.Byte.
From S2P Require Import Prelude GoStrings Keys Refs Backend Chain ChainFacts ChainProps ChainGrow Store Rely Lease Gc Claims ClaimsProps Files Ltx LtxProps LtxModel StreamProps Session SessionProps SessionRun Content Delta DeltaProps Checkpoint CheckpointProps CheckpointRun Repoint NewLineage ForkRun RollbackRun.
Local Open Scope N_scope.

Section content.
  Context `{LtxLib} (ps : N).

(** A branch's record, on a resolvable lineage, at a head that is a database. *)
Record branch_state (m : objs) (r : Ref) (bs : list BasePointer) (x : bytes * N) : Prop := mk_branch_state {
  st_ok : lineage_ok (r_lineage r) = true;
  st_spine : acyclic (view_of m) (r_lineage r) bs;
  st_txid : 1 <= r_head_txid r ∧ r_head_txid r < u64_size;
  st_head : head_is ps m r x;
  st_db : db_file ps x.1 x.2 }.

(** The ref a repoint writes reads back as written. *)
Lemma stored_ref_at m db branch next :
  ref_normal next → cps_nonzero (r_checkpoints next) →
  ref_at (RefKey db branch) (<[RefKey db branch := ORef (encodeRef next)]> m) next.
Proof.
  intros Hn Hnz. exists (encodeRef next). rewrite lookup_insert_eq. split; [done|].
  rewrite decodeRef_encodeRef by done. by rewrite normalizeRef_normal.
Qed.

Lemma decoded_schema wire ref : decodeRef wire = Ok ref → r_schema ref = RefSchema.
Proof. intros Hd. by destruct (decodeRef_ok _ _ Hd) as (_ & _ & [Hsch _] & _). Qed.

(** ** Promote *)

Section promote.
  Context (every : Z) (side sideT : option sumRecord) (old : option (N * res unit)) (db source target : string)
    (opts : PromoteOptions) (w : world) (wireS wireT : refWire) (src tgt : Ref) (bsS bsT : list BasePointer) (xS xT : bytes * N)
    (taken : option Ref).
  Local Abbreviation m := (w_objs w).
  Local Abbreviation backup := (target +:+ "-pre-promote")%string.

(** A backup of the target is taken: not declined, nor is its own backup being
    promoted back onto it. *)
Definition backs_up : bool :=
  negb (po_NoBackup opts)
  && negb (bool_decide (source = backup) && bool_decide (default ""%string (r_meta src !! "offshoot.pre-promote"%string) = target)).

Record promote_ready : Prop := mk_promote_ready {
  pm_calm : calm w;
  pm_manifest : has_manifest m;
  pm_source : m !! RefKey db source = Some (ORef wireS) ∧ decodeRef wireS = Ok src ∧ branch_state m src bsS xS;
  pm_target : m !! RefKey db target = Some (ORef wireT) ∧ decodeRef wireT = Ok tgt;
  pm_side : side_right side src m;
  pm_wf : wf_store m;
  pm_ps : IsValidPageSize ps = true ∧ LockPgno ps ≠ 1;
  pm_ids : fresh_ids w;
  pm_backup : backs_up = true →
    ValidateName backup = Ok tt ∧ taken_at m (RefKey db backup) taken ∧ checkout_quiesces old
    ∧ side_right sideT tgt m ∧ branch_state m tgt bsT xT }.

(** Why the backup, when one is taken, is refused. *)
Definition promote_refusal : option error :=
  if backs_up then backup_refusal "offshoot.pre-promote" target (w_now w) taken else None.

(** The source is not the backup that is replaced. *)
Lemma source_not_backup :
  ref_at (RefKey db source) m src → ValidateName db = Ok tt → taken_at m (RefKey db backup) taken →
  backs_up = true → promote_refusal = None → RefKey db source ≠ RefKey db backup.
Proof.
  intros HS Hndb Hslot Eb Href E. unfold promote_refusal in Href. rewrite Eb in Href. destruct HS as (ws & Hws & Hds).
  rewrite E in Hws. destruct taken as [r|]; simpl in Hslot; [|congruence].
  destruct Hslot as (wr & Hwr & Hdr). rewrite Hws in Hwr. injection Hwr as <-. rewrite Hds in Hdr. injection Hdr as <-.
  apply RefKey_inj in E as [_ ->]; [|done..]. simpl in Href. unfold backs_up in Eb.
  rewrite bool_decide_eq_true_2 in Eb by done.
  destruct (bool_decide (default _ _ = target)); [by rewrite andb_false_r in Eb|done].
Qed.

Lemma promote_backup_calm :
  promote_ready → ValidateName db = Ok tt → promote_refusal = None →
  ∃ b w1, (if backs_up then safetyFork every sideT old db target "-pre-promote" "offshoot.pre-promote" (po_BackupTTL opts)
           else mret ""%string) w = (Ok b, w1)
    ∧ preserves ps w w1 (RefKey db backup) ∧ w_objs w1 !! RefKey db target = Some (ORef wireT)
    ∧ branch_is ps (w_objs w1) (RefKey db source) src xS
    ∧ (backs_up = true → ∃ r, branch_is ps (w_objs w1) (RefKey db backup) r xT).
Proof.
  intros [Hc Hman (HoS & HdS & [HokS HaS [HtS1 HtS2] HhS _]) [HoT HdT] Hside Hwf [Hv Hl] Hids Hbk] Hndb Href.
  assert (branch_is ps m (RefKey db source) src xS) as HS by (exists bsS; split_and!; try done; by exists wireS).
  destruct (decide (backs_up = true)) as [Eb|Eb%not_true_is_false]; rewrite Eb; [|exists ""%string, w; split_and!; try done; by apply preserves_refl].
  destruct (Hbk Eb) as (Hvb & Hslot & Hold & HsT & [HokT HaT [HtT1 HtT2] HhT HdbT]). destruct xT as [fT cT].
  pose proof Href as Href'. unfold promote_refusal in Href'. rewrite Eb in Href'.
  destruct (safetyFork_calm ps every sideT old db target "-pre-promote" "offshoot.pre-promote" (po_BackupTTL opts) w tgt bsT fT cT taken)
    as (w1 & E & Hp & Hb); try done; [by exists wireT|vm_compute; lia|].
  exists backup, w1. split_and!; try done.
  - rewrite (pv_refs _ _ _ _ Hp); [done|]. by apply backup_key_ne.
  - eapply branch_preserved; [exact Hp| |done]. apply source_not_backup; try done. by exists wireS.
Qed.

(** What a promote leaves. *)
Definition promoted (w' : world) (r' : Ref) : Prop :=
  ref_at (RefKey db target) (w_objs w') r' ∧ head_is ps (w_objs w') r' xS
  ∧ r_head_txid r' = r_head_txid src ∧ r_lease_holder r' = ""%string
  ∧ cp_txid <$> r_checkpoints r' = {["promote"%string := r_head_txid src]}
  ∧ ref_at (RefKey db source) (w_objs w') src ∧ head_is ps (w_objs w') src xS
  ∧ (backs_up = true → ∃ b, ref_at (RefKey db backup) (w_objs w') b ∧ head_is ps (w_objs w') b xT).

Lemma promote_refused e :
  promote_ready → source ≠ target → ValidateName db = Ok tt → ValidateName source = Ok tt → ValidateName target = Ok tt →
  refuseIfHeld tgt "promote onto" (po_Force opts) (w_now w) = Ok tt → r_protected tgt && negb (po_Force opts) = false →
  promote_refusal = Some e → PromoteWith every side sideT old db source target opts w = (Err e, w).
Proof.
  intros [Hc _ (HoS & HdS & _) [HoT HdT] _ _ _ _ Hbk] Hne Hndb Hns Hnt Hheld Hprot Href.
  unfold PromoteWith. rewrite bool_decide_eq_false_2 by done. rewrite !io_bind_eq. unfold lift.
  rewrite Hndb, io_bind_eq, Hns, io_bind_eq, Hnt, io_bind_eq.
  rewrite (GetRef_calm _ _ _ wireS src) by done. rewrite io_bind_eq, (GetRef_calm _ _ _ wireT tgt) by done.
  rewrite io_bind_eq, now_eq, io_bind_eq, Hheld, Hprot, io_bind_eq. change (negb _ && negb _) with backs_up.
  unfold promote_refusal in Href. destruct (decide (backs_up = true)) as [Eb|Eb%not_true_is_false]; rewrite Eb in Href |- *; [|done].
  destruct (Hbk Eb) as (Hvb & Hslot & Hold & _).
  pose proof (free_slot every sideT old db target "-pre-promote" "offshoot.pre-promote" (po_BackupTTL opts) w taken
    Hc Hndb Hvb Hold Hslot) as Hf. rewrite Href in Hf. by rewrite Hf.
Qed.

(** C14: Promoting gives the target its source's state and loses nothing.  On a
    store nothing else writes meanwhile ([calm]), for two branches whose heads
    materialize ([promote_ready]) and a target not being removed or reaped,
    unprotected and with no live lease (a force overrides the last two): when a backup is to be taken and the name
    [-pre-promote] is taken by a branch that is not the target's earlier backup,
    or by a backup that is protected, leased or being deleted, [PromoteWith] is
    refused and the store is untouched.  Otherwise it succeeds, an earlier
    backup being replaced.  The target's head is then the source's transaction and materializes
    to the source's database, recorded as the checkpoint [promote]; the source
    branch and its state are as before; and when a backup is taken, the branch
    [-pre-promote] holds the head the target gave up. *)
Theorem promote_content :
  promote_ready → source ≠ target → ValidateName db = Ok tt → ValidateName source = Ok tt → ValidateName target = Ok tt →
  refuseIfHeld tgt "promote onto" (po_Force opts) (w_now w) = Ok tt → r_protected tgt && negb (po_Force opts) = false →
  match promote_refusal with
  | Some e => PromoteWith every side sideT old db source target opts w = (Err e, w)
  | None => ∃ result w' r', PromoteWith every side sideT old db source target opts w = (Ok result, w') ∧ promoted w' r'
  end.
Proof.
  intros Hr Hne Hndb Hns Hnt Hheld Hprot. pose proof Hr as [Hc _ (HoS & HdS & [HokS HaS [HtS1 HtS2] HhS HdbS]) [HoT HdT] Hside Hwf [Hv Hl] _ Hbk].
  destruct promote_refusal as [e|] eqn:Href; [by apply promote_refused|].
  destruct (promote_backup_calm Hr Hndb Href) as (bk & w1 & E1 & Hp & HoT1 & HbS1 & Hbk1).
  pose proof Hp as [R1 _ [v0 [c0 Hman1]] W1 I1 Hlin1]. destruct (Hlin1 _ _ _ _ HokS HaS HtS2 HhS) as (HaS1 & Hch1 & HhS1).
  set (L := w_ids w1 (w_nid w1)). assert (fresh_id (w_objs w1) L) as Hfr by (apply (fs_fresh _ I1); lia).
  pose proof HhS1 as (ms & Hms & _). unfold promoted. destruct xS as [f c].
  destruct (newLineageAt_calm ps f c (r_head_txid src) Hv Hl HdbS HtS1 HtS2 every w1 src (headCheckpoint src) bsS ms (po_Materialize opts) v0 c0)
    as (base & w2 & E2 & Hn & Hk); [apply R1|done|by split|done|done|done|]. fold L in E2, Hn, Hk.
  pose proof Hn as (R2 & _ & G2 & W2 & _).
  assert (w_objs w2 !! RefKey db target = Some (ORef wireT)) as HoT2.
  { rewrite (gr_kept _ _ _ G2); [done|apply RefKey_other|done]. }
  set (next := set_parent (parentOf db source (r_head_txid src)) (repointed L (r_head_txid src)
    {["promote"%string := mkCheckpoint (r_head_txid src) 1 (nowStamp (w_now w2)) ∅ ""]} base (w_now w2) tgt)).
  assert (∃ result, PromoteWith every side sideT old db source target opts w
    = (Ok result, store_at (RefKey db target) (Some (ORef (encodeRef next))) w2)) as [result E].
  { unfold PromoteWith. rewrite bool_decide_eq_false_2 by done. rewrite !io_bind_eq. unfold lift.
    rewrite Hndb, io_bind_eq, Hns, io_bind_eq, Hnt, io_bind_eq.
    rewrite (GetRef_calm _ _ _ wireS src) by done. rewrite io_bind_eq, (GetRef_calm _ _ _ wireT tgt) by done.
    rewrite io_bind_eq, now_eq, io_bind_eq, Hheld, Hprot, io_bind_eq. unfold backs_up in E1. rewrite E1.
    assert (chainAt side src (headCheckpoint src) w1 = (Ok ms, w1)) as Hca.
    { apply chainAt_calm; [apply R1| |done]. intros ms' Hms'. rewrite Hch1. by apply Hside. }
    unfold chainAt in Hca. cbn [cp_txid headCheckpoint] in Hca. rewrite N.eqb_refl in Hca.
    rewrite io_bind_eq, Hca, io_bind_eq, E2, io_bind_eq, now_eq, io_bind_eq. unfold put_repoint. rewrite io_bind_eq. unfold try.
    rewrite PutRef_calm by (apply R2 || done || by rewrite HoT2, kv_match_self). rewrite !io_ret_eq. eexists. done. }
  exists result, (store_at (RefKey db target) (Some (ORef (encodeRef next))) w2), next. split; [exact E|]. rewrite store_at_insert.
  assert (RefKey db source ≠ RefKey db target) as HkST by (intros E'; by apply RefKey_inj in E' as [_ ?]).
  destruct (branch_survives ps (w_objs w1) (w_objs w2) L db target (ORef (encodeRef next)) db source src (f, c) W1 Hfr G2 HkST HbS1)
    as (_ & HrS & HhS2 & _).
  split_and!; try done.
  - apply stored_ref_at; [split; [exact (decoded_schema _ _ HdT)|discriminate]|]. intros n cp Hcp.
    cbn [next r_checkpoints set_parent repointed Touch set_touched_at set_lease_expiry set_lease_holder set_base set_checkpoints] in Hcp.
    apply lookup_singleton_Some in Hcp as [_ <-]. cbn. lia.
  - by eapply new_lineage_ref.
  - intros Eb. destruct (Hbk1 Eb) as [b Hb].
    destruct (branch_survives ps (w_objs w1) (w_objs w2) L db target (ORef (encodeRef next)) db backup b xT W1 Hfr G2)
      as (_ & Hb' & Hhb & _); [by apply not_eq_sym, backup_key_ne|done|]. by exists b.
Qed.
End promote.

(** ** Compact *)

Section compact.
  Context (db branch : string) (force : bool) (w : world) (wire : refWire) (ref : Ref) (bs : list BasePointer) (content : N → bytes * N).
  Local Abbreviation m := (w_objs w).
  Local Abbreviation S := (r_lineage ref).
  Local Abbreviation t := (r_head_txid ref).

Record compact_ready : Prop := mk_compact_ready {
  ck_calm : calm w;
  ck_ref : m !! RefKey db branch = Some (ORef wire) ∧ decodeRef wire = Ok ref;
  ck_wf : wf_store m ∧ lineage_ok S = true ∧ acyclic (view_of m) S bs;
  ck_ps : IsValidPageSize ps = true ∧ LockPgno ps ≠ 1;
  ck_ids : fresh_ids w;
  ck_head : resolvable ps ref m content t;
  ck_states : ∀ n c, r_checkpoints ref !! n = Some c → resolvable ps ref m content (cp_txid c) }.

(** What a compacted branch is: on a lineage with no base, with the head and the
    checkpoints it had and the states they named. *)
Definition compact_state (m' : objs) (r : Ref) : Prop :=
  ref_at (RefKey db branch) m' r ∧ BaseSpine (view_of m') (r_lineage r) = Ok []
  ∧ r_head_txid r = t ∧ head_is ps m' r (content t)
  ∧ (∀ n c, r_checkpoints ref !! n = Some c → cp_txid <$> r_checkpoints r !! n = Some (cp_txid c))
  ∧ (∀ n c, r_checkpoints r !! n = Some c → lineage_is ps m' (r_lineage r) (cp_txid c) (content (cp_txid c))).

Lemma compacted_Some now n c :
  compacted t now (r_checkpoints ref) !! n = Some c →
  cp_txid c = t ∨ ∃ c0, r_checkpoints ref !! n = Some c0 ∧ cp_txid c0 = cp_txid c.
Proof.
  unfold compacted. intros Hc. assert ((relocated <$> r_checkpoints ref) !! n = Some c → ∃ c0, r_checkpoints ref !! n = Some c0 ∧ cp_txid c0 = cp_txid c) as Hk.
  { rewrite lookup_fmap. intros (c0 & Hc0 & ->)%fmap_Some. by exists c0. }
  destruct ((relocated <$> r_checkpoints ref) !! "compact"%string); [right; by apply Hk|].
  apply lookup_insert_Some in Hc as [[_ <-]|[_ Hc]]; [by left|right; by apply Hk].
Qed.

Lemma compacted_keeps now n c :
  r_checkpoints ref !! n = Some c → cp_txid <$> compacted t now (r_checkpoints ref) !! n = Some (cp_txid c).
Proof.
  intros Hc. unfold compacted. destruct ((relocated <$> r_checkpoints ref) !! "compact"%string) eqn:E; [by rewrite lookup_fmap, Hc|].
  rewrite lookup_insert_ne, lookup_fmap by (intros <-; by rewrite lookup_fmap, Hc in E). by rewrite Hc.
Qed.

(** The copies a compaction makes. *)
Lemma compact_copies :
  compact_ready → let L := w_ids w (w_nid w) in
  ∃ fast copied w2 w3, copySnapshotToNewLineage ref (headCheckpoint ref) w = (Ok (L, fast), w2)
    ∧ copy_kept ref L (map_to_list (r_checkpoints ref)).*2 {[t]} [SnapshotKey L 1 t] w2 = (Ok copied, w3)
    ∧ ran w w3 (w_objs w3)
    ∧ copies ps L m content (w_objs w3) (list_to_set (cp_txid <$> (map_to_list (r_checkpoints ref)).*2) ∪ {[t]}).
Proof.
  intros [Hc _ (Hwf & Hok & Ha) [Hv Hl] Hids (Ht1 & Ht2 & Hlin & Hdb) Hst] L.
  destruct (content t) as [f c] eqn:Ect. cbn [fst snd] in Hdb. pose proof Hlin as (ms & Hms & Hcc).
  assert (fresh_id m L) as Hfr by (apply (fs_fresh _ Hids); lia).
  assert (S ≠ L) as HSL by (intros E; rewrite E in Hms; by apply (fresh_not_resolved _ _ _ _ Hwf Ht2 Hms)).
  destruct (copyToNew_calm ps f c t Hv Hl Hdb Ht1 Ht2 w ms Hc Hwf Hfr Hcc) as (fast & w2 & E2 & Hn & Hs & Hseen). fold L in E2, Hn, Hs, Hseen.
  assert (copies ps L m content (w_objs w2) {[t]}) as Hco by (eapply copies_start; done).
  destruct (copy_kept_calm ps ref L bs m content Hv Hl Hok HSL Hwf Hfr Ha (map_to_list (r_checkpoints ref)).*2 {[t]} [SnapshotKey L 1 t] w2
    (ran_calm _ _ _ (proj1 Hn)) Hco) as (copied & w3 & E3 & R3 & Hco3).
  { intros c1 Hc1. apply list_elem_of_fmap in Hc1 as ([n c2] & -> & Hc1). apply elem_of_map_to_list in Hc1. by apply (Hst n). }
  exists fast, copied, w2, w3. split_and!; try done; [|by eapply ran_trans; [apply Hn|]].
  unfold copySnapshotToNewLineage. rewrite io_bind_eq, reads_calm by done. cbn [cp_txid headCheckpoint]. by rewrite Hms.
Qed.

(** C15: Compacting changes where a branch's data lives and nothing else.  On a
    store nothing else writes meanwhile ([calm]), [CompactWith] of a branch not
    being removed or reaped, with no live lease (a force overrides a lease), and
    whose head and every checkpoint materialize ([compact_ready]) succeeds and
    returns its head.  (A compaction that another process disturbs at its ref
    write is [repoint_settled]'s.)  The branch is then on a lineage that shares
    nothing with another; its head is the one it had and materializes to the same
    database; every checkpoint keeps its name and its transaction, and each still
    materializes to its own database. *)
Theorem compact_content :
  compact_ready → ValidateName db = Ok tt → ValidateName branch = Ok tt → refuseIfHeld ref "compact" force (w_now w) = Ok tt →
  ∃ w' r', CompactWith db branch force w = (Ok t, w') ∧ compact_state (w_objs w') r'.
Proof.
  intros Hr Hndb Hnb Hheld. pose proof Hr as [Hc [Ho Hd] (Hwf & Hok & Ha) _ _ (Ht1 & Ht2 & Hlin & _) Hst].
  assert (BaseSpine (view_of m) S = Ok (bp_lineage <$> bs)) as Hsp by by apply BaseSpine_complete; [apply view_of_ok|].
  unfold CompactWith. rewrite !io_bind_eq. unfold lift. rewrite Hndb, io_bind_eq, Hnb, io_bind_eq, (GetRef_calm _ _ _ wire ref) by done.
  rewrite io_bind_eq, now_eq, io_bind_eq, Hheld, io_bind_eq, reads_calm, Hsp by done.
  destruct bs as [|b bs'].
  { rewrite fmap_nil, bool_decide_eq_true_2, io_ret_eq by done. exists w, ref. split; [done|]. split_and!; try done.
    - by exists wire.
    - intros n c Hn. by rewrite Hn.
    - intros n c Hn. by apply (Hst n). }
  rewrite bool_decide_eq_false_2 by done. destruct (compact_copies Hr) as (fast & copied & w2 & w3 & E2 & E3 & R3 & Hco).
  set (L := w_ids w (w_nid w)) in *. rewrite io_bind_eq, E2. cbn [cp_txid headCheckpoint]. rewrite io_bind_eq, E3, io_bind_eq, now_eq, io_bind_eq.
  set (next := repointed L t (compacted t (w_now w3) (r_checkpoints ref)) None (w_now w3) ref).
  pose proof (co_grown _ _ _ _ _ _ Hco) as G3. pose proof (copies_acyclic _ _ _ _ _ _ Hco) as A3.
  assert (w_objs w3 !! RefKey db branch = Some (ORef wire)) as Ho3.
  { rewrite (gr_kept _ _ _ G3); [done|apply RefKey_other|done]. }
  unfold put_repoint. rewrite io_bind_eq. unfold try. rewrite PutRef_calm by (apply R3 || done || by rewrite Ho3, kv_match_self).
  rewrite !io_ret_eq. eexists _, next. split; [done|]. rewrite store_at_insert.
  assert (∀ u, u = t ∨ (∃ n c0, r_checkpoints ref !! n = Some c0 ∧ cp_txid c0 = u) →
    lineage_is ps (<[RefKey db branch := ORef (encodeRef next)]> (w_objs w3)) L u (content u)) as Hlin'.
  { intros u Hu. destruct (copies_done ps L m content Hwf _ _ u Hco) as [Hu64 Hl].
    - destruct Hu as [->|(n & c1 & Hc1 & <-)]; [set_solver|by eapply elem_of_kept].
    - eapply lineage_is_ref; [by apply (gr_wf _ _ _ G3)|done..]. }
  split_and!; try done.
  - apply stored_ref_at; [split; [exact (decoded_schema _ _ Hd)|discriminate]|]. intros n c Hn. destruct (compacted_Some _ _ _ Hn) as [->|(c0 & Hc0 & <-)]; [lia|]. destruct (Hst _ _ Hc0). lia.
  - rewrite (BaseSpine_complete _ _ []); [done|apply view_of_ok|by apply acyclic_insert_ref].
  - apply Hlin'. by left.
  - intros n c. apply compacted_keeps.
  - intros n c Hn. apply Hlin'. destruct (compacted_Some _ _ _ Hn) as [->|(c0 & Hc0 & <-)]; [by left|right; eauto].
Qed.
End compact.
End content.
