(* ===== verification/ForkExamples.v ===== *)
(** * Forks and repoints, evaluated

    Concrete instances of the theorems on forks, rollbacks, promotes and
    compactions over [LtxModel]: the branch [app@main] on the lineage ["a"], with a
    snapshot at each of the transactions 1 (the checkpoint [init]) and 2 (its
    head), and then a branch [app@dev] that shares ["a"] at 1. *)
From Stdlib Require Import Ascii String Strings.Byte.
From S2P Require Import Prelude GoStrings Keys Refs Backend Chain ChainFacts ChainProps Store Rely Lease Gc Claims ClaimsProps Files Ltx LtxProps LtxModel Session SessionProps SessionRun SessionExamples Content Delta DeltaProps Checkpoint CheckpointProps CheckpointRun CheckpointExamples Repoint NewLineage ForkRun RollbackRun PromoteRun.
Local Open Scope N_scope.

#[local] Existing Instance model_lib.

Definition fx_content (t : N) : bytes * N := if t =? 1 then (cx_shadow, 1) else (cx_file, 2).
Definition fx_snap (t : N) : bytes := get_ok [] (fst <$> EncodeSnapshot (fx_content t).1 t).

Definition fx_ref : Ref :=
  mkRef 2 "a" 1 2 1 {["init" := mkCheckpoint 1 1 "" ∅ "snapshot"]} "" false "" NoStamp NoTTL NoStamp false false NoStamp ∅ None.

(** Lineage ids of [n + 1] letters. *)
Fixpoint fx_ids (n : nat) : string := String "f" (match n with O => EmptyString | S n => fx_ids n end).

Definition fx_refs : objs :=
  <[RefKey "app" "main" := ORef (encodeRef fx_ref)]> {[manifestKey := OManifest 1 ""]}.
Definition fx_store (d1 d2 : bytes) : objs :=
  <[SnapshotKey "a" 1 2 := obj_of d2]> (<[SnapshotKey "a" 1 1 := obj_of d1]> fx_refs).
Local Abbreviation fx_objs := (fx_store (fx_snap 1) (fx_snap 2)).
Definition fx_world_at (m : objs) : world := mkWorld m (100 * second) [] ex_caps fx_ids 0 false [].
Local Abbreviation fx_world := (fx_world_at fx_objs).

Lemma fx_ids_ok n : lineage_ok (fx_ids n) = true.
Proof.
  unfold lineage_ok. rewrite bool_decide_eq_false_2 by by destruct n. cbn [negb andb].
  induction n as [|n IH]; [done|]. exact IH.
Qed.

Lemma fx_ids_inj i j : fx_ids i = fx_ids j → i = j.
Proof. revert j. induction i as [|i IH]; intros [|j] E; [done|by destruct j|by destruct i|]. f_equal. apply IH. by injection E. Qed.

Lemma fx_fresh_refs L : lineage_ok L = true → fresh_id fx_refs L.
Proof.
  intros HL. unfold fx_refs. apply fresh_id_ref; [done|]. split; [split; [done|]|].
  - intros L' b Hb. by apply lookup_singleton_Some in Hb as [_ ?].
  - intros k [o Ho]. apply lookup_singleton_Some in Ho as [<- _]. apply manifest_other.
Qed.

Lemma fx_wf_refs : wf_store fx_refs.
Proof.
  apply wf_store_insert_ref. split.
  - intros L b Hb. by apply lookup_singleton_Some in Hb as [_ ?].
  - intros k o x Ho Hx. apply lookup_singleton_Some in Ho as [<- _]. done.
Qed.

Lemma fx_none d : (<[SnapshotKey "a" 1 1 := obj_of d]> fx_refs) !! SnapshotKey "a" 1 2 = None.
Proof. done. Qed.

Lemma fx_wf d1 d2 : wf_store (fx_store d1 d2).
Proof. unfold fx_store. do 2 (apply snap_insert_wf; [|done|done]). apply fx_wf_refs. Qed.

Lemma fx_snaps d1 d2 : snaps_only (fx_store d1 d2) "a".
Proof.
  unfold fx_store. apply snaps_insert; [done|done|apply fx_none|]. apply snaps_insert; [done|done|done|].
  apply fresh_snaps. by apply fx_fresh_refs.
Qed.

Lemma fx_acyclic d1 d2 : acyclic (view_of (fx_store d1 d2)) "a" [].
Proof. split; [|apply NoDup_singleton]. apply spine_root. by rewrite lineageBase_view_of, (proj1 (fx_snaps d1 d2)). Qed.

Lemma fx_db t : db_file ex_ps (fx_content t).1 (fx_content t).2.
Proof. unfold fx_content. destruct (t =? 1); [apply cx_shadow_file|apply cx_file_file]. Qed.

Lemma fx_chain t : 1 <= t → t < u64_size → chain_is ex_ps (fx_snap t) [] t (fx_content t).
Proof.
  intros H1 H2. destruct (chain_snapshot ex_ps (proj1 ex_valid) (proj2 ex_valid) _ _ t (fx_db t) H1 H2) as (obj & He & Hc).
  assert (fx_snap t = obj) as -> by (unfold fx_snap; by rewrite He). by rewrite <-surjective_pairing in Hc.
Qed.

Lemma fx_key1 d1 d2 : fx_store d1 d2 !! SnapshotKey "a" 1 1 = Some (obj_of d1).
Proof. unfold fx_store. rewrite lookup_insert_ne by done. apply lookup_insert_eq. Qed.

Lemma fx_resolvable t : t = 1 ∨ t = 2 → resolvable ex_ps fx_ref fx_objs fx_content t.
Proof.
  intros Ht. assert (1 <= t ∧ t < u64_size) as [H1 H2] by (unfold u64_size; lia). split_and!; [done|done| |apply fx_db].
  apply holds_lineage; [apply fx_wf|done|done|apply fx_snaps|]. exists (fx_snap t). split; [|by apply fx_chain].
  destruct Ht as [-> | ->]; [apply fx_key1|apply lookup_insert_eq].
Qed.

Lemma fx_fresh : fresh_ids fx_world.
Proof.
  split; [intros; by apply fx_ids_inj|]. intros i _. cbn [fx_world_at w_objs w_ids].
  assert (∀ m t d, fresh_id m (fx_ids i) → fresh_id (<[SnapshotKey "a" 1 t := obj_of d]> m) (fx_ids i)) as Hs.
  { intros m t d [Ho He]. split; [by apply own_insert|]. intros k [o Hk].
    apply lookup_insert_Some in Hk as [[<- _]|[_ Hk]]; [|by apply He]. apply not_true_is_false. intros E.
    assert ("a"%string = fx_ids i) as Ea; [|by destruct i].
    eapply LineagePrefix_inj; [done|apply fx_ids_ok|apply HasPrefix_SnapshotKey|exact E]. }
  unfold fx_store. apply Hs, Hs, fx_fresh_refs, fx_ids_ok.
Qed.

Lemma fx_ref_at d1 d2 : fx_store d1 d2 !! RefKey "app" "main" = Some (ORef (encodeRef fx_ref)).
Proof. unfold fx_store, fx_refs. rewrite !lookup_insert_ne by done. apply lookup_insert_eq. Qed.

Lemma fx_manifest d1 d2 : fx_store d1 d2 !! manifestKey = Some (OManifest 1 "").
Proof. unfold fx_store, fx_refs. rewrite !lookup_insert_ne by done. apply lookup_singleton_eq. Qed.

Lemma fx_lock : LockPgno ex_ps ≠ 1.
Proof. by vm_compute. Qed.

Lemma fx_fork_ready : fork_ready ex_ps None "app" "main" fx_world (encodeRef fx_ref) fx_ref (headCheckpoint fx_ref) [] 1 "" cx_file 2.
Proof.
  destruct (fx_resolvable 2 ltac:(by right)) as (_ & _ & Hl & _).
  split; [done|apply fx_manifest|split; [apply fx_ref_at|by vm_compute]|done| | |done|apply fx_fresh].
  - split; [apply fx_wf|done|apply fx_acyclic|exact Hl].
  - split_and!; [apply ex_valid|apply fx_lock|apply cx_file_file].
Qed.


Definition fx_opts : RollbackOptions := mkRollback false false 0 false.

(** The same store with a branch at the backup's name: [main]'s earlier backup
    when it is labelled so. *)
Definition bk_ref (label : gmap string string) : Ref :=
  mkRef 2 "a" 1 1 1 {["fork" := mkCheckpoint 1 1 "" ∅ ""]} "" false "" NoStamp NoTTL NoStamp false false NoStamp label None.
Definition bk_label : gmap string string := {["offshoot.pre-rollback" := "main"]}.
Definition bk_world (label : gmap string string) : world :=
  fx_world_at (<[RefKey "app" "main-pre-rollback" := ORef (encodeRef (bk_ref label))]> fx_objs).

Lemma bk_resolvable label t : t = 1 ∨ t = 2 → resolvable ex_ps fx_ref (w_objs (bk_world label)) fx_content t.
Proof.
  intros Ht. destruct (fx_resolvable t Ht) as (H1 & H2 & Hl & Hd). split_and!; [done|done| |done].
  eapply lineage_is_ref; [apply fx_wf|apply fx_acyclic|done|exact Hl].
Qed.

Lemma bk_ready label :
  decodeRef (encodeRef (bk_ref label)) = Ok (bk_ref label) →
  rollback_ready ex_ps None None "app" "main" "init" fx_opts (bk_world label) (encodeRef fx_ref) fx_ref
    (mkCheckpoint 1 1 "" ∅ "snapshot") [] fx_content (Some (bk_ref label)).
Proof.
  intros Hdec. split.
  - reflexivity.
  - exists 1%Z, ""%string. cbn [bk_world fx_world_at w_objs]. rewrite lookup_insert_ne by done. apply fx_manifest.
  - split; [|by vm_compute]. cbn [bk_world fx_world_at w_objs]. rewrite lookup_insert_ne by done. apply fx_ref_at.
  - done.
  - split_and!; [apply wf_store_insert_ref, fx_wf|reflexivity|apply acyclic_insert_ref, fx_acyclic].
  - split; [apply ex_valid|apply fx_lock].
  - destruct fx_fresh as [Hi Hf]. split; [exact Hi|]. intros i Hle. apply fresh_id_ref; [done|]. by apply Hf.
  - reflexivity.
  - intros n c Hc _. cbn [fx_ref r_checkpoints] in Hc. apply lookup_singleton_Some in Hc as [_ <-].
    apply bk_resolvable. by left.
  - intros _. split_and!; [reflexivity| |exact I|apply bk_resolvable; by right].
    exists (encodeRef (bk_ref label)). split; [apply lookup_insert_eq|exact Hdec].
Qed.

(** A second rollback to [init] replaces the backup of the first; one whose
    backup's name a user's branch has is refused. *)
Lemma rollback_content_witness :
  (∃ result w' r' b, RollbackWith 0 None None "app" "main" "init" fx_opts (bk_world bk_label) = (Ok result, w')
    ∧ ref_at (RefKey "app" "main") (w_objs w') r' ∧ head_is ex_ps (w_objs w') r' (cx_shadow, 1)
    ∧ ref_at (RefKey "app" "main-pre-rollback") (w_objs w') b ∧ head_is ex_ps (w_objs w') b (cx_file, 2))
  ∧ RollbackWith 0 None None "app" "main" "init" fx_opts (bk_world ∅) = (Err [EExists], bk_world ∅).
Proof.
  split.
  - pose proof (rollback_content ex_ps 0 None None "app" "main" "init" fx_opts (bk_world bk_label) (encodeRef fx_ref) fx_ref
      (mkCheckpoint 1 1 "" ∅ "snapshot") [] fx_content (Some (bk_ref bk_label)) (bk_ready bk_label eq_refl) eq_refl eq_refl eq_refl eq_refl) as Hr.
    change (rollback_refusal _ _ _ _) with (@None error) in Hr.
    destruct Hr as (result & w' & r' & E & Hr & _ & _ & Hd & _ & _ & Hb).
    destruct (Hb eq_refl) as (b & Hbr & Hbh). exists result, w', r', b.
    split; [exact E|]. split; [exact Hr|]. split; [exact Hd|]. split; [exact Hbr|exact Hbh].
  - pose proof (rollback_content ex_ps 0 None None "app" "main" "init" fx_opts (bk_world ∅) (encodeRef fx_ref) fx_ref
      (mkCheckpoint 1 1 "" ∅ "snapshot") [] fx_content (Some (bk_ref ∅)) (bk_ready ∅ eq_refl) eq_refl eq_refl eq_refl eq_refl) as Hr.
    exact Hr.
Defined.

(** ** A branch that shares *)

Definition dv_ref : Ref :=
  mkRef 2 "b" 1 1 1 {["fork" := mkCheckpoint 1 1 "" ∅ ""]} "" false "" NoStamp NoTTL NoStamp false false NoStamp ∅ (Some (mkBase "a" 1)).

Definition dv_base (m : objs) : objs := <[BaseKey "b" := OBase (mkBase "a" 1)]> m.
Definition dv_store (m : objs) : objs := <[RefKey "app" "dev" := ORef (encodeRef dv_ref)]> (dv_base m).
Local Abbreviation dv_objs := (dv_store fx_objs).
Local Abbreviation dv_world := (fx_world_at dv_objs).

Lemma dv_fresh d1 d2 : fresh_id (fx_store d1 d2) "b".
Proof.
  assert (∀ m t d, fresh_id m "b" → fresh_id (<[SnapshotKey "a" 1 t := obj_of d]> m) "b") as Hs.
  { intros m t d [Ho He]. split; [by apply own_insert|]. intros k [o Hk].
    apply lookup_insert_Some in Hk as [[<- _]|[_ Hk]]; [done|by apply He]. }
  unfold fx_store. apply Hs, Hs, fx_fresh_refs. done.
Qed.

Lemma dv_chain : ∃ ms, Chain (view_of fx_objs) "a" 1 = Ok ms.
Proof. destruct (fx_resolvable 1 ltac:(by left)) as (_ & _ & (ms & Hms & _) & _). by exists ms. Qed.

Lemma dv_grown : grown fx_objs (dv_base fx_objs) "b".
Proof.
  destruct dv_chain as [ms Hms].
  exact (share_grown fx_objs "b" "a" 1 [] (fx_wf _ _) (dv_fresh _ _) (fx_acyclic _ _) ltac:(done) ltac:(done) ltac:(done) ms Hms).
Qed.

Lemma dv_wf : wf_store dv_objs.
Proof. apply wf_store_insert_ref, (gr_wf _ _ _ dv_grown), fx_wf. Qed.

Lemma dv_spine : acyclic (view_of (dv_base fx_objs)) "b" [mkBase "a" 1].
Proof. exact (share_acyclic fx_objs "b" "a" 1 [] (fx_wf _ _) (dv_fresh _ _) (fx_acyclic _ _) ltac:(done) ltac:(done)). Qed.

Lemma dv_acyclic : acyclic (view_of dv_objs) "b" [mkBase "a" 1].
Proof. apply acyclic_insert_ref, dv_spine. Qed.

Lemma dv_resolvable : resolvable ex_ps dv_ref dv_objs fx_content 1.
Proof.
  destruct (fx_resolvable 1 ltac:(by left)) as (H1 & H2 & Hl & Hd). split_and!; [done|done| |done].
  eapply lineage_is_ref; [apply (gr_wf _ _ _ dv_grown), fx_wf|exact dv_spine|done|].
  exact (lineage_share ex_ps fx_objs "b" "a" 1 [] _ 1 (fx_wf _ _) (dv_fresh _ _) (fx_acyclic _ _) ltac:(done) ltac:(done) ltac:(done) ltac:(done) dv_grown Hl).
Qed.

Lemma dv_ids : fresh_ids dv_world.
Proof.
  destruct fx_fresh as [Hi Hf]. split; [exact Hi|]. intros i Hle. apply fresh_id_ref; [done|].
  apply (gr_fresh _ _ _ dv_grown); [by destruct i|]. by apply Hf.
Qed.

Lemma dv_main : branch_state ex_ps dv_objs fx_ref [] (cx_file, 2).
Proof.
  destruct (fx_resolvable 2 ltac:(by right)) as (H1 & H2 & Hl & Hd).
  assert (acyclic (view_of (dv_base fx_objs)) "a" []) as Ha.
  { apply (grown_acyclic fx_objs (dv_base fx_objs) "b"); [apply fx_wf|apply dv_fresh|exact dv_grown|done|done|apply fx_acyclic]. }
  split; [done|by apply acyclic_insert_ref|done| |done].
  eapply lineage_is_ref; [apply (gr_wf _ _ _ dv_grown), fx_wf|exact Ha|done|].
  exact (lineage_grown ex_ps fx_objs (dv_base fx_objs) "b" "a" 2 [] _ (fx_wf _ _) (dv_fresh _ _) (fx_acyclic _ _) ltac:(done) ltac:(done) ltac:(done) dv_grown Hl).
Qed.

Lemma dv_dev : branch_state ex_ps dv_objs dv_ref [mkBase "a" 1] (cx_shadow, 1).
Proof. destruct dv_resolvable as (H1 & H2 & Hl & Hd). split; [done|exact dv_acyclic|done|exact Hl|exact Hd]. Qed.

Lemma dv_lookup_main : dv_objs !! RefKey "app" "main" = Some (ORef (encodeRef fx_ref)).
Proof. unfold dv_store, dv_base. rewrite !lookup_insert_ne by done. apply fx_ref_at. Qed.

Lemma dv_manifest : has_manifest dv_objs.
Proof. exists 1%Z, ""%string. unfold dv_store, dv_base. rewrite !lookup_insert_ne by done. apply fx_manifest. Qed.

Lemma dv_no_backup : dv_objs !! RefKey "app" "main-pre-promote" = None.
Proof.
  unfold dv_store, dv_base, fx_store, fx_refs. rewrite !lookup_insert_ne by done. by apply lookup_singleton_ne.
Qed.

(** [app@dev] promoted onto [app@main], with a backup. *)
Lemma promote_content_witness :
  ∃ result w' r' b, PromoteWith 0 None None None "app" "dev" "main" (mkPromote false false 0 false) dv_world = (Ok result, w')
    ∧ ref_at (RefKey "app" "main") (w_objs w') r' ∧ head_is ex_ps (w_objs w') r' (cx_shadow, 1)
    ∧ ref_at (RefKey "app" "main-pre-promote") (w_objs w') b ∧ head_is ex_ps (w_objs w') b (cx_file, 2).
Proof.
  destruct (promote_content ex_ps 0 None None None "app" "dev" "main" (mkPromote false false 0 false) dv_world
    (encodeRef dv_ref) (encodeRef fx_ref) dv_ref fx_ref [mkBase "a" 1] [] (cx_shadow, 1) (cx_file, 2) None)
    as (result & w' & r' & E & Hr & Hd & _ & _ & _ & _ & _ & Hb).
  - split.
    + reflexivity.
    + exact dv_manifest.
    + split; [apply lookup_insert_eq|]. split; [by vm_compute|exact dv_dev].
    + split; [exact dv_lookup_main|by vm_compute].
    + done.
    + exact dv_wf.
    + split; [apply ex_valid|apply fx_lock].
    + exact dv_ids.
    + intros _. split_and!; [reflexivity|exact dv_no_backup|exact I|done|exact dv_main].
  - discriminate.
  - reflexivity.
  - reflexivity.
  - reflexivity.
  - reflexivity.
  - reflexivity.
  - destruct (Hb eq_refl) as (b & Hbr & Hbh). exists result, w', r', b.
    split; [exact E|]. split; [exact Hr|]. split; [exact Hd|]. split; [exact Hbr|exact Hbh].
Defined.

(** [app@dev] compacted: its lineage then has no base. *)
Lemma compact_content_witness :
  ∃ w' r', CompactWith "app" "dev" false dv_world = (Ok 1, w') ∧ ref_at (RefKey "app" "dev") (w_objs w') r'
    ∧ BaseSpine (view_of (w_objs w')) (r_lineage r') = Ok [] ∧ head_is ex_ps (w_objs w') r' (cx_shadow, 1).
Proof.
  destruct (compact_content ex_ps "app" "dev" false dv_world (encodeRef dv_ref) dv_ref [mkBase "a" 1] fx_content)
    as (w' & r' & E & Hr & Hs & _ & Hh & _).
  - split.
    + reflexivity.
    + split; [apply lookup_insert_eq|by vm_compute].
    + split_and!; [exact dv_wf|reflexivity|exact dv_acyclic].
    + split; [apply ex_valid|apply fx_lock].
    + exact dv_ids.
    + exact dv_resolvable.
    + intros n c Hc. cbn [dv_ref r_checkpoints] in Hc. apply lookup_singleton_Some in Hc as [_ <-]. exact dv_resolvable.
  - reflexivity.
  - reflexivity.
  - reflexivity.
  - exists w', r'. split; [exact E|]. split; [exact Hr|]. split; [exact Hs|exact Hh].
Defined.
