(* ===== verification/Flush.v ===== *)
(** * A live session's flush: the ref protocol

    [internal/session/flush.go]: [flush], around the encode of [Session], and
    [internal/session/renew.go]: one tick of [renewLoop] and [releaseLease].

    A flush reads the ref, checks that the session still holds it, encodes and
    uploads the next transaction's object and advances the head, re-reading the
    ref and reapplying the advance when a compare-and-swap is lost with the
    premise intact.  What the capture engine does to the session's state
    meanwhile enters as functions of it. *)
From Stdlib Require Import Ascii String Strings.Byte.
From S2P Require Import Prelude GoStrings Keys Refs Backend Chain Store Lease Files Wal Ltx Session Content Checkpoint.
Local Open Scope string_scope.

Definition flushCASMinAttempts : nat := 8.
Definition flushCASMinLeaseTTLs : Z := 1.
Definition flushCASRetryPauseMax : Z := 50 * 1000000.

(** [flushCASRetryPause], with the value drawn by [rand.N]. *)
Definition flushCASRetryPause (renewEvery : Z) (draw : Z → Z) : Z :=
  let d := Z.min (renewEvery / 4) flushCASRetryPauseMax in
  if (d <=? 0)%Z then 0
  else
    let jitter := (d / 2)%Z in
    if (jitter <=? 0)%Z then d else (d - jitter / 2 + draw (jitter + 1))%Z.

(** The session's state a flush uses. *)
Record flushSession := mkFlushSession {
  fs_cap : capState;
  fs_seeded : bool;        (* divergenceSeeded *)
  fs_durable : N;
  fs_closed : bool;
  fs_err : option error }. (* the terminal error *)

Definition set_cap (c : capState) (s : flushSession) : flushSession :=
  mkFlushSession c (fs_seeded s) (fs_durable s) (fs_closed s) (fs_err s).

(** [Session.fail]: the first error sticks. *)
Definition session_fail (e : error) (s : flushSession) : flushSession :=
  mkFlushSession (fs_cap s) (fs_seeded s) (fs_durable s) (fs_closed s) (Some (default e (fs_err s))).

Record flushCall := mkFlushCall {
  fc_db : string;
  fc_branch : string;
  fc_name : string;
  fc_meta : gmap string string;
  fc_lease : Lease;
  fc_leaseTTL : Z;
  fc_renewEvery : Z;
  fc_every : Z;                                 (* snapshotEvery *)
  fc_draw : nat → Z → Z;                        (* [rand.N], by attempt *)
  fc_drain : capState → res capState;           (* [DrainNow] *)
  fc_between : capState → capState;             (* the engine, before the encode *)
  fc_during : capState → capState }.            (* the engine, during the upload *)

Section flush.
  Context `{LtxLib} (c : flushCall).

Definition kind_of (snapshot : bool) : string := if snapshot then "snapshot" else "segment".

Definition flush_key (ref : Ref) (snapshot : bool) (txid : N) : string :=
  if snapshot then SnapshotKey (r_lineage ref) (l_epoch (fc_lease c)) txid
  else SegmentKey (r_lineage ref) (l_epoch (fc_lease c)) txid txid.

(** ** Seeding the snapshot cadence *)

Fixpoint leading_segments (ms : list ChainMember) : nat :=
  match ms with
  | x :: ms => if m_snapshot x then 0 else S (leading_segments ms)
  | [] => 0
  end.

(** The segments since the chain's last snapshot. *)
Definition trailing (ms : list ChainMember) : Z := Z.of_nat (leading_segments (reverse ms)).

Definition set_flushes (n : Z) (s : capState) : capState :=
  mkCap (cs_replica s) (cs_pages s) (cs_checksum s) (cs_flushChecksum s) (cs_commit s) (cs_pageSize s)
    (cs_forceSnapshot s) (cs_rebaseGen s) (cs_flushedRebaseGen s) (cs_appliedGen s) (cs_flushedGen s) n
    (cs_cleanAtOpen s) (cs_headPostApply s).

Definition seed_divergence (ref : Ref) (s : flushSession) : IO flushSession :=
  let cap := fs_cap s in
  if fs_seeded s then mret s
  else if (r_head_txid ref =? 0)%N || cs_forceSnapshot cap then mret (mkFlushSession cap true (fs_durable s) (fs_closed s) (fs_err s))
  else if (cs_pageSize cap =? 0)%N then mret s
  else
    r ← try (reads (λ v, Chain v (r_lineage ref) (r_head_txid ref)));
    let n := match r with Ok ms => trailing ms | Err _ => fc_every c - 1 end%Z in
    mret (mkFlushSession (set_flushes n cap) true (fs_durable s) (fs_closed s) (fs_err s)).

(** ** Upload and head write *)

(** Create only, then over an orphan of a crashed attempt. *)
Definition flush_upload (key : string) (data : bytes) : IO unit :=
  p ← try (PutIf key (obj_of data) NoTag);
  match p with
  | Ok _ => mret tt
  | Err e => if errors_Is e ErrCAS then Put key (obj_of data) else fail e
  end.

Definition flush_advance (txid : N) (kind : string) (t : Z) (ref : Ref) : Ref :=
  let ref := set_head_epoch (l_epoch (fc_lease c)) (set_head_txid txid ref) in
  let ref := if bool_decide (fc_name c = "") then ref
             else SetCheckpoint (fc_name c) (mkCheckpoint txid (l_epoch (fc_lease c)) (nowStamp t) (fc_meta c) kind) ref in
  Touch t ref.

(** The premise: our holder and epoch, the lineage and head the flush found. *)
Definition flush_premise (lineage : string) (txid : N) (cur : Ref) : bool :=
  bool_decide (r_lease_holder cur = l_holder (fc_lease c)) && (r_epoch cur =? l_epoch (fc_lease c))%N
  && bool_decide (r_lineage cur = lineage) && (r_head_txid cur =? sub64 txid 1)%N.

(** The object is removed when the current ref is on another lineage or below
    the transaction. *)
Definition flush_cleanup (lineage : string) (txid : N) (key : string) : IO unit :=
  g ← try (GetRef (fc_db c) (fc_branch c));
  match g with
  | Ok (cur, _) =>
      if negb (bool_decide (r_lineage cur = lineage)) || (r_head_txid cur <? txid)%N
      then _ ← try (Delete key); mret tt else mret tt
  | Err _ => mret tt
  end.

Definition within_budget (attempt : nat) (start t : Z) : bool :=
  (attempt <? flushCASMinAttempts)%nat || (t - start <? flushCASMinLeaseTTLs * fc_leaseTTL c)%Z.

(** A fresh revision with the premise intact, if the loss may be retried. *)
Definition flush_reread (attempt : nat) (start : Z) (lineage : string) (txid : N) (e : error) : IO (option (Ref * etag)) :=
  t ← now;
  if errors_Is e ErrCAS && within_budget attempt start t then
    g ← try (GetRef (fc_db c) (fc_branch c));
    match g with
    | Ok (cur, tag) => if flush_premise lineage txid cur then mret (Some (cur, tag)) else mret None
    | Err _ => mret None
    end
  else mret None.

(** The head write, its retries and its cleanup.  A retry has used up part of
    the schedule, so [2 + length (w_sched w)] rounds are enough. *)
Fixpoint flush_cas (fuel attempt : nat) (start : Z) (ref : Ref) (tag : etag) (txid : N) (snapshot : bool) : IO unit :=
  match fuel with
  | O => fail [EFuel]
  | S fuel =>
      t ← now;
      p ← try (PutRef (fc_db c) (fc_branch c) (flush_advance txid (kind_of snapshot) t ref) tag);
      match p with
      | Ok _ => mret tt
      | Err e =>
          again ← flush_reread attempt start (r_lineage ref) txid e;
          match again with
          | Some (cur, tag) =>
              _ ← sleep (Z.to_N (flushCASRetryPause (fc_renewEvery c) (fc_draw c attempt)));
              flush_cas fuel (S attempt) start cur tag txid snapshot
          | None =>
              if errors_Is e ErrCAS
              then _ ← flush_cleanup (r_lineage ref) txid (flush_key ref snapshot txid); fail e
              else fail e
          end
      end
  end.

(** ** Flush *)

(** The outcome and the session after it. *)
Definition flush_finish (a : flushAttempt) (r : res unit) (s : flushSession) : res N * flushSession :=
  let cap := fc_during c (fs_cap s) in
  match r with
  | Err e => (Err e, set_cap cap s)
  | Ok _ => (Ok (fa_txid a), mkFlushSession (flush_done a cap) (fs_seeded s) (fa_txid a) (fs_closed s) (fs_err s))
  end.

(** Upload and head write of an encoded attempt. *)
Definition flush_commit (ref : Ref) (tag : etag) (a : flushAttempt) : IO unit := λ w,
  (_ ← flush_upload (flush_key ref (fa_snapshot a) (fa_txid a)) (fa_object a);
   t ← now;
   flush_cas (2 + length (w_sched w)) 0 t ref tag (fa_txid a) (fa_snapshot a)) w.

Definition flush (s : flushSession) : IO (res N * flushSession) :=
  if fs_closed s then mret (Err [EClosed], s) else
  match fs_err s with
  | Some e => mret (Err e, s)
  | None =>
      if bool_decide (fc_name c = "") && negb (bool_decide (fc_meta c = ∅)) then mret (Err [EBadArgs], s) else
      match (_ ← (if bool_decide (fc_name c = "") then Ok tt else ValidateName (fc_name c)); ValidateMeta (fc_meta c)) with
      | Err e => mret (Err e, s)
      | Ok _ =>
      match fc_drain c (fs_cap s) with
      | Err e => mret (Err e, s)
      | Ok cap =>
          let s := set_cap cap s in
          g ← try (GetRef (fc_db c) (fc_branch c));
          match g with
          | Err e => mret (Err e, s)
          | Ok (ref, tag) =>
              if negb (bool_decide (r_lease_holder ref = l_holder (fc_lease c)) && (r_epoch ref =? l_epoch (fc_lease c))%N)
              then mret (Err [EFenced], session_fail [EFenced] s)
              else if negb (bool_decide (fc_name c = "")) && bool_decide (is_Some (r_checkpoints ref !! fc_name c))
              then mret (Err [EExists], s)
              else
                s ← seed_divergence ref s;
                let txid := add64 (r_head_txid ref) 1 in
                let '(enc, cap) := flush_encode (fc_every c) txid (fc_between c (fs_cap s)) in
                let s := set_cap cap s in
                match enc with
                | Err e => mret (Err e, s)
                | Ok a =>
                    r ← try (flush_commit ref tag a);
                    mret (flush_finish a r s)
                end
          end
      end end
  end.

(** ** Lease upkeep *)

(** One tick of [renewLoop]: the lease and the session's terminal error. *)
Definition renew_once (l : Lease) (ttl : Z) (s : flushSession) : IO (Lease * flushSession) :=
  t ← now;
  r ← try (RenewLease l ttl t);
  match r with
  | Ok l => mret (l, s)
  | Err e =>
      if errors_Is e ErrLeaseLost then mret (l, session_fail [EFenced] s)
      else if errors_Is e ErrNotFound then mret (l, session_fail e s)
      else mret (l, s)
  end.

Definition releaseRetryPause : N := 50 * 1000000.

(** [releaseLease]: [n] attempts are left, [k] were made, the last failing with [e]. *)
Fixpoint release_loop (n k : nat) (l : Lease) (e : error) : IO unit :=
  match n with
  | O => fail e
  | S n =>
      _ ← (if (k =? 0)%nat then mret tt else sleep (N.of_nat k * releaseRetryPause));
      r ← try (ReleaseLease l);
      match r with
      | Ok _ => mret tt
      | Err e =>
          if errors_Is e ErrLeaseLost then mret tt
          else if errors_Is e ErrNotFound then fail e
          else release_loop n (S k) l e
      end
  end.

Definition releaseLease (l : Lease) : IO unit := release_loop 3 0 l [].
End flush.
