(* ===== verification/FlushProps.v ===== *)
(** * What a flush's head write commits

    [flush_commit] on every schedule: it answers, it lands its head at most once,
    and while the branch stays on the flush's lineage it never deletes an object
    it committed.  Off that lineage it can: the last part is such a run. *)
From Stdlib Require Import Ascii String Strings.Byte.
From S2P Require Import Prelude GoStrings Keys Refs Backend Chain Store Rely Lease Claims ClaimsProps RefOps Files Wal Ltx LtxModel Session Content Checkpoint CheckpointProps Repoint Flush.
Local Open Scope string_scope.

Lemma stable_sched P w w' : w_sched w' = w_sched w → stable P w → stable P w'.
Proof. unfold stable. by intros ->. Qed.

Lemma ValidateName_err n e : ValidateName n = Err e → errors_Is e ErrCAS = false.
Proof. unfold ValidateName. intros. by repeat (break_match_hyp; simplify_eq/=). Qed.

(** ** The upload *)

(** A write of [data] at [key]. *)
Definition upload_of (key : string) (data : bytes) (x : write) : Prop :=
  wr_key x = key ∧ wr_after x = Some (obj_of data).

Definition uploaded (key : string) (data : bytes) (w w' : world) : Prop :=
  (∀ P, stable P w → stable P w') ∧ (length (w_sched w') <= length (w_sched w))%nat
  ∧ ∃ l, w_log w' = (l ++ w_log w)%list ∧ Forall (upload_of key data) l.

Lemma uploaded_trans key data w1 w2 w3 : uploaded key data w1 w2 → uploaded key data w2 w3 → uploaded key data w1 w3.
Proof.
  intros (S1 & L1 & l1 & E1 & F1) (S2 & L2 & l2 & E2 & F2). split_and!; [auto|lia|].
  exists (l2 ++ l1)%list. split; [by rewrite E2, E1, app_assoc|by apply Forall_app].
Qed.

Lemma next_tick_length w t w' : next_tick w = (t, w') → length (w_sched w') = (length (w_sched w) - 1)%nat.
Proof. unfold next_tick. destruct (w_sched w); intros; simplify_eq/=; lia. Qed.

Lemma uploaded_tick key data w t w' : next_tick w = (t, w') → uploaded key data w w'.
Proof.
  intros T. pose proof (next_tick_length _ _ _ T). apply next_tick_read_only in T as [E R].
  split_and!; [intros; by apply R|lia|]. exists []. by rewrite E.
Qed.

Lemma uploaded_store key data w t w' : next_tick w = (t, w') → uploaded key data w (store_at key (Some (obj_of data)) w').
Proof.
  intros T. eapply uploaded_trans; [by eapply uploaded_tick|]. split_and!; [done|done|].
  eexists [_]. split; [reflexivity|]. by repeat constructor.
Qed.

Lemma flush_upload_cases key data w r w' : flush_upload key data w = (r, w') → uploaded key data w w' ∧ (∀ e, r = Err e → EFuel ∉ e).
Proof.
  unfold flush_upload. rewrite io_bind_eq. unfold try. destruct (PutIf _ _ _ w) as [p w1] eqn:Ep. intros E.
  assert (uploaded key data w w1 ∧ (∀ e, p = Err e → EFuel ∉ e)) as [Hu Hp].
  { unfold PutIf in Ep. destruct (next_tick w) as [t w0] eqn:T. repeat (break_match_hyp; simplify_eq/=);
      (split; [by eauto using uploaded_tick, uploaded_store|intros; simplify_eq; set_solver]). }
  destruct p as [?|e]; [by rewrite io_ret_eq in E; simplify_eq|].
  destruct (errors_Is e ErrCAS); [|unfold fail in E; simplify_eq; split; [done|naive_solver]].
  unfold Put in E. destruct (next_tick w1) as [t w2] eqn:T.
  repeat (break_match_hyp; simplify_eq/=); (split; [|intros; simplify_eq; set_solver]);
    eapply uploaded_trans; eauto using uploaded_tick, uploaded_store.
Qed.

Section flush_cas.
  Context (c : flushCall).
  Local Abbreviation key := (RefKey (fc_db c) (fc_branch c)).

(** ** It answers *)

(** Rounds that may still be lost: one per tick left, and one more when the tag
    is not the stored ref's. *)
Definition rounds (tag : etag) (w : world) : nat :=
  length (w_sched w) + (if kv_match (w_objs w !! key) tag then 1 else 2).

Context (L : string) (txid : N) (snapshot : bool).

(** The branch has the flush's head behind it. *)
Definition reached (m : objs) : Prop :=
  ∀ r, ref_at key m r → r_lineage r = L ∧ (txid <= r_head_txid r)%N.

(** The head write: the flush's advance of a ref that met its premise. *)
Definition head_write (x : write) : Prop :=
  ∃ wire cur t τ, decodeRef wire = Ok cur ∧ flush_premise c L txid cur = true
    ∧ x = mkWrite key (Some (ORef wire)) (Some (ORef (encodeRef (flush_advance c txid (kind_of snapshot) t cur)))) τ.

Definition object_key : string :=
  if snapshot then SnapshotKey L (l_epoch (fc_lease c)) txid else SegmentKey L (l_epoch (fc_lease c)) txid txid.

Definition object_delete (x : write) : Prop := wr_key x = object_key ∧ wr_after x = None.

(** What the writes after the upload are: the head, or, on an error, nothing or
    the removal of the object. *)
Definition flush_outcome (l : list write) (ok : bool) : Prop :=
  (∃ x, l = [x] ∧ head_write x) ∨ (ok = false ∧ (l = [] ∨ ∃ x, l = [x] ∧ object_delete x)).

Context (Htxid : (txid ≠ 0)%N) (Hu64 : u64 txid).

Lemma flush_premise_inv cur : flush_premise c L txid cur = true → r_lineage cur = L ∧ (r_head_txid cur < txid)%N.
Proof.
  unfold flush_premise. intros Hp. bool_to_prop. split; [done|]. pose proof (sub64_lt _ Htxid Hu64). lia.
Qed.

Lemma flush_reread_cases attempt start e w ra w' :
  flush_reread c attempt start L txid e w = (ra, w') →
  ∃ again, ra = Ok again ∧ read_only w w' ∧ (length (w_sched w') <= length (w_sched w) ∨ again = None)%nat
    ∧ (reached (w_objs w') → again = None)
    ∧ ∀ cur tag, again = Some (cur, tag) → errors_Is e ErrCAS = true ∧ flush_premise c L txid cur = true
        ∧ ∃ wire, tag = TagOf (ORef wire) ∧ decodeRef wire = Ok cur ∧ w_objs w' !! key = Some (ORef wire).
Proof.
  unfold flush_reread. rewrite io_bind_eq, now_eq.
  destruct (errors_Is e ErrCAS && _) eqn:Eb; [|rewrite io_ret_eq; intros [= <- <-]; exists None; split_and!; auto using read_only_refl; naive_solver].
  rewrite io_bind_eq. unfold try. destruct (GetRef _ _ w) as [g w1] eqn:Eg. pose proof (GetRef_cases _ _ _ _ _ Eg) as [Hro Hg].
  destruct g as [[cur tag]|ge]; [|rewrite io_ret_eq; intros [= <- <-]; exists None; split_and!; auto; naive_solver].
  destruct (Hg _ _ eq_refl) as (wire & -> & Hd & Hat). pose proof (GetRef_Ok_sched _ _ _ _ _ _ Eg) as Hl.
  destruct (flush_premise c L txid cur) eqn:Ep; rewrite io_ret_eq; intros [= <- <-];
    [|exists None; split_and!; auto; naive_solver].
  eexists. split_and!; [done|done|by left| |].
  - intros Hr. destruct (flush_premise_inv _ Ep) as [_ Hlt]. destruct (Hr cur) as [_ Hge]; [by exists wire|]. lia.
  - intros ? ? [= <- <-]. split_and!; [by bool_to_prop|done|]. eauto.
Qed.

Lemma flush_cleanup_cases w r w' :
  flush_cleanup c L txid object_key w = (r, w') → stable reached w →
  r = Ok tt ∧ ∃ l, w_log w' = (l ++ w_log w)%list ∧ (l = [] ∨ ∃ x, l = [x] ∧ object_delete x) ∧ (reached (w_objs w) → l = []).
Proof.
  unfold flush_cleanup. rewrite io_bind_eq. unfold try at 1. destruct (GetRef _ _ w) as [g w1] eqn:Eg.
  apply GetRef_cases in Eg as [[El Hro] Hg]. intros E Hs. destruct (Hro _ Hs) as [_ Hr].
  assert (∀ w2, w_log w2 = w_log w1 → (Ok tt, w2) = (r, w') → r = Ok tt ∧ ∃ l, w_log w' = (l ++ w_log w)%list
    ∧ (l = [] ∨ ∃ x, l = [x] ∧ object_delete x) ∧ (reached (w_objs w) → l = [])) as Hnone.
  { intros w2 E2 [= <- <-]. split; [done|]. exists []. rewrite E2. split_and!; auto. }
  destruct g as [[cur tag]|ge]; [|by apply (Hnone w1)].
  destruct (Hg _ _ eq_refl) as (wire & _ & Hd & Hat). destruct (negb _ || _)%bool eqn:Ec; [|by apply (Hnone w1)].
  assert (¬ reached (w_objs w)) as Hno.
  { intros Hp%Hr. destruct (Hp cur) as [HL Hge]; [by exists wire|]. apply orb_true_iff in Ec as [Ec|Ec]; bool_to_prop; [done|lia]. }
  rewrite io_bind_eq in E. unfold try, Delete in E. destruct (next_tick w1) as [t w2] eqn:T.
  apply next_tick_read_only in T as [E2 _].
  destruct (tk_fault t); rewrite io_ret_eq in E; try (by apply (Hnone w2)); injection E as <- <-;
    (split; [done|]); (eexists [_]; split; [simpl; rewrite E2, El; reflexivity|]; split; [right; eexists; by split|done]).
Qed.

(** A write that did not land leaves rounds to spare once the ref is read again. *)
Lemma PutRef_lost_sched r tag w e w' :
  PutRef (fc_db c) (fc_branch c) r tag w = (Err e, w') → errors_Is e ErrCAS = true →
  (length (w_sched w') + 2 <= rounds tag w)%nat.
Proof.
  unfold PutRef, rounds. rewrite !io_bind_eq. unfold lift.
  destruct (ValidateName (fc_db c)) eqn:E1; [|intros [= <- <-]; by rewrite (ValidateName_err _ _ E1)].
  rewrite io_bind_eq. destruct (ValidateName (fc_branch c)) eqn:E2; [|intros [= <- <-]; by rewrite (ValidateName_err _ _ E2)].
  intros E He. pose proof (PutIf_sched key (ORef (encodeRef r)) tag w) as Hs. rewrite E in Hs. simpl in Hs.
  destruct (kv_match _ _) eqn:Em.
  - pose proof (PutIf_conflict_sched _ _ _ _ _ _ E He Em). lia.
  - rewrite Hs. destruct (w_sched w); simpl; lia.
Qed.

Lemma PutRef_no_fuel r tag w e w' : PutRef (fc_db c) (fc_branch c) r tag w = (Err e, w') → EFuel ∉ e.
Proof.
  unfold PutRef. apply valid_names_no_fuel. clear. intros w e w'. unfold PutIf.
  destruct (next_tick w) as [t w1]. intros E. repeat (break_match_hyp; simplify_eq/=); set_solver.
Qed.

Lemma flush_cas_ok fuel : ∀ attempt start ref wire w r w',
  flush_cas c fuel attempt start ref (TagOf (ORef wire)) txid snapshot w = (r, w') →
  (rounds (TagOf (ORef wire)) w <= fuel)%nat → decodeRef wire = Ok ref → flush_premise c L txid ref = true →
  stable reached w →
  (∀ e, r = Err e → EFuel ∉ e) ∧ ∃ l, w_log w' = (l ++ w_log w)%list ∧ flush_outcome l (is_ok r).
Proof.
  induction fuel as [|fuel IH]; intros attempt start ref wire w r w' E Hf Hd Hp Hs.
  { unfold rounds in Hf. destruct (kv_match _ _); lia. }
  pose proof (proj1 (flush_premise_inv _ Hp)) as HL.
  assert (flush_key c ref snapshot txid = object_key) as Hkey by (unfold flush_key, object_key; by rewrite HL).
  cbn [flush_cas] in E. rewrite io_bind_eq, now_eq, io_bind_eq in E. unfold try in E. rewrite HL, Hkey in E.
  destruct (PutRef _ _ _ _ w) as [p w1] eqn:Ep. pose proof (PutRef_cases _ _ _ _ _ _ _ Ep) as (w0 & [Elog Hro] & Hcase).
  destruct (Hro _ Hs) as [Hs0 _].
  assert (∃ l1, w_log w1 = (l1 ++ w_log w)%list ∧ stable reached w1 ∧
    ((l1 = [] ∧ is_ok p = false) ∨ (∃ x, l1 = [x] ∧ head_write x) ∧ reached (w_objs w1))) as (l1 & Hl1 & Hs1 & Hc).
  { destruct Hcase as [[-> Hpe]|[Hm ->]]; [exists []; split_and!; auto; by rewrite Elog|].
    apply kv_match_before in Hm as [[? _]|(o & [= <-] & Hbefore)]; [done|].
    eexists [_]. split; [simpl; by rewrite Hbefore, Elog|]. split; [done|]. right. split.
    - eexists. split; [done|]. by exists wire, ref, (w_now w), (w_now w0).
    - intros r' (wire' & Hw & Hd'). rewrite store_at_lookup in Hw. simplify_eq. apply decode_encode_inv in Hd' as ->.
      unfold flush_advance. by destruct (bool_decide (fc_name c = "")). }
  destruct p as [t|e].
  { rewrite io_ret_eq in E. simplify_eq. split; [done|]. exists l1. split; [done|]. left. by destruct Hc as [[? ?]|[? ?]]. }
  rewrite io_bind_eq in E. destruct (flush_reread _ _ _ _ _ _ w1) as [ra w2] eqn:Er.
  apply flush_reread_cases in Er as (again & -> & [Elog2 Hro2] & Hlen & Hag & Hsome). destruct (Hro2 _ Hs1) as [Hs2 Hr2].
  destruct again as [[cur tag]|].
  - destruct Hc as [[-> _]|[_ Hr1]]; [|by specialize (Hag (Hr2 Hr1))].
    destruct (Hsome _ _ eq_refl) as (He & Hp2 & wire2 & -> & Hd2 & Hat2). destruct Hlen as [Hlen|]; [|done].
    pose proof (PutRef_lost_sched _ _ _ _ _ Ep He) as Hlost. rewrite io_bind_eq in E. unfold sleep in E.
    edestruct IH as (Hnf & l & Hl & Ho); [exact E| |done|done|exact Hs2|].
    { unfold rounds. cbn [w_sched w_objs]. rewrite Hat2. cbn [kv_match]. rewrite bool_decide_eq_true_2 by done. lia. }
    split; [done|]. exists l. split; [|done]. rewrite Hl. cbn [w_log]. by rewrite Elog2, Hl1.
  - pose proof (PutRef_no_fuel _ _ _ _ _ Ep) as Hnf. destruct (errors_Is e ErrCAS).
    + rewrite io_bind_eq in E. destruct (flush_cleanup _ _ _ _ w2) as [rc w3] eqn:Ecl.
      apply flush_cleanup_cases in Ecl as (-> & l & Hl & Hdel & Hnone); [|done]. unfold fail in E. simplify_eq.
      split; [naive_solver|]. exists (l ++ l1)%list. split; [by rewrite Hl, Elog2, Hl1, app_assoc|].
      destruct Hc as [[-> _]|[Hx Hr1]]; [right; by rewrite app_nil_r|rewrite Hnone by auto; by left].
    + unfold fail in E. simplify_eq. split; [naive_solver|]. exists l1. split; [by rewrite Elog2, Hl1|].
      destruct Hc as [[-> _]|[Hx _]]; [by right; auto|by left].
Qed.
End flush_cas.

(** ** The guarantee *)

Section guarantee.
  Context `{LtxLib} (c : flushCall).
  Local Abbreviation Any := (λ _, True).

Lemma spec_flush_upload key data : spec ref_guar Any (flush_upload key data).
Proof.
  unfold flush_upload. eapply spec_bind; [apply spec_try, spec_PutIf; intros; apply ref_guar_object|].
  intros [tag|e] _; [by apply spec_ret|]. spec_step; [apply spec_Put; intros; apply ref_guar_object|apply spec_fail].
Qed.

Lemma flush_advance_guar txid kind t cur : wire_trans (encodeRef cur) (encodeRef (flush_advance c txid kind t cur)).
Proof. unfold flush_advance. destruct (bool_decide _); apply wire_trans_same; auto. Qed.

Lemma spec_flush_cleanup L txid key : spec ref_guar Any (flush_cleanup c L txid key).
Proof.
  unfold flush_cleanup. eapply spec_bind; [apply spec_try, spec_GetRef|]. intros [[cur tag]|e] _; [|by apply spec_ret].
  spec_step; [|by apply spec_ret]. eapply spec_bind; [apply spec_try, spec_Delete; intros; apply ref_guar_delete|].
  intros. by apply spec_ret.
Qed.

Lemma spec_flush_reread attempt start L txid e :
  spec ref_guar (λ o, ∀ p, o = Some p → read_ref p) (flush_reread c attempt start L txid e).
Proof.
  unfold flush_reread. eapply spec_bind; [apply spec_now|]. intros t _. spec_step; [|by apply spec_ret].
  eapply spec_bind; [apply spec_try, spec_GetRef|]. intros [[cur tag]|ge] Hr; [|by apply spec_ret].
  spec_step; apply spec_ret; [|done]. intros p [= <-]. by apply Hr.
Qed.

Lemma spec_flush_cas fuel : ∀ attempt start ref tag txid snapshot,
  read_ref (ref, tag) → spec ref_guar Any (flush_cas c fuel attempt start ref tag txid snapshot).
Proof.
  induction fuel as [|fuel IH]; intros attempt start ref tag txid snapshot Hr; [apply spec_fail|]. cbn [flush_cas].
  eapply spec_bind; [apply spec_now|]. intros t _.
  eapply spec_bind; [apply spec_try, (spec_update _ _ ref tag); [done|apply flush_advance_guar]|].
  intros [t'|e] _; [by apply spec_ret|]. eapply spec_bind; [apply spec_flush_reread|]. intros [[cur tag']|] Hc.
  - eapply spec_bind; [apply spec_sleep|]. intros _ _. by apply IH, Hc.
  - spec_step; [|apply spec_fail]. eapply spec_bind; [apply spec_flush_cleanup|]. intros. apply spec_fail.
Qed.

Lemma spec_flush_commit ref tag a : read_ref (ref, tag) → spec ref_guar Any (flush_commit c ref tag a).
Proof.
  intros Hr w. unfold flush_commit. revert w.
  assert (∀ n, spec ref_guar Any (_ ← flush_upload (flush_key c ref (fa_snapshot a) (fa_txid a)) (fa_object a);
    t ← now; flush_cas c n 0 t ref tag (fa_txid a) (fa_snapshot a))) as Hn.
  { intros n. eapply spec_bind; [apply spec_flush_upload|]. intros _ _.
    eapply spec_bind; [apply spec_now|]. intros t _. by apply spec_flush_cas. }
  intros w. apply Hn.
Qed.

Lemma spec_seed_divergence ref s : spec ref_guar Any (seed_divergence c ref s).
Proof.
  unfold seed_divergence. do 3 (spec_step; [by apply spec_ret|]).
  eapply spec_bind; [apply spec_try, spec_reads|]. intros. by apply spec_ret.
Qed.

Lemma spec_flush s : spec ref_guar Any (flush c s).
Proof.
  unfold flush. destruct (fs_closed s); [by apply spec_ret|]. destruct (fs_err s); [by apply spec_ret|].
  spec_step; [by apply spec_ret|]. spec_step; [|by apply spec_ret].
  destruct (fc_drain c (fs_cap s)) as [cap|e]; [|by apply spec_ret]. cbv zeta.
  eapply spec_bind; [apply spec_try, spec_GetRef|]. intros [[ref tag]|e] Hr; [|by apply spec_ret].
  do 2 (spec_step; [by apply spec_ret|]). eapply spec_bind; [apply spec_seed_divergence|]. intros s' _.
  destruct (flush_encode _ _ _) as [[att|e] cap']; [|by apply spec_ret].
  eapply spec_bind; [apply spec_try, spec_flush_commit; by apply Hr|]. intros. by apply spec_ret.
Qed.

Lemma spec_renew_once l ttl s : spec ref_guar Any (renew_once l ttl s).
Proof.
  unfold renew_once. eapply spec_bind; [apply spec_now|]. intros t _.
  eapply spec_bind; [apply spec_try, spec_RenewLease|]. intros [l'|e] _; repeat (spec_step; try done).
Qed.

Lemma spec_releaseLease l : spec ref_guar Any (releaseLease l).
Proof.
  unfold releaseLease. cut (∀ n k e, spec ref_guar Any (release_loop n k l e)); [by intros Hl|].
  induction n as [|n IH]; intros k e; [apply spec_fail|].
  cbn [release_loop]. eapply spec_bind with (Q := Any); [destruct (k =? 0)%nat; [by apply spec_ret|apply spec_sleep]|].
  intros _ _. eapply spec_bind; [apply spec_try, spec_ReleaseLease|]. intros [?|e'] _; [by apply spec_ret|].
  spec_step; [by apply spec_ret|]. spec_step; [apply spec_fail|apply IH].
Qed.
End guarantee.

(** C11: The upload and head write of a live session's flush, on every schedule
    of faults, lost replies and other processes' writes in which the branch,
    once at the flush's transaction, stays on the flush's lineage at that
    transaction or past it ([stable]): no rollback, promote or compaction moves
    the branch while the flush settles.  (With one that does, the object can be
    removed although the head write landed: [flush_removes_backup_head].)  They
    always answer.  Whatever they
    answer, the log they leave is uploads of the object followed by one of: the
    head write, which replaced a ref still carrying the session's lease, lineage
    and head; nothing; or the removal of the object.  A reported success
    landed; an object is only removed when the head was never written, a head
    write whose reply was lost included. *)
Theorem flush_commit_safe c ref wire a w :
  (fa_txid a ≠ 0)%N → u64 (fa_txid a) → decodeRef wire = Ok ref →
  flush_premise c (r_lineage ref) (fa_txid a) ref = true →
  stable (reached c (r_lineage ref) (fa_txid a)) w →
  ∃ r w' up l, flush_commit c ref (TagOf (ORef wire)) a w = (r, w')
    ∧ (∀ e, r = Err e → EFuel ∉ e)
    ∧ w_log w' = (l ++ up ++ w_log w)%list
    ∧ Forall (upload_of (object_key c (r_lineage ref) (fa_txid a) (fa_snapshot a)) (fa_object a)) up
    ∧ flush_outcome c (r_lineage ref) (fa_txid a) (fa_snapshot a) l (is_ok r).
Proof.
  intros Ht Hu Hd Hp Hs. destruct (flush_commit c ref _ a w) as [r w'] eqn:E. unfold flush_commit in E.
  rewrite io_bind_eq in E. change (flush_key c ref (fa_snapshot a) (fa_txid a))
    with (object_key c (r_lineage ref) (fa_txid a) (fa_snapshot a)) in E.
  destruct (flush_upload _ _ w) as [ru w1] eqn:Eu. apply flush_upload_cases in Eu as [(Hst & Hlen & up & Hup & Hall) Hnf].
  exists r, w', up. destruct ru as [[]|e].
  - rewrite io_bind_eq, now_eq in E.
    destruct (flush_cas_ok c (r_lineage ref) _ (fa_snapshot a) Ht Hu _ _ _ _ _ _ _ _ E) as (Hnf2 & l & Hl & Ho); [|done|done|by apply Hst|].
    { unfold rounds. destruct (kv_match _ _); lia. }
    exists l. split_and!; try done. by rewrite Hl, Hup.
  - simplify_eq. exists []. split_and!; try done. right. auto.
Qed.

(** ** A run *)

(** A session on [app@main] at transaction 3, about to commit 4, and a schedule
    in which the object's create and the head write go through but the client
    library reports a conflict for the latter. *)
Definition fl_lease : Lease := mkLease "app" "main" "session:x" 3 (100 * second + 30).
Definition fl_call : flushCall :=
  mkFlushCall "app" "main" "" ∅ fl_lease (30 * second) (10 * second) 16 (λ _ _, 0%Z) (λ s, Ok s) id id.
Definition fl_ref : Ref := acquired ex_ref "session:x" 30 (100 * second).
Definition fl_attempt : flushAttempt := mkAttempt 4 false ["x"%byte] 0 0 0.
Definition fl_lost : tick := mkTick id 0 FLostCAS None.
Definition fl_world : world := ex_world {[RefKey "app" "main" := ORef (encodeRef fl_ref)]} [quiet; fl_lost].

Lemma flush_commit_safe_witness :
  ∃ r w' up l, flush_commit fl_call fl_ref (TagOf (ORef (encodeRef fl_ref))) fl_attempt fl_world = (r, w')
    ∧ w_log w' = (l ++ up ++ w_log fl_world)%list ∧ flush_outcome fl_call "a" 4 false l (is_ok r)
    ∧ r = Err [ErrCAS] ∧ w_objs w' !! SegmentKey "a" 3 4 4 = Some (obj_of ["x"%byte]).
Proof.
  destruct (flush_commit_safe fl_call fl_ref (encodeRef fl_ref) fl_attempt fl_world) as (r & w' & up & l & E & _ & Hl & _ & Ho);
    [done|done|vm_compute; reflexivity|vm_compute; reflexivity|do 2 (apply Forall_cons_2; [by intros|]); by apply Forall_nil_2|].
  exists r, w', up, l. split; [exact E|]. split; [exact Hl|]. split; [exact Ho|].
  assert ((flush_commit fl_call fl_ref (TagOf (ORef (encodeRef fl_ref))) fl_attempt fl_world).1 = Err [ErrCAS]
    ∧ w_objs (flush_commit fl_call fl_ref (TagOf (ORef (encodeRef fl_ref))) fl_attempt fl_world).2 !! SegmentKey "a" 3 4 4
      = Some (obj_of ["x"%byte])) as Hx by (vm_compute; split; reflexivity).
  rewrite E in Hx. exact Hx.
Defined.

(** ** Off the lineage *)

#[local] Existing Instance model_lib.

(** [offshoot rollback --force app@main init] by another process. *)
Definition fl_rollback (m : objs) : objs :=
  w_objs (RollbackWith 0 None None "app" "main" "init" (mkRollback true false 0 false) (ex_world m [])).2.

Definition fl_store : objs :=
  <[RefKey "app" "main" := ORef (encodeRef fl_ref)]> (<[manifestKey := OManifest 2 ""]>
  (<[SnapshotKey "a" 1 1 := OBytes "s"]> (<[SegmentKey "a" 2 2 2 := OBytes "t"]> {[SegmentKey "a" 2 3 3 := OBytes "u"]}))).

(** The head write lands and is reported as a conflict, and the rollback runs
    before the flush looks at the branch again. *)
Definition fl_run : res unit * world :=
  flush_commit fl_call fl_ref (TagOf (ORef (encodeRef fl_ref))) fl_attempt
    (ex_world fl_store [quiet; fl_lost; mkTick fl_rollback 0 FNone None]).

(** The backup the rollback leaves, and whether it can be resolved. *)
Definition fl_backup (m : objs) : option (N * bool) :=
  match (GetRef "app" "main-pre-rollback" (ex_world m [])).1 with
  | Ok (b, _) => Some (r_head_txid b, is_ok (Chain (view_of m) (r_lineage b) (r_head_txid b)))
  | Err _ => None
  end.

(** The flush takes a ref on another lineage for a proof that nothing names its
    object.  Here the head write had landed and the rollback's safety fork shares
    the old lineage at that head, so the removal leaves the backup unresolvable:
    with the object in place it resolves. *)
Lemma flush_removes_backup_head :
  fl_run.1 = Err [ErrCAS]
  ∧ fl_backup (w_objs fl_run.2) = Some (4%N, false)
  ∧ fl_backup (<[SegmentKey "a" 3 4 4 := obj_of ["x"%byte]]> (w_objs fl_run.2)) = Some (4%N, true).
Proof. vm_compute. split_and!; reflexivity. Qed.
