(* ===== verification/System.v ===== *)
(** * The program as a whole: one writer per epoch

    [operation] names every operation of the program that writes the store, and
    [run] is what each does.  [branch_run] is the life of one branch under them:
    any operations, of any processes, interleaved at their store calls, with any
    faults.  The theorem is the fencing argument the lease protocol exists for. *)
From Stdlib Require Import Ascii String Strings.Byte.
From S2P Require Import Prelude GoStrings Keys Refs Backend Chain Store Rely Lease Gc Claims ClaimsProps RefOps Files Wal Ltx LtxModel Session Content Delta Checkpoint CheckpointProps Repoint RepointProps Flush FlushProps.
Local Open Scope string_scope.

(** ** Operations *)

Inductive operation : Type → Type :=
  | OpInit : operation unit
  | OpAcquire (db branch holder : string) (ttl now : Z) (check : Z → Ref → res unit) : operation (Lease * Ref * etag)
  | OpRenew (l : Lease) (ttl now : Z) : operation Lease
  | OpRelease (l : Lease) : operation unit
  | OpReleaseByHolder (db branch holder : string) : operation unit
  | OpTouch (db branch : string) (ttl : option Z) (now : Z) : operation Ref
  | OpProtect (db branch : string) (protected : bool) : operation Ref
  | OpPrune (db branch : string) (opts : PruneOptions) : operation PruneResult
  | OpDestroy (db branch : string) (force : bool) (co : option (N * res unit)) : operation unit
  | OpClearClaims (now : Z) : operation (list string * option error)
  | OpReap (now : Z) (co : string → string → option (N * res unit)) : operation (list string * option error)
  | OpGC (grace : Z) : operation gc_result
  | OpCreate (db : string) (file : bytes) : operation unit
  | OpFork (every : Z) (side : option sumRecord) (db src new at_ : string) (ttl : Z) (meta : gmap string string) : operation N
  | OpRollback (every : Z) (side : option sumRecord) (old : option (N * res unit)) (db branch to : string)
      (opts : RollbackOptions) : operation RollbackResult
  | OpPromote (every : Z) (side sideT : option sumRecord) (old : option (N * res unit)) (db source target : string)
      (opts : PromoteOptions) : operation PromoteResult
  | OpCompact (db branch : string) (force : bool) : operation N
  | OpCheckpoint (en : checkpointEnv) (db branch name : string) (meta : gmap string string) (opts : CheckpointOptions)
      (co : checkout) : operation (CheckpointResult * checkout)
  | OpFlush (c : flushCall) (s : flushSession) : operation (res N * flushSession)
  | OpHeartbeat (l : Lease) (ttl : Z) (s : flushSession) : operation (Lease * flushSession)
  | OpClose (l : Lease) : operation unit.

Section system.
  Context `{LtxLib}.

Definition run {A} (op : operation A) : IO A :=
  match op with
  | OpInit => InitManifest
  | OpAcquire db branch holder ttl now check => AcquireLeaseRefIf db branch holder ttl now check
  | OpRenew l ttl now => RenewLease l ttl now
  | OpRelease l => ReleaseLease l
  | OpReleaseByHolder db branch holder => ReleaseLeaseByHolder db branch holder
  | OpTouch db branch ttl now => TouchBranch db branch ttl now
  | OpProtect db branch p => SetProtected db branch p
  | OpPrune db branch opts => PruneCheckpoints db branch opts
  | OpDestroy db branch force co => Destroy db branch force co
  | OpClearClaims now => ClearStaleDeleteClaims now
  | OpReap now co => Reap now co
  | OpGC grace => GC grace
  | OpCreate db file => createFromQuiesced db file
  | OpFork every side db src new at_ ttl meta => Fork every side db src new at_ ttl meta
  | OpRollback every side old db branch to opts => RollbackWith every side old db branch to opts
  | OpPromote every side sideT old db source target opts => PromoteWith every side sideT old db source target opts
  | OpCompact db branch force => CompactWith db branch force
  | OpCheckpoint en db branch name meta opts co => CheckpointWith en db branch name meta opts co
  | OpFlush c s => flush c s
  | OpHeartbeat l ttl s => renew_once l ttl s
  | OpClose l => releaseLease l
  end.

Lemma gc_guar_ref_guar x : gc_guar x → ref_guar x.
Proof. unfold ref_guar. intros [(_ & m & ->)|(-> & _)]; by destruct (wr_before x) as [[]|]. Qed.

Lemma spec_InitManifest : spec ref_guar (λ _, True) InitManifest.
Proof.
  unfold InitManifest. eapply spec_bind; [apply spec_now|]. intros t _.
  eapply spec_bind; [apply spec_PutIf; intros b τ _; by destruct b as [[]|]|]. intros. by apply spec_ret.
Qed.

Lemma run_owned {A} ids (op : operation A) : ispec ids (owned ids) (λ _, True) (run op).
Proof.
  destruct op; cbn [run].
  all: try (apply spec_owned; eauto using spec_InitManifest, spec_AcquireLeaseRefIf, spec_RenewLease, spec_ReleaseLease,
    spec_ReleaseLeaseByHolder, spec_TouchBranch, spec_SetProtected, spec_PruneCheckpoints, spec_Destroy,
    spec_ClearStaleDeleteClaims, spec_Reap, spec_CheckpointWith, spec_flush, spec_renew_once, spec_releaseLease; fail).
  - apply spec_owned. eapply spec_mono; [apply gc_guar_ref_guar|apply spec_GC].
  - apply ispec_createFromQuiesced.
  - apply ispec_forkWith.
  - apply ispec_RollbackWith.
  - apply ispec_PromoteWith.
  - apply ispec_CompactWith.
Qed.

(** ** The life of a branch *)

(** A write some operation makes, its lineage ids coming from [ids]. *)
Definition program_write (ids : nat → string) (x : write) : Prop :=
  ∃ A (op : operation A) w r w' l,
    w_ids w = ids ∧ run op w = (r, w') ∧ w_log w' = (l ++ w_log w)%list ∧ x ∈ l.

(** [branch_run key cur h]: [cur] is the ref at [key], [h] every ref that was
    stored there, newest first.  The ids an operation draws (128 random bits)
    are not among the lineages the branch has had. *)
Inductive branch_run (key : string) : option refWire → list refWire → Prop :=
  | run_start : branch_run key None []
  | run_write cur h ids x b :
      branch_run key cur h → program_write ids x → (∀ n, ids n ∉ w_lineage <$> h) →
      wr_key x = key → wr_before x = ORef <$> cur → wr_after x = Some (ORef b) →
      (∀ a, cur = Some a → (w_epoch a < u64_size - 1)%N) →
      branch_run key (Some b) (b :: h)
  | run_delete cur h ids x :
      branch_run key cur h → program_write ids x → wr_key x = key → wr_before x = ORef <$> cur → wr_after x = None →
      branch_run key None h.

Lemma RefKey_not_member db branch L e t : RefKey db branch ≠ SnapshotKey L e t.
Proof. done. Qed.

(** A ref write of the program: a step of the lease discipline, or a move of the
    branch, unleased, to a lineage the operation drew. *)
Lemma program_ref_write ids db branch x b cur :
  program_write ids x → wr_key x = RefKey db branch → wr_before x = ORef <$> cur → wr_after x = Some (ORef b) →
  (∃ a, cur = Some a ∧ wire_trans a b) ∨ (w_lease_holder b = "" ∧ ∃ n, w_lineage b = ids n).
Proof.
  intros (A & op & w & r & w' & l & Hids & E & Hl & Hx) Hk Hb Ha.
  destruct (run_owned ids op w r w' Hids E) as [(l' & Hl' & Hf & _) _].
  assert (l' = l) as -> by (eapply app_inv_tail; by rewrite <-Hl', <-Hl).
  rewrite Forall_forall in Hf. destruct (Hf x Hx) as [[Hg|(n & b' & Ha' & Hn & Hh)]|(L & t & Hs)].
  - unfold ref_guar in Hg. rewrite Hb, Ha in Hg. destruct cur as [a|]; [|done]. left. by exists a.
  - rewrite Ha in Ha'. simplify_eq. right. eauto.
  - rewrite Hk in Hs. by apply RefKey_not_member in Hs.
Qed.

(** Nothing stored so far is ahead of the current ref, and a holder cleared within
    an epoch stays cleared. *)
Definition behind (x cur : refWire) : Prop :=
  w_lineage x = w_lineage cur →
  (w_epoch x <= w_epoch cur)%N
  ∧ (w_epoch x = w_epoch cur → w_lease_holder x ≠ "" →
     w_lease_holder cur = w_lease_holder x ∨ w_lease_holder cur = "").

Lemma behind_step x a b : behind x a → wire_trans a b → (w_epoch a < u64_size - 1)%N → behind x b.
Proof.
  intros Hx (El & Ht) Hb E. destruct Hx as [Hle Hhold]; [congruence|]. destruct Ht as [(Ee & Eh)|Ee].
  - rewrite Ee. split; [done|]. intros Ex Hne. destruct Eh as [->| ->]; [by apply Hhold|by right].
  - rewrite Ee, add64_small by lia. split; [lia|]. intros; lia.
Qed.

Lemma branch_behind db branch cur h a x : branch_run (RefKey db branch) cur h → cur = Some a → x ∈ h → behind x a.
Proof.
  intros Hr. revert a x. induction Hr as [|cur h ids x' b Hr IH Hw Hf Hk Hb Ha He|cur h ids x' Hr IH]; intros a x Hc Hx; simplify_eq.
  assert (behind a a) as Hrefl by (intros _; split; [lia|by left]).
  apply elem_of_cons in Hx as [->|Hx]; [done|].
  destruct (program_ref_write _ _ _ _ _ _ Hw Hk Hb Ha) as [(a' & -> & Ht)|(_ & n & Hn)].
  - eapply behind_step; [by apply IH|done|by apply He].
  - intros El. destruct (Hf n). rewrite <-Hn, <-El. by apply list_elem_of_fmap_2.
Qed.

(** C7: epoch fencing, of the whole program.  Whatever operations of whatever
    processes write a branch, interleaved at their store calls and with any
    faults, deletions and re-creations included: two refs ever stored for it
    with the same lineage and the same epoch that name a holder name the same
    holder.  The prefix an epoch's objects are written under has one writer. *)
Theorem one_holder_per_epoch db branch cur h x y :
  branch_run (RefKey db branch) cur h → x ∈ h → y ∈ h → w_lineage x = w_lineage y → w_epoch x = w_epoch y →
  w_lease_holder x ≠ "" → w_lease_holder y ≠ "" → w_lease_holder x = w_lease_holder y.
Proof.
  intros Hr. induction Hr as [|cur h ids x' b Hr IH Hw Hf Hk Hb Ha He|cur h ids x' Hr IH]; [set_solver| |done].
  assert (branch_run (RefKey db branch) (Some b) (b :: h)) as Hr' by (by eapply run_write).
  assert (∀ z, z ∈ h → w_lineage z = w_lineage b → w_epoch z = w_epoch b →
    w_lease_holder z ≠ "" → w_lease_holder b ≠ "" → w_lease_holder z = w_lease_holder b) as Hnew.
  { intros z Hz El Ee Hzn Hbn. destruct (branch_behind _ _ _ _ b z Hr' eq_refl) as [_ Hc]; [by apply elem_of_cons; right|done|].
    destruct (Hc Ee Hzn); congruence. }
  intros [->|Hx]%elem_of_cons [->|Hy]%elem_of_cons El Ee Hxn Hyn; auto. symmetry. auto.
Qed.
End system.

(** ** A branch: forked, leased, renewed *)

#[local] Existing Instance model_lib.

Definition sy_world (id : string) (m : objs) : world := mkWorld m (100 * second) [] ex_caps (λ _, id) 0 false [].

Definition sy_fork : operation N := OpFork 0 None "app" "main" "dev" "" 0 ∅.
Definition sy_acquire : operation (Lease * Ref * etag) := OpAcquire "app" "dev" "session:y" 30 (100 * second) (λ _ _, Ok tt).
Definition sy_renew : operation Lease := OpRenew (mkLease "app" "dev" "session:y" 2 (100 * second + 30)) 60 (100 * second).

(** What [op] leaves at the branch's key, and its newest write. *)
Definition sy_objs {A} (op : operation A) (m : objs) : objs := w_objs (run op (sy_world "b" m)).2.
Definition sy_ref (m : objs) : refWire :=
  match m !! RefKey "app" "dev" with Some (ORef wire) => wire | _ => encodeRef ex_ref end.
Definition sy_newest {A} (op : operation A) (id : string) (m : objs) : write :=
  default (mkWrite "" None None 0) (head (w_log (run op (sy_world id m)).2)).

(** The newest write of [op] takes the branch from [cur] to [b]. *)
Definition sy_check {A} (op : operation A) (id : string) (m : objs) (cur : option refWire) (h : list refWire) (b : refWire) : bool :=
  let x := sy_newest op id m in
  bool_decide (w_log (run op (sy_world id m)).2 ≠ []) && bool_decide (id ∉ w_lineage <$> h)
  && bool_decide (wr_key x = RefKey "app" "dev") && bool_decide (wr_before x = ORef <$> cur)
  && bool_decide (wr_after x = Some (ORef b))
  && match cur with Some a => (w_epoch a <? u64_size - 1)%N | None => true end.

Lemma sy_step {A} (op : operation A) id m cur h b :
  branch_run (RefKey "app" "dev") cur h → sy_check op id m cur h b = true → branch_run (RefKey "app" "dev") (Some b) (b :: h).
Proof.
  unfold sy_check. rewrite !andb_true_iff, !bool_decide_eq_true. intros Hr (((((Hl & Hf) & Hk) & Hb) & Ha) & He).
  eapply (run_write _ cur h (λ _, id) (sy_newest op id m)); try done.
  - exists A, op, (sy_world id m). unfold sy_newest in *. destruct (run op (sy_world id m)) as [r w'] eqn:Er.
    exists r, w', (w_log w'). simpl in *. rewrite app_nil_r. split_and!; try done.
    destruct (w_log w'); [done|]. by apply elem_of_cons; left.
  - intros a ->. by apply N.ltb_lt.
Qed.

Local Abbreviation m1 := (sy_objs sy_fork fl_store).
Local Abbreviation m2 := (sy_objs sy_acquire m1).
Local Abbreviation m3 := (sy_objs sy_renew m2).

Lemma one_holder_per_epoch_witness :
  branch_run (RefKey "app" "dev") (Some (sy_ref m3)) [sy_ref m3; sy_ref m2; sy_ref m1]
  ∧ w_lease_holder (sy_ref m3) = w_lease_holder (sy_ref m2).
Proof.
  assert (branch_run (RefKey "app" "dev") (Some (sy_ref m3)) [sy_ref m3; sy_ref m2; sy_ref m1]) as Hr.
  { apply (sy_step sy_renew "c" m2 (Some (sy_ref m2))); [|vm_compute; reflexivity].
    apply (sy_step sy_acquire "c" m1 (Some (sy_ref m1))); [|vm_compute; reflexivity].
    apply (sy_step sy_fork "b" fl_store None); [apply run_start|vm_compute; reflexivity]. }
  split; [exact Hr|].
  apply (one_holder_per_epoch "app" "dev" _ _ (sy_ref m3) (sy_ref m2) Hr).
  - apply elem_of_cons; by left.
  - apply elem_of_cons; right. apply elem_of_cons; by left.
  - vm_compute; reflexivity.
  - vm_compute; reflexivity.
  - vm_compute; discriminate.
  - vm_compute; discriminate.
Defined.
