(* ===== verification/WalDb.v ===== *)
(** * A database in SQLite's WAL mode, as the capture engine sees it

    SQLite is not part of the repository: a database is a value of a type [D]
    with the operations of the class [WalDb] (what the engine asks of its own
    connection, the two files it reads, and what other connections do), and
    [WalDbLaws] states the documented behaviour the engine relies on, through
    a view [wal_state] of the database: every transaction committed so far,
    which of them the log file still holds, how many are folded into the main
    file, and the lock the engine's read transaction holds.  The contents of
    the database after a prefix of its transactions, [db_at], is what the
    source's own [Replica.Apply] makes of their page writes. *)
From Stdlib Require Import Strings.Byte.
From S2P Require Import Prelude Files Wal WalProps Session.
Local Open Scope N_scope.

(** ** Transactions and contents *)

Definition tx_pages (tx : list pageWrite) : list (N * bytes) := (λ p, (pw_pgno p, pw_data p)) <$> tx.

Definition tx_commit (tx : list pageWrite) : N :=
  match last tx with Some p => pw_commit p | None => 0 end.

(** The file after a transaction: its pages written, and cut to its size. *)
Definition tx_write (ps : N) (tx : list pageWrite) (f : bytes) : bytes :=
  Truncate (write_pages ps (tx_pages tx) f) (tx_commit tx * ps).

(** ** The view *)

Definition salts (h : Header) : N * N := (wh_salt1 h, wh_salt2 h).

(** [ws_synced] when the main file is exactly the database after the folded
    transactions (not so in the middle of a fold, or after a partial one).
    [ws_hdr] is the header of the log file, [None] while the file holds no
    header.  [ws_pin] is the engine's read transaction, with the number of
    transactions committed when it began; [true] when its lock also keeps the
    log from being restarted (a read mark), [false] when it reads the main
    file alone (SQLite's read lock 0, taken on a fully folded log). *)
Record wal_state := mkWalState {
  ws_base : bytes;
  ws_hist : list (list pageWrite);
  ws_start : nat;
  ws_folded : nat;
  ws_synced : bool;
  ws_hdr : option Header;
  ws_used : list (N * N);
  ws_pin : option (bool * nat) }.

(** How many transactions are committed, and which of them the log holds. *)
Definition ws_total (v : wal_state) : nat := length (ws_hist v).
Definition ws_log (v : wal_state) : list (list pageWrite) := drop (ws_start v) (ws_hist v).
Definition ws_frames (v : wal_state) : N := N.of_nat (length (concat (ws_log v))).

Definition db_at (ps : N) (v : wal_state) (k : nat) : bytes :=
  foldl (λ f tx, tx_write ps tx f) (ws_base v) (take k (ws_hist v)).

(** A checkpoint folds no further than what the open read transaction sees. *)
Definition fold_limit (v : wal_state) : nat :=
  match ws_pin v with Some (_, m) => m | None => ws_total v end.

Definition unblocked (v : wal_state) : Prop := match ws_pin v with Some (b, _) => b = false | None => True end.

Definition set_pin (p : option (bool * nat)) (v : wal_state) : wal_state :=
  mkWalState (ws_base v) (ws_hist v) (ws_start v) (ws_folded v) (ws_synced v) (ws_hdr v) (ws_used v) p.

Definition set_folded (n : nat) (b : bool) (v : wal_state) : wal_state :=
  mkWalState (ws_base v) (ws_hist v) (ws_start v) n b (ws_hdr v) (ws_used v) (ws_pin v).

(** The log emptied: nothing in it, nothing left to fold. *)
Definition emptied (v : wal_state) : wal_state :=
  mkWalState (ws_base v) (ws_hist v) (ws_total v) (ws_total v) true None (ws_used v) (ws_pin v).

(** A checkpoint folds up to [n]; short of the whole log it leaves the main
    file unsynced, unless it had nothing to do. *)
Definition fold_ok (v : wal_state) (n : nat) (b : bool) : Prop :=
  (ws_folded v <= n <= fold_limit v)%nat ∧ (n = ws_total v → b = true) ∧
  (b = true → n = ws_total v ∨ n = ws_folded v ∧ ws_synced v = true) ∧
  (ws_folded v = fold_limit v → b = ws_synced v).

Section spec.
Context (ps : N).

(** ** What the other connections can do

    A commit appends to the log; a log whose every transaction is folded is
    restarted by the next writer, under salts no generation had before, unless
    a read mark is held; a checkpoint folds, or (in TRUNCATE mode) folds
    everything and empties the log file. *)
Inductive env_step (v : wal_state) : wal_state → Prop :=
  | env_commit h tx :
      ws_hdr v = Some h → tx_ok h tx →
      env_step v (mkWalState (ws_base v) (ws_hist v ++ [tx]) (ws_start v) (ws_folded v) (ws_synced v)
                    (ws_hdr v) (ws_used v) (ws_pin v))
  | env_restart h :
      hdr_ok h → wh_page_size h = ps → salts h ∉ ws_used v →
      ws_folded v = ws_total v → ws_hdr v = None ∨ unblocked v →
      env_step v (mkWalState (ws_base v) (ws_hist v) (ws_total v) (ws_folded v) (ws_synced v)
                    (Some h) (salts h :: ws_used v) (ws_pin v))
  | env_fold n b :
      fold_ok v n b →
      env_step v (set_folded n b v)
  | env_truncate :
      ws_folded v = ws_total v → unblocked v →
      env_step v (emptied v).

(** No generation has both salts zero, which is how a reader that is not bound
    reports its salts. *)
Record wal_wf (v : wal_state) : Prop := mk_wal_wf {
  ww_zero : (0, 0) ∈ ws_used v;
  ww_start : (ws_start v <= ws_folded v)%nat;
  ww_folded : (ws_folded v <= ws_total v)%nat;
  ww_synced : ws_folded v = ws_total v → ws_synced v = true;
  ww_none : ws_hdr v = None → ws_start v = ws_total v;
  ww_hdr : ∀ h, ws_hdr v = Some h → hdr_ok h ∧ wh_page_size h = ps ∧ salts h ∈ ws_used v;
  ww_txs : Forall (λ tx, ∀ h, wh_page_size h = ps → tx_ok h tx) (ws_hist v);
  ww_pin : ∀ b m, ws_pin v = Some (b, m) →
             (ws_folded v <= m <= ws_total v)%nat ∧ (b = false → ws_folded v = m) }.

(** ** What the engine's own connection does *)

(** BEGIN and a first read: a transaction is open, at the commits so far. *)
Definition begins (v v' : wal_state) : Prop :=
  ws_pin v = None ∧ ∃ b, (b = false → ws_folded v = ws_total v) ∧ v' = set_pin (Some (b, ws_total v)) v.

(** A failed command may have folded a part. *)
Definition folds (v v' : wal_state) : Prop :=
  v' = v ∨ ∃ n b, fold_ok v n b ∧ v' = set_folded n b v.

(** The two files. *)
Definition wal_file (v : wal_state) (f : res bytes) : Prop :=
  match ws_hdr v with
  | None => (∃ e, f = Err e ∧ errors_Is e ErrNotFound = true) ∨
            ∃ b, f = Ok b ∧ (ReadAt b 0 HeaderSize = None ∨
                             ∃ hb e, ReadAt b 0 HeaderSize = Some hb ∧ ParseHeader hb = Err e)
  | Some h =>
      ∃ rest, let b := (header_bytes h ++ run_bytes h (seed h) (concat (ws_log v)) ++ rest)%list in
        f = Ok b ∧
        next_frames (S (length b)) b h (HeaderSize + ws_frames v * FrameSize h)
          (run_sum h (seed h) (concat (ws_log v))) [] = Ok None
  end.
End spec.

(** ** The interface *)

Inductive ckpt_mode := RESTART | TRUNCATE.

#[global] Instance ckpt_mode_eq_dec : EqDecision ckpt_mode.
Proof. solve_decision. Defined.

(** [db_env] is what other connections do between two calls of the engine.
    Each command is given the choice SQLite makes; [db_checkpoint] returns the
    pragma's [log] column, or an error when it fails or reports busy. *)
Class WalDb (D : Type) := {
  db_choice : Type;
  db_env : db_choice → D → D;
  db_begin : db_choice → D → res unit * D;
  db_end : db_choice → D → D;
  db_checkpoint : db_choice → ckpt_mode → D → res N * D;
  db_wal : D → res bytes;
  db_main : D → bytes }.

Class WalDbLaws (D : Type) `{WalDb D} (ps : N) := {
  db_view : D → wal_state;
  law_env c d : rtc (env_step ps) (db_view d) (db_view (db_env c d));
  law_begin c d r d' : db_begin c d = (r, d') →
    match r with Ok _ => begins (db_view d) (db_view d') | Err _ => db_view d' = db_view d end;
  law_end c d : db_view (db_end c d) = set_pin None (db_view d) ∨ db_view (db_end c d) = db_view d;
  law_checkpoint c mode d r d' : db_checkpoint c mode d = (r, d') →
    match r with
    | Ok n => ws_pin (db_view d) = None ∧
        match mode with
        | RESTART => n = ws_frames (db_view d) ∧ db_view d' = set_folded (ws_total (db_view d)) true (db_view d)
        | TRUNCATE => n = 0 ∧ db_view d' = emptied (db_view d)
        end
    | Err _ => folds (db_view d) (db_view d')
    end;
  law_wal d : wal_wf ps (db_view d) → wal_file (db_view d) (db_wal d);
  law_main d : wal_wf ps (db_view d) → ws_synced (db_view d) = true →
    db_main d = db_at ps (db_view d) (ws_folded (db_view d)) }.
