(* ===== verification/WalDbProps.v ===== *)
(** * The log of a WAL database: invariants, contents, polling

    What the steps of [WalDb] preserve, the contents of the database after a
    prefix of its transactions, and what one [Next] does on the log file: the
    byte-level facts of [WalProps] stated on the view. *)
From Stdlib Require Import Strings.Byte.
From S2P Require Import Prelude Files Wal WalProps Session WalDb.
Local Open Scope N_scope.

Lemma tx_ok_page_size h h' tx : wh_page_size h = wh_page_size h' → tx_ok h tx → tx_ok h' tx.
Proof.
  intros E (init & l & -> & Hw & Hi & Hl). exists init, l. split_and!; [done| |done|done].
  eapply Forall_impl; [exact Hw|]. intros p [? ? Hlen]. split; [done..|]. by rewrite Hlen, E.
Qed.

Lemma tx_ok_nonnil h tx : tx_ok h tx → (1 <= length tx)%nat.
Proof. intros (init & l & -> & _). rewrite length_app. simpl. lia. Qed.

(** ** Applying the frames of a transaction *)

Lemma run_frames_writes h s tx : frame_write <$> run_frames h s tx = tx_pages tx.
Proof. revert s. induction tx as [|p tx IH]; intros s; [done|]. cbn. by rewrite IH. Qed.

Lemma commit_of_run h tx s : commit_of (run_frames h s tx) = tx_commit tx.
Proof.
  unfold commit_of, tx_commit. revert s. induction tx as [|p tx IH]; intros s; [done|].
  cbn [run_frames]. destruct tx as [|q tx]; [done|]. specialize (IH (frame_sum h s p)).
  cbn [run_frames] in *. by rewrite !last_cons_cons.
Qed.

Lemma tx_commit_ok h tx : tx_ok h tx → tx_commit tx ≠ 0.
Proof. intros (init & l & -> & _ & _ & Hl). unfold tx_commit. by rewrite last_snoc. Qed.

Lemma ReplicaApply_tx ps h s tx f : tx_ok h tx → ReplicaApply ps (run_frames h s tx) f = Ok (tx_write ps tx f).
Proof.
  intros Htx. unfold ReplicaApply. destruct (run_frames_nonnil h s tx Htx) as (fr & frs & E).
  rewrite bool_decide_eq_false_2 by (rewrite E; done).
  rewrite commit_of_run. destruct (N.eqb_spec (tx_commit tx) 0) as [E0|_]; [by destruct (tx_commit_ok h tx Htx)|].
  by rewrite run_frames_writes.
Qed.

Section view.
Context (ps : N).

Lemma db_at_S v k tx : ws_hist v !! k = Some tx → db_at ps v (S k) = tx_write ps tx (db_at ps v k).
Proof. intros Hk. unfold db_at. by rewrite (take_S_r _ _ _ Hk), foldl_app. Qed.

(** The transactions only grow, and what the first [k] make does not change. *)
Definition extends (v v' : wal_state) : Prop := ws_base v' = ws_base v ∧ ws_hist v `prefix_of` ws_hist v'.

#[global] Instance extends_po : PreOrder extends.
Proof.
  split; [by split|]. intros v1 v2 v3 [Hb1 Hh1] [Hb2 Hh2]. split; [congruence|]. by transitivity (ws_hist v2).
Qed.

Lemma extends_db_at v v' k : extends v v' → (k <= ws_total v)%nat → db_at ps v' k = db_at ps v k.
Proof. intros [Hb [l Hl]] Hk. unfold db_at. rewrite Hb, Hl, take_app_le; [done|exact Hk]. Qed.

Lemma extends_total v v' : extends v v' → (ws_total v <= ws_total v')%nat.
Proof. intros [_ Hp]. by apply prefix_length. Qed.

Lemma extends_same v v' : ws_base v' = ws_base v → ws_hist v' = ws_hist v → extends v v'.
Proof. intros Hb Hh. split; [done|]. by rewrite Hh. Qed.

(** ** Steps *)

Lemma env_extends v v' : env_step ps v v' → extends v v'.
Proof. intros []; (split; [done|]); cbn; [by apply prefix_app_r|done..]. Qed.

Lemma env_pin v v' : env_step ps v v' → ws_pin v' = ws_pin v.
Proof. by intros []. Qed.

Lemma emptied_wf v : wal_wf ps v → (∀ b m, ws_pin v = Some (b, m) → m = ws_total v) → wal_wf ps (emptied v).
Proof.
  intros [Hz Hs Hf Hy Hn Hh Ht Hp] Hm. split; cbn; try done. intros b m E. pose proof (Hm b m E). unfold ws_total in *. lia.
Qed.

Lemma env_wf v v' : wal_wf ps v → env_step ps v v' → wal_wf ps v'.
Proof.
  intros Hwf. pose proof Hwf as [Hz Hs Hf Hy Hn Hh Ht Hp].
  intros [h tx Eh Htx|h Hok Eps Hnew Efold Hun|n b (Hlim & Hb1 & Hb2 & _)|Efold Hun].
  - split; unfold ws_total in *; cbn; rewrite ?length_app; cbn; [done|lia|lia|lia|congruence|done| |].
    + apply Forall_app. split; [done|]. constructor; [|done]. intros h' Eps'. apply (tx_ok_page_size h h'); [|done].
      destruct (Hh h Eh) as (_ & -> & _). done.
    + intros b m E. destruct (Hp b m E). split; [lia|done].
  - split; cbn; try done; [by apply list_elem_of_further|lia|].
    intros h' [= <-]. split_and!; [done|done|apply list_elem_of_here].
  - unfold fold_limit in Hlim. split; cbn; try done; [lia| |].
    + destruct (ws_pin v) as [[b' m]|] eqn:E; [destruct (Hp b' m eq_refl)|]; unfold ws_total in *; lia.
    + intros b' m E. rewrite E in Hlim. destruct (Hp b' m E) as [? Hb].
      split; [unfold ws_total in *; cbn; lia|]. intros E'. specialize (Hb E'). lia.
  - apply emptied_wf; [done|]. intros b m E. destruct (Hp b m E) as [? Hb]. unfold unblocked in Hun.
    rewrite E in Hun. specialize (Hb Hun). lia.
Qed.

(** While a read transaction that saw everything folded stays open, nothing
    more is folded, so a commit keeps the log from being restarted. *)
Definition anchored (v : wal_state) (k : nat) : Prop :=
  ∃ b m, ws_pin v = Some (b, m) ∧ ws_folded v = m ∧ ws_synced v = true ∧ (m <= k)%nat.

Lemma env_anchored v v' k : anchored v k → env_step ps v v' → anchored v' k.
Proof.
  intros (b & m & Ep & Ef & Ey & Hk) Hst. exists b, m. rewrite (env_pin v v' Hst). split; [done|].
  destruct Hst as [| |n b' (Hlim & _ & _ & Hb)|E Hun]; cbn; [done..| |].
  - unfold fold_limit in *. rewrite Ep in *. rewrite Hb by done. split_and!; [lia|done..].
  - split; [lia|done].
Qed.

(** A step that starts a generation or empties the log. *)
Lemma env_generation v v' : wal_wf ps v → env_step ps v v' →
  (ws_hdr v' = ws_hdr v ∧ ws_start v' = ws_start v) ∨
  (ws_folded v = ws_total v ∧ ws_start v' = ws_total v ∧ ws_hist v' = ws_hist v ∧
   (∀ h, ws_hdr v' = Some h → salts h ∉ ws_used v)).
Proof. intros Hwf []; cbn; [by left| |by left|]; right; split_and!; try done; intros ? [= <-]; done. Qed.

Lemma env_used v v' : env_step ps v v' → ws_used v ⊆ ws_used v'.
Proof. intros []; cbn; set_solver. Qed.

(** ** The reader's place in the log *)

Definition log_upto (v : wal_state) (k : nat) : list pageWrite := concat (take (k - ws_start v) (ws_log v)).

Definition reader_in (v : wal_state) (h : Header) (k : nat) : Reader :=
  reader_at h (HeaderSize + N.of_nat (length (log_upto v k)) * FrameSize h) (run_sum h (seed h) (log_upto v k)).

(** The reader is bound to the current generation, after transaction [k]. *)
Definition live (r : Reader) (v : wal_state) (k : nat) : Prop :=
  ∃ h, ws_hdr v = Some h ∧ (ws_start v <= k <= ws_total v)%nat ∧ r = reader_in v h k.

(** The reader is bound to a generation that is not the log's any more. *)
Definition stale (r : Reader) (v : wal_state) : Prop :=
  rd_bound r = true ∧ (rd_salt1 r, rd_salt2 r) ∈ ws_used v ∧
  ∀ h, ws_hdr v = Some h → salts h ≠ (rd_salt1 r, rd_salt2 r).

Lemma log_upto_start v : log_upto v (ws_start v) = [].
Proof. unfold log_upto. by rewrite Nat.sub_diag. Qed.

Lemma log_upto_all v : log_upto v (ws_total v) = concat (ws_log v).
Proof.
  unfold log_upto, ws_log, ws_total. rewrite take_ge; [done|]. rewrite length_drop. lia.
Qed.

Lemma log_upto_S v k tx : (ws_start v <= k)%nat → ws_hist v !! k = Some tx →
  log_upto v (S k) = (log_upto v k ++ tx)%list.
Proof.
  intros Hk Htx. unfold log_upto. replace (S k - ws_start v)%nat with (S (k - ws_start v)) by lia.
  rewrite (take_S_r _ _ tx).
  - rewrite concat_app. cbn. by rewrite app_nil_r.
  - unfold ws_log. rewrite lookup_drop. by replace (ws_start v + (k - ws_start v))%nat with k by lia.
Qed.

Lemma log_split v k tx : (ws_start v <= k)%nat → ws_hist v !! k = Some tx →
  ∃ rest, concat (ws_log v) = (log_upto v k ++ tx ++ rest)%list.
Proof.
  intros Hk Htx. exists (concat (drop (S k - ws_start v) (ws_log v))).
  rewrite app_assoc, <-(log_upto_S v k tx Hk Htx). unfold log_upto. by rewrite <-concat_app, take_drop.
Qed.

Lemma log_upto_extend v v' k : ws_start v' = ws_start v → ws_hist v `prefix_of` ws_hist v' →
  (k <= ws_total v)%nat → log_upto v' k = log_upto v k.
Proof.
  intros Es [l Hl] Hk. unfold log_upto, ws_log, ws_total in *. rewrite Es, Hl.
  destruct (decide (ws_start v <= k)%nat); [|by replace (k - ws_start v)%nat with 0%nat by lia].
  rewrite drop_app_le by lia. rewrite take_app_le; [done|]. rewrite length_drop. lia.
Qed.

Lemma log_upto_lt v j k : wal_wf ps v → (ws_start v <= j < k)%nat → (k <= ws_total v)%nat →
  (length (log_upto v j) < length (log_upto v k))%nat.
Proof.
  intros Hwf Hj Hk. induction k as [|k IH]; [lia|].
  destruct (lookup_lt_is_Some_2 (ws_hist v) k) as [tx Htx]; [unfold ws_total in Hk; lia|].
  rewrite (log_upto_S v k tx) by (done || lia). rewrite length_app.
  pose proof (ww_txs _ _ Hwf) as Ht. rewrite Forall_forall in Ht.
  assert (1 <= length tx)%nat.
  { apply (tx_ok_nonnil (mkHeader 0 0 ps 0 0 0 0 0)). apply Ht; [|done]. by eapply list_elem_of_lookup_2. }
  destruct (decide (j = k)) as [->|]; [lia|]. assert (length (log_upto v j) < length (log_upto v k))%nat by (apply IH; lia). lia.
Qed.

(** ** How the other connections' steps move a reader *)

Lemma live_bound v h k : hdr_ok h → rd_bound (reader_in v h k) = true ∧ (rd_salt1 (reader_in v h k), rd_salt2 (reader_in v h k)) = salts h.
Proof. done. Qed.

Lemma live_same r v v' k : extends v v' → ws_hdr v' = ws_hdr v → ws_start v' = ws_start v → live r v k → live r v' k.
Proof.
  intros Hx Eh Es (h & E & Hk & ->). exists h. rewrite Eh, Es. pose proof (extends_total v v' Hx).
  split_and!; [done|lia|lia|]. unfold reader_in. by rewrite (log_upto_extend v v' k Es (proj2 Hx)) by lia.
Qed.

Lemma env_live r v v' k : wal_wf ps v → live r v k → env_step ps v v' →
  live r v' k ∨
  (stale r v' ∧ ws_folded v = ws_total v ∧ ws_start v' = ws_total v ∧ ws_hist v' = ws_hist v).
Proof.
  intros Hwf Hl Hst. destruct (env_generation v v' Hwf Hst) as [[Eh Es]|(Ef & Es & Ehist & Hnew)].
  - left. by eapply live_same; [by apply env_extends| | |].
  - right. split_and!; [|done..]. destruct Hl as (h & E & _ & ->).
    destruct (ww_hdr _ _ Hwf h E) as (Hok & _ & Hin).
    split; [done|]. split; [by apply (env_used v v' Hst)|]. intros h' E' Hs. apply (Hnew h' E'). by rewrite Hs.
Qed.

Lemma env_stale r v v' : wal_wf ps v → stale r v → env_step ps v v' → stale r v'.
Proof.
  intros Hwf (Hb & Hin & Hne) Hst. split; [done|]. split; [by apply (env_used v v' Hst)|].
  destruct (env_generation v v' Hwf Hst) as [[Eh Es]|(Ef & Es & Ehist & Hnew)]; [by rewrite Eh|].
  intros h' E' Hs. apply (Hnew h' E'). by rewrite Hs.
Qed.

(** ** Polling the log file *)

Lemma Next_none v f r : ws_hdr v = None → wal_file v f → Next f r = (Ok [], r).
Proof.
  intros E. unfold wal_file. rewrite E. unfold Next.
  intros [(e & -> & He)|(b & -> & [Hr|(hb & e & Hr & Hp)])]; [by rewrite He|by rewrite Hr|by rewrite Hr, Hp].
Qed.

Lemma Next_stale v f r h : wal_wf ps v → ws_hdr v = Some h → wal_file v f → stale r v →
  Next f r = (Err [EWALRestarted], r).
Proof.
  intros Hwf E Hf (Hb & _ & Hne). unfold wal_file in Hf. rewrite E in Hf. destruct Hf as (rest & -> & _).
  destruct (ww_hdr _ _ Hwf h E) as (Hok & _).
  unfold Next. rewrite ReadAt_header, ParseHeader_bytes by done. unfold bind_header. rewrite Hb. cbn [negb].
  specialize (Hne h E). unfold salts in Hne.
  destruct (N.eqb_spec (wh_salt1 h) (rd_salt1 r)), (N.eqb_spec (wh_salt2 h) (rd_salt2 r)); [congruence|done..].
Qed.

Lemma Next_fresh v f h : wal_wf ps v → ws_hdr v = Some h → wal_file v f →
  Next f NewReader = Next f (reader_in v h (ws_start v)).
Proof.
  intros Hwf E Hf. unfold wal_file in Hf. rewrite E in Hf. destruct Hf as (rest & -> & _).
  destruct (ww_hdr _ _ Hwf h E) as (Hok & _).
  rewrite (Next_new h _ _ Hok eq_refl). unfold reader_in. rewrite log_upto_start. cbn [length run_sum].
  by rewrite N.mul_0_l, N.add_0_r.
Qed.

Lemma Next_end v f h : wal_wf ps v → ws_hdr v = Some h → wal_file v f →
  Next f (reader_in v h (ws_total v)) = (Ok [], reader_in v h (ws_total v)).
Proof.
  intros Hwf E Hf. unfold wal_file in Hf. rewrite E in Hf. destruct Hf as (rest & -> & Hend).
  destruct (ww_hdr _ _ Hwf h E) as (Hok & _). unfold reader_in. rewrite log_upto_all.
  rewrite (Next_at h _ _ _ _ Hok eq_refl). unfold ws_frames in Hend. by rewrite Hend.
Qed.

Lemma Next_tx v f h k tx : wal_wf ps v → ws_hdr v = Some h → wal_file v f →
  (ws_start v <= k)%nat → ws_hist v !! k = Some tx →
  Next f (reader_in v h k) = (Ok (run_frames h (run_sum h (seed h) (log_upto v k)) tx), reader_in v h (S k)).
Proof.
  intros Hwf E Hf Hk Htx. unfold wal_file in Hf. rewrite E in Hf. destruct Hf as (rest & -> & _).
  destruct (ww_hdr _ _ Hwf h E) as (Hok & Eps & _).
  pose proof (ww_txs _ _ Hwf) as Hall. rewrite Forall_forall in Hall.
  assert (Forall (write_ok h) (concat (ws_log v))) as Hwo.
  { rewrite Forall_concat. apply Forall_drop. apply Forall_forall. intros t Ht.
    destruct (Hall t Ht h Eps) as (? & ? & _ & ? & _). done. }
  destruct (log_split v k tx Hk Htx) as [rest' Hsplit]. rewrite Hsplit in Hwo.
  apply Forall_app in Hwo as [Hwo1 _].
  unfold reader_in. rewrite (Next_at h _ _ _ _ Hok eq_refl).
  rewrite (next_tx _ h _ _ tx (run_bytes h (run_sum h (seed h) (log_upto v k ++ tx)) rest' ++ rest)).
  - rewrite (log_upto_S v k tx Hk Htx), run_sum_app, length_app. f_equal. unfold reader_at. f_equal. lia.
  - done.
  - apply (Hall tx); [by eapply list_elem_of_lookup_2|done].
  - by apply run_sum_u32, hdr_seed_u32.
  - rewrite Hsplit, !run_bytes_app, run_sum_app, <-!app_assoc.
    eapply (drop_next _ HeaderSize); [apply drop_header|]. rewrite length_run_bytes by done. nia.
Qed.
End view.
