(* ===== verification/Capture.v ===== *)
(** * The capture engine

    [internal/capture/engine.go] and [state.go]: the engine that follows the
    log of a database other connections write, applies each committed
    transaction to a sink, and takes over the checkpoints.  Its operations are
    programs over the engine's fields and the world it calls: the database
    ([WalDb]), the sink ([Sink]), the state file, clocks and contexts.  Other
    connections move before every call, as the schedule says; the schedule
    also decides which calls fail, when a deadline has passed and when a
    context is done.  One goroutine ([Run]) owns all of this state, so a
    request of [DrainNow] is a call of [serviceReq] between two polls.
    Each read of a file is one moment: [Reader.Next] reads the log in one
    step, [copySrc] and [hashSrc] one buffer of the main file per step. *)
From Stdlib Require Import Strings.Byte.
From S2P Require Import Prelude Files Wal Session WalDb.
Local Open Scope N_scope.

(** ** The sink *)

(** [sink_choice] is what is not the engine's doing: a local I/O fault, what
    others did to the sink before the call. *)
Class Sink (S : Type) := {
  sink_choice : Type;
  sink_apply : sink_choice → N → list Frame → S → res unit * S;
  sink_rebase : sink_choice → bytes → S → res unit * S }.

(** ** State *)

(** The resume checkpoint, and what of it a file not yet written stands for. *)
Record State := mkState {
  st_Off : N; st_Salt1 : N; st_Salt2 : N; st_Clean : bool; st_MainHash : string }.

Definition zeroState : State := mkState 0 0 0 false "".

Record Engine := mkEngine {
  e_inTx : bool;
  e_reader : Reader;
  e_pageSize : N;
  e_rebased : N;
  e_takeovers : N;
  e_consumed : N;
  e_deadTail : N;
  e_captured : N;
  e_resumed : bool;
  e_expectRestart : bool;
  e_pendState : State;
  e_stateDirty : bool;
  e_offsetSaves : N }.

(** A Go [Engine] starts with a nil reader; every path that polls has set it. *)
Definition NewEngine : Engine :=
  mkEngine false NewReader 0 0 0 0 0 0 false false zeroState false 0.

(** The calls, as the schedule tells them apart. *)
Inductive call :=
  | CTick | CBegin | CEnd | CRestart | CTruncate | CWal | CWalCheck | CStat
  | CMainSize | CMainRead | CLoad | CSave | CApply | CRebase | CClock | CCtx | COpen.

(** A history variable for stating what a schedule may do: where the engine
    stands between reading the log, checkpointing it and locking it again. *)
Inductive window := WOpen | WPolled | WSealed | WChecked.

#[global] Instance call_eq_dec : EqDecision call.
Proof. solve_decision. Defined.
#[global] Instance window_eq_dec : EqDecision window.
Proof. solve_decision. Defined.

Section capture.
Context {D S : Type} `{WalDb D} `{Sink S}.

Record choice := mkChoice {
  ch_env : db_choice (D:=D);    (* what other connections do before the call *)
  ch_op : db_choice (D:=D);     (* the choice the database makes in the call *)
  ch_sink : sink_choice (S:=S); (* and what the sink makes of it *)
  ch_fail : bool;               (* the call fails, where it can *)
  ch_flag : bool }.             (* a clock: late; a context: done; a failed save: replaced *)

Definition schedule : Type := nat → window → call → choice.

Record sys := mkSys {
  s_eng : Engine;
  s_db : D;
  s_sink : S;
  s_state : option State;   (* the state file; None when absent or corrupt *)
  s_now : nat;              (* calls made *)
  s_window : window }.

Definition EM (A : Type) : Type := sys → res A * sys.

#[global] Instance em_ret : MRet EM := λ A a s, (Ok a, s).
#[global] Instance em_bind : MBind EM := λ A B f m s,
  let '(r, s) := m s in match r with Ok a => f a s | Err e => (Err e, s) end.

Definition fail {A} (e : error) : EM A := λ s, (Err e, s).
Definition try {A} (m : EM A) : EM (res A) := λ s, let '(r, s) := m s in (Ok r, s).
Definition lift {A} (r : res A) : EM A := λ s, (r, s).

Definition gets {A} (f : sys → A) : EM A := λ s, (Ok (f s), s).
Definition eng {A} (f : Engine → A) : EM A := gets (λ s, f (s_eng s)).
Definition set_eng (f : Engine → Engine) : EM unit := λ s,
  (Ok tt, mkSys (f (s_eng s)) (s_db s) (s_sink s) (s_state s) (s_now s) (s_window s)).
Definition set_window (w : window) : EM unit := λ s,
  (Ok tt, mkSys (s_eng s) (s_db s) (s_sink s) (s_state s) (s_now s) w).

(** A call on the database, the sink or the state file. *)
Definition on_db {A} (f : D → A * D) : EM A := λ s,
  let '(a, d) := f (s_db s) in (Ok a, mkSys (s_eng s) d (s_sink s) (s_state s) (s_now s) (s_window s)).
Definition on_sink {A} (f : S → A * S) : EM A := λ s,
  let '(a, k) := f (s_sink s) in (Ok a, mkSys (s_eng s) (s_db s) k (s_state s) (s_now s) (s_window s)).
Definition put_state (st : option State) : EM unit := λ s,
  (Ok tt, mkSys (s_eng s) (s_db s) (s_sink s) st (s_now s) (s_window s)).

(** ** Field updates *)

Definition set_inTx b e := mkEngine b (e_reader e) (e_pageSize e) (e_rebased e) (e_takeovers e) (e_consumed e)
  (e_deadTail e) (e_captured e) (e_resumed e) (e_expectRestart e) (e_pendState e) (e_stateDirty e) (e_offsetSaves e).
Definition set_reader r e := mkEngine (e_inTx e) r (e_pageSize e) (e_rebased e) (e_takeovers e) (e_consumed e)
  (e_deadTail e) (e_captured e) (e_resumed e) (e_expectRestart e) (e_pendState e) (e_stateDirty e) (e_offsetSaves e).
Definition set_pageSize n e := mkEngine (e_inTx e) (e_reader e) n (e_rebased e) (e_takeovers e) (e_consumed e)
  (e_deadTail e) (e_captured e) (e_resumed e) (e_expectRestart e) (e_pendState e) (e_stateDirty e) (e_offsetSaves e).
Definition set_rebased n e := mkEngine (e_inTx e) (e_reader e) (e_pageSize e) n (e_takeovers e) (e_consumed e)
  (e_deadTail e) (e_captured e) (e_resumed e) (e_expectRestart e) (e_pendState e) (e_stateDirty e) (e_offsetSaves e).
Definition set_takeovers n e := mkEngine (e_inTx e) (e_reader e) (e_pageSize e) (e_rebased e) n (e_consumed e)
  (e_deadTail e) (e_captured e) (e_resumed e) (e_expectRestart e) (e_pendState e) (e_stateDirty e) (e_offsetSaves e).
Definition set_consumed n e := mkEngine (e_inTx e) (e_reader e) (e_pageSize e) (e_rebased e) (e_takeovers e) n
  (e_deadTail e) (e_captured e) (e_resumed e) (e_expectRestart e) (e_pendState e) (e_stateDirty e) (e_offsetSaves e).
Definition set_deadTail n e := mkEngine (e_inTx e) (e_reader e) (e_pageSize e) (e_rebased e) (e_takeovers e)
  (e_consumed e) n (e_captured e) (e_resumed e) (e_expectRestart e) (e_pendState e) (e_stateDirty e) (e_offsetSaves e).
Definition set_captured n e := mkEngine (e_inTx e) (e_reader e) (e_pageSize e) (e_rebased e) (e_takeovers e)
  (e_consumed e) (e_deadTail e) n (e_resumed e) (e_expectRestart e) (e_pendState e) (e_stateDirty e) (e_offsetSaves e).
Definition set_resumed b e := mkEngine (e_inTx e) (e_reader e) (e_pageSize e) (e_rebased e) (e_takeovers e)
  (e_consumed e) (e_deadTail e) (e_captured e) b (e_expectRestart e) (e_pendState e) (e_stateDirty e) (e_offsetSaves e).
Definition set_expectRestart b e := mkEngine (e_inTx e) (e_reader e) (e_pageSize e) (e_rebased e) (e_takeovers e)
  (e_consumed e) (e_deadTail e) (e_captured e) (e_resumed e) b (e_pendState e) (e_stateDirty e) (e_offsetSaves e).
Definition set_pend st dirty e := mkEngine (e_inTx e) (e_reader e) (e_pageSize e) (e_rebased e) (e_takeovers e)
  (e_consumed e) (e_deadTail e) (e_captured e) (e_resumed e) (e_expectRestart e) st dirty (e_offsetSaves e).
Definition set_offsetSaves n e := mkEngine (e_inTx e) (e_reader e) (e_pageSize e) (e_rebased e) (e_takeovers e)
  (e_consumed e) (e_deadTail e) (e_captured e) (e_resumed e) (e_expectRestart e) (e_pendState e) (e_stateDirty e) n.

(** ** The engine

    [sched] is the environment, [dbPageSize] what PRAGMA page_size answers,
    [sha256] the hex digest, [copyBuf] the size of [io.Copy]'s buffer (any
    positive size), and [fuel] bounds the loops that run until a deadline. *)
Context (sched : schedule) (dbPageSize : N) (sha256 : bytes → string) (copyBuf fuel : nat).

(** Make a call: the others move first. *)
Definition ext (c : call) : EM choice := λ s,
  let ch := sched (s_now s) (s_window s) c in
  (Ok ch, mkSys (s_eng s) (db_env (ch_env ch) (s_db s)) (s_sink s) (s_state s) (Datatypes.S (s_now s)) (s_window s)).

(** A call that may fail with an I/O error. *)
Definition ext_io (c : call) : EM choice :=
  ch ← ext c;
  if ch_fail ch then fail [EIO] else mret ch.

(** [time.Now().After(deadline)], and [time.Since(idle) > takeoverIdleAfter]. *)
Definition late : EM bool := ch ← ext CClock; mret (ch_flag ch).

(** [ctx.Err()], and whether [ctx.Done()] won a select. *)
Definition ctx_Err : EM bool := ch ← ext CCtx; mret (ch_flag ch).

(** ** The state file *)

(** A corrupt file reads as absent. *)
Definition LoadState : EM (option State) :=
  _ ← ext_io CLoad;
  gets s_state.

(** Write, fsync, rename, sync the directory: on failure the rename may or may
    not have happened. *)
Definition SaveState (st : State) : EM unit :=
  ch ← ext CSave;
  if ch_fail ch then
    _ ← (if ch_flag ch then put_state (Some st) else mret tt);
    fail [EIO]
  else put_state (Some st).

Definition persistConsumed : EM unit :=
  dirty ← eng e_stateDirty;
  if negb dirty then mret tt else
  st ← eng e_pendState;
  _ ← SaveState st;
  _ ← set_eng (λ e, set_offsetSaves (e_offsetSaves e + 1) e);
  set_eng (λ e, set_pend (e_pendState e) false e).

Definition clearPendState : EM unit := set_eng (set_pend zeroState false).

(** ** The files *)

(** [os.Stat] of the -wal file, by its size. *)
Definition stat_wal : EM N :=
  _ ← ext_io CStat;
  file ← gets (λ s, db_wal (s_db s));
  lift ((λ b : bytes, N.of_nat (length b)) <$> file).

Definition read_wal (c : call) : EM bytes :=
  _ ← ext_io c;
  file ← gets (λ s, db_wal (s_db s));
  lift file.

Definition main_size : EM nat :=
  _ ← ext_io CMainSize;
  gets (λ s, length (db_main (s_db s))).

(** The copy loop over a section of [size] bytes from [off]: a read that comes
    short is the end of the file. *)
Fixpoint read_section (n : nat) (off size : nat) (acc : bytes) : EM bytes :=
  match n with
  | O => fail [EFuel]
  | Datatypes.S n =>
      if (size <=? off)%nat then mret acc else
      _ ← ext_io CMainRead;
      chunk ← gets (λ s, take (min copyBuf (size - off)) (drop off (db_main (s_db s))));
      let acc := (acc ++ chunk)%list in
      if (length chunk <? min copyBuf (size - off))%nat then mret acc
      else read_section n (off + length chunk) size acc
  end.

(** The main file through [srcReader]; each round reads at least a byte. *)
Definition copySrc : EM bytes :=
  size ← main_size;
  read_section (Datatypes.S size) 0 size [].

Definition hashSrc : EM string := file ← copySrc; mret (sha256 file).

(** ** The read transaction *)

Definition beginRead : EM unit :=
  inTx ← eng e_inTx;
  if inTx : bool then mret tt else
  ch ← ext CBegin;
  r ← on_db (db_begin (ch_op ch));
  match r with
  | Err e => fail e
  | Ok _ => _ ← set_window WOpen; set_eng (set_inTx true)
  end.

(** The COMMIT's error is ignored. *)
Definition endRead : EM unit :=
  inTx ← eng e_inTx;
  if inTx : bool then
    ch ← ext CEnd;
    _ ← on_db (λ d, (tt, db_end (ch_op ch) d));
    set_eng (set_inTx false)
  else mret tt.

Fixpoint beginReadRetry_loop (n : nat) : EM unit :=
  match n with
  | O => fail [EFuel]
  | Datatypes.S n =>
      r ← try beginRead;
      match r with
      | Ok _ => mret tt
      | Err e =>
          cancelled ← ctx_Err;
          if cancelled : bool then fail [ECanceled] else
          expired ← late;
          if expired : bool then fail e else
          cancelled ← ctx_Err;
          if cancelled : bool then fail [ECanceled] else
          beginReadRetry_loop n
      end
  end.

Definition beginReadRetry : EM unit := beginReadRetry_loop fuel.

(** ** Checkpoints *)

Definition ckpt_call (mode : ckpt_mode) : call := match mode with RESTART => CRestart | TRUNCATE => CTruncate end.

Definition pragma_checkpoint (mode : ckpt_mode) : EM N :=
  ch ← ext (ckpt_call mode);
  r ← on_db (db_checkpoint (ch_op ch) mode);
  match r with
  | Ok n => _ ← set_window WSealed; mret n
  | Err e => fail e
  end.

Fixpoint checkpoint_loop (n : nat) (mode : ckpt_mode) : EM N :=
  match n with
  | O => fail [EFuel]
  | Datatypes.S n =>
      cancelled ← ctx_Err;
      if cancelled : bool then fail [ECanceled] else
      r ← try (pragma_checkpoint mode);
      match r with
      | Ok logN => mret logN
      | Err e =>
          expired ← late;
          if expired : bool then fail e else
          cancelled ← ctx_Err;
          if cancelled : bool then fail [ECanceled] else
          checkpoint_loop n mode
      end
  end.

Definition checkpoint (mode : ckpt_mode) : EM N := checkpoint_loop fuel mode.

(** ** Draining *)

(** One call of [Reader.Next]: it moves the reader whether or not the caller
    then succeeds. *)
Definition reader_Next : EM (list Frame) :=
  file ← try (read_wal CWal);
  _ ← set_window WPolled;
  rd ← eng e_reader;
  let '(r, rd) := Next file rd in
  _ ← set_eng (set_reader rd);
  lift r.

Definition Sink_Apply (ps : N) (frames : list Frame) : EM unit :=
  ch ← ext CApply;
  r ← on_sink (sink_apply (ch_sink ch) ps frames);
  lift r.

Definition Sink_Rebase (snapshot : bytes) : EM unit :=
  ch ← ext CRebase;
  r ← on_sink (sink_rebase (ch_sink ch) snapshot);
  lift r.

(** No frames: nothing further is immediately available. *)
Definition drainStep : EM (list Frame) :=
  frames ← reader_Next;
  if bool_decide (frames = []) then mret [] else
  rd ← eng e_reader;
  ps ← eng e_pageSize;
  if negb (wh_page_size (rd_hdr rd) =? ps) then fail [EPageSize] else
  _ ← Sink_Apply ps frames;
  _ ← set_eng (set_consumed (rd_off rd));
  _ ← set_eng (set_pend (mkState (rd_off rd) (rd_salt1 rd) (rd_salt2 rd) false "") true);
  mret frames.

Fixpoint drain_loop (fuel : nat) (n : N) : EM N :=
  match fuel with
  | O => fail [EFuel]
  | Datatypes.S fuel =>
      expired ← late;
      if expired : bool then mret n else
      frames ← drainStep;
      if bool_decide (frames = []) then mret n else drain_loop fuel (n + 1)
  end.

Definition drain : EM N := drain_loop fuel 0.

Fixpoint drainUntil_loop (fuel : nat) (target n : N) : EM N :=
  match fuel with
  | O => fail [EFuel]
  | Datatypes.S fuel =>
      expired ← late;
      if expired : bool then fail [EDrainIncomplete] else
      frames ← drainStep;
      let n := if bool_decide (frames = []) then n else n + 1 in
      rd ← eng e_reader;
      if target <=? rd_off rd then mret n
      else if bool_decide (frames = []) then mret n
      else drainUntil_loop fuel target n
  end.

Definition drainUntil (target : N) : EM N := drainUntil_loop fuel target 0.

Definition drainTarget : EM N :=
  r ← try stat_wal;
  match r with
  | Ok n => mret n
  | Err e => if errors_Is e ErrNotFound then mret 0 else fail e
  end.

Definition armDeadTailBaseline : EM unit :=
  r ← try stat_wal;
  set_eng (set_deadTail (match r with Ok n => n | Err _ => 0 end)).

(** [Lag]: the two loads are of one moment, the stat of a later one. *)
Definition Lag : EM N :=
  consumed ← eng e_consumed;
  deadTail ← eng e_deadTail;
  r ← try stat_wal;
  mret (match r with Ok n => n - N.max consumed deadTail | Err _ => 0 end).

(** ** Rebase and takeover *)

Definition rebase : EM unit :=
  _ ← set_eng (set_expectRestart false);
  _ ← endRead;
  _ ← checkpoint TRUNCATE;
  _ ← beginRead;
  snapshot ← copySrc;
  _ ← Sink_Rebase snapshot;
  _ ← set_eng (λ e, set_captured 0 (set_rebased (e_rebased e + 1) (set_deadTail 0 (set_consumed 0 (set_reader NewReader e)))));
  _ ← clearPendState;
  SaveState zeroState.

(** Frames consumed of the reader's generation. *)
Definition consumed_frames (e : Engine) : N :=
  let off := rd_off (e_reader e) in
  if off =? 0 then 0 else (off - HeaderSize) / (FrameHeaderSize + e_pageSize e).

Definition takeover : EM unit :=
  consumed ← eng consumed_frames;
  _ ← set_eng (set_expectRestart false);
  _ ← endRead;
  r ← try (checkpoint RESTART);
  match r with
  | Err _ => beginReadRetry
  | Ok logN =>
      _ ← set_eng (λ e, set_takeovers (e_takeovers e + 1) e);
      if negb (logN =? consumed) then rebase else
      _ ← set_eng (set_captured 0);
      _ ← beginReadRetry;
      set_eng (set_expectRestart true)
  end.

Definition takeoverFrameThreshold : N := 64.

Definition afterDrain (n : N) : EM unit :=
  _ ← persistConsumed;
  _ ← (if 0 <? n then set_eng (λ e, set_captured (e_captured e + n) e) else mret tt);
  captured ← eng e_captured;
  due ← (if takeoverFrameThreshold <=? captured then mret true
         else if 0 <? captured then late else mret false);
  if due : bool then
    r ← try takeover;
    match r with
    | Ok _ => mret tt
    | Err e => cancelled ← ctx_Err; if cancelled : bool then mret tt else fail e
    end
  else mret tt.

(** ** Polls *)

Definition try_rebase : EM unit :=
  r ← try rebase;
  match r with
  | Ok _ => mret tt
  | Err e => cancelled ← ctx_Err; if cancelled : bool then mret tt else fail e
  end.

(** The reader on the generation that continues the one taken over. *)
Definition continue_reader : EM unit :=
  _ ← set_eng (λ e, set_consumed 0 (set_reader NewReader (set_expectRestart false e)));
  clearPendState.

(** The poll compares the error with [wal.ErrWALRestarted] itself. *)
Definition is_restarted {A} (r : res A) : bool :=
  match r with Err e => bool_decide (e = [EWALRestarted]) | Ok _ => false end.

Definition pollOnce : EM unit :=
  r ← try drain;
  if is_restarted r then
    expected ← eng e_expectRestart;
    if expected : bool then
      _ ← continue_reader;
      _ ← armDeadTailBaseline;
      set_eng (set_captured 0)
    else try_rebase
  else
    match r with Err e => fail e | Ok n => afterDrain n end.

(** The loop of [pollOnceTo] takes one more round per expected restart, and
    the first of them clears the expectation: two rounds are enough. *)
Fixpoint pollOnceTo_loop (rounds : nat) (target : N) : EM unit :=
  match rounds with
  | O => fail [EFuel]
  | Datatypes.S rounds =>
      r ← try (drainUntil target);
      if is_restarted r then
        expected ← eng e_expectRestart;
        if expected : bool then
          _ ← continue_reader;
          _ ← set_eng (set_captured 0);
          newTarget ← drainTarget;
          _ ← set_eng (set_deadTail newTarget);
          pollOnceTo_loop rounds newTarget
        else try_rebase
      else
        match r with Err e => fail e | Ok n => afterDrain n end
  end.

Definition pollOnceTo (target : N) : EM unit := pollOnceTo_loop 2 target.

(** The error of either step goes to the requester and stops [Run]. *)
Definition serviceReq : EM unit :=
  target ← drainTarget;
  pollOnceTo target.

(** ** Resume and shutdown *)

Definition tryResume : EM bool :=
  st ← LoadState;
  match st with
  | None => mret false
  | Some st =>
      if negb (st_Clean st) then mret false else
      _ ← beginRead;
      fi ← try stat_wal;
      if match fi with Ok size => HeaderSize <=? size | Err e => negb (errors_Is e ErrNotFound) end
      then _ ← endRead; mret false
      else
        hash ← try hashSrc;
        match hash with
        | Err _ => _ ← endRead; mret false
        | Ok hash =>
            if bool_decide (hash ≠ st_MainHash st) then _ ← endRead; mret false
            else
              _ ← set_eng (λ e, set_resumed true (set_expectRestart false (set_rebased 0 (set_captured 0
                    (set_deadTail 0 (set_consumed 0 (set_reader NewReader e)))))));
              mret true
        end
  end.

Definition walRacedSinceRestart (consumed : N) : EM bool :=
  rd ← eng e_reader;
  r ← try (read_wal CWalCheck);
  _ ← set_window WChecked;
  match r with
  | Err e => if errors_Is e ErrNotFound then mret false else fail e
  | Ok b =>
      if N.of_nat (length b) <? HeaderSize then mret false else
      match ParseHeader (take (N.to_nat HeaderSize) b) with
      | Err _ => mret true
      | Ok hdr =>
          if negb (wh_salt1 hdr =? rd_salt1 rd) || negb (wh_salt2 hdr =? rd_salt2 rd) then mret true
          else mret (consumed <? (N.of_nat (length b) - HeaderSize) / (FrameHeaderSize + wh_page_size hdr))
      end
  end.

(** The end of [shutdown], from the TRUNCATE on: fingerprint the main file
    under a read lock begun on the emptied log, and mark the state clean. *)
Definition markClean : EM unit :=
  t ← try (checkpoint TRUNCATE);
  if negb (is_ok t) then mret tt else
  b ← try beginRead;
  if negb (is_ok b) then mret tt else
  fi ← try stat_wal;
  if match fi with Ok size => HeaderSize <=? size | Err e => negb (errors_Is e ErrNotFound) end
  then endRead
  else
    hash ← try hashSrc;
    match hash with
    | Err _ => endRead
    | Ok hash =>
        _ ← try (SaveState (mkState 0 0 0 true hash));
        endRead
    end.

(** Its errors are swallowed; the context is its own. *)
Definition shutdown : EM unit :=
  r ← try drain;
  match r with
  | Err _ => _ ← try persistConsumed; endRead
  | Ok _ =>
      _ ← try persistConsumed;
      consumed ← eng consumed_frames;
      _ ← endRead;
      logN ← try (checkpoint RESTART);
      if match logN with Ok logN => negb (logN =? consumed) | Err _ => true end then mret tt else
      raced ← try (walRacedSinceRestart consumed);
      if match raced with Ok raced => raced | Err _ => true end then mret tt else
      markClean
  end.

(** ** Run

    What the select of [Run]'s loop picks: a tick, a request, the context. *)
Inductive event := Tick | Request | Cancel.
Inductive status := Running | Stopped.

Definition handle (ev : event) : EM status :=
  _ ← ext CTick;
  _ ← set_window WOpen;
  match ev with
  | Tick => _ ← pollOnce; mret Running
  | Request => _ ← serviceReq; mret Running
  | Cancel => _ ← shutdown; mret Stopped
  end.

(** The start: a context done while it runs stops the engine without error. *)
Definition startup : EM status :=
  ch ← ext COpen;
  if ch_fail ch then (if ch_flag ch then mret Stopped else fail [EIO]) else
  _ ← set_eng (set_pageSize dbPageSize);
  r ← try tryResume;
  match r with
  | Err e => cancelled ← ctx_Err; if cancelled : bool then mret Stopped else fail e
  | Ok resumed =>
      if resumed : bool then mret Running else
      r ← try rebase;
      match r with
      | Ok _ => mret Running
      | Err e => cancelled ← ctx_Err; if cancelled : bool then mret Stopped else fail e
      end
  end.

Fixpoint run_loop (evs : list event) : EM status :=
  match evs with
  | [] => mret Running
  | ev :: evs =>
      st ← handle ev;
      match st with Running => run_loop evs | Stopped => mret Stopped end
  end.

(** [Run], observed after the events [evs] of its loop. *)
Definition Run (evs : list event) : EM status :=
  st ← startup;
  match st with Running => run_loop evs | Stopped => mret Stopped end.
End capture.
