(* ===== verification/CaptureProps.v ===== *)
(** * The capture engine: what each operation does

    Step by step, for any database and sink that satisfy [WalDbLaws] and
    [SinkLaws]: which calls only let time pass ([moves]), what the reader sees,
    and the invariant [cap_inv k] of the engine: the replica holds exactly the
    first [k] committed transactions, and the reader stands where the next one
    will be read, or will find out that it cannot. *)
From Stdlib Require Import Strings.Byte.
From S2P Require Import Prelude Files Wal WalProps Session WalDb WalDbProps Capture.
Local Open Scope N_scope.

(** ** What a sink promises

    [frames] are those of the transaction after the first [k]. *)
Definition next_tx (ps : N) (v : wal_state) (k : nat) (frames : list Frame) : Prop :=
  ∃ h sm tx, ws_hist v !! k = Some tx ∧ tx_ok h tx ∧ wh_page_size h = ps ∧ frames = run_frames h sm tx.

(** Besides its replica, a sink may keep a state of its own: [sink_good v k],
    what it knows when it holds the first [k] transactions of [v], and
    [sink_start], how the engine may find it. *)
Class SinkLaws (S : Type) `{Sink S} (ps : N) := {
  sink_replica : S → bytes;
  sink_start : S → Prop;
  sink_good : wal_state → nat → S → Prop;
  law_apply fault ps frames s s' : sink_apply fault ps frames s = (Ok tt, s') →
    ReplicaApply ps frames (sink_replica s) = Ok (sink_replica s');
  law_apply_err fault ps frames s e s' : sink_apply fault ps frames s = (Err e, s') → e ≠ [EWALRestarted];
  law_rebase fault file s s' : sink_rebase fault file s = (Ok tt, s') → sink_replica s' = file;
  law_good_extends v v' k s : extends v v' → (k <= ws_total v)%nat → sink_good v k s → sink_good v' k s;
  law_good_start v k s : (k <= ws_total v)%nat → sink_start s → sink_replica s = db_at ps v k → sink_good v k s;
  law_good_apply fault v k frames s s' : next_tx ps v k frames → sink_replica s = db_at ps v k → sink_good v k s →
    sink_apply fault ps frames s = (Ok tt, s') → sink_good v (Datatypes.S k) s';
  law_good_rebase fault v k s s' : (k <= ws_total v)%nat →
    sink_start s ∨ (∃ j, (j <= ws_total v)%nat ∧ sink_good v j s) →
    sink_rebase fault (db_at ps v k) s = (Ok tt, s') → sink_good v k s' }.

Section props.
Context {D S : Type} `{WalDb D} `{Sink S} (ps : N) `{!WalDbLaws D ps} `{!SinkLaws S ps}.
Context (sched : schedule (D:=D) (S:=S)) (sha256 : bytes → string) (copyBuf fuel : nat).

Abbreviation sys := (sys (D:=D) (S:=S)).
Abbreviation EM := (EM (D:=D) (S:=S)).

Definition view (s : sys) : wal_state := db_view (s_db s).
Definition replica (s : sys) : bytes := sink_replica (s_sink s).

(** The sink holds the first [k] transactions; and what a rebase may start from. *)
Definition holds (v : wal_state) (k : nat) (x : S) : Prop := sink_replica x = db_at ps v k ∧ sink_good v k x.
Definition ready (v : wal_state) (x : S) : Prop :=
  sink_start x ∨ ∃ j, (j <= ws_total v)%nat ∧ sink_good v j x.

Lemma holds_extends v v' k x : extends v v' → (k <= ws_total v)%nat → holds v k x → holds v' k x.
Proof.
  intros Hx Hk [Hr Hg]. split; [by rewrite (extends_db_at ps _ _ _ Hx Hk)|]. by eapply law_good_extends.
Qed.

Lemma ready_extends v v' x : extends v v' → ready v x → ready v' x.
Proof.
  intros Hx [Hs|(j & Hj & Hg)]; [by left|right]. exists j. pose proof (extends_total _ _ Hx). split; [lia|].
  by eapply law_good_extends.
Qed.

Lemma holds_ready v k x : (k <= ws_total v)%nat → holds v k x → ready v x.
Proof. intros Hk [_ Hg]. right. by exists k. Qed.

(** ** Programs *)

Lemma em_bind_inv {A B} (m : EM A) (f : A → EM B) s r s' : (m ≫= f) s = (r, s') →
  (∃ a s1, m s = (Ok a, s1) ∧ f a s1 = (r, s')) ∨ (∃ e, m s = (Err e, s') ∧ r = Err e).
Proof. unfold mbind, em_bind. destruct (m s) as [[a|e] s1]; intros; simplify_eq; eauto. Qed.

Lemma em_try_inv {A B} (m : EM A) (f : res A → EM B) s r s' : (try m ≫= f) s = (r, s') →
  ∃ x s1, m s = (x, s1) ∧ f x s1 = (r, s').
Proof. unfold mbind, em_bind, try. destruct (m s) as [x s1]. eauto. Qed.

(** ** Time passes *)

(** The other connections moved. *)
Definition same_gen (v v' : wal_state) : Prop := ws_hdr v' = ws_hdr v ∧ ws_start v' = ws_start v.

(** What a schedule leaves out, in the windows where the engine cannot tell.
    Between the poll that finds nothing more and the RESTART of a takeover no
    new generation starts ([calm_gen]: the engine reads frame counts, which
    do not name a generation).  From a checkpoint to the read transaction begun
    after it nothing is committed ([calm_sealed]; [takeover_gap] is what
    happens otherwise), nor, in a shutdown, from the parse of the log to the
    TRUNCATE ([calm_checked], the residual risk the source documents); what is
    committed between RESTART and that parse is seen by it, unless the log is
    emptied again ([calm_check]).  A deadline is only found passed after the
    log was read ([calm_clock]): a drain reads at least once.  No poll is
    cancelled half way ([calm_ctx]): contexts are done between events. *)
Record calm : Prop := {
  calm_gen n c d : wal_wf ps (db_view d) → c ∉ [CTick; CWal; CStat] →
    same_gen (db_view d) (db_view (db_env (ch_env (sched n WPolled c)) d));
  calm_sealed n c d : wal_wf ps (db_view d) → c ≠ CTick → c ≠ CWalCheck →
    ws_hist (db_view (db_env (ch_env (sched n WSealed c)) d)) = ws_hist (db_view d);
  calm_check n d : wal_wf ps (db_view d) →
    let d' := db_env (ch_env (sched n WSealed CWalCheck)) d in
    ws_hist (db_view d') = ws_hist (db_view d) ∨ ws_hdr (db_view d') ≠ None;
  calm_checked n c d : wal_wf ps (db_view d) → c ≠ CTick →
    ws_hist (db_view (db_env (ch_env (sched n WChecked c)) d)) = ws_hist (db_view d);
  calm_clock n : ch_flag (sched n WOpen CClock) = false;
  calm_ctx n w : ch_flag (sched n w CCtx) = false }.

(** No other connection empties the log: one that is empty after a move was
    empty before it, and nothing was committed. *)
Definition no_truncate : Prop := ∀ n w c d, wal_wf ps (db_view d) →
  let d' := db_env (ch_env (sched n w c)) d in
  ws_hdr (db_view d') = None → ws_hdr (db_view d) = None ∧ ws_hist (db_view d') = ws_hist (db_view d).

Definition env_run (v v' : wal_state) : Prop :=
  rtc (env_step ps) v v' ∧
  (no_truncate → ws_hdr v' = None → ws_hdr v = None ∧ ws_hist v' = ws_hist v).

#[global] Instance env_run_po : PreOrder env_run.
Proof.
  split; [by split|]. intros v1 v2 v3 (E1 & N1) (E2 & N2). split; [by etransitivity|].
  intros Hn Hh. destruct (N2 Hn Hh) as [Hh2 Et]. destruct (N1 Hn Hh2). split; congruence.
Qed.

Lemma law_env_run n w c d : wal_wf ps (db_view d) → env_run (db_view d) (db_view (db_env (ch_env (sched n w c)) d)).
Proof. intros Hwf. split; [apply law_env|]. intros Hn Hh. by apply (Hn n w c d Hwf). Qed.

Definition moved (w : window) (v v' : wal_state) : Prop :=
  env_run v v' ∧ (w = WPolled → same_gen v v') ∧ (w = WSealed ∨ w = WChecked → ws_hist v' = ws_hist v).

#[global] Instance moved_po w : PreOrder (moved w).
Proof.
  split; [by split|]. intros v1 v2 v3 (E1 & G1 & H1) (E2 & G2 & H2). split; [by etransitivity|]. split.
  - intros Hw. destruct (G1 Hw), (G2 Hw). split; congruence.
  - intros Hw. rewrite H2, H1; done.
Qed.

Lemma moved_run w v v' : moved w v v' → env_run v v'.
Proof. by intros []. Qed.

Lemma moved_env w v v' : moved w v v' → rtc (env_step ps) v v'.
Proof. by intros [[]]. Qed.

Lemma rtc_inv (P : wal_state → Prop) v v' :
  (∀ v v', wal_wf ps v → P v → env_step ps v v' → P v') → wal_wf ps v → P v → rtc (env_step ps) v v' → wal_wf ps v' ∧ P v'.
Proof.
  intros Hstep Hwf HP Hr. revert Hwf HP. induction Hr as [|v v1 v2 H1 _ IH]; [done|]. intros Hwf HP.
  apply IH; [by eapply env_wf|by eapply Hstep].
Qed.

Lemma rtc_wf v v' : wal_wf ps v → rtc (env_step ps) v v' → wal_wf ps v'.
Proof. intros Hwf Hr. apply (rtc_inv (λ _, True) v v'); done. Qed.

Lemma rtc_extends v v' : rtc (env_step ps) v v' → extends v v'.
Proof. induction 1 as [|v1 v2 v3 Hst _ IH]; [done|]. etransitivity; [by eapply env_extends|done]. Qed.

Lemma rtc_pin v v' : rtc (env_step ps) v v' → ws_pin v' = ws_pin v.
Proof. induction 1 as [|v1 v2 v3 Hst _ IH]; [done|]. by rewrite IH, (env_pin ps v1 v2 Hst). Qed.

Lemma rtc_anchored v v' k : anchored v k → rtc (env_step ps) v v' → anchored v' k.
Proof. intros Ha Hr. induction Hr; [done|]. eauto using env_anchored. Qed.

(** A call: nothing of the engine changes. *)
Definition moves (s s' : sys) : Prop :=
  s_eng s' = s_eng s ∧ s_sink s' = s_sink s ∧ s_state s' = s_state s ∧ s_window s' = s_window s ∧
  moved (s_window s) (view s) (view s').

#[global] Instance moves_po : PreOrder moves.
Proof.
  split; [by intros s; split_and!|]. intros s1 s2 s3 (E1 & K1 & T1 & W1 & M1) (E2 & K2 & T2 & W2 & M2).
  split_and!; [congruence..|]. etransitivity; [exact M1|]. by rewrite <-W1.
Qed.

Context (Hcalm : calm).

Lemma ext_moves c s r s' : wal_wf ps (view s) → c ∉ [CTick; CWal; CStat; CWalCheck] →
  ext sched c s = (r, s') → moves s s' ∧ r = Ok (sched (s_now s) (s_window s) c).
Proof.
  intros Hwf Hc [= <- <-]. split; [|done]. split_and!; cbn; [done..|]. split; [by apply law_env_run|]. split.
  - intros ->. apply (calm_gen Hcalm); [done|set_solver].
  - intros [->| ->]; [apply (calm_sealed Hcalm)|apply (calm_checked Hcalm)]; (done || set_solver).
Qed.

Lemma ext_io_moves c s r s' : wal_wf ps (view s) → c ∉ [CTick; CWal; CStat; CWalCheck] →
  ext_io sched c s = (r, s') → moves s s'.
Proof.
  intros Hwf Hc HE. unfold ext_io in HE.
  apply em_bind_inv in HE as [(ch & s1 & E & E')|(e & E & _)]; destruct (ext_moves _ _ _ _ Hwf Hc E) as [M _]; [|exact M].
  destruct (ch_fail ch); injection E' as <- <-; exact M.
Qed.

Lemma moves_wf s s' : wal_wf ps (view s) → moves s s' → wal_wf ps (view s').
Proof. intros Hwf (_ & _ & _ & _ & M). eapply rtc_wf; [done|by eapply moved_env]. Qed.

Lemma late_moves s r s' : wal_wf ps (view s) → late sched s = (r, s') →
  moves s s' ∧ ∃ b, r = Ok b ∧ (s_window s = WOpen → b = false).
Proof.
  intros Hwf HE. assert (CClock ∉ [CTick; CWal; CStat; CWalCheck]) as Hc by set_solver.
  apply em_bind_inv in HE as [(ch & s1 & E & [= <- <-])|(e & E & _)];
    destruct (ext_moves _ _ _ _ Hwf Hc E) as [M Er]; [|discriminate Er].
  split; [done|]. exists (ch_flag ch). split; [done|]. intros Hw. injection Er as ->. rewrite Hw. apply (calm_clock Hcalm).
Qed.

Lemma ctx_moves s r s' : wal_wf ps (view s) → ctx_Err sched s = (r, s') → moves s s' ∧ r = Ok false.
Proof.
  intros Hwf HE. assert (CCtx ∉ [CTick; CWal; CStat; CWalCheck]) as Hc by set_solver.
  apply em_bind_inv in HE as [(ch & s1 & E & [= <- <-])|(e & E & _)];
    destruct (ext_moves _ _ _ _ Hwf Hc E) as [M Er]; [|discriminate Er].
  split; [done|]. injection Er as ->. by rewrite (calm_ctx Hcalm).
Qed.

(** ** Reading and saving *)

Definition with_eng (f : Engine → Engine) (s : sys) : sys :=
  mkSys (f (s_eng s)) (s_db s) (s_sink s) (s_state s) (s_now s) (s_window s).

Lemma bind_eng {A B} (f : Engine → A) (k : A → EM B) s : (eng f ≫= k) s = k (f (s_eng s)) s.
Proof. done. Qed.

Lemma bind_set {B} f (k : unit → EM B) s : (set_eng f ≫= k) s = k tt (with_eng f s).
Proof. done. Qed.

(** The state file is written, or the call fails. *)
Lemma SaveState_spec st s r s' : wal_wf ps (view s) → SaveState sched st s = (r, s') →
  s_eng s' = s_eng s ∧ s_sink s' = s_sink s ∧ s_window s' = s_window s ∧ moved (s_window s) (view s) (view s') ∧
  ((r = Ok tt ∧ s_state s' = Some st) ∨
   (r = Err [EIO] ∧ ch_fail (sched (s_now s) (s_window s) CSave) = true)).
Proof.
  intros Hwf HE. assert (CSave ∉ [CTick; CWal; CStat; CWalCheck]) as Hc by set_solver. unfold SaveState in HE.
  apply em_bind_inv in HE as [(ch & s1 & E & E')|(e & E & _)];
    destruct (ext_moves _ _ _ _ Hwf Hc E) as [(M1 & M2 & M3 & M4 & M5) Er]; [|discriminate Er].
  injection Er as ->. destruct (ch_fail _).
  - destruct (ch_flag _); injection E' as <- <-; cbn; split_and!; try done; by right.
  - injection E' as <- <-; cbn; split_and!; try done; by left.
Qed.

(** What a poll keeps of the engine outside the reader. *)
Definition core (e : Engine) : bool * Reader * N * N * bool :=
  (e_inTx e, e_reader e, e_pageSize e, e_captured e, e_expectRestart e).

Lemma persistConsumed_spec s r s' : wal_wf ps (view s) → persistConsumed sched s = (r, s') →
  core (s_eng s') = core (s_eng s) ∧ e_pendState (s_eng s') = e_pendState (s_eng s) ∧
  s_sink s' = s_sink s ∧ s_window s' = s_window s ∧ moved (s_window s) (view s) (view s') ∧
  ((e_stateDirty (s_eng s) = false ∧ s' = s ∧ r = Ok tt) ∨
   (e_stateDirty (s_eng s) = true ∧ r = Ok tt ∧ e_stateDirty (s_eng s') = false ∧
    s_state s' = Some (e_pendState (s_eng s))) ∨
   (e_stateDirty (s_eng s) = true ∧ r = Err [EIO] ∧ ch_fail (sched (s_now s) (s_window s) CSave) = true)).
Proof.
  intros Hwf HE. unfold persistConsumed in HE. rewrite bind_eng in HE.
  destruct (e_stateDirty (s_eng s)) eqn:Ed; cbn [negb] in HE.
  - rewrite bind_eng in HE.
    apply em_bind_inv in HE as [(a & s1 & E & E')|(e & E & ->)];
      destruct (SaveState_spec _ _ _ _ Hwf E) as (M1 & M2 & M3 & M4 & M5).
    + destruct M5 as [(_ & M5)|(? & _)]; [|done].
      rewrite bind_set in E'. unfold set_eng in E'. injection E' as <- <-. cbn. rewrite !M1. cbn.
      split_and!; try done. by right; left.
    + destruct M5 as [(? & _)|([= ->] & M6)]; [done|]. rewrite M1. split_and!; try done. by right; right.
  - injection HE as <- <-. split_and!; try done. by left.
Qed.

(** ** The read transaction *)

Lemma beginRead_spec s r s' : wal_wf ps (view s) → beginRead sched s = (r, s') →
  match r with
  | Err _ => moves s s'
  | Ok _ =>
      (e_inTx (s_eng s) = true ∧ s' = s) ∨
      (e_inTx (s_eng s) = false ∧ s_eng s' = set_inTx true (s_eng s) ∧ s_sink s' = s_sink s ∧
       s_state s' = s_state s ∧ s_window s' = WOpen ∧
       ∃ v1 b, moved (s_window s) (view s) v1 ∧ ws_pin v1 = None ∧ (b = false → ws_folded v1 = ws_total v1) ∧
         view s' = set_pin (Some (b, ws_total v1)) v1)
  end.
Proof.
  intros Hwf HE. assert (CBegin ∉ [CTick; CWal; CStat; CWalCheck]) as Hc by set_solver.
  unfold beginRead in HE. rewrite bind_eng in HE.
  destruct (e_inTx (s_eng s)) eqn:Ei; [injection HE as <- <-; by left|].
  apply em_bind_inv in HE as [(ch & s1 & E & E')|(e & E & _)];
    destruct (ext_moves _ _ _ _ Hwf Hc E) as [M Er]; [|discriminate Er].
  unfold mbind, em_bind, on_db in E'. destruct (db_begin (ch_op ch) (s_db s1)) as [[[]|e] d] eqn:Eb;
    pose proof (law_begin _ _ _ _ Eb) as Hb; injection E' as <- <-.
  - right. destruct M as (M1 & M2 & M3 & M4 & M5). destruct Hb as (Hp & b & Hb & Hv).
    cbn. rewrite M1, M2, M3. split_and!; try done. exists (view s1), b. done.
  - transitivity s1; [done|]. split_and!; cbn; try done. unfold view. cbn. by rewrite Hb.
Qed.

(** The retry loop ends with the transaction begun, or as it started. *)
Lemma beginReadRetry_spec n : ∀ s r s', wal_wf ps (view s) → e_inTx (s_eng s) = false →
  beginReadRetry_loop sched n s = (r, s') →
  match r with
  | Err _ => moves s s'
  | Ok _ =>
      s_eng s' = set_inTx true (s_eng s) ∧ s_sink s' = s_sink s ∧ s_state s' = s_state s ∧ s_window s' = WOpen ∧
      ∃ v1 b, moved (s_window s) (view s) v1 ∧ ws_pin v1 = None ∧ (b = false → ws_folded v1 = ws_total v1) ∧
         view s' = set_pin (Some (b, ws_total v1)) v1
  end.
Proof.
  induction n as [|n IH]; intros s r s' Hwf Hi HE; [injection HE as <- <-; reflexivity|].
  cbn [beginReadRetry_loop] in HE. apply em_try_inv in HE as (x & s1 & E & E').
  pose proof (beginRead_spec _ _ _ Hwf E) as Hb. destruct x as [[]|e].
  - injection E' as <- <-. destruct Hb as [[? _]|(_ & ? & ? & ? & ? & ?)]; [congruence|done].
  - pose proof (moves_wf _ _ Hwf Hb) as Hwf1.
    apply em_bind_inv in E' as [(c & s2 & E2 & E')|(e2 & E2 & _)];
      destruct (ctx_moves _ _ _ Hwf1 E2) as [M2 Er]; [|discriminate Er]. injection Er as ->.
    pose proof (moves_wf _ _ Hwf1 M2) as Hwf2.
    apply em_bind_inv in E' as [(b & s3 & E3 & E')|(e3 & E3 & _)];
      destruct (late_moves _ _ _ Hwf2 E3) as (M3 & b' & Er & _); [|discriminate Er].
    assert (moves s s3) as M by (etransitivity; [exact Hb|]; etransitivity; [exact M2|exact M3]).
    destruct b; [injection E' as <- <-; exact M|].
    pose proof (moves_wf _ _ Hwf M) as Hwf3.
    apply em_bind_inv in E' as [(c & s4 & E4 & E')|(e4 & E4 & _)];
      destruct (ctx_moves _ _ _ Hwf3 E4) as [M4 Er4]; [|discriminate Er4]. injection Er4 as ->.
    assert (moves s s4) as (N1 & N2 & N3 & N4 & N5) by (etransitivity; [exact M|exact M4]).
    assert (moves s s4) as N by done.
    apply IH in E'; [|by eapply moves_wf|by rewrite N1].
    destruct r as [[]|e5]; [|by etransitivity].
    destruct E' as (A1 & A2 & A3 & A4 & v1 & b & A5 & A6 & A7 & A8). rewrite A1, A2, A3, N1, N2, N3.
    split_and!; try done. exists v1, b. split_and!; try done. rewrite N4 in A5. by etransitivity.
Qed.

Lemma endRead_spec s r s' : wal_wf ps (view s) → endRead sched s = (r, s') →
  r = Ok tt ∧ s_eng s' = set_inTx false (s_eng s) ∧ s_sink s' = s_sink s ∧ s_state s' = s_state s ∧
  s_window s' = s_window s ∧
  ∃ v1, moved (s_window s) (view s) v1 ∧ (view s' = v1 ∨ view s' = set_pin None v1).
Proof.
  intros Hwf HE. assert (CEnd ∉ [CTick; CWal; CStat; CWalCheck]) as Hc by set_solver.
  unfold endRead in HE. rewrite bind_eng in HE. destruct (e_inTx (s_eng s)) eqn:Ei.
  - apply em_bind_inv in HE as [(ch & s1 & E & E')|(e & E & _)];
      destruct (ext_moves _ _ _ _ Hwf Hc E) as [(M1 & M2 & M3 & M4 & M5) Er]; [|discriminate Er].
    injection E' as <- <-. cbn. rewrite M1. split_and!; try done. exists (view s1).
    split; [done|]. unfold view. cbn. destruct (law_end (ch_op ch) (s_db s1)) as [->| ->]; [by right|by left].
  - injection HE as <- <-. split_and!; try done; [by destruct (s_eng s); cbn in *; subst|].
    exists (view s). split; [reflexivity|by left].
Qed.

(** ** Checkpoints *)

Definition checkpointed (mode : ckpt_mode) (n : N) (v v' : wal_state) : Prop :=
  ws_pin v = None ∧
  match mode with
  | RESTART => n = ws_frames v ∧ v' = set_folded (ws_total v) true v
  | TRUNCATE => n = 0 ∧ v' = emptied v
  end.

Lemma pragma_spec mode s r s' : wal_wf ps (view s) → pragma_checkpoint sched mode s = (r, s') →
  match r with
  | Ok n => s_eng s' = s_eng s ∧ s_sink s' = s_sink s ∧ s_state s' = s_state s ∧ s_window s' = WSealed ∧
      ∃ v1, moved (s_window s) (view s) v1 ∧ checkpointed mode n v1 (view s')
  | Err _ => moves s s'
  end.
Proof.
  intros Hwf HE. assert (ckpt_call mode ∉ [CTick; CWal; CStat; CWalCheck]) as Hc by (destruct mode; set_solver).
  apply em_bind_inv in HE as [(ch & s1 & E & E')|(e & E & _)];
    destruct (ext_moves _ _ _ _ Hwf Hc E) as [M Er]; [|discriminate Er].
  unfold mbind, em_bind, on_db in E'. destruct (db_checkpoint (ch_op ch) mode (s_db s1)) as [[n|e] d] eqn:Eb;
    pose proof (law_checkpoint _ _ _ _ _ Eb) as Hb; injection E' as <- <-.
  - destruct M as (M1 & M2 & M3 & M4 & M5). cbn. rewrite M1, M2, M3. split_and!; try done.
    exists (view s1). split; [done|exact Hb].
  - transitivity s1; [done|]. split_and!; cbn; try done. unfold view. cbn. destruct Hb as [->|(k & b & Hk & ->)]; [done|].
    split; [|by split]. split; [by apply rtc_once, env_fold|done].
Qed.

Lemma checkpoint_spec n mode : ∀ s r s', wal_wf ps (view s) → checkpoint_loop sched n mode s = (r, s') →
  match r with
  | Ok logN => s_eng s' = s_eng s ∧ s_sink s' = s_sink s ∧ s_state s' = s_state s ∧ s_window s' = WSealed ∧
      ∃ v1, moved (s_window s) (view s) v1 ∧ checkpointed mode logN v1 (view s')
  | Err _ => moves s s'
  end.
Proof.
  induction n as [|n IH]; intros s r s' Hwf HE; [injection HE as <- <-; reflexivity|].
  cbn [checkpoint_loop] in HE.
  apply em_bind_inv in HE as [(c & s1 & E1 & E')|(e1 & E1 & _)];
    destruct (ctx_moves _ _ _ Hwf E1) as [M1 Er]; [|discriminate Er]. injection Er as ->.
  pose proof (moves_wf _ _ Hwf M1) as Hwf1.
  apply em_try_inv in E' as (x & s2 & E2 & E'). pose proof (pragma_spec _ _ _ _ Hwf1 E2) as Hp.
  destruct x as [logN|e].
  - injection E' as <- <-. destruct M1 as (N1 & N2 & N3 & N4 & N5), Hp as (A1 & A2 & A3 & A4 & v1 & A5 & A6).
    rewrite A1, A2, A3, N1, N2, N3. split_and!; try done. exists v1. split; [|done].
    rewrite N4 in A5. by etransitivity.
  - pose proof (moves_wf _ _ Hwf1 Hp) as Hwf2.
    apply em_bind_inv in E' as [(b & s3 & E3 & E')|(e3 & E3 & _)];
      destruct (late_moves _ _ _ Hwf2 E3) as (M3 & b' & Er & _); [|discriminate Er].
    assert (moves s s3) as M by (etransitivity; [exact M1|]; etransitivity; [exact Hp|exact M3]).
    destruct b; [injection E' as <- <-; exact M|].
    pose proof (moves_wf _ _ Hwf M) as Hwf3.
    apply em_bind_inv in E' as [(c & s4 & E4 & E')|(e4 & E4 & _)];
      destruct (ctx_moves _ _ _ Hwf3 E4) as [M4 Er4]; [|discriminate Er4]. injection Er4 as ->.
    assert (moves s s4) as (N1 & N2 & N3 & N4 & N5) by (etransitivity; [exact M|exact M4]).
    assert (moves s s4) as N by done.
    apply IH in E'; [|by eapply moves_wf].
    destruct r as [logN|e5]; [|by etransitivity].
    destruct E' as (A1 & A2 & A3 & A4 & v1 & A5 & A6). rewrite A1, A2, A3, N1, N2, N3.
    split_and!; try done. exists v1. split; [|done]. rewrite N4 in A5. by etransitivity.
Qed.

(** ** Copying the main file under a read transaction *)

(** The open read transaction found everything folded. *)
Definition frozen (v : wal_state) (m : nat) : Prop :=
  ∃ b, ws_pin v = Some (b, m) ∧ ws_folded v = m ∧ ws_synced v = true.

Lemma frozen_anchored v m k : frozen v m → (m <= k)%nat → anchored v k.
Proof. intros (b & ? & ? & ?) ?. by exists b, m. Qed.

Lemma rtc_frozen v v' m : frozen v m → rtc (env_step ps) v v' → frozen v' m.
Proof.
  intros (b & Ep & Ef & Ey) Hr.
  destruct (rtc_anchored v v' m) as (b' & m' & Ep' & Ef' & Ey' & _); [by eexists _, _|done|].
  rewrite (rtc_pin v v' Hr), Ep in Ep'. injection Ep' as <- <-. exists b. rewrite (rtc_pin v v' Hr). done.
Qed.

Lemma frozen_main s m : wal_wf ps (view s) → frozen (view s) m → db_main (s_db s) = db_at ps (view s) m.
Proof. intros Hwf (b & _ & <- & Hy). by apply law_main. Qed.

Lemma frozen_db s s' m : wal_wf ps (view s) → frozen (view s) m → moves s s' →
  wal_wf ps (view s') ∧ frozen (view s') m ∧ db_at ps (view s') m = db_at ps (view s) m.
Proof.
  intros Hwf Hf (_ & _ & _ & _ & M). apply moved_env in M. split_and!; [by eapply rtc_wf|by eapply rtc_frozen|].
  apply (extends_db_at ps _ _ m (rtc_extends _ _ M)). destruct Hf as (b & Ep & _).
  destruct (ww_pin _ _ Hwf b m Ep). lia.
Qed.

Lemma read_section_spec n : ∀ s off acc r s' m file, wal_wf ps (view s) → frozen (view s) m →
  file = db_at ps (view s) m → acc = take off file →
  read_section sched copyBuf n off (length file) acc s = (r, s') →
  moves s s' ∧ ∀ f, r = Ok f → f = file.
Proof.
  assert (CMainRead ∉ [CTick; CWal; CStat; CWalCheck]) as Hc by set_solver.
  induction n as [|n IH]; intros s off acc r s' m file Hwf Hf Efile Eacc HE; [injection HE as <- <-; done|].
  cbn [read_section] in HE. destruct (Nat.leb_spec (length file) off) as [Hoff|Hoff].
  { injection HE as <- <-. split; [reflexivity|]. intros f [= <-]. rewrite Eacc. by apply take_ge. }
  apply em_bind_inv in HE as [(ch & s1 & E1 & E')|(e1 & E1 & ->)];
    pose proof (ext_io_moves _ _ _ _ Hwf Hc E1) as M1; [|done].
  destruct (frozen_db s s1 m Hwf Hf M1) as (Hwf1 & Hf1 & Edb).
  unfold gets, mbind, em_bind in E'. rewrite (frozen_main s1 m Hwf1 Hf1), Edb, <-Efile in E'.
  set (chunk := take (min copyBuf (length file - off)) (drop off file)) in *.
  assert (length chunk = min copyBuf (length file - off)) as Hlen.
  { subst chunk. rewrite length_take, length_drop. lia. }
  rewrite Hlen, Nat.ltb_irrefl in E'.
  destruct (IH s1 (off + min copyBuf (length file - off))%nat (acc ++ chunk) r s' m file) as [M2 Hr];
    [done|done|congruence| |done|split; [by etransitivity|done]].
  subst acc chunk. apply take_take_drop.
Qed.

Lemma main_size_spec s r s' : wal_wf ps (view s) → main_size sched s = (r, s') →
  moves s s' ∧ ∀ n, r = Ok n → n = length (db_main (s_db s')).
Proof.
  intros Hwf HE. assert (CMainSize ∉ [CTick; CWal; CStat; CWalCheck]) as Hc by set_solver. unfold main_size in HE.
  apply em_bind_inv in HE as [(ch & s1 & E & E')|(e & E & ->)]; pose proof (ext_io_moves _ _ _ _ Hwf Hc E) as M; [|done].
  injection E' as <- <-. split; [exact M|]. by intros n [= <-].
Qed.

Lemma copySrc_spec s r s' m : wal_wf ps (view s) → frozen (view s) m → copySrc sched copyBuf s = (r, s') →
  moves s s' ∧ ∀ f, r = Ok f → f = db_at ps (view s') m.
Proof.
  intros Hwf Hf HE. unfold copySrc in HE.
  apply em_bind_inv in HE as [(size & s1 & E1 & E')|(e1 & E1 & ->)];
    destruct (main_size_spec _ _ _ Hwf E1) as [M1 Hn]; [|done].
  specialize (Hn size eq_refl). destruct (frozen_db s s1 m Hwf Hf M1) as (Hwf1 & Hf1 & Edb).
  rewrite (frozen_main s1 m Hwf1 Hf1) in Hn. subst size.
  destruct (read_section_spec _ _ _ _ _ _ m _ Hwf1 Hf1 eq_refl eq_refl E') as [M2 Hr].
  split; [by etransitivity|]. intros f Ef. rewrite (Hr f Ef). symmetry. by apply (frozen_db s1 s' m).
Qed.
End props.
