(* ===== verification/CaptureDrain.v ===== *)
(** * The capture engine: the invariant and draining

    [cap_inv k]: the replica holds exactly the first [k] committed
    transactions and the reader's place fits.  What [drainStep], [drain] and
    [drainUntil] do to it. *)
From Stdlib Require Import Strings.Byte.
From S2P Require Import Prelude Files Wal WalProps Session WalDb WalDbProps Capture CaptureProps.
Local Open Scope N_scope.

Section drain.
Context {D S : Type} `{WalDb D} `{Sink S} (ps : N) `{!WalDbLaws D ps} `{!SinkLaws S ps}.
Context (sched : schedule (D:=D) (S:=S)) (fuel : nat) (Hcalm : calm ps sched).

Abbreviation sys := (sys (D:=D) (S:=S)).
Abbreviation EM := (EM (D:=D) (S:=S)).
Abbreviation view := (view (D:=D) (S:=S) ps).
Abbreviation env_run := (env_run ps sched).
Abbreviation replica := (replica (D:=D) (S:=S)).

(** ** The invariant *)

(** The reader is on the log after transaction [k], or bound to a generation
    that is gone, or not bound.  Where a restart would be taken for a
    continuation, or nothing was read of the generation yet, the read lock has
    been held since everything but the replica's part was unfolded, and a log
    the reader is not on starts right after [k]. *)
Record reader_inv (e : Engine) (v : wal_state) (k : nat) : Prop := {
  ri_place : live (e_reader e) v k ∨ stale (e_reader e) v ∨ e_reader e = NewReader;
  ri_anchor : e_expectRestart e = true ∨ rd_off (e_reader e) <= HeaderSize →
    anchored v k ∧ (¬ live (e_reader e) v k → ws_start v = k);
  ri_none : no_truncate ps sched → ws_hdr v = None → ws_start v = k;
  ri_off : rd_off (e_reader e) <= HeaderSize ∨ HeaderSize + (FrameHeaderSize + ps) <= rd_off (e_reader e);
  ri_captured : 0 < e_captured e → HeaderSize + (FrameHeaderSize + ps) <= rd_off (e_reader e) }.

Record cap_inv (k : nat) (s : sys) : Prop := {
  ci_wf : wal_wf ps (view s);
  ci_le : (k <= ws_total (view s))%nat;
  ci_holds : holds ps (view s) k (s_sink s);
  ci_ps : e_pageSize (s_eng s) = ps;
  ci_reader : reader_inv (s_eng s) (view s) k }.

Lemma new_not_live v k : ¬ live NewReader v k.
Proof. by intros (h & _ & _ & [=]). Qed.

(** What a step of the others keeps, up to emptying the log. *)
Definition reader_place (e : Engine) (v : wal_state) (k : nat) : Prop :=
  (k <= ws_total v)%nat ∧
  (live (e_reader e) v k ∨ stale (e_reader e) v ∨ e_reader e = NewReader) ∧
  (e_expectRestart e = true ∨ rd_off (e_reader e) <= HeaderSize →
    anchored v k ∧ (¬ live (e_reader e) v k → ws_start v = k)).

Lemma reader_place_env e v v' k : wal_wf ps v → reader_place e v k → env_step ps v v' → reader_place e v' k.
Proof.
  intros Hwf (Hk & Hp & Ha) Hst. split; [|split].
  - pose proof (extends_total _ _ (env_extends ps _ _ Hst)). lia.
  - destruct Hp as [Hl|[Hs|Hn]]; [|right; left; by eapply env_stale|by auto].
    destruct (env_live ps _ _ _ _ Hwf Hl Hst) as [?|(? & _)]; auto.
  - intros Hpre. destruct (Ha Hpre) as [Han Hst']. split; [by eapply env_anchored|]. intros Hnl.
    destruct (env_generation ps v v' Hwf Hst) as [[Eh Es]|(Ef & Es & _)].
    + rewrite Es. apply Hst'. intros Hl. apply Hnl. by eapply live_same; [eapply env_extends| | |].
    + destruct Han as (b & m & _ & ? & _ & ?). lia.
Qed.

Lemma reader_inv_run e v v' k : wal_wf ps v → (k <= ws_total v)%nat → reader_inv e v k → env_run v v' →
  reader_inv e v' k.
Proof.
  intros Hwf Hk [Hp Ha Hn Hof Hc] [Hr Hnt].
  destruct (rtc_inv ps (λ v, reader_place e v k) v v') as [Hwf' (_ & Hp' & Ha')]; [|done|by split_and!|done|].
  { intros v1 v2 Hwf1 HP Hst. by eapply reader_place_env. }
  split; [done|done| |done|done]. intros Hno Hh. destruct (Hnt Hno Hh) as [Hh0 Et].
  rewrite (ww_none _ _ Hwf' Hh). unfold ws_total. rewrite Et. rewrite <-(Hn Hno Hh0).
  symmetry. by apply (ww_none _ _ Hwf).
Qed.

Lemma core_reader_inv e e' v k : core e' = core e → reader_inv e v k → reader_inv e' v k.
Proof. intros [= E1 E2 E3 E4 E5] [Hp Ha Hn Hof Hc]. split; rewrite ?E2, ?E4, ?E5; done. Qed.

(** Everything but the reader's fields may change while time passes. *)
Lemma cap_inv_env k s s' : cap_inv k s → env_run (view s) (view s') → s_sink s' = s_sink s →
  core (s_eng s') = core (s_eng s) → cap_inv k s'.
Proof.
  intros [Hwf Hle Hr Hps Hri] Hm Hk Hc. pose proof (rtc_extends ps _ _ (proj1 Hm)) as Hx. split.
  - eapply rtc_wf; [done|apply Hm].
  - pose proof (extends_total _ _ Hx). lia.
  - rewrite Hk. by eapply holds_extends.
  - injection Hc as E1 E2 E3 E4 E5. congruence.
  - eapply core_reader_inv; [exact Hc|]. by eapply reader_inv_run.
Qed.

Lemma cap_inv_moves k s s' : cap_inv k s → moves ps sched s s' → cap_inv k s'.
Proof.
  intros Hi (E & K & _ & _ & M). eapply cap_inv_env; [done|by eapply moved_run|done|by rewrite E].
Qed.

(** The reader has read the log to where it stands, or there is no log. *)
Definition drained (k : nat) (s : sys) : Prop := live (e_reader (s_eng s)) (view s) k ∨ ws_hdr (view s) = None.

Lemma drained_moved k s s' : drained k s → rtc (env_step ps) (view s) (view s') → same_gen (view s) (view s') →
  e_reader (s_eng s') = e_reader (s_eng s) → drained k s'.
Proof.
  intros [Hl|Hn] Hm [Eh Es] Er; [left|right; congruence]. rewrite Er.
  eapply live_same; [by eapply rtc_extends|done..].
Qed.

(** ** One poll of the log *)

Lemma reader_in_off v h k tx : wh_page_size h = ps → (ws_start v <= k)%nat → ws_hist v !! k = Some tx →
  tx_ok h tx → HeaderSize + (FrameHeaderSize + ps) <= rd_off (reader_in v h (Datatypes.S k)).
Proof.
  intros Eps Hk Htx Hok. unfold reader_in. cbn [rd_off reader_at]. rewrite (log_upto_S v k tx Hk Htx), length_app.
  pose proof (tx_ok_nonnil h tx Hok). unfold FrameSize. rewrite Eps. nia.
Qed.

(** What [Next] answers from a place that fits. *)
Lemma Next_spec e v k f : wal_wf ps v → (k <= ws_total v)%nat → reader_inv e v k → wal_file v f →
  match Next f (e_reader e) with
  | (Ok [], r) => (live r v k ∧ k = ws_total v ∧ (r = e_reader e ∨ e_reader e = NewReader ∧ ws_start v = k)) ∨
                  (ws_hdr v = None ∧ r = e_reader e)
  | (Ok frames, r) => live r v (Datatypes.S k) ∧ wh_page_size (rd_hdr r) = ps ∧
      HeaderSize + (FrameHeaderSize + ps) <= rd_off r ∧
      next_tx ps v k frames ∧
      ReplicaApply ps frames (db_at ps v k) = Ok (db_at ps v (Datatypes.S k)) ∧ (Datatypes.S k <= ws_total v)%nat
  | (Err err, r) => err = [EWALRestarted] ∧ r = e_reader e ∧ stale r v ∧ ws_hdr v ≠ None
  end.
Proof.
  intros Hwf Hk [Hp Ha Hn0 Hof Hc] Hf. destruct (ws_hdr v) as [h|] eqn:Eh; [|rewrite (Next_none v f _ Eh Hf); by right].
  destruct (ww_hdr _ _ Hwf h Eh) as (Hok & Eps & _).
  assert (∀ r0, Next f r0 = Next f (reader_in v h k) → (ws_start v <= k)%nat →
    (reader_in v h k = r0 ∨ (r0 = NewReader ∧ ws_start v = k)) → e_reader e = r0 →
    match Next f (e_reader e) with
    | (Ok [], r) => (live r v k ∧ k = ws_total v ∧ (r = e_reader e ∨ e_reader e = NewReader ∧ ws_start v = k)) ∨
                    (Some h = None ∧ r = e_reader e)
    | (Ok frames, r) => live r v (Datatypes.S k) ∧ wh_page_size (rd_hdr r) = ps ∧
        HeaderSize + (FrameHeaderSize + ps) <= rd_off r ∧
        next_tx ps v k frames ∧
        ReplicaApply ps frames (db_at ps v k) = Ok (db_at ps v (Datatypes.S k)) ∧ (Datatypes.S k <= ws_total v)%nat
    | (Err err, r) => err = [EWALRestarted] ∧ r = e_reader e ∧ stale r v ∧ Some h ≠ None
    end) as Hlive.
  { intros r0 HN Hs Hr0 ->. rewrite HN. destruct (decide (k = ws_total v)) as [Ek|Hne].
    - rewrite Ek. rewrite (Next_end ps v f h Hwf Eh Hf). left. rewrite <-Ek. split_and!; [|done|done].
      exists h. done.
    - destruct (lookup_lt_is_Some_2 (ws_hist v) k) as [tx Htx]; [unfold ws_total in *; lia|].
      rewrite (Next_tx ps v f h k tx Hwf Eh Hf Hs Htx).
      assert (tx_ok h tx) as Htxok.
      { pose proof (ww_txs _ _ Hwf) as Hall. rewrite Forall_forall in Hall.
        apply (Hall tx); [by eapply list_elem_of_lookup_2|done]. }
      destruct (run_frames_nonnil h (run_sum h (seed h) (log_upto v k)) tx Htxok) as (fr & frs & Efr).
      rewrite Efr, <-Efr. split_and!.
      + exists h. split_and!; [done|lia|lia|done].
      + done.
      + by eapply reader_in_off.
      + by eexists h, _, tx.
      + rewrite (db_at_S ps v k tx Htx). by apply ReplicaApply_tx.
      + lia. }
  destruct Hp as [(h' & E' & Hs & Er)|[Hst|Hn]].
  - rewrite Eh in E'. injection E' as <-. apply (Hlive (reader_in v h k)); [done|lia|by left|done].
  - rewrite (Next_stale ps v f _ h Hwf Eh Hf Hst). done.
  - assert (ws_start v = k) as Es.
    { apply Ha; [right; rewrite Hn; done|]. rewrite Hn. apply new_not_live. }
    apply (Hlive NewReader); [|lia|by right|done]. rewrite (Next_fresh ps v f h Hwf Eh Hf). by rewrite Es.
Qed.

(** ** [drainStep] *)

(** The log read to its end, or no log. *)
Definition caught_up (k : nat) (s : sys) : Prop :=
  (live (e_reader (s_eng s)) (view s) k ∧ k = ws_total (view s)) ∨ ws_hdr (view s) = None.

Lemma caught_up_drained k s : caught_up k s → drained k s.
Proof. intros [[? _]|?]; [by left|by right]. Qed.

Lemma read_wal_spec c s r s' : wal_wf ps (view s) → read_wal sched c s = (r, s') →
  s_eng s' = s_eng s ∧ s_sink s' = s_sink s ∧ s_state s' = s_state s ∧ env_run (view s) (view s') ∧
  s_db s' = db_env (ch_env (sched (s_now s) (s_window s) c)) (s_db s) ∧ (r = Err [EIO] ∨ r = db_wal (s_db s')).
Proof.
  intros Hwf HE. unfold read_wal, ext_io in HE.
  apply em_bind_inv in HE as [(ch & s1 & E & E')|(e & E & ->)];
    apply em_bind_inv in E as [(ch1 & s0 & [= <- <-] & E)|(e1 & [=] & _)]; destruct (ch_fail _);
    try discriminate E; injection E as ? <-.
  - injection E' as <- <-. cbn. split_and!; [done..|by apply law_env_run|done|by right].
  - subst e. cbn. split_and!; [done..|by apply law_env_run|done|by left].
Qed.

Lemma set_reader_inv r e v k : reader_inv e v k → live r v k →
  (r = e_reader e ∨ e_reader e = NewReader ∧ ws_start v = k) → reader_inv (set_reader r e) v k.
Proof.
  intros [Hp Ha Hn0 Hof Hc] Hl [->|[Hn Es]]; [split; done|]. split; cbn [set_reader e_reader e_expectRestart e_captured]; [by left| | | |].
  - intros _. destruct Ha as [Han _]; [right; by rewrite Hn|]. split; [done|]. intros Hnl. by destruct Hnl.
  - intros _ Hh. destruct Hl as (h & E & _). congruence.
  - left. destruct Hl as (h & _ & _ & ->). unfold reader_in. rewrite <-Es, log_upto_start. cbn. lia.
  - intros Hcap. specialize (Hc Hcap). rewrite Hn in Hc. cbn in Hc. unfold HeaderSize, FrameHeaderSize in Hc. lia.
Qed.

Lemma set_reader_next r e v k : reader_inv e v k → (k <= ws_total v)%nat → live r v (Datatypes.S k) →
  HeaderSize + (FrameHeaderSize + ps) <= rd_off r → reader_inv (set_reader r e) v (Datatypes.S k).
Proof.
  intros [Hp Ha Hn0 Hof Hc] Hk Hl Hoff. split; cbn [set_reader e_reader e_expectRestart e_captured]; [by left| | |by right|done].
  2: { intros _ Hh. destruct Hl as (h & E & _). congruence. }
  intros [He|Ho]; [|unfold HeaderSize, FrameHeaderSize in *; lia].
  destruct Ha as [(b & m & ? & ? & ? & ?) _]; [by left|].
  split; [exists b, m; split_and!; try done; lia|]. intros Hnl. by destruct Hnl.
Qed.

Definition stepped (s s' : sys) : Prop :=
  s_state s' = s_state s ∧ e_inTx (s_eng s') = e_inTx (s_eng s) ∧
  e_expectRestart (s_eng s') = e_expectRestart (s_eng s) ∧ e_captured (s_eng s') = e_captured (s_eng s) ∧
  env_run (view s) (view s').

#[global] Instance stepped_po : PreOrder stepped.
Proof.
  split; [by intros s; split_and!|]. intros s1 s2 s3 (A1 & A2 & A3 & A4 & A5) (B1 & B2 & B3 & B4 & B5).
  split_and!; try congruence. by etransitivity.
Qed.

Lemma moves_stepped s s' : moves ps sched s s' → stepped s s'.
Proof. intros (E & _ & T & _ & M). apply moved_run in M. split_and!; by rewrite ?E. Qed.

(** The pending state after a step: untouched, or the reader's new place. *)
Definition pend_after (applied : bool) (s s' : sys) : Prop :=
  if applied then e_stateDirty (s_eng s') = true ∧ st_Clean (e_pendState (s_eng s')) = false
  else e_stateDirty (s_eng s') = e_stateDirty (s_eng s) ∧ e_pendState (s_eng s') = e_pendState (s_eng s).

Lemma reader_Next_spec k s r s' : cap_inv k s → reader_Next sched s = (r, s') →
  ∃ s1 rd, stepped s s1 ∧ s_eng s1 = s_eng s ∧ s_sink s1 = s_sink s ∧ cap_inv k s1 ∧
    s' = mkSys (set_reader rd (s_eng s)) (s_db s1) (s_sink s) (s_state s) (s_now s1) WPolled ∧
    ((r = Err [EIO] ∧ rd = e_reader (s_eng s)) ∨ ∃ f, wal_file (view s1) f ∧ Next f (e_reader (s_eng s)) = (r, rd)).
Proof.
  intros Hi HE. unfold reader_Next in HE. apply em_try_inv in HE as (x & s1 & E & HE).
  destruct (read_wal_spec _ _ _ _ (ci_wf _ _ Hi) E) as (E1 & E2 & E3 & E4 & _ & E5).
  assert (cap_inv k s1) as Hi1 by (eapply cap_inv_env; [done|done|done|by rewrite E1]).
  unfold set_window, set_eng, eng, gets, lift, mbind, em_bind in HE. cbn in HE. rewrite E1, E2, E3 in HE.
  destruct (Next x (e_reader (s_eng s))) as [r1 rd] eqn:EN. injection HE as <- <-.
  exists s1, rd. split_and!; try done; [by split_and!; rewrite ?E1|].
  destruct E5 as [->| ->].
  - left. unfold Next in EN. injection EN as <- <-. done.
  - right. exists (db_wal (s_db s1)). split; [|done]. by apply law_wal, (ci_wf _ _ Hi1).
Qed.

Lemma Sink_Apply_spec frames s r s' : wal_wf ps (view s) → Sink_Apply sched ps frames s = (r, s') →
  s_eng s' = s_eng s ∧ s_state s' = s_state s ∧ s_window s' = s_window s ∧ moved ps sched (s_window s) (view s) (view s') ∧
  (r = Ok tt → ∃ fault, sink_apply fault ps frames (s_sink s) = (Ok tt, s_sink s')) ∧ r ≠ Err [EWALRestarted].
Proof.
  intros Hwf HE. assert (CApply ∉ [CTick; CWal; CStat; CWalCheck]) as Hc by set_solver. unfold Sink_Apply in HE.
  apply em_bind_inv in HE as [(ch & s1 & E & E')|(e & E & _)];
    destruct (ext_moves ps sched Hcalm _ _ _ _ Hwf Hc E) as [(M1 & M2 & M3 & M4 & M5) Er]; [|discriminate Er].
  unfold on_sink, lift, mbind, em_bind in E'.
  destruct (sink_apply (ch_sink ch) ps frames (s_sink s1)) as [x kk] eqn:Ek. injection E' as <- <-. cbn.
  split_and!; try done.
  - intros ->. rewrite M2 in Ek. by eexists.
  - intros ->. by apply (law_apply_err _ _ _ _ _ _ Ek).
Qed.

Lemma drainStep_spec k s r s' : cap_inv k s → drainStep sched s = (r, s') →
  stepped s s' ∧ s_window s' = WPolled ∧
  match r with
  | Ok [] => cap_inv k s' ∧ caught_up k s' ∧ pend_after false s s' ∧ s_sink s' = s_sink s ∧
      rd_off (e_reader (s_eng s)) <= rd_off (e_reader (s_eng s'))
  | Ok _ => cap_inv (Datatypes.S k) s' ∧ drained (Datatypes.S k) s' ∧ pend_after true s s' ∧
      HeaderSize + (FrameHeaderSize + ps) <= rd_off (e_reader (s_eng s')) ∧
      live (e_reader (s_eng s')) (view s') (Datatypes.S k)
  | Err e => e = [EWALRestarted] →
      cap_inv k s' ∧ stale (e_reader (s_eng s')) (view s') ∧ ws_hdr (view s') ≠ None ∧ pend_after false s s' ∧
      s_sink s' = s_sink s ∧ e_reader (s_eng s') = e_reader (s_eng s)
  end.
Proof.
  intros Hi HE. unfold drainStep in HE.
  apply em_bind_inv in HE as [(frames & s1 & E & HE)|(e & E & ->)];
    destruct (reader_Next_spec k _ _ _ Hi E) as (s0 & rd & Hst & Eeng & Esink & Hi0 & -> & Hcase);
    pose proof Hi0 as [Hwf0 Hle0 Hrep0 Hps0 Hri0]; rewrite Eeng in Hri0; destruct Hst as (T1 & T2 & T3 & T4 & T5).
  - destruct Hcase as [[[=] _]|(f & Hf & EN)].
    pose proof (Next_spec (s_eng s) _ _ _ Hwf0 Hle0 Hri0 Hf) as HN. rewrite EN in HN.
    destruct frames as [|fr frs].
    + injection HE as <- <-. split; [split_and!; by rewrite ?Eeng|]. split; [done|].
      assert (reader_inv (set_reader rd (s_eng s)) (view s0) k) as Hri.
      { destruct HN as [(Hl & _ & Hr)|[_ ->]]; [by apply set_reader_inv|]. destruct (s_eng s). exact Hri0. }
      split_and!; [| |done|done|].
      3: { destruct HN as [(_ & _ & [->|[-> _]])|[_ ->]]; cbn; lia. }
      * split; [done|done| |by rewrite <-Hps0, Eeng|done]. cbn [s_sink]. by rewrite <-Esink.
      * destruct HN as [(Hl & Ek & _)|[Hn _]]; [by left|by right].
    + destruct HN as (Hl & Eps & Hoff & Htx & HA & Hle).
      rewrite bool_decide_eq_false_2 in HE by done. rewrite !bind_eng in HE. cbn [s_eng e_reader set_reader e_pageSize] in HE.
      assert (e_pageSize (s_eng s) = ps) as Eps2 by by rewrite <-Hps0, Eeng.
      rewrite Eps, Eps2, N.eqb_refl in HE. cbn [negb] in HE.
      set (s1 := mkSys _ _ _ _ _ _) in *.
      apply em_bind_inv in HE as [([] & s2 & E2 & HE)|(e & E2 & ->)];
        destruct (Sink_Apply_spec _ _ _ _ (Hwf0 : wal_wf ps (view s1)) E2) as (M1 & M2 & M3 & M4 & M5 & M6).
      * rewrite !bind_set in HE. injection HE as <- <-.
        pose proof (moved_env _ _ _ _ _ M4) as M4e. specialize (M5 eq_refl).
        assert (live rd (view s2) (Datatypes.S k)) as Hl2.
        { destruct M4 as (_ & Hg & _). destruct (Hg eq_refl) as [Eh Es].
          eapply live_same; [by eapply rtc_extends|exact Eh|exact Es|exact Hl]. }
        split; [split_and!; cbn; rewrite ?M1, ?M2; cbn; try done; etransitivity; [exact T5|by eapply moved_run]|]. split; [exact M3|].
        assert (e_reader (s_eng s2) = rd) as Erd by by rewrite M1.
        split_and!; [|left; cbn [s_eng e_reader set_pend set_consumed with_eng]; rewrite Erd; exact Hl2|by split|cbn [s_eng e_reader set_pend set_consumed with_eng]; rewrite Erd; exact Hoff
                     |cbn [s_eng e_reader set_pend set_consumed with_eng]; rewrite Erd; exact Hl2].
        pose proof (rtc_extends ps _ _ M4e) as Hx. pose proof (extends_total _ _ Hx) as Ht.
        split; [by eapply rtc_wf|change (view s0) with (view s1) in Hle; cbn; unfold view, CaptureProps.view in *; cbn in *; lia| |..].
        -- apply (holds_extends ps (view s0)); [exact Hx|exact Hle|]. change (s_sink s1) with (s_sink s) in M5.
           rewrite <-Esink in M5. destruct M5 as [fault M5], Hrep0 as [Hr0 Hg0]. split; [|by eapply law_good_apply].
           pose proof (law_apply _ _ _ _ _ M5) as HR. rewrite Hr0, HA in HR. by injection HR.
        -- cbn. rewrite M1. cbn. by rewrite <-Hps0, Eeng.
        -- assert (reader_inv (set_reader rd (s_eng s)) (view s0) (Datatypes.S k)) as Hri by by apply set_reader_next.
           apply (reader_inv_run _ _ (view s2)) in Hri; [|done|exact Hle|by eapply moved_run].
           eapply core_reader_inv; [|exact Hri]. cbn. by rewrite M1.
      * split; [split_and!; rewrite ?M1, ?M2; cbn; try done; etransitivity; [exact T5|by eapply moved_run]|]. split; [done|].
        intros ->. by destruct M6.
  - split; [split_and!; by rewrite ?Eeng|]. split; [done|]. intros ->.
    destruct Hcase as [[[=] _]|(f & Hf & EN)].
    pose proof (Next_spec (s_eng s) _ _ _ Hwf0 Hle0 Hri0 Hf) as HN. rewrite EN in HN.
    destruct HN as (_ & -> & Hs & Hh).
    split_and!; try done. split; [done|done| |by rewrite <-Hps0, Eeng|destruct (s_eng s); exact Hri0].
    cbn [s_sink]. by rewrite <-Esink.
Qed.

(** ** [drain] and [drainUntil] *)

(** What a pass of steps leaves: [ap] when it applied a transaction. *)
Record passed (ap : bool) (k k' : nat) (s s' : sys) : Prop := {
  pa_stepped : stepped s s';
  pa_le : (k <= k')%nat;
  pa_inv : cap_inv k' s';
  pa_pend : pend_after ap s s';
  pa_none : ap = false → s_sink s' = s_sink s;
  pa_off : ap = true → HeaderSize + (FrameHeaderSize + ps) <= rd_off (e_reader (s_eng s')) }.

Lemma passed_refl k s : cap_inv k s → passed false k k s s.
Proof. intros Hi. by split. Qed.

Lemma passed_moves ap k k' s s1 s' : passed ap k k' s s1 → moves ps sched s1 s' → passed ap k k' s s'.
Proof.
  intros [H1 H2 H3 H4 H5 H6] M. pose proof M as (E & K & T & _). split.
  - etransitivity; [exact H1|by apply moves_stepped].
  - done.
  - by eapply cap_inv_moves.
  - destruct ap; unfold pend_after in *; by rewrite E.
  - intros Hap. by rewrite K, H5.
  - by rewrite E.
Qed.

Lemma passed_step ap k k1 s s1 s' frames : passed ap k k1 s s1 → drainStep sched s1 = (Ok frames, s') →
  match frames with
  | [] => passed ap k k1 s s' ∧ caught_up k1 s'
  | _ => passed true k (Datatypes.S k1) s s' ∧ live (e_reader (s_eng s')) (view s') (Datatypes.S k1)
  end ∧ s_window s' = WPolled.
Proof.
  intros [H1 H2 H3 H4 H5 H6] HE. destruct (drainStep_spec k1 _ _ _ H3 HE) as (Hs & Hw & Hc).
  destruct frames as [|fr frs].
  - destruct Hc as (Hi & Hcu & Hp & Hk & Hoff). split; [|done]. split; [|done]. split; try done.
    + by etransitivity.
    + destruct Hp as [P1 P2]. destruct ap; unfold pend_after in *; by rewrite P1, P2.
    + intros Hap. by rewrite Hk, H5.
    + intros Hap. specialize (H6 Hap). lia.
  - destruct Hc as (Hi & _ & Hp & Hoff & Hl). split; [|done]. split; [|done]. split; try done; [by etransitivity|lia].
Qed.

Lemma passed_restart ap k k1 s s1 s' : passed ap k k1 s s1 → drainStep sched s1 = (Err [EWALRestarted], s') →
  passed ap k k1 s s' ∧ stale (e_reader (s_eng s')) (view s') ∧ ws_hdr (view s') ≠ None.
Proof.
  intros [H1 H2 H3 H4 H5 H6] HE. destruct (drainStep_spec k1 _ _ _ H3 HE) as (Hs & Hw & Hc).
  destruct (Hc eq_refl) as (Hi & Hst & Hh & Hp & Hk & Er). split; [|done]. split; try done.
  - by etransitivity.
  - destruct Hp as [P1 P2]. destruct ap; unfold pend_after in *; by rewrite P1, P2.
  - intros Hap. by rewrite Hk, H5.
  - intros Hap. by rewrite Er, H6.
Qed.

Definition restarted (s : sys) : Prop := stale (e_reader (s_eng s)) (view s) ∧ ws_hdr (view s) ≠ None.

Lemma drain_loop_spec n : ∀ ap k k1 s0 s c r s', passed ap k k1 s0 s →
  (s_window s = WOpen ∨ s_window s = WPolled ∧ drained k1 s) → (ap = true ↔ 0 < c) →
  drain_loop sched n c s = (r, s') →
  match r with
  | Ok c' => ∃ ap' k', passed ap' k k' s0 s' ∧ s_window s' = WPolled ∧ drained k' s' ∧ (ap' = true ↔ 0 < c')
  | Err e => stepped s0 s' ∧ (e = [EWALRestarted] → ∃ ap' k', passed ap' k k' s0 s' ∧ restarted s')
  end.
Proof.
  induction n as [|n IH]; intros ap k k1 s0 s c r s' Hpa Hw Hc HE; [injection HE as <- <-; split; [apply Hpa|done]|].
  cbn [drain_loop] in HE. pose proof (ci_wf _ _ (pa_inv _ _ _ _ _ Hpa)) as Hwf.
  apply em_bind_inv in HE as [(late & s1 & E & HE)|(e & E & _)];
    destruct (late_moves ps sched Hcalm _ _ _ Hwf E) as (M & b & Er & Hb); [|discriminate Er].
  injection Er as ->. pose proof (passed_moves _ _ _ _ _ _ Hpa M) as Hpa1.
  pose proof M as (M1 & M2 & M3 & M4 & M5). destruct b.
  - destruct Hw as [Hw|[Hw Hd]]; [by specialize (Hb Hw)|]. injection HE as <- <-.
    exists ap, k1. split_and!; [done|by rewrite M4| |exact Hc].
    destruct M5 as (Me & Hg & _). eapply drained_moved; [done|exact (proj1 Me)|by apply Hg|by rewrite M1].
  - apply em_bind_inv in HE as [(frames & s2 & E2 & HE)|(e & E2 & ->)].
    + destruct (passed_step _ _ _ _ _ _ _ Hpa1 E2) as [Hcase Hw2]. destruct frames as [|fr frs].
      * injection HE as <- <-. destruct Hcase as [Hp Hcu]. exists ap, k1. split_and!; try done; [|by apply Hc..].
        by apply caught_up_drained.
      * destruct Hcase as [Hp Hl]. rewrite bool_decide_eq_false_2 in HE by done.
        eapply (IH true _ _ _ _ (c + 1)); [exact Hp| |split; intros; [lia|done]|exact HE]. right. split; [done|by left].
    + destruct (drainStep_spec _ _ _ _ (pa_inv _ _ _ _ _ Hpa1) E2) as [Hs2 _].
      split; [etransitivity; [apply Hpa1|exact Hs2]|].
      intros ->. destruct (passed_restart _ _ _ _ _ _ Hpa1 E2) as [Hp Hr]. by exists ap, k1.
Qed.

Lemma drainUntil_loop_spec n : ∀ ap k k1 s0 s c target r s', passed ap k k1 s0 s → (ap = true ↔ 0 < c) →
  drainUntil_loop sched n target c s = (r, s') →
  match r with
  | Ok c' => ∃ ap' k', passed ap' k k' s0 s' ∧ s_window s' = WPolled ∧ (ap' = true ↔ 0 < c') ∧
      (caught_up k' s' ∨ live (e_reader (s_eng s')) (view s') k' ∧ target <= rd_off (e_reader (s_eng s')))
  | Err e => e = [EWALRestarted] → ∃ ap' k', passed ap' k k' s0 s' ∧ restarted s'
  end.
Proof.
  induction n as [|n IH]; intros ap k k1 s0 s c target r s' Hpa Hc HE; [by injection HE as <- <-|].
  cbn [drainUntil_loop] in HE. pose proof (ci_wf _ _ (pa_inv _ _ _ _ _ Hpa)) as Hwf.
  apply em_bind_inv in HE as [(late & s1 & E & HE)|(e & E & _)];
    destruct (late_moves ps sched Hcalm _ _ _ Hwf E) as (M & b & Er & Hb); [|discriminate Er].
  injection Er as ->. pose proof (passed_moves _ _ _ _ _ _ Hpa M) as Hpa1. destruct b; [by injection HE as <- <-|].
  apply em_bind_inv in HE as [(frames & s2 & E2 & HE)|(e & E2 & ->)].
  - rewrite bind_eng in HE.
    destruct (passed_step _ _ _ _ _ _ _ Hpa1 E2) as [Hcase Hw2]. destruct frames as [|fr frs].
    + rewrite bool_decide_eq_true_2 in HE by done. assert ((r, s') = (Ok c, s2)) as [= -> ->] by by destruct (_ <=? _).
      destruct Hcase as [Hp Hcu]. exists ap, k1. split_and!; try done; [apply Hc..|by left].
    + destruct Hcase as [Hp Hl]. rewrite bool_decide_eq_false_2 in HE by done.
      destruct (N.leb_spec target (rd_off (e_reader (s_eng s2)))) as [Ht|Ht].
      * injection HE as <- <-. exists true, (Datatypes.S k1). split_and!; try done; [lia|by right].
      * eapply (IH true _ _ _ _ (c + 1)); [exact Hp|split; intros; [lia|done]|exact HE].
  - intros ->. destruct (passed_restart _ _ _ _ _ _ Hpa1 E2) as [Hp Hr]. by exists ap, k1.
Qed.
End drain.
