(* ===== verification/CapturePoll.v ===== *)
(** * The capture engine: rebase, takeover, polls

    The operations that give the read lock up and take it again, and the polls
    of [Run]'s loop, keep [eng_inv k]: [cap_inv k] and the state file's claim. *)
From Stdlib Require Import Strings.Byte.
From S2P Require Import Prelude Files Wal WalProps Session WalDb WalDbProps Capture CaptureProps CaptureDrain.
Local Open Scope N_scope.

(** ** Locks and checkpoints on the view *)

Section view.
Context (ps : N).

Lemma set_pin_wf v p : wal_wf ps v →
  (∀ b m, p = Some (b, m) → m = ws_total v ∧ (b = false → ws_folded v = ws_total v)) → wal_wf ps (set_pin p v).
Proof.
  intros [Hz Hs Hf Hy Hn Hh Ht Hp] Hb. split; cbn; try done. intros b m E. destruct (Hb b m E) as [-> Hb'].
  unfold ws_total in *. split; [cbn; lia|done].
Qed.

Lemma folded_all_wf v : wal_wf ps v → ws_pin v = None → wal_wf ps (set_folded (ws_total v) true v).
Proof.
  intros [Hz Hs Hf Hy Hn Hh Ht Hp] Hpin. split; cbn; try done; [unfold ws_total in *; cbn; lia..|]. intros b m E. congruence.
Qed.

(** Nothing committed meanwhile: everything stays folded, and a reader that was
    on the log is on it, or at the start of its next generation. *)
Lemma sealed_env v v' : wal_wf ps v → rtc (env_step ps) v v' → ws_hist v' = ws_hist v → ws_folded v = ws_total v →
  ws_folded v' = ws_total v' ∧ (ws_start v = ws_total v → ws_start v' = ws_total v') ∧
  ∀ r k, k = ws_total v → live r v k ∨ (stale r v ∧ ws_start v = k) → live r v' k ∨ (stale r v' ∧ ws_start v' = k).
Proof.
  intros Hwf Hr. induction Hr as [|v v1 v2 Hst Hr IH]; [by intros; split_and!|]. intros Eh Ef.
  pose proof (env_extends ps _ _ Hst) as [_ Hx1]. pose proof (rtc_extends ps _ _ Hr) as [_ Hx2].
  assert (ws_hist v1 = ws_hist v) as Eh1 by (apply (anti_symm prefix); [by rewrite <-Eh|done]).
  pose proof (env_wf ps _ _ Hwf Hst) as Hwf1.
  assert (ws_total v1 = ws_total v) as Et by (unfold ws_total; by rewrite Eh1).
  assert (ws_folded v1 = ws_total v1) as Ef1.
  { rewrite Et. destruct Hst as [h tx|h|n b (Hlim & _)|]; cbn in *; [|done| |done].
    - apply (f_equal length) in Eh1. rewrite length_app in Eh1. cbn in Eh1. lia.
    - pose proof (ww_folded _ _ Hwf1) as Hb. cbn in Hb. unfold ws_total in *. cbn in *. lia. }
  destruct (IH Hwf1) as (I1 & I2 & I3); [congruence|done|]. split; [done|].
  pose proof (env_generation ps _ _ Hwf Hst) as Hg. split.
  - intros Es. apply I2. destruct Hg as [[_ ->]|(_ & -> & _)]; congruence.
  - intros r k -> Hpl. apply I3; [by rewrite Et|]. destruct Hpl as [Hl|[Hs Es]].
    + destruct (env_live ps _ _ _ _ Hwf Hl Hst) as [?|(? & _ & ? & _)]; [by left|by right].
    + right. split; [exact (env_stale ps _ _ _ Hwf Hs Hst)|]. destruct Hg as [[_ ->]|(_ & -> & _)]; congruence.
Qed.
End view.

Section poll.
Context {D S : Type} `{WalDb D} `{Sink S} (ps : N) `{!WalDbLaws D ps} `{!SinkLaws S ps}.
Context (sched : schedule (D:=D) (S:=S)) (sha256 : bytes → string) (copyBuf fuel : nat) (Hcalm : calm ps sched).

Abbreviation sys := (sys (D:=D) (S:=S)).
Abbreviation EM := (EM (D:=D) (S:=S)).
Abbreviation view := (view (D:=D) (S:=S) ps).
Abbreviation replica := (replica (D:=D) (S:=S) ps).
Abbreviation env_run := (env_run ps sched).
Abbreviation moved := (moved ps sched).
Abbreviation cap_inv := (cap_inv (D:=D) (S:=S) ps sched).
Abbreviation reader_inv := (reader_inv (D:=D) ps sched).
Abbreviation moves := (moves (D:=D) (S:=S) ps sched).

(** ** The state file's claim *)

(** A state marked clean fingerprints the replica. *)
Definition clean_ok (s : sys) : Prop :=
  ∀ st, s_state s = Some st → st_Clean st = true → st_MainHash st = sha256 (replica s).

Definition not_clean (s : sys) : Prop := ∀ st, s_state s = Some st → st_Clean st = false.

Record state_inv (s : sys) : Prop := {
  si_pend : st_Clean (e_pendState (s_eng s)) = false;
  si_clean : e_stateDirty (s_eng s) = false → clean_ok s;
  si_cont : e_expectRestart (s_eng s) = true ∨ 0 < e_captured (s_eng s) → not_clean s }.

Record eng_inv (k : nat) (s : sys) : Prop := { ei_cap : cap_inv k s; ei_state : state_inv s }.

Lemma not_clean_ok s : not_clean s → clean_ok s.
Proof. intros Hn st E Hc. rewrite (Hn st E) in Hc. done. Qed.

Lemma state_inv_same s s' : state_inv s → s_state s' = s_state s → s_sink s' = s_sink s →
  e_pendState (s_eng s') = e_pendState (s_eng s) → e_stateDirty (s_eng s') = e_stateDirty (s_eng s) →
  (e_expectRestart (s_eng s') = true → e_expectRestart (s_eng s) = true ∨ 0 < e_captured (s_eng s)) →
  (0 < e_captured (s_eng s') → 0 < e_captured (s_eng s)) → state_inv s'.
Proof.
  intros [Hp Hc Hn] E1 E2 E3 E4 E5 E6. split; unfold clean_ok, not_clean, CaptureProps.replica in *; rewrite ?E1, ?E2, ?E3, ?E4; try done.
  intros [He|Hcap]; apply Hn; auto.
Qed.

Lemma eng_inv_moves k s s' : eng_inv k s → moves s s' → eng_inv k s'.
Proof.
  intros [Hc Hs] M. split; [by eapply cap_inv_moves|]. destruct M as (E & K & T & _).
  eapply state_inv_same; [exact Hs|done|done|rewrite E; auto..].
Qed.

(** ** Rebase *)

(** The engine without its reader's history, as a rebase leaves it. *)
Lemma fresh_reader_inv e v k : e_reader e = NewReader → e_expectRestart e = false → e_captured e = 0 →
  frozen v k → ws_start v = k → reader_inv e v k.
Proof.
  intros Er Ee Ec Hf Hs. split; rewrite ?Er, ?Ee, ?Ec; auto; [|by left|lia].
  intros _. split; [by eapply frozen_anchored|done].
Qed.

Lemma Sink_Rebase_spec snap s r s' : wal_wf ps (view s) → Sink_Rebase sched snap s = (r, s') →
  s_eng s' = s_eng s ∧ s_state s' = s_state s ∧ env_run (view s) (view s') ∧
  (r = Ok tt → ∃ fault, sink_rebase fault snap (s_sink s) = (Ok tt, s_sink s')).
Proof.
  intros Hwf HE. assert (CRebase ∉ [CTick; CWal; CStat; CWalCheck]) as Hc by set_solver. unfold Sink_Rebase in HE.
  apply em_bind_inv in HE as [(ch & s1 & E & E')|(e & E & _)];
    destruct (ext_moves ps sched Hcalm _ _ _ _ Hwf Hc E) as [(M1 & M2 & M3 & M4 & M5) Er]; [|discriminate Er].
  unfold on_sink, lift, mbind, em_bind in E'.
  destruct (sink_rebase (ch_sink ch) snap (s_sink s1)) as [x kk] eqn:Ek. injection E' as <- <-. cbn.
  split_and!; [done|done|by eapply moved_run|]. intros ->. rewrite M2 in Ek. by eexists.
Qed.

(** A checkpoint that emptied the log, then the read lock: the main file is
    frozen at everything committed. *)
Lemma sealed_begin s r s' : wal_wf ps (view s) → s_window s = WSealed → e_inTx (s_eng s) = false →
  ws_folded (view s) = ws_total (view s) → ws_start (view s) = ws_total (view s) →
  beginRead sched s = (Ok r, s') →
  s_eng s' = set_inTx true (s_eng s) ∧ s_sink s' = s_sink s ∧ s_state s' = s_state s ∧
  wal_wf ps (view s') ∧ extends (view s) (view s') ∧
  frozen (view s') (ws_total (view s)) ∧ ws_start (view s') = ws_total (view s) ∧
  ws_total (view s') = ws_total (view s) ∧ s_window s' = WOpen.
Proof.
  intros Hwf Hw Hi Hf Hs HE. destruct (beginRead_spec ps sched Hcalm _ _ _ Hwf HE)
    as [[? _]|(_ & E1 & E2 & E3 & E4 & v1 & b & M & Hp & Hb & Ev)]; [congruence|].
  destruct M as (Hrun & _ & Hh). specialize (Hh (or_introl Hw)). destruct Hrun as [Hr _].
  destruct (sealed_env ps _ _ Hwf Hr Hh Hf) as (F1 & F2 & _).
  pose proof (rtc_wf ps _ _ Hwf Hr) as Hwf1. assert (ws_total v1 = ws_total (view s)) as Et by (unfold ws_total; by rewrite Hh).
  rewrite Ev. split_and!; try done.
  - apply set_pin_wf; [done|]. by intros b' m [= <- <-].
  - etransitivity; [by eapply rtc_extends|]. by apply extends_same.
  - exists b. cbn. rewrite <-Et. split_and!; [done|done|]. by apply (ww_synced _ _ Hwf1).
  - cbn. rewrite <-Et. by apply F2.
Qed.

Lemma rebase_spec s r s' : wal_wf ps (view s) → e_pageSize (s_eng s) = ps → ready ps (view s) (s_sink s) →
  rebase sched copyBuf fuel s = (Ok r, s') →
  ∃ k, eng_inv k s' ∧ (ws_total (view s) <= k)%nat ∧ extends (view s) (view s') ∧
    e_resumed (s_eng s') = e_resumed (s_eng s).
Proof.
  intros Hwf Hps Hrdy HE. unfold rebase in HE. rewrite bind_set in HE. set (s0 := with_eng _ s) in HE.
  assert (wal_wf ps (view s0)) as Hwf0 by done.
  apply em_bind_inv in HE as [(a1 & s1 & E1 & HE)|(e & _ & [=])].
  destruct (endRead_spec ps sched Hcalm _ _ _ Hwf0 E1) as (_ & G1 & K1 & T1 & W1 & v1 & M1 & Hv1).
  assert (extends (view s) (view s1) ∧ wal_wf ps (view s1)) as [Hx1 Hwf1].
  { pose proof (rtc_extends ps _ _ (moved_env _ _ _ _ _ M1)) as Hx. pose proof (rtc_wf ps _ _ Hwf0 (moved_env _ _ _ _ _ M1)) as Hw.
    destruct Hv1 as [->| ->]; [done|]. split; [etransitivity; [exact Hx|by apply extends_same]|]. by apply set_pin_wf. }
  apply em_bind_inv in HE as [(n & s2 & E2 & HE)|(e & _ & [=])].
  destruct (checkpoint_spec ps sched Hcalm _ _ _ _ _ Hwf1 E2) as (G2 & K2 & T2 & W2 & v2 & M2 & Hp2 & _ & Hv2).
  pose proof (rtc_wf ps _ _ Hwf1 (moved_env _ _ _ _ _ M2)) as Hwfv2.
  assert (wal_wf ps (view s2)) as Hwf2 by (rewrite Hv2; apply emptied_wf; [done|intros; congruence]).
  assert (extends (view s) (view s2)) as Hx2.
  { etransitivity; [exact Hx1|]. etransitivity; [apply (rtc_extends ps _ _ (moved_env _ _ _ _ _ M2))|].
    rewrite Hv2. by apply extends_same. }
  apply em_bind_inv in HE as [(a3 & s3 & E3 & HE)|(e & _ & [=])].
  destruct (sealed_begin s2 a3 s3) as (G3 & K3 & T3 & Hwf3 & Hx3 & Hf3 & Hs3 & Et3 & _); try done;
    [by rewrite G2, G1|by rewrite Hv2..|].
  set (k := ws_total (view s2)) in *.
  apply em_bind_inv in HE as [(snap & s4 & E4 & HE)|(e & _ & [=])].
  destruct (copySrc_spec ps sched copyBuf Hcalm _ _ _ _ Hwf3 Hf3 E4) as [M4 Hsnap]. specialize (Hsnap snap eq_refl).
  destruct (frozen_db ps sched _ _ _ Hwf3 Hf3 M4) as (Hwf4 & Hf4 & _).
  pose proof M4 as (G4 & K4 & T4 & W4 & M4m).
  (* the reader the rebase will install *)
  set (fix_eng := λ e, set_captured 0 (set_rebased (e_rebased e + 1) (set_deadTail 0 (set_consumed 0 (set_reader NewReader e))))) in *.
  assert (e_expectRestart (s_eng s3) = false) as Hexp by (rewrite G3; cbn; rewrite G2, G1; done).
  assert (reader_inv (fix_eng (s_eng s3)) (view s3) k) as Hri by (apply fresh_reader_inv; done).
  apply em_bind_inv in HE as [(a5 & s5 & E5 & HE)|(e & _ & [=])].
  destruct (Sink_Rebase_spec _ _ _ _ Hwf4 E5) as (G5 & T5 & R5 & Hrep). destruct a5. specialize (Hrep eq_refl).
  rewrite bind_set in HE. change (clearPendState ≫= ?f) with (set_eng (set_pend zeroState false) ≫= f) in HE.
  rewrite bind_set in HE. set (s6 := with_eng _ (with_eng _ s5)) in HE.
  pose proof (rtc_wf ps _ _ Hwf4 (proj1 R5)) as Hwf5.
  destruct (SaveState_spec ps sched Hcalm _ _ _ _ (Hwf5 : wal_wf ps (view s6)) HE) as (G7 & K7 & W7 & M7 & Hst).
  destruct Hst as [[_ Hst]|[[=] _]].
  assert (env_run (view s3) (view s')) as Hrun.
  { etransitivity; [by eapply moved_run|]. etransitivity; [exact R5|]. by eapply moved_run. }
  assert (k <= ws_total (view s3))%nat as Hk by lia.
  pose proof (rtc_extends ps _ _ (proj1 Hrun)) as Hx37. pose proof (extends_total _ _ Hx37) as Ht37.
  exists k. split_and!.
  - split; [split|split].
    + by eapply rtc_wf; [|apply Hrun].
    + lia.
    + pose proof (rtc_extends ps _ _ (moved_env _ _ _ _ _ M4m)) as Hx34. pose proof (extends_total _ _ Hx34).
      rewrite K7. change (s_sink s6) with (s_sink s5). apply (holds_extends ps (view s4)); [|lia|].
      { etransitivity; [exact (rtc_extends ps _ _ (proj1 R5))|]. exact (rtc_extends ps _ _ (moved_env _ _ _ _ _ M7)). }
      destruct Hrep as [fault Hrep]. rewrite Hsnap in Hrep. split; [by eapply law_rebase|].
      eapply law_good_rebase; [lia| |exact Hrep]. rewrite K4, K3, K2, K1. apply (ready_extends ps (view s)); [|exact Hrdy].
      etransitivity; [exact Hx2|]. by etransitivity.
    + rewrite G7. cbn. rewrite G5, G4, G3. cbn. by rewrite G2, G1.
    + eapply (core_reader_inv _ _ (fix_eng (s_eng s3))); [|exact (reader_inv_run ps sched _ _ _ _ Hwf3 Hk Hri Hrun)].
      rewrite G7. cbn. by rewrite G5, G4.
    + rewrite G7. done.
    + intros _ st E. rewrite Hst in E. by injection E as <-.
    + intros _ st E. rewrite Hst in E. by injection E as <-.
  - by apply extends_total.
  - etransitivity; [exact Hx2|]. by etransitivity.
  - rewrite G7. cbn. rewrite G5, G4, G3. cbn. by rewrite G2, G1.
Qed.

(** ** Takeover *)

(** Giving the lock up, or taking it, moves no reader that has read frames. *)
Lemma relock_inv e e' v k p : reader_inv e v k → e_reader e' = e_reader e → e_captured e' = e_captured e →
  e_expectRestart e' = false → HeaderSize < rd_off (e_reader e) → reader_inv e' (set_pin p v) k.
Proof.
  intros [Hp Ha Hn Hof Hc] Er Ec Ee Ho. split; rewrite ?Er, ?Ec, ?Ee; try done. intros [?|?]; [done|lia].
Qed.

Lemma live_off r v k : wal_wf ps v → live r v k →
  rd_off r <= HeaderSize ∨ HeaderSize + (FrameHeaderSize + ps) <= rd_off r.
Proof.
  intros Hwf (h & Eh & _ & ->). destruct (ww_hdr _ _ Hwf h Eh) as (_ & Eps & _).
  cbn [rd_off reader_in reader_at]. unfold FrameSize. rewrite Eps.
  destruct (log_upto v k); cbn [length]; [left|right]; lia.
Qed.

Lemma consumed_frames_live e v h k : e_pageSize e = ps → wh_page_size h = ps → e_reader e = reader_in v h k →
  consumed_frames e = N.of_nat (length (log_upto v k)).
Proof.
  intros Eps Eh Er. unfold consumed_frames. rewrite Er. cbn [rd_off reader_in reader_at]. unfold FrameSize. rewrite Eps, Eh.
  unfold HeaderSize, FrameHeaderSize. destruct (N.eqb_spec (32 + N.of_nat (length (log_upto v k)) * (24 + ps)) 0); [lia|].
  replace (32 + N.of_nat (length (log_upto v k)) * (24 + ps) - 32) with (N.of_nat (length (log_upto v k)) * (24 + ps)) by lia.
  apply N.div_mul. lia.
Qed.

(** RESTART folded exactly what was consumed: everything was consumed. *)
Lemma consumed_all e v k : wal_wf ps v → (k <= ws_total v)%nat → e_pageSize e = ps →
  live (e_reader e) v k ∨ ws_hdr v = None → HeaderSize + (FrameHeaderSize + ps) <= rd_off (e_reader e) →
  ws_frames v = consumed_frames e → live (e_reader e) v k ∧ k = ws_total v.
Proof.
  intros Hwf Hk Eps [Hl|Hn] Hoff Heq.
  - split; [done|]. destruct Hl as (h & Eh & Hs & Er). destruct (ww_hdr _ _ Hwf h Eh) as (_ & Ehps & _).
    rewrite (consumed_frames_live e v h k Eps Ehps Er) in Heq. unfold ws_frames in Heq. rewrite <-log_upto_all in Heq.
    destruct (decide (k = ws_total v)) as [|Hne]; [done|].
    pose proof (log_upto_lt ps v k (ws_total v) Hwf). lia.
  - exfalso. assert (ws_frames v = 0) as E0.
    { unfold ws_frames, ws_log. rewrite drop_ge; [done|]. pose proof (ww_none _ _ Hwf Hn) as Hst. unfold ws_total in Hst. lia. }
    rewrite E0 in Heq. unfold consumed_frames in Heq. rewrite Eps in Heq. unfold HeaderSize, FrameHeaderSize in *.
    destruct (N.eqb_spec (rd_off (e_reader e)) 0); [lia|].
    assert (1 <= (rd_off (e_reader e) - 32) / (24 + ps)) by (apply N.div_le_lower_bound; lia). lia.
Qed.

(** The read lock given up, by an engine that expects nothing. *)
Lemma release_spec k s r s' : cap_inv k s → drained ps k s → s_window s = WPolled →
  HeaderSize < rd_off (e_reader (s_eng s)) → e_expectRestart (s_eng s) = false → endRead sched s = (r, s') →
  cap_inv k s' ∧ drained ps k s' ∧ extends (view s) (view s') ∧ s_window s' = WPolled ∧
  s_eng s' = set_inTx false (s_eng s) ∧ s_sink s' = s_sink s ∧ s_state s' = s_state s.
Proof.
  intros Hc Hd Hw Hoff He HE. pose proof Hc as [Hwf Hle Hrep Hps Hri].
  destruct (endRead_spec ps sched Hcalm _ _ _ Hwf HE) as (_ & G & K & T & W & v1 & M & Hv).
  rewrite Hw in M, W. destruct M as (R & Hg & _). destruct (Hg eq_refl) as [Eh Es].
  pose proof (rtc_wf ps _ _ Hwf (proj1 R)) as Hwf1. pose proof (rtc_extends ps _ _ (proj1 R)) as Hx.
  assert (∃ p, view s' = set_pin p v1) as [p Hp].
  { destruct Hv as [->| ->]; [exists (ws_pin v1); by destruct v1|by exists None]. }
  assert (extends (view s) (view s')) as Hxs by (etransitivity; [exact Hx|rewrite Hp; by apply extends_same]).
  split_and!; try done.
  - split; [destruct Hv as [->| ->]; [done|by apply set_pin_wf]| | |by rewrite G|].
    + pose proof (extends_total _ _ Hxs). lia.
    + rewrite K. by eapply holds_extends.
    + rewrite Hp. apply (relock_inv (s_eng s)); [|by rewrite G..|done].
      by apply (reader_inv_run ps sched _ (view s)).
  - destruct Hd as [Hl|Hn]; [left|right; rewrite Hp; cbn; by rewrite Eh].
    rewrite G, Hp. exact (live_same _ _ _ _ Hx Eh Es Hl).
Qed.

(** The lock taken again after a checkpoint that failed. *)
Lemma relock_spec k s s' : cap_inv k s → e_inTx (s_eng s) = false →
  HeaderSize < rd_off (e_reader (s_eng s)) → e_expectRestart (s_eng s) = false →
  beginReadRetry sched fuel s = (Ok tt, s') →
  cap_inv k s' ∧ extends (view s) (view s') ∧
  s_eng s' = set_inTx true (s_eng s) ∧ s_sink s' = s_sink s ∧ s_state s' = s_state s.
Proof.
  intros Hc Hi Hoff He HE.
  destruct (beginReadRetry_spec ps sched Hcalm _ _ _ _ (ci_wf _ _ _ _ Hc) Hi HE)
    as (G & K & T & W & v1 & b & M & Hp & Hb & Hv).
  destruct M as (R & _). pose proof (rtc_wf ps _ _ (ci_wf _ _ _ _ Hc) (proj1 R)) as Hwf1.
  assert (extends (view s) (view s')) as Hx.
  { rewrite Hv. etransitivity; [exact (rtc_extends ps _ _ (proj1 R))|by apply extends_same]. }
  split_and!; try done. split.
  - rewrite Hv. apply set_pin_wf; [done|by intros b' m [= <- <-]].
  - pose proof (extends_total _ _ Hx). pose proof (ci_le _ _ _ _ Hc). lia.
  - rewrite K. eapply holds_extends; [exact Hx|apply Hc..].
  - rewrite G. apply (ci_ps _ _ _ _ Hc).
  - rewrite Hv, G. apply (relock_inv (s_eng s)); try done.
    apply (reader_inv_run ps sched _ (view s)); [apply Hc|apply Hc|apply Hc|exact R].
Qed.

(** The lock taken again after RESTART folded exactly what was consumed: the
    next generation of the log continues the replica. *)
Lemma continue_spec k s s' : wal_wf ps (view s) → s_window s = WSealed → e_inTx (s_eng s) = false →
  ws_folded (view s) = ws_total (view s) → k = ws_total (view s) → live (e_reader (s_eng s)) (view s) k →
  holds ps (view s) k (s_sink s) → e_pageSize (s_eng s) = ps → e_captured (s_eng s) = 0 →
  beginReadRetry sched fuel s = (Ok tt, s') →
  cap_inv k (with_eng (set_expectRestart true) s') ∧ extends (view s) (view s') ∧
  s_eng s' = set_inTx true (s_eng s) ∧ s_sink s' = s_sink s ∧ s_state s' = s_state s.
Proof.
  intros Hwf Hw Hi Hf Hk Hl Hrep Hps Hcap HE.
  destruct (beginReadRetry_spec ps sched Hcalm _ _ _ _ Hwf Hi HE) as (G & K & T & W & v1 & b & M & Hp & Hb & Hv).
  destruct M as (R & _ & Hh). specialize (Hh (or_introl Hw)).
  destruct (sealed_env ps _ _ Hwf (proj1 R) Hh Hf) as (F1 & _ & F3).
  specialize (F3 _ k Hk (or_introl Hl)). pose proof (rtc_wf ps _ _ Hwf (proj1 R)) as Hwf1.
  assert (ws_total v1 = k) as Et by (unfold ws_total; rewrite Hh; done).
  pose proof (rtc_extends ps _ _ (proj1 R)) as Hx.
  assert (extends (view s) (view s')) as Hxs by (rewrite Hv; etransitivity; [exact Hx|by apply extends_same]).
  split_and!; try done. split; unfold with_eng, CaptureProps.view; cbn; fold (view s').
  - rewrite Hv. apply set_pin_wf; [done|by intros b' m [= <- <-]].
  - rewrite Hv. change (k <= ws_total v1)%nat. lia.
  - rewrite K. eapply holds_extends; [exact Hxs|lia|exact Hrep].
  - by rewrite G.
  - rewrite Hv. split; cbn; rewrite ?G; cbn.
    + destruct F3 as [?|[? _]]; [by left|by right; left].
    + intros _. split.
      * exists b, (ws_total v1). split_and!; [done|done|by apply (ww_synced _ _ Hwf1)|lia].
      * intros Hnl. by destruct F3 as [?|[_ ?]].
    + intros _ Hn. destruct F3 as [(h & E & _)|[_ ?]]; [congruence|done].
    + exact (live_off _ _ _ Hwf Hl).
    + rewrite Hcap. lia.
Qed.

Lemma takeover_spec k s r s' : eng_inv k s → drained ps k s → s_window s = WPolled → 0 < e_captured (s_eng s) →
  takeover sched copyBuf fuel s = (Ok r, s') →
  ∃ k', eng_inv k' s' ∧ (k <= k')%nat ∧ extends (view s) (view s').
Proof.
  intros [Hc Hst] Hd Hw Hcap HE. pose proof (ri_captured _ _ _ _ _ (ci_reader _ _ _ _ Hc) Hcap) as Hoff.
  assert (HeaderSize < rd_off (e_reader (s_eng s))) as Hoff' by (unfold HeaderSize, FrameHeaderSize in *; lia).
  unfold takeover in HE. rewrite bind_eng, bind_set in HE. set (s0 := with_eng _ s) in HE.
  assert (cap_inv k s0) as Hc0.
  { destruct Hc as [? ? ? ? Hri]. split; try done. destruct Hri as [Hp Ha Hn Hof Hcc]. split; try done.
    cbn. intros [?|?]; [done|lia]. }
  apply em_bind_inv in HE as [(a1 & s1 & E1 & HE)|(e & _ & [=])].
  destruct (release_spec k _ _ _ Hc0 Hd Hw Hoff' eq_refl E1) as (Hc1 & Hd1 & Hx1 & W1 & G1 & K1 & T1).
  apply em_try_inv in HE as (x & s2 & E2 & HE).
  pose proof (checkpoint_spec ps sched Hcalm _ _ _ _ _ (ci_wf _ _ _ _ Hc1) E2) as Hck. destruct x as [logN|e].
  - destruct Hck as (G2 & K2 & T2 & W2 & v2 & M2 & Hp2 & Hlog & Hv2).
    rewrite W1 in M2. destruct M2 as (R2 & Hg2 & _). destruct (Hg2 eq_refl) as [Eh2 Es2].
    pose proof (rtc_wf ps _ _ (ci_wf _ _ _ _ Hc1) (proj1 R2)) as Hwfv2. pose proof (rtc_extends ps _ _ (proj1 R2)) as Hx2.
    assert (wal_wf ps (view s2)) as Hwf2 by (rewrite Hv2; by apply folded_all_wf).
    assert (extends (view s1) (view s2)) as Hx12 by (etransitivity; [exact Hx2|rewrite Hv2; by apply extends_same]).
    pose proof (extends_total _ _ Hx12) as Ht12. pose proof (ci_le _ _ _ _ Hc1) as Hle1.
    assert (extends (view s) (view s2)) as Hxs by (etransitivity; [exact Hx1|exact Hx12]).
    rewrite bind_set in HE. set (s3 := with_eng _ s2) in HE.
    destruct (N.eqb_spec logN (consumed_frames (s_eng s))) as [Heq|Hne]; cbn [negb] in HE.
    + assert (live (e_reader (s_eng s)) v2 k ∧ k = ws_total v2) as [Hl Hk].
      { rewrite Hlog in Heq. apply (consumed_all (s_eng s)); try done; [pose proof (extends_total _ _ Hx2); lia|apply Hc|].
        destruct Hd1 as [Hl|Hn]; [left|right; congruence]. rewrite G1 in Hl. exact (live_same _ _ _ _ Hx2 Eh2 Es2 Hl). }
      rewrite bind_set in HE. set (s4 := with_eng _ s3) in HE.
      apply em_bind_inv in HE as [([] & s5 & E5 & HE)|(e & _ & [=])]. unfold set_eng in HE. injection HE as _ <-.
      destruct (continue_spec k s4 s5) as (Hc5 & Hx5 & G5 & K5 & T5); try done;
        [cbn; by rewrite G2, G1|change (view s4) with (view s2); rewrite Hv2; done..|
         cbn; rewrite G2, G1; change (view s4) with (view s2); by rewrite Hv2| |cbn; rewrite G2, G1; apply Hc|].
      { cbn [s_sink]. change (s_sink s4) with (s_sink s2). rewrite K2. eapply holds_extends; [exact Hx12|exact Hle1|apply Hc1]. }
      exists k. split_and!; [split; [exact Hc5|]|lia|etransitivity; [exact Hxs|exact Hx5]].
      apply (state_inv_same s); cbn; rewrite ?G5, ?K5, ?T5; cbn; rewrite ?G2, ?K2, ?T2, ?G1, ?T1; cbn; auto.
    + destruct (rebase_spec s3 r s' Hwf2) as (k' & Hi' & Hk' & Hx' & _); [cbn; rewrite G2, G1; apply Hc| |done|].
      { change (s_sink s3) with (s_sink s2). rewrite K2. apply (ready_extends ps (view s1)); [exact Hx12|].
        by eapply holds_ready, (ci_holds _ _ _ _ Hc1). }
      
      exists k'. change (view s3) with (view s2) in Hk', Hx'.
      split_and!; [done|lia|etransitivity; [exact Hxs|exact Hx']].
  - pose proof (cap_inv_moves ps sched k s1 s2 Hc1 Hck) as Hc2. destruct Hck as (G2 & K2 & T2 & W2 & M2). destruct r.
    destruct (relock_spec k s2 s') as (Hc5 & Hx5 & G5 & K5 & T5); try done; try (by rewrite G2, G1).
    exists k. split_and!; [split; [exact Hc5|]|lia|].
    + apply (state_inv_same s); rewrite ?G5, ?K5, ?T5, ?K2, ?T2, ?G2, ?K1, ?T1, ?G1; cbn; auto.
    + etransitivity; [exact Hx1|]. etransitivity; [apply (rtc_extends ps _ _ (moved_env _ _ _ _ _ M2))|exact Hx5].
Qed.

(** ** After a drain *)

Lemma passed_state ap k k' s s' : state_inv s → passed ps sched ap k k' s s' → state_inv s'.
Proof.
  intros Hst [(T & _ & Ee & Ec & _) _ _ Hp Hk _]. destruct ap.
  - destruct Hp as [Hd Hc]. destruct Hst as [_ _ Hn]. split; [done|by rewrite Hd|].
    unfold not_clean. rewrite T, Ee, Ec. exact Hn.
  - destruct Hp as [P1 P2]. eapply state_inv_same; [exact Hst|by auto..| |]; rewrite ?Ee, ?Ec; auto.
Qed.

Lemma afterDrain_spec ap k n s r s' : eng_inv k s → drained ps k s → s_window s = WPolled →
  (ap = true ↔ 0 < n) → (ap = true → e_stateDirty (s_eng s) = true) →
  (ap = true → HeaderSize + (FrameHeaderSize + ps) <= rd_off (e_reader (s_eng s))) →
  afterDrain sched copyBuf fuel n s = (Ok r, s') →
  ∃ k', eng_inv k' s' ∧ (k <= k')%nat ∧ extends (view s) (view s').
Proof.
  intros [Hc Hst] Hd Hw Hap Hdirty Hoff HE. unfold afterDrain in HE.
  apply em_bind_inv in HE as [([] & s1 & E1 & HE)|(e & _ & [=])].
  destruct (persistConsumed_spec ps sched Hcalm _ _ _ (ci_wf _ _ _ _ Hc) E1) as (G1 & P1 & K1 & W1 & M1 & Hcase).
  pose proof (cap_inv_env ps sched k s s1 Hc (moved_run _ _ _ _ _ M1) K1 G1) as Hc1.
  rewrite Hw in M1. destruct M1 as (R1 & Hg1 & _). injection G1 as _ Er1 _ Ec1 Ee1.
  pose proof (drained_moved ps k s s1 Hd (proj1 R1) (Hg1 eq_refl) Er1) as Hd1.
  pose proof (rtc_extends ps _ _ (proj1 R1)) as Hx1.
  assert ((ap = true → not_clean s1) ∧ state_inv s1) as [Hnc Hst1].
  { destruct Hcase as [(Hnd & -> & _)|[(Hy & _ & Hnd & Hs)|(_ & [=] & _)]].
    - split; [|done]. intros Ha. by rewrite (Hdirty Ha) in Hnd.
    - assert (not_clean s1) as Hn.
      { intros st E. rewrite Hs in E. injection E as <-. apply (si_pend _ Hst). }
      split; [done|]. split; [by rewrite P1; apply (si_pend _ Hst)|intros _; by apply not_clean_ok|done]. }
  apply em_bind_inv in HE as [([] & s2 & E2 & HE)|(e & _ & [=])].
  assert (eng_inv k s2 ∧ drained ps k s2 ∧ s_window s2 = WPolled ∧ view s2 = view s1) as ([Hc2 Hst2] & Hd2 & W2 & V2).
  { destruct (N.ltb_spec 0 n) as [Hn|Hn]; injection E2 as <-; [|split_and!; [done|done|congruence|done]].
    apply Hap in Hn. split_and!; [split|done|cbn; congruence|done].
    - destruct Hc1 as [? ? ? ? [Hp Ha Hno Hof Hcc]]. split; try done. split; try done.
      intros _. cbn. rewrite Er1. by apply Hoff.
    - destruct Hst1 as [Hp Hcl Hco]. split; try done. intros _. exact (Hnc Hn). }
  rewrite bind_eng in HE.
  apply em_bind_inv in HE as [(due & s3 & E3 & HE)|(e & _ & [=])].
  assert (moves s2 s3 ∧ (due = true → 0 < e_captured (s_eng s2))) as [M3 Hdue].
  { destruct (N.leb_spec takeoverFrameThreshold (e_captured (s_eng s2))) as [Hle|Hlt].
    - injection E3 as <- <-. split; [reflexivity|]. unfold takeoverFrameThreshold in Hle. lia.
    - destruct (N.ltb_spec 0 (e_captured (s_eng s2))) as [Hpos|_].
      + destruct (late_moves ps sched Hcalm _ _ _ (ci_wf _ _ _ _ Hc2) E3) as [M _]. by split.
      + injection E3 as <- <-. by split; [reflexivity|]. }
  assert (eng_inv k s3) as Hi3 by (by apply (eng_inv_moves k s2)).
  destruct M3 as (G3 & K3 & T3 & W3 & M3). rewrite W2 in M3. destruct M3 as (R3 & Hg3 & _).
  pose proof (rtc_extends ps _ _ (proj1 R3)) as Hx3. rewrite V2 in Hx3.
  destruct due; [|injection HE as _ <-; exists k; split_and!; [done|lia|by etransitivity]].
  apply em_try_inv in HE as (x & s4 & E4 & HE). destruct x as [x|e].
  - injection HE as _ <-. destruct (takeover_spec k s3 x s4) as (k' & Hi' & Hk' & Hx'); try done; [|congruence|rewrite G3; auto|].
    + apply (drained_moved ps k s2); [done|apply R3|by apply Hg3|by rewrite G3].
    + exists k'. split_and!; [done|done|]. etransitivity; [exact Hx1|]. by etransitivity.
  - exfalso. apply em_bind_inv in HE as [(c & s5 & E5 & HE)|(e5 & _ & [=])].
    unfold ctx_Err in E5. apply em_bind_inv in E5 as [(ch & s6 & [= <- <-] & [= <- <-])|(e6 & [=] & _)].
    by rewrite (calm_ctx _ _ Hcalm) in HE.
Qed.
End poll.
