(* ===== verification/CaptureRun.v ===== *)
(** * The capture engine: polls, requests, runs

    [pollOnce] and [serviceReq] keep the invariant; a request that returns
    without error captured everything committed before it; what a run of
    [Run]'s loop, a resume and a shutdown leave. *)
From Stdlib Require Import Strings.Byte.
From S2P Require Import Prelude Files Wal WalProps Session WalDb WalDbProps Capture CaptureProps CaptureDrain CapturePoll.
Local Open Scope N_scope.

Section run.
Context {D S : Type} `{WalDb D} `{Sink S} (ps : N) `{!WalDbLaws D ps} `{!SinkLaws S ps}.
Context (sched : schedule (D:=D) (S:=S)) (sha256 : bytes → string) (copyBuf fuel : nat) (Hcalm : calm ps sched).

Abbreviation sys := (sys (D:=D) (S:=S)).
Abbreviation EM := (EM (D:=D) (S:=S)).
Abbreviation view := (view (D:=D) (S:=S) ps).
Abbreviation replica := (replica (D:=D) (S:=S) ps).
Abbreviation env_run := (env_run ps sched).
Abbreviation cap_inv := (cap_inv (D:=D) (S:=S) ps sched).
Abbreviation eng_inv := (eng_inv (D:=D) (S:=S) ps sched sha256).
Abbreviation reader_inv := (reader_inv (D:=D) ps sched).
Abbreviation state_inv := (state_inv (D:=D) (S:=S) ps sha256).

(** ** The size of the log *)

(** [target] bytes hold every transaction the log held at [v]. *)
Definition covers (target : N) (v : wal_state) : Prop :=
  ∀ h, ws_hdr v = Some h → HeaderSize + ws_frames v * FrameSize h <= target.

Lemma wal_file_covers v b : wal_wf ps v → wal_file v (Ok b) → covers (N.of_nat (length b)) v.
Proof.
  intros Hwf Hf h E. unfold wal_file in Hf. rewrite E in Hf. destruct Hf as (rest & Hb & _).
  cbv zeta in Hb. assert (b = (header_bytes h ++ run_bytes h (seed h) (concat (ws_log v)) ++ rest)%list) as -> by congruence.
  destruct (ww_hdr _ _ Hwf h E) as (_ & Eps & _).
  assert (Forall (write_ok h) (concat (ws_log v))) as Hwo.
  { rewrite Forall_concat. apply Forall_drop. pose proof (ww_txs _ _ Hwf) as Hall. rewrite Forall_forall in Hall.
    apply Forall_forall. intros t Ht. destruct (Hall t Ht h Eps) as (? & ? & _ & ? & _). done. }
  rewrite !length_app, (length_run_bytes h _ _ Hwo). unfold ws_frames.
  assert (length (header_bytes h) = N.to_nat HeaderSize) as -> by done. lia.
Qed.

Lemma generation_or_later v v' : wal_wf ps v → rtc (env_step ps) v v' →
  (same_gen v v' ∧ extends v v') ∨ (ws_total v <= ws_start v')%nat.
Proof.
  intros Hwf Hr. revert Hwf. induction Hr as [v|v v1 v2 Hst Hr IH]; intros Hwf; [by left|].
  pose proof (extends_total _ _ (env_extends ps _ _ Hst)) as Ht.
  destruct (IH (env_wf ps _ _ Hwf Hst)) as [[[Eh Es] Hx]|Hle]; [|right; lia].
  destruct (env_generation ps _ _ Hwf Hst) as [[Eh1 Es1]|(_ & Es1 & _)].
  - left. split; [split; congruence|]. etransitivity; [by eapply env_extends|done].
  - right. lia.
Qed.

(** A reader past the log's size has read what the log held. *)
Lemma covered v v' r k target : wal_wf ps v → wal_wf ps v' → rtc (env_step ps) v v' → covers target v →
  live r v' k → target <= rd_off r → (ws_total v <= k)%nat.
Proof.
  intros Hwf Hwf' Hr Hc (h & Eh & Hs & ->) Ht.
  destruct (generation_or_later v v' Hwf Hr) as [[[Eh' Es'] Hx]|Hle]; [|lia].
  rewrite Eh' in Eh. specialize (Hc h Eh). cbn [rd_off reader_in reader_at] in Ht.
  unfold ws_frames in Hc. rewrite <-log_upto_all, <-(log_upto_extend v v' (ws_total v) Es' (proj2 Hx)) in Hc by lia.
  destruct (decide (ws_total v <= k)%nat) as [|Hlt]; [done|exfalso].
  pose proof (log_upto_lt ps v' k (ws_total v) Hwf'). pose proof (extends_total _ _ Hx). unfold FrameSize, FrameHeaderSize in *. nia.
Qed.

(** ** Small steps *)

Definition same_but_db (s s' : sys) : Prop :=
  s_eng s' = s_eng s ∧ s_sink s' = s_sink s ∧ s_state s' = s_state s ∧ env_run (view s) (view s').

Lemma ext_any c s r s' : wal_wf ps (view s) → ext sched c s = (r, s') →
  same_but_db s s' ∧ s_window s' = s_window s ∧ r = Ok (sched (s_now s) (s_window s) c).
Proof. intros Hwf [= <- <-]. split; [|done]. split_and!; [done..|]. by apply law_env_run. Qed.

Lemma stat_spec s r s' : wal_wf ps (view s) → stat_wal sched s = (r, s') →
  same_but_db s s' ∧ s_window s' = s_window s ∧
  (r = Err [EIO] ∨ ∃ f, wal_file (view s') f ∧ r = (λ b : bytes, N.of_nat (length b)) <$> f).
Proof.
  intros Hwf HE. unfold stat_wal, ext_io in HE.
  apply em_bind_inv in HE as [(ch & s1 & E & E')|(e & E & ->)];
    (apply em_bind_inv in E as [(ch1 & s0 & E0 & E)|(e1 & [=] & _)];
     destruct (ext_any _ _ _ _ Hwf E0) as (Hs & Hw & _); destruct (ch_fail ch1); unfold mret, em_ret, fail in E; simplify_eq).
  - injection E' as <- <-. split; [exact Hs|]. split; [exact Hw|]. right. exists (db_wal (s_db s1)). split; [|done].
    apply law_wal. eapply rtc_wf; [exact Hwf|apply Hs].
  - split; [exact Hs|]. split; [exact Hw|]. by left.
Qed.

Lemma drainTarget_spec s n s' : wal_wf ps (view s) → drainTarget sched s = (Ok n, s') →
  same_but_db s s' ∧ covers n (view s').
Proof.
  intros Hwf HE. unfold drainTarget in HE. apply em_try_inv in HE as (x & s1 & E & HE).
  destruct (stat_spec _ _ _ Hwf E) as (Hs & _ & Hf).
  assert (wal_wf ps (view s1)) as Hwf1 by (eapply rtc_wf; [exact Hwf|apply Hs]).
  destruct Hf as [->|(f & Hf & ->)]; [done|]. destruct f as [b|e]; cbn in HE.
  - injection HE as <- <-. split; [done|]. by apply wal_file_covers.
  - destruct (errors_Is e ErrNotFound); [|done]. injection HE as <- <-. split; [done|]. intros h Eh.
    unfold wal_file in Hf. rewrite Eh in Hf. by destruct Hf as (? & [=] & _).
Qed.

Lemma cap_inv_same k s s' : cap_inv k s → same_but_db s s' → cap_inv k s'.
Proof. intros Hc (E & K & _ & R). eapply cap_inv_env; [exact Hc|exact R|done|by rewrite E]. Qed.

Lemma eng_inv_same k s s' : eng_inv k s → same_but_db s s' → eng_inv k s'.
Proof.
  intros [Hc Hs] M. split; [by eapply cap_inv_same|]. destruct M as (E & K & T & _).
  eapply state_inv_same; [exact Hs|done|done|rewrite E; auto..].
Qed.

Lemma same_extends s s' : same_but_db s s' → extends (view s) (view s').
Proof. intros (_ & _ & _ & R & _). by eapply rtc_extends. Qed.

(** Only the fields of [core] and the pending state matter. *)
Lemma eng_inv_relabel k s s' : eng_inv k s → env_run (view s) (view s') → s_sink s' = s_sink s →
  s_state s' = s_state s → core (s_eng s') = core (s_eng s) → e_pendState (s_eng s') = e_pendState (s_eng s) →
  e_stateDirty (s_eng s') = e_stateDirty (s_eng s) → eng_inv k s'.
Proof.
  intros [Hc Hs] R K T Ec Ep Ed. split; [by eapply cap_inv_env|]. injection Ec as _ _ _ E4 E5.
  eapply state_inv_same; [exact Hs|done..| |]; rewrite ?E4, ?E5; auto.
Qed.

(** ** An expected restart *)

(** The reader rebinds to the generation that starts where the replica ends. *)
Lemma continue_reader_spec k s s' : eng_inv k s → e_expectRestart (s_eng s) = true → restarted ps s →
  e_reader (s_eng s') = NewReader → e_expectRestart (s_eng s') = false →
  e_pageSize (s_eng s') = e_pageSize (s_eng s) → e_captured (s_eng s') = 0 →
  e_pendState (s_eng s') = zeroState → e_stateDirty (s_eng s') = false →
  s_db s' = s_db s → s_sink s' = s_sink s → s_state s' = s_state s → eng_inv k s'.
Proof.
  intros [Hc Hst] He [Hs _] E1 E2 E3 E4 E5 E6 Ed Ek Es. destruct Hc as [Hwf Hle Hrep Hps [Hp Ha Hn Hof Hcc]].
  destruct (Ha (or_introl He)) as [Han Hnl].
  assert (¬ live (e_reader (s_eng s)) (view s) k) as Hnot.
  { intros (h & Eh & _ & Er). destruct Hs as (_ & _ & Hne). apply (Hne h Eh). by rewrite Er. }
  specialize (Hnl Hnot). assert (view s' = view s) as Ev by (unfold CaptureProps.view; by rewrite Ed).
  split; [split|split].
  - by rewrite Ev.
  - by rewrite Ev.
  - unfold CaptureProps.replica. rewrite Ek, Ev. exact Hrep.
  - by rewrite E3.
  - rewrite Ev. split; rewrite ?E1, ?E2, ?E4; auto; [by left|lia].
  - by rewrite E5.
  - intros _ st E. rewrite Es in E. intros Hcl. by rewrite (si_cont _ _ _ Hst (or_introl He) st E) in Hcl.
  - rewrite E2, E4. intros [?|?]; [done|lia].
Qed.

(** ** Polls *)

Lemma cap_ready k s : cap_inv k s → ready ps (view s) (s_sink s).
Proof. intros Hc. eapply holds_ready; [apply (ci_le _ _ _ _ Hc)|apply (ci_holds _ _ _ _ Hc)]. Qed.

Lemma try_rebase_spec s r s' : wal_wf ps (view s) → e_pageSize (s_eng s) = ps → ready ps (view s) (s_sink s) →
  try_rebase sched copyBuf fuel s = (Ok r, s') →
  ∃ k, eng_inv k s' ∧ (ws_total (view s) <= k)%nat ∧ extends (view s) (view s').
Proof.
  intros Hwf Hps Hrdy HE. unfold try_rebase in HE. apply em_try_inv in HE as (x & s1 & E & HE). destruct x as [x|e].
  - injection HE as _ <-. destruct (rebase_spec ps sched sha256 copyBuf fuel Hcalm s x s1 Hwf Hps Hrdy E) as (k & ? & ? & ? & _).
    by exists k.
  - exfalso. apply em_bind_inv in HE as [(c & s5 & E5 & HE)|(e5 & _ & [=])].
    unfold ctx_Err in E5. apply em_bind_inv in E5 as [(ch & s6 & [= <- <-] & [= <- <-])|(e6 & [=] & _)].
    by rewrite (calm_ctx _ _ Hcalm) in HE.
Qed.

Lemma is_restarted_inv {A} (r : res A) : is_restarted r = true → r = Err [EWALRestarted].
Proof. destruct r as [a|e]; [done|]. cbn. by intros ->%bool_decide_eq_true. Qed.

(** What any poll leaves. *)
Definition polled (k : nat) (s s' : sys) : Prop :=
  ∃ k', eng_inv k' s' ∧ (k <= k')%nat ∧ extends (view s) (view s').

Lemma pollOnce_spec k s r s' : eng_inv k s → s_window s = WOpen →
  pollOnce sched copyBuf fuel s = (Ok r, s') → polled k s s'.
Proof.
  intros [Hc Hst] Hw HE. unfold pollOnce in HE. apply em_try_inv in HE as (x & s1 & E & HE).
  pose proof (drain_loop_spec ps sched Hcalm fuel false k k s s 0 x s1 (passed_refl _ _ _ _ Hc)
    (or_introl Hw) ltac:(done) E) as Hd.
  destruct (is_restarted x) eqn:Er.
  - apply is_restarted_inv in Er as ->. destruct (proj2 Hd eq_refl) as (ap & k' & Hp & Hr).
    pose proof (passed_state ps sched sha256 ap _ _ _ _ Hst Hp) as Hst1. destruct Hp as [(_ & _ & _ & _ & R1) Hk Hi1 _ _ _].
    rewrite bind_eng in HE. destruct (e_expectRestart (s_eng s1)) eqn:He.
    + unfold continue_reader, clearPendState in HE.
      apply em_bind_inv in HE as [([] & s2 & E2 & HE)|(e & _ & [=])]. rewrite bind_set in E2. injection E2 as <-.
      unfold armDeadTailBaseline in HE. apply em_bind_inv in HE as [([] & s3 & E3 & HE)|(e & _ & [=])].
      apply em_try_inv in E3 as (y & s4 & E4 & E3). injection E3 as <-. injection HE as _ <-.
      match type of E4 with stat_wal _ ?x = _ => set (s2 := x) in E4 end.
      destruct (stat_spec _ _ _ (ci_wf _ _ _ _ Hi1 : wal_wf ps (view s2)) E4) as ((G & K & T & R) & _).
      exists k'. split_and!; [|done|etransitivity; [exact (rtc_extends ps _ _ (proj1 R1))|exact (rtc_extends ps _ _ (proj1 R))]].
      set (s5 := with_eng (set_captured 0) s2).
      assert (eng_inv k' s5) as Hi5 by (by apply (continue_reader_spec k' s1)).
      eapply (eng_inv_relabel k' s5); [exact Hi5|..]; cbn; rewrite ?G, ?K, ?T; done.
    + destruct (try_rebase_spec s1 r s' (ci_wf _ _ _ _ Hi1) (ci_ps _ _ _ _ Hi1) (cap_ready _ _ Hi1) HE) as (k2 & Hi2 & Hk2 & Hx2).
      exists k2. pose proof (ci_le _ _ _ _ Hi1). split_and!; [done|lia|].
      etransitivity; [exact (rtc_extends ps _ _ (proj1 R1))|exact Hx2].
  - destruct x as [n|e]; [|done]. destruct Hd as (ap & k' & Hp & Hw1 & Hd1 & Hap).
    pose proof (passed_state ps sched sha256 ap _ _ _ _ Hst Hp) as Hst1.
    destruct Hp as [(_ & _ & _ & _ & R1) Hk Hi1 Hpe _ Hoff].
    destruct (afterDrain_spec ps sched sha256 copyBuf fuel Hcalm ap k' n s1 r s') as (k2 & Hi2 & Hk2 & Hx2); try done.
    { intros ->. apply Hpe. }
    exists k2. split_and!; [done|lia|]. etransitivity; [exact (rtc_extends ps _ _ (proj1 R1))|exact Hx2].
Qed.

(** The target was computed when the log was at [v]. *)
Lemma pollOnceTo_spec n : ∀ k s v target r s', eng_inv k s → wal_wf ps v → rtc (env_step ps) v (view s) → covers target v →
  pollOnceTo_loop sched copyBuf fuel n target s = (Ok r, s') →
  ∃ k', eng_inv k' s' ∧ (k <= k')%nat ∧ extends (view s) (view s') ∧ (no_truncate ps sched → (ws_total v <= k')%nat).
Proof.
  induction n as [|n IH]; intros k s v target r s' [Hc Hst] Hwfv Hv Hcov HE; [done|].
  cbn [pollOnceTo_loop] in HE. apply em_try_inv in HE as (x & s1 & E & HE).
  pose proof (drainUntil_loop_spec ps sched Hcalm fuel false k k s s 0 target x s1 (passed_refl _ _ _ _ Hc)
    ltac:(done) E) as Hd.
  destruct (is_restarted x) eqn:Er.
  - apply is_restarted_inv in Er as ->. destruct (Hd eq_refl) as (ap & k' & Hp & Hr).
    pose proof (passed_state ps sched sha256 ap _ _ _ _ Hst Hp) as Hst1. destruct Hp as [(_ & _ & _ & _ & R1) Hk Hi1 _ _ _].
    assert (rtc (env_step ps) v (view s1)) as Hv1 by (etransitivity; [exact Hv|apply R1]).
    pose proof (extends_total _ _ (rtc_extends ps _ _ Hv1)) as Ht1.
    rewrite bind_eng in HE. destruct (e_expectRestart (s_eng s1)) eqn:He.
    + unfold continue_reader, clearPendState in HE.
      apply em_bind_inv in HE as [([] & s2 & E2 & HE)|(e & _ & [=])]. rewrite bind_set in E2. injection E2 as <-.
      rewrite bind_set in HE. match type of HE with _ ?x = _ => set (s2 := x) in HE end.
      assert (eng_inv k' s2) as Hi2 by (by apply (continue_reader_spec k' s1)).
      apply em_bind_inv in HE as [(nt & s3 & E3 & HE)|(e & _ & [=])].
      destruct (drainTarget_spec _ _ _ (ci_wf _ _ _ _ (ei_cap _ _ _ _ _ Hi2)) E3) as [Hs3 Hcov3].
      pose proof (eng_inv_same _ _ _ Hi2 Hs3) as Hi3. rewrite bind_set in HE.
      destruct (IH k' (with_eng (set_deadTail nt) s3) (view s3) nt r s') as (k2 & Hi' & Hk2 & Hx2 & Hn2); try done.
      { by eapply eng_inv_relabel. }
      { apply (ei_cap _ _ _ _ _ Hi3). }
      exists k2. pose proof (same_extends _ _ Hs3) as Hx3. split_and!; [done|lia| |].
      * etransitivity; [exact (rtc_extends ps _ _ (proj1 R1))|]. etransitivity; [exact Hx3|exact Hx2].
      * intros Hno. specialize (Hn2 Hno). pose proof (extends_total _ _ Hx3) as Ht3. change (view s2) with (view s1) in Ht3. lia.
    + destruct (try_rebase_spec s1 r s' (ci_wf _ _ _ _ Hi1) (ci_ps _ _ _ _ Hi1) (cap_ready _ _ Hi1) HE) as (k2 & Hi2 & Hk2 & Hx2).
      exists k2. pose proof (ci_le _ _ _ _ Hi1). split_and!; [done|lia| |lia].
      etransitivity; [exact (rtc_extends ps _ _ (proj1 R1))|exact Hx2].
  - destruct x as [c|e]; [|done]. destruct Hd as (ap & k' & Hp & Hw1 & Hap & Hdone).
    pose proof (passed_state ps sched sha256 ap _ _ _ _ Hst Hp) as Hst1.
    destruct Hp as [(_ & _ & _ & _ & R1) Hk Hi1 Hpe _ Hoff].
    assert (rtc (env_step ps) v (view s1)) as Hv1 by (etransitivity; [exact Hv|apply R1]).
    assert (drained ps k' s1) as Hd1.
    { destruct Hdone as [Hcu|[Hl _]]; [by apply caught_up_drained|by left]. }
    destruct (afterDrain_spec ps sched sha256 copyBuf fuel Hcalm ap k' c s1 r s') as (k2 & Hi2 & Hk2 & Hx2); try done.
    { intros ->. apply Hpe. }
    exists k2. split_and!; [done|lia|etransitivity; [exact (rtc_extends ps _ _ (proj1 R1))|exact Hx2]|].
    intros Hno. enough (ws_total v <= k')%nat by lia. pose proof (extends_total _ _ (rtc_extends ps _ _ Hv1)) as Ht.
    destruct Hdone as [[[_ ->]|Hn]|[Hl Ht']]; [done| |].
    + rewrite <-(ri_none _ _ _ _ _ (ci_reader _ _ _ _ Hi1) Hno Hn), (ww_none _ _ (ci_wf _ _ _ _ Hi1) Hn). done.
    + by eapply (covered v (view s1)); [|apply Hi1|..].
Qed.

Lemma serviceReq_spec k s r s' : eng_inv k s → serviceReq sched copyBuf fuel s = (Ok r, s') →
  ∃ k', eng_inv k' s' ∧ (k <= k')%nat ∧ extends (view s) (view s') ∧ (no_truncate ps sched → (ws_total (view s) <= k')%nat).
Proof.
  intros Hi HE. unfold serviceReq in HE. apply em_bind_inv in HE as [(t & s1 & E & HE)|(e & _ & [=])].
  destruct (drainTarget_spec _ _ _ (ci_wf _ _ _ _ (ei_cap _ _ _ _ _ Hi)) E) as [Hs Hcov].
  pose proof (eng_inv_same _ _ _ Hi Hs) as Hi1. pose proof (same_extends _ _ Hs) as Hx1.
  destruct (pollOnceTo_spec 2 k s1 (view s1) t r s' Hi1) as (k' & Hi' & Hk & Hx & Hn); try done.
  { apply (ei_cap _ _ _ _ _ Hi1). }
  exists k'. split_and!; [done|done|by etransitivity|]. intros Hno. specialize (Hn Hno). pose proof (extends_total _ _ Hx1). lia.
Qed.
End run.
