(* ===== verification/CaptureShut.v ===== *)
(** * The capture engine: resume and shutdown

    [tryResume] accepts only a replica equal to the database, and [shutdown]
    marks the state clean only over such a replica; a run's start and end. *)
From Stdlib Require Import Strings.Byte.
From S2P Require Import Prelude Files Wal WalProps Session WalDb WalDbProps Capture CaptureProps CaptureDrain CapturePoll CaptureRun.
Local Open Scope N_scope.

Section shut.
Context {D S : Type} `{WalDb D} `{Sink S} (ps : N) `{!WalDbLaws D ps} `{!SinkLaws S ps}.
Context (sched : schedule (D:=D) (S:=S)) (sha256 : bytes → string) (copyBuf fuel : nat) (Hcalm : calm ps sched).
Context (sha_inj : ∀ a b, sha256 a = sha256 b → a = b).

Abbreviation sys := (sys (D:=D) (S:=S)).
Abbreviation EM := (EM (D:=D) (S:=S)).
Abbreviation view := (view (D:=D) (S:=S) ps).
Abbreviation replica := (replica (D:=D) (S:=S) ps).
Abbreviation env_run := (env_run ps sched).
Abbreviation cap_inv := (cap_inv (D:=D) (S:=S) ps sched).
Abbreviation eng_inv := (eng_inv (D:=D) (S:=S) ps sched sha256).
Abbreviation reader_inv := (reader_inv (D:=D) ps sched).
Abbreviation state_inv := (state_inv (D:=D) (S:=S) ps sha256).
Abbreviation clean_ok := (clean_ok (D:=D) (S:=S) ps sha256).

(** ** Resume *)

(** What an engine that has not run yet must find. *)
Record start_ok (s : sys) : Prop := {
  so_wf : wal_wf ps (view s);
  so_tx : e_inTx (s_eng s) = false;
  so_ps : e_pageSize (s_eng s) = ps;
  so_pend : st_Clean (e_pendState (s_eng s)) = false;
  so_clean : clean_ok s;
  so_start : sink_start (s_sink s) }.

Lemma endRead_any s r s' : wal_wf ps (view s) → endRead sched s = (r, s') →
  wal_wf ps (view s') ∧ extends (view s) (view s') ∧ s_eng s' = set_inTx false (s_eng s) ∧
  s_sink s' = s_sink s ∧ s_state s' = s_state s.
Proof.
  intros Hwf HE. destruct (endRead_spec ps sched Hcalm _ _ _ Hwf HE) as (_ & G & K & T & W & v1 & M & Hv).
  pose proof (rtc_wf ps _ _ Hwf (moved_env _ _ _ _ _ M)) as Hwf1.
  pose proof (rtc_extends ps _ _ (moved_env _ _ _ _ _ M)) as Hx.
  destruct Hv as [->| ->]; split_and!; try done; by apply set_pin_wf.
Qed.

(** An empty log file under the read lock: everything is folded and frozen. *)
Lemma empty_frozen v b m : wal_wf ps v → ws_pin v = Some (b, m) → ws_hdr v = None →
  frozen v (ws_total v) ∧ ws_start v = ws_total v.
Proof.
  intros Hwf Hp Hn. pose proof (ww_none _ _ Hwf Hn) as Hs. pose proof (ww_start _ _ Hwf). pose proof (ww_folded _ _ Hwf).
  destruct (ww_pin _ _ Hwf b m Hp) as [Hm _]. split; [|done]. exists b. assert (ws_folded v = ws_total v) as Ef by lia.
  split_and!; [rewrite Hp; repeat f_equal; lia|done|by apply (ww_synced _ _ Hwf)].
Qed.

(** The -wal file has no complete header. *)
Definition no_header (r : res N) : bool :=
  match r with Ok size => size <? HeaderSize | Err e => errors_Is e ErrNotFound end.

Lemma stat_empty s r s' : wal_wf ps (view s) → stat_wal sched s = (r, s') →
  same_but_db ps sched s s' ∧ s_window s' = s_window s ∧ (no_header r = true → ws_hdr (view s') = None).
Proof.
  intros Hwf HE. destruct (stat_spec ps sched s r s' Hwf HE) as (Hs & Hw & Hf). split; [done|]. split; [done|].
  intros Hno. destruct (ws_hdr (view s')) as [h|] eqn:Eh; [exfalso|done].
  destruct Hf as [->|(f & Hf & ->)]; [done|].
  pose proof Hf as Hf'. unfold wal_file in Hf'. rewrite Eh in Hf'. destruct Hf' as (rest & Hb & _). cbv zeta in Hb.
  assert (f = Ok (header_bytes h ++ run_bytes h (seed h) (concat (ws_log (view s'))) ++ rest)%list) as -> by congruence.
  cbn [fmap res_fmap no_header] in Hno. rewrite length_app in Hno.
  assert (length (header_bytes h) = 32%nat) as E by done. apply N.ltb_lt in Hno. unfold HeaderSize in Hno. lia.
Qed.

Lemma no_header_eq (r : res N) :
  match r with Ok size => HeaderSize <=? size | Err e => negb (errors_Is e ErrNotFound) end = negb (no_header r).
Proof. destruct r as [n|e]; cbn; [|done]. destruct (N.leb_spec HeaderSize n), (N.ltb_spec n HeaderSize); done || lia. Qed.

Lemma hashSrc_spec s r s' m : wal_wf ps (view s) → frozen (view s) m → hashSrc sched sha256 copyBuf s = (r, s') →
  moves ps sched s s' ∧ ∀ h, r = Ok h → h = sha256 (db_at ps (view s') m).
Proof.
  intros Hwf Hf HE. unfold hashSrc in HE.
  apply em_bind_inv in HE as [(file & s1 & E & HE)|(e & E & ->)];
    destruct (copySrc_spec ps sched copyBuf Hcalm _ _ _ _ Hwf Hf E) as [M Hc]; [|done].
  injection HE as <- <-. split; [done|]. intros h [= <-]. by rewrite (Hc file eq_refl).
Qed.

Lemma tryResume_spec s b s' : start_ok s → tryResume sched sha256 copyBuf s = (Ok b, s') →
  wal_wf ps (view s') ∧ e_pageSize (s_eng s') = ps ∧ extends (view s) (view s') ∧
  (b = false → e_resumed (s_eng s') = e_resumed (s_eng s) ∧ s_sink s' = s_sink s) ∧
  (b = true → ∃ k, eng_inv k s' ∧ (ws_total (view s) <= k)%nat ∧ frozen (view s') k ∧ replica s' = replica s).
Proof.
  intros [Hwf Hi Hps Hpend Hclean Hstart] HE. unfold tryResume in HE.
  apply em_bind_inv in HE as [(st & s1 & E1 & HE)|(e & _ & [=])]. unfold LoadState, ext_io in E1.
  apply em_bind_inv in E1 as [(ch & s0 & E0 & E1)|(e & _ & [=])]. unfold gets in E1. injection E1 as <- <-.
  apply em_bind_inv in E0 as [(ch0 & s1 & E1 & E0)|(e & _ & [=])].
  destruct (ext_any ps sched _ _ _ _ Hwf E1) as ((G1 & K1 & T1 & R1) & _). destruct (ch_fail ch0); [done|]. injection E0 as _ <-.
  pose proof (rtc_wf ps _ _ Hwf (proj1 R1)) as Hwf1. pose proof (rtc_extends ps _ _ (proj1 R1)) as Hx1.
  destruct (s_state s1) as [st|] eqn:Est; [|injection HE as <- <-; rewrite G1, K1; by split_and!].
  destruct (st_Clean st) eqn:Ecl; cbn [negb] in HE; [|injection HE as <- <-; rewrite G1, K1; by split_and!].
  apply em_bind_inv in HE as [([] & s2 & E2 & HE)|(e & _ & [=])].
  destruct (beginRead_spec ps sched Hcalm _ _ _ Hwf1 E2)
    as [[? _]|(_ & G2 & K2 & T2 & W2 & v2 & bb & M2 & Hp2 & Hb2 & Hv2)]; [congruence|].
  assert (wal_wf ps (view s2)) as Hwf2.
  { rewrite Hv2. apply set_pin_wf; [by eapply rtc_wf, moved_env|by intros b' m [= <- <-]]. }
  assert (extends (view s) (view s2)) as Hx2.
  { etransitivity; [exact Hx1|]. etransitivity; [exact (rtc_extends ps _ _ (moved_env _ _ _ _ _ M2))|].
    rewrite Hv2. by apply extends_same. }
  apply em_try_inv in HE as (fi & s3 & E3 & HE). rewrite no_header_eq in HE.
  destruct (stat_empty _ _ _ Hwf2 E3) as ((G3 & K3 & T3 & R3) & W3 & Hempty).
  pose proof (rtc_wf ps _ _ Hwf2 (proj1 R3)) as Hwf3.
  assert (extends (view s) (view s3)) as Hx3 by (etransitivity; [exact Hx2|exact (rtc_extends ps _ _ (proj1 R3))]).
  assert (∀ s4 s5, wal_wf ps (view s4) → extends (view s) (view s4) → s_eng s4 = s_eng s3 → s_sink s4 = s_sink s3 →
    (endRead sched ≫= λ _, mret false) s4 = (Ok b, s5) →
    b = false ∧ wal_wf ps (view s5) ∧ e_pageSize (s_eng s5) = ps ∧ extends (view s) (view s5) ∧
    e_resumed (s_eng s5) = e_resumed (s_eng s) ∧ s_sink s5 = s_sink s) as Hno.
  { intros s4 s5 Hwf4 Hx4 G4 K4 HE4. apply em_bind_inv in HE4 as [(a & s6 & E6 & HE4)|(e & _ & [=])]. injection HE4 as <- <-.
    destruct (endRead_any _ _ _ Hwf4 E6) as (Hwf6 & Hx6 & G6 & K6 & _).
    split_and!; [done|done|rewrite G6, G4, G3, G2; cbn; by rewrite G1|by etransitivity|rewrite G6, G4, G3, G2; cbn; by rewrite G1|].
    by rewrite K6, K4, K3, K2, K1. }
  destruct (no_header fi); cbn [negb] in HE; [|destruct (Hno s3 s' Hwf3 Hx3 eq_refl eq_refl HE) as (-> & ? & ? & ? & ? & ?); by split_and!].
  specialize (Hempty eq_refl).
  destruct (empty_frozen (view s3) bb (ws_total v2) Hwf3) as [Hf3 Hs3]; [by rewrite (rtc_pin ps _ _ (proj1 R3)), Hv2|done|].
  apply em_try_inv in HE as (hash & s4 & E4 & HE).
  destruct (hashSrc_spec _ _ _ _ Hwf3 Hf3 E4) as [M4 Hh]. set (k := ws_total (view s3)) in *.
  destruct (frozen_db ps sched _ _ _ Hwf3 Hf3 M4) as (Hwf4 & Hf4 & Edb4).
  pose proof (extends_total _ _ Hx3) as Htot. pose proof M4 as (G4 & K4 & T4 & W4 & M4m).
  pose proof (rtc_extends ps _ _ (moved_env _ _ _ _ _ M4m)) as Hx34.
  assert (extends (view s) (view s4)) as Hx4 by (by etransitivity).
  destruct hash as [hash|e]; [|destruct (Hno s4 s' Hwf4 Hx4 G4 K4 HE) as (-> & ? & ? & ? & ? & ?); by split_and!].
  destruct (bool_decide_reflect (hash ≠ st_MainHash st)) as [_|Heq];
    [destruct (Hno s4 s' Hwf4 Hx4 G4 K4 HE) as (-> & ? & ? & ? & ? & ?); by split_and!|].
  rewrite bind_set in HE. injection HE as <- <-.
  assert (hash = st_MainHash st) as Eh by (destruct (decide (hash = st_MainHash st)); tauto).
  split_and!; [done|cbn; by rewrite G4, G3, G2; cbn; rewrite G1|done|done|]. intros _. exists k.
  split_and!; [|done|done|unfold CaptureProps.replica; cbn; by rewrite K4, K3, K2, K1]. split; [split|split].
  - done.
  - exact (extends_total _ _ Hx34).
  - assert (replica s4 = replica s) as Er by (unfold CaptureProps.replica; by rewrite K4, K3, K2, K1).
    assert (replica s4 = db_at ps (view s4) k) as Hrep4.
    { apply sha_inj. rewrite <-(Hh hash eq_refl), Eh, Er. symmetry. apply Hclean; [by rewrite <-T1|done]. }
    cbn [s_sink with_eng]. split; [exact Hrep4|].
    apply law_good_start; [exact (extends_total _ _ Hx34)|by rewrite K4, K3, K2, K1|exact Hrep4].
  - cbn. rewrite G4, G3, G2. cbn. by rewrite G1.
  - assert (reader_inv (set_resumed true (set_expectRestart false (set_rebased 0 (set_captured 0
      (set_deadTail 0 (set_consumed 0 (set_reader NewReader (s_eng s4)))))))) (view s3) k) as Hri by by apply fresh_reader_inv.
    apply (reader_inv_run ps sched _ (view s3)); [done|done|exact Hri|by eapply moved_run].
  - cbn. rewrite G4, G3, G2. cbn. by rewrite G1.
  - intros _ st' E Hcl. change (st_MainHash st' = sha256 (replica s4)). cbn in E. rewrite T4, T3, T2, Est, T1 in E.
    rewrite (Hclean st' E Hcl). unfold CaptureProps.replica. by rewrite K4, K3, K2, K1.
  - cbn. intros [?|?]; [done|lia].
Qed.

(** ** The start of a run *)

(** A state file and a replica that fit, an idle database, a new engine. *)
Record init_ok (s : sys) : Prop := {
  io_eng : s_eng s = NewEngine;
  io_wf : wal_wf ps (view s);
  io_clean : clean_ok s;
  io_start : sink_start (s_sink s) }.

Lemma ctx_fail {A} e (x : EM A) s r s' :
  (c ← ctx_Err sched; if (c : bool) then x else fail e) s = (r, s') → r = Err e.
Proof.
  intros HE. apply em_bind_inv in HE as [(c & s1 & E & HE)|(e1 & E & _)]; unfold ctx_Err in E;
    apply em_bind_inv in E as [(ch & s2 & [= <- <-] & [= <- <-])|(e2 & [=] & _)].
  rewrite (calm_ctx _ _ Hcalm) in HE. by injection HE.
Qed.

Lemma startup_spec s st s' : init_ok s → startup sched ps sha256 copyBuf fuel s = (Ok st, s') →
  match st with
  | Running => ∃ k, eng_inv k s' ∧ (ws_total (view s) <= k)%nat ∧ extends (view s) (view s') ∧
      (e_resumed (s_eng s') = true → replica s' = replica s)
  | Stopped => clean_ok s'
  end.
Proof.
  intros [He Hwf Hclean Hstart] HE. unfold startup in HE.
  apply em_bind_inv in HE as [(ch & s1 & E1 & HE)|(e & _ & [=])].
  destruct (ext_any ps sched _ _ _ _ Hwf E1) as ((G1 & K1 & T1 & R1) & _).
  pose proof (rtc_wf ps _ _ Hwf (proj1 R1)) as Hwf1. pose proof (rtc_extends ps _ _ (proj1 R1)) as Hx1.
  assert (clean_ok s1) as Hc1 by (intros st' E Hcl; unfold CaptureProps.replica; rewrite K1; apply Hclean; congruence).
  destruct (ch_fail ch).
  { destruct (ch_flag ch); [|done]. by injection HE as <- <-. }
  rewrite bind_set in HE. set (s2 := with_eng (set_pageSize ps) s1) in HE.
  assert (start_ok s2) as Hs2 by (split; cbn; rewrite ?G1, ?K1, ?He; done).
  apply em_try_inv in HE as (x & s3 & E3 & HE). destruct x as [b|e]; [|by apply ctx_fail in HE].
  destruct (tryResume_spec _ _ _ Hs2 E3) as (Hwf3 & Hps3 & Hx3 & Hfalse & Htrue). destruct b.
  - injection HE as <- <-. destruct (Htrue eq_refl) as (k & Hi & Hk & _ & Hrep). exists k.
    pose proof (extends_total _ _ Hx1). change (view s2) with (view s1) in Hk, Hx3.
    split_and!; [done|lia|by etransitivity|]. intros _. rewrite Hrep. unfold CaptureProps.replica. cbn. by rewrite K1.
  - apply em_try_inv in HE as (y & s4 & E4 & HE). destruct y as [y|e]; [|by apply ctx_fail in HE].
    injection HE as <- <-. destruct (Hfalse eq_refl) as [Hres3 K3].
    assert (ready ps (view s3) (s_sink s3)) as Hrdy3 by (left; rewrite K3; cbn; by rewrite K1).
    destruct (rebase_spec ps sched sha256 copyBuf fuel Hcalm s3 y s4 Hwf3 Hps3 Hrdy3 E4) as (k & Hi & Hk & Hx4 & Hr4).
    exists k. assert (extends (view s) (view s3)) as Hx by (etransitivity; [exact Hx1|exact Hx3]).
    pose proof (extends_total _ _ Hx). split_and!; [done|lia|by etransitivity|].
    rewrite Hr4, Hres3. cbn. by rewrite G1, He.
Qed.

(** ** Shutdown *)

(** A failed Apply leaves the replica as it was, and the state file can be written. *)
Context (apply_atomic : ∀ fault p frames (x : S) e x', sink_apply fault p frames x = (Err e, x') → sink_replica x' = sink_replica x).
Context (save_ok : ∀ n w, ch_fail (sched n w CSave) = false).

Definition kept (s s' : sys) : Prop := s_eng s' = s_eng s ∧ s_sink s' = s_sink s ∧ s_state s' = s_state s.

Lemma ext_kept c s r s' : ext sched c s = (r, s') → kept s s' ∧ ∃ ch, r = Ok ch.
Proof. intros [= <- <-]. split; [by split_and!|by eexists]. Qed.

Lemma drainStep_state s r s' : state_inv s → drainStep sched s = (r, s') → state_inv s'.
Proof.
  intros Hst HE. unfold drainStep in HE.
  assert (∀ r1 s1, reader_Next sched s = (r1, s1) → state_inv s1) as Hnext.
  { intros r1 s1 E. unfold reader_Next in E. apply em_try_inv in E as (x & s2 & E2 & E).
    assert (kept s s2) as (G2 & K2 & T2).
    { unfold read_wal, ext_io in E2. apply em_bind_inv in E2 as [(ch & s3 & E3 & E2)|(e & E3 & _)];
        (apply em_bind_inv in E3 as [(ch0 & s4 & E4 & E3)|(e0 & E4 & _)];
         destruct (ext_kept _ _ _ _ E4) as [Hk [ch1 Hch]]; [|by simplify_eq];
         destruct (ch_fail ch0); unfold mret, em_ret, fail in E3; simplify_eq); [|exact Hk].
      unfold gets, lift, mbind, em_bind in E2. by injection E2 as <- <-. }
    unfold set_window, set_eng, eng, gets, lift, mbind, em_bind in E. cbn in E.
    destruct (Next x (e_reader (s_eng s2))) as [r0 rd]. injection E as <- <-.
    eapply state_inv_same; [exact Hst|done|done|by cbn; rewrite G2|by cbn; rewrite G2|cbn; rewrite G2; auto..]. }
  apply em_bind_inv in HE as [(frames & s1 & E & HE)|(e & E & ->)]; [|by eapply Hnext].
  pose proof (Hnext _ _ E) as Hst1. destruct (bool_decide (frames = [])); [by injection HE as <- <-|].
  rewrite !bind_eng in HE. destruct (negb _); [by injection HE as <- <-|].
  apply em_bind_inv in HE as [(a & s2 & E2 & HE)|(e & E2 & ->)]; unfold Sink_Apply in E2;
    (apply em_bind_inv in E2 as [(ch & s3 & E3 & E2)|(e3 & E3 & _)];
     destruct (ext_kept _ _ _ _ E3) as [(G3 & K3 & T3) [ch1 Hch]]; [|by simplify_eq];
     unfold on_sink, lift, mbind, em_bind in E2;
     destruct (sink_apply _ _ _ (s_sink s3)) as [x kk] eqn:Ek; injection E2 as ? <-; subst x).
  - rewrite !bind_set in HE. injection HE as <- <-. split; cbn; rewrite ?G3; try done.
    unfold not_clean. cbn. rewrite T3. apply (si_cont _ _ _ Hst1).
  - destruct Hst1 as [Hp Hc Hn]. split; cbn; rewrite ?G3; try done.
    + intros Hd st Es Hcl. cbn in Es. rewrite T3 in Es. rewrite (Hc Hd st Es Hcl). unfold CaptureProps.replica. cbn.
      by rewrite (apply_atomic _ _ _ _ _ _ Ek), K3.
    + unfold not_clean. cbn. by rewrite T3.
Qed.

Lemma late_kept s r s' : late sched s = (r, s') → kept s s' ∧ ∃ b, r = Ok b.
Proof.
  intros HE. apply em_bind_inv in HE as [(ch & s2 & E & HE)|(e & E & _)];
    destruct (ext_kept _ _ _ _ E) as [Hk [ch1 Hch]]; [|discriminate Hch]. injection HE as <- <-. by split; [|eexists].
Qed.

Lemma drain_state n : ∀ s c r s', state_inv s → drain_loop sched n c s = (r, s') → state_inv s'.
Proof.
  induction n as [|n IH]; intros s c r s' Hst HE; [by injection HE as <- <-|]. cbn [drain_loop] in HE.
  apply em_bind_inv in HE as [(b & s2 & E & HE)|(e & E & _)];
    destruct (late_kept _ _ _ E) as [(G2 & K2 & T2) [b' Hb]]; [|discriminate Hb].
  assert (state_inv s2) as Hst2 by (eapply state_inv_same; [exact Hst|done|done|rewrite G2; auto..]).
  destruct b; [by injection HE as <- <-|].
  apply em_bind_inv in HE as [(frames & s3 & E3 & HE)|(e & E3 & ->)].
  - pose proof (drainStep_state _ _ _ Hst2 E3) as Hst3.
    destruct (bool_decide (frames = [])); [by injection HE as <- <-|by eapply IH].
  - by eapply drainStep_state.
Qed.

(** Once persisted, the state file speaks for the replica. *)
Lemma persist_clean s r s' : wal_wf ps (view s) → state_inv s → persistConsumed sched s = (r, s') →
  clean_ok s' ∧ s_sink s' = s_sink s ∧ core (s_eng s') = core (s_eng s) ∧ s_window s' = s_window s ∧
  moved ps sched (s_window s) (view s) (view s').
Proof.
  intros Hwf Hst HE. destruct (persistConsumed_spec ps sched Hcalm _ _ _ Hwf HE) as (G & P & K & W & M & Hcase).
  split_and!; try done. destruct Hcase as [(Hd & -> & _)|[(Hd & _ & _ & Hs)|(_ & _ & Hf)]].
  - by apply (si_clean _ _ _ Hst).
  - intros st E Hcl. rewrite Hs in E. injection E as <-. by rewrite (si_pend _ _ _ Hst) in Hcl.
  - by rewrite save_ok in Hf.
Qed.

Lemma clean_kept s s' : clean_ok s → s_sink s' = s_sink s → s_state s' = s_state s → clean_ok s'.
Proof. intros Hc K T st E Hcl. unfold CaptureProps.replica. rewrite K. apply Hc; [by rewrite <-T|done]. Qed.

(** ** The checks of a clean shutdown *)

(** The reader's salts are not the log's. *)
Definition gone (r : Reader) (v : wal_state) : Prop :=
  (rd_salt1 r, rd_salt2 r) ∈ ws_used v ∧ ∀ h, ws_hdr v = Some h → salts h ≠ (rd_salt1 r, rd_salt2 r).

Lemma live_or_gone r k v v' : wal_wf ps v → rtc (env_step ps) v v' → live r v k ∨ gone r v → live r v' k ∨ gone r v'.
Proof.
  intros Hwf Hr Hlg. refine (proj2 (rtc_inv ps (λ v, live r v k ∨ gone r v) v v' _ Hwf Hlg Hr)).
  intros v1 v2 Hwf1 [Hl|[Hu Hg]] Hst.
  - destruct (env_live ps _ _ _ _ Hwf1 Hl Hst) as [?|[(_ & ? & ?) _]]; [by left|by right].
  - right. split; [by apply (env_used ps _ _ Hst)|].
    destruct (env_generation ps _ _ Hwf1 Hst) as [[-> _]|(_ & _ & _ & Hnew)]; [done|].
    intros h E Hs. apply (Hnew h E). by rewrite Hs.
Qed.

Lemma ParseHeader_file h rest : hdr_ok h → ParseHeader (take (N.to_nat HeaderSize) (header_bytes h ++ rest)) = Ok h.
Proof.
  intros Hok. change (N.to_nat HeaderSize) with (length (header_bytes h)). rewrite take_app_length. by apply ParseHeader_bytes.
Qed.

Lemma walRaced_kept consumed (s : sys) r (s' : sys) : walRacedSinceRestart sched consumed s = (r, s') → s_sink s' = s_sink s ∧ s_state s' = s_state s.
Proof.
  intros HE. unfold walRacedSinceRestart in HE. rewrite bind_eng in HE. apply em_try_inv in HE as (x & s1 & E & HE).
  assert (s_sink s1 = s_sink s ∧ s_state s1 = s_state s) as [K T].
  { unfold read_wal, ext_io, ext, gets, lift, mbind, em_bind in E. cbn in E. destruct (ch_fail _); by injection E as _ <-. }
  apply em_bind_inv in HE as [([] & s2 & E2 & HE)|(e & [=] & _)]. injection E2 as <-.
  assert (s' = mkSys (s_eng s1) (s_db s1) (s_sink s1) (s_state s1) (s_now s1) WChecked) as ->; [|done].
  destruct x as [b|e]; [|destruct (errors_Is e ErrNotFound); by injection HE].
  destruct (_ <? _); [by injection HE|]. destruct (ParseHeader _) as [h|e]; [|by injection HE].
  destruct (negb _ || negb _); by injection HE.
Qed.

Lemma mret_inv {A} (a b : A) s s' : (mret a : EM A) s = (Ok b, s') → a = b ∧ s' = s.
Proof. by intros [= -> ->]. Qed.

(** Not raced: nothing was committed since RESTART. *)
Lemma walRaced_spec k s s' : wal_wf ps (view s) → s_window s = WSealed → k = ws_total (view s) →
  e_pageSize (s_eng s) = ps → live (e_reader (s_eng s)) (view s) k ∨ gone (e_reader (s_eng s)) (view s) →
  walRacedSinceRestart sched (consumed_frames (s_eng s)) s = (Ok false, s') →
  ws_hist (view s') = ws_hist (view s) ∧ rtc (env_step ps) (view s) (view s') ∧ s_window s' = WChecked ∧ kept s s'.
Proof.
  intros Hwf Hw Hk Hps Hlg HE. unfold walRacedSinceRestart in HE. rewrite bind_eng in HE.
  apply em_try_inv in HE as (x & s2 & E & HE).
  destruct (read_wal_spec ps sched _ _ _ _ Hwf E) as (G & K & T & R & Ed & Hx0).
  pose proof (rtc_wf ps _ _ Hwf (proj1 R)) as Hwf1. pose proof (rtc_extends ps _ _ (proj1 R)) as Hx.
  apply em_bind_inv in HE as [([] & s4 & E4 & HE)|(e & [=] & _)]. injection E4 as <-.
  set (s5 := mkSys _ _ _ _ _ WChecked) in HE.
  assert (∀ (b : bool), (mret b : EM bool) s5 = (Ok false, s') → s' = s5) as Hret by (intros b E9; by injection E9).
  assert (s' = s5 ∧ ws_hist (view s2) = ws_hist (view s)) as [-> Hh]; 
    [|split; [exact Hh|]; split; [exact (proj1 R)|]; split; [done|by split_and!]].
  pose proof (calm_check _ _ Hcalm (s_now s) (s_db s) Hwf) as Hck. cbv zeta in Hck. rewrite <-Hw in Hck.
  rewrite <-Ed in Hck. change (db_view (s_db s2)) with (view s2) in Hck. change (db_view (s_db s)) with (view s) in Hck.
  destruct Hx0 as [->| ->]; [by injection HE|].
  pose proof (law_wal (s_db s2) Hwf1) as Hf. change (db_view (s_db s2)) with (view s2) in Hf.
  destruct (ws_hdr (view s2)) as [h|] eqn:Eh.
  - unfold wal_file in Hf. rewrite Eh in Hf. destruct Hf as (rest & Hb & _). cbv zeta in Hb. rewrite Hb in HE.
    destruct (ww_hdr _ _ Hwf1 h Eh) as (Hok & Ehps & _).
    set (b := (header_bytes h ++ run_bytes h (seed h) (concat (ws_log (view s2))) ++ rest)%list) in *.
    assert (length (header_bytes h) = 32%nat) as El by done.
    assert (32 <= length b)%nat as Hlen by (subst b; rewrite length_app; lia).
    destruct (N.ltb_spec (N.of_nat (length b)) HeaderSize) as [Hlt|_]; [unfold HeaderSize in Hlt; lia|].
    unfold b at 1 in HE. rewrite ParseHeader_file in HE by done.
    destruct (negb _ || negb _) eqn:Esalt; [by injection HE|].
    apply mret_inv in HE as [Hav ->]. split; [done|].
    assert (salts h = (rd_salt1 (e_reader (s_eng s)), rd_salt2 (e_reader (s_eng s)))) as Hsalt.
    { unfold salts. apply orb_false_iff in Esalt as [E1 E2]. apply negb_false_iff in E1, E2.
      apply N.eqb_eq in E1, E2. congruence. }
    destruct (live_or_gone _ k _ _ Hwf (proj1 R) Hlg) as [(h' & Eh' & Hs & Er)|[_ Hg]]; [|by destruct (Hg h Eh)].
    rewrite Eh in Eh'. injection Eh' as <-.
    rewrite (consumed_frames_live ps _ (view s2) h k Hps Ehps Er) in Hav. apply N.ltb_ge in Hav.
    pose proof (wal_file_covers ps (view s2) b Hwf1) as Hcov. unfold wal_file in Hcov. rewrite Eh in Hcov.
    assert (HeaderSize + ws_frames (view s2) * FrameSize h <= N.of_nat (length b)) as Hcov'.
    { apply Hcov; [|done]. pose proof (law_wal (s_db s2) Hwf1) as Hf. change (db_view (s_db s2)) with (view s2) in Hf.
      unfold wal_file in Hf. rewrite Eh in Hf. destruct Hf as (rest' & Hb' & Hn). exists rest'. split; [|exact Hn]. rewrite <-Hb'. by rewrite Hb. }
    assert (ws_frames (view s2) <= (N.of_nat (length b) - HeaderSize) / (FrameHeaderSize + wh_page_size h)) as Hfr.
    { apply N.div_le_lower_bound; [unfold FrameHeaderSize; lia|]. unfold FrameSize in Hcov'. lia. }
    assert (k = ws_total (view s2)) as Hk2.
    { destruct (decide (k = ws_total (view s2))) as [|Hne]; [done|exfalso].
      assert (length (log_upto (view s2) k) < length (log_upto (view s2) (ws_total (view s2))))%nat as Hlt
        by (apply (log_upto_lt ps); [done|lia|lia]).
      rewrite log_upto_all in Hlt. unfold ws_frames in Hfr. lia. }
    destruct (proj2 Hx) as [l Hl]. unfold ws_total in *. rewrite Hl, length_app in Hk2.
    destruct l; [by rewrite app_nil_r in Hl|cbn in Hk2; lia].
  - destruct Hck as [Hh|?]; [|done]. split; [|done].
    unfold wal_file in Hf. rewrite Eh in Hf. destruct Hf as [(e & He & Hn)|(b & Hb & Hcase)].
    + rewrite He, Hn in HE. by apply Hret in HE.
    + rewrite Hb in HE. destruct (N.ltb_spec (N.of_nat (length b)) HeaderSize); [by apply Hret in HE|].
      assert (ReadAt b 0 HeaderSize = Some (take (N.to_nat HeaderSize) b)) as Hra.
      { unfold ReadAt. change (drop (N.to_nat 0) b) with b. rewrite bool_decide_eq_true_2; [done|]. rewrite length_take. lia. }
      destruct Hcase as [Hr|(hb & e & Hr & Hp)]; rewrite Hra in Hr; [done|]. injection Hr as <-. rewrite Hp in HE.
      by injection HE.
Qed.

Lemma endRead_clean s r s' : wal_wf ps (view s) → clean_ok s → endRead sched s = (r, s') → clean_ok s'.
Proof. intros Hwf Hc HE. destruct (endRead_any _ _ _ Hwf HE) as (_ & _ & _ & K & T). by eapply clean_kept. Qed.

Lemma markClean_spec k s r s' : wal_wf ps (view s) → s_window s = WChecked → e_inTx (s_eng s) = false →
  k = ws_total (view s) → replica s = db_at ps (view s) k → clean_ok s →
  markClean sched sha256 copyBuf fuel s = (r, s') → clean_ok s'.
Proof.
  intros Hwf Hw Hi Hk Hrep Hcl HE. unfold markClean in HE. apply em_try_inv in HE as (t & s1 & E1 & HE).
  pose proof (checkpoint_spec ps sched Hcalm _ _ _ _ _ Hwf E1) as Hck. destruct t as [n|e]; cbn [is_ok negb] in HE.
  2: { injection HE as <- <-. destruct Hck as (G & K & T & _). by eapply clean_kept. }
  destruct Hck as (G1 & K1 & T1 & W1 & v1 & (R1 & _ & Hh1) & Hp1 & _ & Hv1). specialize (Hh1 (or_intror Hw)).
  pose proof (rtc_wf ps _ _ Hwf (proj1 R1)) as Hwfv1.
  assert (wal_wf ps (view s1)) as Hwf1 by (rewrite Hv1; apply emptied_wf; [done|intros; congruence]).
  assert (ws_total (view s1) = k) as Et1 by (rewrite Hv1; unfold ws_total; cbn; rewrite Hh1; done).
  assert (extends (view s) (view s1)) as Hx1.
  { etransitivity; [exact (rtc_extends ps _ _ (proj1 R1))|rewrite Hv1; by apply extends_same]. }
  assert (clean_ok s1) as Hcl1 by by eapply clean_kept.
  apply em_try_inv in HE as (b & s2 & E2 & HE). destruct b as [b|e]; cbn [is_ok negb] in HE.
  2: { injection HE as <- <-. pose proof (beginRead_spec ps sched Hcalm _ _ _ Hwf1 E2) as (G & K & T & _). by eapply clean_kept. }
  destruct (sealed_begin ps sched Hcalm s1 b s2) as (G2 & K2 & T2 & Hwf2 & Hx2 & Hf2 & _); try done;
    [by rewrite G1|by rewrite Hv1..|]. rewrite Et1 in Hf2.
  assert (clean_ok s2) as Hcl2 by by eapply clean_kept.
  apply em_try_inv in HE as (fi & s3 & E3 & HE). rewrite no_header_eq in HE.
  destruct (stat_empty _ _ _ Hwf2 E3) as ((G3 & K3 & T3 & R3) & W3 & _).
  pose proof (rtc_wf ps _ _ Hwf2 (proj1 R3)) as Hwf3. pose proof (rtc_frozen ps _ _ _ Hf2 (proj1 R3)) as Hf3.
  assert (clean_ok s3) as Hcl3 by by eapply clean_kept.
  destruct (no_header fi); cbn [negb] in HE; [|by eapply endRead_clean].
  apply em_try_inv in HE as (hash & s4 & E4 & HE).
  destruct (hashSrc_spec _ _ _ _ Hwf3 Hf3 E4) as [M4 Hhash]. pose proof M4 as (G4 & K4 & T4 & W4 & M4m).
  pose proof (rtc_wf ps _ _ Hwf3 (moved_env _ _ _ _ _ M4m)) as Hwf4.
  assert (clean_ok s4) as Hcl4 by by eapply clean_kept.
  destruct hash as [hash|e]; [|by eapply endRead_clean].
  apply em_try_inv in HE as (x & s5 & E5 & HE).
  destruct (SaveState_spec ps sched Hcalm _ _ _ _ Hwf4 E5) as (G5 & K5 & W5 & M5 & Hs5).
  eapply endRead_clean; [eapply rtc_wf, moved_env, M5; exact Hwf4| |exact HE].
  destruct Hs5 as [[_ Hs5]|[_ Hf]]; [|by rewrite save_ok in Hf].
  intros st Est _. rewrite Hs5 in Est. injection Est as <-. cbn. rewrite (Hhash hash eq_refl). f_equal.
  unfold CaptureProps.replica. rewrite K5, K4, K3, K2, K1. change (db_at ps (view s4) k = replica s). rewrite Hrep.
  apply extends_db_at; [|lia]. etransitivity; [exact Hx1|]. etransitivity; [exact Hx2|].
  etransitivity; [exact (rtc_extends ps _ _ (proj1 R3))|exact (rtc_extends ps _ _ (moved_env _ _ _ _ _ M4m))].
Qed.

(** RESTART folded exactly what was consumed: the replica is the database. *)
Lemma consumed_exact e v k : wal_wf ps v → (k <= ws_total v)%nat → e_pageSize e = ps →
  rd_off (e_reader e) <= HeaderSize ∨ HeaderSize + (FrameHeaderSize + ps) <= rd_off (e_reader e) →
  live (e_reader e) v k ∨ (ws_hdr v = None ∧ (rd_off (e_reader e) <= HeaderSize → ws_start v = k)) →
  ws_frames v = consumed_frames e → k = ws_total v.
Proof.
  intros Hwf Hk Eps Hoff Hpl Heq. destruct Hpl as [Hl|[Hn Hst]].
  - destruct Hl as (h & Eh & Hs & Er). destruct (ww_hdr _ _ Hwf h Eh) as (_ & Ehps & _).
    rewrite (consumed_frames_live ps e v h k Eps Ehps Er) in Heq. unfold ws_frames in Heq. rewrite <-log_upto_all in Heq.
    destruct (decide (k = ws_total v)) as [|Hne]; [done|].
    pose proof (log_upto_lt ps v k (ws_total v) Hwf). lia.
  - destruct Hoff as [Hoff|Hoff]; [rewrite <-(Hst Hoff); by apply (ww_none _ _ Hwf)|].
    apply (consumed_all ps e v k); auto.
Qed.

(** The reader on the log, or an empty log that ends where the replica does. *)
Definition settled (r : Reader) (v : wal_state) (k : nat) : Prop :=
  live r v k ∨ (ws_hdr v = None ∧ (rd_off r <= HeaderSize → ws_start v = k) ∧ (rd_salt1 r, rd_salt2 r) ∈ ws_used v).

Lemma settled_drained k s : cap_inv k s → drained ps k s → settled (e_reader (s_eng s)) (view s) k.
Proof.
  intros [Hwf Hle Hrep Hps [Hp Ha _ _ _]] [Hl|Hn]; [by left|]. right.
  assert (¬ live (e_reader (s_eng s)) (view s) k) as Hnl by (intros (h & E & _); congruence).
  split_and!; [done|intros Ho; by apply Ha; [right|]|].
  destruct Hp as [?|[(_ & Hu & _)| ->]]; [done|done|apply (ww_zero _ _ Hwf)].
Qed.

Lemma settled_moved r v v' k : settled r v k → rtc (env_step ps) v v' → same_gen v v' → settled r v' k.
Proof.
  intros [Hl|(Hn & Hs & Hu)] Hr [Eh Es]; [left; exact (live_same _ _ _ _ (rtc_extends ps _ _ Hr) Eh Es Hl)|right].
  split_and!; [congruence|by rewrite Es|]. revert Hu. clear -Hr.
  induction Hr as [|v v1 v2 Hst _ IH]; [done|]. intros Hu. by apply IH, (env_used ps _ _ Hst).
Qed.

(** The checks of [shutdown] after its final drain. *)
Lemma checks_spec k s r s' : cap_inv k s → drained ps k s → s_window s = WPolled → clean_ok s →
  (_ ← endRead sched;
   logN ← try (checkpoint sched fuel RESTART);
   if match logN with Ok logN => negb (logN =? consumed_frames (s_eng s)) | Err _ => true end then mret tt else
   raced ← try (walRacedSinceRestart sched (consumed_frames (s_eng s)));
   if match raced with Ok raced => raced | Err _ => true end then mret tt else
   markClean sched sha256 copyBuf fuel) s = (r, s') → clean_ok s'.
Proof.
  intros Hc Hd Hw Hcl HE. pose proof Hc as [Hwf Hle Hrep Hps Hri]. pose proof (settled_drained _ _ Hc Hd) as Hset.
  apply em_bind_inv in HE as [(a1 & s1 & E1 & HE)|(e & E1 & _)];
    destruct (endRead_spec ps sched Hcalm _ _ _ Hwf E1) as (Er & G1 & K1 & T1 & W1 & v1 & (R1 & Hg1 & _) & Hv1); [|by simplify_eq].
  specialize (Hg1 Hw). pose proof (settled_moved _ _ _ _ Hset (proj1 R1) Hg1) as Hset1.
  destruct (endRead_any _ _ _ Hwf E1) as (Hwf1 & Hx1 & _).
  assert (settled (e_reader (s_eng s)) (view s1) k) as Hset1' by (by destruct Hv1 as [->| ->]).
  assert (clean_ok s1) as Hcl1 by by eapply clean_kept.
  apply em_try_inv in HE as (x & s2 & E2 & HE).
  pose proof (checkpoint_spec ps sched Hcalm _ _ _ _ _ Hwf1 E2) as Hck. destruct x as [logN|e].
  2: { injection HE as <- <-. destruct Hck as (_ & K & T & _). by eapply clean_kept. }
  destruct Hck as (G2 & K2 & T2 & W2 & v2 & (R2 & Hg2 & _) & Hp2 & Hlog & Hv2). specialize (Hg2 (eq_trans W1 Hw)).
  pose proof (settled_moved _ _ _ _ Hset1' (proj1 R2) Hg2) as Hset2. pose proof (rtc_wf ps _ _ Hwf1 (proj1 R2)) as Hwfv2.
  assert (clean_ok s2) as Hcl2 by by eapply clean_kept.
  destruct (N.eqb_spec logN (consumed_frames (s_eng s))) as [Heq|_]; cbn [negb] in HE; [|by injection HE as <- <-].
  assert (extends (view s) v2) as Hx2 by (etransitivity; [exact Hx1|exact (rtc_extends ps _ _ (proj1 R2))]).
  assert (k = ws_total v2) as Hk.
  { apply (consumed_exact (s_eng s)); [done|pose proof (extends_total _ _ Hx2); lia|done|apply Hri| |by rewrite <-Hlog].
    destruct Hset2 as [?|(? & ? & _)]; [by left|by right]. }
  assert (wal_wf ps (view s2)) as Hwf2 by (rewrite Hv2; by apply folded_all_wf).
  assert (s_eng s2 = set_inTx false (s_eng s)) as Ge by (by rewrite G2, G1).
  assert (consumed_frames (s_eng s) = consumed_frames (s_eng s2)) as Ec by (by rewrite Ge).
  rewrite Ec in HE. apply em_try_inv in HE as (raced & s3 & E3 & HE).
  destruct (match raced with Ok raced => raced | Err _ => true end) eqn:Er3.
  { injection HE as <- <-. eapply clean_kept; [exact Hcl2|..]; by apply (walRaced_kept _ _ _ _ E3). }
  destruct raced as [[]|e]; [done| |done].
  destruct (walRaced_spec k s2 s3) as (Hh3 & R3 & W3 & (G3 & K3 & T3)); try done.
  { by rewrite Hv2. }
  { by rewrite Ge. }
  { rewrite Ge, Hv2. destruct Hset2 as [Hl|(Hn & _ & Hu)]; [by left|right]. split; [done|]. cbn. intros h E. congruence. }
  assert (ws_total (view s3) = k) as Et3 by (unfold ws_total; by rewrite Hh3, Hv2, Hk).
  pose proof (rtc_extends ps _ _ R3) as Hx3.
  apply (markClean_spec k s3 r); [by eapply rtc_wf|done|by rewrite G3, Ge|done| | |done].
  - unfold CaptureProps.replica. rewrite K3, K2, K1. change (replica s = db_at ps (view s3) k).
    destruct Hrep as [Hrep _]. unfold CaptureProps.replica. rewrite Hrep. symmetry.
    apply extends_db_at; [|done]. etransitivity; [exact Hx2|]. etransitivity; [|exact Hx3]. rewrite Hv2. by apply extends_same.
  - by eapply clean_kept.
Qed.

Lemma shutdown_spec k s r s' : eng_inv k s → s_window s = WOpen →
  shutdown sched sha256 copyBuf fuel s = (r, s') → clean_ok s'.
Proof.
  intros [Hc Hst] Hw HE. unfold shutdown in HE. apply em_try_inv in HE as (x & s1 & E1 & HE).
  pose proof (drain_state _ _ _ _ _ Hst E1) as Hst1.
  pose proof (drain_loop_spec ps sched Hcalm fuel false k k s s 0 x s1 (passed_refl _ _ _ _ Hc)
    (or_introl Hw) ltac:(done) E1) as Hd. destruct x as [n|e].
  - destruct Hd as (ap & k' & Hp & W1 & Hd1 & _). pose proof (pa_inv _ _ _ _ _ _ _ Hp) as Hc1.
    apply em_try_inv in HE as (y & s2 & E2 & HE).
    destruct (persist_clean _ _ _ (ci_wf _ _ _ _ Hc1) Hst1 E2) as (Hcl2 & K2 & G2 & W2 & M2). rewrite W1 in W2, M2.
    pose proof (cap_inv_env ps sched k' s1 s2 Hc1 (moved_run _ _ _ _ _ M2) K2 G2) as Hc2.
    injection G2 as _ Er2 _ _ _. destruct M2 as (R2 & Hg2 & _).
    pose proof (drained_moved ps k' s1 s2 Hd1 (proj1 R2) (Hg2 eq_refl) Er2) as Hd2.
    rewrite bind_eng in HE. by eapply checks_spec.
  - destruct Hd as [(_ & _ & _ & _ & R1) _]. pose proof (rtc_wf ps _ _ (ci_wf _ _ _ _ Hc) (proj1 R1)) as Hwf1.
    apply em_try_inv in HE as (y & s2 & E2 & HE).
    destruct (persist_clean _ _ _ Hwf1 Hst1 E2) as (Hcl2 & _ & _ & _ & M2).
    eapply endRead_clean; [|exact Hcl2|exact HE]. by eapply rtc_wf, moved_env.
Qed.
End shut.
