(* ===== verification/CaptureMain.v ===== *)
(** * The capture engine: its guarantees

    For every database and sink that satisfy the laws and every calm schedule:
    no committed transaction is skipped, a request captures what was committed
    before it, and a run that ends cleanly can be resumed. *)
From Stdlib Require Import Strings.Byte.
From S2P Require Import Prelude Files Wal WalProps Session WalDb WalDbProps Capture CaptureProps CaptureDrain CapturePoll CaptureRun CaptureShut.
Local Open Scope N_scope.

Section main.
Context {D S : Type} `{WalDb D} `{Sink S} (ps : N) `{!WalDbLaws D ps} `{!SinkLaws S ps}.
Context (sha256 : bytes → string) (copyBuf fuel : nat).
Context (sha_inj : ∀ a b, sha256 a = sha256 b → a = b).

Abbreviation sys := (sys (D:=D) (S:=S)).
Abbreviation view := (view (D:=D) (S:=S) ps).
Abbreviation replica := (replica (D:=D) (S:=S) ps).
Abbreviation init_ok := (init_ok (D:=D) (S:=S) ps sha256).

Section one.
Context (sched : schedule (D:=D) (S:=S)) (Hcalm : calm ps sched).

Abbreviation eng_inv := (eng_inv (D:=D) (S:=S) ps sched sha256).

Lemma handle_running ev k s s' : eng_inv k s → handle sched sha256 copyBuf fuel ev s = (Ok Running, s') →
  ∃ k', eng_inv k' s' ∧ (k <= k')%nat ∧ extends (view s) (view s') ∧
    (ev = Request → no_truncate ps sched → (ws_total (view s) <= k')%nat).
Proof.
  intros Hi HE. unfold handle in HE.
  apply em_bind_inv in HE as [(ch & s1 & E & HE)|(e & [=] & _)].
  destruct (ext_any ps sched _ _ _ _ (ci_wf _ _ _ _ (ei_cap _ _ _ _ _ Hi)) E) as (Hs1 & _).
  pose proof (eng_inv_same ps sched sha256 _ _ _ Hi Hs1) as Hi1. pose proof (same_extends ps sched _ _ Hs1) as Hx1.
  apply em_bind_inv in HE as [([] & s2 & E2 & HE)|(e & [=] & _)]. injection E2 as <-.
  set (s2 := mkSys _ _ _ _ _ WOpen) in HE.
  assert (eng_inv k s2) as Hi2 by by eapply eng_inv_relabel.
  destruct ev; apply em_bind_inv in HE as [(a & s3 & E3 & HE)|(e & _ & [=])]; try discriminate HE; injection HE as <-.
  - destruct (pollOnce_spec ps sched sha256 copyBuf fuel Hcalm k s2 a s3 Hi2 eq_refl E3) as (k' & Hi' & Hk & Hx).
    exists k'. split_and!; try done. etransitivity; [exact Hx1|exact Hx].
  - destruct (serviceReq_spec ps sched sha256 copyBuf fuel Hcalm k s2 a s3 Hi2 E3) as (k' & Hi' & Hk & Hx & Hn).
    exists k'. split_and!; try done; [etransitivity; [exact Hx1|exact Hx]|].
    intros _ Hno. specialize (Hn Hno). pose proof (extends_total _ _ Hx1). change (view s2) with (view s1) in Hn. lia.
Qed.

Lemma run_loop_running evs : ∀ k s s', eng_inv k s → run_loop sched sha256 copyBuf fuel evs s = (Ok Running, s') →
  ∃ k', eng_inv k' s' ∧ (k <= k')%nat ∧ extends (view s) (view s').
Proof.
  induction evs as [|ev evs IH]; intros k s s' Hi HE; [injection HE as <-; by exists k|].
  cbn [run_loop] in HE. apply em_bind_inv in HE as [(st & s1 & E & HE)|(e & _ & [=])]. destruct st; [|done].
  destruct (handle_running ev k s s1 Hi E) as (k1 & Hi1 & Hk1 & Hx1 & _).
  destruct (IH k1 s1 s' Hi1 HE) as (k2 & Hi2 & Hk2 & Hx2). exists k2. split_and!; [done|lia|by etransitivity].
Qed.

Lemma run_running evs s s' : init_ok s → Run sched ps sha256 copyBuf fuel evs s = (Ok Running, s') →
  ∃ k, eng_inv k s' ∧ (ws_total (view s) <= k)%nat ∧ extends (view s) (view s').
Proof.
  intros Hi HE. unfold Run in HE. apply em_bind_inv in HE as [(st & s1 & E & HE)|(e & _ & [=])].
  pose proof (startup_spec ps sched sha256 copyBuf fuel Hcalm sha_inj s st s1 Hi E) as Hst. destruct st; [|done].
  destruct Hst as (k & Hi1 & Hk & Hx1 & _).
  destruct (run_loop_running evs k s1 s' Hi1 HE) as (k2 & Hi2 & Hk2 & Hx2). exists k2. split_and!; [done|lia|by etransitivity].
Qed.

Context (apply_atomic : ∀ fault p frames (x : S) e x', sink_apply fault p frames x = (Err e, x') → sink_replica x' = sink_replica x).
Context (save_ok : ∀ n w, ch_fail (sched n w CSave) = false).

Lemma handle_stopped ev k s s' : eng_inv k s → handle sched sha256 copyBuf fuel ev s = (Ok Stopped, s') →
  clean_ok ps sha256 s'.
Proof.
  intros Hi HE. unfold handle in HE.
  apply em_bind_inv in HE as [(ch & s1 & E & HE)|(e & [=] & _)].
  destruct (ext_any ps sched _ _ _ _ (ci_wf _ _ _ _ (ei_cap _ _ _ _ _ Hi)) E) as (Hs1 & _).
  pose proof (eng_inv_same ps sched sha256 _ _ _ Hi Hs1) as Hi1.
  apply em_bind_inv in HE as [([] & s2 & E2 & HE)|(e & [=] & _)]. injection E2 as <-.
  set (s2 := mkSys _ _ _ _ _ WOpen) in HE.
  assert (eng_inv k s2) as Hi2 by by eapply eng_inv_relabel.
  destruct ev; apply em_bind_inv in HE as [(a & s3 & E3 & HE)|(e & _ & [=])]; try done. injection HE as <-.
  by apply (shutdown_spec ps sched sha256 copyBuf fuel Hcalm apply_atomic save_ok k s2 (Ok a)).
Qed.

Lemma run_stopped evs s s' : init_ok s → Run sched ps sha256 copyBuf fuel evs s = (Ok Stopped, s') → clean_ok ps sha256 s'.
Proof.
  intros Hi HE. unfold Run in HE. apply em_bind_inv in HE as [(st & s1 & E & HE)|(e & _ & [=])].
  pose proof (startup_spec ps sched sha256 copyBuf fuel Hcalm sha_inj s st s1 Hi E) as Hst.
  destruct st; [|by injection HE as <-]. destruct Hst as (k & Hi1 & _ & _). clear E.
  revert k s1 Hi1 HE. induction evs as [|ev evs IH]; intros k s1 Hi1 HE; [done|].
  cbn [run_loop] in HE. apply em_bind_inv in HE as [([] & s2 & E & HE)|(e & _ & [=])].
  - destruct (handle_running ev k s1 s2 Hi1 E) as (k2 & Hi2 & _). by eapply IH.
  - injection HE as <-. by eapply handle_stopped.
Qed.
End one.

(** C8: Nothing is skipped, as long as the other connections keep out of the
    moments in which the engine cannot tell ([calm]): no new generation of the
    log begins between the poll that finds nothing more and the RESTART of a
    takeover; nothing is committed between a checkpoint and the read transaction
    begun after it, or in a shutdown between the parse of the log and the
    TRUNCATE; and no poll is given up, for its deadline or its context, before
    it has read.  ([takeover_gap] is a run outside these terms that does skip.)
    However they commit, checkpoint and restart the log otherwise, while an
    engine runs its replica holds exactly the database after its first [k]
    committed transactions, for some [k] that covers everything committed
    before the engine started and no more than what is committed now. *)
Theorem capture_prefix (sched : schedule (D:=D) (S:=S)) (evs : list event) (s s' : sys) :
  calm ps sched → init_ok s → Run sched ps sha256 copyBuf fuel evs s = (Ok Running, s') →
  ∃ k, replica s' = db_at ps (view s') k ∧ (ws_total (view s) <= k <= ws_total (view s'))%nat.
Proof.
  intros Hcalm Hi HE. destruct (run_running sched Hcalm evs s s' Hi HE) as (k & [Hc _] & Hk & _).
  exists k. split; [apply Hc|]. split; [done|apply Hc].
Qed.

(** C9: A request captures everything committed before it.  When the other
    connections keep out of the moments [calm] excludes (as in [capture_prefix]) and none of them
    empties the log, at any time ([no_truncate]), and the poll that serves a
    DrainNow request ends without error, the replica holds the database after at
    least every transaction that was committed when the request was picked up. *)
Theorem request_complete (sched : schedule (D:=D) (S:=S)) (evs : list event) (s s1 s' : sys) :
  calm ps sched → no_truncate ps sched → init_ok s →
  Run sched ps sha256 copyBuf fuel evs s = (Ok Running, s1) → handle sched sha256 copyBuf fuel Request s1 = (Ok Running, s') →
  ∃ k, replica s' = db_at ps (view s') k ∧ (ws_total (view s1) <= k <= ws_total (view s'))%nat.
Proof.
  intros Hcalm Hno Hi HE HR. destruct (run_running sched Hcalm evs s s1 Hi HE) as (k & Hk & _).
  destruct (handle_running sched Hcalm Request k s1 s' Hk HR) as (k' & [Hc _] & _ & _ & Hn).
  exists k'. split; [apply Hc|]. split; [by apply Hn|apply Hc].
Qed.

(** An engine started again after runs that stopped without error: each on
    the replica and state file the last one left, over any database. *)
Inductive restarts (s0 : sys) : sys → Prop :=
  | restart_first : restarts s0 s0
  | restart_next sched evs s s1 d n w :
      restarts s0 s → calm ps sched → (∀ n w, ch_fail (sched n w CSave) = false) →
      Run sched ps sha256 copyBuf fuel evs s = (Ok Stopped, s1) → wal_wf ps (db_view d) →
      restarts s0 (mkSys NewEngine d (s_sink s1) (s_state s1) n w).

Lemma restarts_init s0 s :
  (∀ fault p frames (x : S) e x', sink_apply fault p frames x = (Err e, x') → sink_replica x' = sink_replica x) →
  (∀ x : S, sink_start x) → init_ok s0 → restarts s0 s → init_ok s.
Proof.
  intros Hat Hst Hi. induction 1 as [|sched evs s s1 d n w _ IH Hcalm Hsave HE Hwf]; [done|].
  split; [done|done| |apply Hst]. exact (run_stopped sched Hcalm Hat Hsave evs s s1 IH HE).
Qed.

(** C10: A restart misses nothing.  Take any number of runs, each ended by a
    shutdown that reported no error, in each of which the other connections kept
    out of the moments [calm] excludes (as in [capture_prefix]) and every write of the state
    file succeeded ([restarts]), and a sink that is its replica alone and whose
    failed applies leave it as it was.  Then, whatever happened to the database
    while no engine ran, an engine that starts again without error, itself in
    the terms of [calm], whether it resumes on the replica it finds or rebuilds
    it, holds every transaction committed before it started; when it resumes,
    without touching the replica.  ([stale_clean_mark] is what a failed write of
    the state file can lead to.) *)
Theorem restart_misses_nothing (sched : schedule (D:=D) (S:=S)) (s0 s s' : sys) :
  (∀ fault p frames (x : S) e x', sink_apply fault p frames x = (Err e, x') → sink_replica x' = sink_replica x) →
  (∀ x : S, sink_start x) → init_ok s0 → restarts s0 s → calm ps sched → startup sched ps sha256 copyBuf fuel s = (Ok Running, s') →
  ∃ k, replica s' = db_at ps (view s') k ∧ (ws_total (view s) <= k <= ws_total (view s'))%nat ∧
    (e_resumed (s_eng s') = true → replica s' = replica s).
Proof.
  intros Hat Hst Hi Hr Hcalm HE. pose proof (restarts_init s0 s Hat Hst Hi Hr) as Hs.
  destruct (startup_spec ps sched sha256 copyBuf fuel Hcalm sha_inj s Running s' Hs HE) as (k & [Hc _] & Hk & _ & Hres).
  exists k. split; [apply Hc|]. split; [split; [done|apply Hc]|].
  exact Hres.
Qed.
End main.
