(* ===== verification/CaptureTerm.v ===== *)
(** * The capture engine: its loops end

    Every loop of the engine reads the clock in each round that goes on, so
    once the clock is past its deadlines (from call [T] on) a fuel above [T] is
    never used up, whatever the other connections do: no poll, request, resume
    or shutdown runs forever.  The copy of the main file ends with the file,
    and the rounds of a request with the one restart it can expect. *)
From Stdlib Require Import Strings.Byte.
From S2P Require Import Prelude Files Wal WalProps Session WalDb Capture CaptureProps.
Local Open Scope N_scope.

Section ends.
Context {D S : Type} `{WalDb D} `{Sink S}.

Abbreviation sys := (sys (D:=D) (S:=S)).
Abbreviation EM := (EM (D:=D) (S:=S)).

(** From call [t] on, the program does not run out of fuel; its value and the
    number of calls made after it satisfy [Q]. *)
Definition ends {A} (t : nat) (Q : A → nat → Prop) (m : EM A) : Prop := ∀ s r s',
  (t <= s_now s)%nat → m s = (r, s') →
  r ≠ Err [EFuel] ∧ (s_now s <= s_now s')%nat ∧ ∀ a, r = Ok a → Q a (s_now s').

Definition any {A} : A → nat → Prop := λ _ _, True.
Definition no_fuel_err {A} : res A → nat → Prop := λ r _, r ≠ Err [EFuel].

Lemma ends_weaken {A} t t' (Q R : A → nat → Prop) m : ends t Q m → (t <= t')%nat → (∀ a n, Q a n → R a n) → ends t' R m.
Proof. intros Hm Ht HQ s r s' Hs E. destruct (Hm s r s') as (H1 & H2 & H3); [lia|done|]. split_and!; auto. Qed.

Lemma ends_any {A} t (Q : A → nat → Prop) m : ends t Q m → ends t any m.
Proof. intros Hm. by eapply ends_weaken. Qed.

Lemma ends_ret {A} t (a : A) : ends t any (mret a : EM A).
Proof. intros s r s' _ [= <- <-]. done. Qed.

Lemma ends_fail {A} t e (Q : A → nat → Prop) : e ≠ [EFuel] → ends t Q (fail e : EM A).
Proof. intros He s r s' _ [= <- <-]. split_and!; [congruence|done|done]. Qed.

Lemma ends_bind {A B} t Q (R : B → nat → Prop) (m : EM A) (f : A → EM B) :
  ends t Q m → (∀ a t', (t <= t')%nat → Q a t' → ends t' R (f a)) → ends t R (m ≫= f).
Proof.
  intros Hm Hf s r s' Ht. unfold mbind, em_bind. destruct (m s) as [x s1] eqn:E.
  destruct (Hm _ _ _ Ht E) as (H1 & H2 & H3). destruct x as [a|e].
  - intros E2. destruct (Hf a (s_now s1) ltac:(lia) (H3 a eq_refl) s1 r s') as (G1 & G2 & G3); [done|done|].
    split_and!; [done|lia|done].
  - intros [= <- <-]. split_and!; [congruence|done|done].
Qed.

Lemma ends_try {A} t (m : EM A) Q : ends t Q m → ends t no_fuel_err (try m).
Proof.
  intros Hm s r s' Ht. unfold try. destruct (m s) as [x s1] eqn:E. intros [= <- <-].
  destruct (Hm _ _ _ Ht E) as (H1 & H2 & _). split_and!; [done|done|]. by intros a [= <-].
Qed.

Lemma ends_gets {A} t (f : sys → A) : ends t any (gets f).
Proof. intros s r s' _ [= <- <-]. done. Qed.

Lemma ends_set_eng t f : ends t any (set_eng f).
Proof. intros s r s' _ [= <- <-]. done. Qed.

Lemma ends_set_window t w : ends t any (set_window w).
Proof. intros s r s' _ [= <- <-]. done. Qed.

Lemma ends_put_state t st : ends t any (put_state st).
Proof. intros s r s' _ [= <- <-]. done. Qed.

Lemma ends_on_db {A} t (f : D → res A * D) : (∀ d d', f d ≠ (Err [EFuel], d')) → ends t no_fuel_err (on_db f).
Proof.
  intros Hf s r s' _. unfold on_db. destruct (f (s_db s)) as [a d] eqn:E. intros [= <- <-]. split_and!; [done|done|].
  intros a' [= <-]. intros ->. by apply Hf in E.
Qed.

Lemma ends_on_db_any {A} t (f : D → A * D) : ends t any (on_db f).
Proof. intros s r s' _. unfold on_db. destruct (f (s_db s)). intros [= <- <-]. done. Qed.

Lemma ends_on_sink {A} t (f : S → res A * S) : (∀ k k', f k ≠ (Err [EFuel], k')) → ends t no_fuel_err (on_sink f).
Proof.
  intros Hf s r s' _. unfold on_sink. destruct (f (s_sink s)) as [a d] eqn:E. intros [= <- <-]. split_and!; [done|done|].
  intros a' [= <-]. intros ->. by apply Hf in E.
Qed.

Lemma ends_lift {A} t (r : res A) : r ≠ Err [EFuel] → ends t any (lift r).
Proof. intros Hr s r' s' _ [= <- <-]. done. Qed.
End ends.

Create HintDb ends discriminated.
#[export] Hint Resolve ends_ret ends_gets ends_set_eng ends_set_window ends_put_state ends_on_db_any : ends.

(** Follow the program: one bind, choice or leaf at a time. *)
Ltac ends_step :=
  match goal with
  | |- ends _ _ (try _) => eapply ends_try
  | |- ends _ _ (eng _) => apply ends_gets
  | |- ends _ _ (_ ≫= _) => eapply ends_bind; [|intros ? ? ? ?]
  | |- ends _ any (fail _) => apply ends_fail; first [done | congruence]
  | H : no_fuel_err (Err ?e) _ |- ends _ any (fail ?e) => apply ends_fail; intros ->; by apply H
  | |- ends _ _ (if ?b then _ else _) => destruct b
  | |- ends _ _ (match ?x with _ => _ end) => destruct x
  | |- ends _ _ _ => solve [eauto with ends]
  end.
Ltac ends_auto := repeat ends_step.

Section term.
Context {D S : Type} `{WalDb D} `{Sink S}.
Context (sched : schedule (D:=D) (S:=S)) (dbPageSize : N) (sha256 : bytes → string) (copyBuf fuel T : nat).

Abbreviation sys := (sys (D:=D) (S:=S)).
Abbreviation EM := (EM (D:=D) (S:=S)).

(** The database and the sink answer with errors of their own, the clock ends
    up past every deadline, and a buffer holds at least a byte.  A run that
    did not end would be inside one loop forever, whose deadline was fixed
    when it started: from some call on, every reading of the clock is late. *)
Record deadlines : Prop := {
  dl_clock n w : (T <= n)%nat → ch_flag (sched n w CClock) = true;
  dl_begin c d d' : db_begin c d ≠ (Err [EFuel], d');
  dl_checkpoint c mode d d' : db_checkpoint c mode d ≠ (Err [EFuel], d');
  dl_wal d : db_wal d ≠ Err [EFuel];
  dl_apply b p frames (x x' : S) : sink_apply b p frames x ≠ (Err [EFuel], x');
  dl_rebase b f (x x' : S) : sink_rebase b f x ≠ (Err [EFuel], x');
  dl_fuel : (T < fuel)%nat;
  dl_buf : (0 < copyBuf)%nat }.

Context (Hdl : deadlines).

Lemma ends_ext t c : ends t any (ext sched c : EM _).
Proof. intros s r s' _ [= <- <-]. cbn. split_and!; [done|lia|done]. Qed.

Lemma ends_ext_io t c : ends t any (ext_io sched c : EM _).
Proof. unfold ext_io. eapply ends_bind; [apply ends_ext|]. intros. ends_auto. Qed.

Lemma ends_ctx t : ends t any (ctx_Err sched : EM _).
Proof. unfold ctx_Err. eapply ends_bind; [apply ends_ext|]. intros. ends_auto. Qed.

Lemma ends_late t : ends t (λ b t', (t < t')%nat ∧ (b = false → (t' <= T)%nat)) (late sched : EM _).
Proof.
  intros s r s' Ht [= <- <-]. cbn. split_and!; [done|lia|]. intros a [= <-]. split; [lia|]. intros Hb.
  destruct (decide (T <= s_now s)%nat) as [Hle|]; [by rewrite (dl_clock Hdl) in Hb|lia].
Qed.

(** The rounds left suffice for the calls left before the deadline. *)
Definition rounds (n t : nat) : Prop := (1 <= n)%nat ∧ (T < n + t)%nat.

Lemma rounds_fuel t : rounds fuel t.
Proof. pose proof (dl_fuel Hdl). unfold rounds. lia. Qed.

Lemma rounds_next n t t' : rounds (Datatypes.S n) t → (t < t')%nat → (t' <= T)%nat → rounds n t'.
Proof. unfold rounds. lia. Qed.

Lemma rounds_later n t t' : rounds n t → (t <= t')%nat → rounds n t'.
Proof. unfold rounds. lia. Qed.

#[local] Hint Resolve ends_ext ends_ext_io ends_ctx : ends.

(** ** The operations *)

Lemma ends_LoadState t : ends t any (LoadState sched : EM _).
Proof. unfold LoadState. ends_auto. Qed.

Lemma ends_SaveState t st : ends t any (SaveState sched st : EM _).
Proof. unfold SaveState. ends_auto. Qed.
#[local] Hint Resolve ends_LoadState ends_SaveState : ends.

Lemma ends_persistConsumed t : ends t any (persistConsumed sched : EM _).
Proof. unfold persistConsumed. ends_auto. Qed.

Lemma ends_read_wal t c : ends t any (read_wal sched c : EM _).
Proof.
  unfold read_wal. eapply ends_bind; [apply ends_ext_io|]. intros _ t' _ _ s r s' _ E.
  unfold gets, lift, mbind, em_bind in E. injection E as <- <-. split_and!; [apply (dl_wal Hdl)|done|done].
Qed.

Lemma ends_stat_wal t : ends t any (stat_wal sched : EM _).
Proof.
  unfold stat_wal. eapply ends_bind; [apply ends_ext_io|]. intros _ t' _ _ s r s' _ E.
  unfold gets, lift, mbind, em_bind in E. injection E as <- <-. split_and!; [|done|done].
  pose proof (dl_wal Hdl (s_db s)) as Hw. destruct (db_wal (s_db s)); [done|]. cbn. congruence.
Qed.

Lemma ends_read_section n : ∀ t off size acc, (size - off < n)%nat →
  ends t any (read_section sched copyBuf n off size acc : EM _).
Proof.
  induction n as [|n IH]; intros t off size acc Hn; [lia|]. cbn [read_section].
  destruct (Nat.leb_spec size off); [ends_auto|]. eapply ends_bind; [apply ends_ext_io|]. intros _ t1 _ _.
  eapply ends_bind; [apply ends_gets|]. intros chunk t2 _ _.
  destruct (Nat.ltb_spec (length chunk) (min copyBuf (size - off))); [ends_auto|]. apply IH. pose proof (dl_buf Hdl). lia.
Qed.

Lemma ends_copySrc t : ends t any (copySrc sched copyBuf : EM _).
Proof.
  unfold copySrc, main_size. eapply (ends_bind _ any); [ends_auto|]. intros size t' _ _. apply ends_read_section. lia.
Qed.
#[local] Hint Resolve ends_persistConsumed ends_read_wal ends_stat_wal ends_copySrc : ends.

Lemma ends_hashSrc t : ends t any (hashSrc sched sha256 copyBuf : EM _).
Proof. unfold hashSrc. ends_auto. Qed.

Lemma ends_beginRead t : ends t any (beginRead sched : EM _).
Proof.
  unfold beginRead. eapply ends_bind; [apply ends_gets|]. intros b t1 _ _. destruct b; [ends_auto|].
  eapply ends_bind; [apply ends_ext|]. intros ch t2 _ _. eapply ends_bind; [apply ends_on_db, (dl_begin Hdl)|].
  intros r t3 _ Hr. ends_auto.
Qed.

Lemma ends_endRead t : ends t any (endRead sched : EM _).
Proof. unfold endRead. ends_auto. Qed.
#[local] Hint Resolve ends_hashSrc ends_beginRead ends_endRead : ends.

Lemma ends_beginReadRetry_loop n : ∀ t, rounds n t → ends t any (beginReadRetry_loop sched n : EM _).
Proof.
  induction n as [|n IH]; intros t Hr; [by destruct Hr; lia|]. cbn [beginReadRetry_loop].
  eapply ends_bind; [eapply ends_try, ends_beginRead|]. intros x t1 Ht1 Hx. destruct x as [x|e]; [ends_auto|].
  eapply ends_bind; [apply ends_ctx|]. intros c t2 Ht2 _. destruct c; [ends_auto|].
  eapply ends_bind; [apply ends_late|]. intros b t3 Ht3 [Hb1 Hb2]. destruct b; [ends_auto|].
  eapply ends_bind; [apply ends_ctx|]. intros c t4 Ht4 _. destruct c; [ends_auto|].
  apply IH. apply (rounds_later n t3); [|done]. apply (rounds_next n t2); [|done|by apply Hb2].
  apply (rounds_later _ t); [done|lia].
Qed.

Lemma ends_beginReadRetry t : ends t any (beginReadRetry sched fuel : EM _).
Proof. apply ends_beginReadRetry_loop, rounds_fuel. Qed.

Lemma ends_pragma t mode : ends t any (pragma_checkpoint sched mode : EM _).
Proof.
  unfold pragma_checkpoint. eapply ends_bind; [apply ends_ext|]. intros ch t1 _ _.
  eapply ends_bind; [apply ends_on_db, (dl_checkpoint Hdl)|]. intros r t2 _ Hr. ends_auto.
Qed.

Lemma ends_checkpoint_loop n mode : ∀ t, rounds n t → ends t any (checkpoint_loop sched n mode : EM _).
Proof.
  induction n as [|n IH]; intros t Hr; [by destruct Hr; lia|]. cbn [checkpoint_loop].
  eapply ends_bind; [apply ends_ctx|]. intros c t1 Ht1 _. destruct c; [ends_auto|].
  eapply ends_bind; [eapply ends_try, ends_pragma|]. intros x t2 Ht2 Hx. destruct x as [x|e]; [ends_auto|].
  eapply ends_bind; [apply ends_late|]. intros b t3 Ht3 [Hb1 Hb2]. destruct b; [ends_auto|].
  eapply ends_bind; [apply ends_ctx|]. intros c t4 Ht4 _. destruct c; [ends_auto|].
  apply IH. apply (rounds_later n t3); [|done]. apply (rounds_next n t2); [|done|by apply Hb2].
  apply (rounds_later _ t); [done|lia].
Qed.

Lemma ends_checkpoint t mode : ends t any (checkpoint sched fuel mode : EM _).
Proof. apply ends_checkpoint_loop, rounds_fuel. Qed.

Lemma Next_err f r : f ≠ Err [EFuel] → (Next f r).1 ≠ Err [EFuel].
Proof.
  intros Hf. destruct f as [b|e].
  - destruct (wal_next_total b r) as [[_ ->]|(_ & tx & r' & ->)]; done.
  - cbn. destruct (errors_Is e ErrNotFound); [done|]. cbn. congruence.
Qed.

Lemma ends_reader_Next t : ends t any (reader_Next sched : EM _).
Proof.
  unfold reader_Next. eapply ends_bind; [eapply ends_try, ends_read_wal|]. intros file t1 _ Hf.
  eapply ends_bind; [apply ends_set_window|]. intros _ t2 _ _. eapply ends_bind; [apply ends_gets|]. intros rd t3 _ _.
  pose proof (Next_err file rd Hf) as HN. destruct (Next file rd) as [r rd'].
  eapply ends_bind; [apply ends_set_eng|]. intros _ t4 _ _. by apply ends_lift.
Qed.

Lemma ends_Sink_Apply t p frames : ends t any (Sink_Apply sched p frames : EM _).
Proof.
  unfold Sink_Apply. eapply ends_bind; [apply ends_ext|]. intros ch t1 _ _.
  eapply ends_bind; [apply ends_on_sink; intros; apply (dl_apply Hdl)|]. intros r t2 _ Hr. by apply ends_lift.
Qed.

Lemma ends_Sink_Rebase t f : ends t any (Sink_Rebase sched f : EM _).
Proof.
  unfold Sink_Rebase. eapply ends_bind; [apply ends_ext|]. intros ch t1 _ _.
  eapply ends_bind; [apply ends_on_sink; intros; apply (dl_rebase Hdl)|]. intros r t2 _ Hr. by apply ends_lift.
Qed.
#[local] Hint Resolve ends_beginReadRetry ends_checkpoint ends_reader_Next ends_Sink_Apply ends_Sink_Rebase : ends.

Lemma ends_drainStep t : ends t any (drainStep sched : EM _).
Proof. unfold drainStep. ends_auto. Qed.

Lemma ends_drain_loop n : ∀ t c, rounds n t → ends t any (drain_loop sched n c : EM _).
Proof.
  induction n as [|n IH]; intros t c Hr; [by destruct Hr; lia|]. cbn [drain_loop].
  eapply ends_bind; [apply ends_late|]. intros b t1 Ht1 [Hb1 Hb2]. destruct b; [ends_auto|].
  eapply ends_bind; [apply ends_drainStep|]. intros frames t2 Ht2 _. destruct (bool_decide _); [ends_auto|].
  apply IH. apply (rounds_later n t1); [|done]. by apply (rounds_next n t); [| |apply Hb2].
Qed.

Lemma ends_drainUntil_loop n : ∀ t target c, rounds n t → ends t any (drainUntil_loop sched n target c : EM _).
Proof.
  induction n as [|n IH]; intros t target c Hr; [by destruct Hr; lia|]. cbn [drainUntil_loop].
  eapply ends_bind; [apply ends_late|]. intros b t1 Ht1 [Hb1 Hb2]. destruct b; [ends_auto|].
  eapply ends_bind; [apply ends_drainStep|]. intros frames t2 Ht2 _.
  eapply ends_bind; [apply ends_gets|]. intros rd t3 Ht3 _. destruct (_ <=? _); [ends_auto|].
  destruct (bool_decide _) eqn:E; [ends_auto|].
  apply IH. apply (rounds_later n t1); [|lia]. by apply (rounds_next n t); [| |apply Hb2].
Qed.

Lemma ends_drain t : ends t any (drain sched fuel : EM _).
Proof. apply ends_drain_loop, rounds_fuel. Qed.

Lemma ends_drainUntil t target : ends t any (drainUntil sched fuel target : EM _).
Proof. apply ends_drainUntil_loop, rounds_fuel. Qed.

Lemma ends_drainTarget t : ends t any (drainTarget sched : EM _).
Proof. unfold drainTarget. ends_auto. Qed.

Lemma ends_armDeadTail t : ends t any (armDeadTailBaseline sched : EM _).
Proof. unfold armDeadTailBaseline. ends_auto. Qed.

Lemma ends_rebase t : ends t any (rebase sched copyBuf fuel : EM _).
Proof. unfold rebase, clearPendState. ends_auto. Qed.
#[local] Hint Resolve ends_drain ends_drainUntil ends_drainTarget ends_armDeadTail ends_rebase : ends.

Lemma ends_takeover t : ends t any (takeover sched copyBuf fuel : EM _).
Proof. unfold takeover. ends_auto. Qed.
#[local] Hint Resolve ends_takeover : ends.

Lemma ends_afterDrain t n : ends t any (afterDrain sched copyBuf fuel n : EM _).
Proof.
  unfold afterDrain. eapply ends_bind; [apply ends_persistConsumed|]. intros _ t1 _ _.
  eapply (ends_bind _ any); [ends_auto|]. intros _ t2 _ _. eapply ends_bind; [apply ends_gets|]. intros c t3 _ _.
  eapply (ends_bind _ any).
  { destruct (_ <=? _); [ends_auto|]. destruct (_ <? _); [|ends_auto]. eapply ends_any, ends_late. }
  intros due t4 _ _. ends_auto.
Qed.

Lemma ends_try_rebase t : ends t any (try_rebase sched copyBuf fuel : EM _).
Proof. unfold try_rebase. ends_auto. Qed.
#[local] Hint Resolve ends_afterDrain ends_try_rebase : ends.

Lemma ends_pollOnce t : ends t any (pollOnce sched copyBuf fuel : EM _).
Proof. unfold pollOnce, continue_reader, clearPendState. ends_auto. Qed.

(** ** Requests: one expected restart at most *)

(** The steps that leave the expectation as it is. *)
Definition keeps {A} (m : EM A) : Prop := ∀ s, e_expectRestart (s_eng (m s).2) = e_expectRestart (s_eng s).

Lemma keeps_bind {A B} (m : EM A) (f : A → EM B) : keeps m → (∀ a, keeps (f a)) → keeps (m ≫= f).
Proof.
  intros Hm Hf s. specialize (Hm s). unfold mbind, em_bind. destruct (m s) as [[a|e] s1]; [|done].
  by rewrite (Hf a s1).
Qed.

Lemma keeps_try {A} (m : EM A) : keeps m → keeps (try m).
Proof. intros Hm s. specialize (Hm s). unfold try. by destruct (m s). Qed.

Lemma keeps_ext c : keeps (ext sched c : EM _).
Proof. done. Qed.

Lemma keeps_on_sink {A} (f : S → A * S) : keeps (on_sink f : EM _).
Proof. intros s. unfold on_sink. by destruct (f (s_sink s)). Qed.

Lemma keeps_drainStep : keeps (drainStep sched : EM _).
Proof.
  unfold drainStep, reader_Next, read_wal, ext_io, Sink_Apply.
  repeat first [ apply keeps_bind; [|intros] | apply keeps_try | apply keeps_on_sink | done
    | match goal with
      | |- keeps (let '(_, _) := ?x in _) => destruct x
      | |- keeps (if ?b then _ else _) => destruct b
      end ].
Qed.

Lemma keeps_drainUntil target : keeps (drainUntil sched fuel target : EM _).
Proof.
  unfold drainUntil. generalize 0. induction fuel as [|n IH]; intros c; [done|]. cbn [drainUntil_loop]. unfold late.
  repeat first [ apply IH | apply keeps_drainStep | apply keeps_bind; [|intros] | done
    | match goal with |- keeps (if ?b then _ else _) => destruct b end ].
Qed.

Lemma keeps_drainTarget : keeps (drainTarget sched : EM _).
Proof.
  unfold drainTarget, stat_wal, ext_io.
  repeat first [ apply keeps_bind; [|intros] | apply keeps_try | done
    | match goal with
      | |- keeps (if ?b then _ else _) => destruct b
      | |- keeps (match ?x with _ => _ end) => destruct x
      end ].
Qed.

(** A round that expects no restart is the last one. *)
Lemma pollOnceTo_last n t target s r s' : e_expectRestart (s_eng s) = false → (t <= s_now s)%nat →
  pollOnceTo_loop sched copyBuf fuel (Datatypes.S n) target s = (r, s') → r ≠ Err [EFuel] ∧ (s_now s <= s_now s')%nat.
Proof.
  intros Hx Ht HE. cbn [pollOnceTo_loop] in HE. apply em_try_inv in HE as (x & s1 & E & HE).
  destruct (ends_drainUntil t target _ _ _ Ht E) as (H1 & H2 & _).
  pose proof (keeps_drainUntil target s) as Hk. rewrite E, Hx in Hk. cbn in Hk.
  assert (∃ m : EM unit, ends t any m ∧ m s1 = (r, s')) as (m & Hm & Em).
  { destruct (is_restarted x).
    - exists (try_rebase sched copyBuf fuel). split; [apply ends_try_rebase|].
      unfold eng, gets, mbind, em_bind in HE. by rewrite Hk in HE.
    - destruct x as [c|e]; [by exists (afterDrain sched copyBuf fuel c); split; [apply ends_afterDrain|]|].
      exists (fail e). split; [apply ends_fail; congruence|done]. }
  destruct (Hm s1 r s') as (G1 & G2 & _); [lia|done|]. split; [done|lia].
Qed.

Lemma ends_pollOnceTo t target : ends t any (pollOnceTo sched copyBuf fuel target : EM _).
Proof.
  unfold pollOnceTo. cbn [pollOnceTo_loop]. eapply ends_bind; [eapply ends_try, ends_drainUntil|]. intros x t1 _ Hx.
  destruct (is_restarted x); [|destruct x; ends_auto].
  eapply ends_bind; [apply ends_gets|]. intros b t2 _ _. destruct b; [|ends_auto].
  intros s r s' Hs HE. apply em_bind_inv in HE as [([] & s1 & [= <-] & HE)|(e & [=] & _)].
  apply em_bind_inv in HE as [([] & s2 & [= <-] & HE)|(e & [=] & _)].
  set (s2 := mkSys _ _ _ _ _ _) in HE.
  apply em_bind_inv in HE as [(nt & s3 & E & HE)|(e & E & ->)];
    destruct (ends_drainTarget t2 s2 _ _ Hs E) as (H1 & H2 & _);
    [|split_and!; [congruence|exact H2|done]].
  pose proof (keeps_drainTarget s2) as Hk. rewrite E in Hk. cbn in Hk.
  apply em_bind_inv in HE as [([] & s4 & [= <-] & HE)|(e & [=] & _)].
  eapply (pollOnceTo_last 0 t2) in HE as [G1 G2]; [|exact Hk|cbn in *; lia].
  split_and!; [done| |done]. cbn in *. lia.
Qed.

(** ** Resume, shutdown and the run *)

Lemma ends_tryResume t : ends t any (tryResume sched sha256 copyBuf : EM _).
Proof. unfold tryResume. ends_auto. Qed.

Lemma ends_walRaced t c : ends t any (walRacedSinceRestart sched c : EM _).
Proof. unfold walRacedSinceRestart. ends_auto. Qed.

Lemma ends_shutdown t : ends t any (shutdown sched sha256 copyBuf fuel : EM _).
Proof.
  pose proof ends_walRaced as Hw. unfold shutdown, markClean. ends_auto.
Qed.

Lemma ends_handle t ev : ends t any (handle sched sha256 copyBuf fuel ev : EM _).
Proof.
  pose proof ends_pollOnce as Hp. pose proof ends_pollOnceTo as Hq. pose proof ends_shutdown as Hs.
  unfold handle, serviceReq. destruct ev; ends_auto.
Qed.

Lemma ends_startup t : ends t any (startup sched dbPageSize sha256 copyBuf fuel : EM _).
Proof. pose proof ends_tryResume as Hr. unfold startup. ends_auto. Qed.

Lemma ends_run_loop evs : ∀ t, ends t any (run_loop sched sha256 copyBuf fuel evs : EM _).
Proof.
  induction evs as [|ev evs IH]; intros t; [apply ends_ret|]. cbn [run_loop].
  eapply ends_bind; [apply ends_handle|]. intros st t1 _ _. destruct st; [apply IH|apply ends_ret].
Qed.
End term.

(** C36: No poll, request, resume or shutdown runs forever: whatever the other
    connections do and however calls fail, once the clock is past the
    engine's deadlines (from call [T] on) every loop of it has ended before
    [T] rounds, so any fuel above [T] runs every event of [Run] to its end. *)
Theorem engine_terminates {D S : Type} `{WalDb D} `{Sink S} (sched : schedule (D:=D) (S:=S)) (dbPageSize : N)
    (sha256 : bytes → string) (copyBuf fuel T : nat) (evs : list event) (s : sys (D:=D) (S:=S)) :
  deadlines (S:=S) sched copyBuf fuel T →
  (Run sched dbPageSize sha256 copyBuf fuel evs s).1 ≠ Err [EFuel].
Proof.
  intros Hdl. assert (ends (s_now s) any (Run (S:=S) sched dbPageSize sha256 copyBuf fuel evs)) as Hr.
  { unfold Run. eapply ends_bind; [by eapply ends_startup|]. intros st t1 _ _.
    destruct st; [by eapply ends_run_loop|apply ends_ret]. }
  destruct (Run _ _ _ _ _ evs s) as [r s'] eqn:E. by destruct (Hr s r s' ltac:(done) E).
Qed.
