(* ===== verification/WalDbModel.v ===== *)
(** * A database that follows a script

    [wal_state] itself is a database in the sense of [WalDb], for any page
    size: the other connections follow a list of actions, and the commands of
    the engine's connection do what SQLite does when nothing is in their way,
    or fail.  Schedules that act only between the engine's events are calm. *)
From Stdlib Require Import Strings.Byte.
From S2P Require Import Prelude Files Wal WalProps Session WalDb WalDbProps Capture CaptureProps.
Local Open Scope N_scope.

(** ** A database that follows a script *)

Inductive act :=
  | ACommit (tx : list pageWrite)
  | ARestart (h : Header)
  | AFold (n : nat)
  | ATruncate.

Definition tx_okb (h : Header) (tx : list pageWrite) : bool :=
  match last tx with
  | None => false
  | Some l => forallb (λ p, pw_commit p =? 0) (removelast tx) && negb (pw_commit l =? 0) &&
      forallb (λ p, (pw_pgno p <? u32_size) && (pw_commit p <? u32_size) &&
        (N.of_nat (length (pw_data p)) =? wh_page_size h)) tx
  end.

Definition hdr_okb (ps : N) (h : Header) : bool :=
  ((wh_magic h =? magicLE) || (wh_magic h =? magicBE)) && (wh_version h =? wal_version) &&
  (wh_page_size h <? u32_size) && (wh_checkpoint_seq h <? u32_size) && (wh_salt1 h <? u32_size) && (wh_salt2 h <? u32_size) &&
  bool_decide (Checksum (ChecksumByteOrder h) (0, 0) (header_prefix h) = (wh_cksum1 h, wh_cksum2 h)) &&
  (wh_page_size h =? ps).

Definition unblockedb (v : wal_state) : bool := match ws_pin v with Some (true, _) => false | _ => true end.

Definition foldb (v : wal_state) (n : nat) : bool := (n =? ws_total v)%nat || (n =? ws_folded v)%nat && ws_synced v.

Definition fold_okb (v : wal_state) (n : nat) : bool :=
  (ws_folded v <=? n)%nat && (n <=? fold_limit v)%nat &&
  (negb (ws_folded v =? fold_limit v)%nat || Bool.eqb (foldb v n) (ws_synced v)).

(** An action that is not possible has no effect. *)
Definition act_step (ps : N) (a : act) (v : wal_state) : wal_state :=
  match a with
  | ACommit tx =>
      match ws_hdr v with
      | Some h => if tx_okb h tx then
          mkWalState (ws_base v) (ws_hist v ++ [tx]) (ws_start v) (ws_folded v) (ws_synced v) (ws_hdr v) (ws_used v) (ws_pin v)
          else v
      | None => v
      end
  | ARestart h =>
      if hdr_okb ps h && bool_decide (salts h ∉ ws_used v) && (ws_folded v =? ws_total v)%nat &&
         (bool_decide (ws_hdr v = None) || unblockedb v)
      then mkWalState (ws_base v) (ws_hist v) (ws_total v) (ws_folded v) (ws_synced v) (Some h) (salts h :: ws_used v) (ws_pin v)
      else v
  | AFold n => if fold_okb v n then set_folded n (foldb v n) v else v
  | ATruncate => if (ws_folded v =? ws_total v)%nat && unblockedb v then emptied v else v
  end.

Definition acts_step (ps : N) (l : list act) (v : wal_state) : wal_state := foldl (λ v a, act_step ps a v) v l.

Lemma tx_okb_ok h tx : tx_okb h tx = true → tx_ok h tx.
Proof.
  unfold tx_okb. destruct (last tx) as [l|] eqn:El; [|done]. apply last_Some in El as (init & ->).
  rewrite removelast_last, !andb_true_iff, !forallb_forall, negb_true_iff, N.eqb_neq. intros [[Hi Hl] Ha].
  exists init, l. split_and!; [done| | |done]; apply List.Forall_forall.
  - intros p Hp. apply Ha in Hp. rewrite !andb_true_iff, !N.ltb_lt, N.eqb_eq in Hp. split; [apply Hp..|lia].
  - intros p Hp. apply N.eqb_eq. by apply Hi.
Qed.

Lemma hdr_okb_ok ps h : hdr_okb ps h = true → hdr_ok h ∧ wh_page_size h = ps.
Proof.
  unfold hdr_okb. rewrite !andb_true_iff, orb_true_iff, !N.ltb_lt, !N.eqb_eq, bool_decide_eq_true. intros. split; [split|]; tauto.
Qed.

Lemma unblockedb_ok v : unblockedb v = true → unblocked v.
Proof. unfold unblockedb, unblocked. by destruct (ws_pin v) as [[[] ?]|]. Qed.

Lemma fold_okb_ok v n : fold_okb v n = true → fold_ok v n (foldb v n).
Proof.
  unfold fold_okb, fold_ok. rewrite !andb_true_iff, orb_true_iff, !Nat.leb_le, negb_true_iff, Nat.eqb_neq, Bool.eqb_true_iff.
  intros [[H1 H2] H3]. split; [done|]. split; [|split].
  - intros ->. unfold foldb. by rewrite Nat.eqb_refl.
  - unfold foldb. rewrite orb_true_iff, andb_true_iff, !Nat.eqb_eq. tauto.
  - tauto.
Qed.

Lemma act_step_env ps a v : rtc (env_step ps) v (act_step ps a v).
Proof.
  destruct a as [tx|h|n|]; cbn [act_step].
  - destruct (ws_hdr v) as [h|] eqn:E; [|done]. destruct (tx_okb h tx) eqn:Et; [|done].
    rewrite <-E. apply rtc_once. eapply env_commit; [exact E|by apply tx_okb_ok].
  - destruct (_ && _) eqn:E; [|done]. rewrite !andb_true_iff, orb_true_iff, !bool_decide_eq_true, Nat.eqb_eq in E.
    destruct E as [[[Hh Hu] Hf] Hb]. apply hdr_okb_ok in Hh as [Hh Hp]. apply rtc_once, env_restart; try done.
    destruct Hb; [by left|right; by apply unblockedb_ok].
  - destruct (fold_okb v n) eqn:E; [|done]. by apply rtc_once, env_fold, fold_okb_ok.
  - destruct (_ && _) eqn:E; [|done]. apply andb_true_iff in E as [E1%Nat.eqb_eq E2].
    apply rtc_once, env_truncate; [done|by apply unblockedb_ok].
Qed.

Lemma acts_step_env ps l v : rtc (env_step ps) v (acts_step ps l v).
Proof.
  unfold acts_step. revert v. induction l as [|a l IH]; intros v; [done|]. cbn. etransitivity; [apply act_step_env|apply IH].
Qed.

(** ** The instance

    A choice is a list of actions, or [None]: the command fails. *)
Definition scripted (ps : N) : Type := wal_state.

Section scripted.
Context (ps : N).

Abbreviation scripted := (scripted ps).

Definition script_begin (c : option (list act)) (v : wal_state) : res unit * wal_state :=
  match c, ws_pin v with
  | Some _, None => (Ok tt, set_pin (Some (negb (ws_folded v =? ws_total v)%nat, ws_total v)) v)
  | _, _ => (Err [EBusy], v)
  end.

Definition script_checkpoint (c : option (list act)) (mode : ckpt_mode) (v : wal_state) : res N * wal_state :=
  match c, ws_pin v with
  | Some _, None =>
      match mode with
      | RESTART => (Ok (ws_frames v), set_folded (ws_total v) true v)
      | TRUNCATE => (Ok 0, emptied v)
      end
  | _, _ => (Err [EBusy], v)
  end.

Definition script_wal (v : wal_state) : res bytes :=
  match ws_hdr v with
  | None => Err [ErrNotFound]
  | Some h => Ok (header_bytes h ++ run_bytes h (seed h) (concat (ws_log v)))%list
  end.

#[export] Instance scripted_WalDb : WalDb scripted := {
  db_choice := option (list act);
  db_env c v := acts_step ps (default [] c) v;
  db_begin := script_begin;
  db_end c v := if c is Some _ then set_pin None v else v;
  db_checkpoint := script_checkpoint;
  db_wal := script_wal;
  db_main v := db_at ps v (ws_folded v) }.

Lemma script_wal_file v : wal_wf ps v → wal_file v (script_wal v).
Proof.
  intros Hwf. unfold wal_file, script_wal. destruct (ws_hdr v) as [h|] eqn:E; [|by left; eexists].
  destruct (ww_hdr _ _ Hwf h E) as (Hh & Hp & _). exists []. rewrite app_nil_r. cbv zeta. split; [done|].
  assert (Forall (write_ok h) (concat (ws_log v))) as Hok.
  { apply Forall_concat. apply Forall_drop. eapply Forall_impl; [apply (ww_txs _ _ Hwf)|].
    intros tx Ht. by destruct (Ht h Hp) as (? & ? & _ & ? & _). }
  apply (next_partial _ h _ _ [] []); [done|constructor|constructor| | |].
  - apply run_sum_u32, hdr_seed_u32, Hh.
  - left. unfold FrameSize, FrameHeaderSize. cbn. lia.
  - cbn [run_bytes app]. rewrite N2Nat.inj_add. rewrite <-drop_drop, drop_header. apply drop_ge.
    rewrite length_run_bytes by done. unfold ws_frames. lia.
Qed.

#[export] Instance scripted_WalDbLaws : WalDbLaws scripted ps.
Proof.
  refine {| db_view v := v |}.
  - intros c v. apply acts_step_env.
  - intros c d r d'. cbn. unfold script_begin. destruct c as [l|], (ws_pin d) as [[b m]|] eqn:Ep; intros [= <- <-]; try done.
    split; [done|]. eexists. split; [|done]. intros Hb%negb_false_iff. by apply Nat.eqb_eq.
  - intros [l|] d; [by left|by right].
  - intros c mode d r d'. cbn. unfold script_checkpoint.
    destruct c as [l|], (ws_pin d) as [[b m]|] eqn:Ep; [by intros [= <- <-]; left| |by intros [= <- <-]; left..].
    destruct mode; by intros [= <- <-].
  - apply script_wal_file.
  - done.
Defined.

(** ** Schedules that act at ticks

    The others act only while the engine waits for its next event: [acts n]
    at the tick that is call [n]; once the log was read, a clock reads late
    at the calls [late] names; [snk n] is the sink's choice. *)
Context {S : Type} `{Sink S}.

Definition tick_schedule (acts : nat → list act) (late : nat → bool) (snk : nat → sink_choice) : schedule (D:=scripted) (S:=S) := λ n w c,
  mkChoice (D:=scripted) (S:=S) (Some (if c is CTick then acts n else [])) (Some []) (snk n) false
    (match c, w with CClock, WOpen => false | CClock, _ => late n | _, _ => false end).

Lemma tick_still acts late snk n w c (v : scripted) : c ≠ CTick → db_env (ch_env (tick_schedule acts late snk n w c)) v = v.
Proof. intros Hc. by destruct c. Qed.

Lemma tick_calm acts late snk : calm ps (tick_schedule acts late snk).
Proof.
  split; try done.
  - intros n c v _ Hc. rewrite tick_still; [done|]. intros ->. apply Hc. by left.
  - intros n c v _ Hc _. by rewrite tick_still.
  - intros n v _ v'. left. unfold v'. by rewrite tick_still.
  - intros n c v _ Hc. by rewrite tick_still.
Qed.

Lemma act_no_truncate a v : a ≠ ATruncate → ws_hdr (act_step ps a v) = None →
  ws_hdr v = None ∧ ws_hist (act_step ps a v) = ws_hist v.
Proof.
  intros Ha. destruct a as [tx|h|n|]; cbn [act_step]; [| | |done].
  - destruct (ws_hdr v) eqn:E; [|done]. by destruct (tx_okb _ _); cbn; rewrite ?E.
  - by destruct (_ && _).
  - by destruct (fold_okb v n).
Qed.

Lemma acts_no_truncate l v : Forall (.≠ ATruncate) l → ws_hdr (acts_step ps l v) = None →
  ws_hdr v = None ∧ ws_hist (acts_step ps l v) = ws_hist v.
Proof.
  unfold acts_step. revert v. induction l as [|a l IH]; intros v; cbn; [done|]. intros [Ha Hl]%Forall_cons Hh.
  destruct (IH _ Hl Hh) as [H1 ->]. by apply act_no_truncate.
Qed.

Lemma tick_no_truncate acts late snk : (∀ n, Forall (.≠ ATruncate) (acts n)) → no_truncate ps (tick_schedule acts late snk).
Proof.
  intros Ha n w c v _. cbn. destruct c; try done. by apply acts_no_truncate.
Qed.
End scripted.

(** A header of the log, by its salt. *)
Definition script_header (ps salt : N) : Header :=
  let pre := mkHeader magicLE wal_version ps 0 salt 9 0 0 in
  let s := Checksum LittleEndian (0, 0) (header_prefix pre) in
  mkHeader magicLE wal_version ps 0 salt 9 s.1 s.2.
