(* ===== verification/CaptureExamples.v ===== *)
(** * The capture engine: an executable database and sink

    Over the scripted database of [WalDbModel], with a replica file as the
    sink, the engine's programs evaluate: the witnesses of its guarantees, and
    what it does not detect. *)
From Stdlib Require Import Ascii String Strings.Byte.
From S2P Require Import Prelude Files Wal WalProps Session WalDb WalDbProps WalDbModel Capture CaptureProps CapturePoll CaptureRun CaptureShut CaptureMain CaptureTerm.
Local Open Scope N_scope.

(** ** The sink: a replica file *)

Definition ex_ps : N := 8.

#[global] Instance ex_Sink : Sink bytes := {
  sink_choice := bool;
  sink_apply fault ps frames f :=
    if fault then (Err [EIO], f) else match ReplicaApply ps frames f with Ok f' => (Ok tt, f') | Err e => (Err e, f) end;
  sink_rebase fault file f := if fault then (Err [EIO], f) else (Ok tt, file) }.

#[global] Instance ex_SinkLaws : SinkLaws bytes ex_ps.
Proof.
  refine {| sink_replica f := f; sink_start _ := True; sink_good _ _ _ := True |}; try done.
  - intros [] ps frames f f'; cbn; [done|]. destruct (ReplicaApply ps frames f); congruence.
  - intros [] ps frames f e f'; cbn; [by intros [= <- _]|]. unfold ReplicaApply.
    destruct (bool_decide _); [by intros [= <- _]|]. destruct (_ =? 0); [by intros [= <- _]|done].
  - by intros [] file f f' [= <-].
Defined.

(** ** A run

    An empty database of one page; two transactions under the first
    generation, taken over, one more under a second one. *)
Definition ex_db : wal_state := mkWalState (ex_page x00) [] 0 0 true None [(0, 0)] None.

Definition ex_tx (a b : byte) : list pageWrite := [mkPageWrite 1 0 (ex_page a); mkPageWrite 2 2 (ex_page b)].

Lemma ex_db_wf : wal_wf ex_ps ex_db.
Proof. split; cbn; try done. by left. Qed.

Definition ex_sha (b : bytes) : string := string_of_list_byte b.

Lemma ex_sha_inj a b : ex_sha a = ex_sha b → a = b.
Proof. unfold ex_sha. intros E. by rewrite <-(list_byte_of_string_of_list_byte a), E, list_byte_of_string_of_list_byte. Qed.

Definition ex_sys : sys (D:=scripted ex_ps) (S:=bytes) := mkSys NewEngine ex_db [] None 0 WOpen.

Abbreviation ex_Run sched evs := (Run (D:=scripted ex_ps) (S:=bytes) sched ex_ps ex_sha 4 20 evs ex_sys).

Definition ex_acts (n : nat) : list act :=
  match n with
  | 10%nat => [ARestart (script_header ex_ps 1); ACommit (ex_tx x01 x02); ACommit (ex_tx x03 x04)]
  | 25%nat => [ARestart (script_header ex_ps 2); ACommit (ex_tx x05 x06)]
  | _ => []
  end.

Lemma ex_acts_keep n : Forall (.≠ ATruncate) (ex_acts n).
Proof. do 26 (destruct n as [|n]; [by repeat constructor|]). constructor. Qed.

(** The takeover of the idle engine, and the poll cut short by its budget. *)
Definition ex_sched := tick_schedule (S:=bytes) ex_ps ex_acts (Nat.eqb 20) (λ _, false).
Definition ex_short := tick_schedule (S:=bytes) ex_ps ex_acts (Nat.eqb 14) (λ _, false).

Lemma run_split {A} (x : res A * sys (D:=scripted ex_ps) (S:=bytes)) a : x.1 = a → x = (a, x.2).
Proof. destruct x as [r s]. by intros <-. Qed.

Lemma cx_init : init_ok ex_ps ex_sha ex_sys.
Proof. split; [done|apply ex_db_wf|done|done]. Qed.

Definition ex_after : sys (D:=scripted ex_ps) (S:=bytes) := (ex_Run ex_sched [Tick; Tick; Tick]).2.

Lemma ex_after_runs : ex_Run ex_sched [Tick; Tick; Tick] = (Ok Running, ex_after).
Proof. apply (run_split (ex_Run ex_sched [Tick; Tick; Tick])). vm_compute. reflexivity. Qed.

Lemma capture_prefix_witness :
  e_takeovers (s_eng ex_after) = 1 ∧ length (ws_hist (s_db ex_after)) = 3%nat ∧
  ∃ k, replica ex_ps ex_after = db_at ex_ps (view ex_ps ex_after) k ∧
    (ws_total (view ex_ps ex_sys) <= k <= ws_total (view ex_ps ex_after))%nat.
Proof.
  split; [vm_compute; reflexivity|]. split; [vm_compute; reflexivity|].
  exact (capture_prefix ex_ps ex_sha 4 20 ex_sha_inj ex_sched [Tick; Tick; Tick] ex_sys ex_after
    (tick_calm _ _ _ _) cx_init ex_after_runs).
Defined.

Definition ex_before : sys (D:=scripted ex_ps) (S:=bytes) := (ex_Run ex_short [Tick]).2.
Abbreviation ex_request := (handle (D:=scripted ex_ps) (S:=bytes) ex_short ex_sha 4 20 Request ex_before).
Definition ex_served : sys (D:=scripted ex_ps) (S:=bytes) := ex_request.2.

Lemma ex_short_runs : ex_Run ex_short [Tick] = (Ok Running, ex_before).
Proof. apply (run_split (ex_Run ex_short [Tick])). vm_compute. reflexivity. Qed.

Lemma ex_served_runs : ex_request = (Ok Running, ex_served).
Proof. apply (run_split ex_request). vm_compute. reflexivity. Qed.

Lemma request_complete_witness :
  ws_total (s_db ex_before) = 2%nat ∧ s_sink ex_before = db_at ex_ps (s_db ex_before) 1 ∧
  ∃ k, replica ex_ps ex_served = db_at ex_ps (view ex_ps ex_served) k ∧
    (ws_total (view ex_ps ex_before) <= k <= ws_total (view ex_ps ex_served))%nat.
Proof.
  split; [vm_compute; reflexivity|]. split; [vm_compute; reflexivity|].
  exact (request_complete ex_ps ex_sha 4 20 ex_sha_inj ex_short [Tick] ex_sys ex_before ex_served
    (tick_calm _ _ _ _) (tick_no_truncate _ _ _ _ ex_acts_keep) cx_init ex_short_runs ex_served_runs).
Defined.

(** A run that stopped, and the engine started again on what it left, over
    the database as the run left it, its log emptied. *)
Definition ex_stopped : sys (D:=scripted ex_ps) (S:=bytes) := (ex_Run ex_sched [Tick; Tick; Cancel]).2.

Definition ex_left : wal_state := mkWalState (ex_page x05 ++ ex_page x06) [] 0 0 true None [(0, 0)] None.
Definition ex_again : sys (D:=scripted ex_ps) (S:=bytes) :=
  mkSys NewEngine ex_left (s_sink ex_stopped) (s_state ex_stopped) 100 WOpen.
Abbreviation ex_startup := (startup (D:=scripted ex_ps) (S:=bytes) ex_sched ex_ps ex_sha 4 20 ex_again).
Definition ex_resumed : sys (D:=scripted ex_ps) (S:=bytes) := ex_startup.2.

Lemma ex_stopped_runs : ex_Run ex_sched [Tick; Tick; Cancel] = (Ok Stopped, ex_stopped).
Proof. apply (run_split (ex_Run ex_sched [Tick; Tick; Cancel])). vm_compute. reflexivity. Qed.

Lemma ex_resumed_runs : ex_startup = (Ok Running, ex_resumed).
Proof. unfold ex_resumed. apply (run_split ex_startup). vm_compute. reflexivity. Qed.

Lemma ex_atomic fault p frames (x : bytes) e x' : sink_apply fault p frames x = (Err e, x') → sink_replica (ps:=ex_ps) x' = sink_replica (ps:=ex_ps) x.
Proof. cbn. destruct fault; [by intros [= _ <-]|]. destruct (ReplicaApply p frames x); congruence. Qed.

Lemma ex_restarts : restarts (S:=bytes) ex_ps ex_sha 4 20 ex_sys ex_again.
Proof.
  apply (restart_next ex_ps ex_sha 4 20 ex_sys ex_sched [Tick; Tick; Cancel] ex_sys ex_stopped ex_left 100 WOpen).
  - apply restart_first.
  - apply tick_calm.
  - done.
  - apply ex_stopped_runs.
  - split; cbn; try done. by left.
Qed.

Lemma restart_misses_nothing_witness :
  e_resumed (s_eng ex_resumed) = true ∧
  ∃ k, replica ex_ps ex_resumed = db_at ex_ps (view ex_ps ex_resumed) k ∧
    (ws_total (view ex_ps ex_again) <= k <= ws_total (view ex_ps ex_resumed))%nat ∧
    (e_resumed (s_eng ex_resumed) = true → replica ex_ps ex_resumed = replica ex_ps ex_again).
Proof.
  split; [vm_compute; reflexivity|].
  exact (restart_misses_nothing ex_ps ex_sha 4 20 ex_sha_inj ex_sched ex_sys ex_again ex_resumed
    ex_atomic (λ _, I) cx_init ex_restarts (tick_calm _ _ _ _) ex_resumed_runs).
Defined.

(** ** Termination: a clock that ends up late, calls that fail as they like *)

Definition ex_failing : schedule (D:=scripted ex_ps) (S:=bytes) := λ n w c,
  mkChoice (D:=scripted ex_ps) (S:=bytes) (Some []) (if c is CBegin then None else Some []) (bool_decide (c = CApply)) false
    (bool_decide (c = CClock) && (12 <=? n)%nat).

Lemma engine_terminates_witness :
  (Run (D:=scripted ex_ps) (S:=bytes) ex_failing ex_ps ex_sha 4 20 [Tick] ex_sys).1 = Err [EBusy] ∧
  (Run (D:=scripted ex_ps) (S:=bytes) ex_failing ex_ps ex_sha 4 20 [Tick] ex_sys).1 ≠ Err [EFuel].
Proof.
  split; [vm_compute; reflexivity|]. apply (engine_terminates ex_failing ex_ps ex_sha 4 20 12). split; try lia.
  - intros n w Hn. cbn [ex_failing ch_flag]. apply andb_true_iff. split; [done|by apply Nat.leb_le].
  - intros c d d'. cbn. unfold script_begin. by destruct c, (ws_pin d).
  - intros c mode d d'. cbn. unfold script_checkpoint. by destruct c, (ws_pin d), mode.
  - intros d. cbn. unfold script_wal. by destruct (ws_hdr d).
  - intros b p frames x x'. cbn. destruct b; [done|]. unfold ReplicaApply.
    by destruct (bool_decide _); [|destruct (_ =? 0)].
  - intros b f x x'. by destruct b.
Defined.

(** ** What the engine does not detect

    Between a takeover's RESTART and the read transaction begun after it,
    another connection commits a transaction under a new generation and
    checkpoints all of it; the next commit restarts the log again, which the
    read transaction on the folded log does not prevent. *)
Definition gap_acts (n : nat) : list act :=
  match n with
  | 10%nat => [ARestart (script_header ex_ps 1); ACommit (ex_tx x01 x02)]
  | 21%nat => [ARestart (script_header ex_ps 2); ACommit (ex_tx x03 x04); AFold 2]
  | 22%nat => [ARestart (script_header ex_ps 3); ACommit [mkPageWrite 2 2 (ex_page x06)]]
  | _ => []
  end.
Definition gap_sched : schedule (D:=scripted ex_ps) (S:=bytes) := λ n w c,
  mkChoice (D:=scripted ex_ps) (S:=bytes) (Some (gap_acts n)) (Some []) false false (n =? 17)%nat.

Definition gap_end : sys (D:=scripted ex_ps) (S:=bytes) := (ex_Run gap_sched [Tick; Tick; Tick]).2.

Lemma gap_runs : ex_Run gap_sched [Tick; Tick; Tick] = (Ok Running, gap_end).
Proof. unfold gap_end. apply (run_split (ex_Run gap_sched [Tick; Tick; Tick])). vm_compute. reflexivity. Qed.

Definition never_db_at (s : sys (D:=scripted ex_ps) (S:=bytes)) : bool :=
  forallb (λ k, negb (bool_decide (s_sink s = db_at ex_ps (s_db s) k))) (seq 0 (S (ws_total (s_db s)))).

Lemma never_db_at_ok s k : never_db_at s = true → (k <= ws_total (s_db s))%nat → s_sink s ≠ db_at ex_ps (s_db s) k.
Proof.
  unfold never_db_at. rewrite forallb_forall. intros Hs Hk.
  specialize (Hs k). rewrite negb_true_iff, bool_decide_eq_false in Hs. apply Hs. apply in_seq. lia.
Qed.

(** A takeover can lose a transaction without noticing.  When one is
    committed and wholly checkpointed between the takeover's RESTART and the
    read transaction begun after it, the next restart of the log is taken for
    the expected one: no call fails, nothing is rebased (the one rebase is the
    start's), and the replica is not the database after any number of its
    transactions. *)
Lemma takeover_gap : ∃ s',
  Run (D:=scripted ex_ps) (S:=bytes) gap_sched ex_ps ex_sha 4 20 [Tick; Tick; Tick] ex_sys = (Ok Running, s') ∧
  e_takeovers (s_eng s') = 1 ∧ e_rebased (s_eng s') = 1 ∧
  ∀ k, (k <= ws_total (s_db s'))%nat → replica ex_ps s' ≠ db_at ex_ps (s_db s') k.
Proof.
  exists gap_end. split; [exact gap_runs|]. split; [vm_compute; reflexivity|]. split; [vm_compute; reflexivity|].
  intros k. apply never_db_at_ok. vm_compute. reflexivity.
Qed.

Definition quiet_sched := tick_schedule (S:=bytes) ex_ps (λ _, []) (λ _, false) (λ _, false).

(** A resumed engine applies a transaction and stops before it can write the
    state file; while it is down a second transaction restores the old bytes
    and is folded into the main file. *)
Definition crash_sched : schedule (D:=scripted ex_ps) (S:=bytes) := λ n w c,
  mkChoice (D:=scripted ex_ps) (S:=bytes)
    (Some (if bool_decide (c = CTick) then [ARestart (script_header ex_ps 1); ACommit (ex_tx x01 x02)] else [])) (Some [])
    false (bool_decide (c = CSave)) false.

Definition crashed : sys (D:=scripted ex_ps) (S:=bytes) :=
  (Run (D:=scripted ex_ps) (S:=bytes) crash_sched ex_ps ex_sha 4 20 [Tick] ex_again).2.
Definition while_down (d : scripted ex_ps) : scripted ex_ps :=
  db_env (Some [ACommit (ex_tx x05 x06); AFold 2; ATruncate]) (db_end (Some []) d).
Definition recovered : sys (D:=scripted ex_ps) (S:=bytes) :=
  mkSys NewEngine (while_down (s_db crashed)) (s_sink crashed) (s_state crashed) 0 WOpen.
Abbreviation ex_recovery := (startup (D:=scripted ex_ps) (S:=bytes) quiet_sched ex_ps ex_sha 4 20 recovered).

(** A clean mark outlives the run it was written for.  An engine that
    resumed keeps it in the state file until it first persists a position: if
    it stops between applying a transaction and that write, and the old bytes
    are then restored by a transaction folded into the main file, the next
    start resumes on a replica that is not the database. *)
Lemma stale_clean_mark :
  (Run (D:=scripted ex_ps) (S:=bytes) crash_sched ex_ps ex_sha 4 20 [Tick] ex_again).1 = Err [EIO] ∧
  ∃ s', startup (D:=scripted ex_ps) (S:=bytes) quiet_sched ex_ps ex_sha 4 20 recovered = (Ok Running, s') ∧
    e_resumed (s_eng s') = true ∧ replica ex_ps s' ≠ db_main (s_db s').
Proof.
  split; [vm_compute; reflexivity|]. exists (ex_recovery.2).
  split; [apply (run_split ex_recovery); vm_compute; reflexivity|]. split; [vm_compute; reflexivity|].
  vm_compute. discriminate.
Qed.
