(* ===== verification/CaptureSessionExamples.v ===== *)
(** * The engine and the session together, evaluated

    A session over the scripted database, its objects in the model of the LTX
    codec: transactions are captured while flushes encode and land between
    them. *)
From Stdlib Require Import Ascii String Strings.Byte.
From S2P Require Import Prelude Files Wal WalProps Ltx LtxProps LtxModel Session SessionProps SessionExamples SessionRun WalDb WalDbProps WalDbModel Capture CaptureProps CaptureExamples CaptureSession.
Local Open Scope N_scope.

#[local] Existing Instance model_lib.

Definition sx_ps : N := 512.
#[local] Instance sx_Sink : Sink session := session_Sink sx_ps 16.

Definition sx_tx (b : byte) : list pageWrite :=
  [mkPageWrite 1 0 (ex_page1 2 b); mkPageWrite 2 2 (replicate 512 b)].

Definition sx_db : scripted sx_ps := mkWalState (SessionExamples.ex_db 1 x00) [] 0 0 true None [(0, 0)] None.

Definition sx_start : sys (D:=scripted sx_ps) (S:=session) :=
  Capture.mkSys NewEngine sx_db (mkSession (SessionRun.mkSys ex_zero None 0 ([], 0) None) true) None 0 WOpen.

Definition sx_acts (n : nat) : list act :=
  match n with
  | 9%nat => [ARestart (script_header sx_ps 1); ACommit (sx_tx x01); ACommit (sx_tx x02)]
  | 20%nat => [ACommit (sx_tx x03)]
  | _ => []
  end.
Definition sx_moves (n : nat) : session_choice :=
  mkSessionChoice (match n with 15%nat => [MEncode None] | 23%nat => [MLand] | _ => [] end) false.
Definition sx_sched := tick_schedule (S:=session) sx_ps sx_acts (λ _, false) sx_moves.


Abbreviation sx_Run evs := (Run (D:=scripted sx_ps) (S:=session) sx_sched sx_ps ex_sha 4096 20 evs sx_start).
Definition sx_end : sys (D:=scripted sx_ps) (S:=session) := (sx_Run [Tick; Tick]).2.

Lemma sx_split {A} (x : res A * sys (D:=scripted sx_ps) (S:=session)) a : x.1 = a → x = (a, x.2).
Proof. destruct x as [r s]. by intros <-. Qed.

Lemma sx_end_runs : sx_Run [Tick; Tick] = (Ok Running, sx_end).
Proof. unfold sx_end. apply (sx_split (sx_Run [Tick; Tick])). vm_compute. reflexivity. Qed.

(** ** The database is a well-formed one throughout *)

Definition db_fileb (f : bytes) (c : N) : bool :=
  bool_decide (readDBHeader f = Ok (sx_ps, c)) && (N.of_nat (length f) =? c * sx_ps) && (1 <=? c) && (c <? u32_size - 1).

Lemma db_fileb_ok f c : db_fileb f c = true → db_file sx_ps f c.
Proof.
  unfold db_fileb. rewrite !andb_true_iff, bool_decide_eq_true, N.eqb_eq, N.leb_le, N.ltb_lt.
  intros [[[H1 H2] H3] H4]. split; [done|]. split_and!; [split; [lia|unfold u32_size in *; lia]|done|done].
Qed.

Definition db_soundb (v : wal_state) : bool :=
  db_fileb (ws_base v) (pages_of sx_ps (ws_base v)) &&
  forallb (λ k, match ws_hist v !! k with
                | Some tx => forallb (λ p, 1 <=? pw_pgno p) tx && db_fileb (db_at sx_ps v (S k)) (tx_commit tx)
                | None => true
                end) (seq 0 (ws_total v)).

Lemma db_soundb_ok v : db_soundb v = true → db_sound sx_ps v.
Proof.
  unfold db_soundb. rewrite andb_true_iff, forallb_forall. intros [Hb Ht].
  split; [by eexists; apply db_fileb_ok|]. intros k tx Hk. pose proof (lookup_lt_Some _ _ _ Hk) as Hlt.
  specialize (Ht k). rewrite in_seq, Hk, andb_true_iff, forallb_forall in Ht. destruct Ht as [H1 H2]; [unfold ws_total; lia|].
  split; [|by apply db_fileb_ok]. apply List.Forall_forall. intros p Hp. by apply N.leb_le, H1.
Qed.

Lemma sx_opened : opened sx_ps sx_start.
Proof.
  split; [done| |done|].
  - split; cbn; try done. by left.
  - by split.
Qed.

Lemma some_default {A} (o : option A) d : (if o is Some _ then true else false) = true → o = Some (default d o).
Proof. by destruct o. Qed.

(** The first of three transactions is encoded before the second is captured,
    and lands before the third. *)
Definition sx_chain (s : sys (D:=scripted sx_ps) (S:=session)) : bytes * list bytes := default ([], []) (sy_chain (s_sink s)).

Lemma sx_landed : sy_chain (flush_moves sx_ps 16 [] (s_sink sx_end)) = Some ((sx_chain sx_end).1, (sx_chain sx_end).2).
Proof.
  rewrite <-surjective_pairing. unfold sx_chain. apply some_default. vm_compute. reflexivity.
Qed.

Lemma sx_sized : se_sized (flush_moves sx_ps 16 [] (s_sink sx_end)) = true.
Proof. vm_compute. reflexivity. Qed.

Lemma sx_sound : db_sound sx_ps (view sx_ps sx_end).
Proof. apply db_soundb_ok. vm_compute. reflexivity. Qed.

Lemma head_is_committed_prefix_witness :
  sy_head (s_sink sx_end) = 1 ∧ ws_total (s_db sx_end) = 3%nat ∧ sy_db (s_sink sx_end) = (db_at sx_ps (s_db sx_end) 1, 2) ∧
  ∃ g, let y := flush_moves sx_ps 16 [] (s_sink sx_end) in
    MaterializeChain (sx_chain sx_end).1 (sx_chain sx_end).2 = Ok (g, sy_head y, db_sum sx_ps (sy_db y).1 (sy_db y).2) ∧
    same_db sx_ps g (sy_db y).1 (sy_db y).2 ∧
    (sy_db y = sy_db (s_sink sx_start) ∨
     ∃ j, (j <= ws_total (view sx_ps sx_end))%nat ∧ (sy_db y).1 = db_at sx_ps (view sx_ps sx_end) j).
Proof.
  split; [vm_compute; reflexivity|]. split; [vm_compute; reflexivity|]. split; [vm_compute; reflexivity|].
  exact (head_is_committed_prefix sx_ps eq_refl eq_refl 16 ex_sha 4096 20 ex_sha_inj sx_sched [Tick; Tick] [] sx_start sx_end
    _ _ (tick_calm _ _ _ _) sx_opened sx_end_runs sx_sound sx_sized sx_landed).
Defined.

(** ** A flush: drain, encode, land *)

Definition sx_quiet := tick_schedule (S:=session) sx_ps sx_acts (λ _, false) (λ _, mkSessionChoice [] false).
Abbreviation sx_first := (Run (D:=scripted sx_ps) (S:=session) sx_quiet sx_ps ex_sha 4096 20 [Tick] sx_start).
Definition sx_before : sys (D:=scripted sx_ps) (S:=session) := sx_first.2.
Abbreviation sx_request := (handle (D:=scripted sx_ps) (S:=session) sx_quiet ex_sha 4096 20 Request sx_before).
Definition sx_drained : sys (D:=scripted sx_ps) (S:=session) := sx_request.2.

Lemma sx_first_runs : sx_first = (Ok Running, sx_before).
Proof. unfold sx_before. apply (sx_split sx_first). vm_compute. reflexivity. Qed.

Lemma sx_request_runs : sx_request = (Ok Running, sx_drained).
Proof. unfold sx_drained. apply (sx_split sx_request). vm_compute. reflexivity. Qed.

Lemma sx_acts_keep n : Forall (.≠ ATruncate) (sx_acts n).
Proof. do 21 (destruct n as [|n]; [by repeat constructor|]). constructor. Qed.

Lemma sx_drained_sound : db_sound sx_ps (view sx_ps sx_drained).
Proof. apply db_soundb_ok. vm_compute. reflexivity. Qed.

Abbreviation sx_encoded := (flush_move_step sx_ps 16 (MEncode (Some 3%Z)) (s_sink sx_drained)).

Lemma sx_encodes : is_Some (sy_flight sx_encoded).
Proof.
  destruct (sy_flight _) eqn:E; [by eexists|]. exfalso.
  apply (f_equal (λ o : option (flushAttempt * (bytes * N)), if o is Some _ then true else false)) in E.
  revert E. vm_compute. discriminate.
Qed.

Lemma sx_encoded_sized : se_sized sx_encoded = true.
Proof. vm_compute. reflexivity. Qed.

Lemma sx_idle : sy_flight (s_sink sx_drained) = None.
Proof. vm_compute. reflexivity. Qed.

