(* ===== verification/Events.v ===== *)
(** * The daemon's events

    [internal/daemon/events.go]: the event schema, what a session's transitions
    publish, and the bus: [subscribe], [unsubscribe] and [publish] over bounded
    channels, with the two loops that drain a subscription, [streamEvents] for the
    unix socket and [handleEvents] for HTTP.  Encoding an event as JSON is a
    parameter of those loops. *)
From Stdlib Require Import Ascii String.
From S2P Require Import Prelude GoStrings.
Local Open Scope string_scope.

(** ** The schema *)

(** A value of type [any], of the kinds the source puts in an event; the text of
    an error is its [Error()]. *)
Inductive any := AStr (s : string) | AInt (n : N) | AError (text : string) | AOther.

#[global] Instance any_eq_dec : EqDecision any.
Proof. solve_decision. Defined.

Definition eventSchemaVersion : N := 1.

(** [ts] is the time in seconds: the field is its RFC3339 form. *)
Record Event := mkEvent {
  e_v : N; e_ts : Z; e_type : string; e_db : string; e_branch : string;
  e_detail : option (gmap string any)
}.

#[global] Instance Event_eq_dec : EqDecision Event.
Proof. solve_decision. Defined.

Definition newEvent (now : Z) (typ db branch : string) (detail : option (gmap string any)) : Event :=
  mkEvent eventSchemaVersion now typ db branch detail.

(** ** What a session's transitions publish *)

Definition sessionEventType (event : string) : option string :=
  if bool_decide (event = "opened") then Some "session_opened"
  else if bool_decide (event = "flushed") then Some "flushed"
  else if bool_decide (event = "flush-failed") then Some "flush_failed"
  else if bool_decide (event = "fenced") then Some "fenced"
  else None.

(** The loop of [kvToDetail]: pairs, a key that is not a string is skipped, an odd
    value at the end is ignored, a later pair replaces an earlier one. *)
Fixpoint kv_pairs (m : gmap string any) (kv : list any) : gmap string any :=
  match kv with
  | AStr k :: v :: rest => kv_pairs (<[k := v]> m) rest
  | _ :: _ :: rest => kv_pairs m rest
  | _ => m
  end.

Definition kvToDetail (kv : list any) : option (gmap string any) :=
  match kv with [] => None | _ => Some (kv_pairs ∅ kv) end.

(** The event [publishTransitionEvent] hands to the bus, if any. *)
Definition publishTransitionEvent (now : Z) (db branch event : string) (kv : list any) : option Event :=
  match sessionEventType event with
  | None => None
  | Some typ => Some (newEvent now typ db branch (kvToDetail kv))
  end.

(** [key] and its inverse. *)
Definition key (db branch : string) : string := db +:+ "@" +:+ branch.

Fixpoint splitKey (k : string) : string * string :=
  match k with
  | EmptyString => ("", "")
  | String c rest =>
      if Ascii.eqb c "@"%char then ("", rest)
      else let '(db, branch) := splitKey rest in (String c db, branch)
  end.

(** ** The bus *)

(** A buffered channel, and whether it is closed.  One with a positive capacity
    accepts a send exactly when it has room: a receiver that waits has emptied it. *)
Record channel := mkChan { ch_buf : list Event; ch_cap : nat; ch_closed : bool }.

(** [b_chans] are the channels made so far, each owned by one subscription;
    [b_subs] those the bus still sends to. *)
Record eventBus := mkBus { b_chans : list channel; b_subs : gset nat }.

Definition newEventBus : eventBus := mkBus [] ∅.

Definition subscribe (bufSize : nat) (b : eventBus) : eventBus * nat :=
  let id := length (b_chans b) in
  (mkBus (b_chans b ++ [mkChan [] bufSize false])%list ({[id]} ∪ b_subs b), id).

Definition close_chan (c : channel) : channel := mkChan (ch_buf c) (ch_cap c) true.

Definition unsubscribe (id : nat) (b : eventBus) : eventBus :=
  if bool_decide (id ∈ b_subs b)
  then mkBus (alter close_chan id (b_chans b)) (b_subs b ∖ {[id]})
  else b.

(** [select { case ch <- ev: default: }]. *)
Definition try_send (ev : Event) (c : channel) : option channel :=
  if (length (ch_buf c) <? ch_cap c)%nat
  then Some (mkChan (ch_buf c ++ [ev])%list (ch_cap c) (ch_closed c)) else None.

(** [select { case <-ch: default: }]. *)
Definition try_drop (c : channel) : channel := mkChan (tail (ch_buf c)) (ch_cap c) (ch_closed c).

Definition droppedEvent (now : Z) : Event := newEvent now "dropped_slow_consumer" "" "" None.

(** One round of [publish]'s loop: the channel afterwards, and whether the
    subscriber stays. *)
Definition offer (now : Z) (ev : Event) (c : channel) : channel * bool :=
  match try_send ev c with
  | Some c' => (c', true)
  | None =>
      let c := try_drop c in
      let c := default c (try_send (droppedEvent now) c) in
      (close_chan c, false)
  end.

Definition publish_to (now : Z) (ev : Event) (id : nat) (b : eventBus) : eventBus :=
  match b_chans b !! id with
  | None => b
  | Some c =>
      let '(c', stays) := offer now ev c in
      mkBus (<[id := c']> (b_chans b)) (if stays then b_subs b else b_subs b ∖ {[id]})
  end.

(** The subscribers in the order the map gave, which [publish_any_order] shows to
    be without effect. *)
Definition publish_in (now : Z) (ev : Event) (ids : list nat) (b : eventBus) : eventBus :=
  foldl (λ b id, publish_to now ev id b) b ids.

Definition publish (now : Z) (ev : Event) (b : eventBus) : eventBus :=
  publish_in now ev (elements (b_subs b)) b.

Definition subscriberCount (b : eventBus) : nat := size (b_subs b).

(** [<-ch]: an event, the end of a closed channel, or nothing yet. *)
Inductive received := RecvEvent (ev : Event) | RecvClosed | RecvBlocks.

Definition receive (id : nat) (b : eventBus) : received * eventBus :=
  match b_chans b !! id with
  | None => (RecvBlocks, b)
  | Some c =>
      match ch_buf c with
      | ev :: rest => (RecvEvent ev, mkBus (<[id := mkChan rest (ch_cap c) (ch_closed c)]> (b_chans b)) (b_subs b))
      | [] => (if ch_closed c then RecvClosed else RecvBlocks, b)
      end
  end.

(** ** Histories of the bus *)

Inductive bus_call :=
  | Subscribe (bufSize : nat) | Unsubscribe (id : nat)
  | Publish (now : Z) (ev : Event) | Receive (id : nat).

Definition bus_do (c : bus_call) (b : eventBus) : eventBus :=
  match c with
  | Subscribe n => (subscribe n b).1
  | Unsubscribe id => unsubscribe id b
  | Publish now ev => publish now ev b
  | Receive id => (receive id b).2
  end.

Definition bus_run (b : eventBus) (cs : list bus_call) : eventBus := foldl (λ b c, bus_do c b) b cs.

(** What subscription [id] has read over a history, and what was published since
    it was made. *)
Definition reads_of (id : nat) (c : bus_call) (b : eventBus) : list Event :=
  match c with
  | Receive i => if bool_decide (i = id) then match (receive i b).1 with RecvEvent ev => [ev] | _ => [] end else []
  | _ => []
  end.

Fixpoint reads (id : nat) (b : eventBus) (cs : list bus_call) : list Event :=
  match cs with
  | [] => []
  | c :: cs => (reads_of id c b ++ reads id (bus_do c b) cs)%list
  end.

Definition offers_of (id : nat) (c : bus_call) (b : eventBus) : list Event :=
  match c with
  | Publish _ ev => if (id <? length (b_chans b))%nat then [ev] else []
  | _ => []
  end.

Fixpoint offers (id : nat) (b : eventBus) (cs : list bus_call) : list Event :=
  match cs with
  | [] => []
  | c :: cs => (offers_of id c b ++ offers id (bus_do c b) cs)%list
  end.

(** ** Draining a subscription *)

Section Drain.
Context (encodeEvent : Event → option string).

(** One turn of a drain loop: what the rest of the daemon does to the bus first,
    which case the [select] takes among those ready, and whether the deadline
    was armed and the write went through. *)
Inductive pick := PickEvent (wrote : bool) | PickTick (wrote : bool) | PickGone.

(** The body of both loops, with the lines written: [frame] is how a line is
    framed, [ping] what the ticker writes, if there is one. *)
Fixpoint drain (frame : string → string) (ping : option string) (id : nat)
    (turns : list (list bus_call * pick)) (b : eventBus) (out : list string) : bool * eventBus * list string :=
  match turns with
  | [] => (false, b, out)
  | (env, p) :: turns =>
      let b := bus_run b env in
      match p with
      | PickEvent wrote =>
          match receive id b with
          | (RecvEvent ev, b') =>
              match encodeEvent ev with
              | None => (true, unsubscribe id b', out)
              | Some data =>
                  if wrote then drain frame ping id turns b' (out ++ [frame data])%list
                  else (true, unsubscribe id b', out)
              end
          | (RecvClosed, b') => (true, unsubscribe id b', out)
          | (RecvBlocks, _) => drain frame ping id turns b out
          end
      | PickTick wrote =>
          match ping with
          | None => drain frame ping id turns b out
          | Some s => if wrote then drain frame ping id turns b (out ++ [s])%list
                      else (true, unsubscribe id b, out)
          end
      | PickGone => (true, unsubscribe id b, out)
      end
  end.

Definition newline : string := String (ascii_of_nat 10) "".

Definition streamEvents (id : nat) (turns : list (list bus_call * pick)) (b : eventBus) :
    bool * eventBus * list string :=
  drain (λ data, data +:+ newline) None id turns b [].

(** [handleSubscribeOp]: the subscription is made before the acknowledgement is
    sent, and given up if it cannot be. *)
Definition handleSubscribeOp (bufSize : nat) (acked : bool)
    (turns : list (list bus_call * pick)) (b : eventBus) : bool * eventBus * list string :=
  let '(b, id) := subscribe bufSize b in
  if acked then streamEvents id turns b else (true, unsubscribe id b, []).

(** [handleEvents], past its checks of the method and of the writer. *)
Definition handleEvents (bufSize : nat) (armed flushed : bool)
    (turns : list (list bus_call * pick)) (b : eventBus) : bool * eventBus * list string :=
  let '(b, id) := subscribe bufSize b in
  if negb armed then (true, unsubscribe id b, [])
  else if negb flushed then (true, unsubscribe id b, [])
  else drain (λ data, "data: " +:+ data +:+ newline +:+ newline)
         (Some (": ping" +:+ newline +:+ newline)) id turns b [].
End Drain.

(** ** What a subscriber receives

    A subscription, from the call of [subscribe] on, over any history of the bus:
    its stream is everything published since, in order, until it is given up, or
    until its buffer is full when an event comes; then one queued event is lost and
    the stream ends with the terminal event.  Other subscribers do not appear in
    the statement.  [socket_stream_faithful]: a drain leaves no subscription behind, and
    writes the stream. *)

Local Open Scope string_scope.
Local Open Scope nat_scope.
Local Open Scope list_scope.

(** ** Keys *)

Lemma splitKey_key db branch :
  Forall (λ c, c ≠ "@"%char) (list_ascii_of_string db) → splitKey (key db branch) = (db, branch).
Proof.
  unfold key. induction db as [|c db IH]; simpl; intros Hdb; [done|].
  apply Forall_cons in Hdb as [Hc Hdb].
  rewrite (proj2 (Ascii.eqb_neq c "@"%char) Hc). specialize (IH Hdb). simpl in IH. by rewrite IH.
Qed.

(** ** One publication *)

Lemma publish_to_chan now ev i j b :
  b_chans (publish_to now ev i b) !! j =
  (if bool_decide (i = j) then (λ c, (offer now ev c).1) <$> b_chans b !! j else b_chans b !! j).
Proof.
  unfold publish_to. destruct (b_chans b !! i) as [c|] eqn:Ei.
  - destruct (offer now ev c) as [c' stays] eqn:Eo. simpl.
    case_bool_decide as Hij; [subst j|by rewrite list_lookup_insert_ne].
    rewrite list_lookup_insert_eq by (by eapply lookup_lt_Some). by rewrite Ei; simpl; rewrite Eo.
  - case_bool_decide as Hij; [|done]. subst j. by rewrite Ei.
Qed.

Lemma publish_to_sub now ev i j b :
  j ∈ b_subs (publish_to now ev i b) ↔
  j ∈ b_subs b ∧ (i = j → ∀ c, b_chans b !! j = Some c → (offer now ev c).2 = true).
Proof.
  unfold publish_to. destruct (b_chans b !! i) as [c|] eqn:Ei.
  - destruct (offer now ev c) as [c' stays] eqn:Eo. simpl. destruct stays.
    + split; [|by intros []]. intros Hj. split; [done|]. intros -> c0. rewrite Ei. intros [= <-]. by rewrite Eo.
    + rewrite elem_of_difference, elem_of_singleton. split.
      * intros [Hj Hne]. split; [done|]. by intros ->.
      * intros [Hj Hs]. split; [done|]. intros ->. specialize (Hs eq_refl c Ei). by rewrite Eo in Hs.
  - split; [|by intros []]. intros Hj. split; [done|]. intros -> c0. by rewrite Ei.
Qed.

Lemma publish_in_chan now ev ids j b : NoDup ids →
  b_chans (publish_in now ev ids b) !! j =
  (if bool_decide (j ∈ ids) then (λ c, (offer now ev c).1) <$> b_chans b !! j else b_chans b !! j).
Proof.
  unfold publish_in. revert b. induction ids as [|i ids IH]; intros b Hnd; simpl.
  { done. }
  apply NoDup_cons in Hnd as [Hi Hnd]. rewrite IH, publish_to_chan by done.
  destruct (decide (i = j)) as [->|Hij].
  - rewrite (bool_decide_eq_false_2 (j ∈ ids)), !bool_decide_eq_true_2 by set_solver. done.
  - rewrite (bool_decide_eq_false_2 (i = j)) by done.
    do 2 case_bool_decide; set_solver.
Qed.

Lemma publish_in_sub now ev ids j b : NoDup ids →
  j ∈ b_subs (publish_in now ev ids b) ↔
  j ∈ b_subs b ∧ (j ∈ ids → ∀ c, b_chans b !! j = Some c → (offer now ev c).2 = true).
Proof.
  unfold publish_in. revert b. induction ids as [|i ids IH]; intros b Hnd; simpl; [set_solver|].
  apply NoDup_cons in Hnd as [Hi Hnd]. rewrite IH, publish_to_sub, publish_to_chan by done.
  destruct (decide (i = j)) as [->|Hij].
  - split; [|set_solver]. intros [[Hj Hs] _]. split; [done|]. intros _. by apply Hs.
  - rewrite (bool_decide_eq_false_2 (i = j)) by done.
    rewrite elem_of_cons. split; intros [H1 H2]; naive_solver.
Qed.

Lemma publish_in_length now ev ids b : length (b_chans (publish_in now ev ids b)) = length (b_chans b).
Proof.
  unfold publish_in. revert b. induction ids as [|i ids IH]; intros b; simpl; [done|].
  rewrite IH. unfold publish_to. destruct (b_chans b !! i) as [c|]; [|done].
  destruct (offer now ev c) as [c' stays]; simpl. by rewrite length_insert.
Qed.

(** The order of [range b.subs] has no effect. *)
Lemma publish_any_order now ev ids b :
  ids ≡ₚ elements (b_subs b) → publish_in now ev ids b = publish now ev b.
Proof.
  intros Hp. assert (Hnd : NoDup ids) by (rewrite Hp; apply NoDup_elements).
  assert (Hin : ∀ j, j ∈ ids ↔ j ∈ elements (b_subs b)) by (intros j; by rewrite Hp).
  assert (Hc : b_chans (publish_in now ev ids b) = b_chans (publish now ev b)).
  { apply list_eq. intros j. unfold publish. rewrite !publish_in_chan by (done || apply NoDup_elements).
    by rewrite (bool_decide_ext _ _ (Hin j)). }
  assert (Hs : b_subs (publish_in now ev ids b) = b_subs (publish now ev b)).
  { apply set_eq. intros j. unfold publish. rewrite !publish_in_sub by (done || apply NoDup_elements).
    by rewrite Hin. }
  destruct (publish_in now ev ids b), (publish now ev b). simpl in *. by subst.
Qed.

(** ** Well-formed states *)

Record bus_wf (b : eventBus) : Prop := {
  wf_subs : ∀ i, i ∈ b_subs b → i < length (b_chans b);
  wf_closed : ∀ i c, b_chans b !! i = Some c → ch_closed c = negb (bool_decide (i ∈ b_subs b));
}.

Lemma offer_closed now ev c : ch_closed c = false → ch_closed (offer now ev c).1 = negb (offer now ev c).2.
Proof. unfold offer. intros Hc. destruct (try_send ev c) as [c'|] eqn:E; [|done].
  unfold try_send in E. destruct (Nat.ltb _ _); [|done]. by injection E as <-. Qed.

Lemma bus_do_length c b : length (b_chans b) ≤ length (b_chans (bus_do c b)).
Proof.
  destruct c as [n|i|now ev|i]; simpl.
  - rewrite length_app. lia.
  - unfold unsubscribe. case_bool_decide; simpl; [by rewrite length_alter|lia].
  - unfold publish. by rewrite publish_in_length.
  - unfold receive. repeat case_match; simpl; try lia. by rewrite length_insert.
Qed.

Lemma bus_do_wf c b : bus_wf b → bus_wf (bus_do c b).
Proof.
  intros [Hs Hc]. destruct c as [n|i|now ev|i]; simpl.
  - split; simpl.
    + intros i. rewrite length_app; simpl. set_unfold. intros [->|Hi]; [lia|]. specialize (Hs i Hi). lia.
    + intros i c. rewrite lookup_app_Some. intros [Hi|[Hle Hi]].
      * rewrite (Hc i c Hi). f_equal. apply bool_decide_ext. apply lookup_lt_Some in Hi.
        set_unfold. split; [auto|]. intros [->|]; [lia|done].
      * destruct (i - length (b_chans b)) eqn:E; [|done]. injection Hi as <-. simpl.
        rewrite bool_decide_eq_true_2; [done|]. assert (i = length (b_chans b)) as -> by lia. set_solver.
  - unfold unsubscribe. case_bool_decide as Hi; [|done]. split; simpl.
    + intros j. rewrite length_alter. set_unfold. intros []. by apply Hs.
    + intros j c. destruct (decide (i = j)) as [->|Hne].
      * rewrite list_lookup_alter_eq, fmap_Some. intros (c0 & Hc0 & ->).
        rewrite bool_decide_eq_false_2 by set_solver. done.
      * rewrite list_lookup_alter_ne by done. intros Hj. rewrite (Hc j c Hj). f_equal.
        apply bool_decide_ext. set_solver.
  - unfold publish. split.
    + intros j. rewrite publish_in_sub, publish_in_length by apply NoDup_elements. intros []. by apply Hs.
    + intros j c. rewrite publish_in_chan by apply NoDup_elements.
      case_bool_decide as Hj; rewrite elem_of_elements in Hj.
      * rewrite fmap_Some. intros (c0 & Hc0 & ->).
        rewrite offer_closed by (rewrite (Hc j c0 Hc0); by rewrite bool_decide_eq_true_2).
        f_equal. destruct ((offer now ev c0).2) eqn:Eo; symmetry.
        -- apply bool_decide_eq_true_2. rewrite publish_in_sub by apply NoDup_elements.
           split; [done|]. intros _ c. rewrite Hc0. by intros [= <-].
        -- apply bool_decide_eq_false_2. rewrite publish_in_sub by apply NoDup_elements.
           intros [_ H]. rewrite elem_of_elements in H. rewrite (H Hj c0 Hc0) in Eo. done.
      * intros Hjc. rewrite (Hc j c Hjc). f_equal. apply bool_decide_ext.
        rewrite publish_in_sub by apply NoDup_elements. rewrite elem_of_elements. tauto.
  - unfold receive. destruct (b_chans b !! i) as [c|] eqn:Ei; [|done].
    destruct (ch_buf c) as [|ev rest]; [done|]. split; simpl.
    + intros j. rewrite length_insert. apply Hs.
    + intros j c'. destruct (decide (i = j)) as [->|Hne].
      * rewrite list_lookup_insert_eq by (by eapply lookup_lt_Some). intros [= <-]. simpl. by apply Hc.
      * rewrite list_lookup_insert_ne by done. apply Hc.
Qed.

Lemma bus_run_wf cs b : bus_wf b → bus_wf (bus_run b cs).
Proof. unfold bus_run. revert b. induction cs as [|c cs IH]; simpl; intros b Hb; [done|]. by apply IH, bus_do_wf. Qed.

Lemma newEventBus_wf : bus_wf newEventBus.
Proof. split; simpl; intros i; [set_solver|done]. Qed.

(** ** One subscription over a history *)

(** What one call does to the channel [ch] of subscription [id]. *)
Variant bus_effect (id : nat) (c : bus_call) (b : eventBus) (ch ch' : channel) : Prop :=
  | eff_live : id ∈ b_subs b → id ∈ b_subs (bus_do c b) →
      ch_buf ch ++ offers_of id c b = reads_of id c b ++ ch_buf ch' → length (ch_buf ch') ≤ ch_cap ch →
      bus_effect id c b ch ch'
  | eff_left : id ∈ b_subs b → id ∉ b_subs (bus_do c b) →
      offers_of id c b = [] → reads_of id c b = [] → ch_buf ch' = ch_buf ch → bus_effect id c b ch ch'
  | eff_dropped now ev : id ∈ b_subs b → id ∉ b_subs (bus_do c b) →
      offers_of id c b = [ev] → reads_of id c b = [] → length (ch_buf ch) = ch_cap ch →
      ch_buf ch' = tail (ch_buf ch) ++ [droppedEvent now] → bus_effect id c b ch ch'
  | eff_done : id ∉ b_subs b → id ∉ b_subs (bus_do c b) →
      ch_buf ch = reads_of id c b ++ ch_buf ch' → bus_effect id c b ch ch'.

Lemma publish_effect now ev id b ch :
  b_chans b !! id = Some ch → 1 ≤ ch_cap ch → length (ch_buf ch) ≤ ch_cap ch →
  ∃ ch', b_chans (publish now ev b) !! id = Some ch' ∧ ch_cap ch' = ch_cap ch ∧
    bus_effect id (Publish now ev) b ch ch'.
Proof.
  intros Hid Hcap Hlen. pose proof (lookup_lt_Some _ _ _ Hid) as Hlt.
  assert (Ho : offers_of id (Publish now ev) b = [ev]).
  { simpl. by rewrite (proj2 (Nat.ltb_lt _ _) Hlt). }
  unfold publish. rewrite publish_in_chan, Hid by apply NoDup_elements.
  assert (Hsub : id ∈ b_subs (bus_do (Publish now ev) b) ↔ id ∈ b_subs b ∧ (id ∈ b_subs b → (offer now ev ch).2 = true)).
  { simpl. unfold publish. rewrite publish_in_sub by apply NoDup_elements. rewrite elem_of_elements. split.
    - intros [H1 H2]. split; [done|]. intros _. by apply H2.
    - intros [H1 H2]. split; [done|]. intros _ c. rewrite Hid. intros [= <-]. by apply H2. }
  case_bool_decide as Hin; rewrite elem_of_elements in Hin; simpl.
  - unfold offer, try_send in *. destruct (Nat.ltb_spec (length (ch_buf ch)) (ch_cap ch)) as [Hr|Hr]; simpl in *.
    + eexists. split_and!; [done..|]. apply eff_live; simpl; [done|by apply Hsub|by rewrite Ho|].
      rewrite length_app; simpl. lia.
    + assert (Hf : (length (tail (ch_buf ch)) <? ch_cap ch) = true).
      { apply Nat.ltb_lt. destruct (ch_buf ch); simpl in *; lia. }
      rewrite Hf. eexists. split_and!; [done..|].
      eapply eff_dropped; [done| |done|done|lia|done]. rewrite Hsub. intros [_ H]. by specialize (H Hin).
  - eexists. split_and!; [done..|]. apply eff_done; [done|by rewrite Hsub; intros []|done].
Qed.

Lemma bus_do_effect id c b ch : bus_wf b →
  b_chans b !! id = Some ch → 1 ≤ ch_cap ch → length (ch_buf ch) ≤ ch_cap ch →
  ∃ ch', b_chans (bus_do c b) !! id = Some ch' ∧ ch_cap ch' = ch_cap ch ∧ bus_effect id c b ch ch'.
Proof.
  intros Hwf Hid Hcap Hlen. pose proof (lookup_lt_Some _ _ _ Hid) as Hlt.
  assert (Hkeep : ∀ c, offers_of id c b = [] → reads_of id c b = [] →
    (id ∈ b_subs (bus_do c b) ↔ id ∈ b_subs b) → bus_effect id c b ch ch).
  { intros c0 Ho Hr Hs. destruct (decide (id ∈ b_subs b)).
    - apply eff_live; [done|by apply Hs|by rewrite Ho, Hr, app_nil_r|done].
    - apply eff_done; [done|by rewrite Hs|by rewrite Hr]. }
  destruct c as [n|i|now ev|i].
  - exists ch. split_and!; [by simpl; rewrite lookup_app_l|done|]. apply Hkeep; [done..|]. simpl. set_unfold.
    split; [|auto]. intros [->|]; [lia|done].
  - destruct (decide (i = id)) as [->|Hne].
    + destruct (decide (id ∈ b_subs b)) as [Hin|Hin].
      * exists (close_chan ch). simpl. unfold unsubscribe. rewrite bool_decide_eq_true_2 by done. simpl.
        rewrite list_lookup_alter_eq, Hid. split_and!; [done..|].
        apply eff_left; simpl; unfold unsubscribe; rewrite ?bool_decide_eq_true_2 by done; simpl; [done|set_solver|done..].
      * exists ch. simpl. assert (unsubscribe id b = b) as Hu.
        { unfold unsubscribe. by rewrite bool_decide_eq_false_2. }
        rewrite Hu. split_and!; [done..|]. apply Hkeep; [done..|]. simpl. by rewrite Hu.
    + exists ch. split_and!; [|done|].
      * simpl. unfold unsubscribe. case_bool_decide; simpl; [by rewrite list_lookup_alter_ne|done].
      * apply Hkeep; [done..|]. simpl. unfold unsubscribe. case_bool_decide; set_solver.
  - by apply publish_effect.
  - destruct (decide (i = id)) as [->|Hne].
    + assert (Hsubs : b_subs (bus_do (Receive id) b) = b_subs b).
      { simpl. unfold receive. repeat case_match; done. }
      simpl. unfold receive. rewrite Hid. destruct (ch_buf ch) as [|ev rest] eqn:Eb.
      * exists ch. split_and!; [done..|]. apply Hkeep; [done| |by rewrite Hsubs].
        simpl. unfold receive. rewrite bool_decide_eq_true_2, Hid, Eb by done. by destruct (ch_closed ch).
      * eexists. simpl. rewrite list_lookup_insert_eq by done. split_and!; [done..|].
        assert (Hr : reads_of id (Receive id) b = [ev]).
        { simpl. unfold receive. by rewrite bool_decide_eq_true_2, Hid, Eb. }
        destruct (decide (id ∈ b_subs b)).
        -- apply eff_live; rewrite ?Hsubs, ?Hr, ?Eb; simpl; [done..|by rewrite app_nil_r|simpl in Hlen; lia].
        -- apply eff_done; rewrite ?Hsubs, ?Hr, ?Eb; done.
    + exists ch. split_and!; [|done|].
      * simpl. unfold receive. repeat case_match; simpl; try done. by rewrite list_lookup_insert_ne.
      * apply Hkeep; [done| |].
        -- simpl. by rewrite bool_decide_eq_false_2.
        -- simpl. unfold receive. repeat case_match; done.
Qed.

(** The three ways a stream stands: [rd] was read, [off] published since. *)
Variant stream_is (id : nat) (b : eventBus) (n : nat) (rd off : list Event) : Prop :=
  | stream_live ch : b_chans b !! id = Some ch → id ∈ b_subs b →
      rd ++ ch_buf ch = off → length (ch_buf ch) ≤ n → stream_is id b n rd off
  | stream_left ch rest : b_chans b !! id = Some ch → id ∉ b_subs b →
      off = (rd ++ ch_buf ch) ++ rest → stream_is id b n rd off
  | stream_dropped ch seen lost queued ev rest now : b_chans b !! id = Some ch → id ∉ b_subs b →
      off = seen ++ lost :: queued ++ ev :: rest → length (lost :: queued) = n →
      rd ++ ch_buf ch = seen ++ queued ++ [droppedEvent now] → stream_is id b n rd off.

Lemma run_done id b cs ch : bus_wf b →
  b_chans b !! id = Some ch → 1 ≤ ch_cap ch → length (ch_buf ch) ≤ ch_cap ch → id ∉ b_subs b →
  ∃ ch', b_chans (bus_run b cs) !! id = Some ch' ∧ id ∉ b_subs (bus_run b cs) ∧
    ch_buf ch = reads id b cs ++ ch_buf ch'.
Proof.
  unfold bus_run. revert b ch. induction cs as [|c cs IH]; simpl; intros b ch Hwf Hid Hcap Hlen Hno; [by exists ch|].
  destruct (bus_do_effect id c b ch Hwf Hid Hcap Hlen) as (ch1 & H1 & Hc1 & [| | |_ Hno1 Hb]); try done.
  destruct (IH (bus_do c b) ch1) as (ch' & H' & Hno' & Hb'); [by apply bus_do_wf|done|lia| |done|].
  { apply (f_equal length) in Hb. rewrite length_app in Hb. lia. }
  exists ch'. split_and!; [done..|]. by rewrite Hb, Hb', app_assoc.
Qed.

Lemma run_stream id b cs ch rd off : bus_wf b →
  b_chans b !! id = Some ch → 1 ≤ ch_cap ch → length (ch_buf ch) ≤ ch_cap ch → id ∈ b_subs b →
  rd ++ ch_buf ch = off →
  stream_is id (bus_run b cs) (ch_cap ch) (rd ++ reads id b cs) (off ++ offers id b cs).
Proof.
  unfold bus_run. revert b ch rd off.
  induction cs as [|c cs IH]; simpl; intros b ch rd off Hwf Hid Hcap Hlen Hin Hoff.
  { rewrite !app_nil_r. by eapply stream_live. }
  destruct (bus_do_effect id c b ch Hwf Hid Hcap Hlen) as (ch1 & H1 & Hc1 & He).
  destruct He as [_ Hin1 Hb Hl|_ Hno1 Ho Hr Hb|now ev _ Hno1 Ho Hr Hfull Hb|]; [| | |done].
  - rewrite !app_assoc, <- Hc1. apply IH; [by apply bus_do_wf|done|lia|lia|done|].
    by rewrite <- Hoff, <- !app_assoc, <- Hb.
  - destruct (run_done id (bus_do c b) cs ch1) as (ch' & H' & Hno' & Hb');
      [by apply bus_do_wf|done|lia|rewrite Hb; lia|done|].
    eapply stream_left; [exact H'|done|]. by rewrite Ho, Hr, <- Hoff, <- Hb, Hb', <- !app_assoc.
  - destruct (ch_buf ch) as [|lost queued] eqn:Eb; [simpl in *; lia|]. simpl in Hb.
    destruct (run_done id (bus_do c b) cs ch1) as (ch' & H' & Hno' & Hb');
      [by apply bus_do_wf|done|lia| |done|].
    { rewrite Hb, length_app. simpl in *. lia. }
    eapply (stream_dropped _ _ _ _ _ ch' rd lost queued ev); [exact H'|done| |done|].
    + rewrite Ho, <- Hoff, <- app_assoc. done.
    + rewrite Hr, <- Hb, Hb'. simpl. by rewrite <- app_assoc.
Qed.

(** A subscription made at any moment in the life of the bus: whatever calls
    follow, by anyone, what it has read and what waits in its buffer is exactly
    what was published since it was made, in order, as long as it stands; what
    was published until it left, if it was given up; and if it was dropped, its
    buffer was full when an event came, the oldest event in it is the only one
    missing before the terminal event, and nothing follows that. *)
Lemma subscription_stream cs0 n cs : 1 ≤ n →
  let '(b, id) := subscribe n (bus_run newEventBus cs0) in
  stream_is id (bus_run b cs) n (reads id b cs) (offers id b cs).
Proof.
  intros Hn. set (b0 := bus_run newEventBus cs0).
  pose proof (bus_do_wf (Subscribe n) b0 (bus_run_wf cs0 _ newEventBus_wf)) as Hwf1.
  unfold bus_do, subscribe in *. simpl in *.
  refine (run_stream _ _ cs (mkChan [] n false) [] [] Hwf1 _ _ _ _ _); simpl; [|lia|lia|set_solver|done].
  by rewrite lookup_app_r, Nat.sub_diag by lia.
Qed.

(** ** Drain loops *)

(** The bus as others use it: they do not read or give up subscription [id]. *)
Definition not_mine (id : nat) (c : bus_call) : Prop := c ≠ Unsubscribe id ∧ c ≠ Receive id.

Definition drain_calls (id : nat) (turns : list (list bus_call * pick)) : Prop :=
  Forall (λ t, Forall (not_mine id) t.1) turns.

Lemma bus_run_app cs1 cs2 b : bus_run b (cs1 ++ cs2) = bus_run (bus_run b cs1) cs2.
Proof. unfold bus_run. by rewrite foldl_app. Qed.

Lemma reads_app id b cs1 cs2 : reads id b (cs1 ++ cs2) = reads id b cs1 ++ reads id (bus_run b cs1) cs2.
Proof.
  revert b. induction cs1 as [|c cs1 IH]; intros b; simpl; [done|].
  by rewrite IH, app_assoc.
Qed.

Lemma reads_not_mine id b cs : Forall (not_mine id) cs → reads id b cs = [].
Proof.
  intros H. revert b. induction H as [|c cs [_ Hc] _ IH]; intros b; simpl; [done|]. rewrite IH, app_nil_r.
  destruct c as [| | |i]; try done. simpl. case_bool_decide; [|done]. subst. done.
Qed.

Lemma unsubscribe_gone id b : id ∉ b_subs (unsubscribe id b).
Proof. unfold unsubscribe. case_bool_decide; simpl; set_solver. Qed.

(** Lines that carry events in order, with pings between them. *)
Inductive woven (line : Event → string) (ping : option string) : list Event → list string → Prop :=
  | woven_nil : woven line ping [] []
  | woven_event ev evs ls : woven line ping evs ls → woven line ping (ev :: evs) (line ev :: ls)
  | woven_ping s evs ls : ping = Some s → woven line ping evs ls → woven line ping evs (s :: ls).
#[local] Hint Constructors woven : core.

Section DrainFacts.
Context (encodeEvent : Event → option string).
Context (frame : string → string) (ping : option string) (id : nat).
Let line (ev : Event) : string := frame (default "" (encodeEvent ev)).

(** How a drain from [b] that wrote [ls] stands at [b']. *)
Definition drained (b : eventBus) (ret : bool) (b' : eventBus) (ls : list string) : Prop :=
  ∃ cs evs, b' = bus_run b cs ∧ woven line ping evs ls ∧ evs `prefix_of` reads id b cs
    ∧ (if ret then id ∉ b_subs b' else evs = reads id b cs).

Lemma drained_stop b cs : drained b true (unsubscribe id (bus_run b cs)) [].
Proof.
  exists (cs ++ [Unsubscribe id]), []. split_and!; [by rewrite bus_run_app|done| |apply unsubscribe_gone].
  apply prefix_nil.
Qed.

Lemma drained_step b cs ret b' ls : reads id b cs = [] →
  drained (bus_run b cs) ret b' ls → drained b ret b' ls.
Proof.
  intros Hr (cs' & evs & Hb & Hw & Hp & Hret). exists (cs ++ cs'), evs.
  rewrite bus_run_app, reads_app, Hr. by destruct ret.
Qed.

Lemma drained_ping b s ret b' ls : ping = Some s → drained b ret b' ls → drained b ret b' (s :: ls).
Proof. intros Hs (cs & evs & Hb & Hw & Hp & Hret). exists cs, evs. eauto. Qed.

Lemma drained_event b b1 ev ret b' ls : receive id b = (RecvEvent ev, b1) →
  drained b1 ret b' ls → drained b ret b' (line ev :: ls).
Proof.
  intros Hr (cs & evs & Hb & Hw & Hp & Hret). exists (Receive id :: cs), (ev :: evs).
  simpl. rewrite bool_decide_eq_true_2, Hr by done. simpl. split_and!; [done|auto|by apply prefix_cons|].
  destruct ret; by subst.
Qed.

Lemma drain_drained turns b out ret b' out' : drain_calls id turns →
  drain encodeEvent frame ping id turns b out = (ret, b', out') →
  ∃ ls, out' = out ++ ls ∧ drained b ret b' ls.
Proof.
  revert b out. induction turns as [|[env p] turns IH]; simpl; intros b out Hd Hrun.
  { injection Hrun as <- <- <-. exists []. rewrite app_nil_r. split; [done|]. exists [], []. by split_and!. }
  apply Forall_cons in Hd as [Henv Hd]. simpl in Henv.
  apply (reads_not_mine id b) in Henv.
  assert (Hgo : ∀ out0, drain encodeEvent frame ping id turns (bus_run b env) out0 = (ret, b', out') →
    ∃ ls, out' = out0 ++ ls ∧ drained b ret b' ls).
  { intros out0 H. destruct (IH _ _ Hd H) as (ls & -> & Hls). exists ls. split; [done|]. by eapply drained_step. }
  assert (Hstop : (true, unsubscribe id (bus_run b env), out) = (ret, b', out') →
    ∃ ls, out' = out ++ ls ∧ drained b ret b' ls).
  { intros [= <- <- <-]. exists []. rewrite app_nil_r. split; [done|]. apply drained_stop. }
  assert (Hstop1 : ∀ rv b1, receive id (bus_run b env) = (rv, b1) →
    (true, unsubscribe id b1, out) = (ret, b', out') → ∃ ls, out' = out ++ ls ∧ drained b ret b' ls).
  { intros rv b1 Hr [= <- <- <-]. exists []. rewrite app_nil_r. split; [done|].
    pose proof (drained_stop b (env ++ [Receive id])) as Hs. rewrite bus_run_app in Hs. simpl in Hs.
    by rewrite Hr in Hs. }
  destruct p as [wrote|wrote|]; [| |by apply Hstop].
  - destruct (receive id (bus_run b env)) as [[ev| |] b1] eqn:Hr; [|by eapply Hstop1|by apply Hgo].
    destruct (encodeEvent ev) as [data|] eqn:He; [|by eapply Hstop1].
    destruct wrote; [|by eapply Hstop1].
    destruct (IH _ _ Hd Hrun) as (ls & -> & Hls). exists (line ev :: ls).
    split; [unfold line; by rewrite He, <- app_assoc|].
    eapply drained_step; [done|]. by eapply drained_event.
  - destruct ping as [s|] eqn:Hping; [|by apply Hgo]. destruct wrote; [|by apply Hstop].
    destruct (IH _ _ Hd Hrun) as (ls & -> & Hls). exists (s :: ls). split; [by rewrite <- app_assoc|].
    eapply drained_step; [done|]. by eapply drained_ping.
Qed.
End DrainFacts.

(** C26: A subscriber of the unix socket, from its request to the end of its
    connection, whatever the daemon publishes and the other subscribers do
    meanwhile: the lines it is sent are the encodings of a prefix of what it read
    off its subscription, all of it while the connection stands; what it read is
    the stream of [stream_is]; and once the handler has returned, for any
    of its reasons, the bus no longer sends to it. *)
Theorem socket_stream_faithful encodeEvent cs0 n acked turns :
  1 ≤ n →
  let b0 := bus_run newEventBus cs0 in
  let '(b, id) := subscribe n b0 in
  drain_calls id turns →
  let '(ret, b', lines) := handleSubscribeOp encodeEvent n acked turns b0 in
  ∃ cs evs, b' = bus_run b cs
    ∧ lines = (λ ev, default "" (encodeEvent ev) +:+ newline) <$> evs
    ∧ evs `prefix_of` reads id b cs
    ∧ stream_is id b' n (reads id b cs) (offers id b cs)
    ∧ (if ret then id ∉ b_subs b' else evs = reads id b cs).
Proof.
  intros Hn b0. pose proof (λ cs, subscription_stream cs0 n cs Hn) as Hst. fold b0 in Hst.
  unfold handleSubscribeOp. destruct (subscribe n b0) as [b id]. intros Hd.
  assert (Hall : ∀ ret b' lines,
    drained encodeEvent (λ data, data +:+ newline) None id b ret b' lines →
    ∃ cs evs, b' = bus_run b cs ∧ lines = (λ ev, default "" (encodeEvent ev) +:+ newline) <$> evs
      ∧ evs `prefix_of` reads id b cs ∧ stream_is id b' n (reads id b cs) (offers id b cs)
      ∧ (if ret then id ∉ b_subs b' else evs = reads id b cs)).
  { intros ret b' lines (cs & evs & -> & Hw & Hp & Hret). exists cs, evs. split_and!; [done| |done|apply Hst|done].
    clear -Hw. by induction Hw; simpl; f_equal. }
  destruct acked; [|apply (Hall true), (drained_stop _ _ _ _ _ [])].
  destruct (streamEvents encodeEvent id turns b) as [[ret b'] lines] eqn:E.
  destruct (drain_drained _ _ _ _ _ _ _ _ _ _ Hd E) as (ls & -> & Hdr). by apply Hall.
Qed.

(** The same of an HTTP subscriber, whose lines have pings between them. *)
Lemma sse_stream_faithful encodeEvent cs0 n armed flushed turns :
  let b0 := bus_run newEventBus cs0 in
  let '(b, id) := subscribe n b0 in
  drain_calls id turns →
  let '(ret, b', lines) := handleEvents encodeEvent n armed flushed turns b0 in
  drained encodeEvent (λ data, "data: " +:+ data +:+ newline +:+ newline)
    (Some (": ping" +:+ newline +:+ newline)) id b ret b' lines.
Proof.
  intros b0. unfold handleEvents. destruct (subscribe n b0) as [b id]. intros Hd.
  destruct armed; simpl; [|apply (drained_stop _ _ _ _ _ [])].
  destruct flushed; simpl; [|apply (drained_stop _ _ _ _ _ [])].
  destruct (drain _ _ _ _ _ _ _) as [[ret b'] lines] eqn:E.
  by destruct (drain_drained _ _ _ _ _ _ _ _ _ _ Hd E) as (ls & -> & Hdr).
Qed.
