(* ===== verification/Daemon.v ===== *)
(** * The daemon's sessions

    [internal/daemon/server.go]: the slots of [Server.sessions], and the goroutines
    that move them: [opOpen], [opClose] and [closeSlot], [Shutdown] and
    [WaitShutdown].  [s.mu] makes each of their critical sections one step of
    [step]; between two of them a goroutine is at a [pc].  What [session.Open] and
    [Session.Close] answer, the ref [openRefusal] reads, and which timer fires
    first, are the [choice] of a step.  A session is live here from [Open]'s return
    until its [Close] returns. *)
From Stdlib Require Import Ascii String.
From stdpp Require Import sorting.
From S2P Require Import Prelude GoStrings Keys Refs Events.
Local Open Scope string_scope.

(** ** Errors *)

(** An error of the session package: its text, its codes, whether it is a
    lease-held refusal whose holder is a checkpoint ([ops.CheckpointInProgress]),
    and the holder of the [LeaseReleaseError] on its chain, if there is one. *)
Record serr := mkSerr { se_text : string; se_codes : error; se_checkpoint : bool; se_orphan : option string }.

#[global] Instance serr_eq_dec : EqDecision serr.
Proof. solve_decision. Defined.

(** [newLeaseReleaseError]; [err] is what the release returned, [text] the text. *)
Definition newLeaseReleaseError (text holder : string) (err : error) : serr :=
  if errors_Is err ErrNotFound then mkSerr text err false None
  else mkSerr text err false (Some holder).

Definition CheckpointInProgress (e : serr) : bool := se_checkpoint e.

(** The errors the daemon answers, one constructor per text. *)
Inductive derr :=
  | ShuttingDown
  | AlreadyOpen (k : string)
  | StillClosing (k : string)
  | NotOpen (k : string)
  | SessionNotOpen (id k : string)
  | IsClosing (k : string)
  | ClosingRetry (k : string)
  | OpenHere (k : string)
  | CheckpointRunning (k : string)
  | OrphanHeld (k holder : string) (expiry : Z)
  | SessionHeld (k : string) (ref : Ref)
  | SessionErr (e : serr)
  | FlushBefore (k opName : string) (e : serr)
  | ShutdownWait | ShutdownOpens | ShutdownSessions | ShutdownJanitor.

(** ** The server *)

(** [slot]: [sl_done] is [None] for a nil channel, else whether it is closed. *)
Record slot := mkSlot { sl_sess : option nat; sl_id : string; sl_done : option bool; sl_err : option serr }.

Definition isReserved (sl : slot) : bool := negb (bool_decide (is_Some (sl_sess sl))).
Definition isClosing (sl : slot) : bool := bool_decide (is_Some (sl_done sl)).
Definition isOpen (sl : slot) : bool := bool_decide (is_Some (sl_sess sl)) && negb (isClosing sl).

(** What the daemon reads of a [session.Session], and whether it was closed. *)
Record sess := mkSess { ss_db : string; ss_branch : string; ss_holder : string; ss_epoch : N; ss_closed : bool }.

Definition ss_key (s : sess) : string := key (ss_db s) (ss_branch s).

(** [sv_heap] are the slots made so far, by address; [sv_made] the sessions opened
    so far; [sv_minted] the ids given out; [sv_log] what was published. *)
Record Server := mkServer {
  sv_sessions : gmap string nat;
  sv_heap : list slot;
  sv_orphaned : gmap string string;
  sv_closing : bool;
  sv_openWG : nat;
  sv_shutdownDone : bool;
  sv_shutdownErr : option derr;
  sv_made : list sess;
  sv_minted : list (string * nat);
  sv_log : list Event
}.

Definition NewServer : Server := mkServer ∅ [] ∅ false 0 false None [] [] [].

Definition set_sessions (f : gmap string nat → gmap string nat) (σ : Server) : Server :=
  mkServer (f (sv_sessions σ)) (sv_heap σ) (sv_orphaned σ) (sv_closing σ) (sv_openWG σ)
    (sv_shutdownDone σ) (sv_shutdownErr σ) (sv_made σ) (sv_minted σ) (sv_log σ).
Definition set_heap (f : list slot → list slot) (σ : Server) : Server :=
  mkServer (sv_sessions σ) (f (sv_heap σ)) (sv_orphaned σ) (sv_closing σ) (sv_openWG σ)
    (sv_shutdownDone σ) (sv_shutdownErr σ) (sv_made σ) (sv_minted σ) (sv_log σ).
Definition set_orphaned (f : gmap string string → gmap string string) (σ : Server) : Server :=
  mkServer (sv_sessions σ) (sv_heap σ) (f (sv_orphaned σ)) (sv_closing σ) (sv_openWG σ)
    (sv_shutdownDone σ) (sv_shutdownErr σ) (sv_made σ) (sv_minted σ) (sv_log σ).
Definition set_closing (σ : Server) : Server :=
  mkServer (sv_sessions σ) (sv_heap σ) (sv_orphaned σ) true (sv_openWG σ)
    (sv_shutdownDone σ) (sv_shutdownErr σ) (sv_made σ) (sv_minted σ) (sv_log σ).
Definition set_openWG (f : nat → nat) (σ : Server) : Server :=
  mkServer (sv_sessions σ) (sv_heap σ) (sv_orphaned σ) (sv_closing σ) (f (sv_openWG σ))
    (sv_shutdownDone σ) (sv_shutdownErr σ) (sv_made σ) (sv_minted σ) (sv_log σ).
Definition set_shutdown (done : bool) (err : option derr) (σ : Server) : Server :=
  mkServer (sv_sessions σ) (sv_heap σ) (sv_orphaned σ) (sv_closing σ) (sv_openWG σ)
    done err (sv_made σ) (sv_minted σ) (sv_log σ).
Definition set_made (f : list sess → list sess) (σ : Server) : Server :=
  mkServer (sv_sessions σ) (sv_heap σ) (sv_orphaned σ) (sv_closing σ) (sv_openWG σ)
    (sv_shutdownDone σ) (sv_shutdownErr σ) (f (sv_made σ)) (sv_minted σ) (sv_log σ).
Definition set_minted (f : list (string * nat) → list (string * nat)) (σ : Server) : Server :=
  mkServer (sv_sessions σ) (sv_heap σ) (sv_orphaned σ) (sv_closing σ) (sv_openWG σ)
    (sv_shutdownDone σ) (sv_shutdownErr σ) (sv_made σ) (f (sv_minted σ)) (sv_log σ).
(** [s.events.publish]: what the subscribers then receive is [Events]. *)
Definition publish (ev : Event) (σ : Server) : Server :=
  mkServer (sv_sessions σ) (sv_heap σ) (sv_orphaned σ) (sv_closing σ) (sv_openWG σ)
    (sv_shutdownDone σ) (sv_shutdownErr σ) (sv_made σ) (sv_minted σ) (sv_log σ ++ [ev])%list.

Definition slot_at (σ : Server) (l : nat) : slot := default (mkSlot None "" None None) (sv_heap σ !! l).
Definition sess_at (σ : Server) (s : nat) : sess := default (mkSess "" "" "" 0 true) (sv_made σ !! s).

(** The slot [k] holds. *)
Definition held (σ : Server) (k : string) : option slot := slot_at σ <$> sv_sessions σ !! k.

(** A fresh slot in [s.sessions[k]]. *)
Definition put_slot (k : string) (sl : slot) (σ : Server) : Server * nat :=
  let l := length (sv_heap σ) in
  (set_sessions <[k := l]> (set_heap (λ h, h ++ [sl])%list σ), l).

(** ** Closing a slot *)

Definition markClosingLocked (k : string) (sl : slot) (σ : Server) : Server * nat :=
  put_slot k (mkSlot (sl_sess sl) (sl_id sl) (Some false) None) σ.

Definition recordOrphanLocked (k : string) (err : option serr) (σ : Server) : Server :=
  match err with
  | Some e =>
      match se_orphan e with
      | Some holder => if bool_decide (holder = "") then σ else set_orphaned <[k := holder]> σ
      | None => σ
      end
  | None => σ
  end.

#[global] Arguments recordOrphanLocked : simpl never.

Definition sessionClosedEvent (now : Z) (s : sess) (err : option serr) : Event :=
  let detail := <["holder" := AStr (ss_holder s)]> (<["epoch" := AInt (ss_epoch s)]> ∅) in
  newEvent now "session_closed" (ss_db s) (ss_branch s)
    (Some (match err with Some e => <["error" := AError (se_text e)]> detail | None => detail end)).

(** [Session.Close] for the daemon: the second call returns nil at once. *)
Definition session_Close (s : nat) (res : option serr) (σ : Server) : Server * option serr :=
  if ss_closed (sess_at σ s) then (σ, None)
  else (set_made (alter (λ x, mkSess (ss_db x) (ss_branch x) (ss_holder x) (ss_epoch x) true) s) σ, res).

(** The deferred section of [closeSlot]. *)
Definition closeSlot_end (now : Z) (k : string) (m : nat) (err : option serr) (σ : Server) : Server :=
  let sl := slot_at σ m in
  let ev := sessionClosedEvent now (sess_at σ (default 0%nat (sl_sess sl))) err in
  let σ := set_heap (alter (λ sl, mkSlot (sl_sess sl) (sl_id sl) (sl_done sl) err) m) σ in
  let σ := if bool_decide (sv_sessions σ !! k = Some m) then set_sessions (delete k) σ else σ in
  let σ := recordOrphanLocked k err σ in
  let σ := publish ev σ in
  set_heap (alter (λ sl, mkSlot (sl_sess sl) (sl_id sl) (Some true) (sl_err sl)) m) σ.

(** ** Opening a branch *)

Definition default_branch (branch : string) : string := if bool_decide (branch = "") then "main" else branch.

Inductive open_check :=
  | OcRefused (e : derr)
  | OcWait (m : nat)
  | OcFree.

(** One round of the loop of [opOpen], under [s.mu]. *)
Definition opOpen_check (k : string) (σ : Server) : open_check :=
  if sv_closing σ then OcRefused ShuttingDown
  else match sv_sessions σ !! k with
  | None => OcFree
  | Some l => if negb (isClosing (slot_at σ l)) then OcRefused (AlreadyOpen k) else OcWait l
  end.

(** ... and what it does when the key is free. *)
Definition opOpen_reserve (k : string) (σ : Server) : Server * nat :=
  let '(σ, l) := put_slot k (mkSlot None "" None None) σ in
  (set_openWG S σ, l).

(** [openRefusal], given the ref it read, if it could, and the orphan recorded. *)
Definition openRefusal (k : string) (err : serr) (ref : option Ref) (now : Z) (orphan : option string) : derr :=
  if CheckpointInProgress err then CheckpointRunning k
  else if negb (errors_Is (se_codes err) ErrLeaseHeld) then SessionErr err
  else match ref with
  | None => SessionErr err
  | Some r =>
      if negb (LeaseLive r now) then SessionErr err
      else
        let o := default "" orphan in
        if negb (bool_decide (o = "")) && bool_decide (r_lease_holder r = o)
        then OrphanHeld k (r_lease_holder r) (default 0%Z (parseExpiry (r_lease_expiry r)))
        else if IsSessionHolder (r_lease_holder r) then SessionHeld k r
        else SessionErr err
  end.

Definition opened_event (now : Z) (s : sess) : Event :=
  newEvent now "session_opened" (ss_db s) (ss_branch s)
    (kvToDetail [AStr "holder"; AStr (ss_holder s); AStr "epoch"; AInt (ss_epoch s)]).

(** [session.Open] that succeeds, with the transition it reports. *)
Definition session_opened (now : Z) (db branch holder : string) (epoch : N) (σ : Server) : Server * nat :=
  let s := mkSess db branch holder epoch false in
  let i := length (sv_made σ) in
  (publish (opened_event now s) (set_made (λ m, m ++ [s])%list σ), i).

(** The last section of [opOpen], after an error. *)
Definition opOpen_failed (k : string) (err : serr) (σ : Server) : Server :=
  let σ := recordOrphanLocked k (Some err) σ in
  let σ := set_sessions (delete k) σ in
  set_openWG pred σ.

(** ... and with a session to install. *)
Definition opOpen_install (k : string) (s : nat) (id : string) (σ : Server) : Server :=
  let '(σ, _) := put_slot k (mkSlot (Some s) id None None) σ in
  let σ := set_minted (λ m, m ++ [(id, s)])%list σ in
  let σ := set_orphaned (delete k) σ in
  set_openWG pred σ.

(** ** Goroutines *)

Inductive response :=
  | ROk
  | ROpened (s : nat) (id : string)
  | RErr (e : derr)
  | RShutdown (e : option derr).

(** Where a goroutine stands.  [parked]: [waitClosed] is past its first [select]. *)
Inductive pc :=
  | POpen (db br : string)
  | POpenWait (db br : string) (m : nat) (parked : bool)
  | PRun (db br : string) (l : nat)
  | PRefuse (db br : string) (l : nat) (e : serr)
  | PFailed (db br : string) (l : nat) (e : serr) (refusal : derr)
  | PGot (db br : string) (l s : nat)
  | PSelf (db br : string) (s : nat)
  | PSelfClosed (db br : string) (s : nat) (cerr : option serr)
  | PClose (k id : string)
  | PCloseWait (k : string) (m : nat) (parked : bool)
  | PSlot (k : string) (m : nat)
  | PSlotEnd (k : string) (m : nat) (err : option serr)
  | PShut
  | PShutWait
  | PJanitor
  | POpens (jerr : option derr)
  | PMark (jerr : option derr)
  | PSpawn (jerr : option derr) (waits mine : list (string * nat))
  | PWaits (jerr : option derr) (waits : list (string * nat))
  | PEnd (err : option derr)
  | PDone (err : option derr)
  | PRet (r : response).

Definition opOpen (db branch : string) : pc := POpen db (default_branch branch).
Definition opClose (db branch sessionID : string) : pc := PClose (key db (default_branch branch)) sessionID.
Definition Shutdown : pc := PShut.
Definition WaitShutdown : pc := PShutWait.

Inductive choice :=
  | Go
  | Timeout
  | OpenOk (holder : string) (epoch : N)
  | OpenErr (e : serr)
  | RefRead (ref : option Ref)
  | MintID (id : string)
  | CloseRes (e : option serr)
  | Order (ks : list string).

Definition closed_chan (sl : slot) : bool := bool_decide (sl_done sl = Some true).

(** What [opClose] does under [s.mu], and the answer of one that waited. *)
Definition opClose_step (k id : string) (σ : Server) : Server * pc :=
  let refused := RErr (if bool_decide (id = "") then NotOpen k else SessionNotOpen id k) in
  match sv_sessions σ !! k with
  | None => (σ, PRet refused)
  | Some l =>
      let sl := slot_at σ l in
      if isReserved sl || (negb (bool_decide (id = "")) && negb (bool_decide (sl_id sl = id)))
      then (σ, PRet refused)
      else if isClosing sl then (σ, PCloseWait k l false)
      else let '(σ, m) := markClosingLocked k sl σ in (σ, PSlot k m)
  end.

Definition answer (err : option serr) : response :=
  match err with Some e => RErr (SessionErr e) | None => ROk end.

(** [Shutdown]'s section over [s.sessions], in the order the map is walked. *)
Fixpoint shutdown_mark (ks : list string) (σ : Server) : Server * list (string * nat) * list (string * nat) :=
  match ks with
  | [] => (σ, [], [])
  | k :: ks =>
      match sv_sessions σ !! k with
      | None => shutdown_mark ks σ
      | Some l =>
          let sl := slot_at σ l in
          if isClosing sl then
            let '(σ, waits, mine) := shutdown_mark ks σ in (σ, (k, l) :: waits, mine)
          else if isOpen sl then
            let '(σ, m) := markClosingLocked k sl σ in
            let '(σ, waits, mine) := shutdown_mark ks σ in (σ, (k, m) :: waits, (k, m) :: mine)
          else shutdown_mark ks σ
      end
  end.

Fixpoint firstErr (err : option derr) (waits : list (string * nat)) (σ : Server) : option derr :=
  match waits with
  | [] => err
  | (_, m) :: waits =>
      firstErr (match err, sl_err (slot_at σ m) with
                | None, Some e => Some (SessionErr e)
                | _, _ => err
                end) waits σ
  end.

(** The steps of [opOpen]. *)
Definition opOpen_step (now : Z) (c : choice) (p : pc) (σ : Server) : option (Server * pc * list pc) :=
  match p, c with
  | POpen db br, Go =>
      let k := key db br in
      Some match opOpen_check k σ with
           | OcRefused e => (σ, PRet (RErr e), [])
           | OcWait m => (σ, POpenWait db br m false, [])
           | OcFree => let '(σ, l) := opOpen_reserve k σ in (σ, PRun db br l, [])
           end
  | POpenWait db br m parked, Go =>
      if closed_chan (slot_at σ m) then Some (σ, POpen db br, [])
      else if parked then None else Some (σ, POpenWait db br m true, [])
  | POpenWait db br m true, Timeout => Some (σ, PRet (RErr (StillClosing (key db br))), [])
  | PRun db br l, OpenOk holder epoch =>
      let '(σ, s) := session_opened now db br holder epoch σ in Some (σ, PGot db br l s, [])
  | PRun db br l, OpenErr e => Some (σ, PRefuse db br l e, [])
  | PRefuse db br l e, RefRead ref =>
      Some (σ, PFailed db br l e (openRefusal (key db br) e ref now (sv_orphaned σ !! key db br)), [])
  | PFailed db br l e refusal, Go => Some (opOpen_failed (key db br) e σ, PRet (RErr refusal), [])
  | PGot db br l s, Go =>
      if sv_closing σ then Some (set_sessions (delete (key db br)) σ, PSelf db br s, []) else None
  | PGot db br l s, MintID id =>
      if sv_closing σ || bool_decide (id = "") || bool_decide (id ∈ (sv_minted σ).*1) then None
      else Some (opOpen_install (key db br) s id σ, PRet (ROpened s id), [])
  | PSelf db br s, CloseRes res =>
      let '(σ, cerr) := session_Close s res σ in Some (σ, PSelfClosed db br s cerr, [])
  | PSelfClosed db br s cerr, Go =>
      Some (set_openWG pred (publish (sessionClosedEvent now (sess_at σ s) cerr) σ), PRet (RErr ShuttingDown), [])
  | _, _ => None
  end.

(** The steps of [opClose], and of a goroutine that runs [closeSlot]. *)
Definition closing_step (now : Z) (c : choice) (p : pc) (σ : Server) : option (Server * pc * list pc) :=
  match p, c with
  | PClose k id, Go => let '(σ, p) := opClose_step k id σ in Some (σ, p, [])
  | PCloseWait k m parked, Go =>
      if closed_chan (slot_at σ m) then Some (σ, PRet (answer (sl_err (slot_at σ m))), [])
      else if parked then None else Some (σ, PCloseWait k m true, [])
  | PCloseWait k m true, Timeout => Some (σ, PRet (RErr (StillClosing k)), [])
  | PSlot k m, CloseRes res =>
      let '(σ, err) := session_Close (default 0%nat (sl_sess (slot_at σ m))) res σ in Some (σ, PSlotEnd k m err, [])
  | PSlotEnd k m err, Go => Some (closeSlot_end now k m err σ, PRet (answer err), [])
  | _, _ => None
  end.

(** The steps of [Shutdown] and [WaitShutdown]. *)
Definition shutdown_step (now : Z) (c : choice) (p : pc) (σ : Server) : option (Server * pc * list pc) :=
  match p, c with
  | PShut, Go => if sv_closing σ then Some (σ, PShutWait, []) else Some (set_closing σ, PJanitor, [])
  | PShutWait, Go => if sv_shutdownDone σ then Some (σ, PRet (RShutdown (sv_shutdownErr σ)), []) else None
  | PShutWait, Timeout => Some (σ, PRet (RShutdown (Some ShutdownWait)), [])
  | PJanitor, Go => Some (σ, POpens None, [])
  | PJanitor, Timeout => Some (σ, POpens (Some ShutdownJanitor), [])
  | POpens jerr, Go => if bool_decide (sv_openWG σ = 0%nat) then Some (σ, PMark jerr, []) else None
  | POpens jerr, Timeout => Some (σ, PEnd (Some ShutdownOpens), [])
  | PMark jerr, Order ks =>
      if bool_decide (ks ≡ₚ (map_to_list (sv_sessions σ)).*1) then
        let '(σ, waits, mine) := shutdown_mark ks σ in Some (σ, PSpawn jerr waits mine, [])
      else None
  | PSpawn jerr waits mine, Go => Some (σ, PWaits jerr waits, (λ c, PSlot c.1 c.2) <$> mine)
  | PWaits jerr waits, Go =>
      if forallb (λ c, closed_chan (slot_at σ c.2)) waits then Some (σ, PEnd (firstErr jerr waits σ), []) else None
  | PWaits jerr waits, Timeout => Some (σ, PEnd (Some ShutdownSessions), [])
  | PEnd err, Go => Some (set_shutdown (sv_shutdownDone σ) err σ, PDone err, [])
  | PDone err, Go => Some (set_shutdown true (sv_shutdownErr σ) σ, PRet (RShutdown err), [])
  | _, _ => None
  end.

Definition step (now : Z) (c : choice) (p : pc) (σ : Server) : option (Server * pc * list pc) :=
  match p with
  | POpen _ _ | POpenWait _ _ _ _ | PRun _ _ _ | PRefuse _ _ _ _ | PFailed _ _ _ _ _ | PGot _ _ _ _
  | PSelf _ _ _ | PSelfClosed _ _ _ _ => opOpen_step now c p σ
  | PClose _ _ | PCloseWait _ _ _ | PSlot _ _ | PSlotEnd _ _ _ => closing_step now c p σ
  | PRet _ => None
  | _ => shutdown_step now c p σ
  end.

(** ** The daemon *)

Record daemon := mkDaemon { d_server : Server; d_threads : list pc }.

(** A move: goroutine [i] takes a step, a request starts a goroutine, or a session
    reports a transition of its own ([flushed], [flush-failed] or [fenced]). *)
Inductive move :=
  | MStep (now : Z) (i : nat) (c : choice)
  | MRequest (p : pc)
  | MTransition (now : Z) (s : nat) (event : string) (kv : list any).

(** The goroutines requests start. *)
Definition is_request (p : pc) : bool :=
  match p with POpen _ _ | PClose _ _ | PShut => true | _ => false end.

(** [serve] calls [WaitShutdown] only once a [Shutdown] has begun. *)
Definition may_start (σ : Server) (p : pc) : bool :=
  is_request p || (match p with PShutWait => sv_closing σ | _ => false end).

Definition own_transition (event : string) : bool :=
  bool_decide (event ≠ "opened") && bool_decide (event ≠ "closed").

Definition do_move (m : move) (d : daemon) : option daemon :=
  match m with
  | MStep now i c =>
      match d_threads d !! i with
      | None => None
      | Some p =>
          match step now c p (d_server d) with
          | None => None
          | Some (σ, p', new) => Some (mkDaemon σ (<[i := p']> (d_threads d) ++ new)%list)
          end
      end
  | MRequest p => if may_start (d_server d) p then Some (mkDaemon (d_server d) (d_threads d ++ [p])%list) else None
  | MTransition now s event kv =>
      let x := sess_at (d_server d) s in
      if own_transition event && (s <? length (sv_made (d_server d)))%nat then
        match publishTransitionEvent now (ss_db x) (ss_branch x) event kv with
        | Some ev => Some (mkDaemon (publish ev (d_server d)) (d_threads d))
        | None => Some d
        end
      else None
  end.

Fixpoint do_moves (ms : list move) (d : daemon) : option daemon :=
  match ms with
  | [] => Some d
  | m :: ms => match do_move m d with Some d' => do_moves ms d' | None => None end
  end.

Definition started : daemon := mkDaemon NewServer [].

Definition reachable (d : daemon) : Prop := ∃ ms, do_moves ms started = Some d.
