(* ===== verification/DaemonInv.v ===== *)
(** * The daemon's sessions: what always holds

    [Core] says who claims which branch: every slot of [Server.sessions] is
    reserved by one goroutine of [opOpen], open, or being closed by one goroutine;
    every live session is in a slot or in the hands of one goroutine; what was
    published agrees.  [Core_step] is the frame rule: a step that touches the slots
    of the keys [K] only needs to be checked at [K]. *)
From Stdlib Require Import Ascii String.
From stdpp Require Import sorting.
From S2P Require Import Prelude GoStrings Keys Refs Events Daemon.
Local Open Scope string_scope.
Local Open Scope nat_scope.
Local Open Scope list_scope.

(** ** A subscriber's view of the branches *)

(** What names a session in an event. *)
Definition ident (s : sess) : option any * option any := (Some (AStr (ss_holder s)), Some (AInt (ss_epoch s))).

Definition event_ident (ev : Event) : option any * option any :=
  match e_detail ev with
  | Some d => (d !! "holder", d !! "epoch")
  | None => (None, None)
  end.

Abbreviation view := (gmap string (option any * option any)).

(** One event read by a client that tracks which session each branch has: [None]
    when it cannot be, as when a second session opens on a branch. *)
Definition track_event (m : option view) (ev : Event) : option view :=
  match m with
  | None => None
  | Some m =>
      let k := key (e_db ev) (e_branch ev) in
      if bool_decide (e_type ev = "session_opened") then
        match m !! k with None => Some (<[k := event_ident ev]> m) | Some _ => None end
      else if bool_decide (e_type ev = "session_closed") then
        match m !! k with
        | Some i => if bool_decide (i = event_ident ev) then Some (delete k m) else None
        | None => None
        end
      else Some m
  end.

Definition track (evs : list Event) : option view := foldl track_event (Some ∅) evs.

Lemma track_snoc evs ev : track (evs ++ [ev]) = track_event (track evs) ev.
Proof. unfold track. by rewrite foldl_app. Qed.

(** ** What a goroutine claims *)

(** The keys whose open a goroutine is in the middle of. *)
Definition busy (p : pc) : list string :=
  match p with
  | PRun db br _ | PRefuse db br _ _ | PFailed db br _ _ _ | PGot db br _ _
  | PSelf db br _ | PSelfClosed db br _ _ => [key db br]
  | _ => []
  end.

(** The keys whose close it carries out. *)
Definition closes (p : pc) : list string :=
  match p with
  | PSlot k _ | PSlotEnd k _ _ => [k]
  | PSpawn _ _ mine => mine.*1
  | _ => []
  end.

Definition keys (p : pc) : list string := busy p ++ closes p.

(** The sessions in its hands that subscribers know of. *)
Definition hands (p : pc) : list (string * nat) :=
  match p with
  | PGot db br _ s | PSelf db br s | PSelfClosed db br s _ => [(key db br, s)]
  | _ => []
  end.

(** The live ones of these. *)
Definition has (p : pc) (s : nat) : Prop :=
  match p with PGot _ _ _ s' | PSelf _ _ s' => s = s' | _ => False end.

Definition is_marker (σ : Server) (l : nat) : Prop :=
  ∃ sl, sv_heap σ !! l = Some sl ∧ isClosing sl = true.

Definition reserved_slot : slot := mkSlot None "" None None.

Definition reserves (σ : Server) (k : string) (l : nat) : Prop :=
  sv_sessions σ !! k = Some l ∧ sv_heap σ !! l = Some reserved_slot.

Definition sess_is (σ : Server) (s : nat) (k : string) (closed : bool) : Prop :=
  ∃ x, sv_made σ !! s = Some x ∧ ss_key x = k ∧ ss_closed x = closed.

(** [k] holds the closing marker [m], of a session that is closed or not yet. *)
Definition marks (σ : Server) (k : string) (m : nat) (closed : bool) : Prop :=
  ∃ s id, sv_sessions σ !! k = Some m
    ∧ sv_heap σ !! m = Some (mkSlot (Some s) id (Some false) None)
    ∧ sess_is σ s k closed ∧ (id, s) ∈ sv_minted σ.

(** What a goroutine relies on. *)
Definition own (σ : Server) (p : pc) : Prop :=
  match p with
  | POpenWait _ _ m _ | PCloseWait _ m _ => is_marker σ m
  | PRun db br l | PRefuse db br l _ | PFailed db br l _ _ => reserves σ (key db br) l
  | PGot db br l s => reserves σ (key db br) l ∧ sess_is σ s (key db br) false
  | PSelf db br s => sv_closing σ = true ∧ sv_sessions σ !! key db br = None ∧ sess_is σ s (key db br) false
  | PSelfClosed db br s _ => sv_closing σ = true ∧ sv_sessions σ !! key db br = None ∧ sess_is σ s (key db br) true
  | PSlot k m => marks σ k m false
  | PSlotEnd k m _ => marks σ k m true
  | PSpawn _ _ mine => Forall (λ c, marks σ c.1 c.2 false) mine
  | _ => True
  end.

(** What a slot is, given the keys [B] being opened and [C] being closed. *)
Definition slot_ok (σ : Server) (B C : list string) (k : string) (l : nat) : Prop :=
  (sv_heap σ !! l = Some reserved_slot ∧ k ∈ B)
  ∨ (∃ s id, sv_heap σ !! l = Some (mkSlot (Some s) id None None) ∧ sess_is σ s k false
       ∧ (id, s) ∈ sv_minted σ ∧ id ≠ "")
  ∨ (∃ s id c, sv_heap σ !! l = Some (mkSlot (Some s) id (Some false) None) ∧ sess_is σ s k c
       ∧ (id, s) ∈ sv_minted σ ∧ k ∈ C).

(** [k] holds an open or closing slot of session [s]. *)
Definition slot_of (σ : Server) (k : string) (s : nat) : Prop :=
  ∃ l sl, sv_sessions σ !! k = Some l ∧ sv_heap σ !! l = Some sl ∧ sl_sess sl = Some s.

(** The view [m] is right about [k], given the sessions [A] in goroutines' hands. *)
Definition view_ok (σ : Server) (A : list (string * nat)) (m : view) (k : string) : Prop :=
  (∀ s, slot_of σ k s ∨ (k, s) ∈ A → m !! k = Some (ident (sess_at σ s)))
  ∧ (∀ i, m !! k = Some i → ∃ s, slot_of σ k s ∨ (k, s) ∈ A).

Record Core (σ : Server) (T : list pc) : Prop := {
  co_nodup : NoDup (T ≫= keys);
  co_wg : sv_openWG σ = length (T ≫= busy);
  co_own : Forall (own σ) T;
  co_slots : ∀ k l, sv_sessions σ !! k = Some l → slot_ok σ (T ≫= busy) (T ≫= closes) k l;
  co_live : ∀ s x, sv_made σ !! s = Some x → ss_closed x = false →
    slot_of σ (ss_key x) s ∨ ∃ p, p ∈ T ∧ has p s;
  co_undone : ∀ l sl, sv_heap σ !! l = Some sl → sl_done sl = Some false → ∃ k, sv_sessions σ !! k = Some l;
  co_minted : NoDup (sv_minted σ).*1;
  co_view : ∃ m, track (sv_log σ) = Some m ∧ ∀ k, view_ok σ (T ≫= hands) m k
}.

Lemma view_ok_iff σ A A' m k : (∀ s, (k, s) ∈ A ↔ (k, s) ∈ A') → view_ok σ A m k → view_ok σ A' m k.
Proof.
  intros HA [H1 H2]. split.
  - intros s Hs. apply H1. by rewrite HA.
  - intros i Hi. destruct (H2 i Hi) as (s & Hs). exists s. by rewrite <- HA.
Qed.

Lemma Core_perm σ T T' : T ≡ₚ T' → Core σ T → Core σ T'.
Proof.
  intros Hp [].
  assert (Hin : ∀ A (f : pc → list A) x, x ∈ T ≫= f ↔ x ∈ T' ≫= f) by (intros A f x; by rewrite Hp).
  split; try done.
  - by rewrite <- Hp.
  - by rewrite <- Hp.
  - by rewrite <- Hp.
  - intros k l Hk. destruct (co_slots0 k l Hk) as [[]|[|(s & id & c & ?)]]; [left|by right; left|right; right].
    + by rewrite <- Hin.
    + exists s, id, c. by rewrite <- Hin.
  - intros s x Hs Hx. destruct (co_live0 s x Hs Hx) as [|(p & ? & ?)]; [by left|right]. exists p. by rewrite <- Hp.
  - destruct co_view0 as (m & Hm & Hv). exists m. split; [done|]. intros k.
    eapply view_ok_iff, Hv. intros s. apply Hin.
Qed.

(** ** Facts about claims *)

Lemma busy_keys p k : k ∈ busy p → k ∈ keys p.
Proof. unfold keys. set_solver. Qed.
Lemma closes_keys p k : k ∈ closes p → k ∈ keys p.
Proof. unfold keys. set_solver. Qed.
Lemma hands_keys p k s : (k, s) ∈ hands p → k ∈ keys p.
Proof. destruct p; simpl; set_solver. Qed.

Lemma has_hands σ p s : own σ p → has p s → ∃ k, (k, s) ∈ hands p ∧ sess_is σ s k false.
Proof. destruct p; simpl; try done; intros H ->; eexists; (split; [by apply list_elem_of_singleton|naive_solver]). Qed.

Lemma hands_sess σ p k s : own σ p → (k, s) ∈ hands p → ∃ c, sess_is σ s k c.
Proof.
  destruct p; simpl; try set_solver; rewrite list_elem_of_singleton; intros H [= -> ->]; naive_solver.
Qed.

Lemma slot_of_sess σ B C k s : (∀ l, sv_sessions σ !! k = Some l → slot_ok σ B C k l) →
  slot_of σ k s → ∃ c, sess_is σ s k c.
Proof.
  intros Hok (l & sl & Hk & Hl & Hs). destruct (Hok l Hk) as [[H _]|[(s' & id & H & ? & _)|(s' & id & c & H & ? & _)]];
    rewrite Hl in H; injection H as ->; simpl in Hs; [done| |]; injection Hs as ->; eauto.
Qed.

Lemma sess_at_lookup σ s x : sv_made σ !! s = Some x → sess_at σ s = x.
Proof. unfold sess_at. by intros ->. Qed.

Lemma slot_at_lookup σ l sl : sv_heap σ !! l = Some sl → slot_at σ l = sl.
Proof. unfold slot_at. by intros ->. Qed.

(** ** The frame rule *)

(** A step from [σ] to [σ'] that changes only the slots and the sessions of [K]. *)
Record frame (K : list string) (σ σ' : Server) : Prop := {
  fr_sess : ∀ k, k ∉ K → sv_sessions σ' !! k = sv_sessions σ !! k;
  fr_heap : ∀ k l sl, k ∉ K → sv_sessions σ !! k = Some l → sv_heap σ !! l = Some sl → sv_heap σ' !! l = Some sl;
  fr_marker : ∀ l, is_marker σ l → is_marker σ' l;
  fr_made : ∀ s x, sv_made σ !! s = Some x → ss_key x ∉ K → sv_made σ' !! s = Some x;
  fr_made_inv : ∀ s x, sv_made σ' !! s = Some x → ss_key x ∉ K → sv_made σ !! s = Some x;
  fr_closing : sv_closing σ = true → sv_closing σ' = true;
  fr_minted : ∀ i, i ∈ sv_minted σ → i ∈ sv_minted σ';
  fr_undone : ∀ l sl, sv_heap σ' !! l = Some sl → sl_done sl = Some false →
    (∃ k, k ∈ K ∧ sv_sessions σ' !! k = Some l) ∨ (∃ k, k ∉ K ∧ sv_sessions σ !! k = Some l)
}.

Section Frame.
Context (K : list string) (σ σ' : Server) (F : frame K σ σ').

Lemma frame_sess_is s k c : k ∉ K → sess_is σ s k c → sess_is σ' s k c.
Proof. intros Hk (x & Hx & <- & Hc). exists x. split; [by eapply fr_made|done]. Qed.

Lemma frame_marks k m c : k ∉ K → marks σ k m c → marks σ' k m c.
Proof.
  intros Hk (s & id & Hs & Hm & Hx & Hi). exists s, id. rewrite (fr_sess _ _ _ F) by done.
  split_and!; [done|by eapply fr_heap|by apply frame_sess_is|by eapply fr_minted].
Qed.

Lemma frame_reserves k l : k ∉ K → reserves σ k l → reserves σ' k l.
Proof. intros Hk [Hs Hl]. split; [by rewrite (fr_sess _ _ _ F)|by eapply fr_heap]. Qed.

Lemma frame_own p : (∀ k, k ∈ keys p → k ∉ K) → own σ p → own σ' p.
Proof.
  intros HK. destruct p; simpl; try done;
    try (by eapply fr_marker);
    try (apply frame_reserves, HK; by left).
  - intros []. split; [apply frame_reserves|apply frame_sess_is]; try done; apply HK; by left.
  - intros (? & ? & ?). split_and!; [by eapply fr_closing| |apply frame_sess_is; [apply HK; by left|done]].
    rewrite (fr_sess _ _ _ F); [done|apply HK; by left].
  - intros (? & ? & ?). split_and!; [by eapply fr_closing| |apply frame_sess_is; [apply HK; by left|done]].
    rewrite (fr_sess _ _ _ F); [done|apply HK; by left].
  - apply frame_marks, HK. by left.
  - apply frame_marks, HK. by left.
  - rewrite !Forall_forall. intros H c Hc. apply frame_marks; [|by apply H]. apply HK. unfold keys; simpl.
    by apply list_elem_of_fmap_2.
Qed.

Lemma frame_slot_ok B C B' C' k l : k ∉ K → (k ∈ B → k ∈ B') → (k ∈ C → k ∈ C') →
  sv_sessions σ !! k = Some l → slot_ok σ B C k l → slot_ok σ' B' C' k l.
Proof.
  intros Hk HB HC Hl [[H ?]|[(s & id & H & ? & ? & ?)|(s & id & c & H & ? & ? & ?)]].
  - left. split; [by eapply fr_heap|auto].
  - right; left. exists s, id. split_and!; [by eapply fr_heap|by apply frame_sess_is|by eapply fr_minted|done].
  - right; right. exists s, id, c. split_and!; [by eapply fr_heap|by apply frame_sess_is|by eapply fr_minted|auto].
Qed.

Lemma frame_sess_at s k c : k ∉ K → sess_is σ s k c → sess_at σ' s = sess_at σ s.
Proof.
  intros Hk (x & Hx & <- & _). rewrite (sess_at_lookup σ s x Hx). by apply sess_at_lookup; eapply fr_made.
Qed.

Lemma frame_slot_of B C k s : (∀ l, sv_sessions σ !! k = Some l → slot_ok σ B C k l) →
  k ∉ K → slot_of σ' k s ↔ slot_of σ k s.
Proof.
  intros Hok Hk. unfold slot_of. rewrite (fr_sess _ _ _ F) by done.
  split; intros (l & sl & Hl & Hsl & Hs).
  - destruct (Hok l Hl) as [[H _]|[(s' & id & H & _)|(s' & id & c & H & _)]];
      pose proof (fr_heap _ _ _ F k l _ Hk Hl H) as H'; rewrite H' in Hsl; injection Hsl as <-; eauto.
  - exists l, sl. split_and!; [done|by eapply fr_heap|done].
Qed.
End Frame.

Lemma bind_elem {A B} (f : A → list B) (T : list A) x : x ∈ T ≫= f ↔ ∃ p, p ∈ T ∧ x ∈ f p.
Proof. rewrite list_elem_of_bind. naive_solver. Qed.

(** Goroutines [P] become [P'] while the others, [R], stand still: the invariant
    needs checking at the keys [K] of [P] and [P'] only. *)
Lemma Core_step K σ σ' P P' R :
  Core σ (P ++ R) → frame K σ σ' →
  (∀ k, k ∈ K → k ∉ R ≫= keys) →
  (∀ k, k ∈ P ≫= keys → k ∈ K) → (∀ k, k ∈ P' ≫= keys → k ∈ K) → NoDup (P' ≫= keys) →
  sv_openWG σ' + length (P ≫= busy) = sv_openWG σ + length (P' ≫= busy) →
  Forall (own σ') P' →
  (∀ k l, k ∈ K → sv_sessions σ' !! k = Some l → slot_ok σ' (P' ≫= busy) (P' ≫= closes) k l) →
  (∀ s x, sv_made σ' !! s = Some x → ss_closed x = false → ss_key x ∈ K →
     slot_of σ' (ss_key x) s ∨ ∃ p, p ∈ P' ∧ has p s) →
  NoDup (sv_minted σ').*1 →
  (∀ m, track (sv_log σ) = Some m → (∀ k, k ∈ K → view_ok σ (P ≫= hands) m k) →
     ∃ m', track (sv_log σ') = Some m' ∧ (∀ k, k ∉ K → m' !! k = m !! k)
       ∧ ∀ k, k ∈ K → view_ok σ' (P' ≫= hands) m' k) →
  Core σ' (P' ++ R).
Proof.
  intros [Hnd Hwg Hown Hslots Hlive Hundone Hmint (m & Hm & Hview)] F HKR HPK HP'K Hnd' Hwg' Hown' Hslots' Hlive' Hmint' Hview'.
  rewrite Forall_app in Hown. destruct Hown as [HownP HownR].
  assert (HRK : ∀ p k, p ∈ R → k ∈ keys p → k ∉ K).
  { intros p k Hp Hk HkK. apply (HKR k HkK), bind_elem. by exists p. }
  assert (HownR' : Forall (own σ') R).
  { rewrite Forall_forall in HownR |- *. intros p Hp. eapply frame_own; [done| |by apply HownR]. intros k. by apply HRK. }
  assert (Hin : ∀ A (f : pc → list A) x Q, x ∈ (Q ++ R) ≫= f ↔ x ∈ Q ≫= f ∨ x ∈ R ≫= f).
  { intros A f x Q. by rewrite bind_app, elem_of_app. }
  assert (HhR : ∀ k s, (k, s) ∈ R ≫= hands → k ∉ K).
  { intros k s (p & Hp & Hh)%bind_elem. eapply HRK; [done|by eapply hands_keys]. }
  assert (HhP : ∀ k s, (k, s) ∈ P ≫= hands → k ∈ K).
  { intros k s (p & Hp & Hh)%bind_elem. apply HPK, bind_elem. exists p. split; [done|by eapply hands_keys]. }
  assert (HhP' : ∀ k s, (k, s) ∈ P' ≫= hands → k ∈ K).
  { intros k s (p & Hp & Hh)%bind_elem. apply HP'K, bind_elem. exists p. split; [done|by eapply hands_keys]. }
  split.
  - rewrite bind_app in Hnd |- *. apply NoDup_app in Hnd as (_ & _ & HndR). apply NoDup_app. split_and!; [done| |done].
    intros k Hk. by apply HKR, HP'K.
  - rewrite bind_app, length_app in Hwg |- *. lia.
  - by rewrite Forall_app.
  - intros k l Hk. destruct (decide (k ∈ K)) as [HkK|HkK].
    + destruct (Hslots' k l HkK Hk) as [[]|[|(s & id & c & ?)]]; [left|by right; left|right; right; exists s, id, c];
        rewrite Hin; naive_solver.
    + rewrite (fr_sess _ _ _ F) in Hk by done. eapply frame_slot_ok; [done|done| | |done|by apply Hslots].
      * rewrite !Hin. intros [Hb|]; [|by right]. destruct HkK. apply bind_elem in Hb as (p & Hp & Hb).
        apply HPK, bind_elem. eauto using busy_keys.
      * rewrite !Hin. intros [Hb|]; [|by right]. destruct HkK. apply bind_elem in Hb as (p & Hp & Hb).
        apply HPK, bind_elem. eauto using closes_keys.
  - intros s x Hs Hx. destruct (decide (ss_key x ∈ K)) as [HkK|HkK].
    + destruct (Hlive' s x Hs Hx HkK) as [|(p & ? & ?)]; [by left|right]. exists p. set_solver.
    + pose proof (fr_made_inv _ _ _ F s x Hs HkK) as Hs0.
      destruct (Hlive s x Hs0 Hx) as [Hsl|(p & Hp & Hh)].
      * left. eapply frame_slot_of; [done|by intros l; apply Hslots|done|done].
      * right. apply elem_of_app in Hp as [Hp|Hp]; [|exists p; set_solver]. destruct HkK.
        rewrite Forall_forall in HownP. destruct (has_hands σ p s (HownP p Hp) Hh) as (k & Hk & x' & Hx' & <- & _).
        rewrite Hs0 in Hx'. injection Hx' as <-. eapply HhP, bind_elem. by exists p.
  - intros l sl Hl Hd. destruct (fr_undone _ _ _ F l sl Hl Hd) as [(k & _ & ?)|(k & HkK & ?)]; [by exists k|].
    exists k. by rewrite (fr_sess _ _ _ F).
  - done.
  - destruct (Hview' m Hm) as (m' & Hm' & Hother & HK').
    { intros k HkK. eapply view_ok_iff, Hview. intros s. rewrite Hin. split; [|auto].
      intros [|Hr]; [done|]. by destruct (HhR k s Hr). }
    exists m'. split; [done|]. intros k. destruct (decide (k ∈ K)) as [HkK|HkK].
    + eapply view_ok_iff, HK'; [|done]. intros s. rewrite Hin. split; [auto|].
      intros [|Hr]; [done|]. by destruct (HhR k s Hr).
    + destruct (Hview k) as [H1 H2]. unfold view_ok. rewrite Hother by done.
      assert (Hiff : ∀ s, slot_of σ' k s ∨ (k, s) ∈ (P' ++ R) ≫= hands ↔ slot_of σ k s ∨ (k, s) ∈ (P ++ R) ≫= hands).
      { intros s. rewrite !Hin, (frame_slot_of K σ σ' F _ _ k s (Hslots k) HkK).
        assert ((k, s) ∉ P' ≫= hands) by (intros ?%HhP'; done).
        assert ((k, s) ∉ P ≫= hands) by (intros ?%HhP; done). tauto. }
      split.
      * intros s Hs. rewrite Hiff in Hs. rewrite (H1 s Hs). do 2 f_equal.
        destruct Hs as [Hs|Hs].
        -- destruct (slot_of_sess _ _ _ _ _ (Hslots k) Hs) as (c & Hc). symmetry. by eapply frame_sess_at.
        -- apply Hin in Hs as [Hs|(p & Hp & Hh)%bind_elem]; [by destruct HkK; eapply HhP|].
           rewrite Forall_forall in HownR. destruct (hands_sess σ p k s (HownR p Hp) Hh) as (c & Hc).
           symmetry. by eapply frame_sess_at.
      * intros i Hi. destruct (H2 i Hi) as (s & Hs). exists s. by apply Hiff.
Qed.

(** ** Steps that claim nothing new *)

Lemma Core_regroup σ P P' R :
  Core σ (P ++ R) → P' ≫= busy ≡ₚ P ≫= busy → P' ≫= closes ≡ₚ P ≫= closes → P' ≫= keys ≡ₚ P ≫= keys →
  P' ≫= hands ≡ₚ P ≫= hands → (∀ p s, p ∈ P → has p s → ∃ p', p' ∈ P' ∧ has p' s) → Forall (own σ) P' →
  Core σ (P' ++ R).
Proof.
  intros [] Hb Hc Hk Hh Hhas Hown.
  assert (HB : (P' ++ R) ≫= busy ≡ₚ (P ++ R) ≫= busy) by (rewrite !bind_app; by rewrite Hb).
  assert (HC : (P' ++ R) ≫= closes ≡ₚ (P ++ R) ≫= closes) by (rewrite !bind_app; by rewrite Hc).
  assert (HH : (P' ++ R) ≫= hands ≡ₚ (P ++ R) ≫= hands) by (rewrite !bind_app; by rewrite Hh).
  split; try done.
  - rewrite bind_app, Hk, <- bind_app. done.
  - by rewrite HB.
  - rewrite Forall_app in co_own0 |- *. naive_solver.
  - intros k l Hkl. destruct (co_slots0 k l Hkl) as [[]|[|(s & id & c & ?)]]; [left|by right; left|right; right].
    + by rewrite HB.
    + exists s, id, c. by rewrite HC.
  - intros s x Hs Hx. destruct (co_live0 s x Hs Hx) as [|(p & Hp & Hps)]; [by left|right].
    apply elem_of_app in Hp as [Hp|Hp]; [|exists p; set_solver].
    destruct (Hhas p s Hp Hps) as (p' & ? & ?). exists p'. set_solver.
  - destruct co_view0 as (m & Hm & Hv). exists m. split; [done|]. intros k.
    eapply view_ok_iff, Hv. intros s. by rewrite HH.
Qed.

Lemma Core_same σ p p' R :
  Core σ (p :: R) → busy p' = busy p → closes p' = closes p → hands p' = hands p →
  (∀ s, has p s → has p' s) → own σ p' → Core σ (p' :: R).
Proof.
  intros HC Hb Hc Hh Hhas Hown. apply (Core_regroup σ [p] [p'] R HC); simpl.
  - by rewrite Hb.
  - by rewrite Hc.
  - unfold keys. by rewrite Hb, Hc.
  - by rewrite Hh.
  - intros q s ->%list_elem_of_singleton Hq. exists p'. split; [by left|auto].
  - by constructor.
Qed.

(** A goroutine that claims nothing may come and go. *)
Definition idle (p : pc) : Prop := keys p = [] ∧ hands p = [] ∧ ∀ s, ¬ has p s.

Lemma idle_busy p : idle p → busy p = [] ∧ closes p = [].
Proof. intros (H & _). by apply app_eq_nil in H. Qed.

Lemma Core_drop σ p R : idle p → Core σ (p :: R) → Core σ R.
Proof.
  intros Hi HC. pose proof (idle_busy p Hi) as [Hb Hc]. destruct Hi as (Hk & Hh & Hn).
  apply (Core_regroup σ [p] [] R HC); simpl; rewrite ?Hb, ?Hc, ?Hk, ?Hh; try done.
  intros q s ->%list_elem_of_singleton Hq. by destruct (Hn s).
Qed.

Lemma Core_add σ p R : idle p → own σ p → Core σ R → Core σ (p :: R).
Proof.
  intros Hi Ho HC. pose proof (idle_busy p Hi) as [Hb Hc]. destruct Hi as (Hk & Hh & Hn).
  apply (Core_regroup σ [] [p] R HC); simpl; rewrite ?Hb, ?Hc, ?Hk, ?Hh; try done.
  - intros q s Hq. set_solver.
  - by constructor.
Qed.

(** The fields the claims do not mention. *)
Lemma Core_aside σ σ' T : Core σ T →
  sv_sessions σ' = sv_sessions σ → sv_heap σ' = sv_heap σ → sv_openWG σ' = sv_openWG σ →
  sv_made σ' = sv_made σ → sv_minted σ' = sv_minted σ →
  (track (sv_log σ) = track (sv_log σ')) → (sv_closing σ = true → sv_closing σ' = true) → Core σ' T.
Proof.
  intros HC E1 E2 E3 E4 E5 E6 E7. apply (Core_step [] σ σ' [] [] T HC).
  - split; rewrite ?E1, ?E2, ?E4, ?E5; try done.
    + unfold is_marker. by rewrite E2.
    + intros l sl Hl Hd. destruct (co_undone _ _ HC l sl Hl Hd) as (k & Hk). right. exists k.
      split; [apply not_elem_of_nil|done].
  - intros k Hk. by apply not_elem_of_nil in Hk.
  - done.
  - done.
  - constructor.
  - simpl. lia.
  - constructor.
  - intros k l Hk. by apply not_elem_of_nil in Hk.
  - intros s x _ _ Hk. by apply not_elem_of_nil in Hk.
  - rewrite E5. apply HC.
  - intros m Hm _. exists m. rewrite <- E6. split_and!; [done|done|]. intros k Hk. by apply not_elem_of_nil in Hk.
Qed.

(** ** Keys of claims *)

Lemma own_keys σ p k : own σ p → k ∈ keys p →
  (sv_sessions σ !! k = None ∧ sv_closing σ = true)
  ∨ ∃ l sl, sv_sessions σ !! k = Some l ∧ sv_heap σ !! l = Some sl ∧ isOpen sl = false.
Proof.
  assert (HR : ∀ k0 l, reserves σ k0 l → k = k0 → ∃ l sl, sv_sessions σ !! k = Some l ∧ sv_heap σ !! l = Some sl ∧ isOpen sl = false).
  { intros k0 l [Hs Hl] ->. by exists l, reserved_slot. }
  assert (HM : ∀ k0 m c, marks σ k0 m c → k = k0 → ∃ l sl, sv_sessions σ !! k = Some l ∧ sv_heap σ !! l = Some sl ∧ isOpen sl = false).
  { intros k0 m c (s & id & Hs & Hl & _) ->. exists m. eexists. split_and!; [done|exact Hl|done]. }
  unfold keys. destruct p; simpl; rewrite ?app_nil_r;
    try (intros _ H; by apply not_elem_of_nil in H); rewrite ?list_elem_of_singleton; intros H Hk.
  - right. by eapply HR.
  - right. by eapply HR.
  - right. by eapply HR.
  - right. destruct H. by eapply HR.
  - left. subst k. naive_solver.
  - left. subst k. naive_solver.
  - right. by eapply HM.
  - right. by eapply HM.
  - right. apply list_elem_of_fmap in Hk as (c & -> & Hc). rewrite Forall_forall in H. by eapply HM; [apply H|].
Qed.

(** A free key is nobody's before the daemon shuts down, and an open slot's key
    never is. *)
Lemma free_key σ T k : Core σ T → sv_closing σ = false → sv_sessions σ !! k = None → k ∉ T ≫= keys.
Proof.
  intros HC Hc Hk (p & Hp & Hpk)%bind_elem. pose proof (co_own _ _ HC) as Ho. rewrite Forall_forall in Ho.
  destruct (own_keys σ p k (Ho p Hp) Hpk) as [[_ ?]|(l & sl & ? & _)]; congruence.
Qed.

Lemma open_key σ T k l sl : Core σ T → sv_sessions σ !! k = Some l → sv_heap σ !! l = Some sl →
  isOpen sl = true → k ∉ T ≫= keys.
Proof.
  intros HC Hk Hl Hs (p & Hp & Hpk)%bind_elem. pose proof (co_own _ _ HC) as Ho. rewrite Forall_forall in Ho.
  destruct (own_keys σ p k (Ho p Hp) Hpk) as [[? _]|(l' & sl' & ? & ? & ?)]; congruence.
Qed.

(** The keys of one goroutine are not another's. *)
Lemma keys_apart σ p R k : Core σ (p :: R) → k ∈ keys p → k ∉ R ≫= keys.
Proof.
  intros HC Hk. pose proof (co_nodup _ _ HC) as H. simpl in H. apply NoDup_app in H as (_ & H & _). by apply H.
Qed.

Lemma Core_own σ p R : Core σ (p :: R) → own σ p.
Proof. intros HC. pose proof (co_own _ _ HC) as H. by apply Forall_cons in H as [H _]. Qed.

(** ** Every step keeps the claims

    One lemma per critical section that changes a slot or a session. *)

Ltac solve_idle := solve [unfold idle, keys; simpl; split_and!; [done|done|intros ? []]].

(** ** One key *)

(** The session of [k], if there is one, in a slot or in the hands of [A]. *)
Definition at_key (σ : Server) (A : list (string * nat)) (k : string) (o : option nat) : Prop :=
  ∀ s, slot_of σ k s ∨ (k, s) ∈ A ↔ o = Some s.

Lemma view_at σ A m k o : at_key σ A k o →
  view_ok σ A m k ↔ m !! k = (λ s, ident (sess_at σ s)) <$> o.
Proof.
  intros Ha. unfold view_ok. destruct o as [s|]; simpl.
  - split.
    + intros [H _]. apply H. by apply Ha.
    + intros H. split; [|intros i _; exists s; by apply Ha]. intros s' Hs'%Ha. by injection Hs' as <-.
  - split.
    + intros [_ H]. apply eq_None_not_Some. intros [i Hi]. destruct (H i Hi) as (s & Hs%Ha). done.
    + intros ->. split; [|done]. by intros s Hs%Ha.
Qed.

Lemma at_none σ A k : (∀ s, ¬ slot_of σ k s) → (∀ s, (k, s) ∉ A) → at_key σ A k None.
Proof. intros H1 H2 s. split; [|done]. intros [H|H]; [by destruct (H1 s)|by destruct (H2 s)]. Qed.

Lemma at_hands σ k s : (∀ s, ¬ slot_of σ k s) → at_key σ [(k, s)] k (Some s).
Proof.
  intros H s'. rewrite list_elem_of_singleton. split; [|intros [= ->]; by right].
  intros [Hs|[= ->]]; [by destruct (H s')|done].
Qed.

Lemma at_slot σ k l sl s : sv_sessions σ !! k = Some l → sv_heap σ !! l = Some sl → sl_sess sl = Some s →
  at_key σ [] k (Some s).
Proof.
  intros Hk Hl Hs s'. split.
  - intros [(l' & sl' & Hk' & Hl' & Hs')|H]; [|by apply not_elem_of_nil in H]. congruence.
  - intros [= <-]. left. by exists l, sl.
Qed.

Lemma slot_of_none σ k s : sv_sessions σ !! k = None → ¬ slot_of σ k s.
Proof. intros H (l & sl & Hk & _). congruence. Qed.

Lemma slot_of_reserved σ k l s : reserves σ k l → ¬ slot_of σ k s.
Proof. intros [Hk Hl] (l' & sl & Hk' & Hl' & Hs). rewrite Hk in Hk'. injection Hk' as <-. rewrite Hl in Hl'. by injection Hl' as <-. Qed.

Lemma old_live σ p R s x : Core σ (p :: R) → ss_key x ∉ R ≫= keys →
  sv_made σ !! s = Some x → ss_closed x = false → slot_of σ (ss_key x) s ∨ has p s.
Proof.
  intros HC HkR Hs Hx. destruct (co_live _ _ HC s x Hs Hx) as [|(q & Hq & Hh)]; [by left|].
  apply elem_of_cons in Hq as [->|Hq]; [by right|]. destruct HkR. apply bind_elem. exists q. split; [done|].
  pose proof (co_own _ _ HC) as Ho. rewrite Forall_forall in Ho.
  destruct (has_hands σ q s) as (k & Hk & x' & Hx' & <- & _); [apply Ho; by right|done|].
  rewrite Hs in Hx'. injection Hx' as <-. by eapply hands_keys.
Qed.

(** The frame rule for one goroutine and one key; [o] and [o'] are the session the
    key has before and after. *)
Lemma Core_step1 k o o' σ σ' p p' R :
  Core σ (p :: R) → frame [k] σ σ' → k ∉ R ≫= keys →
  (keys p = [] ∨ keys p = [k]) → (keys p' = [] ∨ keys p' = [k]) →
  sv_openWG σ' + length (busy p) = sv_openWG σ + length (busy p') →
  own σ' p' →
  (∀ l, sv_sessions σ' !! k = Some l → slot_ok σ' (busy p') (closes p') k l) →
  (∀ s x, sv_made σ' !! s = Some x → ss_closed x = false → ss_key x = k → slot_of σ' k s ∨ has p' s) →
  NoDup (sv_minted σ').*1 →
  at_key σ (hands p) k o → at_key σ' (hands p') k o' →
  (∀ m, track (sv_log σ) = Some m → m !! k = (λ s, ident (sess_at σ s)) <$> o →
     ∃ m', track (sv_log σ') = Some m' ∧ (∀ k', k' ≠ k → m' !! k' = m !! k')
       ∧ m' !! k = (λ s, ident (sess_at σ' s)) <$> o') →
  Core σ' (p' :: R).
Proof.
  intros HC F HkR Hp Hp' Hwg Hown Hslot Hlive Hmint Ho Ho' Hview.
  apply (Core_step [k] σ σ' [p] [p'] R HC F); simpl; rewrite ?app_nil_r.
  - by intros k' ->%list_elem_of_singleton.
  - destruct Hp as [->| ->]; [|done]. intros k' H. by apply not_elem_of_nil in H.
  - destruct Hp' as [->| ->]; [|done]. intros k' H. by apply not_elem_of_nil in H.
  - destruct Hp' as [->| ->]; [constructor|apply NoDup_singleton].
  - done.
  - by constructor.
  - intros k' l ->%list_elem_of_singleton. apply Hslot.
  - intros s x Hs Hx Hk%list_elem_of_singleton. rewrite Hk.
    destruct (Hlive s x Hs Hx Hk) as [|Hh]; [by left|right]. exists p'. split; [by left|done].
  - done.
  - intros m Hm Hv. destruct (Hview m Hm) as (m' & Hm' & Hne & Hk').
    { apply (view_at _ _ _ _ _ Ho), Hv. by left. }
    exists m'. split_and!; [done| |].
    + intros k' Hk. apply Hne. intros ->. apply Hk. by left.
    + intros k' ->%list_elem_of_singleton. by apply (view_at _ _ _ _ _ Ho').
Qed.

(** ** Frames *)

Lemma slot_bound σ T k l : Core σ T → sv_sessions σ !! k = Some l → l < length (sv_heap σ).
Proof.
  intros HC Hk. destruct (co_slots _ _ HC k l Hk) as [[H _]|[(s & id & H & _)|(s & id & c & H & _)]];
    by eapply lookup_lt_Some.
Qed.

Lemma frame_put k sl σ σ' T : Core σ T →
  sv_sessions σ' = <[k := length (sv_heap σ)]> (sv_sessions σ) → sv_heap σ' = sv_heap σ ++ [sl] →
  sv_made σ' = sv_made σ → (sv_closing σ = true → sv_closing σ' = true) →
  (∀ i, i ∈ sv_minted σ → i ∈ sv_minted σ') →
  (∀ l sl, sv_sessions σ !! k = Some l → sv_heap σ !! l = Some sl → sl_done sl ≠ Some false) →
  frame [k] σ σ'.
Proof.
  intros HC Es Eh Em Ec Ei Hk. split; rewrite ?Es, ?Eh, ?Em; try done.
  - intros k' Hk'. rewrite lookup_insert_ne; [done|]. intros ->. apply Hk'. by left.
  - intros k' l s _ Hl Hs. by apply lookup_app_l_Some.
  - intros l (s & Hs & Hc). exists s. split; [|done]. rewrite Eh. by apply lookup_app_l_Some.
  - intros l s Hs Hd. apply lookup_app_Some in Hs as [Hs|[Hle Hs]].
    + right. destruct (co_undone _ _ HC l s Hs Hd) as (k' & Hk'). exists k'. split; [|done].
      intros ->%list_elem_of_singleton. by apply (Hk l s).
    + left. exists k. split; [by left|]. rewrite lookup_insert_eq. f_equal.
      destruct (l - length (sv_heap σ)) eqn:E; [lia|done].
Qed.

Lemma frame_delete k σ σ' T : Core σ T →
  sv_sessions σ' = delete k (sv_sessions σ) → sv_heap σ' = sv_heap σ →
  sv_made σ' = sv_made σ → sv_minted σ' = sv_minted σ → (sv_closing σ = true → sv_closing σ' = true) →
  (∀ l sl, sv_sessions σ !! k = Some l → sv_heap σ !! l = Some sl → sl_done sl ≠ Some false) →
  frame [k] σ σ'.
Proof.
  intros HC Es Eh Em Ei Ec Hk. split; unfold is_marker; rewrite ?Es, ?Eh, ?Em, ?Ei; try done.
  - intros k' Hk'. rewrite lookup_delete_ne; [done|]. intros ->. apply Hk'. by left.
  - intros l s Hs Hd. right. destruct (co_undone _ _ HC l s Hs Hd) as (k' & Hk'). exists k'. split; [|done].
    intros ->%list_elem_of_singleton. by apply (Hk l s).
Qed.

(** Only sessions of [k] change. *)
Lemma frame_sessions k σ σ' T : Core σ T →
  sv_sessions σ' = sv_sessions σ → sv_heap σ' = sv_heap σ → sv_minted σ' = sv_minted σ →
  (sv_closing σ = true → sv_closing σ' = true) →
  (∀ s x, ss_key x ≠ k → sv_made σ' !! s = Some x ↔ sv_made σ !! s = Some x) →
  frame [k] σ σ'.
Proof.
  intros HC Es Eh Ei Ec Hm. split; unfold is_marker; rewrite ?Es, ?Eh, ?Ei; try done.
  - intros s x Hs Hk. apply Hm; [|done]. intros E. apply Hk. rewrite E. by left.
  - intros s x Hs Hk. apply Hm; [|done]. intros E. apply Hk. rewrite E. by left.
  - intros l s Hs Hd. destruct (co_undone _ _ HC l s Hs Hd) as (k' & Hk').
    destruct (decide (k' = k)) as [->|Hne]; [left; exists k; split; [by left|done]|right].
    exists k'. split; [by rewrite list_elem_of_singleton|done].
Qed.

Lemma reserved_not_undone σ k l : reserves σ k l →
  ∀ l' sl, sv_sessions σ !! k = Some l' → sv_heap σ !! l' = Some sl → sl_done sl ≠ Some false.
Proof. intros [Hk Hl] l' sl Hk' Hl'. rewrite Hk in Hk'. injection Hk' as <-. rewrite Hl in Hl'. by injection Hl' as <-. Qed.

(** ** The sections of [opOpen] *)

Lemma Core_reserve db br σ R : Core σ (POpen db br :: R) →
  sv_closing σ = false → sv_sessions σ !! key db br = None →
  let '(σ', l) := opOpen_reserve (key db br) σ in Core σ' (PRun db br l :: R).
Proof.
  intros HC Hc Hk. unfold opOpen_reserve. simpl. set (k := key db br) in *.
  assert (HkR : k ∉ R ≫= keys).
  { apply (free_key σ); [|done..]. eapply Core_drop, HC. solve_idle. }
  eapply (Core_step1 k None None); [exact HC| |done|by left|by right|simpl; lia| | | | | | |].
  - eapply (frame_put k reserved_slot); [exact HC|done..|]. intros l sl. congruence.
  - split; simpl; [by rewrite lookup_insert_eq|by rewrite lookup_app_r, Nat.sub_diag by lia].
  - simpl. intros l. rewrite lookup_insert_eq. intros [= <-]. left. split; [|by left].
    simpl. by rewrite lookup_app_r, Nat.sub_diag by lia.
  - simpl. intros s x Hs Hx Hxk. destruct (old_live σ (POpen db br) R s x HC) as [Hs'|[]]; [by rewrite Hxk|done..|].
    rewrite Hxk in Hs'. by apply slot_of_none in Hs'.
  - apply HC.
  - apply at_none; [intros s; by apply slot_of_none|intros s; apply not_elem_of_nil].
  - apply at_none; [|intros s; apply not_elem_of_nil]. intros s. apply (slot_of_reserved _ _ (length (sv_heap σ))).
    split; simpl; [by rewrite lookup_insert_eq|by rewrite lookup_app_r, Nat.sub_diag by lia].
  - simpl. intros m Hm Hmk. by exists m.
Qed.

Lemma track_opened evs m now s : track evs = Some m → m !! ss_key s = None →
  track (evs ++ [opened_event now s]) = Some (<[ss_key s := ident s]> m).
Proof. intros Hm Hk. rewrite track_snoc, Hm. unfold track_event. simpl. fold (ss_key s). by rewrite Hk. Qed.

Lemma track_closed evs m now s err : track evs = Some m → m !! ss_key s = Some (ident s) →
  track (evs ++ [sessionClosedEvent now s err]) = Some (delete (ss_key s) m).
Proof.
  intros Hm Hk. rewrite track_snoc, Hm. unfold track_event. simpl. fold (ss_key s). rewrite Hk.
  assert (event_ident (sessionClosedEvent now s err) = ident s) as ->.
  { unfold event_ident, sessionClosedEvent, ident. simpl. by destruct err. }
  by rewrite bool_decide_eq_true_2.
Qed.

Lemma Core_opened now db br l holder epoch σ R : Core σ (PRun db br l :: R) →
  let '(σ', s) := session_opened now db br holder epoch σ in Core σ' (PGot db br l s :: R).
Proof.
  intros HC. unfold session_opened. set (k := key db br). set (x0 := mkSess db br holder epoch false).
  pose proof (Core_own _ _ _ HC) as Hr. simpl in Hr. fold k in Hr.
  assert (HkR : k ∉ R ≫= keys) by (apply (keys_apart σ (PRun db br l)); [done|by left]).
  assert (Hnew : (sv_made σ ++ [x0]) !! length (sv_made σ) = Some x0) by (by rewrite lookup_app_r, Nat.sub_diag by lia).
  eapply (Core_step1 k None (Some (length (sv_made σ)))); [exact HC| |done|by right|by right|simpl; lia| | | | | | |].
  - eapply frame_sessions; [exact HC|done..|]. simpl. intros s x Hx. rewrite lookup_app_Some. split; [|by left].
    intros [|[_ H]]; [done|]. apply list_lookup_singleton_Some in H as [_ <-]. done.
  - split; [done|]. by exists x0.
  - intros l' Hl'. destruct Hr as [Hk Hl]. simpl in Hl'. rewrite Hk in Hl'. injection Hl' as <-.
    left. split; [done|by left].
  - simpl. intros s x Hs Hx Hxk. apply lookup_app_Some in Hs as [Hs|[Hle Hs]].
    + destruct (old_live σ (PRun db br l) R s x HC) as [Hs'|[]]; [by rewrite Hxk|done..|].
      rewrite Hxk in Hs'. by apply (slot_of_reserved _ _ _ _ Hr) in Hs'.
    + apply list_lookup_singleton_Some in Hs as [? _]. right. lia.
  - apply HC.
  - apply at_none; [intros s; by eapply slot_of_reserved|intros s; apply not_elem_of_nil].
  - apply at_hands. intros s. by apply (slot_of_reserved _ _ l).
  - simpl. intros m Hm Hmk. exists (<[k := ident x0]> m). split_and!.
    + by apply track_opened.
    + intros k' Hne. by rewrite lookup_insert_ne.
    + rewrite lookup_insert_eq. by rewrite (sess_at_lookup _ _ x0).
Qed.

Lemma sv_recordOrphan k e σ : let σ' := recordOrphanLocked k e σ in
  sv_sessions σ' = sv_sessions σ ∧ sv_heap σ' = sv_heap σ ∧ sv_openWG σ' = sv_openWG σ ∧ sv_made σ' = sv_made σ
  ∧ sv_minted σ' = sv_minted σ ∧ sv_log σ' = sv_log σ ∧ sv_closing σ' = sv_closing σ
  ∧ sv_shutdownDone σ' = sv_shutdownDone σ ∧ sv_shutdownErr σ' = sv_shutdownErr σ.
Proof. unfold recordOrphanLocked. by repeat case_match. Qed.

Lemma wg_pos σ p R : Core σ (p :: R) → busy p ≠ [] → sv_openWG σ ≠ 0.
Proof. intros HC Hb. rewrite (co_wg _ _ HC). simpl. rewrite length_app. destruct (busy p); [done|simpl; lia]. Qed.

Lemma Core_failed db br l e r σ R : Core σ (PFailed db br l e r :: R) →
  Core (opOpen_failed (key db br) e σ) (PRet (RErr r) :: R).
Proof.
  intros HC. set (k := key db br). pose proof (Core_own _ _ _ HC) as Hr. simpl in Hr. fold k in Hr.
  assert (HkR : k ∉ R ≫= keys) by (apply (keys_apart σ (PFailed db br l e r)); [done|by left]).
  assert (Hwg : sv_openWG σ ≠ 0) by (by eapply wg_pos).
  destruct (sv_recordOrphan k (Some e) σ) as (E1 & E2 & E3 & E4 & E5 & E6 & E7 & _).
  unfold opOpen_failed. set (σ1 := recordOrphanLocked k (Some e) σ) in *.
  eapply (Core_step1 k None None); [exact HC| |done|by right|by left|simpl; rewrite E3; lia|done| | | | | |]; simpl.
  - eapply frame_delete; [exact HC|simpl; by rewrite ?E1, ?E2, ?E4, ?E5, ?E7..|by eapply reserved_not_undone].
  - intros l'. by rewrite lookup_delete_eq.
  - rewrite E4. intros s x Hs Hx Hxk.
    destruct (old_live σ (PFailed db br l e r) R s x HC) as [Hs'|[]]; [by rewrite Hxk|done..|].
    rewrite Hxk in Hs'. by apply (slot_of_reserved _ _ _ _ Hr) in Hs'.
  - rewrite E5. apply HC.
  - apply at_none; [intros s; by eapply slot_of_reserved|intros s; apply not_elem_of_nil].
  - apply at_none; [|intros s; apply not_elem_of_nil]. intros s. apply slot_of_none. simpl. by rewrite lookup_delete_eq.
  - intros m Hm Hmk. exists m. by rewrite E6.
Qed.

Lemma Core_self db br l s σ R : Core σ (PGot db br l s :: R) → sv_closing σ = true →
  Core (set_sessions (delete (key db br)) σ) (PSelf db br s :: R).
Proof.
  intros HC Hc. set (k := key db br). pose proof (Core_own _ _ _ HC) as [Hr Hs]. fold k in Hr, Hs.
  assert (HkR : k ∉ R ≫= keys) by (apply (keys_apart σ (PGot db br l s)); [done|by left]).
  eapply (Core_step1 k (Some s) (Some s)); [exact HC| |done|by right|by right|done| | | | | | |]; simpl.
  - eapply frame_delete; [exact HC|done..|by eapply reserved_not_undone].
  - split_and!; [done|by rewrite lookup_delete_eq|done].
  - intros l'. by rewrite lookup_delete_eq.
  - intros s' x Hs' Hx Hxk. right.
    destruct (old_live σ (PGot db br l s) R s' x HC) as [H|H]; [by rewrite Hxk|done..| |done].
    rewrite Hxk in H. by apply (slot_of_reserved _ _ _ _ Hr) in H.
  - apply HC.
  - apply at_hands. intros s'. by eapply slot_of_reserved.
  - apply at_hands. intros s'. apply slot_of_none. simpl. by rewrite lookup_delete_eq.
  - intros m Hm Hmk. by exists m.
Qed.

Lemma Core_install db br l s id σ R : Core σ (PGot db br l s :: R) →
  id ≠ "" → id ∉ (sv_minted σ).*1 →
  Core (opOpen_install (key db br) s id σ) (PRet (ROpened s id) :: R).
Proof.
  intros HC Hid Hnew. set (k := key db br). pose proof (Core_own _ _ _ HC) as [Hr Hs]. fold k in Hr, Hs.
  assert (HkR : k ∉ R ≫= keys) by (apply (keys_apart σ (PGot db br l s)); [done|by left]).
  assert (Hwg : sv_openWG σ ≠ 0) by (by eapply wg_pos).
  set (sl := mkSlot (Some s) id None None). unfold opOpen_install. simpl.
  assert (Hl : (sv_heap σ ++ [sl]) !! length (sv_heap σ) = Some sl) by (by rewrite lookup_app_r, Nat.sub_diag by lia).
  eapply (Core_step1 k (Some s) (Some s)); [exact HC| |done|by right|by left|simpl; lia|done| | | | | |]; simpl.
  - eapply (frame_put k sl); [exact HC|done..| |by eapply reserved_not_undone].
    simpl. intros i Hi. apply elem_of_app. by left.
  - intros l'. rewrite lookup_insert_eq. intros [= <-]. right; left. exists s, id.
    split_and!; [done|done| |done]. simpl. apply elem_of_app. right. by left.
  - intros s' x Hs' Hx Hxk. left.
    destruct (old_live σ (PGot db br l s) R s' x HC) as [H|H]; [by rewrite Hxk|done..| |].
    + rewrite Hxk in H. by apply (slot_of_reserved _ _ _ _ Hr) in H.
    + simpl in H. subst s'. exists (length (sv_heap σ)), sl. simpl. by rewrite lookup_insert_eq.
  - rewrite fmap_app. apply NoDup_app. split_and!; [apply HC| |apply NoDup_singleton].
    intros i Hi ->%list_elem_of_singleton. done.
  - apply at_hands. intros s'. by eapply slot_of_reserved.
  - eapply at_slot; simpl; [by rewrite lookup_insert_eq|exact Hl|done].
  - intros m Hm Hmk. by exists m.
Qed.

(** ** Closing a session *)

Definition shut (x : sess) : sess := mkSess (ss_db x) (ss_branch x) (ss_holder x) (ss_epoch x) true.

Lemma session_Close_live s k res σ : sess_is σ s k false →
  session_Close s res σ = (set_made (alter shut s) σ, res).
Proof. intros (x & Hx & _ & Hc). unfold session_Close. by rewrite (sess_at_lookup _ _ _ Hx), Hc. Qed.

Lemma shut_made (made : list sess) (s0 s : nat) x0 x : made !! s0 = Some x0 →
  alter shut s0 made !! s = Some x ↔ (s = s0 ∧ x = shut x0) ∨ (s ≠ s0 ∧ (made !! s = Some x)).
Proof.
  intros H0. destruct (decide (s = s0)) as [->|Hne].
  - rewrite list_lookup_alter_eq, H0. simpl. naive_solver.
  - rewrite list_lookup_alter_ne by done. naive_solver.
Qed.

Lemma frame_shut σ k s T : Core σ T → sess_is σ s k false → frame [k] σ (set_made (alter shut s) σ).
Proof.
  intros HC (x0 & Hx0 & Hk & _). eapply frame_sessions; [exact HC|done..|].
  intros s' x Hx. simpl. rewrite (shut_made _ _ _ x0) by done. split.
  - intros [[-> ->]|[_ ?]]; [|done]. by destruct Hx.
  - intros Hs'. right. split; [|done]. intros ->. rewrite Hx0 in Hs'. injection Hs' as <-. done.
Qed.

Lemma shut_is σ s k : sess_is σ s k false → sess_is (set_made (alter shut s) σ) s k true.
Proof.
  intros (x & Hx & <- & _). exists (shut x). split_and!; [|done|done]. simpl.
  rewrite (shut_made _ _ _ x) by done. by left.
Qed.

Lemma shut_ident σ s k s' : sess_is σ s k false →
  ident (sess_at (set_made (alter shut s) σ) s') = ident (sess_at σ s').
Proof.
  intros (x & Hx & _). unfold sess_at. simpl. destruct (decide (s' = s)) as [->|Hne].
  - by rewrite list_lookup_alter_eq, Hx.
  - by rewrite list_lookup_alter_ne.
Qed.

Lemma Core_self_close db br s res σ R : Core σ (PSelf db br s :: R) →
  let '(σ', cerr) := session_Close s res σ in Core σ' (PSelfClosed db br s cerr :: R).
Proof.
  intros HC. set (k := key db br). pose proof (Core_own _ _ _ HC) as (Hc & Hk & Hs). fold k in Hk, Hs.
  rewrite (session_Close_live s k res σ Hs).
  assert (HkR : k ∉ R ≫= keys) by (apply (keys_apart σ (PSelf db br s)); [done|by left]).
  eapply (Core_step1 k (Some s) (Some s)); [exact HC|by eapply frame_shut|done|by right|by right|done| | | | | | |]; simpl.
  - split_and!; [done|done|]. by apply shut_is.
  - intros l. fold k. by rewrite Hk.
  - destruct Hs as (x0 & Hx0 & Hk0 & _). intros s' x Hs' Hx Hxk. apply (shut_made _ _ _ x0) in Hs'; [|done].
    destruct Hs' as [[-> ->]|[Hne Hs']]; [done|].
    destruct (old_live σ (PSelf db br s) R s' x HC) as [H|H]; [by rewrite Hxk|done..| |done].
    rewrite Hxk in H. by apply slot_of_none in H.
  - apply HC.
  - apply at_hands. intros s'. by apply slot_of_none.
  - apply at_hands. intros s'. by apply slot_of_none.
  - intros m Hm Hmk. exists m. split_and!; [done..|]. by rewrite (shut_ident _ _ k).
Qed.

Lemma Core_self_end now db br s cerr σ R : Core σ (PSelfClosed db br s cerr :: R) →
  Core (set_openWG pred (publish (sessionClosedEvent now (sess_at σ s) cerr) σ)) (PRet (RErr ShuttingDown) :: R).
Proof.
  intros HC. set (k := key db br). pose proof (Core_own _ _ _ HC) as (Hc & Hk & Hs). fold k in Hk, Hs.
  assert (HkR : k ∉ R ≫= keys) by (apply (keys_apart σ (PSelfClosed db br s cerr)); [done|by left]).
  assert (Hwg : sv_openWG σ ≠ 0) by (by eapply wg_pos).
  eapply (Core_step1 k (Some s) None); [exact HC| |done|by right|by left|simpl; lia|done| | | | | |]; simpl.
  - by eapply frame_sessions.
  - intros l. by rewrite Hk.
  - intros s' x Hs' Hx Hxk.
    destruct (old_live σ (PSelfClosed db br s cerr) R s' x HC) as [H|[]]; [by rewrite Hxk|done..|].
    rewrite Hxk in H. by apply slot_of_none in H.
  - apply HC.
  - apply at_hands. intros s'. by apply slot_of_none.
  - apply at_none; [|intros s'; apply not_elem_of_nil]. intros s'. by apply slot_of_none.
  - destruct Hs as (x & Hx & Hxk & _). rewrite (sess_at_lookup _ _ _ Hx). intros m Hm Hmk.
    exists (delete k m). split_and!.
    + rewrite <- Hxk. apply track_closed; [done|]. by rewrite Hxk.
    + intros k' Hne. by rewrite lookup_delete_ne.
    + by rewrite lookup_delete_eq.
Qed.

(** ** Closing a slot *)

Lemma Core_mark k l s id σ R : Core σ R →
  sv_sessions σ !! k = Some l → sv_heap σ !! l = Some (mkSlot (Some s) id None None) →
  let '(σ', m) := markClosingLocked k (mkSlot (Some s) id None None) σ in Core σ' (PSlot k m :: R).
Proof.
  intros HC Hk Hl. unfold markClosingLocked. simpl. set (sl := mkSlot (Some s) id (Some false) None).
  assert (HkR : k ∉ R ≫= keys) by (by eapply open_key).
  assert (Hs : sess_is σ s k false ∧ (id, s) ∈ sv_minted σ).
  { destruct (co_slots _ _ HC k l Hk) as [[H _]|[(s' & id' & H & ? & ? & _)|(s' & id' & c & H & _)]]; rewrite Hl in H; try discriminate H.
    injection H as <- <-. done. }
  assert (Hm : (sv_heap σ ++ [sl]) !! length (sv_heap σ) = Some sl) by (by rewrite lookup_app_r, Nat.sub_diag by lia).
  apply (Core_add σ (PRet ROk)) in HC; [|solve_idle|done].
  eapply (Core_step1 k (Some s) (Some s)); [exact HC| |done|by left|by right|done| | | | | | |]; simpl.
  - eapply (frame_put k sl); [exact HC|done..|]. intros l' sl' Hk' Hl'. rewrite Hk in Hk'. injection Hk' as <-.
    rewrite Hl in Hl'. by injection Hl' as <-.
  - exists s, id. simpl. by rewrite lookup_insert_eq.
  - intros l'. rewrite lookup_insert_eq. intros [= <-]. right; right. exists s, id, false.
    destruct Hs. split_and!; [done..|by left].
  - intros s' x Hs' Hx Hxk. left.
    destruct (old_live σ (PRet ROk) R s' x HC) as [H|[]]; [by rewrite Hxk|done..|].
    rewrite Hxk in H. destruct H as (l' & sl' & Hk' & Hl' & Hss). rewrite Hk in Hk'. injection Hk' as <-.
    rewrite Hl in Hl'. injection Hl' as <-. injection Hss as <-.
    exists (length (sv_heap σ)), sl. simpl. by rewrite lookup_insert_eq.
  - apply HC.
  - by eapply at_slot.
  - eapply at_slot; simpl; [by rewrite lookup_insert_eq|exact Hm|done].
  - intros m0 Hm0 Hmk. by exists m0.
Qed.

Lemma Core_close k m res σ R : Core σ (PSlot k m :: R) →
  let '(σ', err) := session_Close (default 0 (sl_sess (slot_at σ m))) res σ in Core σ' (PSlotEnd k m err :: R).
Proof.
  intros HC. pose proof (Core_own _ _ _ HC) as (s & id & Hk & Hm & Hs & Hi).
  rewrite (slot_at_lookup _ _ _ Hm). simpl. rewrite (session_Close_live s k res σ Hs).
  assert (HkR : k ∉ R ≫= keys) by (apply (keys_apart σ (PSlot k m)); [done|by left]).
  eapply (Core_step1 k (Some s) (Some s)); [exact HC|by eapply frame_shut|done|by right|by right|done| | | | | | |]; simpl.
  - exists s, id. split_and!; [done..|by apply shut_is|done].
  - intros l. rewrite Hk. intros [= <-]. right; right. exists s, id, true.
    split_and!; [done|by apply shut_is|done|by left].
  - destruct Hs as (x0 & Hx0 & Hk0 & _). intros s' x Hs' Hx Hxk. apply (shut_made _ _ _ x0) in Hs'; [|done].
    destruct Hs' as [[-> ->]|[Hne Hs']]; [done|].
    destruct (old_live σ (PSlot k m) R s' x HC) as [H|[]]; [by rewrite Hxk|done..|].
    rewrite Hxk in H. destruct H as (l' & sl' & Hk' & Hl' & Hss). rewrite Hk in Hk'. injection Hk' as <-.
    rewrite Hm in Hl'. injection Hl' as <-. by injection Hss as <-.
  - apply HC.
  - by eapply at_slot.
  - by eapply at_slot.
  - intros m0 Hm0 Hmk. exists m0. split_and!; [done..|]. by rewrite (shut_ident _ _ k).
Qed.

(** What the deferred section of [closeSlot] leaves. *)
Lemma closeSlot_end_fields now k m err σ s id :
  sv_sessions σ !! k = Some m → sv_heap σ !! m = Some (mkSlot (Some s) id (Some false) None) →
  let σ' := closeSlot_end now k m err σ in
  sv_sessions σ' = delete k (sv_sessions σ)
  ∧ sv_heap σ' !! m = Some (mkSlot (Some s) id (Some true) err)
  ∧ (∀ l, l ≠ m → sv_heap σ' !! l = sv_heap σ !! l)
  ∧ sv_openWG σ' = sv_openWG σ ∧ sv_made σ' = sv_made σ ∧ sv_minted σ' = sv_minted σ
  ∧ sv_log σ' = sv_log σ ++ [sessionClosedEvent now (sess_at σ s) err] ∧ sv_closing σ' = sv_closing σ
  ∧ sv_shutdownDone σ' = sv_shutdownDone σ ∧ sv_shutdownErr σ' = sv_shutdownErr σ.
Proof.
  intros Hk Hm. unfold closeSlot_end. simpl. rewrite (slot_at_lookup _ _ _ Hm), bool_decide_eq_true_2 by done. simpl.
  match goal with |- context [recordOrphanLocked k err ?x] =>
    destruct (sv_recordOrphan k err x) as (E1 & E2 & E3 & E4 & E5 & E6 & E7 & E8 & E9) end.
  rewrite E1, E2, E3, E4, E5, E6, E7, E8, E9. simpl.
  split_and!; try done.
  - by rewrite !list_lookup_alter_eq, Hm.
  - intros l Hl. by rewrite !list_lookup_alter_ne.
Qed.

Lemma frame_end now k m err σ T : Core σ T → marks σ k m true → frame [k] σ (closeSlot_end now k m err σ).
Proof.
  intros HC (s & id & Hk & Hm & _).
  destruct (closeSlot_end_fields now k m err σ s id Hk Hm) as (Es & Em & Eo & _ & Ed & Ei & _ & Ec & _).
  assert (Hone : ∀ k', k' ≠ k → sv_sessions σ !! k' ≠ Some m).
  { intros k' Hne Hk'.
    destruct (co_slots _ _ HC k' m Hk') as [[H _]|[(s' & id' & H & _)|(s' & id' & c & H & (x & Hx & <- & _) & _)]];
      rewrite Hm in H; try discriminate H. injection H as -> ->.
    destruct (co_slots _ _ HC k m Hk) as [[H _]|[(s2 & id2 & H & _)|(s2 & id2 & c2 & H & (x2 & Hx2 & Hk2 & _) & _)]];
      rewrite Hm in H; try discriminate H. injection H as <- <-.
    apply Hne. congruence. }
  split; rewrite ?Es, ?Ed, ?Ei, ?Ec; try done.
  - intros k' Hk'. rewrite lookup_delete_ne; [done|]. intros ->. apply Hk'. by left.
  - intros k' l sl Hk' Hl Hsl. rewrite Eo; [done|]. intros ->. apply (Hone k'); [|done].
    intros ->. apply Hk'. by left.
  - intros l (sl & Hsl & Hc). destruct (decide (l = m)) as [->|Hne].
    + by eexists.
    + exists sl. by rewrite Eo.
  - intros l sl Hl Hd. right. destruct (decide (l = m)) as [->|Hne].
    + rewrite Em in Hl. by injection Hl as <-.
    + rewrite Eo in Hl by done. destruct (co_undone _ _ HC l sl Hl Hd) as (k' & Hk'). exists k'. split; [|done].
      intros ->%list_elem_of_singleton. congruence.
Qed.

Lemma Core_end now k m err σ R : Core σ (PSlotEnd k m err :: R) →
  Core (closeSlot_end now k m err σ) (PRet (answer err) :: R).
Proof.
  intros HC. pose proof (Core_own _ _ _ HC) as Hmk. simpl in Hmk.
  pose proof (frame_end now k m err σ _ HC Hmk) as HF. destruct Hmk as (s & id & Hk & Hm & Hs & Hi).
  destruct (closeSlot_end_fields now k m err σ s id Hk Hm) as (Es & Em & Eo & Ew & Ed & Ei & El & Ec & _).
  set (σ' := closeSlot_end now k m err σ) in *. clearbody σ'.
  assert (HkR : k ∉ R ≫= keys) by (apply (keys_apart σ (PSlotEnd k m err)); [done|by left]).
  eapply (Core_step1 k (Some s) None); [exact HC|exact HF|done|by right|by left|simpl; lia|done| | | | | |]; simpl.
  - intros l. by rewrite Es, lookup_delete_eq.
  - rewrite Ed. destruct Hs as (x0 & Hx0 & Hk0 & Hc0). intros s' x Hs' Hx Hxk.
    destruct (old_live σ (PSlotEnd k m err) R s' x HC) as [H|[]]; [by rewrite Hxk|done..|].
    rewrite Hxk in H. destruct H as (l' & sl' & Hk' & Hl' & Hss). rewrite Hk in Hk'. injection Hk' as <-.
    rewrite Hm in Hl'. injection Hl' as <-. injection Hss as <-. congruence.
  - rewrite Ei. apply HC.
  - by eapply at_slot.
  - apply at_none; [|intros s'; apply not_elem_of_nil]. intros s'. apply slot_of_none. by rewrite Es, lookup_delete_eq.
  - destruct Hs as (x & Hx & Hxk & _). rewrite El, (sess_at_lookup _ _ _ Hx). intros m0 Hm0 Hmk.
    exists (delete k m0). split_and!.
    + rewrite <- Hxk. apply track_closed; [done|]. by rewrite Hxk.
    + intros k' Hne. by rewrite lookup_delete_ne.
    + by rewrite lookup_delete_eq.
Qed.

