(* ===== verification/DaemonRun.v ===== *)
(** * The daemon's sessions: the invariant along every run

    [Sh] is the part of the invariant that speaks of [Shutdown]: at most one of
    them is past [closing], what it knows at each of its steps, and that nothing
    can be opened behind it.  [Inv_step] and [reachable_inv] join it to [Core]. *)
From Stdlib Require Import Ascii String.
From stdpp Require Import sorting.
From S2P Require Import Prelude GoStrings Keys Refs Events Daemon DaemonInv.
Local Open Scope string_scope.
Local Open Scope nat_scope.
Local Open Scope list_scope.

(** ** The one shutdown *)

Definition main (p : pc) : bool :=
  match p with
  | PJanitor | POpens _ | PMark _ | PSpawn _ _ _ | PWaits _ _ | PEnd _ | PDone _ => true
  | _ => false
  end.

Definition mains (T : list pc) : nat := length (filter (λ p, main p = true) T).

(** No slot, and no open in flight. *)
Definition drained (σ : Server) : Prop := sv_sessions σ = ∅ ∧ sv_openWG σ = 0.

(** A result that is not one of the two that give up on sessions. *)
Definition clean (r : option derr) : Prop := r ≠ Some ShutdownOpens ∧ r ≠ Some ShutdownSessions.

Definition awaited (σ : Server) (waits : list (string * nat)) : Prop :=
  (∀ k l, sv_sessions σ !! k = Some l → (k, l) ∈ waits) ∧ Forall (λ c, is_marker σ c.2) waits.

Definition phase (σ : Server) (p : pc) : Prop :=
  match p with
  | PShutWait | PJanitor | POpens _ => sv_closing σ = true
  | PMark _ => sv_closing σ = true ∧ sv_openWG σ = 0
  | PSpawn _ waits _ | PWaits _ waits => sv_closing σ = true ∧ sv_openWG σ = 0 ∧ awaited σ waits
  | PEnd r => sv_closing σ = true ∧ (clean r → drained σ)
  | PDone r => sv_closing σ = true ∧ (clean r → drained σ) ∧ sv_shutdownErr σ = r
  | _ => True
  end.

Record Sh (σ : Server) (T : list pc) : Prop := {
  sh_phase : Forall (phase σ) T;
  sh_main : mains T + Nat.b2n (sv_shutdownDone σ) = Nat.b2n (sv_closing σ);
  sh_done : sv_shutdownDone σ = true → clean (sv_shutdownErr σ) → drained σ
}.

Lemma Sh_perm σ T T' : T ≡ₚ T' → Sh σ T → Sh σ T'.
Proof. intros Hp []. split; [by rewrite <- Hp| |done]. unfold mains in *. by rewrite <- Hp. Qed.

Lemma mains_cons p T : mains (p :: T) = Nat.b2n (main p) + mains T.
Proof. unfold mains. rewrite filter_cons. case_decide as H; [by rewrite H|]. by destruct (main p). Qed.

Lemma mains_app T1 T2 : mains (T1 ++ T2) = mains T1 + mains T2.
Proof. unfold mains. by rewrite filter_app, length_app. Qed.

(** Steps that add no slot, and keep what [Shutdown] knows. *)
Record calm (σ σ' : Server) : Prop := {
  cm_closing : sv_closing σ = true → sv_closing σ' = true;
  cm_wg : sv_openWG σ = 0 → sv_openWG σ' = 0;
  cm_sess : ∀ k l, sv_sessions σ' !! k = Some l → sv_sessions σ !! k = Some l;
  cm_marker : ∀ l, is_marker σ l → is_marker σ' l;
  cm_err : sv_shutdownErr σ' = sv_shutdownErr σ
}.

Lemma calm_drained σ σ' : calm σ σ' → drained σ → drained σ'.
Proof.
  intros [] [Hs Hw]. split; [|auto]. apply map_empty. intros k. apply eq_None_not_Some. intros [l Hl].
  apply cm_sess0 in Hl. by rewrite Hs in Hl.
Qed.

Lemma calm_covered σ σ' w : calm σ σ' → awaited σ w → awaited σ' w.
Proof.
  intros [] [Hc Hm]. split; [by intros k l Hk; apply Hc, cm_sess0|].
  eapply Forall_impl; [exact Hm|]. intros c. apply cm_marker0.
Qed.

Lemma calm_phase σ σ' p : calm σ σ' → phase σ p → phase σ' p.
Proof.
  intros Hc. pose proof (calm_drained _ _ Hc). pose proof (λ w, calm_covered _ _ w Hc). destruct Hc.
  destruct p; simpl; try done; naive_solver congruence.
Qed.

(** Before the shutdown, nobody knows anything. *)
Lemma phase_before σ σ' p : sv_closing σ = false → phase σ p → phase σ' p.
Proof. intros Hc. destruct p; simpl; try done; naive_solver congruence. Qed.

(** ... and who is not the shutdown knows only that it began. *)
Lemma phase_other σ σ' p : main p = false → (sv_closing σ = true → sv_closing σ' = true) → phase σ p → phase σ' p.
Proof. destruct p; simpl; try done; naive_solver. Qed.

Lemma Sh_step σ σ' P P' R : Sh σ (P ++ R) →
  (∀ q, q ∈ R → phase σ q → phase σ' q) → Forall (phase σ') P' →
  mains P' + Nat.b2n (sv_shutdownDone σ') + Nat.b2n (sv_closing σ)
    = mains P + Nat.b2n (sv_shutdownDone σ) + Nat.b2n (sv_closing σ') →
  (sv_shutdownDone σ' = true → clean (sv_shutdownErr σ') → drained σ') →
  Sh σ' (P' ++ R).
Proof.
  intros [Hp Hm Hd] HR HP' Hc Hd'. rewrite mains_app in Hm. split; [|rewrite mains_app; lia|done].
  apply Forall_app in Hp as [_ HpR]. apply Forall_app. split; [done|]. rewrite Forall_forall in HpR |- *. auto.
Qed.

Lemma Sh_calm σ σ' p p' R : Sh σ (p :: R) → sv_closing σ = false ∨ calm σ σ' →
  main p = false → main p' = false → sv_closing σ' = sv_closing σ → sv_shutdownDone σ' = sv_shutdownDone σ →
  phase σ' p' → Sh σ' (p' :: R).
Proof.
  intros HS Hor Hp Hp' Hc Hd Hph. apply (Sh_step σ σ' [p] [p'] R HS).
  - intros q _. destruct Hor; [by apply phase_before|by apply calm_phase].
  - by constructor.
  - rewrite !mains_cons, Hp, Hp', Hc, Hd. done.
  - rewrite Hd. intros Hdone. destruct Hor as [Hcl|Hcm].
    + pose proof (sh_main _ _ HS). rewrite Hcl, Hdone in *. simpl in *. lia.
    + rewrite (cm_err _ _ Hcm). intros Hclean. eapply calm_drained, HS; done.
Qed.

Lemma Sh_same σ p p' R : Sh σ (p :: R) → main p = main p' → phase σ p' → Sh σ (p' :: R).
Proof.
  intros HS Hp Hph. apply (Sh_step σ σ [p] [p'] R HS); [done|by constructor| |apply HS].
  by rewrite !mains_cons, Hp.
Qed.

(** While one goroutine is the shutdown, no other is, and it has not ended. *)
Lemma main_alone σ p R : Sh σ (p :: R) → main p = true →
  sv_closing σ = true ∧ sv_shutdownDone σ = false ∧ ∀ q, q ∈ R → main q = false.
Proof.
  intros HS Hp. pose proof (sh_main _ _ HS) as Hm. rewrite mains_cons, Hp in Hm. simpl in Hm.
  destruct (sv_closing σ), (sv_shutdownDone σ); simpl in Hm; try lia. split_and!; [done..|].
  intros q Hq. destruct (main q) eqn:E; [|done]. exfalso.
  assert (q ∈ filter (λ p, main p = true) R) as Hf by (by apply list_elem_of_filter).
  unfold mains in Hm. destruct (filter (λ p, main p = true) R); [by apply not_elem_of_nil in Hf|simpl in Hm; lia].
Qed.

(** A step of the shutdown itself. *)
Lemma Sh_main σ σ' p P' R : Sh σ (p :: R) → main p = true → sv_closing σ' = true →
  Forall (phase σ') P' → mains P' + Nat.b2n (sv_shutdownDone σ') = 1 →
  (sv_shutdownDone σ' = true → clean (sv_shutdownErr σ') → drained σ') → Sh σ' (P' ++ R).
Proof.
  intros HS Hp Hc HP' Hm Hd. destruct (main_alone σ p R HS Hp) as (Hc0 & Hd0 & Hq).
  apply (Sh_step σ σ' [p] P' R HS); [|done| |done].
  - intros q HqR. by apply phase_other; [apply Hq|].
  - rewrite mains_cons, Hp, Hd0, Hc0, Hc. simpl. lia.
Qed.

(** ** Marking *)

(** An open slot refutes what a shutdown past its marking knows. *)
Lemma phase_mark σ k l sl m' p : sv_sessions σ !! k = Some l → sv_heap σ !! l = Some sl → isClosing sl = false →
  phase σ p → phase (markClosingLocked k m' σ).1 p.
Proof.
  intros Hk Hl Ho.
  assert (Hd : ¬ drained σ) by (intros [Hs _]; by rewrite Hs in Hk).
  assert (Hc : ∀ w, ¬ awaited σ w).
  { intros w [Hw Hm]. rewrite Forall_forall in Hm. destruct (Hm _ (Hw _ _ Hk)) as (sl' & Hl' & Hcl).
    simpl in Hl'. congruence. }
  destruct p; simpl; try done; naive_solver.
Qed.

Lemma Sh_mark σ k l sl m' p p' R : Sh σ (p :: R) →
  sv_sessions σ !! k = Some l → sv_heap σ !! l = Some sl → isClosing sl = false →
  main p = false → main p' = false → phase (markClosingLocked k m' σ).1 p' →
  Sh (markClosingLocked k m' σ).1 (p' :: R).
Proof.
  intros HS Hk Hl Ho Hp Hp' Hph. apply (Sh_step σ _ [p] [p'] R HS).
  - intros q _. by eapply phase_mark.
  - by constructor.
  - by rewrite !mains_cons, Hp, Hp'.
  - simpl. intros Hd Hcl. destruct (sh_done _ _ HS Hd Hcl) as [Hs _]. by rewrite Hs in Hk.
Qed.

Definition slots_of (mine : list (string * nat)) : list pc := (λ c, PSlot c.1 c.2) <$> mine.

Lemma slot_shape σ T k l : Core σ T → sv_sessions σ !! k = Some l →
  (slot_at σ l = reserved_slot ∧ k ∈ T ≫= busy)
  ∨ (∃ s id, sv_heap σ !! l = Some (mkSlot (Some s) id None None) ∧ slot_at σ l = mkSlot (Some s) id None None
       ∧ (id, s) ∈ sv_minted σ ∧ id ≠ "")
  ∨ (∃ s id, sv_heap σ !! l = Some (mkSlot (Some s) id (Some false) None)
       ∧ slot_at σ l = mkSlot (Some s) id (Some false) None ∧ (id, s) ∈ sv_minted σ).
Proof.
  intros HC Hk. destruct (co_slots _ _ HC k l Hk) as [[H ?]|[(s & id & H & ? & ? & ?)|(s & id & c & H & ? & ? & ?)]];
    rewrite (slot_at_lookup _ _ _ H); [by left|right; left|right; right]; by exists s, id.
Qed.

Lemma Core_shutdown_mark ks σ σ' waits mine R : Core σ R → shutdown_mark ks σ = (σ', waits, mine) →
  Core σ' (slots_of mine ++ R).
Proof.
  revert σ waits mine R. induction ks as [|k ks IH]; simpl; intros σ waits mine R HC E.
  { by injection E as <- <- <-. }
  destruct (sv_sessions σ !! k) as [l|] eqn:Hk; [|by eapply IH].
  destruct (slot_shape σ R k l HC Hk) as [[Hs _]|[(s & id & Hl & Hs & _)|(s & id & Hl & Hs & _)]]; rewrite Hs in E; simpl in E.
  - by eapply IH.
  - pose proof (Core_mark k l s id σ R HC Hk Hl) as HC1.
    unfold markClosingLocked in HC1, E. simpl in HC1, E.
    destruct (shutdown_mark ks _) as [[σ2 waits2] mine2] eqn:E2. injection E as <- <- <-.
    eapply Core_perm, IH; [|exact HC1|exact E2]. simpl. by rewrite <- Permutation_middle.
  - destruct (shutdown_mark ks σ) as [[σ2 waits2] mine2] eqn:E2. injection E as <- <- <-. by eapply IH.
Qed.

(** What the walk leaves: the same keys, each with a marker that is waited for. *)
Lemma shutdown_mark_covers ks σ σ' waits mine R : Core σ R → sv_openWG σ = 0 → NoDup ks →
  shutdown_mark ks σ = (σ', waits, mine) →
  (∀ k, k ∉ ks → sv_sessions σ' !! k = sv_sessions σ !! k)
  ∧ (∀ k l, k ∈ ks → sv_sessions σ' !! k = Some l → (k, l) ∈ waits)
  ∧ Forall (λ c, is_marker σ' c.2) waits ∧ (∀ l, is_marker σ l → is_marker σ' l)
  ∧ sv_openWG σ' = 0 ∧ sv_closing σ' = sv_closing σ ∧ sv_shutdownDone σ' = sv_shutdownDone σ
  ∧ sv_made σ' = sv_made σ ∧ sv_log σ' = sv_log σ.
Proof.
  revert σ waits mine R. induction ks as [|k ks IH]; simpl; intros σ waits mine R HC Hwg Hnd E.
  { injection E as <- <- <-. split_and!; try done. intros k l Hk. by apply not_elem_of_nil in Hk. }
  apply NoDup_cons in Hnd as [Hnk Hnd].
  destruct (sv_sessions σ !! k) as [l|] eqn:Hk.
  2: { destruct (IH _ _ _ _ HC Hwg Hnd E) as (H1 & H2 & H3). split_and!; [| |apply H3..].
       - intros k' Hk'. apply H1. set_solver.
       - intros k' l [->|Hk']%elem_of_cons Hl; [|by apply H2]. by rewrite H1, Hk in Hl. }
  destruct (slot_shape σ R k l HC Hk) as [[Hs Hb]|[(s & id & Hl & Hs & _)|(s & id & Hl & Hs & _)]]; rewrite Hs in E; simpl in E.
  - exfalso. pose proof (co_wg _ _ HC) as Hlen. rewrite Hwg in Hlen.
    destruct (R ≫= busy); [by apply not_elem_of_nil in Hb|done].
  - pose proof (Core_mark k l s id σ R HC Hk Hl) as HC1.
    unfold markClosingLocked in HC1, E. simpl in HC1, E.
    set (m := length (sv_heap σ)) in *.
    destruct (shutdown_mark ks _) as [[σ2 waits2] mine2] eqn:E2. injection E as <- <- <-.
    destruct (IH _ _ _ _ HC1 Hwg Hnd E2) as (H1 & H2 & H3 & H4 & H5). simpl in *.
    assert (Hm : is_marker σ2 m).
    { apply H4. exists (mkSlot (Some s) id (Some false) None). split; [|done]. simpl.
      by rewrite lookup_app_r, Nat.sub_diag by lia. }
    split_and!; [| |by constructor| |apply H5..].
    + intros k' Hk'. rewrite H1 by set_solver. rewrite lookup_insert_ne; [done|set_solver].
    + intros k' l' [->|Hk']%elem_of_cons Hl'; [|right; by apply H2].
      rewrite H1, lookup_insert_eq in Hl' by done. injection Hl' as <-. by left.
    + intros l' (sl & Hsl & Hcl). apply H4. exists sl. split; [|done]. simpl. by apply lookup_app_l_Some.
  - destruct (shutdown_mark ks σ) as [[σ2 waits2] mine2] eqn:E2. injection E as <- <- <-.
    destruct (IH _ _ _ _ HC Hwg Hnd E2) as (H1 & H2 & H3 & H4 & H5).
    split_and!; [| |constructor; [|done]|done|apply H5..].
    + intros k' Hk'. apply H1. set_solver.
    + intros k' l' [->|Hk']%elem_of_cons Hl'; [|right; by apply H2].
      rewrite H1, Hk in Hl' by done. injection Hl' as <-. by left.
    + apply H4. by eexists.
Qed.

(** ** The invariant *)

Definition Inv (σ : Server) (T : list pc) : Prop := Core σ T ∧ Sh σ T.

Lemma Inv_perm σ T T' : T ≡ₚ T' → Inv σ T → Inv σ T'.
Proof. intros Hp []. split; [by eapply Core_perm|by eapply Sh_perm]. Qed.

Lemma Inv_same σ p p' R : Inv σ (p :: R) → busy p' = busy p → closes p' = closes p → hands p' = hands p →
  (∀ s, has p s → has p' s) → main p = main p' → own σ p' → phase σ p' → Inv σ (p' :: R).
Proof. intros [HC HS] ????? Ho Hp. split; [by eapply Core_same|by eapply Sh_same]. Qed.

Lemma Inv_idle σ p p' R : Inv σ (p :: R) → idle p → idle p' → main p = main p' →
  own σ p' → phase σ p' → Inv σ (p' :: R).
Proof.
  intros HI Hp Hp' Hm Ho Hph. destruct (idle_busy _ Hp), (idle_busy _ Hp'). destruct Hp as (_ & ? & Hn), Hp' as (_ & ? & _).
  eapply Inv_same; [exact HI|congruence|congruence|congruence| |done..]. intros s Hs. by destruct (Hn s).
Qed.

Lemma calm_sess σ σ' : sv_heap σ' = sv_heap σ → sv_openWG σ' = sv_openWG σ ∨ sv_openWG σ' = pred (sv_openWG σ) →
  (∀ k l, sv_sessions σ' !! k = Some l → sv_sessions σ !! k = Some l) → sv_closing σ' = sv_closing σ →
  sv_shutdownErr σ' = sv_shutdownErr σ → calm σ σ'.
Proof.
  intros Eh Ew Es Ec Ee. split; try done.
  - by rewrite Ec.
  - intros H. rewrite H in Ew. by destruct Ew.
  - intros l. unfold is_marker. by rewrite Eh.
Qed.

Lemma marker_at σ T k l : Core σ T → sv_sessions σ !! k = Some l → isClosing (slot_at σ l) = true → is_marker σ l.
Proof.
  intros HC Hk Hc. destruct (slot_shape σ T k l HC Hk) as [[Hs _]|[(s & id & Hl & Hs & _)|(s & id & Hl & Hs & _)]];
    rewrite Hs in Hc; try discriminate Hc. by eexists.
Qed.

Lemma Inv_open now c db br σ R σ' p' new : Inv σ (POpen db br :: R) →
  step now c (POpen db br) σ = Some (σ', p', new) → Inv σ' (p' :: new ++ R).
Proof.
  intros HI E. destruct c; try discriminate E. simpl in E.
  destruct (opOpen_check (key db br) σ) as [e|m|] eqn:Ec.
  - injection E as <- <- <-. eapply Inv_idle; [exact HI|solve_idle..|done|done|done].
  - injection E as <- <- <-. eapply Inv_idle; [exact HI|solve_idle..|done| |done]. simpl.
    unfold opOpen_check in Ec. repeat case_match; simplify_eq. destruct HI as [HC _].
    eapply marker_at; [exact HC|done|]. by apply negb_false_iff.
  - destruct HI as [HC HS]. unfold opOpen_check in Ec. destruct (sv_closing σ) eqn:Hc; [done|].
    destruct (sv_sessions σ !! key db br) eqn:Hk; [by destruct (negb _)|].
    pose proof (Core_reserve db br σ R HC Hc Hk) as HC'. unfold opOpen_reserve in *. simpl in *.
    injection E as <- <- <-. split; [done|]. eapply Sh_calm; [exact HS|by left|done..].
Qed.

Lemma Inv_opening now c p σ R σ' p' new : Inv σ (p :: R) → busy p ≠ [] →
  step now c p σ = Some (σ', p', new) → Inv σ' (p' :: new ++ R).
Proof.
  intros [HC HS] Hb E. destruct p; simpl in Hb; try done; destruct c; try discriminate E; simpl in E.
  - (* PRun, Open succeeds *)
    pose proof (Core_opened now db br l holder epoch σ R HC) as HC'.
    injection E as <- <- <-. split; [done|].
    eapply Sh_calm; [exact HS|right|done..]. apply calm_sess; simpl; auto.
  - injection E as <- <- <-. eapply Inv_same; [by split|done|done|done|done|done|apply (Core_own _ _ _ HC)|done].
  - injection E as <- <- <-. eapply Inv_same; [by split|done|done|done|done|done|apply (Core_own _ _ _ HC)|done].
  - injection E as <- <- <-. split; [by eapply Core_failed|].
    destruct (sv_recordOrphan (key db br) (Some e) σ) as (E1 & E2 & E3 & E4 & E5 & E6 & E7 & E8 & E9).
    eapply Sh_calm; [exact HS|right|done..]. apply calm_sess; simpl; rewrite ?E1, ?E2, ?E3, ?E7, ?E9; auto.
    intros k l'. rewrite lookup_delete_Some. by intros [_ ?].
  - destruct (sv_closing σ) eqn:Hc; [|done]. injection E as <- <- <-. split; [by eapply Core_self|].
    eapply Sh_calm; [exact HS|right|done..]. apply calm_sess; simpl; auto.
    intros k l'. rewrite lookup_delete_Some. by intros [_ ?].
  - destruct (sv_closing σ) eqn:Hc; [done|]. simpl in E. do 2 (case_bool_decide; [done|]). simpl in E.
    injection E as <- <- <-. split; [by eapply Core_install|].
    eapply Sh_calm; [exact HS|by left|done..].
  - pose proof (Core_self_close db br s e σ R HC) as HC'.
    destruct (Core_own _ _ _ HC) as (_ & _ & Hs). rewrite (session_Close_live _ _ _ _ Hs) in HC', E.
    injection E as <- <- <-. split; [done|].
    eapply Sh_calm; [exact HS|right|done..]. apply calm_sess; simpl; auto.
  - injection E as <- <- <-. split; [by eapply Core_self_end|].
    eapply Sh_calm; [exact HS|right|done..]. apply calm_sess; simpl; auto.
Qed.

Lemma Inv_close now c k id σ R σ' p' new : Inv σ (PClose k id :: R) →
  step now c (PClose k id) σ = Some (σ', p', new) → Inv σ' (p' :: new ++ R).
Proof.
  intros HI E. destruct c; try discriminate E. simpl in E. unfold opClose_step in E.
  assert (Hret : ∀ r, Inv σ (PRet r :: R)).
  { intros r. eapply Inv_idle; [exact HI|solve_idle..|done|done|done]. }
  destruct (sv_sessions σ !! k) as [l|] eqn:Hk; [|injection E as <- <- <-; apply Hret].
  destruct (isReserved (slot_at σ l) || _) eqn:Hr; [injection E as <- <- <-; apply Hret|].
  apply orb_false_iff in Hr as [Hr _].
  destruct (isClosing (slot_at σ l)) eqn:Hc.
  { injection E as <- <- <-. eapply Inv_idle; [exact HI|solve_idle..|done| |done]. destruct HI as [HC _].
    by eapply marker_at. }
  assert (HC0 : Core σ R) by (eapply Core_drop, HI; solve_idle). destruct HI as [HC HS].
  destruct (slot_shape σ R k l HC0 Hk) as [[Hs _]|[(s & i & Hl & Hs & _)|(s & i & Hl & Hs & _)]];
    rewrite Hs in Hr, Hc, E; try discriminate. 
  pose proof (Core_mark k l s i σ R HC0 Hk Hl) as HC'.
  pose proof (Sh_mark σ k l _ (mkSlot (Some s) i None None) (PClose k id) (PSlot k (length (sv_heap σ))) R HS Hk Hl eq_refl eq_refl eq_refl I) as HS'.
  unfold markClosingLocked in *. simpl in *. injection E as <- <- <-. by split.
Qed.

Lemma Inv_closing now c p σ R σ' p' new : Inv σ (p :: R) →
  match p with PSlot _ _ | PSlotEnd _ _ _ => True | _ => False end →
  step now c p σ = Some (σ', p', new) → Inv σ' (p' :: new ++ R).
Proof.
  intros [HC HS] Hp E. destruct p as [| | | | | | | | | |k m|k m err| | | | | | | | | |]; try done;
    destruct c; try discriminate E; simpl in E.
  - pose proof (Core_close k m e σ R HC) as HC'.
    destruct (Core_own _ _ _ HC) as (s & id & Hk & Hm & Hs & _).
    rewrite (slot_at_lookup _ _ _ Hm) in HC', E. simpl in HC', E. rewrite (session_Close_live _ _ _ _ Hs) in HC', E.
    injection E as <- <- <-. split; [done|].
    eapply Sh_calm; [exact HS|right|done..]. apply calm_sess; simpl; auto.
  - injection E as <- <- <-. split; [by apply Core_end|]. pose proof (Core_own _ _ _ HC) as Hmk. simpl in Hmk.
    pose proof (frame_end now k m err σ _ HC Hmk) as F. destruct Hmk as (s & id & Hk & Hm & _).
    destruct (closeSlot_end_fields now k m err σ s id Hk Hm) as (Es & _ & _ & Ew & _ & _ & _ & Ec & Ed & Ee).
    eapply Sh_calm; [exact HS|right|done..]. split; [by rewrite Ec|by rewrite Ew| |apply F|done].
    intros k' l. rewrite Es, lookup_delete_Some. by intros [_ ?].
Qed.

(** Everything that was waited for is closed: no slot is left. *)
Lemma waits_drained σ T waits : Core σ T → sv_openWG σ = 0 → awaited σ waits →
  forallb (λ c, closed_chan (slot_at σ c.2)) waits = true → drained σ.
Proof.
  intros HC Hwg [Hcov _] Hall. split; [|done]. apply map_empty. intros k. apply eq_None_not_Some. intros [l Hk].
  rewrite forallb_forall in Hall. specialize (Hall (k, l)). rewrite <- list_elem_of_In in Hall.
  specialize (Hall (Hcov k l Hk)). unfold closed_chan in Hall. apply bool_decide_eq_true in Hall. simpl in Hall.
  destruct (slot_shape σ T k l HC Hk) as [[Hs _]|[(s & i & _ & Hs & _)|(s & i & _ & Hs & _)]];
    rewrite Hs in Hall; discriminate Hall.
Qed.

Lemma Inv_shutdown now c p σ R σ' p' new : Inv σ (p :: R) →
  main p = true → step now c p σ = Some (σ', p', new) → Inv σ' (p' :: new ++ R).
Proof.
  intros [HC HS] Hp E. destruct (main_alone σ p R HS Hp) as (Hcl & Hd & _).
  pose proof (sh_phase _ _ HS) as Hph. apply Forall_cons in Hph as [Hph _].
  assert (Hsame : ∀ p', idle p → idle p' → main p' = true → own σ p' → phase σ p' → Inv σ (p' :: [] ++ R)).
  { intros q Hi Hi' Hm Ho Hq. eapply Inv_idle; [by split|done|done|by rewrite Hp|done|done]. }
  destruct p as [| | | | | | | | | | | | | |jerr|jerr|jerr|jerr waits mine|jerr waits|r|r|]; try done;
    destruct c; try discriminate E; simpl in E, Hph.
  - injection E as <- <- <-. apply Hsame; [solve_idle..|done|done|done].
  - injection E as <- <- <-. apply Hsame; [solve_idle..|done|done|done].
  - case_bool_decide as Hw; [|done]. injection E as <- <- <-. apply Hsame; [solve_idle..|done|done|done].
  - injection E as <- <- <-. apply Hsame; [solve_idle..|done|done|]. split; [done|]. by intros [].
  - (* marking *)
    case_bool_decide as Hks; [|done].
    destruct (shutdown_mark ks σ) as [[σ1 waits] mine] eqn:Em. injection E as <- <- <-.
    destruct Hph as [_ Hwg]. assert (HC0 : Core σ R) by (eapply Core_drop, HC; solve_idle).
    assert (Hnd : NoDup ks) by (rewrite Hks; apply NoDup_fst_map_to_list).
    destruct (shutdown_mark_covers ks σ σ1 waits mine R HC0 Hwg Hnd Em) as (H1 & H2 & H3 & _ & H5 & H6 & H7 & _).
    pose proof (Core_shutdown_mark ks σ σ1 waits mine R HC0 Em) as HC1.
    split.
    + apply (Core_regroup σ1 (slots_of mine) [PSpawn jerr waits mine] R HC1); simpl.
      * clear. unfold slots_of. induction mine as [|[k m] mine IH]; simpl; [done|]. by rewrite <- IH.
      * clear. unfold slots_of. induction mine as [|[k m] mine IH]; simpl; [done|]. by rewrite <- IH.
      * clear. unfold slots_of, keys. simpl. induction mine as [|[k m] mine IH]; simpl; [done|]. by rewrite <- IH.
      * clear. unfold slots_of. induction mine as [|[k m] mine IH]; simpl; [done|]. by rewrite <- IH.
      * intros q s (cc & -> & _)%list_elem_of_fmap []. 
      * constructor; [|done]. simpl. pose proof (co_own _ _ HC1) as Ho. apply Forall_app in Ho as [Ho _].
        unfold slots_of in Ho. by rewrite Forall_fmap in Ho.
    + eapply (Sh_main σ σ1 _ [_] R HS); [done|by rewrite H6| |by rewrite H7, Hd|by rewrite H7, Hd].
      constructor; [|done]. simpl. split_and!; [by rewrite H6|done|]. split; [|done].
      intros k l Hk. destruct (decide (k ∈ ks)) as [Hin|Hin]; [by apply H2|]. rewrite H1 in Hk by done.
      destruct Hin. rewrite Hks. apply list_elem_of_fmap. exists (k, l). split; [done|]. by apply elem_of_map_to_list.
  - (* spawning *)
    injection E as <- <- <-. split.
    + change (PWaits jerr waits :: ((λ c, PSlot c.1 c.2) <$> mine) ++ R) with ((PWaits jerr waits :: slots_of mine) ++ R).
      apply (Core_regroup σ [PSpawn jerr waits mine] _ R HC); simpl.
      * clear. unfold slots_of. induction mine as [|[k m] mine IH]; simpl; [done|]. by rewrite IH.
      * clear. unfold slots_of. induction mine as [|[k m] mine IH]; simpl; [done|]. by rewrite IH.
      * clear. unfold slots_of, keys. simpl. induction mine as [|[k m] mine IH]; simpl; [done|]. by rewrite IH.
      * clear. unfold slots_of. induction mine as [|[k m] mine IH]; simpl; [done|]. by rewrite IH.
      * by intros q s ->%list_elem_of_singleton.
      * constructor; [done|]. pose proof (Core_own _ _ _ HC) as Ho. simpl in Ho. unfold slots_of. by rewrite Forall_fmap.
    + change (PWaits jerr waits :: ((λ c, PSlot c.1 c.2) <$> mine) ++ R) with ((PWaits jerr waits :: slots_of mine) ++ R).
      eapply (Sh_main σ σ _ _ R HS); [done|done| | |by rewrite Hd].
      * constructor; [done|]. unfold slots_of. rewrite Forall_fmap. by apply Forall_true.
      * rewrite Hd, mains_cons. clear. unfold slots_of. induction mine as [|[k m] mine IH]; simpl; [done|].
        rewrite mains_cons. done.
  - destruct (forallb _ waits) eqn:Hall; [|done]. injection E as <- <- <-.
    apply Hsame; [solve_idle..|done|done|]. destruct Hph as (_ & Hwg & Hcov). split; [done|]. intros _.
    by eapply waits_drained.
  - injection E as <- <- <-. apply Hsame; [solve_idle..|done|done|]. split; [done|]. by intros [].
  - injection E as <- <- <-. split.
    + apply (Core_aside σ); [|done..]. eapply Core_add; [solve_idle|done|]. eapply Core_drop, HC. solve_idle.
    + eapply (Sh_main σ _ _ [_] R HS); [done|done| |simpl; by rewrite Hd|simpl; by rewrite Hd].
      constructor; [|done]. destruct Hph. simpl. by split_and!.
  - injection E as <- <- <-. split.
    + apply (Core_aside σ); [|done..]. eapply Core_add; [solve_idle|done|]. eapply Core_drop, HC. solve_idle.
    + destruct Hph as (? & Hdr & He). eapply (Sh_main σ _ _ [_] R HS); [done|done|by constructor|done|].
      simpl. rewrite He. done.
Qed.

Lemma Inv_step now c p σ R σ' p' new : Inv σ (p :: R) →
  step now c p σ = Some (σ', p', new) → Inv σ' (p' :: new ++ R).
Proof.
  intros HI E. destruct (decide (busy p = [])) as [Hb|Hb]; [|by eapply Inv_opening].
  destruct (main p) eqn:Hm; [by eapply Inv_shutdown|].
  destruct p as [db br|db br m parked| | | | | | |k id|k m parked|k m|k m err| | | | | | | | | |r]; try done.
  - by eapply Inv_open.
  - pose proof HI as [HC HS]. pose proof (Core_own _ _ _ HC) as Ho.
    destruct c; destruct parked; try discriminate E; simpl in E; repeat case_match; simplify_eq;
      (eapply Inv_idle; [exact HI|solve_idle..|done|done|done]).
  - by eapply Inv_close.
  - pose proof HI as [HC HS]. pose proof (Core_own _ _ _ HC) as Ho.
    destruct c; destruct parked; try discriminate E; simpl in E; repeat case_match; simplify_eq;
      (eapply Inv_idle; [exact HI|solve_idle..|done|done|done]).
  - by eapply Inv_closing.
  - by eapply Inv_closing.
  - destruct c; try discriminate E. simpl in E. destruct (sv_closing σ) eqn:Hc.
    + injection E as <- <- <-. eapply Inv_idle; [exact HI|solve_idle..|done|done|done].
    + injection E as <- <- <-. destruct HI as [HC HS]. split.
      * apply (Core_aside σ); [|done..]. eapply Core_add; [solve_idle|done|]. eapply Core_drop, HC. solve_idle.
      * pose proof (sh_main _ _ HS) as Hn. rewrite Hc in Hn. simpl in Hn.
        assert (Hd : sv_shutdownDone σ = false) by (destruct (sv_shutdownDone σ); simpl in Hn; [lia|done]).
        apply (Sh_step σ (set_closing σ) [PShut] [PJanitor] R HS); simpl; [|by constructor|by rewrite Hc, Hd|by rewrite Hd].
        intros q _. by apply phase_before.
  - destruct HI as [HC HS]. destruct c; try discriminate E; simpl in E; repeat case_match; simplify_eq;
      (eapply Inv_idle; [by split|solve_idle..|done|done|done]).
Qed.

(** ** Reachable states *)

Lemma Inv_started : Inv NewServer [].
Proof.
  split; split; simpl; try done; try constructor.
  exists ∅. split; [done|]. intros k. split; [|done].
  intros s [(l & sl & H & _)|H]; [simpl in H; by rewrite lookup_empty in H|by apply not_elem_of_nil in H].
Qed.

Definition daemon_inv (d : daemon) : Prop := Inv (d_server d) (d_threads d).

Lemma threads_split (T : list pc) i p : T !! i = Some p →
  T ≡ₚ p :: delete i T ∧ ∀ q, <[i := q]> T ≡ₚ q :: delete i T.
Proof.
  intros H. split; [by apply delete_Permutation|]. intros q.
  rewrite insert_take_drop by (by eapply lookup_lt_Some).
  by rewrite delete_take_drop, <- Permutation_middle.
Qed.

Lemma move_inv m d d' : daemon_inv d → do_move m d = Some d' → daemon_inv d'.
Proof.
  unfold daemon_inv. intros HI E. destruct m as [now i c|p|now s event kv]; simpl in E.
  - destruct (d_threads d !! i) as [p|] eqn:Hi; [|done].
    destruct (step now c p (d_server d)) as [[[σ' p'] new]|] eqn:Es; [|done]. injection E as <-. simpl.
    destruct (threads_split _ _ _ Hi) as [H1 H2].
    apply (Inv_perm _ _ _ H1) in HI. eapply Inv_perm, Inv_step; [|exact HI|exact Es].
    rewrite H2. simpl. by rewrite (Permutation_app_comm new).
  - destruct (may_start (d_server d) p) eqn:Hp; [|done]. injection E as <-. simpl.
    eapply Inv_perm; [apply Permutation_app_comm|]. simpl. destruct HI as [HC HS].
    assert (Hi : idle p ∧ own (d_server d) p ∧ phase (d_server d) p ∧ main p = false).
    { destruct p; try done; simpl in Hp; (split_and!; [solve_idle|done|done|done]). }
    destruct Hi as (Hi & Ho & Hph & Hm). split; [by apply Core_add|].
    apply (Sh_step _ _ [] [p] _ HS); [done|by constructor| |apply HS]. by rewrite mains_cons, Hm.
  - destruct (own_transition event && _) eqn:Ho; [|done]. apply andb_true_iff in Ho as [Ho _].
    destruct (publishTransitionEvent _ _ _ _ _) as [ev|] eqn:Ep; [|by injection E as <-].
    injection E as <-. simpl. destruct HI as [HC HS]. split.
    + eapply Core_aside; [exact HC|done..| |done]. simpl. rewrite track_snoc.
      unfold publishTransitionEvent in Ep. destruct (sessionEventType event) as [typ|] eqn:Et; [|done].
      injection Ep as <-. unfold track_event. destruct (track (sv_log (d_server d))) as [m|]; [|done]. simpl.
      unfold own_transition in Ho. unfold sessionEventType in Et.
      repeat case_bool_decide; simplify_eq; done.
    + rewrite <- (app_nil_l (d_threads d)) in HS |- *.
      apply (Sh_step _ _ [] [] _ HS); [|done|done|apply HS].
      intros q _. apply calm_phase. by apply calm_sess; auto.
Qed.

Lemma reachable_inv d : reachable d → daemon_inv d.
Proof.
  intros (ms & Hms). assert (HI : daemon_inv started) by apply Inv_started.
  revert HI Hms. generalize started as d0. induction ms as [|m ms IH]; simpl; intros d0 HI Hms.
  - by injection Hms as <-.
  - destruct (do_move m d0) as [d1|] eqn:Em; [|done]. eapply IH; [|exact Hms]. by eapply move_inv.
Qed.

(** ** Every request is answered

    No reachable state is stuck: if a goroutine has not returned, some goroutine
    can move without a timer ([can_go]).  And no run is endless: a measure falls at
    every step.  Together, [settles]: under every schedule, all requests end
    answered. *)

(** ** Nobody waits for nothing *)

Definition answered (p : pc) : bool := match p with PRet _ => true | _ => false end.

(** [p] has a step that is not the firing of a timer. *)
Definition can_step (σ : Server) (p : pc) : Prop := ∃ c, c ≠ Timeout ∧ ∀ now, is_Some (step now c p σ).

Definition fresh_id (σ : Server) : string := fresh ("" :: (sv_minted σ).*1).

Lemma busy_enabled σ p : busy p ≠ [] → can_step σ p.
Proof.
  destruct p; simpl; try done; intros _.
  - by exists (OpenErr (mkSerr "" [] false None)).
  - by exists (RefRead None).
  - by exists Go.
  - destruct (sv_closing σ) eqn:Hc.
    + exists Go. split; [done|]. intros now. simpl. by rewrite Hc.
    + exists (MintID (fresh_id σ)). split; [done|]. intros now. simpl. rewrite Hc. simpl.
      pose proof (infinite_is_fresh ("" :: (sv_minted σ).*1)) as Hf. fold (fresh_id σ) in Hf.
      apply not_elem_of_cons in Hf as [H1 H2]. by rewrite !bool_decide_eq_false_2.
  - exists (CloseRes None). split; [done|]. intros now. simpl. by destruct (session_Close s None σ).
  - by exists Go.
Qed.

Lemma closes_enabled σ p : closes p ≠ [] → can_step σ p.
Proof.
  destruct p; simpl; try done; intros _.
  - exists (CloseRes None). split; [done|]. intros now. simpl. by destruct (session_Close _ None σ).
  - by exists Go.
  - by exists Go.
Qed.

Lemma bind_nonempty {A} (f : pc → list A) T x : x ∈ T ≫= f → ∃ p, p ∈ T ∧ f p ≠ [].
Proof. intros (p & Hp & Hx)%bind_elem. exists p. split; [done|]. intros E. rewrite E in Hx. by apply not_elem_of_nil in Hx. Qed.

(** A marker that is not done has its closer at work. *)
Lemma marker_progress σ T m : Core σ T → is_marker σ m → closed_chan (slot_at σ m) = false →
  ∃ p, p ∈ T ∧ can_step σ p.
Proof.
  intros HC (sl & Hm & Hc) Hd. rewrite (slot_at_lookup _ _ _ Hm) in Hd. unfold closed_chan in Hd.
  apply bool_decide_eq_false in Hd. unfold isClosing in Hc. apply bool_decide_eq_true in Hc as [b Hb].
  assert (sl_done sl = Some false) as Hf by (destruct b; congruence).
  destruct (co_undone _ _ HC m sl Hm Hf) as (k & Hk).
  destruct (co_slots _ _ HC k m Hk) as [[H _]|[(s & id & H & _)|(s & id & c & H & _ & _ & Hin)]];
    rewrite Hm in H; injection H as ->; try discriminate Hf.
  apply bind_nonempty in Hin as (p & Hp & Hne). exists p. split; [done|by apply closes_enabled].
Qed.

Lemma main_progress σ T p : Inv σ T → p ∈ T → main p = true → ∃ q, q ∈ T ∧ can_step σ q.
Proof.
  intros [HC HS] Hp Hm. pose proof (sh_phase _ _ HS) as Hph. rewrite Forall_forall in Hph. specialize (Hph p Hp).
  destruct p as [| | | | | | | | | | | | | |jerr|jerr|jerr|jerr waits mine|jerr waits|r|r|]; try done; simpl in Hph.
  - exists PJanitor. split; [done|]. by exists Go.
  - destruct (sv_openWG σ) as [|n] eqn:Hw.
    + exists (POpens jerr). split; [done|]. exists Go. split; [done|]. intros now. simpl. by rewrite Hw.
    + destruct (T ≫= busy) as [|k ks] eqn:Hb; [by rewrite (co_wg _ _ HC), Hb in Hw|].
      destruct (bind_nonempty busy T k) as (q & Hq & Hne); [rewrite Hb; by left|].
      exists q. split; [done|by apply busy_enabled].
  - exists (PMark jerr). split; [done|]. exists (Order (map_to_list (sv_sessions σ)).*1). split; [done|].
    intros now. simpl. rewrite bool_decide_eq_true_2 by done. by destruct (shutdown_mark _ σ) as [[??]?].
  - exists (PSpawn jerr waits mine). split; [done|]. by exists Go.
  - destruct (forallb (λ c, closed_chan (slot_at σ c.2)) waits) eqn:Hall.
    + exists (PWaits jerr waits). split; [done|]. exists Go. split; [done|]. intros now. simpl. by rewrite Hall.
    + destruct Hph as (_ & _ & _ & Hmk). rewrite Forall_forall in Hmk.
      assert (∃ c, c ∈ waits ∧ closed_chan (slot_at σ c.2) = false) as (c & Hc & Hcl).
      { clear -Hall. induction waits as [|c w IH]; [done|]. simpl in Hall. apply andb_false_iff in Hall as [H|H].
        - exists c. split; [by left|done].
        - destruct (IH H) as (c' & ? & ?). exists c'. split; [by right|done]. }
      by eapply marker_progress; [exact HC|apply Hmk|].
  - exists (PEnd r). split; [done|]. by exists Go.
  - exists (PDone r). split; [done|]. by exists Go.
Qed.

Lemma progress σ T p : Inv σ T → p ∈ T → answered p = false → ∃ q, q ∈ T ∧ can_step σ q.
Proof.
  intros HI Hp Ha. pose proof HI as [HC HS]. pose proof (co_own _ _ HC) as Ho. rewrite Forall_forall in Ho. specialize (Ho p Hp).
  destruct (decide (busy p = [])) as [Hb|Hb]; [|exists p; split; [done|by apply busy_enabled]].
  destruct (decide (closes p = [])) as [Hcl|Hcl]; [|exists p; split; [done|by apply closes_enabled]].
  destruct (main p) eqn:Hm; [by eapply main_progress|].
  destruct p as [db br|db br m parked| | | | | | |k id|k m parked| | | | | | | | | | | |r]; try done; simpl in Ho.
  - exists (POpen db br). split; [done|]. exists Go. split; [done|]. intros now. simpl. by destruct (opOpen_check _ σ).
  - destruct (closed_chan (slot_at σ m)) eqn:Hd; [|by eapply marker_progress].
    exists (POpenWait db br m parked). split; [done|]. exists Go. split; [done|]. intros now. destruct parked; simpl; by rewrite Hd.
  - exists (PClose k id). split; [done|]. exists Go. split; [done|]. intros now. simpl. by destruct (opClose_step k id σ).
  - destruct (closed_chan (slot_at σ m)) eqn:Hd; [|by eapply marker_progress].
    exists (PCloseWait k m parked). split; [done|]. exists Go. split; [done|]. intros now. destruct parked; simpl; by rewrite Hd.
  - exists PShut. split; [done|]. exists Go. split; [done|]. intros now. simpl. by destruct (sv_closing σ).
  - (* WaitShutdown *)
    destruct (sv_shutdownDone σ) eqn:Hd.
    + exists PShutWait. split; [done|]. exists Go. split; [done|]. intros now. simpl; by rewrite Hd.
    + pose proof (sh_phase _ _ HS) as Hph. rewrite Forall_forall in Hph. specialize (Hph _ Hp). simpl in Hph.
      pose proof (sh_main _ _ HS) as Hn. rewrite Hd, Hph in Hn. simpl in Hn. unfold mains in Hn.
      destruct (filter (λ p, main p = true) T) as [|q T'] eqn:Hf; [simpl in Hn; lia|].
      assert (q ∈ filter (λ p, main p = true) T) as Hq by (rewrite Hf; by left).
      apply list_elem_of_filter in Hq as [? ?]. by eapply main_progress.
Qed.

(** ** No run is endless *)

Definition live_count (σ : Server) : nat := length (filter (λ x, ss_closed x = false) (sv_made σ)).

(** A goroutine that may yet open a session, or still has one to let go of. *)
Definition pending (p : pc) : nat :=
  match p with POpen _ _ | POpenWait _ _ _ _ | PRun _ _ _ | PSlotEnd _ _ _ => 1 | _ => 0 end.

Definition closings (σ : Server) (T : list pc) : nat := sum_list_with pending T + live_count σ.

(** How far a goroutine is from its return, when [n] more closes may end before. *)
Definition weight (σ : Server) (n : nat) (p : pc) : nat :=
  match p with
  | POpen _ _ => 4 * n + 21
  | POpenWait _ _ m parked =>
      if closed_chan (slot_at σ m) then 4 * n + 22 else if parked then 4 * n + 19 else 4 * n + 20
  | PShut => 12
  | PShutWait => 11
  | PRun _ _ _ | PJanitor => 10
  | PRefuse _ _ _ _ | PGot _ _ _ _ | POpens _ => 9
  | PFailed _ _ _ _ _ | PSelf _ _ _ | PMark _ => 8
  | PSelfClosed _ _ _ _ => 7
  | PClose _ _ => 6
  | PSpawn _ _ mine => 5 + 3 * length mine
  | PCloseWait _ _ parked => if parked then 4 else 5
  | PWaits _ _ => 4
  | PSlot _ _ | PEnd _ => 3
  | PSlotEnd _ _ _ | PDone _ => 2
  | PRet _ => 0
  end.

Definition weights (σ : Server) (n : nat) (T : list pc) : nat := sum_list_with (weight σ n) T.
Definition unmarked (p : pc) : nat :=
  match p with PShut | PJanitor | POpens _ | PMark _ => 1 | _ => 0 end.
Definition shutdowns (T : list pc) : nat := sum_list_with unmarked T.

(** A step that costs: the closes to come do not get more, and [new] weighs less
    than [p]; a channel may have closed only if there is one close less to come. *)
Lemma weights_fall σ σ' p new R :
  closings σ' (new ++ R) ≤ closings σ (p :: R) →
  (closings σ' (new ++ R) < closings σ (p :: R) ∨ ∀ m, closed_chan (slot_at σ' m) = closed_chan (slot_at σ m)) →
  weights σ' (closings σ' (new ++ R)) new < weight σ (closings σ (p :: R)) p →
  weights σ' (closings σ' (new ++ R)) (new ++ R) < weights σ (closings σ (p :: R)) (p :: R).
Proof.
  intros Hn Hor Hp. set (n' := closings σ' (new ++ R)) in *. set (n := closings σ (p :: R)) in *. clearbody n n'.
  assert (weights σ' n' R ≤ weights σ n R) as HR.
  { unfold weights. clear Hp. induction R as [|q R IH]; simpl; [lia|].
    assert (weight σ' n' q ≤ weight σ n q); [|lia].
    destruct q; simpl; try lia. destruct Hor as [Hlt|Hs].
    - destruct (closed_chan (slot_at σ' m)), (closed_chan (slot_at σ m)), parked; lia.
    - rewrite Hs. destruct (closed_chan (slot_at σ m)), parked; lia. }
  unfold weights in *. rewrite sum_list_with_app. simpl. lia.
Qed.

Lemma live_shut σ s k : sess_is σ s k false → live_count σ = S (live_count (set_made (alter shut s) σ)).
Proof.
  intros (x & Hx & _ & Hc). unfold live_count. simpl. revert s Hx.
  induction (sv_made σ) as [|y made IH]; intros s Hx; [done|]. destruct s as [|s]; simpl in Hx.
  - injection Hx as ->. simpl. rewrite !filter_cons, decide_True, decide_False by done. done.
  - simpl. rewrite !filter_cons. case_decide; simpl; by rewrite (IH s).
Qed.

Lemma chan_put k sl σ m : sl_done sl ≠ Some true →
  closed_chan (slot_at (put_slot k sl σ).1 m) = closed_chan (slot_at σ m).
Proof.
  intros Hd. unfold slot_at. simpl. destruct (decide (m < length (sv_heap σ))) as [Hlt|Hge].
  - by rewrite lookup_app_l.
  - rewrite lookup_app_r, (lookup_ge_None_2 (sv_heap σ) m) by lia.
    destruct (m - length (sv_heap σ)); simpl; [|done]. unfold closed_chan. by rewrite bool_decide_eq_false_2.
Qed.

(** The case analysis shared by all steps: [d] closes fewer to come. *)
Lemma falls σ σ' p p' new R :
  sum_list_with unmarked (p' :: new) ≤ unmarked p →
  sum_list_with pending (p' :: new) + live_count σ' ≤ pending p + live_count σ →
  (sum_list_with pending (p' :: new) + live_count σ' < pending p + live_count σ
   ∨ ∀ m, closed_chan (slot_at σ' m) = closed_chan (slot_at σ m)) →
  (∀ n n', (n' ≤ n ∧ (n' < n ∨ ∀ m, closed_chan (slot_at σ' m) = closed_chan (slot_at σ m))) →
     sum_list_with (weight σ' n') (p' :: new) < weight σ n p) →
  shutdowns (p' :: new ++ R) ≤ shutdowns (p :: R)
  ∧ weights σ' (closings σ' (p' :: new ++ R)) (p' :: new ++ R) < weights σ (closings σ (p :: R)) (p :: R).
Proof.
  intros Hu Hn Hor Hw. split.
  - unfold shutdowns. simpl in *. rewrite sum_list_with_app. lia.
  - assert (Hn' : closings σ' ((p' :: new) ++ R) ≤ closings σ (p :: R)).
    { unfold closings. simpl in *. rewrite sum_list_with_app. lia. }
    assert (Hor' : closings σ' ((p' :: new) ++ R) < closings σ (p :: R)
      ∨ ∀ m, closed_chan (slot_at σ' m) = closed_chan (slot_at σ m)).
    { destruct Hor as [Hlt|]; [left|by right]. unfold closings. simpl in *. rewrite sum_list_with_app. lia. }
    apply (weights_fall σ σ' p (p' :: new) R Hn' Hor'). by apply Hw.
Qed.

Lemma falls_same σ p p' new R :
  sum_list_with unmarked (p' :: new) ≤ unmarked p → sum_list_with pending (p' :: new) ≤ pending p →
  (∀ n n', n' ≤ n → sum_list_with (weight σ n') (p' :: new) < weight σ n p) →
  shutdowns (p' :: new ++ R) ≤ shutdowns (p :: R)
  ∧ weights σ (closings σ (p' :: new ++ R)) (p' :: new ++ R) < weights σ (closings σ (p :: R)) (p :: R).
Proof. intros Hu Hn Hw. apply falls; [done|lia|by right|]. intros n n' [Hle _]. by apply Hw. Qed.

Ltac fall := apply falls_same; simpl; [lia|lia|intros n n' Hle; simpl; lia].

Lemma chan_made f σ m : closed_chan (slot_at (set_made f σ) m) = closed_chan (slot_at σ m).
Proof. done. Qed.

Lemma orphan_same k e σ : live_count (recordOrphanLocked k e σ) = live_count σ
  ∧ ∀ m, slot_at (recordOrphanLocked k e σ) m = slot_at σ m.
Proof.
  destruct (sv_recordOrphan k e σ) as (_ & E2 & _ & E4 & _). unfold live_count, slot_at. by rewrite E2, E4.
Qed.

Lemma step_falls now c p σ R σ' p' new : Inv σ (p :: R) → step now c p σ = Some (σ', p', new) →
  shutdowns (p' :: new ++ R) < shutdowns (p :: R)
  ∨ (shutdowns (p' :: new ++ R) ≤ shutdowns (p :: R)
     ∧ weights σ' (closings σ' (p' :: new ++ R)) (p' :: new ++ R) < weights σ (closings σ (p :: R)) (p :: R)).
Proof.
  intros [HC HS] E. pose proof (Core_own _ _ _ HC) as Ho.
  assert (Hpre : ∀ q, sum_list_with unmarked (q :: []) < unmarked p → shutdowns (q :: [] ++ R) < shutdowns (p :: R)).
  { intros q Hq. unfold shutdowns. simpl in *. lia. }
  destruct p as [db br|db br m parked|db br l|db br l e|db br l e r|db br l s|db br s|db br s e|k id|k m parked|k m|k m e
    | | | |jerr|jerr|jerr waits mine|jerr waits|r|r|r]; simpl in Ho.
  - right. destruct c; try discriminate E. simpl in E. destruct (opOpen_check _ σ) as [x|m|] eqn:Ec; injection E as <- <- <-.
    + fall.
    + apply falls_same; simpl; [lia|lia|]. intros n n' Hle.
      assert (closed_chan (slot_at σ m) = false) as ->; [|simpl; lia].
      assert (HC0 : Core σ R) by (eapply Core_drop, HC; split_and!; [|done|]; [|by intros ? []]; done).
      unfold opOpen_check in Ec. repeat case_match; simplify_eq.
      destruct (slot_shape σ R _ m HC0 H0) as [[Hs _]|[(s & i & _ & Hs & _)|(s & i & _ & Hs & _)]]; by rewrite Hs.
    + apply falls; simpl; [lia|unfold live_count; simpl; lia| |].
      * right. intros m. by apply (chan_put (key db br) reserved_slot σ m).
      * intros n n' _. lia.
  - right. destruct c; destruct parked; try discriminate E; simpl in E;
      (destruct (closed_chan (slot_at σ m)) eqn:Hd; simplify_eq); apply falls_same; simpl;
      try lia; intros n n' Hle; rewrite ?Hd; simpl; lia.
  - right. destruct c; try discriminate E; simpl in E; injection E as <- <- <-; [|fall].
    apply falls; simpl; [lia| |by right|].
    + unfold live_count. simpl. rewrite filter_app, length_app. simpl. lia.
    + intros n n' _. lia.
  - right. destruct c; try discriminate E; simpl in E; injection E as <- <- <-. fall.
  - right. destruct c; try discriminate E; simpl in E; injection E as <- <- <-.
    destruct (orphan_same (key db br) (Some e) σ) as [H1 H2].
    apply falls; simpl; [lia|unfold live_count in *; simpl; lia| |intros; lia].
    right. intros m. unfold slot_at in *. simpl. by rewrite H2.
  - right. destruct c; try discriminate E; simpl in E; destruct (sv_closing σ); try discriminate E.
    + injection E as <- <- <-. apply falls; simpl; [lia|unfold live_count; simpl; lia|by right|intros; lia].
    + simpl in E. do 2 (case_bool_decide; [done|]). simpl in E. injection E as <- <- <-.
      apply falls; simpl; [lia|unfold live_count; simpl; lia| |intros; lia].
      right. intros m. by apply (chan_put (key db br) (mkSlot (Some s) id None None) σ m).
  - right. destruct c; try discriminate E; simpl in E. destruct Ho as (_ & _ & Hs).
    rewrite (session_Close_live _ _ _ _ Hs) in E. injection E as <- <- <-.
    apply falls; simpl; [lia| |by right|intros; lia]. rewrite (live_shut σ s _ Hs). lia.
  - right. destruct c; try discriminate E; simpl in E; injection E as <- <- <-.
    apply falls; simpl; [lia|unfold live_count; simpl; lia|by right|intros; lia].
  - right. destruct c; try discriminate E. simpl in E. unfold opClose_step in E.
    destruct (sv_sessions σ !! k) as [l|]; [|injection E as <- <- <-; fall].
    destruct (isReserved (slot_at σ l) || _); [injection E as <- <- <-; fall|].
    destruct (isClosing (slot_at σ l)); [injection E as <- <- <-; fall|].
    unfold markClosingLocked in E. simpl in E. injection E as <- <- <-.
    apply falls; simpl; [lia|unfold live_count; simpl; lia| |intros; lia].
    right. intros m. by apply (chan_put k (mkSlot (sl_sess (slot_at σ l)) (sl_id (slot_at σ l)) (Some false) None) σ m).
  - right. destruct c; destruct parked; try discriminate E; simpl in E; repeat case_match; simplify_eq; fall.
  - right. destruct c; try discriminate E; simpl in E. destruct Ho as (s & id & Hk & Hm & Hs & _).
    rewrite (slot_at_lookup _ _ _ Hm) in E. simpl in E. rewrite (session_Close_live _ _ _ _ Hs) in E. injection E as <- <- <-.
    apply falls; simpl; [lia| |by right|intros; lia]. rewrite (live_shut σ s _ Hs). lia.
  - right. destruct c; try discriminate E; simpl in E; injection E as <- <- <-. destruct Ho as (s & id & Hk & Hm & _).
    destruct (closeSlot_end_fields now k m e σ s id Hk Hm) as (_ & _ & _ & _ & Ed & _).
    apply falls; [simpl; lia|unfold live_count; rewrite Ed; simpl; lia| |intros; simpl; lia].
    left. unfold live_count; rewrite Ed; simpl; lia.
  - right. destruct c; try discriminate E; simpl in E. destruct (sv_closing σ); injection E as <- <- <-; [fall|].
    apply falls; simpl; [lia|unfold live_count; simpl; lia|by right|intros; lia].
  - right. destruct c; try discriminate E; simpl in E; repeat case_match; simplify_eq; fall.
  - right. destruct c; try discriminate E; simpl in E; simplify_eq; fall.
  - destruct c; try discriminate E; simpl in E; repeat case_match; simplify_eq; [right; fall|left; apply Hpre; simpl; lia].
  - left. destruct c; try discriminate E; simpl in E. case_bool_decide; [|done].
    destruct (shutdown_mark ks σ) as [[??]?]. injection E as <- <- <-. apply Hpre; simpl; lia.
  - right. destruct c; try discriminate E; simpl in E; injection E as <- <- <-.
    assert (Hlen : ∀ n, sum_list_with (weight σ n) ((λ c, PSlot c.1 c.2) <$> mine) = 3 * length mine
      ∧ sum_list_with unmarked ((λ c, PSlot c.1 c.2) <$> mine) = 0
      ∧ sum_list_with pending ((λ c, PSlot c.1 c.2) <$> mine) = 0).
    { intros n. clear. induction mine as [|cc mine (H1 & H2 & H3)]; [done|].
      rewrite fmap_cons. cbn [sum_list_with weight unmarked pending]. rewrite H1, H2, H3. simpl. lia. }
    apply falls_same; simpl; [destruct (Hlen 0); lia|destruct (Hlen 0); lia|].
    intros n n' _. destruct (Hlen n') as [-> _]. lia.
  - right. destruct c; try discriminate E; simpl in E; repeat case_match; simplify_eq; fall.
  - right. destruct c; try discriminate E; simpl in E; injection E as <- <- <-.
    apply falls; simpl; [lia|unfold live_count; simpl; lia|by right|intros; lia].
  - right. destruct c; try discriminate E; simpl in E; injection E as <- <- <-.
    apply falls; simpl; [lia|unfold live_count; simpl; lia|by right|intros; lia].
  - destruct c; discriminate E.
Qed.

(** ** Every schedule settles *)

Definition all_answered (d : daemon) : Prop := ∀ p, p ∈ d_threads d → answered p = true.

(** A goroutine can move, and not because a timer fires. *)
Definition can_go (d : daemon) : Prop :=
  ∃ now i c d', c ≠ Timeout ∧ do_move (MStep now i c) d = Some d'.

(** Whatever steps are taken, in any order, they come to an end, and that is only
    when every request has its answer. *)
Inductive settles (d : daemon) : Prop :=
  settles_intro : all_answered d ∨ can_go d →
    (∀ now i c d', do_move (MStep now i c) d = Some d' → settles d') → settles d.

Lemma inv_can_go d : daemon_inv d → all_answered d ∨ can_go d.
Proof.
  intros HI. destruct (decide (Forall (λ p, answered p = true) (d_threads d))) as [Ha|Ha].
  { left. rewrite Forall_forall in Ha. intros p. apply Ha. }
  right. apply not_Forall_Exists in Ha; [|apply _]. apply Exists_exists in Ha as (p & Hp & Hn).
  apply not_true_is_false in Hn.
  destruct (progress _ _ _ HI Hp Hn) as (q & Hq & c & Hc & Hen).
  apply list_elem_of_lookup in Hq as [i Hi]. destruct (Hen 0%Z) as [[[σ' p'] new] Es].
  exists 0%Z, i, c. eexists. split; [done|]. simpl. by rewrite Hi, Es.
Qed.

Lemma shutdowns_perm T T' : T ≡ₚ T' → shutdowns T = shutdowns T'.
Proof. unfold shutdowns. induction 1; simpl; lia. Qed.

Lemma closings_perm σ T T' : T ≡ₚ T' → closings σ T = closings σ T'.
Proof.
  unfold closings. intros Hp. assert (sum_list_with pending T = sum_list_with pending T'); [|lia].
  induction Hp; simpl; lia.
Qed.

Lemma weights_perm σ n T T' : T ≡ₚ T' → weights σ n T = weights σ n T'.
Proof. unfold weights. induction 1; simpl; lia. Qed.

Definition cost (d : daemon) : nat := weights (d_server d) (closings (d_server d) (d_threads d)) (d_threads d).

Lemma move_falls now i c d d' : daemon_inv d → do_move (MStep now i c) d = Some d' →
  shutdowns (d_threads d') < shutdowns (d_threads d)
  ∨ (shutdowns (d_threads d') ≤ shutdowns (d_threads d) ∧ cost d' < cost d).
Proof.
  intros HI E. simpl in E. destruct (d_threads d !! i) as [p|] eqn:Hi; [|done].
  destruct (step now c p (d_server d)) as [[[σ' p'] new]|] eqn:Es; [|done]. injection E as <-. unfold cost. simpl.
  destruct (threads_split _ _ _ Hi) as [H1 H2].
  assert (H3 : <[i := p']> (d_threads d) ++ new ≡ₚ p' :: new ++ delete i (d_threads d)).
  { rewrite H2. simpl. by rewrite (Permutation_app_comm new). }
  rewrite (closings_perm _ _ _ H3), (weights_perm _ _ _ _ H3), (shutdowns_perm _ _ H3).
  rewrite (closings_perm _ _ _ H1), (weights_perm _ _ _ _ H1), (shutdowns_perm _ _ H1).
  eapply step_falls; [|exact Es]. by eapply Inv_perm.
Qed.

Lemma inv_settles d : daemon_inv d → settles d.
Proof.
  remember (shutdowns (d_threads d)) as a eqn:Ha. revert d Ha.
  induction a as [a IHa] using lt_wf_ind. intros d Ha.
  remember (cost d) as b eqn:Hb. revert d Ha Hb.
  induction b as [b IHb] using lt_wf_ind. intros d -> -> HI.
  constructor; [by apply inv_can_go|]. intros now i c d' E.
  pose proof (move_inv _ _ _ HI E) as HI'.
  destruct (move_falls _ _ _ _ _ HI E) as [Hlt|[Hle Hlt]].
  - by eapply IHa.
  - destruct (decide (shutdowns (d_threads d') = shutdowns (d_threads d))) as [Heq|Hne].
    + eapply IHb; [exact Hlt|by rewrite Heq|done|done].
    + eapply IHa; [|done|done]. lia.
Qed.
