(* ===== verification/DaemonProps.v ===== *)
(** * The daemon's sessions: what the daemon promises

    The properties of every reachable state: one session per branch, events that
    tell a subscriber which, closes that act on the session they name, shutdowns
    that leave nothing behind, and an answer for every request. *)
From Stdlib Require Import Ascii String.
From stdpp Require Import sorting.
From S2P Require Import Prelude GoStrings Keys Refs Events Daemon DaemonInv DaemonRun.
Local Open Scope string_scope.
Local Open Scope nat_scope.
Local Open Scope list_scope.

(** ** Claims *)

Lemma has_own σ T p s : Core σ T → p ∈ T → has p s →
  ∃ k, k ∈ busy p ∧ sess_is σ s k false ∧ ∀ s', ¬ slot_of σ k s'.
Proof.
  intros HC Hp Hs. pose proof (co_own _ _ HC) as Ho. rewrite Forall_forall in Ho. specialize (Ho p Hp).
  destruct p; simpl in *; try done; subst; eexists; (split; [by left|]).
  - destruct Ho as [Hr Hs]. split; [done|]. intros s'. by eapply slot_of_reserved.
  - destruct Ho as (_ & Hk & Hs). split; [done|]. intros s'. by apply slot_of_none.
Qed.

(** A key in the hands of one goroutine is in those of no other. *)
Lemma bind_unique {A} (f : pc → list A) T x p q : NoDup (T ≫= f) → p ∈ T → q ∈ T → x ∈ f p → x ∈ f q → p = q.
Proof.
  induction T as [|r T IH]; simpl; intros Hnd Hp Hq Hxp Hxq; [by apply not_elem_of_nil in Hp|].
  apply NoDup_app in Hnd as (_ & Hd & Hnd).
  apply elem_of_cons in Hp as [->|Hp], Hq as [->|Hq]; [done| | |by apply IH].
  - destruct (Hd x Hxp). apply bind_elem. by exists q.
  - destruct (Hd x Hxq). apply bind_elem. by exists p.
Qed.

Definition live (σ : Server) (k : string) (s : nat) : Prop := sess_is σ s k false.

(** A live session is in the slot of its key, or in the hands of the one
    goroutine that is opening, or giving up, that key. *)
Lemma live_claimed σ T k s : Core σ T → live σ k s →
  (slot_of σ k s ∨ ∃ p, p ∈ T ∧ has p s ∧ k ∈ keys p ∧ ∀ s', ¬ slot_of σ k s').
Proof.
  intros HC (x & Hx & <- & Hc). destruct (co_live _ _ HC s x Hx Hc) as [|(p & Hp & Hs)]; [by left|right].
  exists p. destruct (has_own σ T p s HC Hp Hs) as (k & Hk & (x' & Hx' & <- & _) & Hn).
  rewrite Hx in Hx'. injection Hx' as <-. split_and!; [done|done|by apply busy_keys|done].
Qed.

(** C20: A daemon never has two live sessions of one branch, however requests,
    closes and shutdowns interleave: no two engines ever work on one checkout. *)
Theorem one_session_per_branch d k s1 s2 : reachable d →
  live (d_server d) k s1 → live (d_server d) k s2 → s1 = s2.
Proof.
  intros [HC _]%reachable_inv H1 H2.
  destruct (live_claimed _ _ k s1 HC H1) as [(l & sl & Hk & Hl & Hs)|(p & Hp & Hps & Hpk & Hno)],
    (live_claimed _ _ k s2 HC H2) as [(l' & sl' & Hk' & Hl' & Hs')|(q & Hq & Hqs & Hqk & Hno')]; try congruence.
  - destruct (Hno' s1). by exists l, sl.
  - destruct (Hno s2). by exists l', sl'.
  - assert (p = q) as -> by (eapply (bind_unique keys); [apply HC|done..]).
    destruct q; simpl in *; try done; congruence.
Qed.

(** C23: The event stream tells who has which branch.  A client that folds the
    events published so far ([track]) never meets an opened branch opening or a
    closed one closing, and the close it reads names the session it saw open;
    every live session is the one its view has for the branch, by holder and
    epoch; and a branch its view does not have is held by no session of the
    daemon, open or closing. *)
Theorem subscriber_tracks_sessions d : reachable d →
  ∃ m, track (sv_log (d_server d)) = Some m
    ∧ (∀ k s, live (d_server d) k s → m !! k = Some (ident (sess_at (d_server d) s)))
    ∧ (∀ k, m !! k = None → match held (d_server d) k with Some sl => isReserved sl = true | None => True end).
Proof.
  intros [HC _]%reachable_inv. destruct (co_view _ _ HC) as (m & Hm & Hv). exists m. split_and!; [done| |].
  - intros k s Hl. apply (Hv k). destruct (live_claimed _ _ k s HC Hl) as [|(p & Hp & Hs & _)]; [by left|right].
    pose proof (co_own _ _ HC) as Ho. rewrite Forall_forall in Ho.
    destruct (has_hands _ p s (Ho p Hp) Hs) as (k' & Hk' & (x & Hx & <- & _)).
    destruct Hl as (x' & Hx' & <- & _). rewrite Hx in Hx'. injection Hx' as <-. apply bind_elem. by exists p.
  - intros k Hk. unfold held. destruct (sv_sessions (d_server d) !! k) as [l|] eqn:Hl; simpl; [|done].
    destruct (slot_shape _ _ k l HC Hl) as [[-> _]|[(s & id & Hsl & _)|(s & id & Hsl & _)]]; [done| |];
      (destruct (Hv k) as [H _]; rewrite (H s) in Hk; [done|left; by eexists _, _]).
Qed.

(** C22: Every request is answered.  From any reachable state, under every schedule
    of its goroutines, with every answer of sessions, refs and timers, the steps
    come to an end; and none of them is stuck before that, even if no timer ever
    fires: while a request has no answer, some goroutine can move on its own. *)
Theorem every_request_answered d : reachable d → settles d.
Proof. intros Hd. by apply inv_settles, reachable_inv. Qed.

(** ** Closes *)

(** [k] holds, open or closing, the session [s] that was given the id [id]. *)
Definition named (σ : Server) (k id : string) (s : nat) : Prop :=
  ∃ l sl, sv_sessions σ !! k = Some l ∧ sv_heap σ !! l = Some sl ∧ sl_sess sl = Some s ∧ sl_id sl = id.

(** An id names one session, on every branch and at any time. *)
Lemma minted_unique σ T id s s' : Core σ T → (id, s) ∈ sv_minted σ → (id, s') ∈ sv_minted σ → s = s'.
Proof.
  intros HC. pose proof (co_minted _ _ HC) as Hnd. clear HC. revert Hnd.
  induction (sv_minted σ) as [|[i t] l IH]; simpl; intros Hnd H1 H2; [by apply not_elem_of_nil in H1|].
  apply NoDup_cons in Hnd as [Hni Hnd].
  apply elem_of_cons in H1 as [E1|H1], H2 as [E2|H2]; [congruence| | |by apply IH];
    destruct Hni; apply list_elem_of_fmap; simplify_eq;
    (eexists; split; [|first [exact H1|exact H2]]; done).
Qed.

Lemma not_named σ k l sl id : sv_sessions σ !! k = Some l → slot_at σ l = sl →
  sl_sess sl = None ∨ sl_id sl ≠ id → ∀ s, ¬ named σ k id s.
Proof.
  intros Hk Hs Hor s (l' & sl' & Hk' & Hl' & Hss & Hid). rewrite Hk in Hk'. injection Hk' as <-.
  rewrite (slot_at_lookup _ _ _ Hl') in Hs. subst sl'. destruct Hor; congruence.
Qed.

(** C24: A close that names a session acts on that session only.  If the branch's
    slot is not of that session, it answers that the session is not open, and
    changes nothing, whatever has been opened since; else it waits for the close
    in progress of that session, or starts it, and leaves every other slot as it
    is.  The id is the one given to that session and to no other. *)
Theorem close_by_id_exact d now c k id σ' p' new : reachable d → id ≠ "" →
  step now c (PClose k id) (d_server d) = Some (σ', p', new) →
  let σ := d_server d in
  new = [] ∧
  ((σ' = σ ∧ p' = PRet (RErr (SessionNotOpen id k)) ∧ ∀ s, ¬ named σ k id s)
   ∨ ∃ s, named σ k id s ∧ (∀ s', (id, s') ∈ sv_minted σ ↔ s' = s) ∧
       ((σ' = σ ∧ ∃ m, p' = PCloseWait k m false ∧ sv_sessions σ !! k = Some m)
        ∨ (∃ m, p' = PSlot k m ∧ marks σ' k m false ∧ named σ' k id s
             ∧ ∀ k', k' ≠ k → held σ' k' = held σ k'))).
Proof.
  intros [HC _]%reachable_inv Hid E. cbv zeta. destruct c; try discriminate E. simpl in E. unfold opClose_step in E.
  rewrite (bool_decide_eq_false_2 (id = "")) in E by done. simpl in E.
  destruct (sv_sessions (d_server d) !! k) as [l|] eqn:Hk.
  2: { injection E as <- <- <-. split; [done|]. left. split_and!; [done|done|].
       intros s (l & sl & Hk' & _). congruence. }
  assert (Hone : ∀ s, (id, s) ∈ sv_minted (d_server d) → ∀ s', (id, s') ∈ sv_minted (d_server d) ↔ s' = s).
  { intros s Hi s'. split; [by intros; eapply minted_unique|by intros ->]. }
  destruct (slot_shape _ _ k l HC Hk) as [[Hs _]|[(s & i & Hl & Hs & Hi & _)|(s & i & Hl & Hs & Hi)]];
    pose proof (not_named _ k l _ id Hk Hs) as Hnn; rewrite Hs in E; simpl in E, Hnn.
  - injection E as <- <- <-. split; [done|]. left. split_and!; [done|done|auto].
  - destruct (decide (i = id)) as [->|Hne].
    + rewrite bool_decide_eq_true_2 in E by done. simpl in E. unfold markClosingLocked in E. simpl in E.
      injection E as <- <- <-. split; [done|]. right. exists s.
      split_and!; [by eexists _, _|auto|]. right. exists (length (sv_heap (d_server d))).
      pose proof (Core_mark k l s id _ _ HC Hk Hl) as HC'. unfold markClosingLocked in HC'. simpl in HC'.
      pose proof (Core_own _ _ _ HC') as Hmk. simpl in Hmk. split_and!; [done|done| |].
      * eexists _, _. simpl. rewrite lookup_insert_eq. split; [done|].
        rewrite lookup_app_r, Nat.sub_diag by lia. by split_and!.
      * intros k' Hne. unfold held. simpl. rewrite lookup_insert_ne by done.
        destruct (sv_sessions (d_server d) !! k') as [l'|] eqn:Hk'; [|done]. simpl. f_equal.
        unfold slot_at. simpl. by rewrite lookup_app_l by (by eapply slot_bound).
    + rewrite (bool_decide_eq_false_2 (i = id)) in E by done. simpl in E. injection E as <- <- <-.
      split; [done|]. left. split_and!; [done|done|auto].
  - destruct (decide (i = id)) as [->|Hne].
    + rewrite bool_decide_eq_true_2 in E by done. simpl in E. injection E as <- <- <-. split; [done|].
      right. exists s. split_and!; [by eexists _, _|auto|]. left. split; [done|]. by exists l.
    + rewrite (bool_decide_eq_false_2 (i = id)) in E by done. simpl in E. injection E as <- <- <-.
      split; [done|]. left. split_and!; [done|done|auto].
Qed.

(** ** Shutdown *)

Lemma step_done now c p σ σ' p' new : main p = false → step now c p σ = Some (σ', p', new) →
  sv_shutdownDone σ' = sv_shutdownDone σ ∧ sv_shutdownErr σ' = sv_shutdownErr σ.
Proof.
  intros Hm E. destruct p; try discriminate Hm; destruct c; try discriminate E; simpl in E;
    try (repeat case_match; simplify_eq; done).
  - injection E as <- <- <-.
    destruct (sv_recordOrphan (key db br) (Some e) σ) as (_ & _ & _ & _ & _ & _ & _ & E8 & E9). simpl. by rewrite E8, E9.
  - unfold session_Close in E. repeat case_match; simplify_eq; done.
  - unfold opClose_step, markClosingLocked, put_slot in E. repeat case_match; simplify_eq; done.
  - unfold session_Close in E. repeat case_match; simplify_eq; done.
  - injection E as <- <- <-. unfold closeSlot_end. simpl.
    match goal with |- context [recordOrphanLocked k err ?x] =>
      destruct (sv_recordOrphan k err x) as (_ & _ & _ & _ & _ & _ & _ & E8 & E9) end.
    rewrite E8, E9. by destruct (bool_decide _).
Qed.

(** Nothing is opened or closed behind a shutdown that drained the daemon. *)
Lemma step_drained now c p σ R σ' p' new : Inv σ (p :: R) → drained σ → sv_closing σ = true → main p = false →
  step now c p σ = Some (σ', p', new) → sv_made σ' = sv_made σ ∧ drained σ' ∧ sv_closing σ' = true.
Proof.
  intros [HC HS] Hd Hcl Hm E. pose proof Hd as [Hs Hw].
  assert (Hb : busy p = []).
  { pose proof (co_wg _ _ HC) as H. rewrite Hw in H. simpl in H. rewrite length_app in H. destruct (busy p); [done|simpl in H; lia]. }
  assert (Hc : closes p = []).
  { destruct (closes p) as [|k ks] eqn:Hk; [done|]. pose proof (Core_own _ _ _ HC) as Ho.
    destruct p; simpl in Hk; try done; simpl in Hm; try done; destruct Ho as (s & id & H & _); by rewrite Hs in H. }
  destruct p; try done; destruct c; try discriminate E; simpl in E; try (repeat case_match; simplify_eq; done).
  - unfold opOpen_check in E. rewrite Hcl in E. by injection E as <- <- <-.
  - unfold opClose_step in E. rewrite Hs, lookup_empty in E. by injection E as <- <- <-.
Qed.

(** What the answer of a [Shutdown] or a [WaitShutdown] says of the daemon. *)
Definition told (σ : Server) (p : pc) : Prop :=
  match p with
  | PRet (RShutdown r) => r = Some ShutdownWait ∨ (sv_shutdownDone σ = true ∧ sv_shutdownErr σ = r)
  | _ => True
  end.

Lemma step_told now c p σ R σ' p' new : Inv σ (p :: R) → step now c p σ = Some (σ', p', new) →
  told σ' p' ∧ Forall (told σ') new ∧ ∀ q, told σ q → told σ' q.
Proof.
  intros [HC HS] E. destruct (main p) eqn:Hm.
  - destruct (main_alone σ p R HS Hm) as (_ & Hd & _). pose proof (sh_phase _ _ HS) as Hph.
    apply Forall_cons in Hph as [Hph _]. split_and!.
    + destruct p; try discriminate Hm; destruct c; try discriminate E; simpl in E; repeat case_match; simplify_eq; try done.
      simpl in Hph. right. simpl. naive_solver.
    + destruct p; try discriminate Hm; destruct c; try discriminate E; simpl in E; repeat case_match; simplify_eq; try done; try by constructor.
      apply Forall_fmap, Forall_true. done.
    + intros q. destruct q; simpl; try done. destruct r; try done. intros [|[H _]]; [by left|congruence].
  - pose proof (step_done now c p σ σ' p' new Hm E) as [Hd He]. split_and!.
    + unfold told. rewrite Hd, He. destruct p; try discriminate Hm; destruct c; try discriminate E; simpl in E;
        try (unfold opClose_step in E); repeat case_match; simplify_eq; try done; auto;
        match goal with H : answer ?x = _ |- _ => by destruct x end.
    + destruct p; try discriminate Hm; destruct c; try discriminate E; simpl in E; repeat case_match; simplify_eq; by constructor.
    + intros q. unfold told. by rewrite Hd, He.
Qed.

Definition daemon_told (d : daemon) : Prop := daemon_inv d ∧ Forall (told (d_server d)) (d_threads d).

Lemma move_told m d d' : daemon_told d → do_move m d = Some d' → daemon_told d'.
Proof.
  intros [HI HT] E. split; [by eapply move_inv|]. destruct m as [now i c|p|now s event kv]; simpl in E.
  - destruct (d_threads d !! i) as [p|] eqn:Hi; [|done].
    destruct (step now c p (d_server d)) as [[[σ' p'] new]|] eqn:Es; [|done]. injection E as <-. simpl.
    destruct (threads_split _ _ _ Hi) as [H1 _].
    destruct (step_told now c p _ _ σ' p' new (Inv_perm _ _ _ H1 HI) Es) as (H2 & H3 & H4).
    apply Forall_app. split; [|done]. apply Forall_insert; [|done]. eapply Forall_impl; [exact HT|]. apply H4.
  - destruct (may_start _ p) eqn:Hp; [|done]. injection E as <-. simpl. apply Forall_app. split; [done|].
    constructor; [|done]. by destruct p.
  - repeat case_match; simplify_eq; done.
Qed.

Lemma reachable_told d : reachable d → daemon_told d.
Proof.
  intros (ms & Hms). assert (HI : daemon_told started) by (split; [apply Inv_started|constructor]).
  revert HI Hms. generalize started as d0. induction ms as [|m ms IH]; simpl; intros d0 HI Hms.
  - by injection Hms as <-.
  - destruct (do_move m d0) as [d1|] eqn:Em; [|done]. eapply IH; [|exact Hms]. by eapply move_told.
Qed.

(** A daemon whose shutdown is over and drained it. *)
Definition over (d : daemon) : Prop :=
  daemon_inv d ∧ sv_shutdownDone (d_server d) = true ∧ drained (d_server d).

Lemma over_closing d : over d → sv_closing (d_server d) = true ∧ Forall (λ p, main p = false) (d_threads d).
Proof.
  intros ((_ & HS) & Hd & _). pose proof (sh_main _ _ HS) as H. rewrite Hd in H.
  destruct (sv_closing (d_server d)); simpl in H; [|lia]. split; [done|]. apply Forall_forall. intros p Hp.
  destruct (main p) eqn:Hm; [|done]. exfalso. unfold mains in H.
  assert (p ∈ filter (λ p, main p = true) (d_threads d)) as Hf by (by apply list_elem_of_filter).
  destruct (filter _ _); [by apply not_elem_of_nil in Hf|simpl in H; lia].
Qed.

Lemma move_over m d d' : over d → do_move m d = Some d' → over d' ∧ sv_made (d_server d') = sv_made (d_server d).
Proof.
  intros Ho E. pose proof (over_closing d Ho) as [Hcl Hmn]. destruct Ho as (HI & Hd & Hdr).
  pose proof (move_inv _ _ _ HI E) as HI'. unfold over. destruct m as [now i c|p|now s event kv]; simpl in E.
  - destruct (d_threads d !! i) as [p|] eqn:Hi; [|done].
    destruct (step now c p (d_server d)) as [[[σ' p'] new]|] eqn:Es; [|done]. injection E as <-. simpl.
    destruct (threads_split _ _ _ Hi) as [H1 _].
    pose proof (Forall_lookup_1 _ _ _ _ Hmn Hi) as Hm.
    destruct (step_drained now c p _ _ σ' p' new (Inv_perm _ _ _ H1 HI) Hdr Hcl Hm Es) as (H2 & H3 & _).
    destruct (step_done now c p _ σ' p' new Hm Es) as [H4 _]. by rewrite H4.
  - destruct (may_start _ p); [|done]. by injection E as <-.
  - repeat case_match; simplify_eq; done.
Qed.

Lemma drained_closed d : daemon_inv d → drained (d_server d) → Forall (λ x, ss_closed x = true) (sv_made (d_server d)).
Proof.
  intros [HC _] [Hs Hw]. apply Forall_lookup. intros s x Hx. destruct (ss_closed x) eqn:Hc; [done|].
  destruct (co_live _ _ HC s x Hx Hc) as [(l & sl & Hk & _)|(p & Hp & Hps)]; [by rewrite Hs in Hk|].
  destruct (has_own _ _ p s HC Hp Hps) as (k & Hk & _). pose proof (co_wg _ _ HC) as H. rewrite Hw in H.
  assert (k ∈ d_threads d ≫= busy) as Hin by (apply bind_elem; by exists p).
  destruct (d_threads d ≫= busy); [by apply not_elem_of_nil in Hin|done].
Qed.

(** C21: A shutdown that returns leaves nothing behind.  When [Shutdown] or
    [WaitShutdown] has answered, with nil or with any error but the three that say
    it gave up waiting, every session the daemon ever opened, by an open that was
    still in flight or not, is closed, by whichever goroutine, and no slot is left;
    and so it remains: no later request opens a session. *)
Theorem shutdown_closes_everything d i r : reachable d →
  d_threads d !! i = Some (PRet (RShutdown r)) → clean r → r ≠ Some ShutdownWait →
  ∀ ms d', do_moves ms d = Some d' →
    sv_made (d_server d') = sv_made (d_server d)
    ∧ Forall (λ x, ss_closed x = true) (sv_made (d_server d')) ∧ sv_sessions (d_server d') = ∅.
Proof.
  intros [HI HT]%reachable_told Hi Hc Hr.
  destruct (Forall_lookup_1 _ _ _ _ HT Hi) as [|[Hd He]]; [done|].
  assert (Ho : over d).
  { split_and!; [done|done|]. destruct HI as [_ HS]. apply (sh_done _ _ HS Hd). by rewrite He. }
  clear - Ho. intros ms. revert d Ho. induction ms as [|m ms IH]; simpl; intros d Ho d' E.
  - injection E as <-. destruct Ho as (HI & _ & Hdr). split_and!; [done|by apply drained_closed|apply Hdr].
  - destruct (do_move m d) as [d1|] eqn:Em; [|done]. destruct (move_over _ _ _ Ho Em) as [Ho1 Hm].
    rewrite <- Hm. by apply IH.
Qed.
