(* ===== verification/DaemonOps.v ===== *)
(** * The daemon's other requests

    [internal/daemon/server.go], protocol.go: the requests that are answered on the
    spot.  Each handler is a program of three kinds of calls: a look at what the
    daemon holds on a branch ([lookupSessionState], under [s.mu]), a flush of an
    open session, and an operation of the workspace.  What these answer is up to
    the rest of the program, which runs between any two of them.  The theorem is
    the guard's: what an operation needs free was seen free, what it reads was
    flushed, and what the guard takes for free has no session. *)
From Stdlib Require Import Ascii String.
From stdpp Require Import sorting.
From S2P Require Import Prelude GoStrings Keys Refs Events Daemon DaemonInv DaemonRun.
Local Open Scope string_scope.
Local Open Scope nat_scope.
Local Open Scope list_scope.

(** ** What the daemon holds on a branch *)

Inductive sessionState := sessionAbsent | sessionReserved | sessionOpen | sessionClosing.

Definition lookupSessionState (db branch : string) (σ : Server) : sessionState * option nat :=
  match held σ (key db branch) with
  | None => (sessionAbsent, None)
  | Some sl =>
      if isReserved sl then (sessionReserved, None)
      else if isClosing sl then (sessionClosing, sl_sess sl)
      else (sessionOpen, sl_sess sl)
  end.

(** [lookup]: the live session of the branch, or why there is none. *)
Definition lookup (db branch : string) (σ : Server) : derr + nat :=
  let k := key db (default_branch branch) in
  match held σ k with
  | None => inl (NotOpen k)
  | Some sl =>
      match sl_sess sl with
      | None => inl (NotOpen k)
      | Some s => if isClosing sl then inl (IsClosing k) else inr s
      end
  end.

Definition sessionCount (σ : Server) : nat :=
  length (filter (λ c, isOpen (slot_at σ c.2) = true) (map_to_list (sv_sessions σ))).

(** The sessions [opStatus] lists, by key, with whether each is closing. *)
Definition status_list (σ : Server) : list (nat * bool) :=
  let ks := filter (λ k, match held σ k with Some sl => negb (isReserved sl) | None => false end = true)
              (map_to_list (sv_sessions σ)).*1 in
  omap (λ k, match held σ k with
             | Some sl => (λ s, (s, isClosing sl)) <$> sl_sess sl
             | None => None
             end) (sort_by String.le ks).

(** ** Requests *)

(** The fields the handlers here read; a duration is a [ttl], as in a ref. *)
Record Request := mkReq {
  q_Op : string; q_DB : string; q_Branch : string; q_Name : string; q_From : string;
  q_TTL : ttl; q_Meta : gmap string string; q_Force : bool; q_Path : string;
  q_NoBackup : bool; q_Materialize : bool; q_BackupTTL : ttl; q_SessionID : string;
  q_Names : list string; q_Keep : option Z
}.

(** The operations of the workspace they call. *)
Inductive ws_op :=
  | DoCreate (db : string)
  | DoCreateFrom (db path : string)
  | DoCheckout (db branch : string)
  | DoFork (db branch name from : string) (ttl : Z) (meta : gmap string string)
  | DoDestroy (db branch : string) (force : bool)
  | DoRollback (db branch name : string) (nobackup : bool) (backupTTL : Z) (materialize : bool)
  | DoPromote (db source target : string) (force nobackup : bool) (backupTTL : Z) (materialize : bool)
  | DoCompact (db branch : string)
  | DoTouch (db branch : string) (ttl : option Z)
  | DoPrune (db branch : string) (names : list string) (keep : option Z) (force : bool)
  | DoExport (db branch name path : string) (force : bool)
  | DoCheckoutAt (db branch name : string) (force : bool).

(** What an operation that succeeds puts in the response. *)
Record ws_out := mkOut { o_Path : string; o_TXID : N; o_Backup : string; o_Shared : bool; o_Pruned : list string; o_Kept : nat }.

Inductive herr :=
  | Refused (e : derr)
  | BadDuration | BadMeta | NotAbsolute | UnknownOp (op : string) | SocketOnly
  | FlushFailed (k opName : string) (e : error)
  | OpFailed (e : error).

Inductive hresp :=
  | HOk (o : option ws_out)
  | HErr (e : herr).

Inductive handler :=
  | HRet (r : hresp)
  | HLook (db branch : string) (k : sessionState * option nat → handler)
  | HFlush (db branch : string) (s : nat) (name : string) (meta : gmap string string) (k : res N → handler)
  | HOp (o : ws_op) (k : res ws_out → handler).

(** ** The guards *)

(** [refuseIfClaimed], then the rest. *)
Definition refuseIfClaimed (db branch : string) (rest : handler) : handler :=
  HLook db branch (λ st, match st with
    | (sessionClosing, _) => HRet (HErr (Refused (ClosingRetry (key db branch))))
    | (sessionReserved, _) | (sessionOpen, _) => HRet (HErr (Refused (OpenHere (key db branch))))
    | (sessionAbsent, _) => rest
    end).

(** [flushIfOpen], then the rest. *)
Definition flushIfOpen (db branch opName : string) (rest : handler) : handler :=
  HLook db branch (λ st, match st with
    | (sessionOpen, Some s) =>
        HFlush db branch s "" ∅ (λ r, match r with
          | Err e => HRet (HErr (FlushFailed (key db branch) opName e))
          | Ok _ => rest
          end)
    | (sessionOpen, None) => HRet (HErr (Refused (OpenHere (key db branch))))
    | (sessionReserved, _) => HRet (HErr (Refused (OpenHere (key db branch))))
    | (sessionClosing, _) => HRet (HErr (Refused (ClosingRetry (key db branch))))
    | (sessionAbsent, _) => rest
    end).

(** The last call of a handler, and its response. *)
Definition finish (o : ws_op) : handler :=
  HOp o (λ r, match r with Ok out => HRet (HOk (Some out)) | Err e => HRet (HErr (OpFailed e)) end).

(** [filepath.IsAbs] on unix. *)
Definition IsAbs (path : string) : bool := HasPrefix path "/".

(** An optional duration that must be positive; [time.ParseDuration]. *)
Definition positive_or (d : ttl) (rest : Z → handler) : handler :=
  match d with
  | NoTTL => rest 0%Z
  | _ => match parse_ttl d with
         | Some z => if (z <=? 0)%Z then HRet (HErr BadDuration) else rest z
         | None => HRet (HErr BadDuration)
         end
  end.

Definition RollbackBackupSuffix : string := "-pre-rollback".
Definition PromoteBackupSuffix : string := "-pre-promote".

(** ** The handlers *)

Definition opCreate (q : Request) : handler :=
  if bool_decide (q_Path q = "") then finish (DoCreate (q_DB q))
  else if negb (IsAbs (q_Path q)) then HRet (HErr NotAbsolute)
  else finish (DoCreateFrom (q_DB q) (q_Path q)).

Definition opCheckoutAtRest (q : Request) : handler :=
  let branch := default_branch (q_Branch q) in
  refuseIfClaimed (q_DB q) branch (finish (DoCheckout (q_DB q) branch)).

Definition opFork (q : Request) : handler :=
  let branch := default_branch (q_Branch q) in
  positive_or (q_TTL q) (λ ttl,
    if is_ok (ValidateMeta (q_Meta q)) then
      flushIfOpen (q_DB q) branch "fork"
        (finish (DoFork (q_DB q) branch (q_Name q) (q_From q) ttl (q_Meta q)))
    else HRet (HErr BadMeta)).

Definition opDestroy (q : Request) : handler :=
  let branch := default_branch (q_Branch q) in
  refuseIfClaimed (q_DB q) branch (finish (DoDestroy (q_DB q) branch (q_Force q))).

Definition opRollback (q : Request) : handler :=
  let branch := default_branch (q_Branch q) in
  refuseIfClaimed (q_DB q) branch
    (positive_or (q_BackupTTL q) (λ ttl,
       let op := finish (DoRollback (q_DB q) branch (q_Name q) (q_NoBackup q) ttl (q_Materialize q)) in
       if q_NoBackup q then op
       else refuseIfClaimed (q_DB q) (branch +:+ RollbackBackupSuffix) op)).

(** The target is not defaulted. *)
Definition opPromote (q : Request) : handler :=
  let source := default_branch (q_Branch q) in
  let target := q_Name q in
  refuseIfClaimed (q_DB q) target
    (positive_or (q_BackupTTL q) (λ ttl,
       let op := flushIfOpen (q_DB q) source "promote"
         (finish (DoPromote (q_DB q) source target (q_Force q) (q_NoBackup q) ttl (q_Materialize q))) in
       if q_NoBackup q then op
       else refuseIfClaimed (q_DB q) (target +:+ PromoteBackupSuffix) op)).

Definition opCompact (q : Request) : handler :=
  let branch := default_branch (q_Branch q) in
  refuseIfClaimed (q_DB q) branch (finish (DoCompact (q_DB q) branch)).

Definition opTouch (q : Request) : handler :=
  let branch := default_branch (q_Branch q) in
  let touch ttl := finish (DoTouch (q_DB q) branch ttl) in
  match q_TTL q with
  | NoTTL => touch None
  | BadTTL "none" => touch (Some 0%Z)
  | d => match parse_ttl d with
         | Some z => if (z <=? 0)%Z then HRet (HErr BadDuration) else touch (Some z)
         | None => HRet (HErr BadDuration)
         end
  end.

Definition opPrune (q : Request) : handler :=
  finish (DoPrune (q_DB q) (default_branch (q_Branch q)) (q_Names q) (q_Keep q) (q_Force q)).

Definition opExport (q : Request) : handler :=
  if negb (IsAbs (q_Path q)) then HRet (HErr NotAbsolute)
  else finish (DoExport (q_DB q) (default_branch (q_Branch q)) (q_Name q) (q_Path q) (q_Force q)).

Definition opCheckoutAt (q : Request) : handler :=
  finish (DoCheckoutAt (q_DB q) (default_branch (q_Branch q)) (q_Name q) (q_Force q)).

(** [opFlush]'s session is looked up by [lookup], which defaults the branch. *)
Definition opFlush (q : Request) : handler :=
  let branch := default_branch (q_Branch q) in
  HLook (q_DB q) branch (λ st, match st with
    | (sessionOpen, Some s) =>
        HFlush (q_DB q) branch s (q_Name q) (q_Meta q) (λ r, match r with
          | Err e => HRet (HErr (OpFailed e))
          | Ok txid => HRet (HOk (Some (mkOut "" txid "" false [] 0)))
          end)
    | (sessionClosing, _) => HRet (HErr (Refused (IsClosing (key (q_DB q) branch))))
    | _ => HRet (HErr (Refused (NotOpen (key (q_DB q) branch))))
    end).

(** ** Dispatch *)

(** What a request becomes: a goroutine of [Daemon], a handler, a report on the
    store or the sessions, or nothing but its acknowledgement. *)
Inductive dispatched :=
  | ToGoroutine (p : pc)
  | ToHandler (h : handler)
  | ToReport (op : string).

Definition dispatch (q : Request) : dispatched :=
  let op := q_Op q in
  let op_is s := bool_decide (op = s) in
  if op_is "open" then ToGoroutine (opOpen (q_DB q) (q_Branch q))
  else if op_is "flush" then ToHandler (opFlush q)
  else if op_is "status" then ToReport op
  else if op_is "close" then ToGoroutine (opClose (q_DB q) (q_Branch q) (q_SessionID q))
  else if op_is "shutdown" then ToHandler (HRet (HOk None))
  else if op_is "subscribe" then ToHandler (HRet (HErr SocketOnly))
  else if op_is "create" then ToHandler (opCreate q)
  else if op_is "checkout" then ToHandler (opCheckoutAtRest q)
  else if op_is "fork" then ToHandler (opFork q)
  else if op_is "destroy" then ToHandler (opDestroy q)
  else if op_is "rollback" then ToHandler (opRollback q)
  else if op_is "promote" then ToHandler (opPromote q)
  else if op_is "compact" then ToHandler (opCompact q)
  else if op_is "touch" then ToHandler (opTouch q)
  else if op_is "prune" then ToHandler (opPrune q)
  else if op_is "branches" then ToReport op
  else if op_is "dbs" then ToReport op
  else if op_is "export" then ToHandler (opExport q)
  else if op_is "checkout-at" then ToHandler (opCheckoutAt q)
  else if op_is "diff" then ToReport op
  else ToHandler (HRet (HErr (UnknownOp op))).

(** ** What the guards ensure *)

(** The branches an operation rewrites, and the one whose writes it carries on. *)
Definition rewrites (o : ws_op) : list (string * string) :=
  match o with
  | DoCheckout db br | DoDestroy db br _ | DoCompact db br => [(db, br)]
  | DoRollback db br _ nobackup _ _ =>
      (db, br) :: if nobackup then [] else [(db, br +:+ RollbackBackupSuffix)]
  | DoPromote db _ tgt _ nobackup _ _ =>
      (db, tgt) :: if nobackup then [] else [(db, tgt +:+ PromoteBackupSuffix)]
  | _ => []
  end.

Definition carries (o : ws_op) : list (string * string) :=
  match o with
  | DoFork db src _ _ _ _ | DoPromote db src _ _ _ _ _ => [(db, src)]
  | _ => []
  end.

(** Its arguments, as far as the handlers check them. *)
Definition checked (o : ws_op) : Prop :=
  match o with
  | DoCreateFrom _ path | DoExport _ _ _ path _ => IsAbs path = true
  | DoFork _ _ _ _ ttl meta => (0 <= ttl)%Z ∧ ValidateMeta meta = Ok tt
  | DoRollback _ _ _ _ ttl _ | DoPromote _ _ _ _ _ ttl _ => (0 <= ttl)%Z
  | DoTouch _ _ (Some ttl) => (0 <= ttl)%Z
  | _ => True
  end.

(** In every run of [h], whatever the looks, the flushes and the operations answer:
    an operation is called only with checked arguments, after each branch it
    rewrites was seen free ([free]), and each branch it carries on was seen free or
    its session flushed ([flushed]). *)
Fixpoint guarded (free flushed : list (string * string)) (h : handler) : Prop :=
  match h with
  | HRet _ => True
  | HLook db br k => ∀ st, guarded (match st.1 with sessionAbsent => (db, br) :: free | _ => free end) flushed (k st)
  | HFlush db br s _ _ k => ∀ r, guarded free (match r with Ok _ => (db, br) :: flushed | Err _ => flushed end) (k r)
  | HOp o k =>
      checked o ∧ (∀ b, b ∈ rewrites o → b ∈ free) ∧ (∀ b, b ∈ carries o → b ∈ free ∨ b ∈ flushed)
      ∧ ∀ r, guarded free flushed (k r)
  end.

Lemma guarded_refuse free flushed db br h :
  guarded ((db, br) :: free) flushed h → guarded free flushed (refuseIfClaimed db br h).
Proof. intros Hh [[] o]; simpl; done. Qed.

Lemma guarded_flush free flushed db br opName h :
  guarded ((db, br) :: free) flushed h → guarded free ((db, br) :: flushed) h →
  guarded free flushed (flushIfOpen db br opName h).
Proof. intros H1 H2 [[] [s|]]; simpl; try done. by intros []. Qed.

Lemma guarded_finish free flushed o : checked o → (∀ b, b ∈ rewrites o → b ∈ free) →
  (∀ b, b ∈ carries o → b ∈ free ∨ b ∈ flushed) → guarded free flushed (finish o).
Proof. intros. simpl. split_and!; [done..|]. by intros []. Qed.

Lemma guarded_positive free flushed d h :
  (∀ z, (0 <= z)%Z → guarded free flushed (h z)) → guarded free flushed (positive_or d h).
Proof.
  intros Hh. unfold positive_or. destruct d as [|z|s]; simpl; [by apply Hh| |done].
  destruct (Z.leb_spec z 0); simpl; [done|]. apply Hh. lia.
Qed.

Ltac guard_lists := intros ?; simpl; rewrite ?elem_of_cons, ?elem_of_nil; tauto.
Ltac guard_op := apply guarded_finish; [simpl; try done; try lia|guard_lists|guard_lists].

Lemma dispatch_guarded q h : dispatch q = ToHandler h → guarded [] [] h.
Proof.
  intros E. unfold dispatch in E. repeat case_bool_decide; try discriminate E; injection E as <-; try done.
  - intros [[] [s|]]; simpl; try done. by intros [].
  - unfold opCreate. case_bool_decide; [guard_op|]. destruct (IsAbs (q_Path q)) eqn:Ha; [|done]. by guard_op.
  - apply guarded_refuse. guard_op.
  - apply guarded_positive. intros z Hz. destruct (ValidateMeta (q_Meta q)) as [[]|] eqn:Hm; [|done].
    apply guarded_flush; by guard_op.
  - apply guarded_refuse. guard_op.
  - apply guarded_refuse, guarded_positive. intros z Hz. destruct (q_NoBackup q); [by guard_op|].
    apply guarded_refuse. by guard_op.
  - apply guarded_refuse, guarded_positive. intros z Hz. destruct (q_NoBackup q); [apply guarded_flush; by guard_op|].
    apply guarded_refuse, guarded_flush; by guard_op.
  - apply guarded_refuse. guard_op.
  - unfold opTouch. destruct (q_TTL q) as [|z|s]; [guard_op| |].
    + simpl. destruct (Z.leb_spec z 0); [done|]. by guard_op.
    + simpl. repeat case_match; try done; guard_op.
  - guard_op.
  - unfold opExport. destruct (IsAbs (q_Path q)) eqn:Ha; [|done]. by guard_op.
  - guard_op.
Qed.

(** [lookup] and [lookupSessionState] agree. *)
Lemma lookup_state db branch σ : lookup db branch σ =
  match lookupSessionState db (default_branch branch) σ with
  | (sessionOpen, Some s) => inr s
  | (sessionClosing, _) => inl (IsClosing (key db (default_branch branch)))
  | _ => inl (NotOpen (key db (default_branch branch)))
  end.
Proof.
  unfold lookup, lookupSessionState. destruct (held σ _) as [sl|]; [|done]. unfold isReserved.
  destruct (sl_sess sl) as [s|]; simpl; [|done]. by destruct (isClosing sl).
Qed.

(** C25: No request works behind a session's back.  Whatever a request is and
    whatever happens during it, an operation that rewrites branches is called only
    after the daemon's map showed each of them free, its backup branch included;
    one that carries on a branch's writes only after that branch was seen free or
    its session was flushed; and only with the arguments checked.  And what the
    map shows free is free: until a shutdown begins, a branch seen absent has no
    live session of this daemon, none being opened and none being closed. *)
Theorem requests_guarded :
  (∀ q h, dispatch q = ToHandler h → guarded [] [] h)
  ∧ ∀ d db br, reachable d → sv_closing (d_server d) = false →
      (lookupSessionState db br (d_server d)).1 = sessionAbsent →
      (∀ s, ¬ sess_is (d_server d) s (key db br) false) ∧ ∀ p, p ∈ d_threads d → key db br ∉ keys p.
Proof.
  split; [apply dispatch_guarded|]. intros d db br [HC _]%reachable_inv Hcl Hst.
  assert (Hk : sv_sessions (d_server d) !! key db br = None).
  { unfold lookupSessionState, held in Hst. destruct (sv_sessions (d_server d) !! key db br); [|done].
    simpl in Hst. repeat case_match; done. }
  pose proof (free_key _ _ _ HC Hcl Hk) as Hno.
  assert (Hth : ∀ p, p ∈ d_threads d → key db br ∉ keys p).
  { intros p Hp Hin. apply Hno, bind_elem. by exists p. }
  split; [|done]. intros s (x & Hx & Hxk & Hxc).
  destruct (co_live _ _ HC s x Hx Hxc) as [Hs|(p & Hp & Hps)].
  - rewrite Hxk in Hs. by apply (slot_of_none _ _ s) in Hk.
  - pose proof (co_own _ _ HC) as Ho. rewrite Forall_forall in Ho.
    destruct (has_hands _ p s (Ho p Hp) Hps) as (k & Hh & (x' & Hx' & <- & _)).
    rewrite Hx in Hx'. injection Hx' as <-. apply (Hth p Hp). rewrite <- Hxk. by eapply hands_keys.
Qed.
