(* ===== verification/DaemonExamples.v ===== *)
(** * The daemon, run

    Concrete histories of the bus and of the daemon, on which the theorems of
    [Events] and [DaemonProps] are applied, and one the guard of
    [requests_guarded] does not cover: an open that closes its own session while
    the daemon shuts down. *)
From Stdlib Require Import Ascii String.
From stdpp Require Import sorting.
From S2P Require Import Prelude GoStrings Keys Refs Events Daemon DaemonInv DaemonRun DaemonProps DaemonOps.
Local Open Scope string_scope.
Local Open Scope nat_scope.
Local Open Scope list_scope.

(** ** The bus *)

Definition ex_event (typ : string) : Event := newEvent 5 typ "a" "main" None.

(** A client with room for two events: it reads one, then stalls while four come. *)
Definition ex_turns : list (list bus_call * pick) :=
  [ ([Publish 5 (ex_event "session_opened")], PickEvent true);
    ([Publish 6 (ex_event "flushed"); Publish 7 (ex_event "fenced"); Publish 8 (ex_event "flushed");
      Publish 9 (ex_event "session_closed")], PickEvent true);
    ([], PickEvent true); ([], PickEvent true) ].

Definition ex_encode (ev : Event) : option string := Some (e_type ev).

(** It is told what it missed: [fenced] is read, the first [flushed] is not. *)
Example ex_stalled :
  (handleSubscribeOp ex_encode 2 true ex_turns newEventBus).2
  = [ "session_opened" +:+ newline; "fenced" +:+ newline; "dropped_slow_consumer" +:+ newline ]
  ∧ (handleSubscribeOp ex_encode 2 true ex_turns newEventBus).1.1 = true.
Proof. split; by vm_compute. Qed.

Lemma ex_turns_calls : drain_calls 0 ex_turns.
Proof. repeat (apply Forall_cons; split; [repeat (apply Forall_cons; split; [split; discriminate|]); apply Forall_nil; exact I|]). apply Forall_nil. exact I. Defined.

Lemma socket_stream_faithful_witness :
  let '(ret, b', lines) := handleSubscribeOp ex_encode 2 true ex_turns newEventBus in
  ∃ cs evs, b' = bus_run (subscribe 2 newEventBus).1 cs
    ∧ lines = (λ ev, default "" (ex_encode ev) +:+ newline) <$> evs
    ∧ evs `prefix_of` reads 0 (subscribe 2 newEventBus).1 cs
    ∧ stream_is 0 b' 2 (reads 0 (subscribe 2 newEventBus).1 cs) (offers 0 (subscribe 2 newEventBus).1 cs)
    ∧ (if ret then 0 ∉ b_subs b' else evs = reads 0 (subscribe 2 newEventBus).1 cs).
Proof. exact (socket_stream_faithful ex_encode [] 2 true ex_turns ltac:(lia) ex_turns_calls). Defined.

(** ** The daemon *)

(** One client opens a@main. *)
Definition ex_open : list move :=
  [ MRequest (opOpen "a" ""); MStep 1 0 Go; MStep 2 0 (OpenOk "h1" 1); MStep 3 0 (MintID "id1") ].

(** Another's open of b@main is in flight when the daemon is told to shut down. *)
Definition ex_race : list move :=
  [ MRequest (opOpen "b" "main"); MStep 4 1 Go; MRequest Shutdown; MStep 5 2 Go;
    MStep 6 1 (OpenOk "h2" 1); MStep 7 1 Go ].

Definition ex_rest : list move :=
  [ MStep 8 1 (CloseRes None); MStep 9 1 Go;
    MStep 10 2 Go; MStep 11 2 Go; MStep 12 2 (Order ["a@main"]); MStep 13 2 Go;
    MStep 14 3 (CloseRes (Some (mkSerr "release failed" [EIO] false (Some "h1")))); MStep 15 3 Go;
    MStep 16 2 Go; MStep 17 2 Go; MStep 18 2 Go ].

Definition ex_at (ms : list move) : daemon := default started (do_moves ms started).

Lemma ex_reachable ms : is_Some (do_moves ms started) → reachable (ex_at ms).
Proof. intros [d Hd]. exists ms. unfold ex_at. by rewrite Hd. Qed.

Definition d_open : daemon := ex_at ex_open.
Definition d_race : daemon := ex_at (ex_open ++ ex_race).
Definition d_over : daemon := ex_at (ex_open ++ ex_race ++ ex_rest).

Lemma d_open_reachable : reachable d_open.
Proof. apply ex_reachable. vm_compute. by eexists. Qed.
Lemma d_race_reachable : reachable d_race.
Proof. apply ex_reachable. vm_compute. by eexists. Qed.
Lemma d_over_reachable : reachable d_over.
Proof. apply ex_reachable. vm_compute. by eexists. Qed.

Example d_open_answer : d_threads d_open = [PRet (ROpened 0 "id1")].
Proof. by vm_compute. Qed.

Example d_over_answers : d_threads d_over =
  [ PRet (ROpened 0 "id1"); PRet (RErr ShuttingDown);
    PRet (RShutdown (Some (SessionErr (mkSerr "release failed" [EIO] false (Some "h1")))));
    PRet (RErr (SessionErr (mkSerr "release failed" [EIO] false (Some "h1")))) ].
Proof. by vm_compute. Qed.

Example d_over_events : (λ ev, (e_type ev, key (e_db ev) (e_branch ev))) <$> sv_log (d_server d_over) =
  [ ("session_opened", "a@main"); ("session_opened", "b@main"); ("session_closed", "b@main"); ("session_closed", "a@main") ].
Proof. by vm_compute. Qed.

Lemma d_open_live : live (d_server d_open) "a@main" 0.
Proof. exists (mkSess "a" "main" "h1" 1 false). by vm_compute. Qed.

(** While b@main's open closes the session it got, the map does not show it: the
    requests that look there before they work at rest would find b@main free. *)
Lemma self_close_unclaimed : reachable d_race
  ∧ sess_is (d_server d_race) 1 (key "b" "main") false
  ∧ (lookupSessionState "b" "main" (d_server d_race)).1 = sessionAbsent.
Proof. split; [apply d_race_reachable|]. split; [exists (mkSess "b" "main" "h2" 1 false)|]; by vm_compute. Qed.

(** ** Witnesses *)

Lemma one_session_per_branch_witness : reachable d_open ∧ live (d_server d_open) "a@main" 0 ∧ 0 = 0.
Proof.
  split; [apply d_open_reachable|]. split; [apply d_open_live|].
  exact (one_session_per_branch d_open "a@main" 0 0 d_open_reachable d_open_live d_open_live).
Defined.

Lemma subscriber_tracks_sessions_witness : reachable d_race ∧
  ∃ m, track (sv_log (d_server d_race)) = Some m
    ∧ (∀ k s, live (d_server d_race) k s → m !! k = Some (ident (sess_at (d_server d_race) s)))
    ∧ (∀ k, m !! k = None → match held (d_server d_race) k with Some sl => isReserved sl = true | None => True end).
Proof. split; [apply d_race_reachable|exact (subscriber_tracks_sessions d_race d_race_reachable)]. Defined.

Lemma every_request_answered_witness : settles d_race.
Proof. exact (every_request_answered d_race d_race_reachable). Defined.

(** A close of an earlier session of a@main, retried. *)
Lemma close_by_id_exact_witness :
  let σ := d_server d_open in
  PRet (RErr (SessionNotOpen "id0" "a@main")) = PRet (RErr (SessionNotOpen "id0" "a@main")) ∧
  ([] : list pc) = [] ∧
  ((σ = σ ∧ PRet (RErr (SessionNotOpen "id0" "a@main")) = PRet (RErr (SessionNotOpen "id0" "a@main"))
      ∧ ∀ s, ¬ named σ "a@main" "id0" s)
   ∨ ∃ s, named σ "a@main" "id0" s ∧ (∀ s', ("id0", s') ∈ sv_minted σ ↔ s' = s) ∧
       ((σ = σ ∧ ∃ m, PRet (RErr (SessionNotOpen "id0" "a@main")) = PCloseWait "a@main" m false ∧ sv_sessions σ !! "a@main" = Some m)
        ∨ (∃ m, PRet (RErr (SessionNotOpen "id0" "a@main")) = PSlot "a@main" m ∧ marks σ "a@main" m false
             ∧ named σ "a@main" "id0" s ∧ ∀ k', k' ≠ "a@main" → held σ k' = held σ k'))).
Proof.
  split; [reflexivity|].
  exact (close_by_id_exact d_open 4 Go "a@main" "id0" (d_server d_open) _ [] d_open_reachable
           ltac:(discriminate) ltac:(vm_compute; reflexivity)).
Defined.

Lemma shutdown_closes_everything_witness : reachable d_over ∧
  ∀ ms d', do_moves ms d_over = Some d' →
    sv_made (d_server d') = sv_made (d_server d_over)
    ∧ Forall (λ x, ss_closed x = true) (sv_made (d_server d')) ∧ sv_sessions (d_server d') = ∅.
Proof.
  split; [apply d_over_reachable|].
  refine (shutdown_closes_everything d_over 2
    (Some (SessionErr (mkSerr "release failed" [EIO] false (Some "h1")))) d_over_reachable _ _ _).
  - vm_compute. reflexivity.
  - split; discriminate.
  - discriminate.
Defined.

Definition ex_request : Request :=
  mkReq "promote" "a" "" "dev" "" NoTTL ∅ false "" false false (TTLof 5) "" [] None.

Lemma requests_guarded_witness :
  guarded [] [] (opPromote ex_request)
  ∧ (∀ s, ¬ sess_is (d_server d_open) s (key "a" "dev") false)
  ∧ ∀ p, p ∈ d_threads d_open → key "a" "dev" ∉ keys p.
Proof.
  split.
  - exact (proj1 requests_guarded ex_request _ eq_refl).
  - exact (proj2 requests_guarded d_open "a" "dev" d_open_reachable eq_refl eq_refl).
Defined.
